(* ===== verification/_CoqProject ===== *)
-Q . S2P
Prelude.v
Testing.v
Libp2p.v
Duration.v
PeerInfo.v
Variable.v
Locks.v
Executor.v
Metrics.v
Channel.v
AddressHandler.v
Peers.v
PeersInv.v
PeersReach.v
PeersSpec.v
PeersConn.v
PeersDial.v
PeersIdentify.v
PeersTests.v
Ipld.v
Db.v
DbSpec.v
Retention.v
StorageTests.v
Utf8.v
Behaviour.v
Network.v
NetworkService.v
NetToy.v
NetworkSpec.v
Config.v
NetworkLive.v
NetworkSafe.v
Topics.v
NetworkClient.v
NetworkNew.v
Coupled.v
Tables.v
Streams.v
GossipTest.v
Harness.v
Ipfs.v
IpfsSpec.v
IpfsStore.v
Sync.v
SyncExample.v
NodeTests.v
SyncTests.v
DhtTests.v
Lifecycle.v
GcTest.v
Text.v
Restart.v
Cli.v
CliSpec.v
CliMain.v
CliStart.v
LockUse.v
Netsim.v
Simulations.v
