(* ===== verification/Prelude.v ===== *)
(** * ipfs-embed: a verification development

    ipfs-embed is an embeddable IPFS node: a block store with garbage collection
    ([src/db.rs]), a libp2p network stack ([src/net/]), a node that joins the two
    ([src/lib.rs]), a command line tool that drives a node over a line protocol
    ([cli/]) and programs that test such nodes in simulated networks ([harness/]).  This
    library translates these parts into functions on explicit state and proves their
    properties.

    ** The program and its model

    - _Peer information_, [net/peer_info.rs], file [PeerInfo]: what is known of one
      peer - addresses with the best source that reported them, open connections, the
      ten latest failures, round-trip statistics.  Widths and overflow of the [u32]
      counters and of [Duration] (file [Duration]) are explicit.
    - _The address book_, [net/peers.rs], file [Peers]: the table of peers, our listen
      addresses, queued dials, deferred redials and the subscribers of events.  Every
      method and every [NetworkBehaviour] handler is a function on [State], the book with
      the world it acts on (clock, random numbers, event channels, the gauges of the
      process, which other nodes may change at any time).  Handlers
      that contain [unwrap], [debug_assert!] or checked arithmetic return an [outcome].
      [AddressHandler] is the handler of [net/address_handler.rs] that carries the address
      a dial validates.  [PeersTests] holds the unit tests of [net/tests.rs].
    - _The composed behaviour_, [net/behaviour.rs], file [Behaviour]: routes events of the
      sub-protocols to the address book, to the table of running queries and to the
      subscribers of topics.  Oneshot channels are numbered and every use of one is
      recorded in a log ([Answer]).
    - _The swarm task_, [poll_swarm] in [net/mod.rs], file [Network]: one step per event
      of the swarm or command of a client.  _The client_, [NetworkService] with its
      futures and the forwarding of listener events, is in [NetworkService]; its
      constructor, with the transport stack, in [NetworkNew].  [Coupled] joins both: the
      methods of the clients and the loop of the task, which selects between the swarm and
      the bounded queue of commands, take turns on shared channels.
    - _Storage_, [src/db.rs], file [Db]: transactions, eviction and the collector over the
      block store, opening of the databases.  [StorageTests] holds its unit tests, [GcTest]
      the test of the collector in [tests/gc.rs]; [Testing] is the monad all tests are
      written in.
    - _Configuration_, [net/config.rs] and the constructor of the behaviour, file [Config].
    - _The node_, [src/lib.rs]: [Ipfs] (delegation, [get], [fetch], [sync]), [IpfsStore]
      (the interface [Store] of libipld and the read-only methods) and [Lifecycle]
      ([Ipfs::new], clones, and what the last handle releases).  Its unit tests are in
      [NodeTests] and, for several nodes, in [SyncTests], [DhtTests] and
      [GossipTest].
    - _The examples_: [SyncExample] is [examples/sync.rs] and [examples/compat.rs],
      [Restart] is [examples/restart.rs].
    - _Shared variables_, [src/variable.rs], file [Variable]; all locks of the program and
      the order in which every operation takes them, files [Locks] and [LockUse].
    - _Tasks_, [src/executor.rs], file [Executor]; _metrics_, [src/telemetry.rs] and the
      [register_metrics] functions, file [Metrics].
    - _The command line tool_, [cli/src/lib.rs] and [cli/src/main.rs]: [Text] (words of a
      line, hexadecimal), [Cli] (commands and events), [CliStart] (what happens before the
      main loop), [CliMain] (the main loop).
    - _The simulations_: [Harness] is [harness/src/lib.rs] (the test DAG, roles,
      configurations, deadlines) with its copy [src/test_util.rs]; [Netsim] is the language
      of scripts over simulated machines, and [Simulations] has [run_netsim] and the
      programs of [harness/src/bin/].

    Code outside the repository is an argument of the model: libp2p's peer ids,
    addresses and errors ([Libp2p], with concrete multiaddresses as lists of protocols),
    unbounded channels ([Channel]), content ids and blocks ([Ipld]), the block store
    ([Db.BlockStore], with its documented behaviour in [Db.BlockStoreLaws], and the
    opening of its files in [Db.StoreHost]), the sub-protocols ([Behaviour.Protocols],
    with the numbering of queries in [NetworkLive.QueryIds]), the swarm
    ([Network.SwarmOps]) and the transports ([NetworkNew.Transports]), bounded channels
    ([NetworkService.Bounded]), the asynchronous runtimes and compile-time features
    ([Executor.Runtime], [Executor.Features]), the metrics registry ([Metrics.Registry]),
    the block encoders ([Harness.Encoder], [SyncExample.ChainEncoder], [GcTest.NodeCodec]), the network simulator ([Netsim.Netsim]), the
    iteration order of hash tables ([Libp2p.HashOrder]) and the text of values in the line
    protocol ([Cli.Text]).  Each of these classes has an instance that satisfies its laws:
    [toy], [queues], [numbered], [mem_store], [toy_protocols], [toy_runtime],
    [toy_netsim] and so on ([PeersReach], [NetToy], [DbSpec], [CliSpec] build concrete
    runs from them).

    ** What is proved

    - [PeerInfo]: the best source of an address wins in any order of reports; the failure
      history; bounds of the moving averages and of the failure rate.
    - [PeersInv], [PeersReach]: an invariant of the address book that every handler
      preserves, hence holds in every reachable state; which handlers never panic there,
      and exactly when the others do; what the process-wide gauge of listen addresses counts.
    - [PeersSpec], [PeersDial], [PeersIdentify]: the effect of adding addresses, pruning,
      notifications, failed dials with their bounded redials, the queue of dials, and
      identify messages with the addresses derived from them.
    - [PeersConn]: the recorded connections refine a set replayed from the reports of the
      swarm; what a second connection to the same address does.
    - [NetworkSpec], [NetworkSafe], [Topics]: over all runs of the swarm task, reply
      channels are used exactly once, the bootstrap flag is exact, the task panics on
      exactly the inputs of [input_panics]; delivery to topic subscribers.
      [Streams]: over any run the stream of a subscription carries exactly what gossipsub
      and broadcast say on its topic, in this order.
    - [NetworkNew], [Tables]: the same from the constructor on - a started network
      panics on no other inputs and its tables stay well typed - and that a failed start
      leaves no task behind.
    - [NetworkLive]: an accepted query stays registered until its end is reported, which
      is then told to the one who asked; a block that arrives reaches the future of [get].
    - [Coupled]: in every interleaving of clients, swarm and task from the start of a
      network, commands are handled in the order in which they were accepted, every reply
      channel is at exactly one place and used at most once, and a request is served as
      soon as the swarm was idle once more often than there were commands before it.
    - [NetworkClient]: listener streams, sync queries, commands that may not fit into the
      queue, the view of connections.
    - [DbSpec]: storage refines a pair of maps; transactions write through, so a batch that
      fails keeps what it wrote, as [batch_ops] documents, and only a commit tells the cache
      tracker; eviction ends, within the limits, if others add no blocks meanwhile.
    - [Retention]: no interleaving of calls, collector rounds and rounds of evictions loses
      a block that an alias leads to.
    - [IpfsSpec]: [fetch] for every behaviour of the network; [sync] and storage errors.
    - [IpfsStore]: a node implements the laws of a store; against these, a stored DAG can
      be read back completely.
    - [Sync]: if bitswap gets the blocks it was told of, asks the storage what is missing
      below each, and reports success when nothing is pending, then a successful [sync] of a
      named root leaves a complete DAG, whatever else used the storage meanwhile.
    - [StorageTests], [NodeTests], [SyncTests]: the unit tests as programs in a small error
      monad; they pass on every store and network that behave as documented.  [PeersTests]:
      the address book passes its unit tests, assertion by assertion.  [GcTest]: for every
      choice of random numbers the collector keeps exactly what can be reached from an
      alias, so the test passes; all its loops end.  [GossipTest]: which streams of
      subscriptions make [test_gossip_and_broadcast] pass.  [DhtTests]: whatever the hash
      table answers, the block that [test_exchange_kad] fetches is the inserted one.
    - [SyncExample], [Restart]: what the examples have done when they succeed, and which
      tasks are left after nodes were started and dropped repeatedly.
    - [Lifecycle]: a start fails exactly when its parts do, and which tasks and databases
      are left when the last handle of a node is dropped, on either runtime.
    - [Variable], [Executor], [Metrics]: programs over shared variables behave as over registers; what becomes of a
      task under every use of its handle; telemetry registers each metric once.
    - [Locks], [LockUse]: threads that run operations of the program in any interleaving
      exclude each other, never deadlock and finish.
    - [CliSpec], [CliMain]: printing and parsing are inverse; the main loop prints only what
      is stored; inserting a block and getting it back.
    - [CliStart]: when the tool reaches its main loop, and with what node.
    - [Harness], [Simulations]: shape and size of the test DAG; which machines a simulation
      runs on; what has happened in the simulated network when a simulation reports
      success, and what has not.
    - Some theorems state behaviour a user may not expect, for instance
      [foreign_topic_panics], [failed_subscription_sticks], [SyncQuery_poll_spins],
      [non_ipv4_ignored] and [node_name_ignored].

    ** Bounds and fuel

    Integers are unbounded [Z] restricted to their width by [checked] and [wrap] below,
    in both build profiles ([Profile]).  Loops over data are structural recursion.  Six
    kinds of loops take fuel: eviction, for which one round more than there are blocks is
    proved to be enough when others add none between its rounds; the poll of a sync query, for which one round more than there are
    queued events is enough and which is proved to diverge otherwise; the main loop of
    the tool, which has no exit and runs one round per given world; the walk over the
    graph in [GcTest], for which [gc_fuel] rounds are proved to be enough; the
    waiting loops of [GossipTest], which end within as many rounds as there are events to
    read; and the loops of the
    simulations that wait for an event without a limit, where a script that has used its
    fuel is still waiting and has not succeeded.

    ** What is not modelled

    Tracing; the lines a simulation or an example prints; the HTTP server that serves the
    metrics and the encoding of a registry; [build_bin], which runs cargo, and the network
    namespaces of [run_netsim]; benchmarks; [harness/tests/netsim.rs], which runs the
    simulations as child processes; of the unit tests the three of [src/executor.rs], which
    depend on a runtime being there, and those of [cli/src/lib.rs], which are instances of
    [command_roundtrip] and [event_roundtrip].  How the distributed hash table finds its
    answers and how announcements of gossipsub travel between nodes is left open: in
    [DhtTests] and [GossipTest] they are given.
    That tokio panics when a task is spawned outside of its runtime is not part of
    [Executor.Runtime].

    Possible extensions: the tasks that forward listener events as a third party in
    [Coupled].

    ** This file

    Outcomes and errors, machine integers, the tactics and hint databases of the
    development, and generic lemmas on lists and loops. *)

From stdpp Require Export prelude gmap strings.

(** ** Outcomes

    A Rust computation either returns or panics ([unwrap] on [None], an
    arithmetic overflow in a checked build, [Duration] overflow).  Fallible
    library calls return [result]. *)
Inductive outcome (A : Type) : Type :=
| Done (a : A)
| Panicked.
Arguments Done {_} _.
Arguments Panicked {_}.

#[export] Instance outcome_ret : MRet outcome := λ A a, Done a.
#[export] Instance outcome_bind : MBind outcome := λ A B f m,
  match m with Done a => f a | Panicked => Panicked end.
#[export] Instance outcome_fmap : FMap outcome := λ A B f m,
  match m with Done a => Done (f a) | Panicked => Panicked end.

(** [Option::unwrap] / [expect]. *)
Definition unwrap {A} (o : option A) : outcome A :=
  match o with Some a => Done a | None => Panicked end.

(** A [for] loop over a list whose body may panic. *)
Fixpoint foldM {A B} (f : B → A → outcome B) (l : list A) (b : B) : outcome B :=
  match l with [] => Done b | x :: l => f b x ≫= foldM f l end.

Inductive result (A E : Type) : Type :=
| Ok (a : A)
| Err (e : E).
Arguments Ok {_ _} _.
Arguments Err {_ _} _.

Definition is_ok {A E} (r : result A E) : bool :=
  match r with Ok _ => true | Err _ => false end.

#[export] Instance result_ret {E} : MRet (λ A, result A E) := λ A a, Ok a.

Definition result_bind {A B E} (m : result A E) (f : A → result B E) : result B E :=
  match m with Ok a => f a | Err e => Err e end.

(** The [?] operator. *)
Notation "'try' x := m 'in' k" := (result_bind m (λ x, k))
  (at level 10, x pattern, m at level 100, k at level 200).

(** [std::task::Poll]. *)
Inductive Poll (A : Type) : Type :=
| Ready (a : A)
| Pending.
Arguments Ready {_} _.
Arguments Pending {_}.

(** ** Machine integers

    Unsigned integers are [Z] with their width written out.  Arithmetic that
    overflows panics when overflow checks are compiled in (the dev profile) and
    wraps otherwise (the release profile); [debug_assert!] likewise panics only
    when debug assertions are compiled in. *)
Class Profile := {
  overflow_checks : bool;
  debug_assertions : bool;
}.

(** [debug_assert!(b)]. *)
Definition debug_assert `{Profile} (b : bool) : outcome () :=
  if debug_assertions && negb b then Panicked else Done ().

Definition wrap (w : Z) (z : Z) : Z := z `mod` (2 ^ w).
Definition fits (w : Z) (z : Z) : bool := bool_decide (0 ≤ z ∧ z < 2 ^ w)%Z.

Definition checked `{Profile} (w z : Z) : outcome Z :=
  if fits w z then Done z
  else if overflow_checks then Panicked else Done (wrap w z).

Definition add_u `{Profile} (w a b : Z) : outcome Z := checked w (a + b).
Definition sub_u `{Profile} (w a b : Z) : outcome Z := checked w (a - b).
Definition mul_u `{Profile} (w a b : Z) : outcome Z := checked w (a * b).

(** ** Tactics and hint databases *)

(** Let [lia] reason about division and remainder by constants. *)
Ltac Zify.zify_post_hook ::= Z.to_euclidean_division_equations.

Create HintDb ipfs discriminated.
Create HintDb ipfs_inv discriminated.

(** Split every [match]/[if] of the goal or a hypothesis and clean up. *)
Ltac break :=
  repeat (case_match || case_decide); simplify_eq/=.

(** Case analysis on every hypothesis of boolean or decision shape. *)
Ltac bsimp :=
  repeat match goal with
  | H : _ && _ = true |- _ => apply andb_true_iff in H as [??]
  | H : _ || _ = false |- _ => apply orb_false_iff in H as [??]
  | H : negb _ = true |- _ => apply negb_true_iff in H
  | H : negb _ = false |- _ => apply negb_false_iff in H
  | H : bool_decide _ = true |- _ => apply bool_decide_eq_true in H
  | H : bool_decide _ = false |- _ => apply bool_decide_eq_false in H
  end; simplify_eq.

(** ** Generic lemmas *)

Lemma fits_spec w z : fits w z = true ↔ (0 ≤ z ∧ z < 2 ^ w)%Z.
Proof. unfold fits. by rewrite bool_decide_eq_true. Qed.

Lemma checked_fits `{Profile} w z : (0 ≤ z ∧ z < 2 ^ w)%Z → checked w z = Done z.
Proof. intros Hz%fits_spec. unfold checked. by rewrite Hz. Qed.

Lemma debug_assert_true `{Profile} b : b = true → debug_assert b = Done ().
Proof. intros ->. unfold debug_assert. by rewrite andb_false_r. Qed.

Lemma bind_Done {A B} (m : outcome A) (f : A → outcome B) b :
  (m ≫= f) = Done b ↔ ∃ a, m = Done a ∧ f a = Done b.
Proof. destruct m; cbn; naive_solver. Qed.

(** The last element of a non-empty list. *)
Lemma last_removelast {A} (l : list A) x : last l = Some x → l = removelast l ++ [x].
Proof.
  intros [l' ->]%last_Some. by rewrite removelast_last.
Qed.

Lemma last_insert_lt {A} (l : list A) i x :
  S i < length l → last (<[i:=x]> l) = last l.
Proof.
  intros. rewrite !last_lookup, length_insert.
  rewrite list_lookup_insert_ne; [done | lia].
Qed.

Lemma not_nil_elem {A} (l : list A) : l ≠ [] → ∃ x, x ∈ l.
Proof. destruct l as [|x l]; [done|]. exists x. by left. Qed.

Lemma filter_ext_elem {A} (P Q : A → Prop) `{∀ x, Decision (P x), ∀ x, Decision (Q x)} (l : list A) :
  (∀ x, x ∈ l → P x ↔ Q x) → filter P l = filter Q l.
Proof.
  induction l as [|x l IH]; intros Hl; [done|]. rewrite !filter_cons.
  rewrite IH by (intros; apply Hl; by right).
  specialize (Hl x ltac:(by left)). repeat case_decide; naive_solver.
Qed.

(** Dropping the last element of a full bounded queue is truncation. *)
Lemma removelast_take {A} n (l : list A) :
  length l ≤ S n → (if bool_decide (n < length l) then removelast l else l) = take n l.
Proof.
  intros. case_bool_decide.
  - rewrite removelast_firstn_len. f_equal. lia.
  - by rewrite take_ge by lia.
Qed.

(** Loop rule: an invariant kept by every iteration holds after the loop, which
    terminates normally when every iteration does. *)
Lemma foldM_inv {A B} (P : B → Prop) (f : B → A → outcome B) l b :
  P b → (∀ b x, x ∈ l → P b → ∃ b', f b x = Done b' ∧ P b') →
  ∃ b', foldM f l b = Done b' ∧ P b'.
Proof.
  revert b. induction l as [|x l IH]; intros b Hb Hf; [by eauto|].
  destruct (Hf b x) as (b1 & E & Hb1); [set_solver|done|]. cbn. rewrite E. cbn.
  apply IH; [done|]. intros. apply Hf; [set_solver|done].
Qed.
