(* ===== verification/Testing.v ===== *)
(** * Unit tests as programs

    A small monad for the unit tests of the repository: a test acts on a state and ends
    early in an [unwrap] or an assertion.  A Hoare-style predicate says that no assertion
    can fail. *)

From S2P Require Import Prelude.

(** A test ends early in an [unwrap] of an error that the store or the network reports, in
    the error that a block was not found, or in an assertion. *)
Inductive failure : Type := Unwrapped | NotFound | Asserted.

Section tests.
Context {S : Type}.

Definition test (A : Type) : Type := S → result A failure * S.

Definition test_ret {A} (a : A) : test A := λ s, (Ok a, s).
Definition test_bind {A X} (m : test A) (k : A → test X) : test X := λ s,
  match m s with
  | (Ok a, s) => k a s
  | (Err e, s) => (Err e, s)
  end.

(** [.unwrap()] on the result of a call. *)
Definition unwrapped {A E} (f : S → result A E * S) : test A := λ s,
  let '(r, s) := f s in (match r with Ok a => Ok a | Err _ => Err Unwrapped end, s).

(** [assert!]. *)
Definition asserts (b : bool) : test () := λ s, (if b then Ok () else Err Asserted, s).

(** From a state in [P] no assertion fails and no block is missed, and a result satisfies
    [Q]. *)
Definition passes {A} (P : S → Prop) (m : test A) (Q : A → S → Prop) : Prop :=
  ∀ s, P s → match m s with
             | (Ok a, s') => Q a s'
             | (Err e, _) => e = Unwrapped
             end.

Lemma passes_bind {A X} P (m : test A) (k : A → test X) Q R :
  passes P m Q → (∀ a, passes (Q a) (k a) R) → passes P (test_bind m k) R.
Proof.
  intros Hm Hk s HP. unfold test_bind. specialize (Hm s HP). destruct (m s) as [[a|e] s1]; [|done].
  by apply Hk.
Qed.

Lemma passes_ret {A} (a : A) (Q : A → S → Prop) : passes (Q a) (test_ret a) Q.
Proof. by intros s HQ. Qed.

Lemma passes_asserts (P R : S → Prop) b :
  (∀ s, P s → b = true ∧ R s) → passes P (asserts b) (λ _, R).
Proof. intros H s HP. unfold asserts. by destruct (H s HP) as [-> ?]. Qed.

Lemma passes_weaken {A} (P P' : S → Prop) (m : test A) (Q Q' : A → S → Prop) :
  passes P m Q → (∀ s, P' s → P s) → (∀ a s, Q a s → Q' a s) → passes P' m Q'.
Proof. intros Hm HP HQ s Hs. specialize (Hm s (HP s Hs)). destruct (m s) as [[]]; auto. Qed.

(** A fact that does not depend on the state. *)
Lemma passes_pure {A} (P : S → Prop) (φ : Prop) (m : test A) Q :
  (φ → passes P m Q) → passes (λ s, P s ∧ φ) m Q.
Proof. intros H s [HP Hφ]. by apply H. Qed.
End tests.
Arguments test : clear implicits.

Declare Scope test_scope.
Delimit Scope test_scope with test.
Notation "x <- m ; k" := (test_bind m (λ x, k))
  (at level 20, m at level 100, k at level 200, right associativity) : test_scope.
Notation "m ;; k" := (test_bind m (λ _, k)) (at level 100, right associativity) : test_scope.
