(* ===== verification/Libp2p.v ===== *)
(** * The libraries the address book is written against

    Data types of libp2p, std and chrono that the sources pattern match on, and
    the operations of libp2p that the sources call.  The operations are the
    fields of the class [Libp2p] together with their documented behaviour; every
    client theorem is proved against the class.  [toy] at the end of the file is
    an executable instance. *)

From S2P Require Import Prelude.

(** ** Multiaddr components *)

(** [multiaddr::Protocol].  [OtherProto] stands for every variant the sources
    never match on (dns4, udp, quic, ws, ...), tagged by its code. *)
Inductive Protocol (Mh : Type) : Type :=
| Ip4 (addr : Z)
| Ip6 (addr : Z)
| Tcp (port : Z)
| P2p (mh : Mh)
| OtherProto (code : Z).
Arguments Ip4 {_} _.
Arguments Ip6 {_} _.
Arguments Tcp {_} _.
Arguments P2p {_} _.
Arguments OtherProto {_} _.

#[export] Instance Protocol_eq_dec `{EqDecision Mh} : EqDecision (Protocol Mh).
Proof. solve_decision. Defined.

#[export] Instance Protocol_countable `{Countable Mh} : Countable (Protocol Mh).
Proof.
  refine (inj_countable'
    (λ p : Protocol Mh, match p with
      | Ip4 a => inl (inl (inl (inl a)))
      | Ip6 a => inl (inl (inl (inr a)))
      | Tcp p => inl (inl (inr p))
      | P2p m => inl (inr m)
      | OtherProto c => inr c end)
    (λ s, match s with
      | inl (inl (inl (inl a))) => Ip4 a
      | inl (inl (inl (inr a))) => Ip6 a
      | inl (inl (inr p)) => Tcp p
      | inl (inr m) => P2p m
      | inr c => OtherProto c end) _).
  by intros [].
Defined.

(** [std::net::IpAddr]. *)
Inductive IpAddr : Type :=
| V4 (addr : Z)
| V6 (addr : Z).

#[export] Instance IpAddr_eq_dec : EqDecision IpAddr.
Proof. solve_decision. Defined.

(** [std::net::Ipv4Addr::is_loopback]: the block 127.0.0.0/8. *)
Definition Ipv4_is_loopback (a : Z) : bool := bool_decide (Z.shiftr a 24 = 127)%Z.

(** A dotted quad as the 32-bit address. *)
Definition ipv4 (a b c d : Z) : Z := (a * 2 ^ 24 + b * 2 ^ 16 + c * 2 ^ 8 + d)%Z.

(** ** I/O and transport errors

    Only the shape [peers::is_sim_open] inspects: an [io::Error] has a kind and
    possibly a custom inner error, which [downcast_ref] recognises by type. *)
Inductive ErrorKind : Type := InvalidData | OtherKind.

Inductive IoError : Type :=
| MkIoError (kind : ErrorKind) (inner : DynError) (message : string)
with DynError : Type :=
| NoInner
| DynDns (e : DnsErr)
| DynTransport (e : TimeoutError)
| DynOther
with DnsErr : Type :=
| DnsTransport (e : IoError)
| DnsOther
with TimeoutError : Type :=
| TTimeout
| TTimerError (e : IoError)
| TOther (e : StackError)
(** The error of the transport stack [net::TransportError]: [EitherError::A(A(_))]
    is TCP/PSK, [A(B(_))] is the Noise upgrade, [B(_)] is the multiplexer. *)
with StackError : Type :=
| ErrA_A
| ErrA_B (e : NoiseUpgradeError)
| ErrB
with NoiseUpgradeError : Type :=
| UpgradeSelect
| UpgradeApply (e : NoiseError)
with NoiseError : Type :=
| NoiseIo (e : IoError)
| NoiseOther.

(** [io::Error::get_ref], [io::Error::kind]. *)
Definition get_ref (e : IoError) : DynError := let '(MkIoError _ i _) := e in i.
Definition io_kind (e : IoError) : ErrorKind := let '(MkIoError k _ _) := e in k.

(** [libp2p::core::either::EitherError], used to nest handler errors. *)
Inductive EitherError (A B : Type) : Type :=
| EA (a : A)
| EB (b : B).
Arguments EA {_ _} _.
Arguments EB {_ _} _.

(** [libp2p::swarm::ConnectionError]. *)
Inductive ConnectionError (H : Type) : Type :=
| ConnHandler (e : H)
| ConnIO (e : IoError)
| KeepAliveTimeout.
Arguments ConnHandler {_} _.
Arguments ConnIO {_} _.
Arguments KeepAliveTimeout {_}.

(** The error type of the composed connection handler: one nesting level per
    sub-behaviour, in the order peers (never fails), kad, mdns (never fails),
    ping, identify, bitswap, gossipsub, broadcast.  A sub-handler's error is only
    ever rendered, so it is represented by its [Display] text. *)
Definition MyHandlerError : Type :=
  EitherError (EitherError (EitherError (EitherError (EitherError (EitherError
    (EitherError Empty_set string) Empty_set) string) string) string) string) string.

(** [libp2p::swarm::dial_opts::PeerCondition]. *)
Inductive PeerCondition : Type := CondDisconnected | NotDialing | Always.

(** [libp2p::core::Endpoint]. *)
Inductive Endpoint : Type := EpDialer | EpListener.

#[export] Instance Endpoint_eq_dec : EqDecision Endpoint.
Proof. solve_decision. Defined.
#[export] Instance PeerCondition_eq_dec : EqDecision PeerCondition.
Proof. solve_decision. Defined.

(** ** The interface *)

Class Libp2p := {
  PeerId : Type;
  PeerId_eq_dec :: EqDecision PeerId;
  PeerId_countable :: Countable PeerId;
  Multihash : Type;
  Multiaddr : Type;
  Multiaddr_eq_dec :: EqDecision Multiaddr;
  Multiaddr_countable :: Countable Multiaddr;
  ListenerId : Type;
  ListenerId_eq_dec :: EqDecision ListenerId;
  AddressRecord : Type;

  (** [From<PeerId> for Multihash] and [TryFrom<Multihash> for PeerId]. *)
  mh_of_peer : PeerId → Multihash;
  peer_of_mh : Multihash → option PeerId;
  peer_of_mh_of_peer p : peer_of_mh (mh_of_peer p) = Some p;

  (** [Multiaddr::iter], [push], [pop] and [replace]. *)
  ma_iter : Multiaddr → list (Protocol Multihash);
  ma_push : Multiaddr → Protocol Multihash → Multiaddr;
  ma_pop : Multiaddr → Multiaddr;
  ma_replace : Multiaddr → nat → (Protocol Multihash → option (Protocol Multihash)) →
               option Multiaddr;
  (** Two addresses with the same components are the same address. *)
  ma_iter_inj :: Inj (=) (=) ma_iter;
  ma_iter_push a p : ma_iter (ma_push a p) = ma_iter a ++ [p];
  ma_iter_pop a : ma_iter (ma_pop a) = removelast (ma_iter a);
  ma_iter_replace a i f :
    ma_iter <$> ma_replace a i f =
    (p ← ma_iter a !! i; q ← f p; Some (<[i:=q]> (ma_iter a)));

  (** [Display] of the address, used in error texts. *)
  ma_display : Multiaddr → string;
}.

(** ** Types that mention addresses *)
Section types.
Context `{Libp2p}.

(** [libp2p::TransportError<io::Error>]. *)
Inductive TransportError : Type :=
| MultiaddrNotSupported (a : Multiaddr)
| TransportOther (e : IoError).

(** [libp2p::swarm::DialError].  [DialErrorOther] stands for the variants the
    sources do not name (ConnectionLimit, NoAddresses, Aborted, InvalidPeerId). *)
Inductive DialError : Type :=
| Banned
| LocalPeerId
| DialPeerConditionFalse (c : PeerCondition)
| WrongPeerId (obtained : PeerId)
| ConnectionIo (e : IoError)
| Transport (errors : list (Multiaddr * TransportError))
| DialErrorOther (code : Z).

(** [libp2p::core::ConnectedPoint] and its accessors. *)
Inductive ConnectedPoint : Type :=
| Dialer (address : Multiaddr) (role_override : Endpoint)
| Listener (local_addr send_back_addr : Multiaddr).

Definition get_remote_address (cp : ConnectedPoint) : Multiaddr :=
  match cp with Dialer a _ => a | Listener _ s => s end.

Definition is_dialer (cp : ConnectedPoint) : bool :=
  match cp with Dialer _ _ => true | Listener _ _ => false end.

(** [libp2p::swarm::dial_opts::DialOpts] for a known peer. *)
Record DialOpts : Type := MkDialOpts {
  opt_peer : PeerId;
  opt_condition : PeerCondition;
  opt_addresses : list Multiaddr;
}.

(** [identify::Info], the fields [AddressBook::set_info] reads. *)
Record IdentifyInfo : Type := MkIdentifyInfo {
  id_protocol_version : string;
  id_agent_version : string;
  id_protocols : list string;
  id_listen_addrs : list Multiaddr;
}.
End types.

#[export] Instance ConnectedPoint_eq_dec `{Libp2p} : EqDecision ConnectedPoint.
Proof. solve_decision. Defined.

(** ** Formatting of errors and the environment of a handler

    [Display]/[Debug] renderings come from libp2p; [utc n] and [random_u32 n]
    are what the [n]-th call of [Utc::now] (nanoseconds since the epoch, not
    assumed monotone) and of [rand::random::<u32>] return. *)
Class Fmt `{Libp2p} := {
  display_io : IoError → string;
  display_dial : DialError → string;
  debug_dial : DialError → string;
  display_transport : TransportError → string;
  debug_transport : TransportError → string;
  source_transport : TransportError → option string;
  debug_closed : option (ConnectionError MyHandlerError) → string;
}.

Class Environment := {
  utc : nat → Z;
  random_u32 : nat → Z;
  random_u32_range n : (0 ≤ random_u32 n < 2 ^ 32)%Z;
}.

(** The iteration order of a [HashMap]/[HashSet] is unspecified: iterating visits
    every entry exactly once. *)
Class HashOrder := {
  hm_iter {K V} `{Countable K} : gmap K V → list (K * V);
  hm_iter_perm {K V} `{Countable K} (m : gmap K V) : hm_iter m ≡ₚ map_to_list m;
}.

Definition hs_iter `{HashOrder} `{Countable K} (s : gset K) : list K :=
  (hm_iter (gset_to_gmap () s)).*1.

Lemma elem_of_hm_iter `{HashOrder} `{Countable K} {V} (m : gmap K V) k v :
  (k, v) ∈ hm_iter m ↔ m !! k = Some v.
Proof. by rewrite hm_iter_perm, elem_of_map_to_list. Qed.

Lemma elem_of_hs_iter `{HashOrder} `{Countable K} (s : gset K) k :
  k ∈ hs_iter s ↔ k ∈ s.
Proof.
  unfold hs_iter. rewrite list_elem_of_fmap. split.
  - intros [[k' []] [-> Hk]]. rewrite elem_of_hm_iter, lookup_gset_to_gmap_Some in Hk.
    naive_solver.
  - intros Hk. exists (k, tt). split; [done|].
    by rewrite elem_of_hm_iter, lookup_gset_to_gmap_Some.
Qed.

Lemma hs_iter_NoDup `{HashOrder} `{Countable K} (s : gset K) : NoDup (hs_iter s).
Proof. unfold hs_iter. rewrite hm_iter_perm. apply NoDup_fst_map_to_list. Qed.

(** ** Consequences of the address laws *)
Section laws.
Context `{L : Libp2p}.
Implicit Types a b : Multiaddr.

Lemma ma_pop_push a p : ma_pop (ma_push a p) = a.
Proof. apply (inj ma_iter). by rewrite ma_iter_pop, ma_iter_push, removelast_last. Qed.

Lemma last_push a p : last (ma_iter (ma_push a p)) = Some p.
Proof. by rewrite ma_iter_push, last_snoc. Qed.

Lemma ma_push_pop a p : last (ma_iter a) = Some p → ma_push (ma_pop a) p = a.
Proof.
  intros Hl. apply (inj ma_iter).
  by rewrite ma_iter_push, ma_iter_pop, <- last_removelast.
Qed.

Lemma ma_replace_Some a i f p q :
  ma_iter a !! i = Some p → f p = Some q →
  ∃ b, ma_replace a i f = Some b ∧ ma_iter b = <[i:=q]> (ma_iter a).
Proof.
  intros Hp Hq. pose proof (ma_iter_replace a i f) as Hr.
  rewrite Hp in Hr; simpl in Hr. rewrite Hq in Hr; simpl in Hr.
  destruct (ma_replace a i f) as [b|]; simplify_eq/=. eauto.
Qed.
End laws.

(** ** An executable instance *)

(** The dev profile: both checks compiled in. *)
#[export] Instance dev_profile : Profile :=
  {| overflow_checks := true; debug_assertions := true |}.

Definition toy_replace (a : list (Protocol N)) (i : nat)
    (f : Protocol N → option (Protocol N)) : option (list (Protocol N)) :=
  p ← a !! i; q ← f p; Some (<[i:=q]> a).

#[export] Program Instance toy : Libp2p := {|
  PeerId := N; Multihash := N; Multiaddr := list (Protocol N);
  ListenerId := nat; AddressRecord := nat;
  mh_of_peer := λ p, p; peer_of_mh := Some;
  ma_iter := λ a, a; ma_push := λ a p, a ++ [p]; ma_pop := λ a, removelast a;
  ma_replace := toy_replace;
  ma_display := λ _, "addr"
|}.
Next Obligation. done. Qed.
Next Obligation. done. Qed.
Next Obligation. done. Qed.
Next Obligation.
  intros a i f. unfold toy_replace.
  destruct (a !! i); simpl; [|done]. by destruct (f p).
Qed.

#[export] Instance toy_fmt : Fmt := {|
  display_io := λ e, let '(MkIoError _ _ m) := e in m;
  display_dial := λ _, "dial error";
  debug_dial := λ _, "DialError";
  display_transport := λ _, "transport";
  debug_transport := λ _, "TransportError";
  source_transport := λ _, None;
  debug_closed := λ _, "closed"
|}.

(** A clock that advances one second per reading, starting at [t0] seconds. *)
#[export] Program Instance toy_env : Environment := {|
  utc := λ n, (Z.of_nat n * 10 ^ 9)%Z;
  random_u32 := λ n, (Z.of_nat n `mod` 2 ^ 32)%Z
|}.
Next Obligation. intros n. cbn. apply Z.mod_pos_bound. lia. Qed.

#[export] Program Instance toy_order : HashOrder := {|
  hm_iter := λ K V _ _ m, map_to_list m
|}.
Next Obligation. done. Qed.
