(* ===== verification/Duration.v ===== *)
(** * [std::time::Duration] and [chrono] differences

    A duration is its length in nanoseconds; the representable range is that of
    [u64] seconds plus a sub-second part.  Multiplication by a [u32] and addition
    panic when the result leaves the range, division panics on zero. *)

From S2P Require Import Prelude.

Open Scope Z_scope.

Abbreviation Duration := Z (only parsing).

Definition NANOS_PER_SEC : Z := 10 ^ 9.
Definition DURATION_MAX : Duration := 2 ^ 64 * NANOS_PER_SEC - 1.

Definition from_secs (s : Z) : Duration := s * NANOS_PER_SEC.
Definition from_millis (m : Z) : Duration := m * 10 ^ 6.

Definition dur_checked (d : Z) : outcome Duration :=
  if bool_decide (d ≤ DURATION_MAX) then Done d else Panicked.

Definition dur_mul (d : Duration) (k : Z) : outcome Duration := dur_checked (d * k).
Definition dur_add (d e : Duration) : outcome Duration := dur_checked (d + e).
Definition dur_div (d : Duration) (k : Z) : outcome Duration :=
  if bool_decide (k = 0) then Panicked else Done (d / k).

(** [DateTime::signed_duration_since(..).to_std().unwrap_or(Duration::ZERO)] of
    two instants in nanoseconds: negative differences become zero. *)
Definition diff_time (former latter : Z) : Duration := Z.max 0 (latter - former).

Lemma dur_checked_le d : d ≤ DURATION_MAX → dur_checked d = Done d.
Proof. intros. unfold dur_checked. by rewrite bool_decide_true. Qed.

Lemma dur_div_pos d k : 0 < k → dur_div d k = Done (d / k).
Proof. intros. unfold dur_div. rewrite bool_decide_false; [done | lia]. Qed.

(** Scaling a duration by [p/q] with [p ≤ q]: the shape every weighted average
    of the sources has. *)
Lemma dur_scale d p q :
  0 ≤ d → 0 ≤ p → 0 < q → d * p ≤ DURATION_MAX →
  (dur_mul d p ≫= λ x, dur_div x q) = Done (d * p / q).
Proof.
  intros. unfold dur_mul. rewrite dur_checked_le by done. cbn.
  by apply dur_div_pos.
Qed.

Lemma diff_time_nonneg a b : 0 ≤ diff_time a b.
Proof. unfold diff_time. lia. Qed.
