(* ===== verification/PeerInfo.v ===== *)
(** * [src/net/peer_info.rs]: what the node knows about one peer

    Address sources and their order, round-trip times, the bounded failure
    history and the address table of a peer. *)

From S2P Require Import Prelude Libp2p Duration.

Open Scope Z_scope.

(** ** Address sources *)

Inductive AddressSource : Type :=
| Incoming
| Listen
| Kad
| Mdns
| Candidate
| User
| Dial.

#[export] Instance AddressSource_eq_dec : EqDecision AddressSource.
Proof. solve_decision. Defined.

(** [derive(Ord)]: declaration order. *)
Definition source_rank (s : AddressSource) : Z :=
  match s with
  | Incoming => 0 | Listen => 1 | Kad => 2 | Mdns => 3
  | Candidate => 4 | User => 5 | Dial => 6
  end.

Definition source_cmp (a b : AddressSource) : comparison :=
  Z.compare (source_rank a) (source_rank b).

Definition is_confirmed (s : AddressSource) : bool :=
  match s with Dial | User | Candidate => true | _ => false end.

Definition is_to_probe (s : AddressSource) : bool :=
  match s with Listen | Kad | Mdns | Candidate => true | _ => false end.

Definition is_to_translate (s : AddressSource) : bool :=
  match s with Incoming => true | _ => false end.

Inductive Direction : Type := Inbound | Outbound.

#[export] Instance Direction_eq_dec : EqDecision Direction.
Proof. solve_decision. Defined.

(** ** Round-trip times *)

Record Rtt : Type := MkRtt {
  current : Duration;
  decay_3 : Duration;
  decay_10 : Duration;
  rtt_failures : Z;
  failure_rate : Z;
}.

#[export] Instance Rtt_eq_dec : EqDecision Rtt.
Proof. solve_decision. Defined.

Definition Rtt_new (c : Duration) : Rtt := MkRtt c c c 0 0.

(** [Rtt::register]. *)
Definition register `{Profile} (r : Rtt) (c : Duration) : outcome Rtt :=
  a ← dur_mul (decay_3 r) 7; a ← dur_div a 10;
  b ← dur_mul c 3; b ← dur_div b 10;
  d3 ← dur_add a b;
  x ← dur_mul (decay_10 r) 9; x ← dur_div x 10;
  y ← dur_div c 10;
  d10 ← dur_add x y;
  f ← mul_u 32 (failure_rate r) 99;
  Done (MkRtt c d3 d10 0 (f / 100)).

(** [Rtt::register_failure]. *)
Definition register_failure `{Profile} (r : Rtt) : outcome Rtt :=
  n ← add_u 32 (rtt_failures r) 1;
  f ← mul_u 32 (failure_rate r) 99;
  f ← add_u 32 (f / 100) 10000;
  Done (MkRtt (current r) (decay_3 r) (decay_10 r) n f).

(** ** Connection failures *)

Inductive ConnectionFailureKind : Type :=
| KDialError
| PeerDisconnected
| WeDisconnected.

#[export] Instance ConnectionFailureKind_eq_dec : EqDecision ConnectionFailureKind.
Proof. solve_decision. Defined.

Definition newline : string := String (Ascii.ascii_of_nat 10) EmptyString.

Section peer_info.
Context `{L : Libp2p}.

Definition direction_from (cp : ConnectedPoint) : Direction :=
  match cp with Dialer _ _ => Outbound | Listener _ _ => Inbound end.

Record ConnectionFailure : Type := MkFailure {
  cf_kind : ConnectionFailureKind;
  cf_addr : Multiaddr;
  cf_time : Z;
  cf_display : string;
  cf_debug : string;
}.

(** [matches!(a.iter().last(), Some(Protocol::P2p(_)))]. *)
Definition ends_in_p2p (a : Multiaddr) : bool :=
  match last (ma_iter a) with Some (P2p _) => true | _ => false end.

(** [without_peer]. *)
Definition without_peer (a : Multiaddr) : Multiaddr :=
  if ends_in_p2p a then ma_pop a else a.

(** [impl Display for D]: the error followed by its cause. *)
Definition display_D `{!Fmt} (e : TransportError) : string :=
  display_transport e +:+
  match source_transport e with Some cause => cause | None => "" end.

(** [ConnectionFailure::dial]. *)
Definition failure_dial `{!Fmt} (now : Z) (addr : Multiaddr) (error : DialError)
    : ConnectionFailure :=
  let display :=
    match error with
    | ConnectionIo e => "I/O error: " +:+ display_io e
    | Transport [(_, e)] => "transport error: " +:+ display_D e
    | Transport es =>
        foldl (λ s '(a, e), s +:+ newline +:+ ma_display (without_peer a) +:+ " " +:+ display_D e)
              "transport errors:" es
    | x => display_dial x
    end in
  MkFailure KDialError (without_peer addr) now display (debug_dial error).

(** [ConnectionFailure::transport]. *)
Definition failure_transport `{!Fmt} (now : Z) (addr : Multiaddr) (error : TransportError)
    : ConnectionFailure :=
  MkFailure KDialError (without_peer addr) now
    ("transport error: " +:+ display_D error) (debug_transport error).

(** [ConnectionFailure::us] and [ConnectionFailure::them]. *)
Definition failure_us (now : Z) (addr : Multiaddr) (display debug : string) :=
  MkFailure WeDisconnected addr now display debug.
Definition failure_them (now : Z) (addr : Multiaddr) (display debug : string) :=
  MkFailure PeerDisconnected addr now display debug.

(** ** Peer information *)

Record PeerInfo : Type := MkPeerInfo {
  protocol_version : option string;
  agent_version : option string;
  protocols : list string;
  pi_listeners : list Multiaddr;
  addresses : gmap Multiaddr (AddressSource * Z);
  connections : gmap Multiaddr (Z * Direction);
  failures : list ConnectionFailure;
  rtt : option Rtt;
}.

(** [PeerInfo::default()]. *)
Definition PeerInfo_default : PeerInfo := MkPeerInfo None None [] [] ∅ ∅ [] None.

Definition with_addresses (f : gmap Multiaddr (AddressSource * Z) →
                               gmap Multiaddr (AddressSource * Z)) (i : PeerInfo) : PeerInfo :=
  MkPeerInfo (protocol_version i) (agent_version i) (protocols i) (pi_listeners i)
    (f (addresses i)) (connections i) (failures i) (rtt i).

Definition with_connections (f : gmap Multiaddr (Z * Direction) →
                                 gmap Multiaddr (Z * Direction)) (i : PeerInfo) : PeerInfo :=
  MkPeerInfo (protocol_version i) (agent_version i) (protocols i) (pi_listeners i)
    (addresses i) (f (connections i)) (failures i) (rtt i).

Definition with_failures (f : list ConnectionFailure → list ConnectionFailure)
    (i : PeerInfo) : PeerInfo :=
  MkPeerInfo (protocol_version i) (agent_version i) (protocols i) (pi_listeners i)
    (addresses i) (connections i) (f (failures i)) (rtt i).

Definition with_rtt (r : option Rtt) (i : PeerInfo) : PeerInfo :=
  MkPeerInfo (protocol_version i) (agent_version i) (protocols i) (pi_listeners i)
    (addresses i) (connections i) (failures i) r.

(** [PeerInfo::set_rtt]. *)
Definition set_rtt `{Profile} (r : option Duration) (i : PeerInfo) : outcome PeerInfo :=
  match r, rtt i with
  | Some d, Some old => new ← register old d; Done (with_rtt (Some new) i)
  | Some d, None => Done (with_rtt (Some (Rtt_new d)) i)
  | None, Some old => new ← register_failure old; Done (with_rtt (Some new) i)
  | None, None => Done i
  end.

(** [PeerInfo::rtt]. *)
Definition rtt_current (i : PeerInfo) : option Duration := current <$> rtt i.

(** [PeerInfo::push_failure]: drop the oldest of ten, forget the address when a
    probe of it failed, record the new failure in front. *)
Definition push_failure (addr : Multiaddr) (f : ConnectionFailure) (probe_result : bool)
    (i : PeerInfo) : PeerInfo :=
  let i := if bool_decide (9 < length (failures i))%nat
           then with_failures (λ fs, removelast fs) i else i in
  let i := if probe_result &&
              match addresses i !! addr with Some (s, _) => is_to_probe s | None => false end
           then with_addresses (delete addr) i else i in
  with_failures (cons f) i.

Section iterators.
Context `{!HashOrder}.

(** [PeerInfo::addresses], [connections], [recent_failures]. *)
Definition iter_addresses (i : PeerInfo) : list (Multiaddr * AddressSource * Z) :=
  (λ '(a, (s, dt)), (a, s, dt)) <$> hm_iter (addresses i).
Definition iter_connections (i : PeerInfo) : list (Multiaddr * Z * Direction) :=
  (λ '(a, (dt, dir)), (a, dt, dir)) <$> hm_iter (connections i).
Definition recent_failures (i : PeerInfo) : list ConnectionFailure := failures i.

Definition addresses_by (p : AddressSource → bool) (i : PeerInfo) : list Multiaddr :=
  (filter (λ x : Multiaddr * (AddressSource * Z), p x.2.1 = true)
          (hm_iter (addresses i))).*1.

(** [confirmed_addresses], [addresses_to_probe], [addresses_to_translate]. *)
Definition confirmed_addresses : PeerInfo → list Multiaddr := addresses_by is_confirmed.
Definition addresses_to_probe : PeerInfo → list Multiaddr := addresses_by is_to_probe.
Definition addresses_to_translate : PeerInfo → list Multiaddr :=
  addresses_by is_to_translate.
End iterators.

(** [PeerInfo::ingest_address]; [now] is the reading of [Utc::now], taken on
    either branch. *)
Definition ingest_address `{Profile} (now : Z) (addr : Multiaddr) (source : AddressSource)
    (i : PeerInfo) : outcome (bool * PeerInfo) :=
  match addresses i !! addr with
  | Some (src, _) =>
      match source_cmp source src with
      | Lt | Eq => Done (false, with_addresses <[addr := (src, now)]> i)
      | Gt => Done (is_to_probe source, with_addresses <[addr := (source, now)]> i)
      end
  | None =>
      _ ← debug_assert (ends_in_p2p addr);
      Done (is_to_probe source, with_addresses <[addr := (source, now)]> i)
  end.
End peer_info.

(** ** Address sources: order and classification *)

Definition source_max (a b : AddressSource) : AddressSource :=
  match source_cmp a b with Gt => a | _ => b end.

Lemma source_rank_inj : Inj (=) (=) source_rank.
Proof. by intros [] []. Qed.

Lemma source_max_rank a b :
  source_rank (source_max a b) = Z.max (source_rank a) (source_rank b).
Proof. by destruct a, b. Qed.

(** Facts used by the address book: confirmed and to-translate sources
    are disjoint, every other source is to be probed. *)
Lemma translate_not_confirmed s : is_to_translate s = true → is_confirmed s = false.
Proof. by destruct s. Qed.

Lemma source_classified s :
  is_confirmed s || is_to_probe s || is_to_translate s = true.
Proof. by destruct s. Qed.

(** ** Round-trip times *)

(** The largest sample for which the weighted averages cannot overflow. *)
Definition RTT_BOUND : Duration := DURATION_MAX / 9.

Record rtt_wf (r : Rtt) : Prop := {
  wf_current : 0 ≤ current r ≤ RTT_BOUND;
  wf_decay_3 : 0 ≤ decay_3 r ≤ RTT_BOUND;
  wf_decay_10 : 0 ≤ decay_10 r ≤ RTT_BOUND;
  wf_count : 0 ≤ rtt_failures r < 2 ^ 32;
  wf_rate : 0 ≤ failure_rate r ≤ 1000000;
}.

(** The ranges of the types, and the failure rate below its limit: what holds of every
    record, whatever the samples were. *)
Record rtt_typed (r : Rtt) : Prop := {
  typed_current : 0 ≤ current r ≤ DURATION_MAX;
  typed_decay_3 : 0 ≤ decay_3 r ≤ DURATION_MAX;
  typed_decay_10 : 0 ≤ decay_10 r ≤ DURATION_MAX;
  typed_count : 0 ≤ rtt_failures r < 2 ^ 32;
  typed_rate : 0 ≤ failure_rate r ≤ 1000000;
}.

Lemma rtt_wf_typed r : rtt_wf r → rtt_typed r.
Proof. assert (RTT_BOUND ≤ DURATION_MAX) by by vm_compute. intros []. split; lia. Qed.

(** When the arithmetic of a ping leaves its range: a product of [Duration]s in
    [register], the counter of failures, in builds with checks, in [register_failure]. *)
Definition register_overflows (r : Rtt) (c : Duration) : bool :=
  bool_decide (DURATION_MAX < decay_3 r * 7) || bool_decide (DURATION_MAX < c * 3) ||
  bool_decide (DURATION_MAX < decay_10 r * 9).
Definition register_failure_overflows `{Profile} (r : Rtt) : bool :=
  overflow_checks && bool_decide (rtt_failures r = 2 ^ 32 - 1).

Lemma rtt_bound_mul d k : 0 ≤ d ≤ RTT_BOUND → 0 ≤ k ≤ 9 → d * k ≤ DURATION_MAX.
Proof.
  unfold RTT_BOUND. intros.
  pose proof (Z.mul_div_le DURATION_MAX 9). nia.
Qed.

Lemma Rtt_new_typed d : 0 ≤ d ≤ DURATION_MAX → rtt_typed (Rtt_new d).
Proof. by split; simpl; lia. Qed.

Lemma Rtt_new_wf d : 0 ≤ d ≤ RTT_BOUND → rtt_wf (Rtt_new d).
Proof. by split; simpl; lia. Qed.

Section rtt.
Context `{Profile}.

Lemma dur_mul_cases d k :
  dur_mul d k = if bool_decide (DURATION_MAX < d * k) then Panicked else Done (d * k).
Proof. unfold dur_mul, dur_checked. repeat case_bool_decide; done || lia. Qed.

(** A registration panics exactly when one of its products overflows. *)
Lemma register_exact r c :
  rtt_typed r → 0 ≤ c ≤ DURATION_MAX →
  register r c =
    if register_overflows r c then Panicked
    else Done (MkRtt c (decay_3 r * 7 / 10 + c * 3 / 10) (decay_10 r * 9 / 10 + c / 10)
                     0 (failure_rate r * 99 / 100)).
Proof.
  intros [Hc H3 H10 Hn Hf] Hcb. unfold register, register_overflows, mul_u.
  rewrite !dur_mul_cases.
  destruct (bool_decide (DURATION_MAX < decay_3 r * 7)) eqn:E3; [done|].
  cbn [mbind outcome_bind orb]. rewrite !dur_div_pos by lia. cbn [mbind outcome_bind].
  destruct (bool_decide (DURATION_MAX < c * 3)) eqn:Ec; [done|].
  cbn [mbind outcome_bind orb]. rewrite !dur_div_pos by lia. cbn [mbind outcome_bind].
  bsimp. unfold dur_add. rewrite dur_checked_le by lia. cbn [mbind outcome_bind].
  case_bool_decide; [done|]. cbn [mbind outcome_bind]. rewrite dur_div_pos by lia.
  cbn [mbind outcome_bind].
  rewrite dur_checked_le by lia. cbn [mbind outcome_bind]. by rewrite checked_fits by lia.
Qed.

Lemma register_typed r c r' :
  rtt_typed r → 0 ≤ c ≤ DURATION_MAX → register r c = Done r' → rtt_typed r'.
Proof.
  intros Hr Hc. rewrite register_exact by done.
  destruct (register_overflows r c) eqn:E; [done|]. intros [= <-].
  unfold register_overflows in E. bsimp. destruct Hr. split; cbn; lia.
Qed.

(** A failed ping panics exactly when the counter is full and overflow is checked. *)
Lemma register_failure_exact r :
  rtt_typed r →
  register_failure r =
    if register_failure_overflows r then Panicked
    else Done (MkRtt (current r) (decay_3 r) (decay_10 r) (wrap 32 (rtt_failures r + 1))
                     (failure_rate r * 99 / 100 + 10000)).
Proof.
  intros [Hc H3 H10 Hn Hf]. unfold register_failure, register_failure_overflows, add_u, mul_u.
  assert (checked 32 (rtt_failures r + 1) =
    if overflow_checks && bool_decide (rtt_failures r = 2 ^ 32 - 1) then Panicked
    else Done (wrap 32 (rtt_failures r + 1))) as ->.
  { case_bool_decide as Hm.
    - unfold checked. assert (fits 32 (rtt_failures r + 1) = false) as -> by (rewrite Hm; by vm_compute).
      by destruct overflow_checks.
    - rewrite andb_false_r, checked_fits by lia. unfold wrap. by rewrite Z.mod_small by lia. }
  case_match; [done|]. cbn [mbind outcome_bind]. rewrite checked_fits by lia.
  cbn [mbind outcome_bind]. by rewrite checked_fits by lia.
Qed.

(** The closed form of a successful registration. *)
Lemma register_eq r c :
  rtt_wf r → 0 ≤ c ≤ RTT_BOUND →
  register r c =
    Done (MkRtt c (decay_3 r * 7 / 10 + c * 3 / 10) (decay_10 r * 9 / 10 + c / 10)
                0 (failure_rate r * 99 / 100)).
Proof.
  intros [Hc H3 H10 Hn Hf] Hcb. unfold register, dur_mul, dur_add, mul_u.
  assert (RTT_BOUND + RTT_BOUND ≤ DURATION_MAX) as Hb by by vm_compute.
  rewrite !(dur_checked_le (_ * _)) by (apply rtt_bound_mul; lia). cbn.
  rewrite !dur_div_pos by lia. cbn.
  rewrite dur_checked_le by lia. cbn.
  rewrite dur_checked_le by lia. cbn.
  by rewrite checked_fits by lia.
Qed.

Lemma register_wf r c r' :
  rtt_wf r → 0 ≤ c ≤ RTT_BOUND → register r c = Done r' → rtt_wf r'.
Proof.
  intros Hr Hc. rewrite register_eq by done. intros [= <-].
  destruct Hr. split; simpl; lia.
Qed.

Lemma register_failure_eq r :
  rtt_wf r → rtt_failures r < 2 ^ 32 - 1 →
  register_failure r =
    Done (MkRtt (current r) (decay_3 r) (decay_10 r)
                (rtt_failures r + 1) (failure_rate r * 99 / 100 + 10000)).
Proof.
  intros [Hc H3 H10 Hn Hf] Hlt. unfold register_failure, add_u, mul_u.
  rewrite checked_fits by lia. cbn. rewrite checked_fits by lia. cbn.
  by rewrite checked_fits by lia.
Qed.

Lemma register_failure_typed r r' : rtt_typed r → register_failure r = Done r' → rtt_typed r'.
Proof.
  intros Hr. rewrite register_failure_exact by done. case_match; [done|]. intros [= <-].
  pose proof (Z.mod_pos_bound (rtt_failures r + 1) (2 ^ 32) eq_refl).
  destruct Hr. split; cbn; unfold wrap; lia.
Qed.
End rtt.

(** C36: registering a sample within the bound never panics, keeps the record
    well formed, and each moving average stays between the smaller and the larger
    of its old value and the new sample, up to the two nanoseconds of the integer
    divisions. *)
Theorem register_between `{Profile} r c :
  rtt_wf r → 0 ≤ c ≤ RTT_BOUND →
  ∃ r', register r c = Done r' ∧ rtt_wf r' ∧ current r' = c ∧ rtt_failures r' = 0 ∧
    failure_rate r' ≤ failure_rate r ∧
    Z.min (decay_3 r) c - 2 ≤ decay_3 r' ≤ Z.max (decay_3 r) c ∧
    Z.min (decay_10 r) c - 2 ≤ decay_10 r' ≤ Z.max (decay_10 r) c.
Proof.
  intros Hr Hc. pose proof (register_eq r c Hr Hc) as E.
  eexists. split; [exact E|]. split; [by eapply register_wf|].
  destruct Hr. simpl. lia.
Qed.

Lemma register_between_witness :
  ∃ r', register (Rtt_new 1000) 2000 = Done r' ∧ rtt_wf r' ∧ current r' = 2000 ∧
    rtt_failures r' = 0 ∧ failure_rate r' ≤ 0 ∧
    998 ≤ decay_3 r' ≤ 2000 ∧ 998 ≤ decay_10 r' ≤ 2000.
Proof.
  apply (register_between (Rtt_new 1000) 2000).
  - apply Rtt_new_wf. by vm_compute.
  - by vm_compute.
Defined.

(** A run of failures only, from a fresh record. *)
Fixpoint only_failures `{Profile} (n : nat) (r : Rtt) : outcome Rtt :=
  match n with
  | O => Done r
  | S n => only_failures n r ≫= register_failure
  end.

(** The failure rate after [n] failures, as a plain iteration. *)
Definition rate_after (n : nat) : Z := Nat.iter n (λ f, f * 99 / 100 + 10000) 0.

Lemma rate_after_S n : rate_after (S n) = rate_after n * 99 / 100 + 10000.
Proof. done. Qed.

Lemma rate_after_bound n : 0 ≤ rate_after n ≤ 999901.
Proof.
  induction n as [|n IH]; [by vm_compute|]. rewrite rate_after_S. lia.
Qed.

Lemma rate_after_limit n : (974 ≤ n)%nat → rate_after n = 999901.
Proof.
  intros Hn. replace n with (n - 974 + 974)%nat by lia.
  induction (n - 974)%nat as [|k IH]; [by vm_compute|].
  cbn [Nat.add]. by rewrite rate_after_S, IH.
Qed.

Lemma only_failures_inv `{Profile} d n :
  0 ≤ d ≤ RTT_BOUND → Z.of_nat n < 2 ^ 32 →
  ∃ r, only_failures n (Rtt_new d) = Done r ∧ rtt_wf r ∧
       rtt_failures r = Z.of_nat n ∧ failure_rate r = rate_after n.
Proof.
  intros Hd. induction n as [|n IH]; intros Hn.
  - eexists. split; [done|]. split; [by apply Rtt_new_wf|]. done.
  - destruct IH as (r & E & Hr & Hc & Hf); [lia|].
    cbn [only_failures]. rewrite E. cbn [mbind outcome_bind].
    rewrite register_failure_eq by (done || lia).
    eexists. split; [done|]. pose proof (rate_after_bound n). split.
    + destruct Hr. split; simpl; lia.
    + cbn [rtt_failures failure_rate]. rewrite Hf, rate_after_S. split; [lia | done].
Qed.

(** The failure rate of a peer that only ever fails never reaches the
    documented 1_000_000: with integer division it stays at or below 999_901, and
    equals 999_901 from the 974th failure on. *)
Theorem only_failures_rate `{Profile} d n :
  0 ≤ d ≤ RTT_BOUND → Z.of_nat n < 2 ^ 32 →
  ∃ r, only_failures n (Rtt_new d) = Done r ∧ failure_rate r ≤ 999901 ∧
       ((974 ≤ n)%nat → failure_rate r = 999901).
Proof.
  intros Hd Hn. destruct (only_failures_inv d n) as (r & E & _ & _ & Hf); [done..|].
  exists r. split; [done|]. rewrite Hf.
  split; [apply rate_after_bound | apply rate_after_limit].
Qed.

Lemma only_failures_rate_witness :
  ∃ r, only_failures 1000 (Rtt_new 5) = Done r ∧ failure_rate r ≤ 999901 ∧
       ((974 ≤ 1000)%nat → failure_rate r = 999901).
Proof. apply (only_failures_rate 5 1000); by vm_compute. Defined.

(** ** Address table and failure history *)
Section info_lemmas.
Context `{L : Libp2p}.
Implicit Types (a addr : Multiaddr) (i : PeerInfo).

(** The source recorded for an address. *)
Definition source_at i a : option AddressSource := fst <$> addresses i !! a.

Definition probing i a : bool :=
  match source_at i a with Some s => is_to_probe s | None => false end.

(** Keys of the address and connection tables end in the peer id, the failure
    history is bounded and the round-trip times are in range. *)
Record info_wf i : Prop := {
  wf_addresses : ∀ a, is_Some (addresses i !! a) → ends_in_p2p a = true;
  wf_connections : ∀ a, is_Some (connections i !! a) → ends_in_p2p a = true;
  wf_failures : (length (failures i) ≤ 10)%nat;
  wf_rtt : ∀ r, rtt i = Some r → rtt_typed r;
}.

Lemma PeerInfo_default_wf : info_wf PeerInfo_default.
Proof.
  split; cbn; [intros a | intros a | lia | done];
    rewrite lookup_empty; by intros [??].
Qed.

Lemma elem_of_addresses_by `{!HashOrder} p i a :
  a ∈ addresses_by p i ↔ ∃ s, source_at i a = Some s ∧ p s = true.
Proof.
  unfold addresses_by, source_at. rewrite list_elem_of_fmap. split.
  - intros [[a' [s t]] [-> [Hp Hin]%list_elem_of_filter]].
    apply elem_of_hm_iter in Hin. exists s. cbn. by rewrite Hin.
  - intros (s & Hs & Hp). apply fmap_Some in Hs as ([s' t] & Hl & ->).
    exists (a, (s', t)). split; [done|].
    apply list_elem_of_filter. split; [done|]. by apply elem_of_hm_iter.
Qed.

Lemma source_at_insert i a b s t :
  source_at (with_addresses <[a := (s, t)]> i) b =
    if decide (a = b) then Some s else source_at i b.
Proof. unfold source_at. cbn. rewrite lookup_insert. by case_decide. Qed.

Lemma push_failure_fields a f b i :
  (length (failures i) ≤ 10)%nat →
  push_failure a f b i =
    with_failures (λ fs, take 10 (f :: fs))
      (if b && probing i a then with_addresses (delete a) i else i).
Proof.
  intros Hlen. pose proof (removelast_take 9 (failures i)) as Ht.
  specialize (Ht ltac:(lia)).
  unfold push_failure, probing, source_at.
  case_bool_decide; cbn;
    (destruct (addresses i !! a) as [[s t]|]; cbn; [|rewrite !andb_false_r]);
    try destruct (b && _); unfold with_failures, with_addresses; cbn; congruence.
Qed.

Lemma push_failure_wf a f b i : info_wf i → info_wf (push_failure a f b i).
Proof.
  intros [Ha Hc Hf Hr]. rewrite push_failure_fields by done.
  destruct (b && _); split; cbn; auto; try (rewrite length_take; lia).
  intros a'. rewrite lookup_delete. case_decide; [by intros [??] | auto].
Qed.

Lemma push_failure_connections a f b i :
  connections (push_failure a f b i) = connections i.
Proof. unfold push_failure. by repeat case_match. Qed.

Section ingest.
Context `{Profile}.

(** The source an address has after one more report. *)
Definition merge_source (old : option AddressSource) (s : AddressSource) : AddressSource :=
  match old with Some o => source_max s o | None => s end.

(** Whether a report of [s] asks for a validation dial. *)
Definition wants_probe (old : option AddressSource) (s : AddressSource) : bool :=
  match old with
  | Some o => bool_decide (source_rank o < source_rank s) && is_to_probe s
  | None => is_to_probe s
  end.

Lemma ingest_eq now a s i :
  ends_in_p2p a = true ∨ is_Some (source_at i a) →
  ingest_address now a s i =
    Done (wants_probe (source_at i a) s,
          with_addresses <[a := (merge_source (source_at i a) s, now)]> i).
Proof.
  intros Ha. unfold ingest_address, merge_source, wants_probe, source_max, source_at in *.
  destruct (addresses i !! a) as [[o t]|]; cbn in *.
  - unfold source_cmp. case_match eqn:E.
    + rewrite Z.compare_eq_iff in E. by rewrite bool_decide_false by lia.
    + rewrite Z.compare_lt_iff in E. by rewrite bool_decide_false by lia.
    + rewrite Z.compare_gt_iff in E. by rewrite bool_decide_true by lia.
  - destruct Ha as [Ha | [? [=]]]. by rewrite debug_assert_true.
Qed.

Lemma insert_address_wf a v i :
  info_wf i → ends_in_p2p a = true → info_wf (with_addresses <[a := v]> i).
Proof.
  intros [Ha Hc Hf Hr] Hend. split; cbn; auto.
  intros a'. rewrite lookup_insert. case_decide; naive_solver.
Qed.

Lemma insert_connection_wf a v i :
  info_wf i → ends_in_p2p a = true → info_wf (with_connections <[a := v]> i).
Proof.
  intros [Ha Hc Hf Hr] Hend. split; cbn; auto.
  intros a'. rewrite lookup_insert. case_decide; naive_solver.
Qed.

Lemma delete_address_wf a i : info_wf i → info_wf (with_addresses (delete a) i).
Proof.
  intros [Ha Hc Hf Hr]. split; cbn; auto.
  intros a'. rewrite lookup_delete. case_decide; [by intros [??] | auto].
Qed.

Lemma delete_connection_wf a i : info_wf i → info_wf (with_connections (delete a) i).
Proof.
  intros [Ha Hc Hf Hr]. split; cbn; auto.
  intros a'. rewrite lookup_delete. case_decide; [by intros [??] | auto].
Qed.

Lemma with_rtt_wf r i : info_wf i → rtt_typed r → info_wf (with_rtt (Some r) i).
Proof. intros [] Hr. split; cbn; try done. by intros ? [= <-]. Qed.

(** Whether the result [r] of a ping overflows the round-trip record of the peer. *)
Definition ping_overflows (r : option Duration) i : bool :=
  match r, rtt i with
  | Some d, Some x => register_overflows x d
  | None, Some x => register_failure_overflows x
  | _, None => false
  end.

Lemma set_rtt_exact r i :
  info_wf i → (∀ d, r = Some d → 0 ≤ d ≤ DURATION_MAX) →
  if ping_overflows r i then set_rtt r i = Panicked
  else ∃ i', set_rtt r i = Done i' ∧ info_wf i'.
Proof.
  intros Hi Hd. pose proof (wf_rtt _ Hi) as Hr. unfold ping_overflows, set_rtt.
  destruct r as [d|], (rtt i) as [x|] eqn:Er; [| | |by eauto].
  - pose proof (register_typed x d) as Ht. rewrite register_exact in * by auto.
    case_match; [done|]. eexists. split; [done|]. apply with_rtt_wf; auto.
  - eexists. split; [done|]. auto using with_rtt_wf, Rtt_new_typed.
  - pose proof (register_failure_typed x) as Ht. rewrite register_failure_exact in * by auto.
    case_match; [done|]. eexists. split; [done|]. apply with_rtt_wf; auto.
Qed.

Lemma ingest_wf now a s i b i' :
  info_wf i → ends_in_p2p a = true →
  ingest_address now a s i = Done (b, i') → info_wf i'.
Proof.
  intros Hi Hend. rewrite ingest_eq by auto. intros [= <- <-].
  by apply insert_address_wf.
Qed.

(** Reports for one address, in the order they arrive. *)
Fixpoint ingest_all (addr : Multiaddr) (xs : list (Z * AddressSource)) (i : PeerInfo)
    : outcome PeerInfo :=
  match xs with
  | [] => Done i
  | (now, s) :: xs => '(_, i) ← ingest_address now addr s i; ingest_all addr xs i
  end.
End ingest.
End info_lemmas.

(** Whatever the order in which an address is reported, its recorded
    source ends up being the best one: no run of [ingest_address] panics, the
    rank recorded for the address is the maximum of the old rank and all reported
    ranks, and no other address is touched. *)
Theorem ingest_all_max `{L : Libp2p, Profile} (addr : Multiaddr) xs i :
  ends_in_p2p addr = true →
  ∃ i', ingest_all addr xs i = Done i' ∧
    (source_rank <$> source_at i' addr =
       foldl (λ o x, Some (match o with Some r => Z.max r (source_rank x.2)
                           | None => source_rank x.2 end))
             (source_rank <$> source_at i addr) xs) ∧
    (∀ b, b ≠ addr → addresses i' !! b = addresses i !! b) ∧
    connections i' = connections i ∧ failures i' = failures i ∧ rtt i' = rtt i.
Proof.
  intros Hend. revert i. induction xs as [|[now s] xs IH]; intros i; [naive_solver|].
  cbn [ingest_all]. rewrite ingest_eq by auto. cbn [mbind outcome_bind].
  edestruct IH as (i' & E & Hs & Ho & Hrest). exists i'. split; [exact E|].
  split; [|split].
  - rewrite Hs, source_at_insert, decide_True by done. cbn. f_equal. f_equal.
    unfold merge_source. destruct (source_at i addr); cbn; [|done].
    rewrite source_max_rank. lia.
  - intros b Hb. rewrite (Ho b Hb). cbn. by rewrite lookup_insert_ne.
  - naive_solver.
Qed.

Lemma ingest_all_max_witness :
  let a : Multiaddr := [Ip4 (ipv4 1 1 1 1); Tcp 3333; P2p 7%N] in
  ∃ i', ingest_all a [(0, Kad); (1, User); (2, Mdns)] PeerInfo_default = Done i' ∧
    source_rank <$> source_at i' a = Some (source_rank User) ∧
    (∀ b, b ≠ a → addresses i' !! b = addresses PeerInfo_default !! b) ∧
    connections i' = connections PeerInfo_default ∧
    failures i' = failures PeerInfo_default ∧ rtt i' = rtt PeerInfo_default.
Proof.
  intros a.
  apply (ingest_all_max a [(0, Kad); (1, User); (2, Mdns)] PeerInfo_default).
  reflexivity.
Defined.

(** The failure history is the ten most recent failures, newest first, and
    a failed probe forgets the address exactly when its best source still is to be
    probed; addresses with a user- or dial-confirmed source survive. *)
Theorem push_failure_spec `{L : Libp2p} (addr : Multiaddr) f probe i :
  info_wf i →
  let i' := push_failure addr f probe i in
  info_wf i' ∧ failures i' = take 10 (f :: failures i) ∧
  connections i' = connections i ∧ rtt i' = rtt i ∧
  (∀ b, b ≠ addr → addresses i' !! b = addresses i !! b) ∧
  (addresses i' !! addr =
     if probe && match source_at i addr with
                 | Some (Listen | Kad | Mdns | Candidate) => true | _ => false end
     then None else addresses i !! addr).
Proof.
  intros Hwf i'. split; [by apply push_failure_wf|]. unfold i'.
  rewrite push_failure_fields by apply Hwf. unfold probing.
  destruct probe; cbn; [|done].
  destruct (source_at i addr) as [[]|] eqn:E; cbn; repeat split; try done;
    intros; (by rewrite lookup_delete_ne) || (by rewrite lookup_delete_eq).
Qed.

Lemma push_failure_spec_witness :
  let a : Multiaddr := [Ip4 (ipv4 1 1 1 1); Tcp 3333; P2p 7%N] in
  let f := failure_us 0 a "" "" in
  let i' := push_failure a f true PeerInfo_default in
  info_wf i' ∧ failures i' = [f] ∧
  connections i' = ∅ ∧ rtt i' = None ∧
  (∀ b, b ≠ a → addresses i' !! b = addresses PeerInfo_default !! b) ∧
  addresses i' !! a = None.
Proof.
  intros a f i'. apply (push_failure_spec a f true PeerInfo_default).
  apply PeerInfo_default_wf.
Defined.
