(* ===== verification/Variable.v ===== *)
(** * [src/variable.rs]: shared variables

    A [Writer] and the [Reader]s obtained from it share one cell, an [Arc] around a
    [RwLock].  The heap, a finite map, holds the cells [Inner<T>] of all variables of one type; handles are
    references to cells.  A variable behaves like a register: what its handles observe
    is determined by the writes to that variable, whatever clone they go through and
    whatever happens to other variables in between.  How the locks are used is the
    subject of [Locks]. *)

From S2P Require Import Prelude.

Section variable.
Context {T : Type}.

Record Writer : Type := MkWriter { w_inner : positive }.
Record Reader : Type := MkReader { r_inner : positive }.

(** [Writer::new]. *)
Definition Writer_new (value : T) (h : gmap positive T) : Writer * gmap positive T :=
  let l := fresh (dom h) in (MkWriter l, <[l := value]> h).

(** [Writer::write]: the guard gives access to the value until it is dropped; [f] is
    what is done with it. *)
Definition write (w : Writer) (f : T → T) (h : gmap positive T) : gmap positive T := alter f (w_inner w) h.

(** [Writer::read]. *)
Definition read {U} (w : Writer) (f : T → U) (h : gmap positive T) : option U := f <$> h !! w_inner w.

(** [Writer::reader]; [Clone] for both handles copies the reference. *)
Definition reader (w : Writer) : Reader := MkReader (w_inner w).
Definition clone_writer (w : Writer) : Writer := w.
Definition clone_reader (r : Reader) : Reader := r.

(** [Reader::project], [Reader::get], [Reader::get_cloned]. *)
Definition project {U} (r : Reader) (f : T → U) (h : gmap positive T) : option U := f <$> h !! r_inner r.
Definition get_copy (r : Reader) (h : gmap positive T) : option T := h !! r_inner r.
Definition get_cloned (r : Reader) (h : gmap positive T) : option T := h !! r_inner r.

(** ** Variables are registers *)

(** What a program does with its variables, which are numbered in the order of their
    creation: through the writer, a clone of it, its reader or a clone of that. *)
Inductive var_op : Type :=
| VNew (v : T)
| VWrite (i : nat) (f : T → T)
| VWriteClone (i : nat) (f : T → T)
| VRead (i : nat) (f : T → T)
| VProject (i : nat) (f : T → T)
| VGet (i : nat)
| VGetCloned (i : nat).

(** The writers a program holds, and the heap. *)
Definition var_state : Type := list Writer * gmap positive T.

Definition with_writer {U} (i : nat) (s : var_state) (f : Writer → U) : option U := f <$> s.1 !! i.

(** What an operation observes, and the state after it; on a variable that was not
    created nothing happens. *)
Definition run_op (o : var_op) (s : var_state) : option T * var_state :=
  let '(ws, h) := s in
  match o with
  | VNew v => let '(w, h) := Writer_new v h in (None, (ws ++ [w], h))
  | VWrite i f => (None, (ws, default h (with_writer i s (λ w, write w f h))))
  | VWriteClone i f => (None, (ws, default h (with_writer i s (λ w, write (clone_writer w) f h))))
  | VRead i f => (mjoin (with_writer i s (λ w, read w f h)), s)
  | VProject i f => (mjoin (with_writer i s (λ w, project (reader w) f h)), s)
  | VGet i => (mjoin (with_writer i s (λ w, get_copy (reader w) h)), s)
  | VGetCloned i => (mjoin (with_writer i s (λ w, get_cloned (clone_reader (reader w)) h)), s)
  end.

Fixpoint run_ops (os : list var_op) (s : var_state) : list (option T) * var_state :=
  match os with
  | [] => ([], s)
  | o :: os =>
      let '(x, s) := run_op o s in
      let '(xs, s) := run_ops os s in (x :: xs, s)
  end.

(** The same operations on a list of plain values. *)
Definition register_op (o : var_op) (vs : list T) : option T * list T :=
  match o with
  | VNew v => (None, vs ++ [v])
  | VWrite i f | VWriteClone i f => (None, alter f i vs)
  | VRead i f | VProject i f => (f <$> vs !! i, vs)
  | VGet i | VGetCloned i => (vs !! i, vs)
  end.

Fixpoint run_registers (os : list var_op) (vs : list T) : list (option T) * list T :=
  match os with
  | [] => ([], vs)
  | o :: os =>
      let '(x, vs) := register_op o vs in
      let '(xs, vs) := run_registers os vs in (x :: xs, vs)
  end.

(** Each variable has a cell of its own, which holds its value; the cells of [h0], which
    are used elsewhere, are none of them and unchanged. *)
Record registers (h0 : gmap positive T) (s : var_state) (vs : list T) : Prop := {
  reg_values : Forall2 (λ w v, s.2 !! w_inner w = Some v) s.1 vs;
  reg_distinct : NoDup (w_inner <$> s.1);
  reg_apart : ∀ w, w ∈ s.1 → h0 !! w_inner w = None;
  reg_frame : ∀ l v, h0 !! l = Some v → s.2 !! l = Some v;
}.

Lemma registers_lookup h0 s vs i :
  registers h0 s vs → (w ← s.1 !! i; s.2 !! w_inner w) = vs !! i.
Proof.
  intros [Hv _ _ _]. destruct (s.1 !! i) as [w|] eqn:Hw; cbn.
  - by destruct (Forall2_lookup_l _ _ _ _ _ Hv Hw) as (v & -> & ->).
  - symmetry. apply lookup_ge_None. rewrite <- (Forall2_length _ _ _ Hv). by apply lookup_ge_None.
Qed.

Lemma new_registers h0 s vs v :
  registers h0 s vs → registers h0 (run_op (VNew v) s).2 (vs ++ [v]).
Proof.
  destruct s as [ws h]. intros [Hv Hnd Ha Hf]. cbn in *. set (l := fresh (dom h)).
  assert (h !! l = None) as Hl by (apply not_elem_of_dom, is_fresh).
  assert (∀ w, w ∈ ws → w_inner w ≠ l) as Hne.
  { intros w [i Hi]%list_elem_of_lookup Heq.
    destruct (Forall2_lookup_l _ _ _ _ _ Hv Hi) as (x & _ & Hx). rewrite Heq in Hx. congruence. }
  split; cbn.
  - apply Forall2_app; [|by constructor; [cbn; apply lookup_insert_eq|]].
    eapply Forall2_impl; [exact Hv|]. intros w x Hx. rewrite lookup_insert_ne; [done|].
    intros Heq. cbn in Hx. rewrite <- Heq in Hx. congruence.
  - rewrite fmap_app. apply NoDup_app. split_and!; [done| |apply NoDup_singleton].
    intros x (w & -> & Hw)%list_elem_of_fmap. cbn. rewrite list_elem_of_singleton. by apply Hne.
  - intros w [Hw| ->%list_elem_of_singleton]%elem_of_app; [by apply Ha|]. cbn.
    destruct (h0 !! l) as [x|] eqn:Hx; [|done]. apply Hf in Hx. congruence.
  - intros l' x Hx. apply Hf in Hx. rewrite lookup_insert_ne; [done|]. intros Heq. rewrite <- Heq in Hx. congruence.
Qed.

Lemma write_registers h0 ws h vs i f :
  registers h0 (ws, h) vs →
  registers h0 (ws, default h ((λ w, write w f h) <$> ws !! i)) (alter f i vs).
Proof.
  intros Hr. destruct (ws !! i) as [w|] eqn:Hw; cbn.
  - destruct Hr as [Hv Hnd Ha Hf]. cbn in *. unfold write. split; cbn; [|done..|].
    + apply Forall2_same_length_lookup. split.
      { rewrite length_alter. by eapply Forall2_length. }
      intros j w' x Hw' Hx. destruct (decide (i = j)) as [<-|Hne].
      * simplify_eq. rewrite list_lookup_alter_eq in Hx. apply fmap_Some in Hx as (y & Hy & ->).
        rewrite lookup_alter_eq. by rewrite (Forall2_lookup_lr _ _ _ _ _ _ Hv Hw Hy).
      * rewrite list_lookup_alter_ne in Hx by done. rewrite lookup_alter_ne.
        { by apply (Forall2_lookup_lr _ _ _ _ _ _ Hv Hw' Hx). }
        intros Heq. apply Hne. eapply NoDup_lookup; [exact Hnd|..]; rewrite list_lookup_fmap;
          [by rewrite Hw|by rewrite Hw', Heq].
    + intros l x Hx. rewrite lookup_alter_ne; [by apply Hf|]. intros <-.
      rewrite (Ha w) in Hx; [done|]. by eapply list_elem_of_lookup_2.
  - assert (alter f i vs = vs) as ->; [|done]. apply list_eq. intros j.
    rewrite list_lookup_alter. case_decide as Hj; [|done]. subst j.
    assert (vs !! i = None) as ->; [|done]. apply lookup_ge_None.
    rewrite <- (Forall2_length _ _ _ (reg_values _ _ _ Hr)). by apply lookup_ge_None.
Qed.

(** An operation observes and does what it observes and does on the values. *)
Lemma run_op_register h0 o s vs :
  registers h0 s vs →
  (run_op o s).1 = (register_op o vs).1 ∧ registers h0 (run_op o s).2 (register_op o vs).2.
Proof.
  intros Hs. pose proof (λ i, registers_lookup h0 s vs i Hs) as Hl.
  pose proof (λ v, new_registers h0 s vs v Hs) as Hn. destruct s as [ws h].
  pose proof (λ i f, write_registers h0 ws h vs i f Hs) as Hw. cbn in Hl.
  destruct o as [v|i f|i f|i f|i f|i|i].
  - split; [done|]. apply Hn.
  - split; [done|]. apply Hw.
  - split; [done|]. apply Hw.
  - split; [|done]. cbn. unfold with_writer. rewrite <- Hl. cbn [fst]. by destruct (ws !! i).
  - split; [|done]. cbn. unfold with_writer. rewrite <- Hl. cbn [fst]. by destruct (ws !! i).
  - split; [|done]. cbn. unfold with_writer. rewrite <- Hl. cbn [fst]. by destruct (ws !! i).
  - split; [|done]. cbn. unfold with_writer. rewrite <- Hl. cbn [fst]. by destruct (ws !! i).
Qed.
End variable.
Arguments var_op : clear implicits.

(** C30: shared variables are independent registers.  In a program that creates variables
    and uses them, in any order, through their writers, their readers and clones of both,
    every operation observes what it would observe on a list of plain values, one per
    variable, and in the end the variables hold those values; no cell that existed before
    is touched.  So a new variable has a cell of its own, every handle obtained from its
    writer leads to that cell, and reading through [project], [get] or [get_cloned] sees
    the last write. *)
Theorem variable_is_register {T : Type} (os : list (var_op T)) (h0 : gmap positive T) :
  let '(xs, (ws, h)) := run_ops os ([], h0) in
  let '(ys, vs) := run_registers os [] in
  xs = ys ∧ length ws = length vs ∧
  (∀ i, (w ← ws !! i; get_cloned (reader w) h) = vs !! i) ∧
  (∀ l v, h0 !! l = Some v → h !! l = Some v).
Proof.
  assert (∀ s vs, registers h0 s vs →
    (run_ops os s).1 = (run_registers os vs).1 ∧
    registers h0 (run_ops os s).2 (run_registers os vs).2) as Hrun.
  { induction os as [|o os IH]; intros s vs Hs; [done|]. cbn [run_ops run_registers].
    destruct (run_op_register h0 o s vs Hs) as [Ho Hr].
    destruct (run_op o s) as [x s1], (register_op o vs) as [y vs1]. cbn in Ho, Hr. subst y.
    destruct (IH s1 vs1 Hr) as [Hx Hr'].
    destruct (run_ops os s1), (run_registers os vs1). cbn in *. by subst. }
  destruct (Hrun ([], h0) []) as [Hx Hr]; [split; cbn; [constructor|constructor|set_solver|done]|].
  destruct (run_ops os ([], h0)) as [xs [ws h]], (run_registers os []) as [ys vs]. cbn in *.
  split_and!; [done| | |].
  - exact (Forall2_length _ _ _ (reg_values _ _ _ Hr)).
  - intros i. exact (registers_lookup _ _ _ i Hr).
  - exact (reg_frame _ _ _ Hr).
Qed.

(** Two variables, one counted up through its writer and a clone. *)
Example variable_run :
  (run_ops [VNew 5%Z; VNew 7%Z; VWrite 0 (Z.add 1); VWrite 1 (Z.mul 2); VWriteClone 0 (Z.add 1);
            VGet 0; VProject 1 Z.succ; VGetCloned 2] ([], ∅)).1 =
  [None; None; None; None; None; Some 7; Some 15; None]%Z.
Proof. by vm_compute. Qed.
