(* ===== verification/Locks.v ===== *)
(** * Locks and threads

    The locks of the program - the [RwLock]s inside shared variables and the mutexes
    around the node, the block store and temporary pins - and threads that acquire and
    release them in any interleaving.  A program is _ordered_ when it acquires locks
    only in increasing rank and releases what it acquired; threads that run ordered
    programs never deadlock, even when a waiting writer keeps new readers out, as
    [parking_lot] does. *)

From S2P Require Import Prelude.

(** ** Locks and programs *)

(** The mutex around the node in the command line tool and around a temporary pin, the
    variables of the network, the mutex around the block store. *)
Inductive lock : Type :=
| NodeMutex
| PinMutex
| PeersLock
| ListenersLock
| ExternalLock
| BootstrappedLock
| StoreMutex.

Inductive mode : Type := Shared | Exclusive.

#[export] Instance lock_eq_dec : EqDecision lock.
Proof. solve_decision. Defined.
#[export] Instance mode_eq_dec : EqDecision mode.
Proof. solve_decision. Defined.

Definition rank (l : lock) : nat :=
  match l with
  | NodeMutex => 0
  | PinMutex => 1
  | PeersLock => 2
  | ListenersLock => 3
  | ExternalLock => 4
  | BootstrappedLock => 5
  | StoreMutex => 6
  end.

Inductive lock_op : Type :=
| Acq (l : lock) (m : mode)
| Rel (l : lock).

#[export] Instance lock_op_eq_dec : EqDecision lock_op.
Proof. solve_decision. Defined.

Definition release (l : lock) (held : list (lock * mode)) : list (lock * mode) :=
  filter (λ x, x.1 ≠ l) held.

(** Locks are acquired in increasing rank, released when held, and none is kept. *)
Fixpoint ordered (held : list (lock * mode)) (p : list lock_op) : bool :=
  match p with
  | [] => bool_decide (held = [])
  | Acq l m :: p => forallb (λ x, Nat.ltb (rank x.1) (rank l)) held && ordered ((l, m) :: held) p
  | Rel l :: p => bool_decide (l ∈ held.*1) && ordered (release l held) p
  end.

(** ** Threads *)

Record thread : Type := MkThread {
  prog : list lock_op;
  held : list (lock * mode);
}.

Definition holds (l : lock) (t : thread) : bool := bool_decide (l ∈ (held t).*1).
Definition holds_exclusive (l : lock) (t : thread) : bool := bool_decide ((l, Exclusive) ∈ held t).
Definition waits_exclusive (l : lock) (t : thread) : bool :=
  match prog t with Acq l' Exclusive :: _ => bool_decide (l = l') | _ => false end.

(** Whether the lock can be had: exclusively when nobody holds it, shared when nobody
    holds it exclusively or waits to. *)
Definition can_acquire (l : lock) (m : mode) (ts : list thread) : bool :=
  match m with
  | Exclusive => negb (existsb (holds l) ts)
  | Shared => negb (existsb (holds_exclusive l) ts) && negb (existsb (waits_exclusive l) ts)
  end.

(** One step of thread [i]; [None] when it is finished or has to wait. *)
Definition thread_step (i : nat) (ts : list thread) : option (list thread) :=
  t ← ts !! i;
  match prog t with
  | [] => None
  | Acq l m :: p =>
      if can_acquire l m ts then Some (<[i := MkThread p ((l, m) :: held t)]> ts) else None
  | Rel l :: p => Some (<[i := MkThread p (release l (held t))]> ts)
  end.

Definition sched (ts ts' : list thread) : Prop := ∃ i, thread_step i ts = Some ts'.

Definition finished (t : thread) : Prop := prog t = [] ∧ held t = [].
Definition disciplined (t : thread) : Prop := ordered (held t) (prog t) = true.

(** Nobody holds a lock that somebody else holds exclusively. *)
Definition exclusive (ts : list thread) : Prop :=
  ∀ i j t u l, ts !! i = Some t → ts !! j = Some u → i ≠ j →
    (l, Exclusive) ∈ held t → l ∉ (held u).*1.

(** Operations left to do. *)
Definition remaining (ts : list thread) : nat := sum_list_with (λ t, length (prog t)) ts.

(** ** Ordered programs *)

Lemma ordered_app h p q :
  ordered h p = true → ordered [] q = true → ordered h (p ++ q) = true.
Proof.
  intros Hp Hq. revert h Hp. induction p as [|[l m|l] p IH]; intros h Hp; cbn in *; bsimp.
  - done.
  - apply andb_true_iff. auto.
  - apply andb_true_iff. by rewrite bool_decide_true by done; auto.
Qed.

Lemma ordered_concat ps : Forall (λ p, ordered [] p = true) ps → ordered [] (concat ps) = true.
Proof. induction 1; [done|]. by apply ordered_app. Qed.

Lemma release_subset l h x : x ∈ release l h → x ∈ h.
Proof. unfold release. by intros [_ ?]%list_elem_of_filter. Qed.

Lemma disciplined_step i ts ts' :
  thread_step i ts = Some ts' → Forall disciplined ts → Forall disciplined ts'.
Proof.
  unfold thread_step. intros Hs Hd. destruct (ts !! i) as [[p h]|] eqn:Ht; cbn in Hs; [|done].
  assert (disciplined (MkThread p h)) as H by (by eapply Forall_lookup_1).
  unfold disciplined in H. destruct p as [|[l m|l] p]; cbn in *; [done| |]; bsimp.
  - destruct (can_acquire l m ts); simplify_eq. by apply Forall_insert.
  - by apply Forall_insert.
Qed.

(** ** Mutual exclusion *)

Lemma insert_lookup_cases {A} (ts : list A) i x j u :
  <[i := x]> ts !! j = Some u → (i = j ∧ u = x) ∨ (i ≠ j ∧ ts !! j = Some u).
Proof. rewrite list_lookup_insert_Some. naive_solver. Qed.

Lemma existsb_false_lookup {A} (f : A → bool) l i x :
  existsb f l = false → l !! i = Some x → f x = false.
Proof.
  intros H Hi. apply not_true_is_false. intros Hf.
  assert (existsb f l = true); [|congruence].
  apply existsb_exists. exists x. split; [|done].
  by apply list_elem_of_In, (list_elem_of_lookup_2 _ i).
Qed.

Lemma existsb_lookup {A} (f : A → bool) l :
  existsb f l = true → ∃ i x, l !! i = Some x ∧ f x = true.
Proof.
  intros (x & Hin & Hf)%existsb_exists. apply list_elem_of_In in Hin as [i Hi]%list_elem_of_lookup.
  eauto.
Qed.

(** An acquired lock was free in the required sense. *)
Lemma can_acquire_free l m ts i u :
  can_acquire l m ts = true → ts !! i = Some u →
  (l, Exclusive) ∉ held u ∧ (m = Exclusive → l ∉ (held u).*1).
Proof.
  destruct m; cbn; intros Hc Hi; bsimp.
  - pose proof (existsb_false_lookup _ _ _ _ H Hi) as H1. unfold holds_exclusive in H1. by bsimp.
  - pose proof (existsb_false_lookup _ _ _ _ Hc Hi) as H1. unfold holds in H1. bsimp.
    split; [|done]. intros Hx. apply H1. by apply (list_elem_of_fmap_2 fst) in Hx.
Qed.

Lemma exclusive_step i ts ts' :
  thread_step i ts = Some ts' → exclusive ts → exclusive ts'.
Proof.
  unfold thread_step. intros Hs He. destruct (ts !! i) as [[p h]|] eqn:Ht; cbn in Hs; [|done].
  destruct p as [|[l m|l] p]; [done| |]; cbn in Hs.
  - destruct (can_acquire l m ts) eqn:Hc; simplify_eq.
    intros j k t u l' Hj Hk Hjk Hl.
    apply insert_lookup_cases in Hj as [[-> ->]|[Hij Hj]],
      Hk as [[-> ->]|[Hik Hk]]; [done| | |by apply (He j k t u)].
    + cbn in Hl. apply elem_of_cons in Hl as [[= <- <-]|Hl];
        [by eapply can_acquire_free in Hk as [_ Hk]; eauto|].
      by eapply (He j k (MkThread (Acq l m :: p) h) u).
    + cbn. apply not_elem_of_cons. split; [|by eapply (He j k t (MkThread (Acq l m :: p) h))].
      intros ->. by eapply can_acquire_free in Hj as [Hj _].
  - simplify_eq. intros j k t u l' Hj Hk Hjk Hl.
    apply insert_lookup_cases in Hj as [[-> ->]|[Hij Hj]],
      Hk as [[-> ->]|[Hik Hk]]; [done| | |by apply (He j k t u)].
    + apply release_subset in Hl. by eapply (He j k (MkThread (Rel l :: p) h) u).
    + cbn. intros (x & -> & Hx%release_subset)%list_elem_of_fmap.
      eapply (He j k t (MkThread (Rel l :: p) h)); [done..|]. by apply list_elem_of_fmap_2.
Qed.

(** ** Progress *)

(** A lock nobody holds goes to somebody who asks for it. *)
Lemma free_lock_progress ts i t l m p :
  ts !! i = Some t → prog t = Acq l m :: p → existsb (holds l) ts = false →
  ∃ ts', sched ts ts'.
Proof.
  intros Hi Hp Hf.
  assert (∀ j u q, ts !! j = Some u → prog u = Acq l Exclusive :: q → ∃ ts', sched ts ts') as Hw.
  { intros j u q Hj Hq. eexists. exists j. unfold thread_step. rewrite Hj. cbn. rewrite Hq. cbn.
    by rewrite Hf. }
  destruct m; [|by eapply Hw].
  destruct (existsb (waits_exclusive l) ts) eqn:Hx.
  - apply existsb_lookup in Hx as (j & u & Hj & Hu). unfold waits_exclusive in Hu.
    destruct (prog u) as [|[l' []|] q] eqn:Hq; try done. bsimp. by eapply Hw.
  - eexists. exists i. unfold thread_step. rewrite Hi. cbn. rewrite Hp. cbn. rewrite Hx.
    destruct (existsb (holds_exclusive l) ts) eqn:Hh; [|done].
    apply existsb_lookup in Hh as (j & u & Hj & Hu). unfold holds_exclusive in Hu. bsimp.
    pose proof (existsb_false_lookup _ _ _ _ Hf Hj) as Hn. unfold holds in Hn. bsimp.
    exfalso. apply Hn. by apply (list_elem_of_fmap_2 fst) in Hu.
Qed.

(** Follow the threads that block each other: the ranks of the locks they wait for
    increase, so the chain ends with a thread that can step. *)
Lemma blocked_progress k ts i t l m p :
  Forall disciplined ts → ts !! i = Some t → prog t = Acq l m :: p →
  (6 - rank l < k)%nat → ∃ ts', sched ts ts'.
Proof.
  revert i t l m p. induction k as [|k IH]; intros i t l m p Hd Hi Hp Hk; [lia|].
  destruct (existsb (holds l) ts) eqn:Hh; [|by eapply free_lock_progress].
  apply existsb_lookup in Hh as (j & u & Hj & Hu). unfold holds in Hu. bsimp.
  pose proof (Forall_lookup_1 _ _ _ _ Hd Hj) as Ho. unfold disciplined in Ho.
  destruct (prog u) as [|[l' m'|l'] q] eqn:Hq; cbn in Ho; bsimp.
  - by rewrite Ho in Hu; apply elem_of_nil in Hu.
  - eapply (IH j u l' m' q); [done..|].
    apply list_elem_of_fmap in Hu as (x & -> & Hx).
    rewrite forallb_forall in H. apply list_elem_of_In, H, Nat.ltb_lt in Hx.
    assert (rank l' ≤ 6)%nat by (by destruct l'; cbn; lia). lia.
  - eexists. exists j. unfold thread_step. rewrite Hj. cbn. by rewrite Hq.
Qed.

Lemma disciplined_progress ts :
  Forall disciplined ts → Forall finished ts ∨ ∃ ts', sched ts ts'.
Proof.
  intros Hd. destruct (decide (Forall (λ t, prog t = []) ts)) as [Hn|Hn].
  - left. apply Forall_forall. intros t Ht. rewrite Forall_forall in Hn, Hd.
    pose proof (Hd t Ht) as Ho. unfold disciplined in Ho. rewrite (Hn t Ht) in Ho. cbn in Ho.
    bsimp. split; auto.
  - right. apply not_Forall_Exists, Exists_exists in Hn as (t & Ht & Hp); [|apply _].
    apply list_elem_of_lookup in Ht as [i Hi].
    destruct (prog t) as [|[l m|l] p] eqn:Hq; [done| |].
    + eapply (blocked_progress 7); [done..|lia].
    + eexists. exists i. unfold thread_step. rewrite Hi. cbn. by rewrite Hq.
Qed.

(** Every step does one operation. *)
Lemma step_remaining i ts ts' : thread_step i ts = Some ts' → S (remaining ts') = remaining ts.
Proof.
  unfold thread_step. intros Hs. destruct (ts !! i) as [[p h]|] eqn:Ht; cbn in Hs; [|done].
  assert (∀ h' op q, p = op :: q → S (remaining (<[i := MkThread q h']> ts)) = remaining ts) as Hr.
  { intros h' op q ->. unfold remaining. clear Hs. revert i Ht.
    induction ts as [|u ts IH]; intros [|i] Ht; cbn in *; simplify_eq/=; [done|].
    rewrite <- (IH i Ht). by rewrite Nat.add_succ_r. }
  destruct p as [|[l m|l] p]; [done| |]; [destruct (can_acquire l m ts)|]; simplify_eq; by eapply Hr.
Qed.
