(* ===== verification/Executor.v ===== *)
(** * [src/executor.rs]: tasks and their handles

    The executor spawns background tasks on one of two runtimes, chosen by features of
    the crate.  The runtimes, the crates [async-global-executor] and [tokio], are a
    parameter: a handle of the former cancels its task when dropped and can be detached,
    a handle of the latter detaches when dropped and can abort its task. *)

From S2P Require Import Prelude.

(** ** The runtimes *)
Class Runtime := {
  rt_state : Type;
  task : Type;
  task_eq_dec :: EqDecision task;
  (** [task] has been spawned; it has not been cancelled. *)
  spawned : rt_state → task → Prop;
  running : rt_state → task → bool;
  (** [async_global_executor::spawn] and dropping or detaching its [Task]. *)
  ag_spawn : rt_state → task * rt_state;
  ag_drop : task → rt_state → rt_state;
  ag_detach : task → rt_state → rt_state;
  (** [tokio::spawn] and dropping its [JoinHandle] or calling [abort]. *)
  tk_spawn : rt_state → task * rt_state;
  tk_drop : task → rt_state → rt_state;
  tk_abort : task → rt_state → rt_state;
  ag_spawn_fresh r : ¬ spawned r (ag_spawn r).1;
  ag_spawn_running r t :
    running (ag_spawn r).2 t = true ↔ t = (ag_spawn r).1 ∨ running r t = true;
  ag_spawn_spawned r t : spawned (ag_spawn r).2 t ↔ t = (ag_spawn r).1 ∨ spawned r t;
  tk_spawn_fresh r : ¬ spawned r (tk_spawn r).1;
  tk_spawn_running r t :
    running (tk_spawn r).2 t = true ↔ t = (tk_spawn r).1 ∨ running r t = true;
  tk_spawn_spawned r t : spawned (tk_spawn r).2 t ↔ t = (tk_spawn r).1 ∨ spawned r t;
  running_spawned r t : running r t = true → spawned r t;
  ag_drop_running t r u : running (ag_drop t r) u = true ↔ running r u = true ∧ u ≠ t;
  tk_abort_running t r u : running (tk_abort t r) u = true ↔ running r u = true ∧ u ≠ t;
  ag_detach_running t r u : running (ag_detach t r) u = running r u;
  tk_drop_running t r u : running (tk_drop t r) u = running r u;
}.

(** ** Features *)
Class Features := {
  feature_tokio : bool;
  feature_async_global : bool;
  (** The crate compiles with at least one of them. *)
  some_executor : feature_tokio || feature_async_global = true;
}.

Inductive Executor : Type := Tokio | AsyncGlobal.

(** [Executor::new], [Default for Executor]. *)
Definition Executor_new `{Features} : Executor :=
  if feature_async_global then AsyncGlobal else Tokio.

Section handles.
Context `{FT : Features, RT : Runtime}.

(** [JoinHandle]. *)
Inductive JoinHandle : Type :=
| JTokio (t : task)
| JAsyncGlobal (t : option task).

(** [Executor::spawn]. *)
Definition spawn (e : Executor) (r : rt_state) : JoinHandle * rt_state :=
  match e with
  | AsyncGlobal => let '(t, r) := ag_spawn r in (JAsyncGlobal (Some t), r)
  | Tokio => let '(t, r) := tk_spawn r in (JTokio t, r)
  end.

(** [Executor::spawn_blocking]: the task that waits for the blocking closure. *)
Definition spawn_blocking (e : Executor) (r : rt_state) : JoinHandle * rt_state :=
  match e with
  | AsyncGlobal => let '(t, r) := ag_spawn r in (JAsyncGlobal (Some t), r)
  | Tokio => let '(t, r) := tk_spawn r in (JTokio t, r)
  end.

(** Dropping a handle. *)
Definition drop_handle (h : JoinHandle) (r : rt_state) : rt_state :=
  match h with
  | JTokio t => tk_drop t r
  | JAsyncGlobal (Some t) => ag_drop t r
  | JAsyncGlobal None => r
  end.

(** [JoinHandle::detach]. *)
Definition detach (h : JoinHandle) (r : rt_state) : rt_state :=
  if feature_async_global then
    match h with
    | JAsyncGlobal (Some t) => ag_detach t r
    | h => drop_handle h r
    end
  else drop_handle h r.

(** [JoinHandle::abort]; the arm is irrefutable when tokio is the only runtime. *)
Definition abort (h : JoinHandle) (r : rt_state) : rt_state :=
  if feature_tokio && negb feature_async_global then
    match h with
    | JTokio t => tk_abort t r
    | JAsyncGlobal _ => r
    end
  else drop_handle h r.

(** [Future for JoinHandle], from what the runtime's own handle yields. *)
Definition JoinHandle_poll {T X} (ag_poll : task → Poll T) (tk_poll : task → Poll (result T X))
    (tokio_error : X → string) (h : JoinHandle) : Poll (result T string) :=
  match h with
  | JTokio j =>
      match tk_poll j with
      | Ready (Ok x) => Ready (Ok x)
      | Ready (Err e) => Ready (Err (tokio_error e))
      | Pending => Pending
      end
  | JAsyncGlobal (Some handle) =>
      match ag_poll handle with
      | Ready x => Ready (Ok x)
      | Pending => Pending
      end
  | JAsyncGlobal None => Ready (Err "Future detached")
  end.

(** The task of a handle. *)
Definition handle_task (h : JoinHandle) : option task :=
  match h with JTokio t => Some t | JAsyncGlobal t => t end.

(** ** What handles do to tasks *)

Lemma spawn_spec e r :
  let '(h, r') := spawn e r in
  ∃ t, handle_task h = Some t ∧ ¬ spawned r t ∧
    (∀ u, running r' u = true ↔ u = t ∨ running r u = true) ∧
    (∀ u, spawned r' u ↔ u = t ∨ spawned r u).
Proof.
  destruct e; cbn.
  - pose proof (tk_spawn_fresh r) as Hf. pose proof (tk_spawn_running r) as Hr.
    pose proof (tk_spawn_spawned r) as Hs. destruct (tk_spawn r) as [t r']. by exists t.
  - pose proof (ag_spawn_fresh r) as Hf. pose proof (ag_spawn_running r) as Hr.
    pose proof (ag_spawn_spawned r) as Hs. destruct (ag_spawn r) as [t r']. by exists t.
Qed.

(** Dropping a handle stops the task on the one runtime and detaches it on the other. *)
Lemma drop_handle_running h r u :
  running (drop_handle h r) u = true ↔
  running r u = true ∧ match h with JAsyncGlobal (Some t) => u ≠ t | _ => True end.
Proof.
  destruct h as [t|[t|]]; cbn.
  - rewrite tk_drop_running. naive_solver.
  - apply ag_drop_running.
  - naive_solver.
Qed.
End handles.

(** C31: for tasks spawned by the executor that [Executor::new] selects, under any choice of
    features: a detached task keeps running, an aborted one does not, and no other task
    is affected by either; polling the handle is pending exactly as long as the handle of
    the runtime is, yields exactly the value that one yields, and an error exactly when
    tokio reports one.  Dropping the handle, however, cancels the task exactly when the
    runtime is [async-global-executor]. *)
Theorem handle_spec `{FT : Features, RT : Runtime} {T X}
    (ag_poll : task → Poll T) (tk_poll : task → Poll (result T X)) err (r : rt_state) :
  let '(h, r') := spawn Executor_new r in
  ∃ t, handle_task h = Some t ∧ running r t = false ∧ running r' t = true ∧
    (∀ u, running (detach h r') u = running r' u) ∧
    (∀ u, running (abort h r') u = true ↔ running r' u = true ∧ u ≠ t) ∧
    running (drop_handle h r') t = negb feature_async_global ∧
    (JoinHandle_poll ag_poll tk_poll err h = Pending ↔
       if feature_async_global then ag_poll t = Pending else tk_poll t = Pending) ∧
    (∀ v, JoinHandle_poll ag_poll tk_poll err h = Ready (Ok v) ↔
          if feature_async_global then ag_poll t = Ready v else tk_poll t = Ready (Ok v)) ∧
    (∀ m, JoinHandle_poll ag_poll tk_poll err h = Ready (Err m) ↔
          feature_async_global = false ∧ ∃ e, tk_poll t = Ready (Err e) ∧ m = err e).
Proof.
  pose proof (spawn_spec Executor_new r) as Hs. pose proof some_executor as Hf.
  unfold Executor_new in *. unfold detach, abort, JoinHandle_poll.
  destruct feature_async_global eqn:Hg; cbn in *.
  - destruct (ag_spawn r) as [t r']. destruct Hs as (t' & [= <-] & Hn & Hr & _). exists t.
    split_and!; [done| | | | | | | |].
    + apply not_true_is_false. by intros ?%running_spawned.
    + apply Hr. by left.
    + intros u. apply ag_detach_running.
    + intros u. rewrite andb_false_r. apply ag_drop_running.
    + apply not_true_is_false. intros ?%ag_drop_running. naive_solver.
    + by destruct (ag_poll t).
    + intros v. destruct (ag_poll t); naive_solver.
    + intros m. destruct (ag_poll t); naive_solver.
  - destruct (tk_spawn r) as [t r']. destruct Hs as (t' & [= <-] & Hn & Hr & _). exists t.
    rewrite orb_false_r in Hf. split_and!; [done| | | | | | | |].
    + apply not_true_is_false. by intros ?%running_spawned.
    + apply Hr. by left.
    + intros u. apply tk_drop_running.
    + intros u. rewrite Hf. cbn. apply tk_abort_running.
    + cbn. rewrite tk_drop_running. apply Hr. by left.
    + by destruct (tk_poll t) as [[]|].
    + intros v. destruct (tk_poll t) as [[]|]; naive_solver.
    + intros m. destruct (tk_poll t) as [[]|]; naive_solver.
Qed.

(** ** A concrete runtime

    Tasks are numbered; the state is the set of tasks not cancelled and the number of
    tasks spawned so far. *)
#[export] Program Instance toy_runtime : Runtime := {|
  rt_state := gset nat * nat;
  task := nat;
  spawned := λ r t, (t < r.2)%nat;
  running := λ r t, bool_decide (t ∈ r.1 ∧ (t < r.2)%nat);
  ag_spawn := λ r, (r.2, ({[r.2]} ∪ r.1, S r.2));
  ag_drop := λ t r, (r.1 ∖ {[t]}, r.2);
  ag_detach := λ t r, r;
  tk_spawn := λ r, (r.2, ({[r.2]} ∪ r.1, S r.2));
  tk_drop := λ t r, r;
  tk_abort := λ t r, (r.1 ∖ {[t]}, r.2);
|}.
Next Obligation. intros r. cbn. lia. Qed.
Next Obligation.
  intros r t. cbn. rewrite !bool_decide_eq_true, elem_of_union, elem_of_singleton.
  split; [|intros [->|[??]]]; [|split; [by left | lia] | split; [by right | lia]].
  intros [[->|?] ?]; [by left|]. destruct (decide (t = r.2)); [by left|]. right. split; [done | lia].
Qed.
Next Obligation. intros r t. cbn. lia. Qed.
Next Obligation. intros r. cbn. lia. Qed.
Next Obligation.
  intros r t. cbn. rewrite !bool_decide_eq_true, elem_of_union, elem_of_singleton.
  split; [|intros [->|[??]]]; [|split; [by left | lia] | split; [by right | lia]].
  intros [[->|?] ?]; [by left|]. destruct (decide (t = r.2)); [by left|]. right. split; [done | lia].
Qed.
Next Obligation. intros r t. cbn. lia. Qed.
Next Obligation. intros r t. cbn. rewrite bool_decide_eq_true. naive_solver. Qed.
Next Obligation. intros t r u. cbn. rewrite !bool_decide_eq_true. set_solver. Qed.
Next Obligation. intros t r u. cbn. rewrite !bool_decide_eq_true. set_solver. Qed.
Next Obligation. done. Qed.
Next Obligation. done. Qed.

(** Both runtimes compiled in, and tokio alone. *)
Definition both_features : Features :=
  {| feature_tokio := true; feature_async_global := true; some_executor := eq_refl |}.
Definition tokio_only : Features :=
  {| feature_tokio := true; feature_async_global := false; some_executor := eq_refl |}.

Lemma handle_spec_witness :
  let '(h, r) := spawn (@Executor_new tokio_only) (∅, 0%nat) in
  ∃ t, handle_task h = Some t ∧ running (drop_handle h r) t = true ∧
       running (abort (FT := tokio_only) h r) t = false.
Proof.
  pose proof (handle_spec (FT := tokio_only) (λ _, Pending : Poll nat)
    (λ _, Pending : Poll (result nat string)) id (∅, 0%nat)) as H.
  destruct (spawn _ _) as [h r]. destruct H as (t & Ht & _ & _ & _ & Ha & Hd & _).
  exists t. split_and!; [exact Ht | exact Hd |].
  apply not_true_is_false. intros [_ ?]%Ha. done.
Defined.
