(* ===== verification/Metrics.v ===== *)
(** * Metrics: registration and the telemetry server

    [register_metrics] of [src/net/peers.rs], [src/db.rs] and [src/lib.rs], and
    [src/telemetry.rs].  The registry and the encoder of the crate [prometheus] are
    parameters: a metric can be registered once per registry. *)

From S2P Require Import Prelude Executor.

(** ** The registry of the crate [prometheus] *)
Class Registry := {
  Reg : Type;
  RegError : Type;
  registered : Reg → gset string;
  register : string → Reg → result () RegError * Reg;
  register_fresh m reg :
    m ∉ registered reg →
    ∃ reg', register m reg = (Ok (), reg') ∧ registered reg' = {[m]} ∪ registered reg;
  register_twice m reg :
    m ∈ registered reg →
    ∃ e reg', register m reg = (Err e, reg') ∧ registered reg' = registered reg;
}.

Section metrics.
Context `{G : Registry}.
Implicit Types (reg : Reg) (ms : list string).

(** A sequence of [registry.register(..)?]. *)
Fixpoint register_all ms reg : result () RegError * Reg :=
  match ms with
  | [] => (Ok (), reg)
  | m :: ms =>
      let '(r, reg) := register m reg in
      match r with Ok _ => register_all ms reg | Err e => (Err e, reg) end
  end.

(** The metrics of the address book, in the order of their registration. *)
Definition net_metrics : list string :=
  ["peers_listeners"; "peers_listen_addrs"; "peers_external_addrs"; "peers_discovered";
   "peers_connected"; "peers_connections"; "peers_listener_error";
   "peers_address_reach_failure"; "peers_dial_failure"].

(** The metrics of the storage service; the last is the collector. *)
Definition storage_metrics : list string :=
  ["block_store_queries_total"; "block_store_query_duration"; "block_store_stats"].

(** [net::register_metrics] and [StorageService::register_metrics]. *)
Definition net_register_metrics : Reg → result () RegError * Reg := register_all net_metrics.
Definition storage_register_metrics : Reg → result () RegError * Reg :=
  register_all storage_metrics.

(** [Ipfs::register_metrics]. *)
Definition ipfs_register_metrics reg : result () RegError * Reg :=
  match storage_register_metrics reg with
  | (Ok _, reg) => net_register_metrics reg
  | (Err e, reg) => (Err e, reg)
  end.

(** [telemetry]: register with the default registry, then serve in the background. *)
Definition telemetry `{RT : Runtime} reg (r : rt_state) : result () RegError * Reg * rt_state :=
  match ipfs_register_metrics reg with
  | (Ok _, reg) => let '(t, r) := ag_spawn r in (Ok (), reg, ag_detach t r)
  | (Err e, reg) => (Err e, reg, r)
  end.

(** [get_metric]: status, content type and body; the encoder writes to memory. *)
Definition get_metric {Family} (encode : list Family → result (list Byte.byte) string)
    (gather : list Family) : outcome (Z * string * list Byte.byte) :=
  match encode gather with
  | Ok buffer => Done (200%Z, "text/plain; version=0.0.4", buffer)
  | Err _ => Panicked
  end.

(** ** What registration does *)

(** The metrics in front of the first one that was already there. *)
Fixpoint before_clash (seen : gset string) ms : list string :=
  match ms with
  | [] => []
  | m :: ms => if bool_decide (m ∈ seen) then [] else m :: before_clash ({[m]} ∪ seen) ms
  end.

Lemma register_all_spec ms reg :
  NoDup ms →
  let '(r, reg') := register_all ms reg in
  (is_ok r = true ↔ ∀ m, m ∈ ms → m ∉ registered reg) ∧
  registered reg' = list_to_set (before_clash (registered reg) ms) ∪ registered reg ∧
  (is_ok r = true → before_clash (registered reg) ms = ms).
Proof.
  intros Hnd. revert reg. induction Hnd as [|m ms Hni Hnd IH]; intros reg; cbn.
  { split_and!; [|set_solver|done]. split; [by intros _ ? ?%not_elem_of_nil|done]. }
  destruct (bool_decide_reflect (m ∈ registered reg)) as [Hin|Hin].
  - destruct (register_twice m reg Hin) as (e & reg' & -> & Hr). split_and!.
    + split; [done|]. intros H. exfalso. apply (H m); [by left | done].
    + rewrite Hr. set_solver.
    + done.
  - destruct (register_fresh m reg Hin) as (reg1 & -> & Hr1). specialize (IH reg1).
    rewrite Hr1 in IH. destruct (register_all ms reg1) as [r reg'].
    destruct IH as (IH1 & IH2 & IH3). split_and!.
    + rewrite IH1. split.
      * intros H x [->|Hx]%elem_of_cons; [done|]. specialize (H x Hx). set_solver.
      * intros H x Hx. assert (x ≠ m) by congruence. specialize (H x). set_solver.
    + rewrite IH2. set_solver.
    + intros Hok. f_equal. auto.
Qed.

Lemma register_all_app ms1 ms2 reg :
  register_all (ms1 ++ ms2) reg =
  match register_all ms1 reg with
  | (Ok _, reg) => register_all ms2 reg
  | (Err e, reg) => (Err e, reg)
  end.
Proof.
  revert reg. induction ms1 as [|m ms1 IH]; intros reg; cbn; [done|].
  destruct (register m reg) as [[] reg1]; [|done]. apply IH.
Qed.

Lemma ipfs_register_metrics_all reg :
  ipfs_register_metrics reg = register_all (storage_metrics ++ net_metrics) reg.
Proof. by rewrite register_all_app. Qed.

Lemma metrics_nodup : NoDup (storage_metrics ++ net_metrics).
Proof. by apply (bool_decide_unpack _). Qed.
End metrics.

(** C38: [telemetry] succeeds exactly when none of the node's twelve metrics is in the
    registry yet; then all of them are registered and one server task runs.  Otherwise it
    fails, spawns nothing and leaves the metrics in front of the clash registered.
    Therefore, once it succeeded, it fails for every further node of the process, and
    the registry keeps what it has. *)
Theorem telemetry_spec `{G : Registry, RT : Runtime} (reg : Reg) (r : rt_state) :
  let all := storage_metrics ++ net_metrics in
  match telemetry reg r with
  | (Ok _, reg', r') =>
      (∀ m, m ∈ all → m ∉ registered reg) ∧
      registered reg' = list_to_set all ∪ registered reg ∧
      (∃ t, running r t = false ∧ ∀ u, running r' u = true ↔ u = t ∨ running r u = true) ∧
      ∀ r2, ∃ e reg2, telemetry reg' r2 = (Err e, reg2, r2) ∧ registered reg2 = registered reg'
  | (Err _, reg', r') =>
      (∃ m, m ∈ all ∧ m ∈ registered reg) ∧ r' = r ∧
      registered reg' = list_to_set (before_clash (registered reg) all) ∪ registered reg
  end.
Proof.
  cbv zeta. unfold telemetry. rewrite ipfs_register_metrics_all.
  pose proof (register_all_spec _ reg metrics_nodup) as H.
  destruct (register_all (storage_metrics ++ net_metrics) reg) as [[u|e] reg'].
  - destruct H as (H1 & H2 & H3). rewrite H3 in H2 by done.
    pose proof (ag_spawn_running r) as Hr. pose proof (ag_spawn_fresh r) as Hf.
    destruct (ag_spawn r) as [t r1]. cbn in Hr, Hf. split_and!; [by apply H1|done| |].
    + exists t. split; [apply not_true_is_false; by intros ?%running_spawned|].
      intros v. by rewrite ag_detach_running.
    + intros r2. unfold telemetry, ipfs_register_metrics, storage_register_metrics. cbn.
      destruct (register_twice "block_store_queries_total" reg')
        as (e & reg2 & -> & Hr2); [rewrite H2; set_solver|]. by exists e, reg2.
  - destruct H as (H1 & H2 & _). split_and!; [|done..].
    destruct (decide (Exists (λ m, m ∈ registered reg) (storage_metrics ++ net_metrics)))
      as [[m [Hm Hr]]%Exists_exists|Hn]; [by exists m|].
    exfalso. assert (is_ok (Err e : result () RegError) = true) as Hok; [|done]. apply H1.
    intros m Hm Hr. apply Hn, Exists_exists. by exists m.
Qed.

(** A registry is the set of its names. *)
#[export] Program Instance toy_registry : Registry := {|
  Reg := gset string;
  RegError := string;
  registered := λ reg, reg;
  register := λ m reg, if bool_decide (m ∈ reg) then (Err m, reg) else (Ok (), {[m]} ∪ reg);
|}.
Next Obligation. intros m reg H. eexists. by rewrite bool_decide_false. Qed.
Next Obligation. intros m reg H. do 2 eexists. by rewrite bool_decide_true. Qed.

Lemma telemetry_spec_witness :
  ∃ reg r, telemetry (∅ : Reg (Registry := toy_registry)) ((∅, 0%nat) : rt_state) = (Ok (), reg, r) ∧
    (telemetry reg r).1.1 ≠ Ok ().
Proof.
  pose proof (telemetry_spec (∅ : Reg (Registry := toy_registry)) ((∅, 0%nat) : rt_state)) as H.
  assert (is_ok (telemetry (∅ : Reg (Registry := toy_registry)) ((∅, 0%nat) : rt_state)).1.1 = true)
    as Hok by (vm_compute; reflexivity).
  destruct (telemetry _ _) as [[[[]|e] reg] r]; [|discriminate].
  exists reg, r. split; [done|]. destruct H as (_ & _ & _ & H).
  destruct (H r) as (e & reg2 & -> & _). done.
Defined.
