(* ===== verification/Channel.v ===== *)
(** * Unbounded channels of the [futures] crate

    What the sources rely on of [mpsc::UnboundedSender]: a send succeeds exactly
    while the receiver exists, appends to that channel's queue and touches no
    other channel.  [Channels T] is the interface the clients are verified
    against; [queues] is an instance. *)

From S2P Require Import Prelude.

Class Channels (T : Type) := {
  (** The state of all channels carrying [T], and their sending ends. *)
  chan_state : Type;
  sender : Type;
  sender_eq_dec :: EqDecision sender;
  rx_alive : chan_state → sender → bool;
  queue : chan_state → sender → list T;
  unbounded_send : sender → T → chan_state → bool * chan_state;
  send_result c x s : (unbounded_send c x s).1 = rx_alive s c;
  send_alive c x s d : rx_alive (unbounded_send c x s).2 d = rx_alive s d;
  send_queue c x s d :
    queue (unbounded_send c x s).2 d =
      if decide (c = d) then (if rx_alive s c then queue s c ++ [x] else queue s c)
      else queue s d;
  (** [mpsc::unbounded]: a channel that did not exist before. *)
  created : chan_state → sender → Prop;
  unbounded : chan_state → sender * chan_state;
  unbounded_fresh s : ¬ created s (unbounded s).1;
  unbounded_created s d : created (unbounded s).2 d ↔ d = (unbounded s).1 ∨ created s d;
  unbounded_alive s d :
    rx_alive (unbounded s).2 d = if decide (d = (unbounded s).1) then true else rx_alive s d;
  unbounded_queue s d :
    queue (unbounded s).2 d = if decide (d = (unbounded s).1) then [] else queue s d;
  send_created c x s d : created (unbounded_send c x s).2 d ↔ created s d;
  (** Dropping the receiver. *)
  drop_rx : sender → chan_state → chan_state;
  drop_rx_alive c s d :
    rx_alive (drop_rx c s) d = if decide (d = c) then false else rx_alive s d;
  drop_rx_queue c s d : queue (drop_rx c s) d = queue s d;
  drop_rx_created c s d : created (drop_rx c s) d ↔ created s d;
}.
Arguments chan_state T {_}.
Arguments sender T {_}.

(** [Vec::retain(|tx| tx.unbounded_send(x.clone()).is_ok())]: send in order, keep
    the senders whose receiver is alive. *)
Fixpoint send_retain `{Channels T} (x : T) (txs : list (sender T)) (s : chan_state T)
    : list (sender T) * chan_state T :=
  match txs with
  | [] => ([], s)
  | tx :: txs =>
      let '(ok, s) := unbounded_send tx x s in
      let '(txs, s) := send_retain x txs s in
      (if ok then tx :: txs else txs, s)
  end.

Section lemmas.
Context `{Channels T}.
Implicit Types (txs : list (sender T)) (s : chan_state T).

Lemma send_retain_alive x txs s d :
  rx_alive (send_retain x txs s).2 d = rx_alive s d.
Proof.
  revert s. induction txs as [|tx txs IH]; intros s; cbn; [done|].
  pose proof (send_alive tx x s d) as Ha.
  destruct (unbounded_send tx x s) as [ok s1]. cbn in Ha.
  specialize (IH s1). destruct (send_retain x txs s1). cbn in *. congruence.
Qed.

Lemma send_retain_created x txs s d :
  created (send_retain x txs s).2 d ↔ created s d.
Proof.
  revert s. induction txs as [|tx txs IH]; intros s; cbn; [done|].
  pose proof (send_created tx x s d) as Ha.
  destruct (unbounded_send tx x s) as [ok s1]. cbn in Ha.
  specialize (IH s1). destruct (send_retain x txs s1). cbn in *. by rewrite IH.
Qed.

Lemma send_retain_senders x txs s :
  (send_retain x txs s).1 = filter (λ tx, rx_alive s tx = true) txs.
Proof.
  revert s. induction txs as [|tx txs IH]; intros s; [done|]. cbn [send_retain].
  pose proof (send_result tx x s) as Hr. pose proof (send_alive tx x s) as Ha.
  destruct (unbounded_send tx x s) as [ok s1]. cbn [fst snd] in Hr, Ha.
  specialize (IH s1). destruct (send_retain x txs s1) as [l s2]. cbn [fst snd] in *. subst ok l.
  rewrite filter_cons.
  assert (filter (λ tx0 : sender T, rx_alive s1 tx0 = true) txs =
          filter (λ tx0 : sender T, rx_alive s tx0 = true) txs) as ->.
  { apply list_filter_iff. intros d. by rewrite Ha. }
  by destruct (rx_alive s tx) eqn:E; case_decide.
Qed.

Lemma send_retain_queue x txs s d :
  NoDup txs →
  queue (send_retain x txs s).2 d =
    queue s d ++ (if bool_decide (d ∈ txs) && rx_alive s d then [x] else []).
Proof.
  intros Hnd. revert s. induction Hnd as [|tx txs Hni Hnd IH]; intros s; cbn.
  { by rewrite app_nil_r. }
  pose proof (send_queue tx x s d) as Hq. pose proof (send_alive tx x s d) as Ha.
  destruct (unbounded_send tx x s) as [ok s1]. cbn in Hq, Ha.
  specialize (IH s1). destruct (send_retain x txs s1) as [l s2]. cbn in *.
  rewrite IH, Hq, Ha. case_decide; subst.
  - rewrite (bool_decide_false (d ∈ txs)), (bool_decide_true (d ∈ d :: txs)) by set_solver.
    cbn. rewrite app_nil_r. destruct (rx_alive s d); by rewrite ?app_nil_r.
  - f_equal. rewrite (bool_decide_ext (d ∈ tx :: txs) (d ∈ txs)) by set_solver. done.
Qed.
End lemmas.

(** An instance: channels are numbered; the flag says whether the receiver exists. *)
Section queue_state.
Context {T : Type}.
Implicit Types (s : gmap nat (list T * bool)).

Definition q_alive s (c : nat) : bool := default false (snd <$> s !! c).
Definition q_queue s (c : nat) : list T := default [] (fst <$> s !! c).
Definition q_send (c : nat) (x : T) s : bool * gmap nat (list T * bool) :=
  match s !! c with
  | Some (q, true) => (true, <[c := (q ++ [x], true)]> s)
  | _ => (false, s)
  end.
Definition q_new s : nat * gmap nat (list T * bool) :=
  let c := fresh (dom s) in (c, <[c := ([], true)]> s).
Definition q_drop (c : nat) s : gmap nat (list T * bool) := alter (λ x, (x.1, false)) c s.
End queue_state.

#[export] Program Instance queues (T : Type) : Channels T := {|
  chan_state := gmap nat (list T * bool);
  sender := nat;
  rx_alive := q_alive;
  queue := q_queue;
  unbounded_send := q_send;
  created := λ s c, is_Some (s !! c);
  unbounded := q_new;
  drop_rx := q_drop;
|}.
Next Obligation. intros T c x s. unfold q_alive, q_queue, q_send, q_new. cbn. by destruct (s !! c) as [[? []]|]. Qed.
Next Obligation.
  intros T c x s d. unfold q_alive, q_queue, q_send, q_new. cbn. destruct (s !! c) as [[q []]|] eqn:E; cbn; try done.
  rewrite lookup_insert. case_decide; subst; by rewrite ?E.
Qed.
Next Obligation.
  intros T c x s d. unfold q_alive, q_queue, q_send, q_new. cbn. destruct (s !! c) as [[q []]|] eqn:E; cbn.
  - rewrite lookup_insert. by case_decide.
  - case_decide; [subst; by rewrite E | done].
  - case_decide; [subst; by rewrite E | done].
Qed.
Next Obligation.
  intros T s. unfold q_alive, q_queue, q_send, q_new. cbn. rewrite <- elem_of_dom. apply is_fresh.
Qed.
Next Obligation.
  intros T s d. unfold q_alive, q_queue, q_send, q_new. cbn. rewrite lookup_insert. case_decide; subst; [|naive_solver].
  split; [by left | by eexists].
Qed.
Next Obligation.
  intros T s d. unfold q_alive, q_queue, q_send, q_new. cbn. rewrite lookup_insert. by repeat case_decide; subst.
Qed.
Next Obligation.
  intros T s d. unfold q_alive, q_queue, q_send, q_new. cbn. rewrite lookup_insert. by repeat case_decide; subst.
Qed.
Next Obligation.
  intros T c x s d. unfold q_alive, q_queue, q_send, q_new. cbn. destruct (s !! c) as [[q []]|] eqn:E; cbn; try done.
  rewrite lookup_insert. case_decide; subst; [|done]. rewrite E. split; by eexists.
Qed.
Next Obligation.
  intros T c s d. cbn. unfold q_alive, q_drop. rewrite lookup_alter. case_decide; subst.
  - rewrite decide_True by done. by destruct (s !! d).
  - by rewrite decide_False.
Qed.
Next Obligation.
  intros T c s d. cbn. unfold q_queue, q_drop. rewrite lookup_alter.
  case_decide; subst; [|done]. by destruct (s !! d).
Qed.
Next Obligation.
  intros T c s d. cbn. unfold q_drop. rewrite lookup_alter.
  case_decide; subst; [|done]. by rewrite fmap_is_Some.
Qed.
