(* ===== verification/AddressHandler.v ===== *)
(** * [src/net/address_handler.rs]: the connection handler of the address book

    A dial carries [IntoAddressHandler(own_dial, keep_alive)]; once connected it
    becomes an [AddressHandler] whose only effect is the keep-alive answer. *)

From S2P Require Import Prelude Libp2p PeerInfo.

(** [libp2p::swarm::KeepAlive], the two answers given. *)
Inductive KeepAlive : Type := KeepAliveYes | KeepAliveNo.

Section handler.
Context `{L : Libp2p}.

Record IntoAddressHandler : Type := MkInto {
  ih_own_dial : option (Multiaddr * Z);
  ih_keep_alive : bool;
}.

Record AddressHandler : Type := MkHandler {
  own_dial : option (Multiaddr * Z);
  remote_peer_id : PeerId;
  connected_point : ConnectedPoint;
  ah_keep_alive : bool;
}.

(** The peer named by the last component of an address, if any; shared by
    [IntoAddressHandler::peer_id] and [MultiaddrExt::peer_id]. *)
Definition addr_peer_id (a : Multiaddr) : option PeerId :=
  match last (ma_iter a) with
  | Some (P2p p) => peer_of_mh p
  | _ => None
  end.

(** [IntoAddressHandler::peer_id]. *)
Definition handler_peer_id (h : IntoAddressHandler) : option PeerId :=
  '(addr, _) ← ih_own_dial h; addr_peer_id addr.

(** [IntoConnectionHandler::into_handler]. *)
Definition into_handler (h : IntoAddressHandler) (remote : PeerId) (cp : ConnectedPoint)
    : AddressHandler :=
  MkHandler (ih_own_dial h) remote cp (ih_keep_alive h).

(** [ConnectionHandler::connection_keep_alive]. *)
Definition connection_keep_alive (h : AddressHandler) : KeepAlive :=
  if ah_keep_alive h then KeepAliveYes else KeepAliveNo.

(** *** The other methods of the handler

    No substream is ever opened in either direction: both protocols are [DeniedUpgrade],
    whose output is [Void], and so are the events from and to the behaviour. *)
Inductive DeniedUpgrade : Type := Denied.
Definition Void : Type := Empty_set.

Definition inbound_protocol (h : IntoAddressHandler) : DeniedUpgrade := Denied.
Definition listen_protocol (h : AddressHandler) : DeniedUpgrade * () := (Denied, ()).
Definition inject_fully_negotiated_inbound (protocol : Void) (info : ()) (h : AddressHandler)
    : AddressHandler := h.
Definition inject_fully_negotiated_outbound (protocol info : Void) (h : AddressHandler)
    : AddressHandler := h.
Definition inject_handler_event (e : Void) (h : AddressHandler) : AddressHandler := h.
Definition inject_dial_upgrade_error {E} (info : Void) (error : E) (h : AddressHandler)
    : AddressHandler := h.
Definition handler_poll {E} (h : AddressHandler) : Poll E * AddressHandler := (Pending, h).
End handler.
