(* ===== verification/Peers.v ===== *)
(** * [src/net/peers.rs]: the address book

    The state of [AddressBook], its handlers as state transformers, and the
    events and dial actions they produce. *)

From S2P Require Import Prelude Libp2p Duration PeerInfo AddressHandler Channel.

Open Scope Z_scope.

Definition SIM_OPEN_RETRIES : Z := 10.

(** ** Address helpers *)
Section addresses.
Context `{L : Libp2p}.

(** [normalize_addr]: append the peer unless the address already names one. *)
Definition normalize_addr (addr : Multiaddr) (peer : PeerId) : Multiaddr :=
  match last (ma_iter addr) with
  | Some (P2p _) => addr
  | _ => ma_push addr (P2p (mh_of_peer peer))
  end.

(** [normalize_addr_ref]: [inl] is [Cow::Borrowed], [inr] is [Cow::Owned]. *)
Definition normalize_addr_ref (addr : Multiaddr) (peer : PeerId) : Multiaddr + Multiaddr :=
  match last (ma_iter addr) with
  | Some (P2p _) => inl addr
  | _ => inr (ma_push addr (P2p (mh_of_peer peer)))
  end.

Definition into_owned (c : Multiaddr + Multiaddr) : Multiaddr :=
  match c with inl a => a | inr a => a end.

(** [without_peer_id]. *)
Definition without_peer_id (addr : Multiaddr) : Multiaddr :=
  match last (ma_iter addr) with
  | Some (P2p _) => ma_pop addr
  | _ => addr
  end.

(** [normalize_connected_point]. *)
Definition normalize_connected_point (cp : ConnectedPoint) (local remote : PeerId)
    : ConnectedPoint :=
  match cp with
  | Dialer address role_override =>
      Dialer (into_owned (normalize_addr_ref address remote)) role_override
  | Listener local_addr send_back_addr =>
      Listener (into_owned (normalize_addr_ref local_addr local))
               (into_owned (normalize_addr_ref send_back_addr remote))
  end.

(** [MultiaddrExt::is_loopback] and [MultiaddrExt::peer_id]. *)
Definition is_loopback (a : Multiaddr) : bool :=
  match head (ma_iter a) with
  | Some (Ip4 ip) => Ipv4_is_loopback ip
  | _ => true
  end.

Definition multiaddr_peer_id (a : Multiaddr) : option PeerId := addr_peer_id a.

(** [ip_port]. *)
Definition ip_port (m : Multiaddr) : option (IpAddr * Z) :=
  match ma_iter m with
  | Ip4 ip :: Tcp p :: _ => Some (V4 ip, p)
  | Ip6 ip :: Tcp p :: _ => Some (V6 ip, p)
  | _ => None
  end.
End addresses.

(** [is_sim_open]: a Noise handshake that failed with [InvalidData], found under
    the DNS and timeout wrappers of the transport. *)
Definition is_sim_open `{Libp2p} (error : TransportError) : bool :=
  match error with
  | MultiaddrNotSupported _ => false
  | TransportOther err =>
      match get_ref err with
      | DynDns (DnsTransport err) =>
          match get_ref err with
          | DynTransport (TOther (ErrA_B (UpgradeApply (NoiseIo err)))) =>
              match io_kind err with InvalidData => true | _ => false end
          | _ => false
          end
      | _ => false
      end
  end.

(** ** Events, actions, state *)
Section state.
Context `{L : Libp2p}.

Inductive Event : Type :=
| NewListener (id : ListenerId)
| NewListenAddr (id : ListenerId) (addr : Multiaddr)
| ExpiredListenAddr (id : ListenerId) (addr : Multiaddr)
| ListenerError (id : ListenerId) (err : string)
| ListenerClosed (id : ListenerId)
| NewExternalAddr (addr : Multiaddr)
| ExpiredExternalAddr (addr : Multiaddr)
| Discovered (peer : PeerId)
| DialFailure (peer : PeerId) (addr : Multiaddr) (err : string)
| Unreachable (peer : PeerId)
| ConnectionEstablished (peer : PeerId) (cp : ConnectedPoint)
| ConnectionClosed (peer : PeerId) (cp : ConnectedPoint)
| AddressChanged (peer : PeerId) (old new : ConnectedPoint)
| Connected (peer : PeerId)
| Disconnected (peer : PeerId)
| Subscribed (peer : PeerId) (topic : string)
| Unsubscribed (peer : PeerId) (topic : string)
| Bootstrapped
| NewInfo (peer : PeerId).

(** [NetworkBehaviourAction::Dial], the only action the address book emits. *)
Record DialAction : Type := MkDial {
  dial_opts : DialOpts;
  dial_handler : IntoAddressHandler;
}.
End state.

Section book.
Context `{L : Libp2p, C : !Channels Event}.

(** [AddressBook].  The [Writer]s are represented by the values they hold. *)
Record AddressBook : Type := MkBook {
  port_reuse : bool;
  enable_loopback : bool;
  keep_alive : bool;
  local_peer_id : PeerId;
  listeners : gset Multiaddr;
  peers : gmap PeerId PeerInfo;
  external : list AddressRecord;
  refresh_external : bool;
  event_stream : list (sender Event);
  actions : list DialAction;
  (** Redials waiting for their delay to elapse. *)
  deferred : list (Duration * DialAction);
}.

(** What handlers share with the rest of the process: the channels, how often
    the clock and the random generator were read, and the metrics. *)
Record World : Type := MkWorld {
  chans : chan_state Event;
  clock_reads : nat;
  random_reads : nat;
  LISTENERS : Z;
  LISTEN_ADDRS : Z;
  EXTERNAL_ADDRS : Z;
  LISTENER_ERROR : Z;
}.

Record State : Type := MkState { book : AddressBook; world : World }.

(** [AddressBook::new]. *)
Definition AddressBook_new (local : PeerId) (port_reuse enable_loopback keep_alive : bool)
    (listeners : gset Multiaddr) (peers : gmap PeerId PeerInfo)
    (external : list AddressRecord) : AddressBook :=
  MkBook port_reuse enable_loopback keep_alive local listeners peers external true [] [] [].

(** *** Field updates *)
Definition set_peers (f : gmap PeerId PeerInfo → gmap PeerId PeerInfo) (s : State) : State :=
  let b := book s in
  MkState (MkBook (port_reuse b) (enable_loopback b) (keep_alive b) (local_peer_id b)
    (listeners b) (f (peers b)) (external b) (refresh_external b) (event_stream b)
    (actions b) (deferred b)) (world s).

Definition set_listeners (f : gset Multiaddr → gset Multiaddr) (s : State) : State :=
  let b := book s in
  MkState (MkBook (port_reuse b) (enable_loopback b) (keep_alive b) (local_peer_id b)
    (f (listeners b)) (peers b) (external b) (refresh_external b) (event_stream b)
    (actions b) (deferred b)) (world s).

Definition set_external (e : list AddressRecord) (r : bool) (s : State) : State :=
  let b := book s in
  MkState (MkBook (port_reuse b) (enable_loopback b) (keep_alive b) (local_peer_id b)
    (listeners b) (peers b) e r (event_stream b) (actions b) (deferred b)) (world s).

Definition set_streams (f : list (sender Event) → list (sender Event)) (s : State) : State :=
  let b := book s in
  MkState (MkBook (port_reuse b) (enable_loopback b) (keep_alive b) (local_peer_id b)
    (listeners b) (peers b) (external b) (refresh_external b) (f (event_stream b))
    (actions b) (deferred b)) (world s).

Definition set_actions (f : list DialAction → list DialAction) (s : State) : State :=
  let b := book s in
  MkState (MkBook (port_reuse b) (enable_loopback b) (keep_alive b) (local_peer_id b)
    (listeners b) (peers b) (external b) (refresh_external b) (event_stream b)
    (f (actions b)) (deferred b)) (world s).

Definition set_deferred (f : list (Duration * DialAction) → list (Duration * DialAction))
    (s : State) : State :=
  let b := book s in
  MkState (MkBook (port_reuse b) (enable_loopback b) (keep_alive b) (local_peer_id b)
    (listeners b) (peers b) (external b) (refresh_external b) (event_stream b)
    (actions b) (f (deferred b))) (world s).

Definition set_chans (c : chan_state Event) (s : State) : State :=
  let w := world s in
  MkState (book s) (MkWorld c (clock_reads w) (random_reads w) (LISTENERS w)
    (LISTEN_ADDRS w) (EXTERNAL_ADDRS w) (LISTENER_ERROR w)).

(** [Utc::now()] and [rand::random::<u32>()]. *)
Definition utc_now `{Environment} (s : State) : Z * State :=
  let w := world s in
  (utc (clock_reads w),
   MkState (book s) (MkWorld (chans w) (S (clock_reads w)) (random_reads w) (LISTENERS w)
     (LISTEN_ADDRS w) (EXTERNAL_ADDRS w) (LISTENER_ERROR w))).

Definition rand_u32 `{Environment} (s : State) : Z * State :=
  let w := world s in
  (random_u32 (random_reads w),
   MkState (book s) (MkWorld (chans w) (clock_reads w) (S (random_reads w)) (LISTENERS w)
     (LISTEN_ADDRS w) (EXTERNAL_ADDRS w) (LISTENER_ERROR w))).

(** Increments of the metrics: listeners, listen addresses, external addresses,
    listener errors. *)
Definition bump (l la e err : Z) (s : State) : State :=
  let w := world s in
  MkState (book s) (MkWorld (chans w) (clock_reads w) (random_reads w) (LISTENERS w + l)
    (LISTEN_ADDRS w + la) (EXTERNAL_ADDRS w + e) (LISTENER_ERROR w + err)).

(** [peers.entry(peer).or_default()] followed by [f] on the entry. *)
Definition entry_or_default (peer : PeerId) (f : PeerInfo → PeerInfo) : State → State :=
  set_peers (λ m, <[peer := f (default PeerInfo_default (m !! peer))]> m).

Definition push_action (a : DialAction) : State → State := set_actions (λ l, l ++ [a]).

(** ** Subscriptions to events *)

(** [AddressBook::swarm_events]. *)
Definition swarm_events (tx : sender Event) : State → State := set_streams (λ l, l ++ [tx]).

(** [AddressBook::notify]. *)
Definition notify (e : Event) (s : State) : State :=
  let '(txs, c) := send_retain e (event_stream (book s)) (chans (world s)) in
  set_chans c (set_streams (λ _, txs) s).

(** [for event in events { self.notify(event); }]. *)
Definition notify_all (es : list Event) (s : State) : State :=
  foldl (λ s e, notify e s) s es.
End book.

Section operations.
Context `{L : Libp2p, C : !Channels Event, F : !Fmt, E : Environment,
          O : HashOrder, P : Profile}.

(** [NetworkBehaviour::new_handler]. *)
Definition new_handler (s : State) : IntoAddressHandler := MkInto None (keep_alive (book s)).

(** [DialOpts::peer_id(p)] with its default condition. *)
Definition opts_for (p : PeerId) (addrs : list Multiaddr) : DialOpts :=
  MkDialOpts p CondDisconnected addrs.

Definition always (o : DialOpts) : DialOpts :=
  MkDialOpts (opt_peer o) Always (opt_addresses o).

(** ** Dialling *)

(** [AddressBook::dial]. *)
Definition dial (peer : PeerId) (s : State) : State :=
  if bool_decide (peer = local_peer_id (book s)) then s
  else push_action (MkDial (opts_for peer []) (new_handler s)) s.

(** [AddressBook::dial_address]. *)
Definition dial_address (peer : PeerId) (addr : Multiaddr) (s : State) : State :=
  if bool_decide (peer = local_peer_id (book s)) then s
  else
    let target := into_owned (normalize_addr_ref addr peer) in
    let s := entry_or_default peer id s in
    match peers (book s) !! peer with
    | Some info =>
        if bool_decide (is_Some (connections info !! target)) then s
        else push_action
               (MkDial (opts_for peer [addr])
                  (MkInto (Some (target, SIM_OPEN_RETRIES + 1)) (keep_alive (book s)))) s
    | None => s
    end.

(** ** Addresses *)

(** The [discovered] flag: no confirmed address is known for the peer yet. *)
Definition undiscovered (peer : PeerId) (s : State) : bool :=
  match peers (book s) !! peer with
  | Some info => bool_decide (confirmed_addresses info = [])
  | None => true
  end.

(** [AddressBook::add_address]. *)
Definition add_address (peer : PeerId) (address : Multiaddr) (source : AddressSource)
    (s : State) : outcome State :=
  if bool_decide (peer = local_peer_id (book s)) then Done s
  else if negb (enable_loopback (book s)) && is_loopback address then Done s
  else
    let discovered := undiscovered peer s in
    let '(addr_full, address) :=
      match normalize_addr_ref address peer with
      | inl a => (a, ma_pop address)
      | inr a => (a, address)
      end in
    if bool_decide (address ∈ listeners (book s)) then Done s
    else
      let '(now, s) := utc_now s in
      let info := default PeerInfo_default (peers (book s) !! peer) in
      '(probe, info) ← ingest_address now addr_full source info;
      let s := set_peers <[peer := info]> s in
      let result := probe && bool_decide (connections info !! addr_full = None) in
      let s := if result
               then push_action
                      (MkDial (always (opts_for peer [address]))
                         (MkInto (Some (addr_full, SIM_OPEN_RETRIES + 1)) false)) s
               else s in
      let s := if discovered && is_confirmed source then notify (Discovered peer) s else s in
      Done (notify (NewInfo peer) s).

(** [AddressBook::remove_address]. *)
Definition remove_address (peer : PeerId) (address : Multiaddr) (s : State) : State :=
  match peers (book s) !! peer with
  | Some info =>
      let address := into_owned (normalize_addr_ref address peer) in
      set_peers <[peer := with_addresses (delete address) info]> s
  | None => s
  end.

(** ** Pruning *)

(** The body of the loop over known peers: [true] when the peer is kept. *)
Definition keep_peer (now : Z) (min_age : Duration) (info : PeerInfo) : bool :=
  negb (bool_decide (iter_connections info = []))
  || match recent_failures info with
     | f :: _ => bool_decide (diff_time (cf_time f) now < min_age)
     | [] => false
     end
  || existsb (λ '(_, s, dt),
       is_confirmed s
       || (is_to_probe s && bool_decide (diff_time dt now < Z.max min_age (from_secs 10))))
       (iter_addresses info).

(** [AddressBook::prune_peers]. *)
Definition prune_peers (min_age : Duration) (s : State) : State :=
  let '(now, s) := utc_now s in
  let remove := (filter (λ x : PeerId * PeerInfo, keep_peer now min_age x.2 = false)
                        (hm_iter (peers (book s)))).*1 in
  foldl (λ s peer, notify (NewInfo peer) (set_peers (delete peer) s)) s remove.

(** ** Connections *)

(** Why a connection was closed, and whether the remote did it.  Handlers of
    the address book and of mDNS cannot fail. *)
Definition close_reason (error : option (ConnectionError MyHandlerError)) : string * bool :=
  match error with
  | Some (ConnHandler (EA (EA (EA (EA (EA (EA (EA e)))))))) => match e with end
  | Some (ConnHandler (EA (EA (EA (EA (EA (EA (EB e)))))))) =>
      ("Kademlia I/O error: " +:+ e, false)
  | Some (ConnHandler (EA (EA (EA (EA (EA (EB e))))))) => match e with end
  | Some (ConnHandler (EA (EA (EA (EA (EB e)))))) => ("Ping failure: " +:+ e, false)
  | Some (ConnHandler (EA (EA (EA (EB e))))) => ("Identify I/O error: " +:+ e, false)
  | Some (ConnHandler (EA (EA (EB e)))) => ("Bitswap error: " +:+ e, false)
  | Some (ConnHandler (EA (EB e))) => ("Gossipsub error: " +:+ e, false)
  | Some (ConnHandler (EB e)) => ("Broadcast error: " +:+ e, false)
  | Some (ConnIO e) => ("connection I/O error: " +:+ display_io e, true)
  | Some KeepAliveTimeout => ("we closed due to missing keepalive", false)
  | None => ("we closed", false)
  end.

(** [AddressBook::connection_closed]. *)
Definition connection_closed (peer : PeerId) (conn : ConnectedPoint) (num_established : Z)
    (error : option (ConnectionError MyHandlerError)) (s : State) : State :=
  let conn := normalize_connected_point conn (local_peer_id (book s)) peer in
  let addr := get_remote_address conn in
  let debug := debug_closed error in
  let '(reason, peer_closed) := close_reason error in
  let '(now, s) := utc_now s in
  let addr_no_peer := without_peer_id addr in
  let failure := if peer_closed then failure_them now addr_no_peer reason debug
                 else failure_us now addr_no_peer reason debug in
  let s := entry_or_default peer
             (λ i, push_failure addr failure false (with_connections (delete addr) i)) s in
  let s := notify (ConnectionClosed peer conn) s in
  let s := if bool_decide (num_established = 0) then notify (Disconnected peer) s else s in
  notify (NewInfo peer) s.

(** The source an established connection confirms. *)
Definition source_of (conn : ConnectedPoint) : AddressSource :=
  if is_dialer conn then Dial else Incoming.

(** [NetworkBehaviour::inject_connection_established]. *)
Definition inject_connection_established (peer : PeerId) (conn : ConnectedPoint)
    (other_established : Z) (s : State) : outcome State :=
  let conn := normalize_connected_point conn (local_peer_id (book s)) peer in
  let address := get_remote_address conn in
  s ← add_address peer address (source_of conn) s;
  let '(now, s) := utc_now s in
  let s := entry_or_default peer
             (with_connections <[address := (now, direction_from conn)]>) s in
  let s := if bool_decide (other_established = 0) then notify (Connected peer) s else s in
  Done (notify (ConnectionEstablished peer conn) s).

(** [NetworkBehaviour::inject_address_change]. *)
Definition inject_address_change (peer : PeerId) (old new : ConnectedPoint) (s : State)
    : outcome State :=
  let old := normalize_connected_point old (local_peer_id (book s)) peer in
  let new := normalize_connected_point new (local_peer_id (book s)) peer in
  let old_addr := get_remote_address old in
  let new_addr := get_remote_address new in
  s ← add_address peer new_addr (source_of new) s;
  let '(now, s) := utc_now s in
  let s := entry_or_default peer
             (λ i, with_connections <[new_addr := (now, direction_from new)]>
                     (with_connections (delete old_addr) i)) s in
  Done (notify (AddressChanged peer old new) s).

(** ** Round-trip times and identify *)

(** [AddressBook::set_rtt]. *)
Definition book_set_rtt (peer : PeerId) (rtt : option Duration) (s : State) : outcome State :=
  match peers (book s) !! peer with
  | Some info =>
      info ← PeerInfo.set_rtt rtt info;
      Done (notify (NewInfo peer) (set_peers <[peer := info]> s))
  | None => Done s
  end.

(** The advertised listen ports, less the addresses we are connected to. *)
Definition listen_ports (peer : PeerId) (info : PeerInfo) : list (IpAddr * Z) :=
  omap ip_port
    (filter (λ a, connections info !! into_owned (normalize_addr_ref a peer) = None)
            (pi_listeners info)).

(** [addr.replace(1, |_| Some(Protocol::Tcp(port))).unwrap()]. *)
Definition with_port (addr : Multiaddr) (port : Z) : outcome Multiaddr :=
  unwrap (ma_replace addr 1 (λ _, Some (Tcp port))).

(** Record the translation of [addr] to [port]; the flag is [added]. *)
Definition add_translation (addr : Multiaddr) (acc : gset Multiaddr * bool) (port : Z)
    : outcome (gset Multiaddr * bool) :=
  a ← with_port addr port; Done ({[a]} ∪ acc.1, true).

(** One iteration of the translation loop: guess the listen address behind the
    source address of an incoming connection.  Ports advertised for the same IP
    come first, then every advertised port, then the raw address. *)
Definition translate_addr (listen_port : list (IpAddr * Z)) (common_port : gset Z)
    (translated : gset Multiaddr) (addr : Multiaddr) : outcome (gset Multiaddr) :=
  match ip_port addr with
  | Some (ip, _) =>
      '(tr, added) ← foldM (add_translation addr)
                           (snd <$> filter (λ x : IpAddr * Z, x.1 = ip) listen_port)
                           (translated, false);
      '(tr, added) ← (if negb added
                      then foldM (add_translation addr) (hs_iter common_port) (tr, added)
                      else Done (tr, added));
      Done (if negb added then {[addr]} ∪ tr else tr)
  | None => Done translated
  end.

(** One iteration of the loop that ingests the derived addresses. *)
Definition ingest_derived (peer : PeerId) (acc : PeerInfo * State) (addr : Multiaddr)
    : outcome (PeerInfo * State) :=
  let '(info, s) := acc in
  let tcp := ma_pop addr in
  if bool_decide (tcp ∈ listeners (book s)) then Done (info, s)
  else
    let '(now, s) := utc_now s in
    '(probe, info) ← ingest_address now addr Listen info;
    if probe : bool then
      if port_reuse (book s) && bool_decide (is_Some (connections info !! addr)) then
        let '(now, s) := utc_now s in
        '(_, info) ← ingest_address now addr Candidate info;
        Done (info, s)
      else
        Done (info, push_action
                (MkDial (always (opts_for peer [tcp])) (MkInto (Some (addr, 4)) false)) s)
    else Done (info, s).

(** [info.protocol_version = ...; info.agent_version = ...; ...]. *)
Definition with_identify (id : IdentifyInfo) (i : PeerInfo) : PeerInfo :=
  MkPeerInfo (Some (id_protocol_version id)) (Some (id_agent_version id)) (id_protocols id)
    (id_listen_addrs id) (addresses i) (connections i) (failures i) (rtt i).

(** The addresses to validate after an identify message: translations of the
    incoming addresses plus the advertised listen addresses. *)
Definition derived_addresses (peer : PeerId) (loopback : bool) (info : PeerInfo)
    : outcome (gset Multiaddr) :=
  let listen_port := listen_ports peer info in
  let common_port : gset Z := list_to_set (snd <$> listen_port) in
  translated ← foldM (translate_addr listen_port common_port)
                     (addresses_to_translate info) ∅;
  Done (translated ∪
        list_to_set ((λ a, into_owned (normalize_addr_ref a peer)) <$>
                     filter (λ a, loopback || negb (is_loopback a) = true)
                            (pi_listeners info))).

(** [info.addresses.retain(|_, (s, _)| !s.is_to_translate())]. *)
Definition retain_translated (i : PeerInfo) : PeerInfo :=
  with_addresses (filter (λ x : Multiaddr * (AddressSource * Z),
                            is_to_translate x.2.1 = false)) i.

(** [AddressBook::set_info]. *)
Definition set_info (peer : PeerId) (identify : IdentifyInfo) (s : State) : outcome State :=
  match peers (book s) !! peer with
  | Some info =>
      let info := with_identify identify info in
      translated ← derived_addresses peer (enable_loopback (book s)) info;
      '(info, s) ← foldM (ingest_derived peer) (hs_iter translated)
                         (retain_translated info, s);
      Done (notify (NewInfo peer) (set_peers <[peer := info]> s))
  | None => Done s
  end.
End operations.

Section swarm_callbacks.
Context `{L : Libp2p, C : !Channels Event, F : !Fmt, E : Environment,
          O : HashOrder, P : Profile}.

(** [Duration::from_secs(1) * rand::random::<u32>() / u32::MAX]. *)
Definition redial_delay (r : Z) : outcome Duration :=
  d ← dur_mul (from_secs 1) r; dur_div d (2 ^ 32 - 1).

(** [self.deferred.push(Delay::new(delay).map(move |_| action).boxed())]. *)
Definition defer (a : DialAction) (s : State) : outcome State :=
  let '(r, s) := rand_u32 s in
  delay ← redial_delay r;
  Done (set_deferred (λ l, l ++ [(delay, a)]) s).

Definition is_transport (e : DialError) : bool :=
  match e with Transport _ => true | _ => false end.
Definition is_wrong_peer (e : DialError) : bool :=
  match e with WrongPeerId _ => true | _ => false end.
Definition is_connection_io (e : DialError) : bool :=
  match e with ConnectionIo _ => true | _ => false end.

(** [inject_dial_failure], the branch for a dial started by the address book
    itself to validate [addr]. *)
Definition validation_failure (peer : PeerId) (info : PeerInfo) (addr : Multiaddr)
    (retries : Z) (keep : bool) (error : DialError) (s : State) : outcome State :=
  let wrong_peer := is_wrong_peer error in
  let probe_result := is_transport error || wrong_peer || is_connection_io error in
  let '(now, s) := utc_now s in
  let failure := failure_dial now (without_peer_id addr) error in
  let sim_open := match error with
                  | Transport v => existsb (λ x, is_sim_open x.2) v
                  | _ => false end in
  let text := display_dial error in
  let info := push_failure addr failure probe_result info in
  let info := if wrong_peer then with_addresses (delete addr) info else info in
  let s := set_peers <[peer := info]> s in
  s ← (if sim_open && bool_decide (0 < retries) then
         retries' ← sub_u 8 retries 1;
         defer (MkDial (opts_for peer [addr]) (MkInto (Some (addr, retries')) keep)) s
       else Done s);
  Done (notify (NewInfo peer) (notify (DialFailure peer addr text) s)).

(** One iteration of the loop over the per-address errors of a dial that was
    not a validation dial: the peer's info, the state (for the clock), the events
    to send and the redials to schedule. *)
Definition transport_failure (peer : PeerId)
    (acc : PeerInfo * State * list Event * list DialAction)
    (x : Multiaddr * TransportError)
    : PeerInfo * State * list Event * list DialAction :=
  let '(info, s, events, redials) := acc in
  let '(addr, error) := x in
  let '(now, s) := utc_now s in
  let failure := failure_transport now (without_peer_id addr) error in
  let info := push_failure (into_owned (normalize_addr_ref addr peer)) failure true info in
  let redials :=
    if is_sim_open error
    then redials ++ [MkDial (opts_for peer [addr])
                       (MkInto (Some (addr, SIM_OPEN_RETRIES)) (keep_alive (book s)))]
    else redials in
  (info, s, events ++ [DialFailure peer addr (debug_transport error)], redials).

(** [inject_dial_failure], the branch for any other dial with transport errors. *)
Definition transport_failures (peer : PeerId) (info : PeerInfo)
    (v : list (Multiaddr * TransportError)) (s : State) : outcome State :=
  let '(info, s, events, redials) := foldl (transport_failure peer) (info, s, [], []) v in
  let s := set_peers <[peer := info]> s in
  let s := notify_all events s in
  let s := if bool_decide (length redials = 0)%nat then notify (Unreachable peer) s else s in
  s ← foldM (λ s a, defer a s) redials s;
  Done (notify (NewInfo peer) s).

(** [NetworkBehaviour::inject_dial_failure]. *)
Definition inject_dial_failure (peer_id : option PeerId) (handler : IntoAddressHandler)
    (error : DialError) (s : State) : outcome State :=
  match handler_peer_id handler, peer_id with
  | Some peer, _ | None, Some peer =>
      match peers (book s) !! peer with
      | Some info =>
          match ih_own_dial handler, error with
          | Some (addr, retries), _ =>
              validation_failure peer info addr retries (ih_keep_alive handler) error s
          | None, Transport v => transport_failures peer info v s
          | None, DialPeerConditionFalse _ => Done s
          | None, (Banned | LocalPeerId) => Done s
          | None, _ => Done (notify (Unreachable peer) s)
          end
      | None => Done s
      end
  | None, None => Done s
  end.

(** [NetworkBehaviour::addresses_of_peer]. *)
Definition addresses_of_peer (peer : PeerId) (s : State) : list Multiaddr :=
  match peers (book s) !! peer with
  | Some info => confirmed_addresses info
  | None => []
  end.

(** [NetworkBehaviour::poll].  [params] is [params.external_addresses()];
    [ready] is the index of the deferred redial whose delay has elapsed, if any.
    [None] is [Poll::Pending]. *)
Definition poll (params : list AddressRecord) (ready : option nat) (s : State)
    : option DialAction * State :=
  let s := if refresh_external (book s) then set_external params false s else s in
  match actions (book s) with
  | a :: rest => (Some a, set_actions (λ _, rest) s)
  | [] =>
      match ready with
      | Some k =>
          match deferred (book s) !! k with
          | Some (_, a) => (Some a, set_deferred (λ l, delete k l) s)
          | None => (None, s)
          end
      | None => (None, s)
      end
  end.

(** ** Listeners and external addresses *)

(** [inject_new_listener]. *)
Definition inject_new_listener (id : ListenerId) (s : State) : State :=
  notify (NewListener id) (bump 1 0 0 0 s).

(** [inject_new_listen_addr]. *)
Definition inject_new_listen_addr (id : ListenerId) (addr : Multiaddr) (s : State) : State :=
  let fresh := bool_decide (addr ∉ listeners (book s)) in
  let s := set_listeners (λ l, {[addr]} ∪ l) s in
  let s := if fresh then bump 0 1 0 0 s else s in
  notify (NewListenAddr id addr) s.

(** [inject_expired_listen_addr]. *)
Definition inject_expired_listen_addr (id : ListenerId) (addr : Multiaddr) (s : State)
    : State :=
  let present := bool_decide (addr ∈ listeners (book s)) in
  let s := set_listeners (λ l, l ∖ {[addr]}) s in
  let s := if present then bump 0 (-1) 0 0 s else s in
  notify (ExpiredListenAddr id addr) s.

(** [inject_listener_error]; [err] is the formatted error. *)
Definition inject_listener_error (id : ListenerId) (err : string) (s : State) : State :=
  notify (ListenerError id err) (bump 0 0 0 1 s).

(** [inject_listener_closed]. *)
Definition inject_listener_closed (id : ListenerId) (s : State) : State :=
  notify (ListenerClosed id) (bump (-1) 0 0 0 s).

(** [inject_new_external_addr]. *)
Definition inject_new_external_addr (addr : Multiaddr) (s : State) : State :=
  let s := set_external (external (book s)) true s in
  let addr := normalize_addr addr (local_peer_id (book s)) in
  notify (NewExternalAddr addr) (bump 0 0 1 0 s).

(** [inject_expired_external_addr]. *)
Definition inject_expired_external_addr (addr : Multiaddr) (s : State) : State :=
  let s := set_external (external (book s)) true s in
  let addr := normalize_addr addr (local_peer_id (book s)) in
  notify (ExpiredExternalAddr addr) (bump 0 0 (-1) 0 s).
End swarm_callbacks.
