(* ===== verification/PeersInv.v ===== *)
(** * Invariants of the address book

    The well-formedness invariant [book_wf], that every handler returns normally
    and preserves it, and its lifting to every reachable state. *)

From S2P Require Import Prelude Libp2p Duration PeerInfo AddressHandler Channel Peers.

Open Scope Z_scope.

(** ** Address normalisation *)
Section normalize.
Context `{L : Libp2p}.
Implicit Types a : Multiaddr.

Lemma normalize_addr_ref_owned a p :
  into_owned (normalize_addr_ref a p) = normalize_addr a p.
Proof. unfold normalize_addr_ref, normalize_addr. by destruct (last _) as [[]|]. Qed.

Lemma normalize_ends a p : ends_in_p2p (normalize_addr a p) = true.
Proof.
  unfold ends_in_p2p, normalize_addr.
  destruct (last (ma_iter a)) as [[]|] eqn:El; rewrite ?El, ?last_push; done.
Qed.

Lemma normalize_id a p : ends_in_p2p a = true → normalize_addr a p = a.
Proof. unfold ends_in_p2p, normalize_addr. by destruct (last _) as [[]|]. Qed.

Lemma without_peer_id_eq a : without_peer_id a = without_peer a.
Proof. unfold without_peer_id, without_peer, ends_in_p2p. by destruct (last _) as [[]|]. Qed.

Lemma remote_normalized cp local remote :
  ends_in_p2p (get_remote_address (normalize_connected_point cp local remote)) = true.
Proof.
  destruct cp; cbn; rewrite normalize_addr_ref_owned; apply normalize_ends.
Qed.
End normalize.

#[export] Hint Resolve normalize_ends remote_normalized : ipfs.

(** ** Frames: what notifications leave alone *)
Section frame.
Context `{L : Libp2p, C : !Channels Event}.

Lemma notify_eq e s :
  notify e s =
    let r := send_retain e (event_stream (book s)) (chans (world s)) in
    set_chans r.2 (set_streams (λ _, r.1) s).
Proof. unfold notify. by destruct (send_retain _ _ _). Qed.

(** Everything but the subscriptions and the channels. *)
Record same_core (s s' : State) : Prop := {
  core_peers : peers (book s') = peers (book s);
  core_listeners : listeners (book s') = listeners (book s);
  core_local : local_peer_id (book s') = local_peer_id (book s);
  core_actions : actions (book s') = actions (book s);
  core_deferred : deferred (book s') = deferred (book s);
  core_gauge : LISTEN_ADDRS (world s') = LISTEN_ADDRS (world s);
  core_flags : (port_reuse (book s'), enable_loopback (book s'), keep_alive (book s'),
                external (book s'), refresh_external (book s')) =
               (port_reuse (book s), enable_loopback (book s), keep_alive (book s),
                external (book s), refresh_external (book s));
}.

#[export] Instance same_core_preorder : PreOrder same_core.
Proof.
  split; [by split|]. intros s1 s2 s3 [] []; split; congruence.
Qed.

Lemma notify_core e s : same_core s (notify e s).
Proof. by rewrite notify_eq. Qed.

Lemma notify_all_core es s : same_core s (notify_all es s).
Proof.
  unfold notify_all. revert s. induction es as [|e es IH]; intros s; cbn; [reflexivity|].
  etrans; [apply notify_core | apply IH].
Qed.
End frame.

(** ** The invariant *)
Section invariant.
Context `{L : Libp2p, C : !Channels Event}.

(** Retry counters of validation dials stay within [SIM_OPEN_RETRIES + 1]. *)
Definition handler_ok (h : IntoAddressHandler) : Prop :=
  match ih_own_dial h with
  | Some (_, r) => 0 ≤ r ≤ SIM_OPEN_RETRIES + 1
  | None => True
  end.

Definition action_ok (local : PeerId) (a : DialAction) : Prop :=
  opt_peer (dial_opts a) ≠ local ∧ handler_ok (dial_handler a).

Record book_wf (s : State) : Prop := {
  (** every peer's record is well formed *)
  wf_infos : map_Forall (λ _, info_wf) (peers (book s));
  (** the local peer has no record *)
  wf_self : peers (book s) !! local_peer_id (book s) = None;
  (** queued and deferred dials never target the local peer *)
  wf_actions : Forall (action_ok (local_peer_id (book s))) (actions (book s));
  wf_deferred : Forall (λ x, 0 ≤ x.1 ≤ from_secs 1 ∧ action_ok (local_peer_id (book s)) x.2)
                       (deferred (book s));
}.

Lemma same_core_wf s s' : same_core s s' → book_wf s → book_wf s'.
Proof.
  intros [Hp Hl Hi Ha Hd Hg _] []. split; rewrite ?Hp, ?Hl, ?Hi, ?Ha, ?Hd; done.
Qed.

Lemma notify_wf e s : book_wf s → book_wf (notify e s).
Proof. apply same_core_wf, notify_core. Qed.

Lemma set_peers_insert_wf p i s :
  info_wf i → p ≠ local_peer_id (book s) → book_wf s → book_wf (set_peers <[p := i]> s).
Proof.
  intros Hi Hp []. split; cbn; try done.
  - by apply map_Forall_insert_2.
  - by rewrite lookup_insert_ne.
Qed.

Lemma set_peers_delete_wf p s : book_wf s → book_wf (set_peers (delete p) s).
Proof.
  intros []. split; cbn; try done.
  - by apply map_Forall_delete.
  - rewrite lookup_delete. by case_decide.
Qed.

Lemma default_info_wf p s :
  book_wf s → info_wf (default PeerInfo_default (peers (book s) !! p)).
Proof.
  intros Hs. destruct (peers (book s) !! p) eqn:Ep; cbn.
  - by eapply (wf_infos s Hs).
  - apply PeerInfo_default_wf.
Qed.

Lemma entry_wf p f s :
  (∀ i, info_wf i → info_wf (f i)) → p ≠ local_peer_id (book s) →
  book_wf s → book_wf (entry_or_default p f s).
Proof.
  intros Hf Hp Hs. apply set_peers_insert_wf; [|done..]. by apply Hf, default_info_wf.
Qed.

Lemma push_action_wf a s :
  action_ok (local_peer_id (book s)) a → book_wf s → book_wf (push_action a s).
Proof.
  intros Ha []. split; cbn; try done. apply Forall_app. split; [done|]. by constructor.
Qed.

Lemma if_notify_wf (b : bool) e s : book_wf s → book_wf (if b then notify e s else s).
Proof. destruct b; auto using notify_wf. Qed.

Lemma if_push_action_wf (b : bool) a s :
  action_ok (local_peer_id (book s)) a → book_wf s →
  book_wf (if b then push_action a s else s).
Proof. destruct b; auto using push_action_wf. Qed.

Lemma info_of_wf p i s : book_wf s → peers (book s) !! p = Some i → info_wf i.
Proof. intros Hs Hp. by eapply (wf_infos s Hs). Qed.

Lemma known_not_local p i s :
  book_wf s → peers (book s) !! p = Some i → p ≠ local_peer_id (book s).
Proof. intros Hs Hp ->. by rewrite (wf_self s Hs) in Hp. Qed.
End invariant.

#[export] Hint Resolve notify_wf set_peers_insert_wf set_peers_delete_wf entry_wf
  push_action_wf default_info_wf info_of_wf known_not_local PeerInfo_default_wf push_failure_wf insert_address_wf
  insert_connection_wf delete_address_wf delete_connection_wf : ipfs_inv.

(** ** Every handler returns normally and preserves the invariant *)
Section preservation.
Context `{L : Libp2p, C : !Channels Event, F : !Fmt, E : Environment,
          O : HashOrder, P : Profile}.
Implicit Types (s : State) (p : PeerId) (a : Multiaddr).

(** A handler started in [s] returned in a well-formed state of the same node. *)
Definition returns_wf s (o : outcome State) : Prop :=
  ∃ s', o = Done s' ∧ book_wf s' ∧ local_peer_id (book s') = local_peer_id (book s).

Lemma returns_wf_Done s s' :
  book_wf s' → local_peer_id (book s') = local_peer_id (book s) → returns_wf s (Done s').
Proof. intros. by exists s'. Qed.

Lemma notify_local e s : local_peer_id (book (notify e s)) = local_peer_id (book s).
Proof. apply notify_core. Qed.

Lemma utc_now_wf s : book_wf s → book_wf (utc_now s).2.
Proof. by intros []. Qed.

Lemma dial_wf p s : book_wf s → book_wf (dial p s).
Proof.
  intros Hs. unfold dial. case_bool_decide; [done|]. by apply push_action_wf.
Qed.

Lemma dial_address_wf p a s : book_wf s → book_wf (dial_address p a s).
Proof.
  intros Hs. unfold dial_address. case_bool_decide as Hp; [done|].
  assert (book_wf (entry_or_default p id s)) by (apply entry_wf; auto).
  repeat case_match; try done. apply push_action_wf; [|done].
  split; [done|]. by unfold handler_ok, SIM_OPEN_RETRIES.
Qed.

(** The address pair [add_address] works with: the full address names a peer,
    the bare one does not. *)
Lemma split_address a p :
  match normalize_addr_ref a p with inl x => (x, ma_pop a) | inr x => (x, a) end =
  (normalize_addr a p, without_peer_id a).
Proof.
  unfold normalize_addr_ref, normalize_addr, without_peer_id.
  by destruct (last _) as [[]|].
Qed.

Lemma add_address_eq p a src s :
  let bare := without_peer_id a in let full := normalize_addr a p in
  p ≠ local_peer_id (book s) →
  (enable_loopback (book s) = true ∨ is_loopback a = false) →
  bare ∉ listeners (book s) →
  let info := default PeerInfo_default (peers (book s) !! p) in
  let old := source_at info full in
  add_address p a src s = Done (
    let info' := with_addresses
                   <[full := (merge_source old src, utc (clock_reads (world s)))]> info in
    let s1 := set_peers <[p := info']> (utc_now s).2 in
    let s2 := if wants_probe old src && bool_decide (connections info !! full = None)
              then push_action (MkDial (always (opts_for p [bare]))
                     (MkInto (Some (full, SIM_OPEN_RETRIES + 1)) false)) s1
              else s1 in
    let s3 := if undiscovered p s && is_confirmed src then notify (Discovered p) s2 else s2 in
    notify (NewInfo p) s3).
Proof.
  intros bare full Hp Hl Hn info old. unfold add_address.
  rewrite bool_decide_false by done.
  assert (negb (enable_loopback (book s)) && is_loopback a = false) as ->
    by (destruct Hl as [-> | ->]; by rewrite ?andb_false_r).
  rewrite split_address. rewrite bool_decide_false by done. cbn [utc_now fst snd book].
  rewrite ingest_eq by (left; apply normalize_ends). done.
Qed.

(** The cases in which [add_address] ignores the address. *)
Lemma add_address_ignored p a src s :
  p = local_peer_id (book s) ∨
  (enable_loopback (book s) = false ∧ is_loopback a = true) ∨
  without_peer_id a ∈ listeners (book s) →
  add_address p a src s = Done s.
Proof.
  intros Hc. unfold add_address. case_bool_decide; [done|].
  destruct Hc as [? | [[-> ->] | Hin]]; [done..|].
  case_match; [done|]. rewrite split_address. by rewrite bool_decide_true.
Qed.

(** Either case applies. *)
Lemma add_address_cases p a s :
  (p = local_peer_id (book s) ∨
   (enable_loopback (book s) = false ∧ is_loopback a = true) ∨
   without_peer_id a ∈ listeners (book s)) ∨
  (p ≠ local_peer_id (book s) ∧
   (enable_loopback (book s) = true ∨ is_loopback a = false) ∧
   without_peer_id a ∉ listeners (book s)).
Proof.
  destruct (decide (p = local_peer_id (book s))); [by auto|].
  destruct (decide (without_peer_id a ∈ listeners (book s))); [by auto|].
  destruct (enable_loopback (book s)); destruct (is_loopback a); auto 10.
Qed.

Lemma add_address_wf p a src s : book_wf s → returns_wf s (add_address p a src s).
Proof.
  intros Hs. destruct (add_address_cases p a s) as [Hc | (Hp & Hl & Hn)].
  { rewrite add_address_ignored by done. by apply returns_wf_Done. }
  rewrite add_address_eq by done. cbv zeta.
  apply returns_wf_Done; [|repeat case_match; by rewrite ?notify_local].
  apply notify_wf, if_notify_wf, if_push_action_wf.
  - by split; [|unfold handler_ok, SIM_OPEN_RETRIES].
  - apply set_peers_insert_wf; [|done | by apply utc_now_wf].
    apply insert_address_wf; auto with ipfs ipfs_inv.
Qed.

Lemma remove_address_wf p a s : book_wf s → book_wf (remove_address p a s).
Proof.
  intros Hs. unfold remove_address. case_match eqn:Ep; [|done].
  eauto using set_peers_insert_wf, delete_address_wf, info_of_wf, known_not_local.
Qed.

Lemma prune_fold_wf ps s :
  book_wf s →
  book_wf (foldl (λ s peer, notify (NewInfo peer) (set_peers (delete peer) s)) s ps).
Proof.
  revert s. induction ps; intros s Hs; cbn; [done|]. auto with ipfs_inv.
Qed.

Lemma prune_peers_wf min_age s : book_wf s → book_wf (prune_peers min_age s).
Proof. intros Hs. unfold prune_peers. cbn. by apply prune_fold_wf, utc_now_wf. Qed.

Lemma connection_closed_wf p cp n err s :
  p ≠ local_peer_id (book s) → book_wf s → book_wf (connection_closed p cp n err s).
Proof.
  intros Hp Hs. unfold connection_closed. destruct (close_reason err) as [reason them].
  cbn [utc_now]. apply notify_wf, if_notify_wf, notify_wf, entry_wf;
    [|done | by apply (utc_now_wf s)].
  intros i Hi. by apply push_failure_wf, delete_connection_wf.
Qed.

Lemma inject_connection_established_wf p cp n s :
  p ≠ local_peer_id (book s) → book_wf s →
  returns_wf s (inject_connection_established p cp n s).
Proof.
  intros Hp Hs. unfold inject_connection_established.
  set (conn := normalize_connected_point _ _ _).
  destruct (add_address_wf p (get_remote_address conn) (source_of conn) s Hs)
    as (s' & -> & Hs' & Hl). cbn [mbind outcome_bind utc_now].
  apply returns_wf_Done; [|case_bool_decide; by rewrite ?notify_local].
  apply notify_wf, if_notify_wf, entry_wf; [|cbn; congruence | by apply (utc_now_wf s')].
  intros. apply insert_connection_wf; [done|]. apply remote_normalized.
Qed.

Lemma inject_address_change_wf p old new s :
  p ≠ local_peer_id (book s) → book_wf s →
  returns_wf s (inject_address_change p old new s).
Proof.
  intros Hp Hs. unfold inject_address_change.
  set (conn := normalize_connected_point new _ _).
  destruct (add_address_wf p (get_remote_address conn) (source_of conn) s Hs)
    as (s' & -> & Hs' & Hl). cbn [mbind outcome_bind utc_now].
  apply returns_wf_Done; [|by rewrite ?notify_local].
  apply notify_wf, entry_wf; [|cbn; congruence | by apply (utc_now_wf s')].
  intros. apply insert_connection_wf; [by apply delete_connection_wf|].
  apply remote_normalized.
Qed.

(** A ping panics exactly when it overflows the record of a known peer. *)
Definition rtt_overflows p r s : bool :=
  match peers (book s) !! p with Some i => ping_overflows r i | None => false end.

Lemma book_set_rtt_exact p r s :
  (∀ d, r = Some d → 0 ≤ d ≤ DURATION_MAX) → book_wf s →
  if rtt_overflows p r s then book_set_rtt p r s = Panicked
  else returns_wf s (book_set_rtt p r s).
Proof.
  intros Hd Hs. unfold book_set_rtt, rtt_overflows.
  destruct (peers (book s) !! p) as [i|] eqn:Ep; [|by apply returns_wf_Done].
  pose proof (known_not_local _ _ _ Hs Ep) as Hp.
  pose proof (set_rtt_exact r i (info_of_wf _ _ _ Hs Ep) Hd) as Hr.
  destruct (ping_overflows r i); [by rewrite Hr|]. destruct Hr as (i' & -> & Hi').
  cbn. apply returns_wf_Done; [auto with ipfs_inv | by rewrite notify_local].
Qed.

Lemma book_set_rtt_panics p r s :
  (∀ d, r = Some d → 0 ≤ d ≤ DURATION_MAX) → book_wf s →
  book_set_rtt p r s = Panicked ↔ rtt_overflows p r s = true.
Proof.
  intros Hd Hs. pose proof (book_set_rtt_exact p r s Hd Hs) as H.
  destruct (rtt_overflows p r s); [done|]. destruct H as (s' & -> & _). done.
Qed.

(** *** Identify *)

Lemma ip_port_tcp a x :
  ip_port a = Some x → ∃ ip q l, ma_iter a = ip :: Tcp q :: l.
Proof. unfold ip_port. intros. repeat case_match; naive_solver. Qed.

(** Replacing the port of an address that names a peer cannot fail and keeps
    the peer. *)
Lemma with_port_spec a x port :
  ip_port a = Some x → ends_in_p2p a = true →
  ∃ b, with_port a port = Done b ∧ ma_iter b = <[1%nat := Tcp port]> (ma_iter a) ∧
       ends_in_p2p b = true.
Proof.
  intros (ip & q & l & Hit)%ip_port_tcp Hend.
  destruct (ma_replace_Some a 1 (λ _, Some (Tcp port)) (Tcp q) (Tcp port)) as (b & Hb & Hib);
    [by rewrite Hit | done |].
  exists b. unfold with_port. rewrite Hb. split; [done|]. split; [done|].
  unfold ends_in_p2p in *. rewrite Hib. rewrite last_insert_lt; [done|].
  rewrite Hit in *. destruct l; [done|]. cbn. lia.
Qed.

Definition all_named (tr : gset Multiaddr) : Prop := ∀ a, a ∈ tr → ends_in_p2p a = true.

Lemma all_named_add a tr : ends_in_p2p a = true → all_named tr → all_named ({[a]} ∪ tr).
Proof. intros Ha Htr b. set_solver. Qed.

Lemma add_translation_named a x ports tr added :
  ip_port a = Some x → ends_in_p2p a = true → all_named tr →
  ∃ r, foldM (add_translation a) ports (tr, added) = Done r ∧ all_named r.1.
Proof.
  intros Hip Hend Htr.
  apply (foldM_inv (λ r : gset Multiaddr * bool, all_named r.1)); [done|].
  intros r port _ Hr. unfold add_translation.
  destruct (with_port_spec a x port Hip Hend) as (b & -> & _ & Hb). cbn.
  eexists. split; [done|]. by apply all_named_add.
Qed.

Lemma translate_addr_named lp cps tr a :
  ends_in_p2p a = true → all_named tr →
  ∃ tr', translate_addr lp cps tr a = Done tr' ∧ all_named tr'.
Proof.
  intros Hend Htr. unfold translate_addr.
  destruct (ip_port a) as [[ip q]|] eqn:Hip; [|by eauto].
  edestruct add_translation_named as ([tr1 ad1] & -> & H1); [done..|].
  cbn [mbind outcome_bind fst] in *.
  destruct ad1; cbn [negb mbind outcome_bind]; [by eauto|].
  edestruct add_translation_named as ([tr2 ad2] & -> & H2); [done..|].
  cbn [mbind outcome_bind fst] in *. destruct ad2; cbn; eauto using all_named_add.
Qed.

Lemma derived_addresses_named p lb i :
  info_wf i → ∃ tr, derived_addresses p lb i = Done tr ∧ all_named tr.
Proof.
  intros Hi. unfold derived_addresses.
  destruct (foldM_inv all_named
    (translate_addr (listen_ports p i) (list_to_set (snd <$> listen_ports p i)))
    (addresses_to_translate i) ∅) as (tr & -> & Htr).
  { by intros ? ?%not_elem_of_empty. }
  { intros tr a Ha Htr. apply translate_addr_named; [|done].
    apply elem_of_addresses_by in Ha as (s & Hs & _).
    apply (wf_addresses i Hi). unfold source_at in Hs. by destruct (addresses i !! a). }
  cbn. eexists. split; [done|]. intros a [Ha|Ha]%elem_of_union; [by apply Htr|].
  apply elem_of_list_to_set, list_elem_of_fmap in Ha as (b & -> & _).
  rewrite normalize_addr_ref_owned. apply normalize_ends.
Qed.

Lemma ingest_derived_wf p s0 info s a :
  p ≠ local_peer_id (book s0) → ends_in_p2p a = true →
  info_wf info → book_wf s → local_peer_id (book s) = local_peer_id (book s0) →
  ∃ r, ingest_derived p (info, s) a = Done r ∧ info_wf r.1 ∧ book_wf r.2 ∧
       local_peer_id (book r.2) = local_peer_id (book s0).
Proof.
  intros Hp Hend Hi Hs Hl. unfold ingest_derived. case_bool_decide; [by eauto|].
  cbn [utc_now]. rewrite ingest_eq by auto. cbn [mbind outcome_bind].
  assert (∀ v, info_wf (with_addresses <[a := v]> info)) by auto with ipfs_inv.
  pose proof (utc_now_wf _ Hs) as Hs1. case_match; [|by eauto]. case_match.
  - rewrite ingest_eq by auto. eexists. split; [done|]. cbn [fst snd].
    split_and!; [by apply insert_address_wf | exact (utc_now_wf _ Hs1) | done].
  - eexists. split; [done|]. cbn [fst snd]. split; [done|]. split; [|done].
    apply push_action_wf; [|done]. split; [cbn; congruence | by cbn].
Qed.

Lemma retain_translated_wf i : info_wf i → info_wf (retain_translated i).
Proof.
  intros [Ha ? ? ?]. split; cbn; try done. intros a [v Hv].
  apply map_lookup_filter_Some in Hv as [Hv _]. eauto.
Qed.

Lemma set_info_wf p id s : book_wf s → returns_wf s (set_info p id s).
Proof.
  intros Hs. unfold set_info. case_match eqn:Ep; [|by apply returns_wf_Done].
  pose proof (known_not_local _ _ _ Hs Ep) as Hp.
  assert (info_wf (with_identify id p0)) as Hi.
  { destruct (info_of_wf _ _ _ Hs Ep). by split. }
  destruct (derived_addresses_named p (enable_loopback (book s)) _ Hi) as (tr & -> & Htr).
  cbn [mbind outcome_bind].
  destruct (foldM_inv (λ r : PeerInfo * State, info_wf r.1 ∧ book_wf r.2 ∧
      local_peer_id (book r.2) = local_peer_id (book s))
    (ingest_derived p) (hs_iter tr) (retain_translated (with_identify id p0), s))
    as ([i' s'] & -> & Hi' & Hs' & Hl').
  - split; [by apply retain_translated_wf | done].
  - intros [i1 s1] a Ha (Hi1 & Hs1 & Hl1). apply elem_of_hs_iter in Ha.
    apply (ingest_derived_wf p s); [done | by apply Htr | done..].
  - cbn in *. apply returns_wf_Done; [|by rewrite notify_local].
    apply notify_wf, set_peers_insert_wf; [done | congruence | done].
Qed.

(** *** Dial failures *)

Lemma redial_delay_spec r :
  0 ≤ r < 2 ^ 32 →
  redial_delay r = Done (NANOS_PER_SEC * r / (2 ^ 32 - 1)) ∧
  0 ≤ NANOS_PER_SEC * r / (2 ^ 32 - 1) ≤ from_secs 1.
Proof.
  intros Hr. unfold redial_delay, dur_mul, from_secs, NANOS_PER_SEC.
  rewrite dur_checked_le by (unfold DURATION_MAX, NANOS_PER_SEC; lia).
  cbn [mbind outcome_bind]. rewrite dur_div_pos by lia.
  rewrite Z.mul_1_l. split; [done|]. lia.
Qed.

Lemma defer_eq (act : DialAction) s :
  defer act s =
    Done (set_deferred
      (λ l, l ++ [(NANOS_PER_SEC * random_u32 (random_reads (world s)) / (2 ^ 32 - 1), act)])
      (rand_u32 s).2).
Proof.
  unfold defer. cbn [rand_u32].
  by destruct (redial_delay_spec (random_u32 (random_reads (world s)))) as [-> _];
    [apply random_u32_range|].
Qed.

Lemma defer_wf (act : DialAction) s :
  action_ok (local_peer_id (book s)) act → book_wf s → returns_wf s (defer act s).
Proof.
  intros Ha []. rewrite defer_eq. apply returns_wf_Done; [|done].
  split; cbn; try done. apply Forall_app. split; [done|]. constructor; [|constructor].
  split; [|done]. by apply redial_delay_spec, random_u32_range.
Qed.

Lemma defer_all_wf acts s0 s :
  Forall (action_ok (local_peer_id (book s0))) acts → book_wf s →
  local_peer_id (book s) = local_peer_id (book s0) →
  ∃ s', foldM (λ s act, defer act s) acts s = Done s' ∧ book_wf s' ∧
        local_peer_id (book s') = local_peer_id (book s0).
Proof.
  intros Ha Hs Hl.
  apply (foldM_inv (λ s', book_wf s' ∧ local_peer_id (book s') = local_peer_id (book s0)));
    [done|].
  intros s1 act Hin [Hs1 Hl1]. rewrite Forall_forall in Ha.
  destruct (defer_wf act s1) as (s2 & E2 & Hs2 & Hl2);
    [rewrite Hl1; by apply Ha | done |].
  exists s2. split_and!; [done..|congruence].
Qed.

Lemma validation_failure_wf p i addr r keep err s :
  0 ≤ r ≤ SIM_OPEN_RETRIES + 1 → peers (book s) !! p = Some i → book_wf s →
  returns_wf s (validation_failure p i addr r keep err s).
Proof.
  intros Hr Hp Hs. unfold validation_failure. cbn [utc_now].
  match goal with |- context [set_peers <[p := ?i']> ?s0] =>
    assert (book_wf (set_peers <[p := i']> s0)) as Hs1; [|generalize dependent i'] end.
  { apply set_peers_insert_wf; [| exact (known_not_local _ _ _ Hs Hp) | by apply (utc_now_wf s)].
    destruct (is_wrong_peer err); eauto with ipfs_inv. }
  intros i' Hs1. case_match eqn:Ec; cbn [mbind outcome_bind].
  - bsimp. unfold sub_u. rewrite checked_fits by (unfold SIM_OPEN_RETRIES in *; lia).
    cbn [mbind outcome_bind].
    edestruct defer_wf as (s2 & -> & Hs2 & Hl2); [|exact Hs1|].
    { split; [exact (known_not_local _ _ _ Hs Hp)|]. cbn. unfold SIM_OPEN_RETRIES in *. lia. }
    apply returns_wf_Done; [auto with ipfs_inv | by rewrite !notify_local].
  - apply returns_wf_Done; [auto with ipfs_inv | by rewrite !notify_local].
Qed.

(** The loop over per-address errors: the info stays well formed, the state is
    only read for the clock, every redial is within the retry bound. *)
Lemma transport_loop_wf p v i s es rs :
  p ≠ local_peer_id (book s) → info_wf i → book_wf s →
  Forall (action_ok (local_peer_id (book s))) rs →
  let '(i', s', es', rs') := foldl (transport_failure p) (i, s, es, rs) v in
  info_wf i' ∧ book_wf s' ∧ local_peer_id (book s') = local_peer_id (book s) ∧
  Forall (action_ok (local_peer_id (book s))) rs'.
Proof.
  revert i s es rs. induction v as [|[addr e] v IH]; intros i s es rs Hp Hi Hs Hrs; [done|].
  cbn [foldl transport_failure utc_now].
  match goal with |- context [foldl _ (?i1, ?s1, ?es1, ?rs1) v] =>
    specialize (IH i1 s1 es1 rs1) end.
  destruct (foldl _ _ v) as [[[i' s'] es'] rs'].
  apply IH; cbn; [done | by apply push_failure_wf | by apply (utc_now_wf s) |].
  destruct (is_sim_open e); [|done]. apply Forall_app. split; [done|].
  constructor; [|constructor]. by split; [|unfold handler_ok, SIM_OPEN_RETRIES].
Qed.

Lemma notify_all_wf es s : book_wf s → book_wf (notify_all es s).
Proof. apply same_core_wf, notify_all_core. Qed.

Lemma transport_failures_wf p i v s :
  peers (book s) !! p = Some i → book_wf s → returns_wf s (transport_failures p i v s).
Proof.
  intros Hp Hs. unfold transport_failures.
  pose proof (transport_loop_wf p v i s [] [] (known_not_local _ _ _ Hs Hp)
    (info_of_wf _ _ _ Hs Hp) Hs (Forall_nil_2 _)) as Hloop.
  destruct (foldl _ _ v) as [[[i' s'] es'] rs']. destruct Hloop as (Hi' & Hs' & Hl' & Hrs').
  set (s1 := notify_all es' _).
  assert (book_wf s1) as Hs1.
  { apply notify_all_wf, set_peers_insert_wf; [done | | done].
    rewrite Hl'. by eapply known_not_local. }
  assert (local_peer_id (book s1) = local_peer_id (book s)) as Hl1.
  { unfold s1. by rewrite (core_local _ _ (notify_all_core _ _)). }
  edestruct (defer_all_wf rs' s) as (s3 & -> & Hs3 & Hl3); [done| | |].
  - by apply if_notify_wf.
  - case_match; by rewrite ?notify_local.
  - cbn. apply returns_wf_Done; [auto with ipfs_inv | by rewrite notify_local].
Qed.

Lemma inject_dial_failure_wf op h err s :
  handler_ok h → book_wf s → returns_wf s (inject_dial_failure op h err s).
Proof.
  intros Hh Hs. unfold inject_dial_failure, handler_ok in *.
  repeat case_match; simplify_eq;
    try (by apply returns_wf_Done; [auto with ipfs_inv | rewrite ?notify_local]);
    eauto using validation_failure_wf, transport_failures_wf.
Qed.

(** *** The remaining callbacks *)

Lemma book_set_rtt_Done_wf p r s s' :
  (∀ d, r = Some d → 0 ≤ d ≤ DURATION_MAX) →
  book_wf s → book_set_rtt p r s = Done s' → book_wf s'.
Proof.
  intros Hd Hs. pose proof (book_set_rtt_exact p r s Hd Hs) as H. destruct (rtt_overflows p r s).
  - by rewrite H.
  - destruct H as (s1 & -> & ? & _). by intros [= <-].
Qed.

(** Refreshing the external addresses first, then popping an action. *)
Lemma poll_refresh params ready s :
  ∃ s1, (s1 = s ∨ s1 = set_external params false s) ∧
    poll params ready s =
      match actions (book s1), (k ← ready; x ← deferred (book s1) !! k; Some (k, x)) with
      | act :: rest, _ => (Some act, set_actions (λ _, rest) s1)
      | [], Some (k, (_, act)) => (Some act, set_deferred (λ l, delete k l) s1)
      | [], None => (None, s1)
      end.
Proof.
  unfold poll. exists (if refresh_external (book s) then set_external params false s else s).
  split; [case_match; auto|]. cbv zeta. destruct (actions _); [|done].
  destruct ready as [k|]; cbn; [|done]. by destruct (deferred _ !! k) as [[]|].
Qed.

Lemma poll_wf params ready s : book_wf s → book_wf (poll params ready s).2.
Proof.
  intros Hs. destruct (poll_refresh params ready s) as (s1 & Hs1 & ->).
  assert (book_wf s1) as [Hi He Ha Hd] by (destruct Hs; destruct Hs1 as [-> | ->]; by split).
  destruct (actions (book s1)) eqn:Ea.
  - case_match; repeat case_match; cbn [snd]; split; cbn; rewrite ?Ea; try done.
    by apply Forall_delete.
  - inversion Ha; subst. by split.
Qed.

Lemma poll_action_ok params ready s act :
  book_wf s → (poll params ready s).1 = Some act → action_ok (local_peer_id (book s)) act.
Proof.
  intros Hs. destruct (poll_refresh params ready s) as (s1 & Hs1 & ->).
  assert (book_wf s1) as [? ? Ha Hd] by (destruct Hs; destruct Hs1 as [-> | ->]; by split).
  assert (local_peer_id (book s1) = local_peer_id (book s)) as <-
    by (by destruct Hs1 as [-> | ->]).
  destruct (actions (book s1)).
  - destruct (k ← ready; x ← deferred (book s1) !! k; Some (k, x)) as [[k [d a']]|] eqn:Ek;
      [|done].
    intros [= ->]. apply bind_Some in Ek as (k' & _ & Ek).
    apply bind_Some in Ek as (x & Hx & [= -> ->]).
    rewrite Forall_lookup in Hd. by apply (Hd _ _ Hx).
  - intros [= ->]. by inversion Ha.
Qed.

Lemma new_listen_addr_wf id a s : book_wf s → book_wf (inject_new_listen_addr id a s).
Proof. intros []. apply notify_wf. by case_bool_decide; split. Qed.

Lemma expired_listen_addr_wf id a s :
  book_wf s → book_wf (inject_expired_listen_addr id a s).
Proof. intros []. apply notify_wf. by case_bool_decide; split. Qed.

Lemma external_wf e r d s : book_wf s → book_wf (bump 0 0 d 0 (set_external e r s)).
Proof. intros []. by split. Qed.

Lemma bump_wf l la e err s : book_wf s → book_wf (bump l la e err s).
Proof. intros []. by split. Qed.
End preservation.
