(* ===== verification/PeersReach.v ===== *)
(** * Reachable states of the address book

    The book as a transition system: one rule per entry point of
    [src/net/peers.rs], plus one for what receivers of events do to the channels and one for
    what other nodes of the process do to the metrics, which are static.  Every reachable
    state is well formed; when a handler panics in it; how much of the gauge of listen
    addresses is due to this book. *)

From S2P Require Import Prelude Libp2p Duration PeerInfo AddressHandler Channel Peers PeersInv.

Open Scope Z_scope.

Section reach.
Context `{L : Libp2p, C : !Channels Event, F : !Fmt, E : Environment,
          O : HashOrder, P : Profile}.

(** A book fresh from [AddressBook::new] with empty shared tables, in any process. *)
Definition fresh (local : PeerId) (pr lb ka : bool) (w : World) : State :=
  MkState (AddressBook_new local pr lb ka ∅ ∅ []) w.

(** What a step says about the connections of the swarm; [Elsewhere d] is a step of another
    node of the process, which adds [d] to the gauge of listen addresses. *)
Inductive label : Type :=
| Quiet
| Elsewhere (d : Z)
| Opened (p : PeerId) (cp : ConnectedPoint)
| Closed (p : PeerId) (cp : ConnectedPoint)
| Moved (p : PeerId) (old new : ConnectedPoint).

(** The swarm never reports a connection to the local peer, passes back handlers
    it was given, and measures round trips that are [Duration]s. *)
Inductive book_step : label → State → State → Prop :=
| step_dial p s : book_step Quiet s (dial p s)
| step_dial_address p a s : book_step Quiet s (dial_address p a s)
| step_add_address p a src s s' :
    add_address p a src s = Done s' → book_step Quiet s s'
| step_remove_address p a s : book_step Quiet s (remove_address p a s)
| step_prune min_age s : book_step Quiet s (prune_peers min_age s)
| step_closed p cp n err s :
    p ≠ local_peer_id (book s) →
    book_step (Closed p cp) s (connection_closed p cp n err s)
| step_established p cp n s s' :
    p ≠ local_peer_id (book s) →
    inject_connection_established p cp n s = Done s' → book_step (Opened p cp) s s'
| step_address_change p old new s s' :
    p ≠ local_peer_id (book s) →
    inject_address_change p old new s = Done s' → book_step (Moved p old new) s s'
| step_rtt p r s s' :
    (∀ d, r = Some d → 0 ≤ d ≤ DURATION_MAX) →
    book_set_rtt p r s = Done s' → book_step Quiet s s'
| step_set_info p id s s' : set_info p id s = Done s' → book_step Quiet s s'
| step_dial_failure op h err s s' :
    handler_ok h → inject_dial_failure op h err s = Done s' → book_step Quiet s s'
| step_poll params ready s : book_step Quiet s (poll params ready s).2
| step_new_listener id s : book_step Quiet s (inject_new_listener id s)
| step_new_listen_addr id a s : book_step Quiet s (inject_new_listen_addr id a s)
| step_expired_listen_addr id a s : book_step Quiet s (inject_expired_listen_addr id a s)
| step_listener_error id err s : book_step Quiet s (inject_listener_error id err s)
| step_listener_closed id s : book_step Quiet s (inject_listener_closed id s)
| step_new_external a s : book_step Quiet s (inject_new_external_addr a s)
| step_expired_external a s : book_step Quiet s (inject_expired_external_addr a s)
| step_swarm_events tx s : book_step Quiet s (swarm_events tx s)
| step_notify e s : book_step Quiet s (notify e s)
| step_receivers c s : book_step Quiet s (set_chans c s)
| step_elsewhere l la e err s : book_step (Elsewhere la) s (bump l la e err s).

(** A run of the book: the labels of its steps, in order. *)
Inductive run : State → list label → State → Prop :=
| run_nil s : run s [] s
| run_cons s l s1 ls s2 : book_step l s s1 → run s1 ls s2 → run s (l :: ls) s2.

Definition reachable (s : State) : Prop :=
  ∃ local pr lb ka w ls, run (fresh local pr lb ka w) ls s.

Lemma fresh_wf local pr lb ka w : book_wf (fresh local pr lb ka w).
Proof. by split. Qed.

Lemma returns_wf_step s s' o : returns_wf s o → o = Done s' → book_wf s'.
Proof. intros (s1 & -> & ? & _). naive_solver. Qed.

Lemma book_step_wf l s s' : book_step l s s' → book_wf s → book_wf s'.
Proof.
  intros Hstep Hs. destruct Hstep;
    eauto using dial_wf, dial_address_wf, remove_address_wf, prune_peers_wf,
      connection_closed_wf, poll_wf, notify_wf, bump_wf, external_wf, new_listen_addr_wf,
      expired_listen_addr_wf, book_set_rtt_Done_wf, returns_wf_step, add_address_wf,
      inject_connection_established_wf, inject_address_change_wf, set_info_wf,
      inject_dial_failure_wf; by destruct Hs.
Qed.

Lemma run_wf s ls s' : run s ls s' → book_wf s → book_wf s'.
Proof. induction 1; eauto using book_step_wf. Qed.

Lemma reachable_book_wf s : reachable s → book_wf s.
Proof. intros (local & pr & lb & ka & w & ls & Hrun). eauto using run_wf, fresh_wf. Qed.

(** ** The gauge of listen addresses *)

(** The listen addresses of the book and the gauge, which all books of the process share. *)
Definition listens (s : State) : gset Multiaddr * Z := (listeners (book s), LISTEN_ADDRS (world s)).

(** What of the gauge is not due to this book. *)
Definition surplus (s : State) : Z :=
  LISTEN_ADDRS (world s) - Z.of_nat (size (listeners (book s))).

Fixpoint elsewhere (ls : list label) : Z :=
  match ls with
  | [] => 0
  | Elsewhere d :: ls => d + elsewhere ls
  | _ :: ls => elsewhere ls
  end.

Lemma notify_listens e s : listens (notify e s) = listens s.
Proof. destruct (notify_core e s). unfold listens. congruence. Qed.

Lemma notify_all_listens es s : listens (notify_all es s) = listens s.
Proof. destruct (notify_all_core es s). unfold listens. congruence. Qed.

Lemma add_address_listens p a src s s' : add_address p a src s = Done s' → listens s' = listens s.
Proof.
  destruct (add_address_cases p a s) as [Hc | (Hp & Hl & Hn)].
  { rewrite add_address_ignored by done. by intros [= <-]. }
  rewrite add_address_eq by done. intros [= <-]. by repeat case_match; rewrite ?notify_listens.
Qed.

Lemma prune_listens ps s :
  listens (foldl (λ s peer, notify (NewInfo peer) (set_peers (delete peer) s)) s ps) = listens s.
Proof. revert s. induction ps as [|p ps IH]; intros s; cbn; [done|]. by rewrite IH, notify_listens. Qed.

Lemma foldM_listens {A B} (st : B → State) (f : B → A → outcome B) l b b' :
  (∀ b x b', f b x = Done b' → listens (st b') = listens (st b)) →
  foldM f l b = Done b' → listens (st b') = listens (st b).
Proof.
  intros Hf. revert b. induction l as [|x l IH]; intros b; cbn; [by intros [= <-]|].
  rewrite bind_Done. intros (b1 & H1 & H2). rewrite (IH _ H2). by eapply Hf.
Qed.

Lemma ingest_derived_listens p acc a r :
  ingest_derived p acc a = Done r → listens r.2 = listens acc.2.
Proof.
  destruct acc as [i s]. unfold ingest_derived. case_bool_decide; [by intros [= <-]|].
  cbn [utc_now]. rewrite bind_Done. intros ([[] i1] & _ & Hk); [|by injection Hk as <-].
  destruct (_ && _); [|by injection Hk as <-].
  apply bind_Done in Hk as ([b2 i2] & _ & [= <-]). done.
Qed.

Lemma defer_listens act s s' : defer act s = Done s' → listens s' = listens s.
Proof. rewrite defer_eq. by intros [= <-]. Qed.

Lemma transport_loop_listens p v i s es rs :
  listens (foldl (transport_failure p) (i, s, es, rs) v).1.1.2 = listens s.
Proof.
  revert i s es rs. induction v as [|[a e] v IH]; intros i s es rs; cbn [foldl]; [done|].
  cbn [transport_failure utc_now]. by rewrite IH.
Qed.

Lemma dial_failure_listens op h err s s' :
  inject_dial_failure op h err s = Done s' → listens s' = listens s.
Proof.
  assert (∀ p i a r k, validation_failure p i a r k err s = Done s' → listens s' = listens s) as Hv.
  { intros p i a r k. unfold validation_failure. cbn [utc_now]. rewrite bind_Done.
    intros (s1 & H1 & [= <-]). rewrite !notify_listens. destruct (_ && _).
    - apply bind_Done in H1 as (r' & _ & H1). by rewrite (defer_listens _ _ _ H1).
    - by injection H1 as <-. }
  assert (∀ p i v, transport_failures p i v s = Done s' → listens s' = listens s) as Ht.
  { intros p i v. unfold transport_failures. pose proof (transport_loop_listens p v i s [] []) as Hl.
    destruct (foldl _ _ v) as [[[i' s1] es'] rs']. cbn in Hl. rewrite bind_Done.
    intros (s2 & H2 & [= <-]). rewrite notify_listens.
    pose proof (foldM_listens id _ _ _ _ (λ s a s', defer_listens a s s') H2) as Hd. cbn in Hd.
    rewrite Hd. clear H2 Hd.
    by case_match; rewrite ?notify_listens, notify_all_listens. }
  unfold inject_dial_failure. repeat case_match; try (by intros [= <-]; rewrite ?notify_listens); eauto.
Qed.

Lemma listens_surplus s s' : listens s' = listens s → surplus s' = surplus s.
Proof. unfold listens, surplus. by intros [= -> ->]. Qed.

Lemma new_listen_addr_surplus id a s : surplus (inject_new_listen_addr id a s) = surplus s.
Proof.
  unfold inject_new_listen_addr. rewrite (listens_surplus _ _ (notify_listens _ _)).
  unfold surplus. case_bool_decide; cbn.
  - rewrite size_union by set_solver. rewrite size_singleton. lia.
  - replace ({[a]} ∪ listeners (book s)) with (listeners (book s)) by set_solver. lia.
Qed.

Lemma expired_listen_addr_surplus id a s : surplus (inject_expired_listen_addr id a s) = surplus s.
Proof.
  unfold inject_expired_listen_addr. rewrite (listens_surplus _ _ (notify_listens _ _)).
  unfold surplus. case_bool_decide; cbn.
  - assert ({[a]} ⊆ listeners (book s)) as Hsub by set_solver.
    rewrite size_difference by done. apply subseteq_size in Hsub.
    rewrite size_singleton in *. lia.
  - replace (listeners (book s) ∖ {[a]}) with (listeners (book s)) by set_solver. lia.
Qed.

Lemma bumped_surplus ev l e err s s' :
  listens s' = listens s → surplus (notify ev (bump l 0 e err s')) = surplus s + 0.
Proof.
  intros Hs%listens_surplus. rewrite (listens_surplus _ _ (notify_listens _ _)).
  unfold surplus in *. cbn. lia.
Qed.

(** Every step of the book moves the gauge by what it does to its listen addresses. *)
Lemma book_step_surplus l s s' :
  book_step l s s' → surplus s' = surplus s + elsewhere [l].
Proof.
  assert (∀ x, x = surplus s → x = surplus s + 0) as H0 by (intros; lia).
  destruct 1 as [|p a s|p a src s s' H| | |p cp n err s| p cp n s s' _ H|p old new s s' _ H
    |p r s s' _ H|p id s s' H|op h err s s' _ H|params ready s| | | | | | | | | | |];
    cbn [elsewhere]; try (apply H0, listens_surplus; try rewrite !notify_listens; done).
  - apply H0, listens_surplus. unfold dial. by case_match.
  - apply H0, listens_surplus. unfold dial_address. by repeat case_match.
  - by eapply H0, listens_surplus, add_address_listens.
  - apply H0, listens_surplus. unfold remove_address. by case_match.
  - apply H0, listens_surplus. unfold prune_peers. cbn [utc_now]. by rewrite prune_listens.
  - apply H0, listens_surplus. unfold connection_closed. destruct (close_reason err). cbn [utc_now].
    rewrite notify_listens. by case_match; rewrite ?notify_listens.
  - apply H0, listens_surplus. apply bind_Done in H as (s1 & H1 & [= <-]). cbn [utc_now].
    rewrite notify_listens. case_match; rewrite ?notify_listens; by apply add_address_listens in H1.
  - apply H0, listens_surplus. apply bind_Done in H as (s1 & H1 & [= <-]). cbn [utc_now].
    rewrite notify_listens. by apply add_address_listens in H1.
  - apply H0, listens_surplus. unfold book_set_rtt in H. case_match; [|by injection H as <-].
    apply bind_Done in H as (i' & _ & [= <-]). by rewrite notify_listens.
  - apply H0, listens_surplus. unfold set_info in H. case_match; [|by injection H as <-].
    apply bind_Done in H as (tr & _ & H). apply bind_Done in H as ([i' s1] & Hf & [= <-]).
    rewrite notify_listens. by apply (foldM_listens snd _ _ _ _ (ingest_derived_listens p)) in Hf.
  - by eapply H0, listens_surplus, dial_failure_listens.
  - apply H0, listens_surplus. destruct (poll_refresh params ready s) as (s1 & Hs1 & ->).
    destruct Hs1 as [-> | ->]; by repeat case_match.
  - by apply bumped_surplus.
  - apply H0, new_listen_addr_surplus.
  - apply H0, expired_listen_addr_surplus.
  - by apply bumped_surplus.
  - by apply bumped_surplus.
  - by apply bumped_surplus.
  - by apply bumped_surplus.
  - unfold surplus. cbn. lia.
Qed.

Lemma elsewhere_cons l ls : elsewhere (l :: ls) = elsewhere [l] + elsewhere ls.
Proof. destruct l; cbn; lia. Qed.

Lemma run_surplus s ls s' : run s ls s' → surplus s' = surplus s + elsewhere ls.
Proof.
  induction 1 as [|s l s1 ls s2 H1%book_step_surplus _ IH]; [cbn; lia|].
  rewrite elsewhere_cons. lia.
Qed.
End reach.

(** C2: from the creation of an address book on, whatever its node and the other nodes of
    the process do, each peer's address and connection tables are keyed by addresses that
    end in a peer id, its failure history has at most ten entries and its round-trip record
    is within its types with a failure rate of at most 1_000_000; the local peer has no
    entry; queued and deferred dials never target the local peer, carry at most eleven
    retries and are delayed by at most a second; and the process-wide gauge of listen
    addresses is what it was when the book was created, plus what other nodes added since,
    plus the number of listen addresses of this book. *)
Theorem reachable_wf `{L : Libp2p, C : !Channels Event, F : !Fmt, E : Environment,
    O : HashOrder, P : Profile} local pr lb ka w ls (s : State) :
  run (fresh local pr lb ka w) ls s →
  book_wf s ∧
  LISTEN_ADDRS (world s) =
    LISTEN_ADDRS w + elsewhere ls + Z.of_nat (size (listeners (book s))).
Proof.
  intros Hrun. split; [by eapply run_wf, fresh_wf|].
  pose proof (run_surplus _ _ _ Hrun) as Hg. unfold surplus in Hg. cbn in Hg.
  rewrite size_empty in Hg. lia.
Qed.

(** C1: when the handlers of the address book panic, in any state it can reach.  Adding an
    address, an established or changed connection with another peer, an identify message
    and a failed dial with at most one more retry than [SIM_OPEN_RETRIES] left, which is all
    the book ever asks for, never do, whatever their arguments: [unwrap], the debug assertion on
    ingested addresses, the [u8] arithmetic of retries and the [Duration] arithmetic of
    redials all succeed.  The result of a ping panics exactly when it overflows the
    round-trip record of a known peer: a sample when thrice it, seven times the fast or nine
    times the slow average exceeds [Duration::MAX], a failure when overflow is checked and
    [u32::MAX] failures in a row were counted.  These are all handlers that can panic; the
    others are total functions of the model. *)
Theorem reachable_no_panic `{L : Libp2p, C : !Channels Event, F : !Fmt, E : Environment,
    O : HashOrder, P : Profile} (s : State) :
  reachable s →
  (∀ p a src, ∃ s', add_address p a src s = Done s') ∧
  (∀ p cp n, p ≠ local_peer_id (book s) →
     ∃ s', inject_connection_established p cp n s = Done s') ∧
  (∀ p old new, p ≠ local_peer_id (book s) →
     ∃ s', inject_address_change p old new s = Done s') ∧
  (∀ p id, ∃ s', set_info p id s = Done s') ∧
  (∀ op h err, handler_ok h → ∃ s', inject_dial_failure op h err s = Done s') ∧
  (∀ p d, 0 ≤ d ≤ DURATION_MAX →
     book_set_rtt p (Some d) s = Panicked ↔
     ∃ i x, peers (book s) !! p = Some i ∧ rtt i = Some x ∧
       (DURATION_MAX < decay_3 x * 7 ∨ DURATION_MAX < d * 3 ∨ DURATION_MAX < decay_10 x * 9)) ∧
  (∀ p, book_set_rtt p None s = Panicked ↔
     overflow_checks = true ∧
     ∃ i x, peers (book s) !! p = Some i ∧ rtt i = Some x ∧ rtt_failures x = 2 ^ 32 - 1).
Proof.
  intros Hs%reachable_book_wf. split_and!; intros.
  - by destruct (add_address_wf p a src s Hs) as (s' & ? & _); eauto.
  - by destruct (inject_connection_established_wf p cp n s) as (s' & ? & _); eauto.
  - by destruct (inject_address_change_wf p old new s) as (s' & ? & _); eauto.
  - by destruct (set_info_wf p id s Hs) as (s' & ? & _); eauto.
  - by destruct (inject_dial_failure_wf op h err s) as (s' & ? & _); eauto.
  - rewrite (book_set_rtt_panics p (Some d) s) by naive_solver. unfold rtt_overflows, ping_overflows.
    destruct (peers (book s) !! p) as [i|]; [|naive_solver].
    destruct (rtt i) as [x|] eqn:Ei; [|naive_solver]. unfold register_overflows.
    rewrite !orb_true_iff, !bool_decide_eq_true. naive_solver.
  - rewrite (book_set_rtt_panics p None s) by naive_solver. unfold rtt_overflows, ping_overflows.
    destruct (peers (book s) !! p) as [i|]; [|naive_solver].
    destruct (rtt i) as [x|] eqn:Ei; [|naive_solver]. unfold register_failure_overflows.
    rewrite andb_true_iff, bool_decide_eq_true. naive_solver.
Qed.

(** ** A concrete run

    A listener comes up, a peer is reported by mDNS, connects to us, identifies
    itself, and the first validation dial is handed to the swarm. *)

Definition world0 : World :=
  MkWorld (C := queues Event) ({[ 0%nat := ([], true) ]} : gmap nat (list Event * bool)) 0 0 0 0 0 0.

Definition chan0 : sender Event := 0%nat.
Definition listener0 : ListenerId := 0%nat.
Definition peer_a : PeerId := 1%N.
Definition peer_b : PeerId := 2%N.
Definition addr_a : Multiaddr := [Ip4 (ipv4 10 0 0 2); Tcp 4001].
Definition addr_b1 : Multiaddr := [Ip4 (ipv4 10 0 0 10); Tcp 57634; P2p 2%N].
Definition addr_b2 : Multiaddr := [Ip4 (ipv4 10 0 0 10); Tcp 4001].
Definition addr_b3 : Multiaddr := [Ip4 (ipv4 172 17 0 3); Tcp 4001].
Definition addr_b4 : Multiaddr := [Ip4 (ipv4 127 0 0 1); Tcp 4001].
Definition cp_in : ConnectedPoint := Listener addr_a addr_b1.
Definition info_b : IdentifyInfo := MkIdentifyInfo "my protocol" "my agent" ["my proto"]
                                      [addr_b2; addr_b3; addr_b4].
Definition start : State := fresh peer_a false false false world0.

(** Continue a run of the model, which must not have panicked. *)
Definition force (o : outcome State) : State :=
  match o with Done s => s | Panicked => start end.

Definition returned {A} (o : outcome A) : bool :=
  match o with Done _ => true | Panicked => false end.

Lemma force_Done o : returned o = true → o = Done (force o).
Proof. by destruct o. Qed.

Definition run1 : State := swarm_events chan0 start.
Definition run2 : State := inject_new_listen_addr listener0 addr_a run1.
Definition run3 : State := force (add_address peer_b addr_b3 Mdns run2).
Definition run4 : State := force (inject_connection_established peer_b cp_in 0 run3).
Definition run5 : State := force (set_info peer_b info_b run4).
Definition run6 : State := (poll [] None run5).2.

Definition labels0 : list label := [Quiet; Quiet; Quiet; Opened peer_b cp_in; Quiet; Quiet].

Lemma run_app (s1 s2 s3 : State) l1 l2 : run s1 l1 s2 → run s2 l2 s3 → run s1 (l1 ++ l2) s3.
Proof. induction 1; cbn; eauto using run_cons. Qed.

Lemma run_to_4 : run start [Quiet; Quiet; Quiet; Opened peer_b cp_in] run4.
Proof.
  apply (run_cons _ _ run1); [apply step_swarm_events|].
  apply (run_cons _ _ run2); [apply step_new_listen_addr|].
  apply (run_cons _ _ run3).
  { apply (step_add_address peer_b addr_b3 Mdns run2), force_Done. by vm_compute. }
  apply (run_cons _ _ run4), run_nil.
  apply (step_established peer_b cp_in 0 run3); [done|]. apply force_Done. by vm_compute.
Qed.

Lemma run_labels0 : run start labels0 run6.
Proof.
  apply (run_app _ _ _ [Quiet; Quiet; Quiet; Opened peer_b cp_in] [Quiet; Quiet] run_to_4).
  apply (run_cons _ _ run5).
  { apply (step_set_info peer_b info_b run4), force_Done. by vm_compute. }
  apply (run_cons _ _ run6); [apply step_poll | apply run_nil].
Qed.

Lemma run_reachable : reachable run6.
Proof.
  exists peer_a, false, false, false, world0, labels0. apply run_labels0.
Qed.

(** Another node of the process gets two listen addresses in between. *)
Lemma reachable_wf_witness :
  ∃ s, run start (labels0 ++ [Elsewhere 2]) s ∧ book_wf s ∧ LISTEN_ADDRS (world s) = 3.
Proof.
  exists (bump 0 2 0 0 run6).
  assert (run start (labels0 ++ [Elsewhere 2]) (bump 0 2 0 0 run6)) as Hrun.
  { eapply run_app; [exact run_labels0|]. eapply run_cons; [apply step_elsewhere|apply run_nil]. }
  split; [exact Hrun|].
  destruct (reachable_wf peer_a false false false world0 _ _ Hrun) as [Hwf Hg].
  split; [exact Hwf|]. rewrite Hg. by vm_compute.
Defined.

(** A sample of the whole range of [Duration], then another one. *)
Definition run7 : State := force (book_set_rtt peer_b (Some DURATION_MAX) run6).

Lemma run7_reachable : reachable run7.
Proof.
  exists peer_a, false, false, false, world0, (labels0 ++ [Quiet]).
  eapply run_app; [exact run_labels0|]. eapply run_cons; [|apply run_nil].
  apply (step_rtt peer_b (Some DURATION_MAX) run6).
  - intros d [= <-]. done.
  - apply force_Done. by vm_compute.
Qed.

Lemma run7_rtt : rtt <$> peers (book run7) !! peer_b = Some (Some (Rtt_new DURATION_MAX)).
Proof. by vm_compute. Qed.

Lemma reachable_no_panic_witness :
  reachable run7 ∧ (∃ s', set_info peer_b info_b run7 = Done s') ∧
  book_set_rtt peer_b (Some 1) run7 = Panicked.
Proof.
  split; [exact run7_reachable|].
  destruct (reachable_no_panic run7 run7_reachable) as (_ & _ & _ & H & _ & Hr & _).
  split; [apply H|]. apply Hr; [done|].
  pose proof run7_rtt as (i & Hi & Hx)%fmap_Some.
  exists i, (Rtt_new DURATION_MAX). split; [exact Hi|]. split; [done|]. by left.
Defined.
