(* ===== verification/PeersSpec.v ===== *)
(** * What the address book's operations do

    Functional specifications of the operations of [src/net/peers.rs]: the events
    subscribers see, the dials queued, the tables after the operation. *)

From S2P Require Import Prelude Libp2p Duration PeerInfo AddressHandler Channel Peers PeersInv.
From S2P Require Import PeersReach.

Open Scope Z_scope.

(** ** Events seen by subscribers *)
Section events.
Context `{L : Libp2p, C : !Channels Event}.

Definition subscribed (s : State) (d : sender Event) : bool :=
  bool_decide (d ∈ event_stream (book s)) && rx_alive (chans (world s)) d.

(** From [s] to [s'] every live subscriber received exactly [evs], in order;
    nobody else received anything, no live subscription was lost. *)
Record emitted (s s' : State) (evs : list Event) : Prop := {
  em_nodup : NoDup (event_stream (book s)) → NoDup (event_stream (book s'));
  em_alive d : rx_alive (chans (world s')) d = rx_alive (chans (world s)) d;
  em_live d : subscribed s' d = subscribed s d;
  em_queue d :
    NoDup (event_stream (book s)) →
    queue (chans (world s')) d =
      queue (chans (world s)) d ++ (if subscribed s d then evs else []);
}.

Lemma emitted_silent s s' :
  event_stream (book s') = event_stream (book s) → chans (world s') = chans (world s) →
  emitted s s' [].
Proof.
  intros Hs Hc. split; unfold subscribed; rewrite ?Hs, ?Hc; try done.
  intros. case_match; by rewrite app_nil_r.
Qed.

Lemma emitted_trans s1 s2 s3 e1 e2 :
  emitted s1 s2 e1 → emitted s2 s3 e2 → emitted s1 s3 (e1 ++ e2).
Proof.
  intros [N1 A1 L1 Q1] [N2 A2 L2 Q2]. split; intros; try congruence; auto.
  rewrite Q2, Q1, L1, <- app_assoc by auto. by case_match.
Qed.

Lemma emitted_notify e s : emitted s (notify e s) [e].
Proof.
  rewrite notify_eq. split; cbn.
  - rewrite send_retain_senders. apply NoDup_filter.
  - intros. apply send_retain_alive.
  - intros d. unfold subscribed. cbn. rewrite send_retain_alive, send_retain_senders.
    destruct (rx_alive _ d) eqn:Ea; rewrite ?andb_false_r, ?andb_true_r; [|done].
    apply bool_decide_ext. rewrite list_elem_of_filter. naive_solver.
  - intros d Hnd. by rewrite send_retain_queue.
Qed.

Lemma emitted_notify_all es s : emitted s (notify_all es s) es.
Proof.
  unfold notify_all. revert s. induction es as [|e es IH]; intros s; cbn.
  - by apply emitted_silent.
  - eapply (emitted_trans _ _ _ [e] es); [apply emitted_notify | apply IH].
Qed.

(** Prefixing a silent step, and one or two notifications. *)
Lemma emitted_after s s1 s2 es :
  event_stream (book s1) = event_stream (book s) → chans (world s1) = chans (world s) →
  emitted s1 s2 es → emitted s s2 es.
Proof.
  intros ?? H. by eapply (emitted_trans _ _ _ [] es); [apply emitted_silent|].
Qed.

Lemma emitted_if (b : bool) e s es s' :
  emitted (if b then notify e s else s) s' es →
  emitted s s' ((if b then [e] else []) ++ es).
Proof.
  destruct b; [|done]. intros. eapply emitted_trans; [apply emitted_notify | done].
Qed.
End events.

Lemma if_notify_core `{L : Libp2p, C : !Channels Event} (b : bool) e (s : State) :
  same_core s (if b then notify e s else s).
Proof. destruct b; [apply notify_core | reflexivity]. Qed.

(** A notification reaches every subscriber whose receiver is alive exactly
    once, after everything sent before; subscribers whose receiver is gone are
    dropped, the others keep their place; nothing else of the book changes. *)
Theorem notify_delivers `{L : Libp2p, C : !Channels Event} e (s : State) :
  NoDup (event_stream (book s)) →
  event_stream (book (notify e s)) =
    filter (λ d, rx_alive (chans (world s)) d = true) (event_stream (book s)) ∧
  (∀ d, queue (chans (world (notify e s))) d =
     queue (chans (world s)) d ++ (if subscribed s d then [e] else [])) ∧
  same_core s (notify e s).
Proof.
  intros Hnd. split_and!.
  - rewrite notify_eq. apply send_retain_senders.
  - intros d. by apply (em_queue _ _ _ (emitted_notify e s)).
  - apply notify_core.
Qed.

Lemma notify_delivers_witness :
  queue (chans (world (notify Bootstrapped run1))) chan0 = [Bootstrapped].
Proof.
  destruct (notify_delivers Bootstrapped run1) as (_ & Hq & _).
  - unfold run1. cbn. by apply NoDup_singleton.
  - rewrite (Hq chan0). by vm_compute.
Defined.

(** ** Full and bare addresses *)

(** C37: the full form of an address and its bare form determine each other:
    completing with a peer id is idempotent and keeps the bare address, the borrowed
    and the owned variant agree, and for an address that names no peer, stripping the
    full form gives the address back and the full form names exactly the given peer. *)
Theorem normalize_roundtrip `{L : Libp2p} (a : Multiaddr) p q :
  normalize_addr (normalize_addr a p) q = normalize_addr a p ∧
  into_owned (normalize_addr_ref a p) = normalize_addr a p ∧
  without_peer_id (normalize_addr a p) = without_peer_id a ∧
  (ends_in_p2p a = false →
     without_peer_id (normalize_addr a p) = a ∧
     multiaddr_peer_id (normalize_addr a p) = Some p).
Proof.
  split; [apply normalize_id, normalize_ends|]. split; [apply normalize_addr_ref_owned|].
  assert (ends_in_p2p a = false → without_peer_id (normalize_addr a p) = a ∧
     multiaddr_peer_id (normalize_addr a p) = Some p) as Hbare.
  { unfold ends_in_p2p, without_peer_id, normalize_addr, multiaddr_peer_id, addr_peer_id.
    destruct (last (ma_iter a)) as [[]|] eqn:Hl; rewrite ?last_push; cbn; try done;
      intros _; (split; [apply ma_pop_push | apply peer_of_mh_of_peer]). }
  split; [|exact Hbare]. destruct (ends_in_p2p a) eqn:He.
  - by rewrite normalize_id.
  - destruct (Hbare eq_refl) as [-> _]. unfold without_peer_id, ends_in_p2p in *.
    by destruct (last (ma_iter a)) as [[]|].
Qed.

Lemma normalize_roundtrip_witness :
  without_peer_id (normalize_addr addr_b3 peer_b) = addr_b3 ∧
  multiaddr_peer_id (normalize_addr addr_b3 peer_b) = Some peer_b.
Proof. by apply (normalize_roundtrip addr_b3 peer_b peer_a). Defined.

(** ** Adding addresses *)
Section adding.
Context `{L : Libp2p, C : !Channels Event, F : !Fmt, E : Environment,
          O : HashOrder, P : Profile}.

(** The information recorded about a peer. *)
Definition info_of (s : State) (p : PeerId) : PeerInfo :=
  default PeerInfo_default (peers (book s) !! p).

Lemma undiscovered_spec p s :
  undiscovered p s = true ↔
  ∀ a src, source_at (info_of s p) a = Some src → is_confirmed src = false.
Proof.
  unfold undiscovered, info_of. destruct (peers (book s) !! p) as [i|]; cbn.
  - rewrite bool_decide_eq_true. split.
    + intros Hnil a src Ha. apply not_true_is_false. intros Hc.
      assert (a ∈ confirmed_addresses i) as Hin by (apply elem_of_addresses_by; eauto).
      rewrite Hnil in Hin. by apply not_elem_of_nil in Hin.
    + intros Hall. apply elem_of_nil_inv. intros a Ha.
      apply elem_of_addresses_by in Ha as (src & Hs & Hc).
      by rewrite (Hall _ _ Hs) in Hc.
  - split; [|done]. intros _ a src. unfold source_at. cbn. by rewrite lookup_empty.
Qed.

(** An address is accepted for a remote peer, in a permitted scope, when it is
    not one of our own listen addresses. *)
Definition acceptable (s : State) (p : PeerId) (a : Multiaddr) : Prop :=
  p ≠ local_peer_id (book s) ∧
  (enable_loopback (book s) = true ∨ is_loopback a = false) ∧
  without_peer_id a ∉ listeners (book s).
End adding.

(** C12: adding an acceptable address records it under its full form with the
    better of the old and the new source, leaves every other address and peer alone,
    queues one validation dial of the bare address exactly when the report is news
    about an address that needs probing and that we are not connected to, announces
    [Discovered] when this is the first confirmed address of the peer, and always
    announces [NewInfo]. *)
Theorem add_address_spec `{L : Libp2p, C : !Channels Event, F : !Fmt, E : Environment,
    O : HashOrder, P : Profile} p a src (s : State) :
  acceptable s p a →
  let full := normalize_addr a p in let bare := without_peer_id a in
  let old := source_at (info_of s p) full in
  ∃ s', add_address p a src s = Done s' ∧
    source_at (info_of s' p) full =
      Some (match old with Some o => source_max src o | None => src end) ∧
    (∀ b, b ≠ full → addresses (info_of s' p) !! b = addresses (info_of s p) !! b) ∧
    connections (info_of s' p) = connections (info_of s p) ∧
    (∀ q, q ≠ p → peers (book s') !! q = peers (book s) !! q) ∧
    actions (book s') = actions (book s) ++
      (if wants_probe old src && bool_decide (connections (info_of s p) !! full = None)
       then [MkDial (MkDialOpts p Always [bare])
               (MkInto (Some (full, SIM_OPEN_RETRIES + 1)) false)]
       else []) ∧
    deferred (book s') = deferred (book s) ∧ listeners (book s') = listeners (book s) ∧
    emitted s s' ((if undiscovered p s && is_confirmed src then [Discovered p] else []) ++
                  [NewInfo p]).
Proof.
  intros (Hp & Hl & Hn) full bare old. rewrite add_address_eq by done.
  eexists. split; [reflexivity|].
  cbv zeta.
  match goal with |- context [notify (NewInfo p) (if _ then _ else ?x)] => set (s2 := x) end.
  assert (event_stream (book s2) = event_stream (book s) ∧ chans (world s2) = chans (world s))
    as [Hst Hch] by (unfold s2; by destruct (wants_probe _ _ && _)).
  pose proof (if_notify_core (undiscovered p s && is_confirmed src) (Discovered p) s2) as H3.
  pose proof (notify_core (NewInfo p) (if undiscovered p s && is_confirmed src
                                       then notify (Discovered p) s2 else s2)) as H4.
  assert (same_core s2 (notify (NewInfo p) (if undiscovered p s && is_confirmed src
                                       then notify (Discovered p) s2 else s2)))
    as [Hpe Hli _ Hac Hde _ _] by (etrans; [exact H3 | exact H4]). clear H3 H4.
  unfold info_of. rewrite Hpe, Hli, Hac, Hde.
  assert (peers (book s2) = <[p := with_addresses
    <[full := (merge_source old src, utc (clock_reads (world s)))]> (info_of s p)]>
    (peers (book s))) as -> by (unfold s2; by destruct (wants_probe _ _ && _)).
  rewrite lookup_insert_eq. cbn [from_option id]. split_and!.
  - by rewrite source_at_insert, decide_True.
  - intros b Hb. cbn. by rewrite lookup_insert_ne.
  - done.
  - intros q Hq. by rewrite lookup_insert_ne.
  - unfold s2. destruct (wants_probe _ _ && _); cbn; by rewrite ?app_nil_r.
  - unfold s2. by destruct (wants_probe _ _ && _).
  - unfold s2. by destruct (wants_probe _ _ && _).
  - apply (emitted_after _ s2); [done..|]. apply emitted_if, emitted_notify.
Qed.

Lemma known_info `{L : Libp2p, C : !Channels Event} p (s : State) :
  bool_decide (is_Some (peers (book s) !! p)) = true → peers (book s) !! p = Some (info_of s p).
Proof. rewrite bool_decide_eq_true. unfold info_of. by intros [i ->]. Qed.

Lemma add_address_spec_witness :
  acceptable run2 peer_b addr_b3 ∧
  ∃ s', add_address peer_b addr_b3 Mdns run2 = Done s' ∧
    source_at (info_of s' peer_b) (normalize_addr addr_b3 peer_b) = Some Mdns ∧
    actions (book s') =
      [MkDial (MkDialOpts peer_b Always [addr_b3])
         (MkInto (Some (normalize_addr addr_b3 peer_b, SIM_OPEN_RETRIES + 1)) false)].
Proof.
  assert (acceptable run2 peer_b addr_b3) as Ha.
  { split_and!; [done | by right | by apply (bool_decide_eq_true_1 (_ ∉ _)); vm_compute]. }
  split; [exact Ha|].
  destruct (add_address_spec peer_b addr_b3 Mdns run2 Ha)
    as (s' & E & Hs & _ & _ & _ & Hact & _).
  exists s'. split_and!; [exact E | rewrite Hs; reflexivity | rewrite Hact; reflexivity].
Defined.

(** Without [enable_loopback], an address whose first component is not a
    non-loopback IPv4 address - in particular every IPv6 and every DNS address - is
    treated like a loopback address: adding it, with any source, changes nothing and
    announces nothing. *)
Theorem non_ipv4_ignored `{L : Libp2p, C : !Channels Event, F : !Fmt, E : Environment,
    O : HashOrder, P : Profile} p (a : Multiaddr) src (s : State) :
  enable_loopback (book s) = false →
  (∀ ip, head (ma_iter a) = Some (Ip4 ip) → Ipv4_is_loopback ip = true) →
  add_address p a src s = Done s.
Proof.
  intros He Hip. apply add_address_ignored. right. left. split; [done|].
  unfold is_loopback. destruct (head _) as [[]|]; auto.
Qed.

Definition addr_v6 : Multiaddr := [Ip6 (2 ^ 125 + 1); Tcp 4001].

Lemma non_ipv4_ignored_witness : add_address peer_b addr_v6 User run2 = Done run2.
Proof. apply (non_ipv4_ignored peer_b addr_v6 User run2); done. Defined.

(** ** Pruning *)
Section pruning.
Context `{L : Libp2p, C : !Channels Event, O : HashOrder}.
Implicit Types (i : PeerInfo).

(** Why a peer is kept, read off its record. *)
Definition keep_reason (now : Z) (min_age : Duration) i : Prop :=
  (∃ a, is_Some (connections i !! a)) ∨
  (∃ f fs, failures i = f :: fs ∧ diff_time (cf_time f) now < min_age) ∨
  (∃ a src, source_at i a = Some src ∧ is_confirmed src = true) ∨
  (∃ a src dt, addresses i !! a = Some (src, dt) ∧ is_to_probe src = true ∧
     diff_time dt now < Z.max min_age (from_secs 10)).

Lemma iter_connections_cons i :
  iter_connections i ≠ [] ↔ ∃ a, is_Some (connections i !! a).
Proof.
  split.
  - unfold iter_connections. intros Hne.
    destruct (hm_iter (connections i)) as [|[a v] l] eqn:El; [done|].
    exists a, v. apply elem_of_hm_iter. rewrite El. by apply list_elem_of_here.
  - unfold iter_connections. intros [a [v Ha%elem_of_hm_iter]].
    destruct (hm_iter (connections i)); [by apply not_elem_of_nil in Ha | done].
Qed.

Lemma keep_peer_spec now min_age i :
  keep_peer now min_age i = true ↔ keep_reason now min_age i.
Proof.
  unfold keep_peer, recent_failures.
  rewrite !orb_true_iff, negb_true_iff, bool_decide_eq_false, iter_connections_cons.
  rewrite existsb_exists. split.
  - intros [[Hc | Hf] | ([[a src] dt] & Hin & Hk)].
    + by left.
    + right; left. destruct (failures i) as [|f fs]; [done|].
      apply bool_decide_eq_true in Hf. eauto.
    + unfold iter_addresses in Hin. apply list_elem_of_In, list_elem_of_fmap in Hin
        as ([a' [src' dt']] & [= -> -> ->] & Hin%elem_of_hm_iter).
      apply orb_true_iff in Hk as [Hk | [Hk Hd]%andb_true_iff].
      * right; right; left. exists a', src'. unfold source_at. by rewrite Hin.
      * apply bool_decide_eq_true in Hd. right; right; right. eauto 10.
  - intros [Hc | [(f & fs & -> & Hf) | [(a & src & Hs & Hc) | (a & src & dt & Ha & Hp & Hd)]]].
    + auto.
    + left; right. by apply bool_decide_eq_true.
    + right. unfold source_at in Hs. apply fmap_Some in Hs as ([s' dt] & Ha & ->).
      exists (a, s', dt). cbn in Hc. rewrite Hc. split; [|done].
      apply list_elem_of_In, list_elem_of_fmap. exists (a, (s', dt)).
      by rewrite elem_of_hm_iter.
    + right. exists (a, src, dt). rewrite Hp, bool_decide_true by done.
      split; [|by rewrite orb_true_r].
      apply list_elem_of_In, list_elem_of_fmap. exists (a, (src, dt)).
      by rewrite elem_of_hm_iter.
Qed.

Lemma prune_loop ps s :
  let s' := foldl (λ s peer, notify (NewInfo peer) (set_peers (delete peer) s)) s ps in
  (∀ p, peers (book s') !! p = if decide (p ∈ ps) then None else peers (book s) !! p) ∧
  emitted s s' (NewInfo <$> ps) ∧
  actions (book s') = actions (book s) ∧ deferred (book s') = deferred (book s) ∧
  listeners (book s') = listeners (book s).
Proof.
  revert s. induction ps as [|q ps IH]; intros s; cbn.
  - split_and!; try done. by apply emitted_silent.
  - pose proof (notify_core (NewInfo q) (set_peers (delete q) s)) as [Hp Hl _ Ha Hd _ _].
    destruct (IH (notify (NewInfo q) (set_peers (delete q) s))) as (Hp' & He & Ha' & Hd' & Hl').
    split_and!; [| | by rewrite ?Ha', ?Hd', ?Hl', ?Ha, ?Hd, ?Hl ..].
    + intros p. rewrite Hp', Hp. cbn. rewrite lookup_delete. repeat case_decide; set_solver.
    + eapply (emitted_trans _ _ _ [NewInfo q]); [|exact He].
      eapply emitted_after, emitted_notify; done.
Qed.
End pruning.

(** C24: pruning removes exactly the peers for which there is no reason to stay -
    no open connection, no failure younger than [min_age], no confirmed address, no
    address reported within [max(min_age, 10s)] that is still to be probed - keeps the
    records of all others unchanged, announces [NewInfo] exactly once for each removed
    peer, and touches no dial, listener or subscription. *)
Theorem prune_peers_spec `{L : Libp2p, C : !Channels Event, E : Environment,
    O : HashOrder} min_age (s : State) :
  let now := utc (clock_reads (world s)) in
  let s' := prune_peers min_age s in
  (∀ p i, peers (book s) !! p = Some i → keep_reason now min_age i →
     peers (book s') !! p = Some i) ∧
  (∀ p i, peers (book s') !! p = Some i →
     peers (book s) !! p = Some i ∧ keep_reason now min_age i) ∧
  (∃ gone, NoDup gone ∧ emitted s s' (NewInfo <$> gone) ∧
     ∀ p, p ∈ gone ↔ is_Some (peers (book s) !! p) ∧ peers (book s') !! p = None) ∧
  actions (book s') = actions (book s) ∧ deferred (book s') = deferred (book s) ∧
  listeners (book s') = listeners (book s).
Proof.
  intros now s'. unfold s', prune_peers. cbn [utc_now].
  match goal with |- context [foldl _ ?x ?l] => set (s1 := x); set (gone := l) end.
  destruct (prune_loop gone s1) as (Hp & He & Ha & Hd & Hl).
  assert (∀ p, p ∈ gone ↔ ∃ i, peers (book s) !! p = Some i ∧ keep_peer now min_age i = false)
    as Hgone.
  { intros p. unfold gone. rewrite list_elem_of_fmap. split.
    - intros ([q i] & -> & [Hk Hin%elem_of_hm_iter]%list_elem_of_filter). eauto.
    - intros (i & Hi & Hk). exists (p, i). split; [done|].
      apply list_elem_of_filter. by rewrite elem_of_hm_iter. }
  split_and!; try done.
  - intros p i Hi Hk%keep_peer_spec. rewrite Hp, decide_False; [done|].
    rewrite Hgone. intros (? & ? & ?). change (peers (book s1)) with (peers (book s)) in *.
    congruence.
  - intros p i. rewrite Hp. case_decide as Hin; [done|]. intros Hi. split; [done|].
    apply keep_peer_spec. apply not_false_is_true. intros Hk. apply Hin, Hgone. eauto.
  - exists gone. split_and!.
    + unfold gone. apply NoDup_fmap_fst; [|apply NoDup_filter; rewrite hm_iter_perm; apply NoDup_map_to_list].
      intros p i1 i2 [_ H1%elem_of_hm_iter]%list_elem_of_filter
        [_ H2%elem_of_hm_iter]%list_elem_of_filter. congruence.
    + eapply emitted_after; [..|exact He]; done.
    + intros p. rewrite Hp. split.
      * intros Hin. rewrite decide_True by done. apply Hgone in Hin as (i & -> & _).
        split; [by eexists | done].
      * intros [Hs Hn]. case_decide; [done|]. destruct Hs as [i Hi].
        change (peers (book s1)) with (peers (book s)) in Hn. congruence.
Qed.

Lemma prune_peers_spec_witness :
  ∃ gone, emitted run4 (prune_peers 0 run4) (NewInfo <$> gone) ∧
    ∀ p, p ∈ gone ↔ is_Some (peers (book run4) !! p) ∧ peers (book (prune_peers 0 run4)) !! p = None.
Proof.
  destruct (prune_peers_spec 0 run4) as (_ & _ & (gone & _ & H1 & H2) & _). by exists gone.
Defined.
