(* ===== verification/PeersConn.v ===== *)
(** * The connection table refines the set of open connections

    The abstract view of [src/net/peers.rs] that clients such as
    [NetworkService::is_connected] rely on: the pairs of peer and remote address
    between which a connection is open.  Every entry point of the address book
    implements the corresponding operation on that set. *)

From S2P Require Import Prelude Libp2p Duration PeerInfo AddressHandler Channel Peers PeersInv.
From S2P Require Import PeersReach PeersSpec.

Open Scope Z_scope.

Section conn.
Context `{L : Libp2p, C : !Channels Event, F : !Fmt, E : Environment,
          O : HashOrder, P : Profile}.
Implicit Types (s : State) (i : PeerInfo).

(** ** The abstract specification *)

(** The key under which a connection to [p] is filed. *)
Definition conn_key (p : PeerId) (cp : ConnectedPoint) : PeerId * Multiaddr :=
  (p, normalize_addr (get_remote_address cp) p).

Definition conn_effect (open : gset (PeerId * Multiaddr)) (l : label)
    : gset (PeerId * Multiaddr) :=
  match l with
  | Quiet | Elsewhere _ => open
  | Opened p cp => {[ conn_key p cp ]} ∪ open
  | Closed p cp => open ∖ {[ conn_key p cp ]}
  | Moved p old new => {[ conn_key p new ]} ∪ (open ∖ {[ conn_key p old ]})
  end.

(** ** The refinement relation *)

Definition connected s (x : PeerId * Multiaddr) : Prop :=
  is_Some (connections (info_of s x.1) !! x.2).

Definition conn_rel s (open : gset (PeerId * Multiaddr)) : Prop :=
  ∀ x, connected s x ↔ x ∈ open.

(** States with the same connections. *)
Definition same_conns s s' : Prop :=
  ∀ p, connections (info_of s' p) = connections (info_of s p).

#[local] Instance same_conns_preorder : PreOrder same_conns.
Proof.
  split; [by intros s p|]. intros s1 s2 s3 H12 H23 p. by rewrite (H23 p).
Qed.

Lemma same_peers_conns s s' : peers (book s') = peers (book s) → same_conns s s'.
Proof. intros Hp p. unfold info_of. by rewrite Hp. Qed.

Lemma info_of_insert p i s q :
  info_of (set_peers <[p := i]> s) q = if decide (p = q) then i else info_of s q.
Proof. unfold info_of. cbn. rewrite lookup_insert. by case_decide. Qed.

Lemma insert_conns p i s :
  connections i = connections (info_of s p) → same_conns s (set_peers <[p := i]> s).
Proof. intros Hi q. rewrite info_of_insert. case_decide; by subst. Qed.

Lemma info_of_entry p f s q :
  info_of (entry_or_default p f s) q =
    if decide (p = q) then f (info_of s p) else info_of s q.
Proof. unfold info_of. cbn. rewrite lookup_insert. by case_decide. Qed.

Lemma known_info_of p i s : peers (book s) !! p = Some i → info_of s p = i.
Proof. unfold info_of. by intros ->. Qed.

Lemma notify_conns e s : same_conns s (notify e s).
Proof. apply same_peers_conns, notify_core. Qed.

Lemma notify_all_conns es s : same_conns s (notify_all es s).
Proof. apply same_peers_conns, notify_all_core. Qed.

Lemma if_notify_conns (b : bool) e s : same_conns s (if b then notify e s else s).
Proof. destruct b; [apply notify_conns | reflexivity]. Qed.

(** ** Quiet operations *)

Lemma dial_conns p s : same_conns s (dial p s).
Proof. apply same_peers_conns. unfold dial. by case_match. Qed.

Lemma dial_address_conns p a s : same_conns s (dial_address p a s).
Proof.
  unfold dial_address. case_bool_decide; [done|].
  assert (same_conns s (entry_or_default p id s)) as Hs.
  { intros q. rewrite info_of_entry. case_decide; by subst. }
  destruct (peers _ !! p); [|exact Hs]. case_bool_decide; [exact Hs|].
  etrans; [exact Hs | by apply same_peers_conns].
Qed.

Lemma add_address_conns p a src s s' : add_address p a src s = Done s' → same_conns s s'.
Proof.
  destruct (add_address_cases p a s) as [Hc | (Hp & Hl & Hn)].
  { rewrite add_address_ignored by done. by intros [= <-]. }
  rewrite add_address_eq by done. cbv zeta. intros [= <-].
  etrans; [|apply notify_conns]. etrans; [|apply if_notify_conns].
  match goal with |- same_conns s (if ?b then push_action _ ?x else _) =>
    trans x; [|by apply same_peers_conns; destruct b] end.
  intros q. unfold info_of at 1. cbn. rewrite lookup_insert. case_decide; by subst.
Qed.

Lemma remove_address_conns p a s : same_conns s (remove_address p a s).
Proof.
  unfold remove_address. case_match eqn:Ep; [|done].
  apply insert_conns. by rewrite (known_info_of _ _ _ Ep).
Qed.

(** A peer with a connection is never pruned; pruned peers have none. *)
Lemma prune_peers_conns min_age s : same_conns s (prune_peers min_age s).
Proof.
  unfold prune_peers. cbn [utc_now].
  match goal with |- context [foldl _ ?x ?l] => set (s1 := x); set (gone := l) end.
  destruct (prune_loop gone s1) as (Hp & _). intros p. unfold info_of.
  rewrite Hp. case_decide as Hin; [|done].
  apply list_elem_of_fmap in Hin as ([q i] & -> & [Hk Hin%elem_of_hm_iter]%list_elem_of_filter).
  cbn in *. rewrite Hin. cbn.
  symmetry. apply map_empty. intros a. apply eq_None_not_Some. intros Ha.
  apply not_true_iff_false in Hk. apply Hk, keep_peer_spec. left. eauto.
Qed.

Lemma book_set_rtt_conns p r s s' : book_set_rtt p r s = Done s' → same_conns s s'.
Proof.
  unfold book_set_rtt. case_match eqn:Ep; [|by intros [= <-]].
  rewrite bind_Done. intros (i' & Ei & [= <-]).
  etrans; [|apply notify_conns]. apply insert_conns. rewrite (known_info_of _ _ _ Ep).
  unfold PeerInfo.set_rtt in Ei.
  repeat case_match; rewrite ?bind_Done in Ei; naive_solver.
Qed.

Lemma ingest_conns now a src i b i' :
  ingest_address now a src i = Done (b, i') → connections i' = connections i.
Proof.
  unfold ingest_address. repeat case_match; rewrite ?bind_Done; naive_solver.
Qed.

Lemma ingest_derived_conns p acc a r :
  ingest_derived p acc a = Done r →
  connections r.1 = connections acc.1 ∧ peers (book r.2) = peers (book acc.2).
Proof.
  destruct acc as [i s]. unfold ingest_derived.
  case_bool_decide; [by intros [= <-]|]. cbn [utc_now]. rewrite bind_Done.
  intros ([b i1] & E1%ingest_conns & Hk). destruct b; [|by simplify_eq].
  case_match; [|by simplify_eq].
  rewrite bind_Done in Hk. destruct Hk as ([b2 i2] & E2%ingest_conns & [= <-]).
  cbn. split; [congruence | done].
Qed.

Lemma ingest_derived_loop p tr acc r :
  foldM (ingest_derived p) tr acc = Done r →
  connections r.1 = connections acc.1 ∧ peers (book r.2) = peers (book acc.2).
Proof.
  revert acc. induction tr as [|a tr IH]; intros acc; cbn; [by intros [= <-]|].
  rewrite bind_Done. intros (r1 & [H1 H2]%ingest_derived_conns & [H3 H4]%IH). split; congruence.
Qed.

Lemma set_info_conns p id s s' : set_info p id s = Done s' → same_conns s s'.
Proof.
  unfold set_info. case_match eqn:Ep; [|by intros [= <-]].
  rewrite bind_Done. intros (tr & _ & Hk). rewrite bind_Done in Hk.
  destruct Hk as ([i' s1] & [Hc Hp]%ingest_derived_loop & [= <-]). cbn in Hc, Hp.
  etrans; [|apply notify_conns]. trans s1; [by apply same_peers_conns|].
  apply insert_conns. unfold info_of. rewrite Hp, Ep. done.
Qed.

Lemma defer_conns act s s' : defer act s = Done s' → same_conns s s'.
Proof. rewrite defer_eq. intros [= <-]. by apply same_peers_conns. Qed.

Lemma defer_all_conns acts s s' :
  foldM (λ s act, defer act s) acts s = Done s' → same_conns s s'.
Proof.
  revert s. induction acts as [|act acts IH]; intros s; cbn; [by intros [= <-]|].
  rewrite bind_Done. intros (s1 & H1%defer_conns & H2%IH). by etrans.
Qed.

Lemma validation_failure_conns p i addr r keep err s s' :
  peers (book s) !! p = Some i →
  validation_failure p i addr r keep err s = Done s' → same_conns s s'.
Proof.
  intros Ep. unfold validation_failure. cbn [utc_now].
  match goal with |- context [set_peers <[p := ?i']> ?s0] =>
    assert (same_conns s (set_peers <[p := i']> s0)) as Hs1; [|generalize dependent i'] end.
  { apply (insert_conns p _ s). rewrite (known_info_of _ _ _ Ep).
    destruct (is_wrong_peer err); cbn [with_addresses connections];
      by rewrite push_failure_connections. }
  intros i' Hs1. rewrite bind_Done. intros (s2 & Hk & [= <-]).
  etrans; [|apply notify_conns]. etrans; [|apply notify_conns].
  etrans; [exact Hs1|]. destruct (_ && _); [|by simplify_eq].
  rewrite bind_Done in Hk. destruct Hk as (? & _ & Hk). by eapply defer_conns.
Qed.

Lemma transport_loop_conns p v i s es rs :
  let '(i', s', _, _) := foldl (transport_failure p) (i, s, es, rs) v in
  connections i' = connections i ∧ peers (book s') = peers (book s).
Proof.
  revert i s es rs. induction v as [|[a e] v IH]; intros i s es rs; cbn; [done|].
  match goal with |- context [foldl _ (?x1, ?x2, ?x3, ?x4) v] =>
    specialize (IH x1 x2 x3 x4) end.
  destruct (foldl _ _ v) as [[[i' s'] es'] rs']. by rewrite push_failure_connections in IH.
Qed.

Lemma transport_failures_conns p i v s s' :
  peers (book s) !! p = Some i → transport_failures p i v s = Done s' → same_conns s s'.
Proof.
  intros Ep. unfold transport_failures.
  pose proof (transport_loop_conns p v i s [] []) as Hl.
  destruct (foldl _ _ v) as [[[i' s1] es'] rs']. destruct Hl as [Hc Hp].
  rewrite bind_Done. intros (s2 & Hk%defer_all_conns & [= <-]).
  etrans; [|apply notify_conns]. etrans; [|exact Hk]. etrans; [|apply if_notify_conns].
  etrans; [|apply notify_all_conns]. trans s1; [by apply same_peers_conns|].
  apply insert_conns. unfold info_of. by rewrite Hp, Ep.
Qed.

Lemma inject_dial_failure_conns op h err s s' :
  inject_dial_failure op h err s = Done s' → same_conns s s'.
Proof.
  unfold inject_dial_failure. intros H.
  repeat case_match; simplify_eq; try done; try apply notify_conns;
    eauto using validation_failure_conns, transport_failures_conns.
Qed.

Lemma poll_conns params ready s : same_conns s (poll params ready s).2.
Proof. apply same_peers_conns. unfold poll. by repeat (case_match; cbn). Qed.

(** ** Operations on connections *)

Lemma connected_same s s' x : same_conns s s' → connected s' x ↔ connected s x.
Proof. intros H. unfold connected. by rewrite H. Qed.

Lemma remote_key cp local p :
  get_remote_address (normalize_connected_point cp local p) = (conn_key p cp).2.
Proof. by destruct cp; cbn; rewrite normalize_addr_ref_owned. Qed.

Lemma connected_entry p f s x :
  connected (entry_or_default p f s) x ↔
    if decide (p = x.1) then is_Some (connections (f (info_of s p)) !! x.2)
    else connected s x.
Proof. unfold connected. rewrite info_of_entry. by case_decide. Qed.

Lemma closed_connected p cp n err s x :
  connected (connection_closed p cp n err s) x ↔ connected s x ∧ x ≠ conn_key p cp.
Proof.
  unfold connection_closed. destruct (close_reason err) as [reason them]. cbn [utc_now].
  rewrite (connected_same _ _ _ (notify_conns _ _)),
    (connected_same _ _ _ (if_notify_conns _ _ _)), (connected_same _ _ _ (notify_conns _ _)).
  rewrite connected_entry, push_failure_connections, remote_key. cbn.
  destruct x as [q b]. cbn. case_decide; subst; unfold connected; cbn.
  - rewrite lookup_delete. case_decide as Hd; subst.
    + split; [by intros [??] | by intros [? []]].
    + split; [|by intros []]. intros ?. split; [done|]. by intros [= ->].
  - split; [|by intros []]. intros ?. split; [done|]. by intros [= ? ->].
Qed.

Lemma established_connected p cp n s s' x :
  inject_connection_established p cp n s = Done s' →
  connected s' x ↔ x = conn_key p cp ∨ connected s x.
Proof.
  unfold inject_connection_established. rewrite bind_Done.
  intros (s1 & H1%add_address_conns & [= <-]). cbn [utc_now].
  rewrite (connected_same _ _ _ (notify_conns _ _)),
    (connected_same _ _ _ (if_notify_conns _ _ _)).
  rewrite connected_entry, remote_key. rewrite <- (connected_same _ _ x H1).
  destruct x as [q b]. cbn. case_decide; subst; unfold connected; cbn.
  - rewrite lookup_insert. case_decide as Hd; subst.
    + split; [by left | by eexists].
    + split; [by right|]. by intros [[= ->]|].
  - split; [by right|]. by intros [[= ->]|].
Qed.

Lemma moved_connected p old new s s' x :
  inject_address_change p old new s = Done s' →
  connected s' x ↔ x = conn_key p new ∨ (connected s x ∧ x ≠ conn_key p old).
Proof.
  unfold inject_address_change. rewrite bind_Done.
  intros (s1 & H1%add_address_conns & [= <-]). cbn [utc_now].
  rewrite (connected_same _ _ _ (notify_conns _ _)).
  rewrite connected_entry, !remote_key. rewrite <- (connected_same _ _ x H1).
  destruct x as [q b]. cbn. case_decide; subst; unfold connected; cbn.
  - rewrite lookup_insert, lookup_delete. repeat case_decide; subst.
    + split; [by left | by eexists].
    + split; [by intros [??]|]. intros [[=]|[? []]]; by try congruence.
    + split; [intros ?; right; split; [done|]; by intros [= ->]|].
      by intros [[= ->]|[]].
  - split; [intros ?; right; split; [done|]; by intros [= ->]|]. by intros [[= ->]|[]].
Qed.

(** ** Simulation *)

Lemma quiet_rel s s' open : same_conns s s' → conn_rel s open → conn_rel s' open.
Proof. intros H Hr x. by rewrite (connected_same _ _ _ H). Qed.

Lemma conn_step l s s' open :
  book_step l s s' → conn_rel s open → conn_rel s' (conn_effect open l).
Proof.
  intros Hstep Hr. destruct Hstep; cbn [conn_effect];
    try (by eapply quiet_rel; [|exact Hr];
         first [ apply dial_conns | apply dial_address_conns | apply remove_address_conns
               | apply prune_peers_conns | apply poll_conns
               | eapply add_address_conns; eassumption
               | eapply book_set_rtt_conns; eassumption
               | eapply set_info_conns; eassumption
               | eapply inject_dial_failure_conns; eassumption
               | by apply same_peers_conns
               | etrans; [|apply notify_conns]; by apply same_peers_conns; repeat case_match ]).
  - intros x. rewrite closed_connected, (Hr x). set_solver.
  - intros x. rewrite established_connected, (Hr x) by done. set_solver.
  - intros x. rewrite moved_connected, (Hr x) by done. set_solver.
Qed.

Lemma conn_run s ls s' open :
  run s ls s' → conn_rel s open → conn_rel s' (foldl conn_effect open ls).
Proof. intros H. revert open. induction H; cbn; eauto using conn_step. Qed.

Lemma fresh_rel local pr lb ka w : conn_rel (fresh local pr lb ka w) ∅.
Proof.
  intros x. unfold connected, info_of. cbn. rewrite lookup_empty. cbn.
  rewrite lookup_empty. split; [by intros [??] | set_solver].
Qed.
End conn.

(** C5: on every run of the address book from its creation, the recorded
    connections are exactly the pairs of peer and remote address obtained by replaying
    the swarm's reports on a plain set - opening inserts, closing removes, an address
    change replaces - whatever other operations (adding and removing addresses, dial
    failures, identify, pruning, ...) happen in between. *)
Theorem connections_refine `{L : Libp2p, C : !Channels Event, F : !Fmt, E : Environment,
    O : HashOrder, P : Profile} local pr lb ka w ls (s : State) :
  run (fresh local pr lb ka w) ls s →
  ∀ p a, is_Some (connections (info_of s p) !! a) ↔ (p, a) ∈ foldl conn_effect ∅ ls.
Proof.
  intros Hrun p a. apply (conn_run _ _ _ ∅ Hrun (fresh_rel local pr lb ka w) (p, a)).
Qed.

Lemma connections_refine_witness :
  run start labels0 run6 ∧ is_Some (connections (info_of run6 peer_b) !! addr_b1).
Proof.
  split; [exact run_labels0|].
  apply (connections_refine peer_a false false false world0 labels0 run6 run_labels0).
  by apply (bool_decide_eq_true_1 (_ ∈ _)); vm_compute.
Defined.

(** Connections are filed under their remote address only: when a second
    connection to the same address of the same peer is open, closing one of the two
    removes the entry, although one connection is left. *)
Theorem second_connection_forgotten `{L : Libp2p, C : !Channels Event, F : !Fmt,
    E : Environment, O : HashOrder, P : Profile} p cp err (s s1 s2 : State) :
  inject_connection_established p cp 0 s = Done s1 →
  inject_connection_established p cp 1 s1 = Done s2 →
  connected s2 (conn_key p cp) ∧ ¬ connected (connection_closed p cp 1 err s2) (conn_key p cp).
Proof.
  intros H1 H2. rewrite (established_connected _ _ _ _ _ _ H2), closed_connected. naive_solver.
Qed.

Definition dup1 : State := force (inject_connection_established peer_b cp_in 0 run2).
Definition dup2 : State := force (inject_connection_established peer_b cp_in 1 dup1).

Lemma second_connection_forgotten_witness :
  connected dup2 (conn_key peer_b cp_in) ∧
  ¬ connected (connection_closed peer_b cp_in 1 None dup2) (conn_key peer_b cp_in).
Proof.
  apply (second_connection_forgotten peer_b cp_in None run2 dup1 dup2);
    apply force_Done; by vm_compute.
Defined.
