(* ===== verification/PeersDial.v ===== *)
(** * Dials: validation failures, redials, the action queue

    What [inject_dial_failure] and [poll] of [src/net/peers.rs] do: failed probes
    forget addresses, TCP simultaneous open is retried a bounded number of times,
    and the swarm receives the queued dials in order. *)

From S2P Require Import Prelude Libp2p Duration PeerInfo AddressHandler Channel Peers PeersInv.
From S2P Require Import PeersReach PeersSpec.

Open Scope Z_scope.

Section dial_failures.
Context `{L : Libp2p, C : !Channels Event, F : !Fmt, E : Environment,
          O : HashOrder, P : Profile}.
Implicit Types (s : State) (i : PeerInfo).

(** Some address of the dial failed with a simultaneous open. *)
Definition sim_opened (error : DialError) : bool :=
  match error with Transport v => existsb (λ x, is_sim_open x.2) v | _ => false end.

(** Errors that say something about the address itself. *)
Definition probe_failed (error : DialError) : bool :=
  is_transport error || is_wrong_peer error || is_connection_io error.

Definition redial_of (peer : PeerId) (addr : Multiaddr) (retries : Z) (keep : bool)
    : DialAction :=
  MkDial (MkDialOpts peer CondDisconnected [addr]) (MkInto (Some (addr, retries)) keep).

(** The delay drawn for the next redial. *)
Definition next_delay s : Duration :=
  NANOS_PER_SEC * random_u32 (random_reads (world s)) / (2 ^ 32 - 1).

Lemma push_failure_source addr f b i a :
  info_wf i →
  source_at (push_failure addr f b i) a =
    if b && probing i addr && bool_decide (a = addr) then None else source_at i a.
Proof.
  intros Hi. rewrite push_failure_fields by apply Hi. unfold source_at.
  destruct (b && _); cbn; [|done].
  rewrite lookup_delete. case_bool_decide; case_decide; naive_solver.
Qed.

Lemma defer_if (b : bool) act s :
  (if b then defer act s else Done s) =
  Done (if b then set_deferred (λ l, l ++ [(next_delay s, act)]) (rand_u32 s).2 else s).
Proof. destruct b; [apply defer_eq | done]. Qed.

(** The closed form of a failed validation dial. *)
Lemma validation_failure_eq p i addr r keep err s :
  0 ≤ r < 2 ^ 8 →
  validation_failure p i addr r keep err s =
    let failure := failure_dial (utc (clock_reads (world s))) (without_peer_id addr) err in
    let i' := push_failure addr failure (probe_failed err) i in
    let i'' := if is_wrong_peer err then with_addresses (delete addr) i' else i' in
    let s1 := set_peers <[p := i'']> (utc_now s).2 in
    let s2 := if sim_opened err && bool_decide (0 < r)
              then set_deferred (λ l, l ++ [(next_delay s, redial_of p addr (r - 1) keep)])
                     (rand_u32 s1).2
              else s1 in
    Done (notify (NewInfo p) (notify (DialFailure p addr (display_dial err)) s2)).
Proof.
  intros Hr. unfold validation_failure, sub_u, probe_failed, sim_opened. cbn [utc_now].
  case_bool_decide as H0; rewrite ?andb_true_r, ?andb_false_r; [|done].
  rewrite checked_fits by lia. cbn [mbind outcome_bind].
  by rewrite defer_if.
Qed.

Lemma next_delay_range s : 0 ≤ next_delay s ≤ from_secs 1.
Proof. by apply redial_delay_spec, random_u32_range. Qed.
End dial_failures.

(** C11: after a failed dial that the book had started to validate [addr]: the
    address is forgotten when somebody else answered, or when the error concerns the
    address and the address is not confirmed by a user or a successful dial; every
    other address stays; the failure heads the history of the ten latest; exactly when
    the failure is a TCP simultaneous open and retries are left, one redial with one
    retry less is scheduled within a second; subscribers see [DialFailure] and
    [NewInfo]; nothing panics. *)
Theorem validation_failure_spec `{L : Libp2p, C : !Channels Event, F : !Fmt,
    E : Environment, O : HashOrder, P : Profile} op p addr retries keep err i (s : State) :
  book_wf s → peers (book s) !! p = Some i → multiaddr_peer_id addr = Some p →
  0 ≤ retries ≤ SIM_OPEN_RETRIES + 1 →
  ∃ s', inject_dial_failure op (MkInto (Some (addr, retries)) keep) err s = Done s' ∧
    source_at (info_of s' p) addr =
      (if is_wrong_peer err ||
          (probe_failed err && match source_at i addr with
                               | Some (Listen | Kad | Mdns | Candidate) => true
                               | _ => false end)
       then None else source_at i addr) ∧
    (∀ b, b ≠ addr → source_at (info_of s' p) b = source_at i b) ∧
    (∀ q, q ≠ p → peers (book s') !! q = peers (book s) !! q) ∧
    failures (info_of s' p) =
      take 10 (failure_dial (utc (clock_reads (world s))) (without_peer_id addr) err
               :: failures i) ∧
    deferred (book s') = deferred (book s) ++
      (if sim_opened err && bool_decide (0 < retries)
       then [(next_delay s, redial_of p addr (retries - 1) keep)] else []) ∧
    0 ≤ next_delay s ≤ from_secs 1 ∧
    actions (book s') = actions (book s) ∧
    emitted s s' [DialFailure p addr (display_dial err); NewInfo p].
Proof.
  intros Hwf Hi Hp Hr. pose proof (info_of_wf _ _ _ Hwf Hi) as Hiwf.
  unfold inject_dial_failure, handler_peer_id. cbn [ih_own_dial ih_keep_alive mbind option_bind].
  unfold multiaddr_peer_id in Hp. rewrite Hp, Hi.
  rewrite validation_failure_eq by (unfold SIM_OPEN_RETRIES in *; lia). cbv zeta.
  set (i' := push_failure _ _ _ i).
  match goal with |- context [notify (DialFailure _ _ _) ?x] => set (s2 := x) end.
  eexists. split; [reflexivity|].
  assert (same_core s2 (notify (NewInfo p) (notify (DialFailure p addr (display_dial err)) s2)))
    as [Hpe _ _ Hac Hde _ _] by (etrans; apply notify_core).
  assert (peers (book s2) = <[p := if is_wrong_peer err then with_addresses (delete addr) i'
                                   else i']> (peers (book s))) as Hs2
    by (unfold s2; by destruct (_ && _)).
  unfold info_of. rewrite Hpe, Hac, Hde, Hs2, lookup_insert_eq. cbn [from_option id].
  assert (∀ a, source_at i' a = if probe_failed err && probing i addr && bool_decide (a = addr)
                                then None else source_at i a) as Hsrc
    by (intros; by apply push_failure_source).
  split_and!; try apply next_delay_range.
  - unfold source_at in *. destruct (is_wrong_peer err); cbn.
    { by rewrite lookup_delete_eq. }
    rewrite Hsrc, bool_decide_true, andb_true_r by done. unfold probing, source_at.
    by destruct (_ <$> _) as [[]|].
  - intros b Hb. transitivity (source_at i' b).
    { unfold source_at. destruct (is_wrong_peer err); cbn; [|done]. by rewrite lookup_delete_ne. }
    rewrite Hsrc, bool_decide_false, andb_false_r by done. done.
  - intros q Hq. by rewrite lookup_insert_ne.
  - transitivity (failures i'); [by destruct (is_wrong_peer err)|].
    unfold i'. rewrite push_failure_fields by apply Hiwf.
    by destruct (probe_failed err && probing i addr).
  - unfold s2. destruct (_ && _); cbn; by rewrite ?app_nil_r.
  - unfold s2. by destruct (_ && _).
  - eapply (emitted_after _ s2); [unfold s2; by destruct (_ && _)..|].
    eapply (emitted_trans _ _ _ [_] [_]); apply emitted_notify.
Qed.

(** A Noise handshake that met another initiator. *)
Definition sim_open_error : TransportError :=
  let io k inner := MkIoError k inner "" in
  TransportOther (io OtherKind (DynDns (DnsTransport (io OtherKind
    (DynTransport (TOther (ErrA_B (UpgradeApply (NoiseIo (io InvalidData NoInner)))))))))).

Definition full_b3 : Multiaddr := normalize_addr addr_b3 peer_b.


Lemma validation_failure_spec_witness :
  ∃ s', inject_dial_failure None (MkInto (Some (full_b3, 11)) false)
          (Transport [(addr_b3, sim_open_error)]) run6 = Done s' ∧
    source_at (info_of s' peer_b) full_b3 = None ∧
    deferred (book s') = [(next_delay run6, redial_of peer_b full_b3 10 false)].
Proof.
  destruct (validation_failure_spec None peer_b full_b3 11 false
    (Transport [(addr_b3, sim_open_error)]) (info_of run6 peer_b) run6)
    as (s' & Hd & Hs & _ & _ & _ & Hde & _).
  - apply reachable_book_wf, run_reachable.
  - apply known_info. by vm_compute.
  - reflexivity.
  - by vm_compute.
  - exists s'. split_and!; [exact Hd | | ].
    + rewrite Hs. by vm_compute.
    + rewrite Hde. by vm_compute.
Defined.

(** ** Redials of a simultaneous open *)
Section redials.
Context `{L : Libp2p, C : !Channels Event, F : !Fmt, E : Environment,
          O : HashOrder, P : Profile}.
Implicit Types (s : State) (h : IntoAddressHandler).

(** A failure of the dial with handler [h] schedules a redial with handler [h']. *)
Definition redials h h' : Prop :=
  ∃ op err s s' new x, book_wf s ∧ inject_dial_failure op h err s = Done s' ∧
    deferred (book s') = deferred (book s) ++ new ∧ x ∈ new ∧ h' = dial_handler x.2.

Definition budget h : Z :=
  match ih_own_dial h with Some (_, r) => r | None => SIM_OPEN_RETRIES + 1 end.

(** [act] may follow a failed dial with handler [h]. *)
Definition cheaper h (x : Duration * DialAction) : Prop :=
  0 ≤ budget (dial_handler x.2) ∧ budget (dial_handler x.2) < budget h.

Definition adds_cheaper h s s' : Prop :=
  ∃ new, deferred (book s') = deferred (book s) ++ new ∧ Forall (cheaper h) new.

Lemma same_deferred_adds h s s' : deferred (book s') = deferred (book s) → adds_cheaper h s s'.
Proof. intros H. exists []. by rewrite H, app_nil_r. Qed.

Lemma adds_trans h s1 s2 s3 :
  adds_cheaper h s1 s2 → adds_cheaper h s2 s3 → adds_cheaper h s1 s3.
Proof.
  intros (n1 & H1 & F1) (n2 & H2 & F2). exists (n1 ++ n2).
  rewrite H2, H1, app_assoc. split; [done|]. by apply Forall_app.
Qed.

Lemma notify_adds h e s : adds_cheaper h s (notify e s).
Proof. apply same_deferred_adds, notify_core. Qed.

Lemma validation_adds p i addr r keep err s s' :
  0 ≤ r ≤ SIM_OPEN_RETRIES + 1 →
  validation_failure p i addr r keep err s = Done s' →
  adds_cheaper (MkInto (Some (addr, r)) keep) s s'.
Proof.
  intros Hr. rewrite validation_failure_eq by (unfold SIM_OPEN_RETRIES in *; lia).
  cbv zeta. intros [= <-].
  eapply adds_trans; [|apply notify_adds]. eapply adds_trans; [|apply notify_adds].
  destruct (sim_opened err && _) eqn:Hb; [|by apply same_deferred_adds].
  apply andb_true_iff in Hb as [_ Hpos%bool_decide_eq_true].
  eexists. split; [reflexivity|]. constructor; [|constructor].
  unfold cheaper, budget. cbn. lia.
Qed.

Lemma defer_all_adds acts s s' :
  foldM (λ s act, defer act s) acts s = Done s' →
  ∃ new, deferred (book s') = deferred (book s) ++ new ∧ new.*2 = acts.
Proof.
  revert s. induction acts as [|act acts IH]; intros s; cbn [foldM].
  - intros [= <-]. exists []. by rewrite app_nil_r.
  - rewrite defer_eq. cbn [mbind outcome_bind]. intros (new & Hn & Hm)%IH.
    eexists (_ :: new). rewrite Hn. cbn. rewrite <- app_assoc. split; [done|]. by rewrite Hm.
Qed.

Lemma transport_loop_adds p v i s es rs :
  let '(_, s', _, rs') := foldl (transport_failure p) (i, s, es, rs) v in
  deferred (book s') = deferred (book s) ∧
  (Forall (λ act, budget (dial_handler act) = SIM_OPEN_RETRIES) rs →
   Forall (λ act, budget (dial_handler act) = SIM_OPEN_RETRIES) rs').
Proof.
  revert i s es rs. induction v as [|[a e] v IH]; intros i s es rs; cbn; [done|].
  match goal with |- context [foldl _ (?x1, ?x2, ?x3, ?x4) v] =>
    specialize (IH x1 x2 x3 x4) end.
  destruct (foldl _ _ v) as [[[i' s'] es'] rs']. destruct IH as [Hd Hf].
  split; [done|]. intros Hrs. apply Hf. case_match; [|done].
  apply Forall_app. split; [done|]. by repeat constructor.
Qed.

Lemma transport_adds p i v keep s s' :
  transport_failures p i v s = Done s' → adds_cheaper (MkInto None keep) s s'.
Proof.
  unfold transport_failures.
  pose proof (transport_loop_adds p v i s [] []) as Hl.
  destruct (foldl _ _ v) as [[[i' s1] es'] rs']. destruct Hl as [Hd Hf].
  rewrite bind_Done. intros (s2 & (new & Hn & Hm)%defer_all_adds & [= <-]).
  eapply adds_trans; [|apply notify_adds]. exists new. split.
  - rewrite Hn. f_equal. rewrite <- Hd.
    rewrite (core_deferred _ _ (if_notify_core _ _ _)), (core_deferred _ _ (notify_all_core _ _)).
    done.
  - specialize (Hf (Forall_nil_2 _)). rewrite <- Hm in Hf. apply Forall_fmap in Hf.
    eapply Forall_impl; [exact Hf|]. intros [d act] Hb. unfold cheaper. cbn in *.
    rewrite Hb. by vm_compute.
Qed.

Lemma dial_failure_adds op h err s s' :
  handler_ok h → inject_dial_failure op h err s = Done s' → adds_cheaper h s s'.
Proof.
  intros Hh. destruct h as [[[addr r]|] keep]; cbn in Hh; unfold inject_dial_failure;
    cbn [ih_own_dial ih_keep_alive]; intros H;
    repeat case_match; simplify_eq; try (by apply same_deferred_adds);
    eauto using validation_adds, transport_adds, notify_adds.
Qed.

Lemma redials_cheaper h h' :
  handler_ok h → redials h h' → handler_ok h' ∧ budget h' < budget h.
Proof.
  intros Hh (op & err & s & s' & new & x & Hwf & Hd & Hn & Hx & ->).
  destruct (dial_failure_adds _ _ _ _ _ Hh Hd) as (new' & Hn' & Hf).
  assert (new' = new) as -> by (apply (app_inv_head (deferred (book s))); congruence).
  destruct (proj1 (Forall_forall _ _) Hf x Hx) as [H0 H1]. split; [|done].
  unfold handler_ok, budget in *. repeat case_match; simplify_eq; lia.
Qed.

Lemma redials_chain n h h' :
  handler_ok h → nsteps redials n h h' → Z.of_nat n ≤ budget h.
Proof.
  intros Hh Hn. revert Hh. induction Hn as [h|n h h1 h2 Hr _ IH]; intros Hh.
  - unfold handler_ok, budget, SIM_OPEN_RETRIES in *. repeat case_match; lia.
  - destruct (redials_cheaper _ _ Hh Hr) as [H1 H2]. specialize (IH H1). lia.
Qed.
End redials.

(** C28: retries of a TCP simultaneous open end: a dial whose every redial fails
    the same way is followed by at most [SIM_OPEN_RETRIES + 1] redials, because each
    carries strictly fewer retries than the one before. *)
Theorem redials_bounded `{L : Libp2p, C : !Channels Event, F : !Fmt, E : Environment,
    O : HashOrder, P : Profile} n h h' :
  handler_ok h → nsteps redials n h h' → Z.of_nat n ≤ SIM_OPEN_RETRIES + 1.
Proof.
  intros Hh Hn. pose proof (redials_chain n h h' Hh Hn).
  unfold handler_ok, budget in *. repeat case_match; lia.
Qed.

Definition validating (retries : Z) : IntoAddressHandler := MkInto (Some (full_b3, retries)) false.

Definition sim_fail (retries : Z) (s : State) : State :=
  force (inject_dial_failure None (validating retries)
           (Transport [(addr_b3, sim_open_error)]) s).

Lemma redials_11_10 : redials (validating 11) (validating 10).
Proof.
  exists None, (Transport [(addr_b3, sim_open_error)]), run6, (sim_fail 11 run6),
    [(next_delay run6, redial_of peer_b full_b3 10 false)],
    (next_delay run6, redial_of peer_b full_b3 10 false).
  split_and!.
  - apply reachable_book_wf, run_reachable.
  - apply force_Done. by vm_compute.
  - by vm_compute.
  - by apply list_elem_of_singleton.
  - reflexivity.
Qed.

Lemma redials_bounded_witness :
  nsteps redials 1 (validating 11) (validating 10) ∧ Z.of_nat 1 ≤ SIM_OPEN_RETRIES + 1.
Proof.
  split; [apply nsteps_once, redials_11_10|].
  apply (redials_bounded 1 (validating 11) (validating 10)).
  - by vm_compute.
  - apply nsteps_once, redials_11_10.
Defined.

(** ** The action queue *)
Section polling.
Context `{L : Libp2p, C : !Channels Event}.

(** [n] polls of the swarm, while no delay elapses. *)
Fixpoint poll_n (params : list AddressRecord) (n : nat) (s : State)
    : list (option DialAction) * State :=
  match n with
  | O => ([], s)
  | S n => let '(r, s) := poll params None s in
           let '(rs, s) := poll_n params n s in (r :: rs, s)
  end.

Lemma poll_None_eq params (s : State) :
  poll params None s =
    let s0 := if refresh_external (book s) then set_external params false s else s in
    match actions (book s) with
    | act :: rest => (Some act, set_actions (λ _, rest) s0)
    | [] => (None, s0)
    end.
Proof.
  unfold poll. cbv zeta. destruct (refresh_external _); cbn;
    by destruct (actions (book s)).
Qed.
End polling.

(** Polling hands every queued dial to the swarm exactly once and in the
    order the book queued them, then reports that nothing is left; peers, redials and
    subscriptions are untouched. *)
Theorem poll_drains `{L : Libp2p, C : !Channels Event} params (s : State) :
  let '(rs, s') := poll_n params (S (length (actions (book s)))) s in
  rs = (Some <$> actions (book s)) ++ [None] ∧ actions (book s') = [] ∧
  peers (book s') = peers (book s) ∧ deferred (book s') = deferred (book s) ∧
  event_stream (book s') = event_stream (book s) ∧ world s' = world s ∧
  refresh_external (book s') = false ∧
  external (book s') = (if refresh_external (book s) then params else external (book s)).
Proof.
  remember (actions (book s)) as acts eqn:Ha. revert s Ha.
  induction acts as [|act acts IH]; intros s Ha; cbn [length].
  - cbn [poll_n]. rewrite poll_None_eq, <- Ha. cbv zeta.
    destruct (refresh_external (book s)) eqn:Hr; cbn; by rewrite <- ?Ha, ?Hr.
  - cbn [poll_n]. rewrite poll_None_eq, <- Ha. cbv zeta.
    cbn beta iota. match goal with |- context [poll params None ?x] => pose (s1 := x); fold s1 end.
    assert (acts = actions (book s1)) as H1 by (unfold s1; by destruct (refresh_external _)).
    specialize (IH s1 H1). cbn [poll_n] in IH.
    destruct (poll params None s1) as [r s2] eqn:E1.
    destruct (poll_n params (length acts) s2) as [rs s'] eqn:E2.
    cbn beta iota.
    destruct IH as (Hrs & -> & -> & -> & -> & -> & -> & ->). rewrite Hrs. unfold s1.
    destruct (refresh_external (book s)) eqn:Hr; cbn; by rewrite ?Hr.
Qed.

Lemma poll_drains_witness :
  let '(rs, s') := poll_n [] (S (length (actions (book run5)))) run5 in
  length rs = 3%nat ∧ actions (book s') = [].
Proof.
  pose proof (poll_drains [] run5) as H. destruct (poll_n _ _ run5) as [rs s'].
  destruct H as (-> & H & _). split; [by vm_compute | exact H].
Defined.
