(* ===== verification/PeersIdentify.v ===== *)
(** * Identify: deriving dialable addresses

    What [AddressBook::set_info] of [src/net/peers.rs] makes of an identify message:
    which addresses it derives from the source addresses of incoming connections and
    from the advertised listen addresses, and how it records and validates them. *)

From S2P Require Import Prelude Libp2p Duration PeerInfo AddressHandler Channel Peers PeersInv.
From S2P Require Import PeersReach PeersSpec.

Open Scope Z_scope.

(** ** The derived addresses *)
Section derived.
Context `{L : Libp2p, O : HashOrder}.
Implicit Types (a b : Multiaddr) (lp : list (IpAddr * Z)).

(** [a] is [b] with another port. *)
Definition reported a b (port : Z) : Prop :=
  ma_iter a = <[1%nat := Tcp port]> (ma_iter b).

(** A guess for the listen address behind the source address [b] of an incoming
    connection: the ports advertised for the same IP, else every advertised port,
    else the address as it is. *)
Definition guess lp b a : Prop :=
  ∃ ip q, ip_port b = Some (ip, q) ∧
    ((∃ port, (ip, port) ∈ lp ∧ reported a b port) ∨
     ((∀ port, (ip, port) ∉ lp) ∧ ∃ ip' port, (ip', port) ∈ lp ∧ reported a b port) ∨
     (lp = [] ∧ a = b)).

Lemma with_port_eq b x port :
  ip_port b = Some x →
  ∃ a0, with_port b port = Done a0 ∧ ∀ a, a = a0 ↔ reported a b port.
Proof.
  intros (ip & q & l & Hit)%ip_port_tcp.
  destruct (ma_replace_Some b 1 (λ _, Some (Tcp port)) (Tcp q) (Tcp port)) as (a0 & Hr & Hi);
    [by rewrite Hit | done|].
  exists a0. unfold with_port. rewrite Hr. split; [done|]. intros a. unfold reported.
  rewrite <- Hi. split; [by intros -> | apply ma_iter_inj].
Qed.

Lemma add_translations b x ports tr added :
  ip_port b = Some x →
  ∃ tr', foldM (add_translation b) ports (tr, added) =
           Done (tr', added || negb (bool_decide (ports = []))) ∧
    ∀ a, a ∈ tr' ↔ a ∈ tr ∨ ∃ port, port ∈ ports ∧ reported a b port.
Proof.
  intros Hb. revert tr added. induction ports as [|port ports IH]; intros tr added; cbn [foldM].
  - exists tr. rewrite bool_decide_true by done. cbn. rewrite orb_false_r. set_solver.
  - destruct (with_port_eq b x port Hb) as (a0 & Hw & Ha0).
    unfold add_translation at 2. cbn [fst]. rewrite Hw. cbn [mbind outcome_bind].
    destruct (IH ({[a0]} ∪ tr) true) as (tr' & -> & Htr'). exists tr'.
    rewrite (bool_decide_false (port :: ports = [])) by done. cbn. rewrite orb_true_r.
    split; [done|]. intros a. rewrite Htr', elem_of_union, elem_of_singleton, Ha0.
    setoid_rewrite elem_of_cons. naive_solver.
Qed.

Lemma ports_of_ip lp ip port :
  port ∈ snd <$> filter (λ x : IpAddr * Z, x.1 = ip) lp ↔ (ip, port) ∈ lp.
Proof.
  rewrite list_elem_of_fmap. split.
  - intros ([ip' p'] & -> & [Hip Hin]%list_elem_of_filter). cbn in *. by subst.
  - intros Hin. exists (ip, port). split; [done|]. by apply list_elem_of_filter.
Qed.

Lemma translate_addr_spec lp tr b :
  ∃ tr', translate_addr lp (list_to_set (snd <$> lp)) tr b = Done tr' ∧
    ∀ a, a ∈ tr' ↔ a ∈ tr ∨ guess lp b a.
Proof.
  unfold translate_addr, guess. destruct (ip_port b) as [[ip q]|] eqn:Hb; [|by naive_solver].
  destruct (add_translations b _ (snd <$> filter (λ x : IpAddr * Z, x.1 = ip) lp) tr false Hb)
    as (tr1 & -> & H1). cbn [mbind outcome_bind].
  setoid_rewrite ports_of_ip in H1. rewrite orb_false_l.
  case_bool_decide as Hsame; cbn [negb].
  - assert (∀ port, (ip, port) ∉ lp) as Hno.
    { intros port. rewrite <- ports_of_ip, Hsame. apply not_elem_of_nil. }
    destruct (add_translations b _ (hs_iter (list_to_set (snd <$> lp) : gset Z)) tr1 false Hb)
      as (tr2 & -> & H2). cbn [mbind outcome_bind]. rewrite orb_false_l.
    assert (∀ port, port ∈ hs_iter (list_to_set (snd <$> lp) : gset Z) ↔
                    ∃ ip', (ip', port) ∈ lp) as Hall.
    { intros port. rewrite elem_of_hs_iter, elem_of_list_to_set, list_elem_of_fmap.
      split; [intros ([] & -> & ?); eauto | intros [ip' ?]; by exists (ip', port)]. }
    setoid_rewrite Hall in H2.
    case_bool_decide as Hnone; cbn [negb]; eexists; (split; [done|]); intros a.
    + assert (lp = []) as ->.
      { destruct lp as [|[ip' port] lp']; [done|]. exfalso.
        destruct (Hall port) as [_ Hp]. rewrite Hnone in Hp.
        eapply not_elem_of_nil, Hp. exists ip'. by left. }
      rewrite elem_of_union, elem_of_singleton, H2, H1. set_solver.
    + apply not_nil_elem in Hnone as (port & [ip' Hport]%Hall).
      assert (lp ≠ []) as Hlp by (intros ->; by apply not_elem_of_nil in Hport).
      rewrite H2, H1. naive_solver.
  - eexists. split; [done|]. intros a. rewrite H1.
    assert (∃ port, (ip, port) ∈ lp) as [port Hport].
    { apply not_nil_elem in Hsame as [port Hp%ports_of_ip]. eauto. }
    assert (lp ≠ []) by (intros ->; by apply not_elem_of_nil in Hport). naive_solver.
Qed.

Lemma translate_loop lp bs tr :
  ∃ tr', foldM (translate_addr lp (list_to_set (snd <$> lp))) bs tr = Done tr' ∧
    ∀ a, a ∈ tr' ↔ a ∈ tr ∨ ∃ b, b ∈ bs ∧ guess lp b a.
Proof.
  revert tr. induction bs as [|b bs IH]; intros tr; cbn [foldM].
  - exists tr. set_solver.
  - destruct (translate_addr_spec lp tr b) as (tr1 & -> & H1). cbn [mbind outcome_bind].
    destruct (IH tr1) as (tr' & -> & H2). exists tr'. split; [done|].
    intros a. rewrite H2, H1. setoid_rewrite elem_of_cons. naive_solver.
Qed.

Lemma elem_of_listen_ports p i ip port :
  (ip, port) ∈ listen_ports p i ↔
  ∃ a, a ∈ pi_listeners i ∧ connections i !! normalize_addr a p = None ∧
       ip_port a = Some (ip, port).
Proof.
  unfold listen_ports. rewrite list_elem_of_omap.
  setoid_rewrite list_elem_of_filter. setoid_rewrite normalize_addr_ref_owned. naive_solver.
Qed.
End derived.

(** C32: the addresses derived from an identify message are exactly the permitted
    advertised listen addresses, in full form, together with the guesses for every
    source address of an incoming connection: its IP with each port advertised for the
    same IP; if there is none, with every advertised port; if none is advertised at
    all, the source address itself.  Advertised addresses over which we are connected
    contribute no port.  No [unwrap] fails. *)
Theorem derived_addresses_spec `{L : Libp2p, O : HashOrder} p loopback (i : PeerInfo) :
  ∃ tr, derived_addresses p loopback i = Done tr ∧
    ∀ a, a ∈ tr ↔
      (∃ b, source_at i b = Some Incoming ∧ guess (listen_ports p i) b a) ∨
      (∃ l, l ∈ pi_listeners i ∧ (loopback = true ∨ is_loopback l = false) ∧
            a = normalize_addr l p).
Proof.
  unfold derived_addresses.
  destruct (translate_loop (listen_ports p i) (addresses_to_translate i) ∅) as (tr & -> & Htr).
  cbn [mbind outcome_bind]. eexists. split; [done|]. intros a.
  rewrite elem_of_union, Htr, elem_of_list_to_set, list_elem_of_fmap.
  assert (∀ b, b ∈ addresses_to_translate i ↔ source_at i b = Some Incoming) as Hin.
  { intros b. unfold addresses_to_translate. rewrite elem_of_addresses_by.
    split; [by intros ([] & ? & ?) | by exists Incoming]. }
  setoid_rewrite Hin. setoid_rewrite list_elem_of_filter.
  setoid_rewrite normalize_addr_ref_owned. setoid_rewrite orb_true_iff.
  setoid_rewrite negb_true_iff. set_solver.
Qed.

(** ** Recording the derived addresses *)
Section recording.
Context `{L : Libp2p, C : !Channels Event, F : !Fmt, E : Environment,
          O : HashOrder, P : Profile}.
Implicit Types (a : Multiaddr) (i : PeerInfo) (s : State).

(** The address would make us dial our own listener. *)
Definition own_listener s a : bool := bool_decide (ma_pop a ∈ listeners (book s)).

(** With port reuse, a second connection to an address we are connected to is
    impossible, so the address is offered to the swarm unvalidated. *)
Definition unvalidated s i a : bool :=
  port_reuse (book s) && bool_decide (is_Some (connections i !! a)).

(** The source of a derived address, given what was known about it. *)
Definition derived_source s i a (known : option AddressSource) : AddressSource :=
  match known with
  | Some src => src
  | None => if unvalidated s i a then Candidate else Listen
  end.

(** What is still known of an address once the sources of incoming connections are
    forgotten. *)
Definition kept_source i a : option AddressSource :=
  match source_at i a with Some Incoming => None | known => known end.

Lemma retained_source i a : source_at (retain_translated i) a = kept_source i a.
Proof.
  unfold kept_source, source_at, retain_translated. cbn. rewrite map_lookup_filter.
  destruct (addresses i !! a) as [[src t]|]; cbn; [|done].
  by destruct src; cbn; rewrite ?option_guard_True, ?option_guard_False by done.
Qed.

Definition identify_dial (p : PeerId) a : DialAction :=
  MkDial (MkDialOpts p Always [ma_pop a]) (MkInto (Some (a, 4)) false).

(** Whether a derived address is validated by a dial. *)
Definition to_validate s i a : bool :=
  negb (own_listener s a) && bool_decide (source_at i a = None) && negb (unvalidated s i a).

(** Same book up to the dial queue and the clock. *)
Record same_but_queue s s' : Prop := {
  sq_listeners : listeners (book s') = listeners (book s);
  sq_reuse : port_reuse (book s') = port_reuse (book s);
  sq_peers : peers (book s') = peers (book s);
  sq_deferred : deferred (book s') = deferred (book s);
  sq_stream : event_stream (book s') = event_stream (book s);
  sq_chans : chans (world s') = chans (world s);
}.

#[local] Instance same_but_queue_preorder : PreOrder same_but_queue.
Proof.
  split; [by split|]. intros s1 s2 s3 [] []. split; congruence.
Qed.

(** Same record up to the address table. *)
Record same_but_addresses i i' : Prop := {
  sa_protocol : protocol_version i' = protocol_version i;
  sa_agent : agent_version i' = agent_version i;
  sa_protocols : protocols i' = protocols i;
  sa_listeners : pi_listeners i' = pi_listeners i;
  sa_connections : connections i' = connections i;
  sa_failures : failures i' = failures i;
  sa_rtt : rtt i' = rtt i;
}.

#[local] Instance same_but_addresses_preorder : PreOrder same_but_addresses.
Proof.
  split; [by split|]. intros i1 i2 i3 [] []. split; congruence.
Qed.

Lemma wants_probe_listen i a :
  source_at i a ≠ Some Incoming →
  wants_probe (source_at i a) Listen = bool_decide (source_at i a = None) ∧
  merge_source (source_at i a) Listen = default Listen (source_at i a).
Proof. by destruct (source_at i a) as [[]|]. Qed.

Lemma ingest_derived_spec p i s a :
  ends_in_p2p a = true → source_at i a ≠ Some Incoming →
  ∃ i' s', ingest_derived p (i, s) a = Done (i', s') ∧
    (∀ b, source_at i' b =
       if bool_decide (b = a) && negb (own_listener s a)
       then Some (derived_source s i a (source_at i a)) else source_at i b) ∧
    same_but_addresses i i' ∧ same_but_queue s s' ∧
    actions (book s') = actions (book s) ++
      (if to_validate s i a then [identify_dial p a] else []).
Proof.
  intros Hend Hinc. destruct (wants_probe_listen i a Hinc) as [Hw Hm].
  unfold ingest_derived, own_listener, to_validate, own_listener.
  destruct (bool_decide (ma_pop a ∈ _)) eqn:Hl; cbn [negb andb].
  { exists i, s. split; [done|]. setoid_rewrite andb_false_r. rewrite app_nil_r.
    split_and!; by try reflexivity. }
  cbn [utc_now]. rewrite ingest_eq, Hw, Hm by auto. cbn [mbind outcome_bind].
  assert (∀ src t j b, source_at (with_addresses <[a := (src, t)]> j) b =
            if bool_decide (b = a) then Some src else source_at j b) as Hins.
  { intros. rewrite source_at_insert. destruct (decide (b = a)) as [->|Hne].
    - by rewrite decide_True, bool_decide_true.
    - by rewrite decide_False, bool_decide_false by auto. }
  setoid_rewrite andb_true_r.
  destruct (bool_decide (source_at i a = None)) eqn:Hn; bsimp; cbn [andb].
  - rewrite Hn. cbn [from_option id]. unfold derived_source, unvalidated. cbn.
    destruct (port_reuse (book s) && _) eqn:Hu; cbn [negb].
    + rewrite ingest_eq by auto. cbn [mbind outcome_bind]. do 2 eexists. split; [done|].
      rewrite Hins, bool_decide_true by done.
      split_and!; [|by split|by split|by rewrite app_nil_r].
      intros b. rewrite !Hins. by destruct (bool_decide (b = a)).
    + do 2 eexists. split; [done|]. split_and!; [|by split|by split|done].
      intros b. rewrite Hins. done.
  - do 2 eexists. split; [done|]. split_and!; [|by split|by split|by rewrite app_nil_r].
    intros b. rewrite Hins. by destruct (source_at i a).
Qed.

(** What depends on the state and the record only through unchanged parts. *)
Lemma unvalidated_same s s' i i' a :
  same_but_queue s s' → same_but_addresses i i' → unvalidated s' i' a = unvalidated s i a.
Proof. intros Hq Hi. unfold unvalidated. by rewrite (sq_reuse _ _ Hq), (sa_connections _ _ Hi). Qed.

Lemma own_listener_same s s' a :
  same_but_queue s s' → own_listener s' a = own_listener s a.
Proof. intros Hq. unfold own_listener. by rewrite (sq_listeners _ _ Hq). Qed.

Lemma ingest_derived_all p l i s :
  NoDup l → Forall (λ a, ends_in_p2p a = true) l → (∀ a, source_at i a ≠ Some Incoming) →
  ∃ i' s', foldM (ingest_derived p) l (i, s) = Done (i', s') ∧
    (∀ b, source_at i' b =
       if bool_decide (b ∈ l) && negb (own_listener s b)
       then Some (derived_source s i b (source_at i b)) else source_at i b) ∧
    same_but_addresses i i' ∧ same_but_queue s s' ∧
    actions (book s') =
      actions (book s) ++ (identify_dial p <$> filter (λ a, to_validate s i a = true) l).
Proof.
  intros Hnd. revert i s. induction Hnd as [|a l Hal Hnd IH]; intros i s Hend Hinc;
    cbn [foldM].
  { exists i, s. rewrite app_nil_r. by split_and!; try reflexivity. }
  inversion_clear Hend as [|?? Ha Hl].
  destruct (ingest_derived_spec p i s a Ha (Hinc a)) as (i1 & s1 & -> & Hs1 & Hi1 & Hq1 & Ha1).
  cbn [mbind outcome_bind].
  destruct (IH i1 s1 Hl) as (i' & s' & -> & Hs' & Hi' & Hq' & Ha').
  { intros b. rewrite Hs1. destruct (_ && _); [|apply Hinc]. intros [=Hd]. unfold derived_source in Hd.
    specialize (Hinc a). repeat case_match; congruence. }
  exists i', s'. split; [done|].
  assert (∀ b, b ∈ l → source_at i1 b = source_at i b) as Hsame.
  { intros b Hb. rewrite Hs1, bool_decide_false; [done|]. by intros ->. }
  split_and!; [|by etrans|by etrans|].
  - intros b. rewrite Hs', (own_listener_same _ _ _ Hq1).
    destruct (decide (b ∈ l)) as [Hb|Hb].
    + rewrite !bool_decide_true by (try right; done). rewrite Hsame by done.
      unfold derived_source. by rewrite (unvalidated_same _ _ _ _ _ Hq1 Hi1).
    + rewrite (bool_decide_false (b ∈ l)) by done. cbn [andb]. rewrite Hs1.
      destruct (decide (b = a)) as [->|Hne].
      * by rewrite !bool_decide_true by (try left; done).
      * rewrite !bool_decide_false; [done| |done]. rewrite elem_of_cons. naive_solver.
  - rewrite Ha', Ha1, <- app_assoc. f_equal.
    assert (filter (λ b, to_validate s1 i1 b = true) l = filter (λ b, to_validate s i b = true) l)
      as ->.
    { apply filter_ext_elem. intros b Hb. unfold to_validate.
      by rewrite (own_listener_same _ _ _ Hq1), (unvalidated_same _ _ _ _ _ Hq1 Hi1), Hsame. }
    rewrite filter_cons. destruct (to_validate s i a) eqn:Hv; [by rewrite decide_True | by rewrite decide_False].
Qed.
End recording.

(** C10: an identify message from a known peer sets its protocol version, agent version,
    protocols and listen addresses to those of the message; forgets the source addresses of
    incoming connections and keeps every other address with its source; records each
    address derived from the message and the incoming connections ([derived_addresses_spec])
    that is not one of our own listen addresses, when it was not known, as [Candidate] if
    port reuse makes a validating dial impossible and as [Listen] otherwise; queues exactly
    one dial, with four retries and no keep-alive, per address newly recorded as [Listen];
    leaves connections, failures and the round-trip record alone; announces [NewInfo] once;
    and does not panic.  A message from an unknown peer changes nothing.  It holds of every
    well-formed book, so of every reachable one ([reachable_wf]). *)
Theorem set_info_spec `{L : Libp2p, C : !Channels Event, F : !Fmt, E : Environment,
    O : HashOrder, P : Profile} p msg (s : State) :
  book_wf s →
  match peers (book s) !! p with
  | None => set_info p msg s = Done s
  | Some i =>
      let told := MkPeerInfo (Some (id_protocol_version msg)) (Some (id_agent_version msg))
                    (id_protocols msg) (id_listen_addrs msg) (addresses i) (connections i)
                    (failures i) (rtt i) in
      ∃ tr s' i', derived_addresses p (enable_loopback (book s)) told = Done tr ∧
        set_info p msg s = Done s' ∧ peers (book s') !! p = Some i' ∧
        protocol_version i' = Some (id_protocol_version msg) ∧
        agent_version i' = Some (id_agent_version msg) ∧
        protocols i' = id_protocols msg ∧ pi_listeners i' = id_listen_addrs msg ∧
        connections i' = connections i ∧ failures i' = failures i ∧ rtt i' = rtt i ∧
        (∀ a, source_at i' a =
           match source_at i a with
           | Some Incoming | None =>
               if bool_decide (a ∈ tr) && negb (own_listener s a)
               then Some (if unvalidated s i a then Candidate else Listen) else None
           | Some src => Some src
           end) ∧
        (∀ q, q ≠ p → peers (book s') !! q = peers (book s) !! q) ∧
        actions (book s') = actions (book s) ++
          (identify_dial p <$>
             filter (λ a, negb (own_listener s a) && bool_decide (kept_source i a = None) &&
                          negb (unvalidated s i a) = true) (hs_iter tr)) ∧
        deferred (book s') = deferred (book s) ∧ listeners (book s') = listeners (book s) ∧
        emitted s s' [NewInfo p]
  end.
Proof.
  intros Hwf. unfold set_info. destruct (peers (book s) !! p) as [i|] eqn:Hp; [|done].
  cbv zeta. change (MkPeerInfo _ _ _ _ _ _ _ _) with (with_identify msg i).
  set (i1 := with_identify msg i).
  assert (info_wf i1) as Hi1 by (destruct (info_of_wf _ _ _ Hwf Hp); by split).
  destruct (derived_addresses_named p (enable_loopback (book s)) i1 Hi1) as (tr & -> & Htr).
  cbn [mbind outcome_bind].
  assert (∀ a, source_at (retain_translated i1) a = kept_source i a) as Hk
    by (intros a; by rewrite retained_source).
  destruct (ingest_derived_all p (hs_iter tr) (retain_translated i1) s)
    as (i' & s1 & -> & Hs & Hi & Hq & Ha); [apply hs_iter_NoDup | | |].
  { apply Forall_forall. intros a Ha%elem_of_hs_iter. by apply Htr. }
  { intros a. rewrite Hk. unfold kept_source. by destruct (source_at i a) as [[]|]. }
  cbn [mbind outcome_bind]. exists tr. eexists _, i'. split; [done|]. split; [done|].
  destruct (notify_core (NewInfo p) (set_peers <[p := i']> s1)) as [Hpe Hli _ Hac Hde _ _].
  rewrite Hpe, Hac, Hde, Hli. cbn [set_peers book peers actions deferred listeners].
  rewrite lookup_insert_eq. split_and!; try apply Hq; try apply Hi; try done.
  - intros a. rewrite Hs, (bool_decide_ext (a ∈ hs_iter tr) (a ∈ tr)) by apply elem_of_hs_iter.
    rewrite Hk. unfold kept_source, derived_source. by destruct (source_at i a) as [[]|], (_ && _).
  - intros q Hne. rewrite lookup_insert_ne by done. by rewrite (sq_peers _ _ Hq).
  - rewrite Ha. do 2 f_equal. apply filter_ext_elem. intros b _. unfold to_validate. by rewrite Hk.
  - eapply (emitted_after _ (set_peers <[p:=i']> s1)); [apply Hq..|]. apply emitted_notify.
Qed.

Definition full_b2 : Multiaddr := normalize_addr addr_b2 peer_b.

Lemma set_info_spec_witness :
  book_wf run4 ∧ ∃ s' i', set_info peer_b info_b run4 = Done s' ∧
    peers (book s') !! peer_b = Some i' ∧ agent_version i' = Some "my agent" ∧
    source_at i' full_b2 = Some Listen ∧ source_at i' addr_b1 = None.
Proof.
  assert (book_wf run4) as Hwf.
  { apply reachable_book_wf. exists peer_a, false, false, false, world0.
    exists [Quiet; Quiet; Quiet; Opened peer_b cp_in]. exact run_to_4. }
  split; [exact Hwf|].
  pose proof (set_info_spec peer_b info_b run4 Hwf) as H.
  rewrite (known_info peer_b run4) in H by by vm_compute.
  destruct H as (tr & s' & i' & Htr & E & Hi & _ & Hag & _ & _ & _ & _ & _ & Hs & _).
  exists s', i'. split; [exact E|]. split; [exact Hi|]. split; [exact Hag|].
  assert (match derived_addresses peer_b (enable_loopback (book run4))
                  (with_identify info_b (info_of run4 peer_b)) with
          | Done t => bool_decide (full_b2 ∈ t) && negb (bool_decide (addr_b1 ∈ t))
          | Panicked => false end = true) as Hb by by vm_compute.
  unfold with_identify in Hb. rewrite Htr in Hb. apply andb_true_iff in Hb as [H2 H1%negb_true_iff].
  rewrite !Hs, H1, H2. split; by vm_compute.
Defined.

Lemma derived_addresses_spec_witness :
  ∃ tr, derived_addresses peer_b false (info_of run4 peer_b) = Done tr.
Proof.
  destruct (derived_addresses_spec peer_b false (info_of run4 peer_b)) as (tr & E & _).
  by exists tr.
Defined.
