(* ===== verification/PeersTests.v ===== *)
(** * The unit tests of the address book

    The tests of [src/net/tests.rs] - [test_dial_basic], [from_docker_host] and
    [from_docker_container] - run on the model: every assertion on the events, the dials, the
    recorded addresses and the failures holds as the tests state it.  The texts of errors
    are those the tests expect of libp2p and std. *)

From S2P Require Import Prelude Testing Libp2p Duration PeerInfo AddressHandler Channel Peers.
From S2P Require Import PeersReach.

Open Scope Z_scope.

(** ** Texts of errors *)

Definition quoted (s : string) : string :=
  let quote := String (Ascii.ascii_of_nat 34) EmptyString in quote +:+ s +:+ quote.

(** [Debug] of [io::Error::new(ErrorKind::Other, m)]. *)
Definition debug_io (e : IoError) : string :=
  let '(MkIoError _ _ m) := e in "Custom { kind: Other, error: " +:+ quoted m +:+ " }".

#[local] Instance test_fmt : Fmt (H := toy) := {|
  display_io := λ e, let '(MkIoError _ _ m) := e in m;
  display_dial := λ e,
    match e with
    | ConnectionIo e => "Dial error: An I/O error occurred on the connection: " +:+ debug_io e +:+ "."
    | _ => "Dial error"
    end;
  debug_dial := λ e,
    match e with ConnectionIo e => "ConnectionIo(" +:+ debug_io e +:+ ")" | _ => "DialError" end;
  display_transport := λ e,
    match e with MultiaddrNotSupported _ => "Multiaddr is not supported" | TransportOther _ => "" end;
  debug_transport := λ e,
    match e with
    | MultiaddrNotSupported _ => "MultiaddrNotSupported"
    | TransportOther e => "Other(" +:+ debug_io e +:+ ")"
    end;
  source_transport := λ e,
    match e with
    | MultiaddrNotSupported _ => None
    | TransportOther (MkIoError _ _ m) => Some m
    end;
  debug_closed := λ _, "closed";
|}.

Definition io_other (m : string) : IoError := MkIoError OtherKind DynOther m.

(** ** Sorting, as [Vec::sort] on addresses *)

Definition proto_key (p : Protocol N) : Z * Z :=
  match p with
  | Ip4 a => (4, a)
  | Tcp a => (6, a)
  | Ip6 a => (41, a)
  | P2p p => (421, Z.of_N p)
  | OtherProto c => (c, 0)
  end.
Fixpoint addr_leb (a b : list (Protocol N)) : bool :=
  match a, b with
  | [], _ => true
  | _ :: _, [] => false
  | p :: a, q :: b =>
      let '(i, x) := proto_key p in
      let '(j, y) := proto_key q in
      (i <? j) || ((i =? j) && ((x <? y) || ((x =? y) && addr_leb a b)))
  end.
Fixpoint insert_by {A} (key : A → list (Protocol N)) (x : A) (l : list A) : list A :=
  match l with
  | [] => [x]
  | y :: l' => if addr_leb (key x) (key y) then x :: l else y :: insert_by key x l'
  end.
Definition sort_by {A} (key : A → list (Protocol N)) (l : list A) : list A :=
  foldr (insert_by key) [] l.

(** ** The helpers of the tests *)

#[local] Instance Event_eq_dec : EqDecision (Event (L := toy)).
Proof. solve_decision. Defined.
#[local] Instance ConnectionFailureKind_dec : EqDecision ConnectionFailureKind.
Proof. solve_decision. Defined.

(** The book with the number of events that have been looked at. *)
Definition book_test (A : Type) : Type := test (State (L := toy) (C := queues Event) * nat) A.

(** [Events::next]: the events since the last call. *)
Definition next_events : book_test (list Event) := λ '(s, n),
  let es := queue (chans (world s)) chan0 in (Ok (drop n es), (s, length es)).

(** [enum Dial] with [dials]: the queued dials, sorted; a dial of a peer is listed with
    the addresses that would be tried. *)
Inductive TestDial : Type :=
| DialA (a : Multiaddr (Libp2p := toy))
| DialP (p : PeerId (Libp2p := toy)) (addrs : list (Multiaddr (Libp2p := toy))).
#[local] Instance TestDial_eq_dec : EqDecision TestDial.
Proof. solve_decision. Defined.
Definition dial_key (d : TestDial) : list (Protocol N) :=
  match d with DialA a => a | DialP p _ => [P2p p] end.

Definition dials : book_test (list TestDial) := λ '(s, n),
  let ds := (λ a : DialAction,
    match dial_handler a with
    | MkInto (Some (address, _)) false => DialA address
    | _ => DialP (opt_peer (dial_opts a)) (addresses_of_peer (opt_peer (dial_opts a)) s)
    end) <$> actions (book s) in
  (Ok (sort_by dial_key ds), (set_actions (λ _, []) s, n)).

(** [AddressBook::peers], [AddressBook::info] and [addrs]. *)
Definition book_peers (s : State (L := toy) (C := queues Event)) : list PeerId :=
  (hm_iter (peers (book s))).*1.
Definition book_info (p : PeerId) (s : State (L := toy) (C := queues Event)) : option PeerInfo :=
  peers (book s) !! p.
Definition addrs (p : PeerId) : book_test (list (Multiaddr * AddressSource)) := λ '(s, n),
  match book_info p s with
  | None => (Err Unwrapped, (s, n))
  | Some info => (Ok (sort_by fst ((λ '(a, src, _), (a, src)) <$> iter_addresses info)), (s, n))
  end.

(** A call on the book; a panic is a failure of the test. *)
Definition call (f : State → outcome State) : book_test () := λ '(s, n),
  match f s with Done s => (Ok (), (s, n)) | Panicked => (Err Asserted, (s, n)) end.
Definition call' (f : State → State) : book_test () := call (λ s, Done (f s)).
Definition look {A} (f : State → A) : book_test A := λ '(s, n), (Ok (f s), (s, n)).
Definition assert_eq {S A} `{EqDecision A} (x y : A) : test S () := asserts (bool_decide (x = y)).

Local Open Scope test_scope.
Definition assert_events (es : list Event) : book_test () := l <- next_events; assert_eq l es.
Definition assert_dials (ds : list TestDial) : book_test () := l <- dials; assert_eq l ds.
Definition assert_addrs (p : PeerId) (l : list (Multiaddr * AddressSource)) : book_test () :=
  l' <- addrs p; assert_eq l' l.

Definition p2p (a : Multiaddr (Libp2p := toy)) (p : PeerId) : Multiaddr := ma_push a (P2p p).
Definition new_book (local : PeerId) : State := swarm_events chan0 (fresh local false false false world0).

(** ** [test_dial_basic] *)
Definition test_dial_basic : book_test () :=
  let peer_a : PeerId := 7%N in
  let addr_1 : Multiaddr := [Ip4 (ipv4 1 1 1 1); Tcp 3333] in
  let addr_1p := p2p addr_1 peer_a in
  let addr_2 : Multiaddr := [Ip4 (ipv4 2 2 2 2); Tcp 3333] in
  let addr_2p := p2p addr_2 peer_a in
  let error := io_other "my error" in
  call (add_address peer_a addr_1 Mdns) ;;
  assert_events [NewInfo peer_a] ;;
  assert_dials [DialA addr_1p] ;;
  call (add_address peer_a addr_1p User) ;;
  assert_events [Discovered peer_a; NewInfo peer_a] ;;
  call (add_address peer_a addr_2 Incoming) ;;
  assert_events [NewInfo peer_a] ;;
  known <- look book_peers;
  assert_eq known [peer_a] ;;
  call (inject_dial_failure (Some peer_a) (MkInto (Some (addr_1, 3)) false) (ConnectionIo error)) ;;
  assert_events
    [DialFailure peer_a addr_1
       ("Dial error: An I/O error occurred on the connection: Custom { kind: Other, error: " +:+
        quoted "my error" +:+ " }.");
     NewInfo peer_a] ;;
  let error := io_other "my other error" in
  call (inject_dial_failure (Some peer_a) (MkInto None false)
          (Transport [(addr_2, TransportOther error)])) ;;
  assert_events
    [DialFailure peer_a addr_2
       ("Other(Custom { kind: Other, error: " +:+ quoted "my other error" +:+ " })");
     Unreachable peer_a; NewInfo peer_a] ;;
  known <- look book_peers;
  assert_eq (head known) (Some peer_a) ;;
  failure <- look (λ s, head (default [] (recent_failures <$> book_info peer_a s)));
  assert_eq (cf_kind <$> failure) (Some KDialError) ;;
  assert_eq (cf_addr <$> failure) (Some addr_2) ;;
  assert_eq (cf_display <$> failure) (Some "transport error: my other error") ;;
  assert_dials [] ;;
  assert_addrs peer_a [(addr_1p, User); (addr_2p, Incoming)] ;;
  call' (remove_address peer_a addr_1p) ;;
  call' (remove_address peer_a addr_2p) ;;
  assert_addrs peer_a [] ;;
  call (add_address peer_a addr_2 Kad) ;;
  assert_addrs peer_a [(addr_2p, Kad)] ;;
  assert_events [NewInfo peer_a] ;;
  call (add_address peer_a addr_2 User) ;;
  assert_addrs peer_a [(addr_2p, User)] ;;
  assert_events [Discovered peer_a; NewInfo peer_a].

(** ** [from_docker_host] and [from_docker_container] *)

(** What both tests begin with: [peer_b] connects to us from an ephemeral port. *)
Definition addr_a_1 : Multiaddr := [Ip4 (ipv4 10 0 0 2); Tcp 4001].
Definition addr_b_1p : Multiaddr := p2p [Ip4 (ipv4 10 0 0 10); Tcp 57634] peer_b.
Definition addr_b_2 : Multiaddr := [Ip4 (ipv4 10 0 0 10); Tcp 4001].
Definition addr_b_2p : Multiaddr := p2p addr_b_2 peer_b.
Definition addr_b_3 : Multiaddr := [Ip4 (ipv4 172 17 0 3); Tcp 4001].
Definition addr_b_3p : Multiaddr := p2p addr_b_3 peer_b.
Definition addr_b_4 : Multiaddr := [Ip4 (ipv4 127 0 0 1); Tcp 4001].

Definition connected_in : book_test () :=
  let cp := Listener (p2p addr_a_1 peer_a) addr_b_1p in
  call (inject_connection_established peer_b cp 0) ;;
  assert_events [NewInfo peer_b; Connected peer_b; ConnectionEstablished peer_b cp] ;;
  assert_dials [] ;;
  assert_addrs peer_b [(addr_b_1p, Incoming)].

Definition test_info (listen_addrs : list Multiaddr) : IdentifyInfo :=
  MkIdentifyInfo "my protocol" "my agent" ["my proto"] listen_addrs.

(** [events.next()] after a failed validation of [addr] with the error [m]. *)
Definition failed_dial (addr : Multiaddr) (m : string) : book_test () :=
  call (inject_dial_failure (Some peer_b) (MkInto (Some (addr, 3)) false)
          (ConnectionIo (io_other m))) ;;
  assert_events
    [DialFailure peer_b addr
       ("Dial error: An I/O error occurred on the connection: Custom { kind: Other, error: " +:+
        quoted m +:+ " }.");
     NewInfo peer_b] ;;
  assert_dials [].

Definition connected_out (l : list (Multiaddr * AddressSource)) : book_test () :=
  let cp2 := Dialer addr_b_2p EpDialer in
  call (inject_connection_established peer_b cp2 0) ;;
  assert_events [Discovered peer_b; NewInfo peer_b; Connected peer_b; ConnectionEstablished peer_b cp2] ;;
  assert_dials [] ;;
  assert_addrs peer_b l.

Definition from_docker_host : book_test () :=
  connected_in ;;
  call (set_info peer_b (test_info [addr_b_2; addr_b_3; addr_b_4])) ;;
  assert_events [NewInfo peer_b] ;;
  assert_dials [DialA addr_b_2p; DialA addr_b_3p] ;;
  assert_addrs peer_b [(addr_b_2p, Listen); (addr_b_3p, Listen)] ;;
  connected_out [(addr_b_2p, Dial); (addr_b_3p, Listen)] ;;
  failed_dial addr_b_3p "didn't work, mate!" ;;
  assert_addrs peer_b [(addr_b_2p, Dial)].

Definition from_docker_container : book_test () :=
  connected_in ;;
  call (set_info peer_b (test_info [addr_b_3; addr_b_4])) ;;
  assert_events [NewInfo peer_b] ;;
  assert_dials [DialA addr_b_2p; DialA addr_b_3p] ;;
  assert_addrs peer_b [(addr_b_2p, Listen); (addr_b_3p, Listen)] ;;
  call (set_info peer_b (test_info [addr_b_2; addr_b_3; addr_b_4])) ;;
  assert_events [NewInfo peer_b] ;;
  assert_dials [] ;;
  assert_addrs peer_b [(addr_b_2p, Listen); (addr_b_3p, Listen)] ;;
  failed_dial addr_b_3p "play it again, Sam" ;;
  assert_addrs peer_b [(addr_b_2p, Listen)] ;;
  connected_out [(addr_b_2p, Dial)] ;;
  failed_dial addr_b_2p "play it yet another time, Sam" ;;
  assert_addrs peer_b [(addr_b_2p, Dial)] ;;
  failures <- look (λ s, default [] (recent_failures <$> book_info peer_b s));
  assert_eq ((λ f, (cf_addr f, cf_display f, cf_debug f)) <$> failures)
    [(addr_b_2, "I/O error: play it yet another time, Sam",
      "ConnectionIo(Custom { kind: Other, error: " +:+ quoted "play it yet another time, Sam" +:+ " })");
     (addr_b_3, "I/O error: play it again, Sam",
      "ConnectionIo(Custom { kind: Other, error: " +:+ quoted "play it again, Sam" +:+ " })")].

(** The address book passes the unit tests of [src/net/tests.rs]: on the calls of
    [test_dial_basic], [from_docker_host] and [from_docker_container] every assertion on the
    events sent, the dials queued, the addresses recorded with their sources and the
    failures remembered holds as the tests state it. *)
Theorem book_tests_pass :
  (test_dial_basic (new_book 1%N, 0%nat)).1 = Ok () ∧
  (from_docker_host (new_book peer_a, 0%nat)).1 = Ok () ∧
  (from_docker_container (new_book peer_a, 0%nat)).1 = Ok ().
Proof. by vm_compute. Qed.
