(* ===== verification/Ipld.v ===== *)
(** * Blocks and content ids of the [libipld] crate

    The types the storage and the network share, with the accessors the sources use;
    [numbered] is an instance. *)

From S2P Require Import Prelude.

Definition Bytes : Type := list Z.

Class Ipld := {
  (** [libipld::Cid], [libipld::Block] with [new_unchecked] and its accessors. *)
  Cid : Type;
  Cid_eq_dec :: EqDecision Cid;
  Cid_countable :: Countable Cid;
  Block : Type;
  new_unchecked : Cid → Bytes → Block;
  block_cid : Block → Cid;
  block_data : Block → Bytes;
  block_cid_new c d : block_cid (new_unchecked c d) = c;
  block_data_new c d : block_data (new_unchecked c d) = d;
}.

#[export] Instance numbered : Ipld := {
  Cid := N;
  Block := N * Bytes;
  new_unchecked c d := (c, d);
  block_cid := fst;
  block_data := snd;
  block_cid_new c d := eq_refl;
  block_data_new c d := eq_refl;
}.
