(* ===== verification/Db.v ===== *)
(** * [src/db.rs]: the storage service

    [StorageService] over the block store of the crate [ipfs-sqlite-block-store],
    which is a parameter: the operations the service calls ([BlockStore]) and the
    documented behaviour its theorems rely on ([BlockStoreLaws]).  What is proved of it is in
    [DbSpec] and [Retention]. *)

From S2P Require Import Prelude Duration Ipld.

Open Scope Z_scope.

(** ** The block store crate *)
Class BlockStore `{I : Ipld} := {
  StoreError : Type;
  (** [BlockNotFound(cid).into()]. *)
  BlockNotFound : Cid → StoreError;
  (** Error of a background task that did not finish. *)
  JoinError : StoreError;
  TempPin : Type;
  Store : Type;
  Transaction : Type;
  (** [BlockStore::transaction], [Transaction::commit], dropping a transaction. *)
  transaction : Store → Transaction;
  commit : Transaction → Store → result () StoreError * Store;
  drop_txn : Transaction → Store → Store;
  txn_temp_pin : Transaction → TempPin * Transaction;
  extend_temp_pin : TempPin → Cid → Transaction →
                    result () StoreError * TempPin * Transaction;
  get_block_cids : Transaction → result (list Cid) StoreError * Transaction;
  has_block : Cid → Transaction → result bool StoreError * Transaction;
  get_block : Cid → Transaction → result (option Bytes) StoreError * Transaction;
  put_block : Block → Transaction → result () StoreError * Transaction;
  txn_resolve : Bytes → Transaction → result (option Cid) StoreError * Transaction;
  txn_alias : Bytes → option Cid → Transaction → result () StoreError * Transaction;
  txn_aliases : Transaction → result (list (Bytes * Cid)) StoreError * Transaction;
  txn_reverse_alias : Cid → Transaction → result (option (gset Bytes)) StoreError * Transaction;
  get_missing_blocks : Cid → Transaction → result (list Cid) StoreError * Transaction;
  (** [BlockStore::incremental_gc], [BlockStore::flush], [get_store_stats]. *)
  incremental_gc : Z → Duration → Store → result bool StoreError * Store;
  store_flush : Store → result () StoreError * Store;
  get_store_stats : Store → result (Z * Z) StoreError;
}.

(** What a transaction or a store holds, as far as the service is concerned. *)
Record View `{I : Ipld} : Type := MkView {
  v_blocks : gmap Cid Bytes;
  v_aliases : gmap Bytes Cid;
}.
Arguments MkView {_} _ _.

Section reachable.
Context `{I : Ipld} (links : Cid → Bytes → list Cid).

(** A stored block refers to another content id; what can be reached that way. *)
Definition edge (v : View) (c c' : Cid) : Prop :=
  ∃ d, v_blocks v !! c = Some d ∧ c' ∈ links c d.
Definition reach (v : View) : Cid → Cid → Prop := rtc (edge v).
End reachable.

(** Documented behaviour of the crate.  The operations of a transaction take effect on the
    store at once - "the batching concerns only the CacheTracker, it implies no atomicity
    guarantees", says [Ipfs::batch_ops] - so committing or dropping it does not change the
    contents; what a commit does is to tell the cache tracker of the blocks that were
    accessed, which a transaction that is dropped never does.  A read changes nothing; a write that succeeds has its effect (a block that
    is already stored under the same content id may be kept, since its bytes are the
    same), one that fails has its effect or none.  The aliases of a block are those from
    whose root it can be reached; such a block is pinned.  Garbage collection keeps
    aliases and pinned blocks, and everything while the store is within its limits; it
    reports that it is done when the store is within its limits or only pinned blocks are
    left, and otherwise deletes at least one block when it is asked for at least one. *)
Class BlockStoreLaws `{B : BlockStore} := {
  view : Store → View;
  tview : Transaction → View;
  (** [References]: the links in the data of a block. *)
  links : Cid → Bytes → list Cid;
  pinned : Store → Cid → Prop;
  block_count : Store → nat;
  (** At most [cache_size_blocks] blocks of at most [cache_size_bytes] in all. *)
  within_limits : Store → Prop;
  (** What the cache tracker was told of, and what a transaction has to tell it. *)
  tracked : Store → list Cid;
  accessed : Transaction → list Cid;
  commit_tracked t s u s' : commit t s = (Ok u, s') → tracked s' = tracked s ++ accessed t;
  drop_tracked t s : tracked (drop_txn t s) = tracked s;
  transaction_view s : tview (transaction s) = view s;
  commit_view t s r s' : commit t s = (r, s') → view s' = tview t;
  drop_view t s : view (drop_txn t s) = tview t;
  temp_pin_view t : tview (txn_temp_pin t).2 = tview t;
  extend_view p c t r p' t' : extend_temp_pin p c t = (r, p', t') → tview t' = tview t;
  cids_view t r t' :
    get_block_cids t = (r, t') →
    tview t' = tview t ∧
    ∀ l, r = Ok l → ∀ c, c ∈ l ↔ is_Some (v_blocks (tview t) !! c);
  has_view c t r t' :
    has_block c t = (r, t') →
    tview t' = tview t ∧ ∀ b, r = Ok b → b = bool_decide (is_Some (v_blocks (tview t) !! c));
  get_view c t r t' :
    get_block c t = (r, t') →
    tview t' = tview t ∧ ∀ d, r = Ok d → d = v_blocks (tview t) !! c;
  put_view b t r t' :
    put_block b t = (r, t') →
    (is_ok r = false ∧ tview t' = tview t) ∨
    ∃ d, (d = block_data b ∨ v_blocks (tview t) !! block_cid b = Some d) ∧
      tview t' = MkView (<[block_cid b := d]> (v_blocks (tview t))) (v_aliases (tview t));
  resolve_view a t r t' :
    txn_resolve a t = (r, t') →
    tview t' = tview t ∧ ∀ c, r = Ok c → c = v_aliases (tview t) !! a;
  alias_view a c t r t' :
    txn_alias a c t = (r, t') →
    (is_ok r = false ∧ tview t' = tview t) ∨
    tview t' = MkView (v_blocks (tview t)) (partial_alter (λ _, c) a (v_aliases (tview t)));
  aliases_view t r t' :
    txn_aliases t = (r, t') →
    tview t' = tview t ∧
    ∀ l, r = Ok l → ∀ a c, (a, c) ∈ l ↔ v_aliases (tview t) !! a = Some c;
  reverse_view c t r t' :
    txn_reverse_alias c t = (r, t') →
    tview t' = tview t ∧
    ∀ o, r = Ok o →
      match o with
      | None => v_blocks (tview t) !! c = None
      | Some names => is_Some (v_blocks (tview t) !! c) ∧
          ∀ a, a ∈ names ↔
            ∃ root, v_aliases (tview t) !! a = Some root ∧ reach links (tview t) root c
      end;
  missing_view c t r t' :
    get_missing_blocks c t = (r, t') →
    tview t' = tview t ∧
    ∀ l, r = Ok l → ∀ m, m ∈ l ↔ v_blocks (tview t) !! m = None ∧ reach links (tview t) c m;
  flush_view s r s' : store_flush s = (r, s') → view s' = view s;
  alias_pinned s a root c :
    v_aliases (view s) !! a = Some root → reach links (view s) root c → pinned s c;
  gc_view n d s r s' :
    incremental_gc n d s = (r, s') →
    v_aliases (view s') = v_aliases (view s) ∧
    (∀ c, pinned s c → v_blocks (view s') !! c = v_blocks (view s) !! c ∧ pinned s' c) ∧
    (∀ c x, v_blocks (view s') !! c = Some x → v_blocks (view s) !! c = Some x);
  gc_within n d s r s' :
    incremental_gc n d s = (r, s') → within_limits s → view s' = view s ∧ within_limits s';
  gc_done n d s s' :
    incremental_gc n d s = (Ok true, s') →
    within_limits s' ∨ ∀ c, is_Some (v_blocks (view s') !! c) → pinned s' c;
  gc_progress n d s s' :
    0 < n → incremental_gc n d s = (Ok false, s') → (block_count s' < block_count s)%nat;
}.

(** ** Configuration *)

Record StorageConfig : Type := MkStorageConfig {
  path : option string;
  access_db_path : option string;
  cache_size_blocks : Z;
  cache_size_bytes : Z;
  gc_interval : Duration;
  gc_min_blocks : Z;
  gc_target_duration : Duration;
}.

Definition u64_MAX : Z := 2 ^ 64 - 1.
Definition usize_MAX : Z := 2 ^ 64 - 1.

(** [StorageConfig::new]. *)
Definition StorageConfig_new (path access_db_path : option string) (cache_size : Z)
    (gc_interval : Duration) : StorageConfig :=
  MkStorageConfig path access_db_path cache_size u64_MAX gc_interval usize_MAX
    (u64_MAX * NANOS_PER_SEC + (1000000000 - 1)).

(** ** Batches *)
Section batch.
Context `{B : BlockStore}.

(** A computation on the open transaction of a [Batch]. *)
Definition Batch (R : Type) : Type := Transaction → result R StoreError * Transaction.

(** [Batch::create_temp_pin]. *)
Definition batch_create_temp_pin : Batch TempPin := λ t,
  let '(p, t) := txn_temp_pin t in (Ok p, t).

(** [Batch::temp_pin]: the pin is extended in place until the first error. *)
Fixpoint batch_temp_pin (temp : TempPin) (iter : list Cid) (t : Transaction)
    : result () StoreError * TempPin * Transaction :=
  match iter with
  | [] => (Ok (), temp, t)
  | link :: iter =>
      let '(r, temp, t) := extend_temp_pin temp link t in
      match r with
      | Ok _ => batch_temp_pin temp iter t
      | Err e => (Err e, temp, t)
      end
  end.

Definition batch_iter : Batch (list Cid) := get_block_cids.
Definition batch_contains (c : Cid) : Batch bool := has_block c.
Definition batch_get (c : Cid) : Batch (option Bytes) := get_block c.
Definition batch_insert (b : Block) : Batch () := put_block b.
Definition batch_resolve (a : Bytes) : Batch (option Cid) := txn_resolve a.
Definition batch_alias (a : Bytes) (c : option Cid) : Batch () := txn_alias a c.
Definition batch_aliases : Batch (list (Bytes * Cid)) := txn_aliases.
Definition batch_reverse_alias (c : Cid) : Batch (option (gset Bytes)) := txn_reverse_alias c.
Definition batch_missing_blocks (c : Cid) : Batch (list Cid) := get_missing_blocks c.
End batch.

(** ** The service *)
Section service.
Context `{B : BlockStore}.

(** [StorageService]: the store behind its mutex, the settings of the collector,
    whether the background collector still runs, and the metric [QUERIES_TOTAL]. *)
Record StorageService : Type := MkService {
  store : Store;
  svc_gc_min_blocks : Z;
  svc_gc_target_duration : Duration;
  gc_task : bool;
  QUERIES_TOTAL : gmap string Z;
}.

Definition set_store (s : Store) (sv : StorageService) : StorageService :=
  MkService s (svc_gc_min_blocks sv) (svc_gc_target_duration sv) (gc_task sv)
    (QUERIES_TOTAL sv).

Definition count_query (op : string) (sv : StorageService) : StorageService :=
  MkService (store sv) (svc_gc_min_blocks sv) (svc_gc_target_duration sv) (gc_task sv)
    (<[op := default 0 (QUERIES_TOTAL sv !! op) + 1]> (QUERIES_TOTAL sv)).

(** [StorageService::rw]: the transaction is committed exactly when the closure succeeds,
    and dropped otherwise. *)
Definition rw {R} (op : string) (f : Batch R) (sv : StorageService)
    : result R StoreError * StorageService :=
  let sv := count_query op sv in
  let '(res, txn) := f (transaction (store sv)) in
  if is_ok res then
    let '(c, s) := commit txn (store sv) in
    let sv := set_store s sv in
    match c with
    | Ok _ => (res, sv)
    | Err e => (Err e, sv)
    end
  else (res, set_store (drop_txn txn (store sv)) sv).

(** [StorageService::create_temp_pin] ... [missing_blocks]. *)
Definition create_temp_pin := rw "create_temp_pin" batch_create_temp_pin.

(** [StorageService::temp_pin]; the pin is returned in its final state. *)
Definition temp_pin (temp : TempPin) (iter : list Cid) (sv : StorageService)
    : result () StoreError * TempPin * StorageService :=
  let '(_, p, _) := batch_temp_pin temp iter (transaction (store sv)) in
  let '(r, sv) := rw "temp_pin" (λ t, let '(r, _, t) := batch_temp_pin temp iter t in (r, t)) sv in
  (r, p, sv).

Definition iter := rw "iter" batch_iter.
Definition contains (c : Cid) := rw "contains" (batch_contains c).
Definition get (c : Cid) := rw "get" (batch_get c).
Definition insert_block (b : Block) := rw "insert" (batch_insert b).
Definition alias (a : Bytes) (c : option Cid) := rw "alias" (batch_alias a c).
Definition aliases := rw "aliases" batch_aliases.
Definition resolve (a : Bytes) := rw "resolve" (batch_resolve a).
Definition reverse_alias (c : Cid) := rw "reverse_alias" (batch_reverse_alias c).
Definition missing_blocks (c : Cid) := rw "missing_blocks" (batch_missing_blocks c).

(** One round of [StorageService::evict], with the lock on the store. *)
Definition evict_round (sv : StorageService) : result bool StoreError * StorageService :=
  let '(r, s) := incremental_gc (svc_gc_min_blocks sv) (svc_gc_target_duration sv) (store sv) in
  (r, set_store s sv).

(** The blocking loop of [StorageService::evict]; [None] when the fuel runs out.  The lock is
    released after every round: [others k] is what other threads do before round [k + 1]. *)
Fixpoint evict_loop (fuel : nat) (others : nat → StorageService → StorageService)
    (sv : StorageService) : option (result () StoreError * StorageService) :=
  match fuel with
  | O => None
  | S fuel =>
      match evict_round sv with
      | (Err e, sv) => Some (Err e, sv)
      | (Ok true, sv) => Some (Ok (), sv)
      | (Ok false, sv) => evict_loop fuel (λ k, others (S k)) (others O sv)
      end
  end.

(** Nobody else uses the storage. *)
Definition alone (k : nat) (sv : StorageService) : StorageService := sv.

(** [StorageService::evict].  [joined] says whether the blocking task was joined; a
    lost task is an error. *)
Definition evict (fuel : nat) (others : nat → StorageService → StorageService) (joined : bool)
    (sv : StorageService) : option (result () StoreError * StorageService) :=
  '(r, sv) ← evict_loop fuel others sv;
  Some (if joined then r else Err JoinError, sv).

(** One round of the background collector: errors are logged and ignored. *)
Definition gc_round (sv : StorageService) : StorageService :=
  if gc_task sv
  then set_store (incremental_gc (svc_gc_min_blocks sv) (svc_gc_target_duration sv)
                    (store sv)).2 sv
  else sv.

(** [observe_future]: count, run the query, pass the result on; [joined] as above. *)
Definition observe_future {T} (name : string) (joined : bool)
    (query : StorageService → result T StoreError * StorageService) (sv : StorageService)
    : result T StoreError * StorageService :=
  let sv := count_query name sv in
  let '(r, sv) := query sv in
  (if joined then r else Err JoinError, sv).

(** [StorageService::flush]. *)
Definition flush (joined : bool) : StorageService → result () StoreError * StorageService :=
  observe_future "flush" joined
    (λ sv, let '(r, s) := store_flush (store sv) in (r, set_store s sv)).

(** [Drop for StorageServiceInner]. *)
Definition drop_service (sv : StorageService) : StorageService :=
  if gc_task sv
  then MkService (store sv) (svc_gc_min_blocks sv) (svc_gc_target_duration sv) false
         (QUERIES_TOTAL sv)
  else sv.

(** [SqliteStoreCollector::collect]: metric name and value. *)
Definition collect (sv : StorageService) : list (string * Z) :=
  match get_store_stats (store sv) with
  | Ok (count, size) => [("block_store_block_count", count); ("block_store_size", size)]
  | Err _ => []
  end.
End service.

(** ** Opening the service *)

(** The file system and the constructors of the block store crate. *)
Class StoreHost `{B : BlockStore} := {
  FsState : Type;
  is_file : string → FsState → bool;
  create_dir_all : string → FsState → result () StoreError * FsState;
  path_join : string → string → string;
  (** [SqliteCacheTracker::open] and [InMemCacheTracker::new]. *)
  CacheTracker : Type;
  sqlite_tracker : string → FsState → result CacheTracker StoreError * FsState;
  in_mem_tracker : CacheTracker;
  (** [BlockStore::open], [BlockStore::memory] with the two size targets, and
      [additional_connection]. *)
  store_open : string → Z * Z → CacheTracker → FsState → result Store StoreError * FsState;
  store_memory : Z * Z → CacheTracker → result Store StoreError;
  additional_connection : Store → result () StoreError;
}.

Section opening.
Context `{B : BlockStore, !StoreHost}.

(** A configured path: a file is used as it is, anything else is made a directory
    that holds the file [name]. *)
Definition db_file (p name : string) (fs : FsState) : result string StoreError * FsState :=
  if is_file p fs then (Ok p, fs)
  else match create_dir_all p fs with
       | (Ok _, fs) => (Ok (path_join p name), fs)
       | (Err e, fs) => (Err e, fs)
       end.

(** [StorageServiceInner::open], [StorageService::open]; [queries] is the current
    value of the process-wide metric. *)
Definition open_service (queries : gmap string Z) (config : StorageConfig) (fs : FsState)
    : result StorageService StoreError * FsState :=
  let sizes := (cache_size_blocks config, cache_size_bytes config) in
  let '(tracker, fs) :=
    match access_db_path config with
    | Some p =>
        match db_file p "access" fs with
        | (Ok p, fs) => sqlite_tracker p fs
        | (Err e, fs) => (Err e, fs)
        end
    | None => (Ok in_mem_tracker, fs)
    end in
  match tracker with
  | Err e => (Err e, fs)
  | Ok tracker =>
      let is_memory := bool_decide (path config = None) in
      let '(s, fs) :=
        match path config with
        | Some p =>
            match db_file p "db" fs with
            | (Ok p, fs) => store_open p sizes tracker fs
            | (Err e, fs) => (Err e, fs)
            end
        | None => (store_memory sizes tracker, fs)
        end in
      match s with
      | Err e => (Err e, fs)
      | Ok s =>
          (try _ := (if is_memory then Ok () else additional_connection s) in
           Ok (MkService s (gc_min_blocks config) (gc_target_duration config) true queries), fs)
      end
  end.
End opening.
