(* ===== verification/DbSpec.v ===== *)
(** * The storage service refines a pair of maps

    The abstract specification of [src/db.rs] - a map from content ids to bytes and a
    map from aliases to content ids - and the proofs that every operation of
    [StorageService] implements it, that what a batch has written stays written even if
    the batch fails, and that eviction ends without losing pinned blocks. *)

From S2P Require Import Prelude Duration Ipld Db.

Open Scope Z_scope.

Section rw.
Context `{B : BlockStore, BL : !BlockStoreLaws}.
Implicit Types (sv : StorageService).

Definition sview sv : View := view (store sv).

(** Settings and collector task, which no storage operation touches. *)
Definition same_settings sv sv' : Prop :=
  svc_gc_min_blocks sv' = svc_gc_min_blocks sv ∧
  svc_gc_target_duration sv' = svc_gc_target_duration sv ∧ gc_task sv' = gc_task sv.

(** What the cache tracker was told: of a batch that succeeds everything, of one whose
    closure fails nothing. *)
Definition tracked_after {R} sv t (res r : result R StoreError) sv' : Prop :=
  match res, r with
  | _, Ok _ => tracked (store sv') = tracked (store sv) ++ accessed t
  | Err _, Err _ => tracked (store sv') = tracked (store sv)
  | Ok _, Err _ => True
  end.

Lemma rw_inv {R} op (f : Batch R) sv r sv' :
  rw op f sv = (r, sv') →
  same_settings sv sv' ∧
  QUERIES_TOTAL sv' = <[op := default 0 (QUERIES_TOTAL sv !! op) + 1]> (QUERIES_TOTAL sv) ∧
  ∃ res t, f (transaction (store sv)) = (res, t) ∧ sview sv' = tview t ∧
    (r = res ∨ is_ok res = true ∧ is_ok r = false) ∧
    tracked_after sv t res r sv'.
Proof.
  unfold rw. cbn [count_query store]. destruct (f (transaction (store sv))) as [[x|e] t];
    cbn [is_ok].
  - destruct (commit t (store sv)) as [[u|e] s] eqn:Hc; pose proof (commit_view _ _ _ _ Hc) as Hv;
      intros [= <- <-]; (do 2 (split; [done|])); exists (Ok x), t.
    + split_and!; [done..|by left|]. by eapply commit_tracked.
    + split_and!; [done..|by right|done].
  - intros [= <- <-]. do 2 (split; [done|]). exists (Err e), t.
    split_and!; [done|apply drop_view|by left|]. apply drop_tracked.
Qed.

(** ** The abstract specification *)

Inductive call : Type :=
| CCreateTempPin | CTempPin (p : TempPin) (cs : list Cid)
| CIter | CContains (c : Cid) | CGet (c : Cid) | CInsert (b : Block)
| CAlias (a : Bytes) (c : option Cid) | CAliases | CResolve (a : Bytes)
| CReverseAlias (c : Cid) | CMissing (c : Cid) | CFlush (joined : bool).

Inductive reply : Type :=
| RUnit | RPin (p : TempPin) | RCids (l : list Cid) | RBool (b : bool)
| RData (d : option Bytes) | RCid (c : option Cid) | RAliases (l : list (Bytes * Cid))
| RNames (s : option (gset Bytes)).

(** A successful call in view [v] may answer [r] and leave view [v']. *)
Inductive spec : View → call → reply → View → Prop :=
| spec_create_pin v p : spec v CCreateTempPin (RPin p) v
| spec_temp_pin v p cs : spec v (CTempPin p cs) RUnit v
| spec_iter v l :
    (∀ c, c ∈ l ↔ is_Some (v_blocks v !! c)) → spec v CIter (RCids l) v
| spec_contains v c :
    spec v (CContains c) (RBool (bool_decide (is_Some (v_blocks v !! c)))) v
| spec_get v c : spec v (CGet c) (RData (v_blocks v !! c)) v
| spec_insert v b d :
    d = block_data b ∨ v_blocks v !! block_cid b = Some d →
    spec v (CInsert b) RUnit (MkView (<[block_cid b := d]> (v_blocks v)) (v_aliases v))
| spec_alias v a c :
    spec v (CAlias a c) RUnit (MkView (v_blocks v) (partial_alter (λ _, c) a (v_aliases v)))
| spec_aliases v l :
    (∀ a c, (a, c) ∈ l ↔ v_aliases v !! a = Some c) → spec v CAliases (RAliases l) v
| spec_resolve v a : spec v (CResolve a) (RCid (v_aliases v !! a)) v
| spec_reverse_unknown v c :
    v_blocks v !! c = None → spec v (CReverseAlias c) (RNames None) v
| spec_reverse v c names :
    is_Some (v_blocks v !! c) →
    (∀ a, a ∈ names ↔ ∃ root, v_aliases v !! a = Some root ∧ reach links v root c) →
    spec v (CReverseAlias c) (RNames (Some names)) v
| spec_missing v c l :
    (∀ m, m ∈ l ↔ v_blocks v !! m = None ∧ reach links v c m) →
    spec v (CMissing c) (RCids l) v
| spec_flush v j : spec v (CFlush j) RUnit v.

(** ** The implementation of calls *)

Definition answer {R} (f : R → reply) (x : result R StoreError * StorageService)
    : result reply StoreError * StorageService :=
  (match x.1 with Ok r => Ok (f r) | Err e => Err e end, x.2).

Definition exec (c : call) sv : result reply StoreError * StorageService :=
  match c with
  | CCreateTempPin => answer RPin (create_temp_pin sv)
  | CTempPin p cs => let '(r, _, sv') := temp_pin p cs sv in answer (λ _, RUnit) (r, sv')
  | CIter => answer RCids (iter sv)
  | CContains c => answer RBool (contains c sv)
  | CGet c => answer RData (get c sv)
  | CInsert b => answer (λ _, RUnit) (insert_block b sv)
  | CAlias a c => answer (λ _, RUnit) (alias a c sv)
  | CAliases => answer RAliases (aliases sv)
  | CResolve a => answer RCid (resolve a sv)
  | CReverseAlias c => answer RNames (reverse_alias c sv)
  | CMissing c => answer RCids (missing_blocks c sv)
  | CFlush j => answer (λ _, RUnit) (flush j sv)
  end.

(** ** Simulation *)

Lemma batch_temp_pin_view cs p t r p' t' :
  batch_temp_pin p cs t = (r, p', t') → tview t' = tview t.
Proof.
  revert p t. induction cs as [|c cs IH]; intros p t; cbn; [naive_solver|].
  destruct (extend_temp_pin p c t) as [[r1 p1] t1] eqn:He. apply extend_view in He.
  destruct r1; [|by intros [= _ _ <-]]. intros ->%IH. done.
Qed.

(** A failed call has had its effect, or none. *)
Definition spec_failed (v : View) (c : call) (v' : View) : Prop := v' = v ∨ ∃ r, spec v c r v'.

(** What a call may do to the contents, by its result. *)
Definition refines (c : call) sv (x : result reply StoreError * StorageService) : Prop :=
  match x with
  | (Ok r, sv') => spec (sview sv) c r (sview sv')
  | (Err _, sv') => spec_failed (sview sv) c (sview sv')
  end.

(** A call through [rw]: what the transaction does is what the service does. *)
Lemma answer_rw {R} op (f : Batch R) (g : R → reply) c sv :
  (∀ t res t', f t = (res, t') →
     match res with
     | Ok x => spec (tview t) c (g x) (tview t')
     | Err _ => spec_failed (tview t) c (tview t')
     end) →
  refines c sv (answer g (rw op f sv)).
Proof.
  intros Hf. unfold answer, refines. destruct (rw op f sv) as [r sv'] eqn:Hr. cbn.
  apply rw_inv in Hr as (_ & _ & res & t & Ht & -> & Hr & _). apply Hf in Ht.
  rewrite transaction_view in Ht. destruct Hr as [->|[Hok Hr]]; [by destruct res|].
  destruct res as [x|]; [|done]. destruct r; [done|]. right. eauto.
Qed.

(** The methods of [Batch], on the transaction it wraps. *)
Definition batch_answer {R} (f : R → reply) (m : Batch R) : Batch reply := λ t,
  let '(r, t) := m t in (match r with Ok x => Ok (f x) | Err e => Err e end, t).

Definition batch_call (c : call) : Batch reply :=
  match c with
  | CCreateTempPin => batch_answer RPin batch_create_temp_pin
  | CTempPin p cs =>
      batch_answer (λ _, RUnit) (λ t, let '(r, _, t) := batch_temp_pin p cs t in (r, t))
  | CIter => batch_answer RCids batch_iter
  | CContains c => batch_answer RBool (batch_contains c)
  | CGet c => batch_answer RData (batch_get c)
  | CInsert b => batch_answer (λ _, RUnit) (batch_insert b)
  | CAlias a c => batch_answer (λ _, RUnit) (batch_alias a c)
  | CAliases => batch_answer RAliases batch_aliases
  | CResolve a => batch_answer RCid (batch_resolve a)
  | CReverseAlias c => batch_answer RNames (batch_reverse_alias c)
  | CMissing c => batch_answer RCids (batch_missing_blocks c)
  | CFlush _ => λ t, (Ok RUnit, t)
  end.

(** [flush] is a call of the service, not of a batch. *)
Definition of_batch (c : call) : bool := match c with CFlush _ => false | _ => true end.

Lemma batch_call_refines c t :
  let '(r, t') := batch_call c t in
  match r with
  | Ok x => spec (tview t) c x (tview t')
  | Err _ => spec_failed (tview t) c (tview t')
  end.
Proof.
  destruct c; cbn [batch_call]; unfold batch_answer;
    lazymatch goal with
    | |- let '(_, _) := (let '(_, _) := ?m in _) in _ => destruct m as [res t'] eqn:H
    | _ => by constructor
    end.
  - unfold batch_create_temp_pin in H. pose proof (temp_pin_view t) as Hv.
    destruct (txn_temp_pin t) as [p t1]. cbn in Hv. simplify_eq. rewrite Hv. constructor.
  - destruct (batch_temp_pin p cs t) as [[r1 p1] t1] eqn:Hb. simplify_eq.
    rewrite (batch_temp_pin_view _ _ _ _ _ _ Hb). destruct res; [constructor | by left].
  - apply cids_view in H as [-> Hl]. destruct res; [|by left]. constructor. by apply Hl.
  - apply has_view in H as [-> Hb]. destruct res as [b|]; [|by left].
    rewrite (Hb b) by done. constructor.
  - apply get_view in H as [-> Hd]. destruct res as [d|]; [|by left].
    rewrite (Hd d) by done. constructor.
  - apply put_view in H as [[? ->]|(d & Hd & ->)]; destruct res; try done; [by left| |right];
      try eexists; by constructor.
  - apply alias_view in H as [[? ->]| ->]; destruct res; try done; [by left| |right];
      try eexists; constructor.
  - apply aliases_view in H as [-> Hl]. destruct res; [|by left]. constructor. by apply Hl.
  - apply resolve_view in H as [-> Hc]. destruct res as [x|]; [|by left].
    rewrite (Hc x) by done. constructor.
  - apply reverse_view in H as [-> Hn]. destruct res as [o|]; [|by left].
    specialize (Hn o eq_refl). destruct o; constructor; apply Hn.
  - apply missing_view in H as [-> Hm]. destruct res; [|by left]. constructor. by apply Hm.
Qed.

(** A call of the service that runs the method of [Batch] in a transaction of its own. *)
Lemma call_rw {R} op (f : Batch R) (g : R → reply) c sv :
  batch_answer g f = batch_call c → refines c sv (answer g (rw op f sv)).
Proof.
  intros Hc. apply answer_rw. intros t res t' H. pose proof (batch_call_refines c t) as Hr.
  rewrite <- Hc in Hr. unfold batch_answer in Hr. rewrite H in Hr. by destruct res.
Qed.

Lemma exec_refines c sv : refines c sv (exec c sv).
Proof.
  destruct c; cbn [exec]; try by apply call_rw.
  - unfold temp_pin. destruct (batch_temp_pin p cs (transaction (store sv))) as [[r0 p0] t0].
    pose proof (call_rw "temp_pin" (λ t, let '(r, _, t) := batch_temp_pin p cs t in (r, t))
      (λ _, RUnit) (CTempPin p cs) sv eq_refl) as H. by destruct (rw _ _ sv) as [r sv'].
  - unfold flush, observe_future, answer, refines, spec_failed, sview. cbn.
    destruct (store_flush (store sv)) as [[u|e] s] eqn:Hf; apply flush_view in Hf; cbn;
      destruct joined; cbn; rewrite ?Hf; auto; constructor.
Qed.

(** Only insertion and aliasing change the contents. *)
Definition writes (c : call) : bool :=
  match c with CInsert _ | CAlias _ _ => true | _ => false end.

Lemma spec_read v c r v' : writes c = false → spec v c r v' → v' = v.
Proof. intros Hw H. by destruct H. Qed.

Lemma exec_read c sv : writes c = false → sview (exec c sv).2 = sview sv.
Proof.
  intros Hw. pose proof (exec_refines c sv) as H. unfold refines in H.
  destruct (exec c sv) as [[r|e] sv']; [by eapply spec_read|].
  destruct H as [H|[r H]]; [done | by eapply spec_read].
Qed.

(** A sequence of calls, errors included. *)
Fixpoint exec_all (cs : list call) sv : list (result reply StoreError) * StorageService :=
  match cs with
  | [] => ([], sv)
  | c :: cs => let '(r, sv) := exec c sv in let '(rs, sv) := exec_all cs sv in (r :: rs, sv)
  end.

(** The same sequence on the specification. *)
Inductive spec_all : View → list call → list (result reply StoreError) → View → Prop :=
| spec_nil v : spec_all v [] [] v
| spec_ok v c r v' cs rs v'' :
    spec v c r v' → spec_all v' cs rs v'' → spec_all v (c :: cs) (Ok r :: rs) v''
| spec_err v c e v' cs rs v'' :
    spec_failed v c v' → spec_all v' cs rs v'' → spec_all v (c :: cs) (Err e :: rs) v''.
End rw.

(** A storage operation writes through: whatever [rw] returns, the contents of the store
    are those of the transaction after the closure, also when the closure or the commit
    failed.  A value that is returned is the closure's.  Every call is counted under its
    name and leaves the collector's settings alone. *)
Theorem rw_writes_through `{B : BlockStore, BL : !BlockStoreLaws} {R} op (f : Batch R) sv :
  let '(r, sv') := rw op f sv in
  let '(res, t) := f (transaction (store sv)) in
  same_settings sv sv' ∧
  QUERIES_TOTAL sv' = <[op := default 0 (QUERIES_TOTAL sv !! op) + 1]> (QUERIES_TOTAL sv) ∧
  view (store sv') = tview t ∧ (∀ x, r = Ok x → res = Ok x).
Proof.
  destruct (rw op f sv) as [r sv'] eqn:Hr. apply rw_inv in Hr as (? & ? & res & t & -> & ? & Hr & _).
  split_and!; [done..|]. intros x ->. by destruct Hr as [->|[_ ?]].
Qed.

(** Every sequence of calls to the storage service behaves like the same calls on a map from
    content ids to bytes and a map from aliases to content ids: successful calls return
    what the maps say and update them accordingly, failed calls do that or change nothing. *)
Theorem storage_refines `{B : BlockStore, BL : !BlockStoreLaws} cs sv :
  let '(rs, sv') := exec_all cs sv in spec_all (sview sv) cs rs (sview sv').
Proof.
  revert sv. induction cs as [|c cs IH]; intros sv; cbn; [constructor|].
  pose proof (exec_refines c sv) as Hc. destruct (exec c sv) as [r sv1].
  specialize (IH sv1). destruct (exec_all cs sv1) as [rs sv'].
  destruct r as [r|e]; by econstructor.
Qed.

(** ** Batches *)
Section batches.
Context `{B : BlockStore, BL : !BlockStoreLaws}.

(** A closure that makes calls one after the other, each followed by [?]. *)
Fixpoint batch_calls (cs : list call) (t : Transaction) : result (list reply) StoreError * Transaction :=
  match cs with
  | [] => (Ok [], t)
  | c :: cs =>
      let '(r, t) := batch_call c t in
      match r with
      | Err e => (Err e, t)
      | Ok x =>
          let '(rs, t) := batch_calls cs t in
          (match rs with Ok xs => Ok (x :: xs) | Err e => Err e end, t)
      end
  end.

(** Calls that all succeed, on the specification. *)
Inductive spec_each : View → list call → list reply → View → Prop :=
| each_nil v : spec_each v [] [] v
| each_cons v c r v1 cs rs v2 :
    spec v c r v1 → spec_each v1 cs rs v2 → spec_each v (c :: cs) (r :: rs) v2.

(** The closure stops at the first call that fails. *)
Lemma batch_calls_refines cs t :
  let '(r, t') := batch_calls cs t in
  match r with
  | Ok xs => spec_each (tview t) cs xs (tview t')
  | Err _ => ∃ done c rest xs v, cs = done ++ c :: rest ∧
      spec_each (tview t) done xs v ∧ spec_failed v c (tview t')
  end.
Proof.
  revert t. induction cs as [|c cs IH]; intros t; cbn; [constructor|].
  pose proof (batch_call_refines c t) as Hc. destruct (batch_call c t) as [[x|e] t1].
  - specialize (IH t1). destruct (batch_calls cs t1) as [[xs|e] t2].
    + by econstructor.
    + destruct IH as (ds & c' & rest & xs & v & -> & Hs & Hf).
      exists (c :: ds), c', rest, (x :: xs), v. split_and!; [done|by econstructor|done].
  - exists [], c, cs, [], (tview t). split_and!; [done|constructor|done].
Qed.
End batches.

(** C6: a batch of storage operations ([Ipfs::batch_ops]) is no transaction.  Let its
    closure make any calls - pins, look-ups, insertions, aliases - and stop at the first
    that fails.  If the batch succeeds, every call had its effect on the maps of blocks and
    aliases, in order, the values returned are what the maps said at that moment, and the
    cache tracker was told of what was accessed.  If a call failed, those before it keep
    their effect, the failed one has had its effect or none, the later ones have had none,
    and the cache tracker was told nothing.  Otherwise the commit failed, and all calls
    have had their effect.  The batch is counted once, and the collector's settings stay. *)
Theorem batch_spec `{B : BlockStore, BL : !BlockStoreLaws} op cs sv :
  forallb of_batch cs = true →
  let '(r, sv') := rw op (batch_calls cs) sv in
  same_settings sv sv' ∧
  QUERIES_TOTAL sv' = <[op := default 0 (QUERIES_TOTAL sv !! op) + 1]> (QUERIES_TOTAL sv) ∧
  match r with
  | Ok xs =>
      spec_each (sview sv) cs xs (sview sv') ∧
      tracked (store sv') =
        tracked (store sv) ++ accessed (batch_calls cs (transaction (store sv))).2
  | Err _ =>
      (∃ done c rest xs v, cs = done ++ c :: rest ∧ spec_each (sview sv) done xs v ∧
         spec_failed v c (sview sv') ∧ tracked (store sv') = tracked (store sv)) ∨
      (∃ xs, (batch_calls cs (transaction (store sv))).1 = Ok xs ∧
         spec_each (sview sv) cs xs (sview sv'))
  end.
Proof.
  intros _. destruct (rw op (batch_calls cs) sv) as [r sv'] eqn:Hr.
  apply rw_inv in Hr as (Hs & Hq & res & t & Ht & Hv & Hr & Htr). split_and!; [done..|].
  pose proof (batch_calls_refines cs (transaction (store sv))) as Hc.
  rewrite Ht in *. cbn [fst snd]. rewrite transaction_view in Hc. fold (sview sv) in Hc.
  rewrite <- Hv in Hc. destruct Hr as [->|[Hok Hno]].
  - destruct res as [xs|e]; [done|]. left. destruct Hc as (ds & c & rest & xs & v & ? & ? & ?).
    by exists ds, c, rest, xs, v.
  - destruct res as [xs|]; [|done]. destruct r; [done|]. right. by exists xs.
Qed.

(** ** Eviction *)
Section eviction.
Context `{B : BlockStore, BL : !BlockStoreLaws}.

(** What garbage collection may do to a store. *)
Definition collected (s s' : Store) : Prop :=
  v_aliases (view s') = v_aliases (view s) ∧
  (∀ c, pinned s c → v_blocks (view s') !! c = v_blocks (view s) !! c ∧ pinned s' c) ∧
  (∀ c x, v_blocks (view s') !! c = Some x → v_blocks (view s) !! c = Some x).

#[local] Instance collected_trans : Transitive collected.
Proof.
  intros s1 s2 s3 (A1 & P1 & S1) (A2 & P2 & S2). split_and!.
  - congruence.
  - intros c Hc. destruct (P1 c Hc) as [E1 H2]. destruct (P2 c H2) as [E2 H3].
    split; [congruence | done].
  - eauto.
Qed.

#[local] Instance collected_refl : Reflexive collected.
Proof. by intros s. Qed.

Lemma evict_round_collected sv : collected (store sv) (store (evict_round sv).2).
Proof.
  unfold evict_round. destruct (incremental_gc _ _ _) as [r s] eqn:Hg. by apply gc_view in Hg.
Qed.

(** What every round does and what others do, the loop does. *)
Lemma evict_loop_inv (R : StorageService → StorageService → Prop) `{!PreOrder R} fuel others sv r sv' :
  (∀ sv, R sv (evict_round sv).2) → (∀ k sv, R sv (others k sv)) →
  evict_loop fuel others sv = Some (r, sv') → R sv sv'.
Proof.
  intros Hr. revert others sv. induction fuel as [|fuel IH]; intros others sv Ho; cbn; [done|].
  specialize (Hr sv) as H1. destruct (evict_round sv) as [[[]|e] sv1]; cbn in H1;
    intros H; simplify_eq; try done.
  etrans; [exact H1|]. etrans; [apply (Ho O)|]. eapply IH; [|exact H]. intros k. apply Ho.
Qed.

Lemma evict_loop_collected fuel sv r sv' :
  evict_loop fuel alone sv = Some (r, sv') → collected (store sv) (store sv').
Proof.
  assert (PreOrder (λ sv sv', collected (store sv) (store sv'))) as Hpre.
  { split; [by intros ?|]. intros s1 s2 s3. apply collected_trans. }
  apply (evict_loop_inv (λ sv sv', collected (store sv) (store sv'))).
  - intros sv1. apply evict_round_collected.
  - by intros.
Qed.

(** Within its limits the store keeps everything. *)
Lemma evict_loop_within fuel sv r sv' :
  evict_loop fuel alone sv = Some (r, sv') → within_limits (store sv) →
  sview sv' = sview sv ∧ within_limits (store sv').
Proof.
  revert sv. induction fuel as [|fuel IH]; intros sv; cbn; [done|]. unfold evict_round.
  destruct (incremental_gc _ _ (store sv)) as [[[]|e] s1] eqn:Hg; intros H Hw; simplify_eq;
    apply gc_within in Hg as [Hv Hl]; try done.
  destruct (IH (set_store s1 sv) H Hl) as [-> ?]. done.
Qed.

Lemma evict_loop_done fuel others sv u sv' :
  evict_loop fuel others sv = Some (Ok u, sv') →
  within_limits (store sv') ∨ ∀ c, is_Some (v_blocks (sview sv') !! c) → pinned (store sv') c.
Proof.
  revert others sv. induction fuel as [|fuel IH]; intros others sv; cbn; [done|]. unfold evict_round.
  destruct (incremental_gc _ _ (store sv)) as [[[]|e] s1] eqn:Hg; intros H; simplify_eq;
    [by eapply gc_done | by eapply IH].
Qed.

(** Others may use the storage between the rounds, as long as they add no block. *)
Lemma evict_loop_enough fuel others sv :
  0 < svc_gc_min_blocks sv →
  (∀ k sv, (block_count (store (others k sv)) ≤ block_count (store sv))%nat ∧
           svc_gc_min_blocks (others k sv) = svc_gc_min_blocks sv) →
  (block_count (store sv) < fuel)%nat → ∃ x, evict_loop fuel others sv = Some x.
Proof.
  revert others sv. induction fuel as [|fuel IH]; intros others sv Hn Ho Hf; [lia|]. cbn.
  unfold evict_round.
  destruct (incremental_gc _ _ (store sv)) as [[[]|e] s1] eqn:Hg; [by eauto | | by eauto].
  apply gc_progress in Hg; [|done]. destruct (Ho O (set_store s1 sv)) as [Hc Hm]. apply IH.
  - by rewrite Hm.
  - intros k. apply Ho.
  - cbn in Hc. lia.
Qed.
End eviction.

(** C29: eviction does its work and ends.  With a positive minimum of blocks per round, the
    loop returns after at most one more round than there are blocks, also when other threads
    use the storage between the rounds, as long as they add no block.  If it succeeds the
    store is within its limits or has only pinned blocks left.  When nobody else uses the
    storage meanwhile, all aliases and all pinned blocks are still there afterwards and no
    block was added or altered, and nothing at all is deleted from a store that was within
    its limits. *)
Theorem evict_terminates `{I : Ipld, B : !BlockStore, BL : !BlockStoreLaws} others joined sv :
  0 < svc_gc_min_blocks sv →
  (∀ k sv, (block_count (store (others k sv)) ≤ block_count (store sv))%nat ∧
           svc_gc_min_blocks (others k sv) = svc_gc_min_blocks sv) →
  (∃ r sv', evict (S (block_count (store sv))) others joined sv = Some (r, sv') ∧
     (is_ok r = true → within_limits (store sv') ∨
        ∀ c, is_Some (v_blocks (sview sv') !! c) → pinned (store sv') c)) ∧
  ∃ r sv', evict (S (block_count (store sv))) alone joined sv = Some (r, sv') ∧
    v_aliases (sview sv') = v_aliases (sview sv) ∧
    (∀ c, pinned (store sv) c → v_blocks (sview sv') !! c = v_blocks (sview sv) !! c) ∧
    (∀ c x, v_blocks (sview sv') !! c = Some x → v_blocks (sview sv) !! c = Some x) ∧
    (is_ok r = true → within_limits (store sv') ∨
       ∀ c, is_Some (v_blocks (sview sv') !! c) → pinned (store sv') c) ∧
    (within_limits (store sv) → sview sv' = sview sv).
Proof.
  intros Hn Ho. unfold evict. split.
  - destruct (evict_loop_enough (S (block_count (store sv))) others sv Hn Ho) as [[r sv'] He]; [lia|].
    rewrite He. cbn. do 2 eexists. split; [done|]. destruct joined; [|done]. destruct r; [|done].
    intros _. by eapply evict_loop_done.
  - destruct (evict_loop_enough (S (block_count (store sv))) alone sv Hn) as [[r sv'] He]; [done|lia|].
    rewrite He. cbn. do 2 eexists. split; [done|].
    pose proof (evict_loop_collected _ _ _ _ He) as (Ha & Hp & Hs). split_and!; [done| |done| |].
    + intros c Hc. by apply Hp.
    + destruct joined; [|done]. destruct r; [|done]. intros _. by eapply evict_loop_done.
    + intros Hw. by eapply evict_loop_within.
Qed.

(** ** A concrete block store

    An in-memory store that satisfies the laws.  The bytes of a block that are smaller
    than its content id are its links; what can be reached from aliases and temporary
    pins is pinned.  As long as there are too many blocks, each collection step deletes
    the unpinned block that was not used for the longest time. *)
Record MemStore : Type := MkMem {
  m_blocks : gmap N Bytes;
  m_aliases : gmap Bytes N;
  m_pins : list N;
  m_limit : nat;
  (** the accesses the cache tracker was told of, oldest first *)
  m_used : list N;
}.

Definition m_empty (limit : nat) : MemStore := MkMem ∅ ∅ [] limit [].

(** The contents of a transaction, with what the cache tracker knows then; the blocks in
    the order of their last access. *)
Definition m_commit (t : MemStore) (log : list N) : MemStore :=
  MkMem (m_blocks t) (m_aliases t) (m_pins t) (m_limit t) log.
Definition m_order (log : list N) : list N := foldl (λ l c, filter (.≠ c) l ++ [c]) [] log.

Definition m_links (c : N) (d : Bytes) : list N := filter (λ c', (c' < c)%N) (Z.to_N <$> d).

(** A content id and its descendants. *)
Fixpoint m_desc (fuel : nat) (bs : gmap N Bytes) (c : N) : list N :=
  c :: match fuel, bs !! c with
       | S fuel, Some d => m_links c d ≫= m_desc fuel bs
       | _, _ => []
       end.
Definition m_reach (bs : gmap N Bytes) (c : N) : list N := m_desc (N.to_nat c) bs c.

Lemma m_desc_reach fuel bs al c x :
  (N.to_nat c ≤ fuel)%nat →
  x ∈ m_desc fuel bs c ↔ reach (I := numbered) m_links (MkView bs al) c x.
Proof.
  revert c. induction fuel as [|fuel IH]; intros c Hc.
  - cbn. rewrite list_elem_of_singleton. split; [by intros ->|].
    intros [->|(y & (d & _ & Hy) & _)]%rtc_inv; [done|].
    apply list_elem_of_filter in Hy as [Hy _]. lia.
  - cbn [m_desc]. rewrite elem_of_cons. split.
    + intros [->|Hx]; [done|]. destruct (bs !! c) as [d|] eqn:Hd; [|by apply not_elem_of_nil in Hx].
      apply list_elem_of_bind in Hx as (y & Hx & Hy). econstructor; [by exists d|].
      apply IH; [|done]. apply list_elem_of_filter in Hy as [Hy _]. lia.
    + intros [->|(y & (d & Hd & Hy) & Hx)]%rtc_inv; [by left|]. right. cbn in Hd. rewrite Hd.
      apply list_elem_of_bind. exists y. split; [|done]. apply IH; [|done].
      apply list_elem_of_filter in Hy as [Hy _]. lia.
Qed.

Lemma m_reach_spec bs al c x :
  x ∈ m_reach bs c ↔ reach (I := numbered) m_links (MkView bs al) c x.
Proof. by apply m_desc_reach. Qed.

(** Deleting a block that cannot be reached changes nothing. *)
Lemma m_desc_delete fuel bs c x :
  x ∉ m_desc fuel bs c → m_desc fuel (delete x bs) c = m_desc fuel bs c.
Proof.
  revert c. induction fuel as [|fuel IH]; intros c; cbn; [done|].
  intros [Hne Hx]%not_elem_of_cons. rewrite lookup_delete_ne by done. f_equal.
  destruct (bs !! c) as [d|]; [|done]. induction (m_links c d) as [|y l IHl]; cbn; [done|].
  cbn in Hx. apply not_elem_of_app in Hx as [Hy Hl]. by rewrite IH, IHl.
Qed.

Definition m_roots (s : MemStore) : list N := m_pins s ++ (map_to_list (m_aliases s)).*2.
Definition m_pinned (s : MemStore) (c : N) : bool :=
  bool_decide (c ∈ m_roots s ≫= m_reach (m_blocks s)).

Definition m_victims (s : MemStore) : list N :=
  if bool_decide (size (m_blocks s) ≤ m_limit s)%nat then []
  else filter (λ c, is_Some (m_blocks s !! c) ∧ m_pinned s c = false)
         (m_order (m_used s) ++ (map_to_list (m_blocks s)).*1).

Definition m_gc (s : MemStore) : result bool string * MemStore :=
  match m_victims s with
  | [] => (Ok true, s)
  | c :: _ =>
      (Ok false, MkMem (delete c (m_blocks s)) (m_aliases s) (m_pins s) (m_limit s) (m_used s))
  end.

#[export] Instance mem_store : BlockStore := {
  StoreError := string;
  BlockNotFound c := "block not found";
  JoinError := "task lost";
  TempPin := list N;
  Store := MemStore;
  Transaction := MemStore * list N;
  transaction s := (s, []);
  commit t s := (Ok (), m_commit t.1 (m_used s ++ t.2));
  drop_txn t s := m_commit t.1 (m_used s);
  txn_temp_pin t := ([], t);
  extend_temp_pin p c t :=
    (Ok (), c :: p,
     (MkMem (m_blocks t.1) (m_aliases t.1) (c :: m_pins t.1) (m_limit t.1) (m_used t.1), t.2));
  get_block_cids t := (Ok (map_to_list (m_blocks t.1)).*1, t);
  has_block c t := (Ok (bool_decide (is_Some (m_blocks t.1 !! c))), t);
  get_block c t := (Ok (m_blocks t.1 !! c), (t.1, t.2 ++ [c]));
  put_block b t :=
    (Ok (), (MkMem (<[b.1 := b.2]> (m_blocks t.1)) (m_aliases t.1) (m_pins t.1)
               (m_limit t.1) (m_used t.1), t.2 ++ [b.1]));
  txn_resolve a t := (Ok (m_aliases t.1 !! a), t);
  txn_alias a c t :=
    (Ok (), (MkMem (m_blocks t.1) (partial_alter (λ _, c) a (m_aliases t.1)) (m_pins t.1)
               (m_limit t.1) (m_used t.1), t.2));
  txn_aliases t := (Ok (map_to_list (m_aliases t.1)), t);
  txn_reverse_alias c t :=
    (Ok (if bool_decide (is_Some (m_blocks t.1 !! c))
         then Some (dom (filter (λ x : Bytes * N, c ∈ m_reach (m_blocks t.1) x.2) (m_aliases t.1)))
         else None), t);
  get_missing_blocks c t :=
    (Ok (filter (λ m, m_blocks t.1 !! m = None) (m_reach (m_blocks t.1) c)), t);
  incremental_gc n d s := m_gc s;
  store_flush s := (Ok (), s);
  get_store_stats s := Ok (Z.of_nat (size (m_blocks s)), 0);
}.

Definition m_view (s : MemStore) : View := MkView (m_blocks s) (m_aliases s).

Lemma m_victims_elem s c :
  c ∈ m_victims s → is_Some (m_blocks s !! c) ∧ m_pinned s c = false.
Proof.
  unfold m_victims. case_bool_decide; [by intros ?%not_elem_of_nil|].
  by intros [? _]%list_elem_of_filter.
Qed.

Lemma m_gc_within s r s' :
  m_gc s = (r, s') → (size (m_blocks s) ≤ m_limit s)%nat → s' = s.
Proof. unfold m_gc, m_victims. intros H Hw. rewrite bool_decide_true in H by done. naive_solver. Qed.

Lemma m_gc_done s s' :
  m_gc s = (Ok true, s') →
  (size (m_blocks s') ≤ m_limit s')%nat ∨ ∀ c, is_Some (m_blocks s' !! c) → m_pinned s' c = true.
Proof.
  unfold m_gc. destruct (m_victims s) as [|c0 l] eqn:Hv; [|done]. intros [= <-].
  unfold m_victims in Hv. case_bool_decide as Hb; [by left|]. right. intros c [d Hd].
  destruct (m_pinned s c) eqn:Hp; [done|].
  assert (c ∈ ([] : list N)) as []%not_elem_of_nil. rewrite <- Hv. apply list_elem_of_filter.
  split; [by rewrite Hd|]. apply elem_of_app. right. apply list_elem_of_fmap.
  exists (c, d). split; [done | by apply elem_of_map_to_list].
Qed.

Lemma m_gc_view s r s' :
  m_gc s = (r, s') →
  m_aliases s' = m_aliases s ∧
  (∀ c, m_pinned s c = true → m_blocks s' !! c = m_blocks s !! c ∧ m_pinned s' c = true) ∧
  (∀ c x, m_blocks s' !! c = Some x → m_blocks s !! c = Some x).
Proof.
  unfold m_gc. destruct (m_victims s) as [|c0 l] eqn:Hv; intros [= <- <-]; [done|].
  destruct (m_victims_elem s c0) as [_ Hc0]; [rewrite Hv; by left|].
  cbn. split_and!; [done| |].
  - intros c Hc. rewrite lookup_delete_ne by congruence. split; [done|].
    unfold m_pinned in *. apply bool_decide_eq_true. apply bool_decide_eq_true in Hc.
    apply bool_decide_eq_false in Hc0.
    apply list_elem_of_bind in Hc as (r & Hc & Hr). apply list_elem_of_bind.
    exists r. split; [|done]. unfold m_reach. cbn. rewrite m_desc_delete; [done|].
    intros Hin. apply Hc0, list_elem_of_bind. eauto.
  - intros c x. rewrite lookup_delete. by case_decide.
Qed.

Lemma m_gc_progress s s' :
  m_gc s = (Ok false, s') → (size (m_blocks s') < size (m_blocks s))%nat.
Proof.
  unfold m_gc. destruct (m_victims s) as [|c l] eqn:Hv; intros [= <-]. cbn.
  destruct (m_victims_elem s c) as [[x Hx] _]; [rewrite Hv; by left|].
  rewrite map_size_delete_Some by done.
  destruct (size (m_blocks s)) eqn:Hs; [|lia].
  apply map_size_empty_inv in Hs. by rewrite Hs, lookup_empty in Hx.
Qed.

#[export, refine] Instance mem_laws : BlockStoreLaws (B := mem_store) := {
  view := m_view;
  tview t := m_view t.1;
  tracked := m_used;
  accessed := snd;
  links := m_links;
  pinned s c := m_pinned s c = true;
  block_count s := size (m_blocks s);
  within_limits s := (size (m_blocks s) ≤ m_limit s)%nat;
}.
Proof.
  all: cbn; intros; simplify_eq; unfold m_view in *; cbn in *; try done.
  - split; [done|]. intros l [= <-] c. rewrite list_elem_of_fmap. split.
    + intros ([c' x] & -> & Hx%elem_of_map_to_list). by eexists.
    + intros [x Hx%elem_of_map_to_list]. by exists (c, x).
  - split; [done|]. naive_solver.
  - split; [done|]. naive_solver.
  - right. eexists. split; [by left | done].
  - split; [done|]. naive_solver.
  - by right.
  - split; [done|]. intros l [= <-] a c. apply elem_of_map_to_list.
  - split; [done|]. intros o [= <-]. case_bool_decide as Hc; [|by apply eq_None_not_Some].
    split; [done|]. intros a. rewrite elem_of_dom. unfold is_Some.
    setoid_rewrite map_lookup_filter_Some. cbn. setoid_rewrite m_reach_spec. done.
  - split; [done|]. intros l [= <-] m. rewrite list_elem_of_filter. by rewrite m_reach_spec.
  - unfold m_pinned. apply bool_decide_eq_true, list_elem_of_bind. exists root.
    split; [by eapply m_reach_spec|]. apply elem_of_app. right. apply list_elem_of_fmap.
    exists (a, root). split; [done | by apply elem_of_map_to_list].
  - by apply m_gc_view in H.
  - apply m_gc_within in H as ->; done.
  - by apply m_gc_done in H.
  - by apply m_gc_progress in H0.
Defined.

Definition service0 : StorageService :=
  MkService (m_empty 0) 1 1000 true ∅.

(** Two blocks, the first of them aliased. *)
Definition service1 : StorageService :=
  (exec_all [CInsert (1%N, [10]); CInsert (2%N, [20]); CAlias [120] (Some 1%N)] service0).2.

Lemma evict_terminates_witness :
  ∃ r sv', evict 3 alone true service1 = Some (r, sv') ∧
    v_blocks (sview sv') !! 1%N = Some [10].
Proof.
  destruct (evict_terminates (I := numbered) alone true service1)
    as (_ & r & sv' & E & _ & Hp & _); [by vm_compute|done|].
  exists r, sv'. split; [exact E|]. etrans; [apply (Hp 1%N)|]; by vm_compute.
Defined.

(** A batch of three calls. *)
Lemma batch_spec_witness :
  let cs := [CInsert (1%N, [10]); CAlias [120] (Some 1%N); CGet 1%N] in
  let '(r, sv') := rw "batch_ops" (batch_calls cs) service0 in
  ∃ xs, r = Ok xs ∧ spec_each (sview service0) cs xs (sview sv') ∧ tracked (store sv') = [1%N; 1%N].
Proof.
  intros cs. pose proof (batch_spec "batch_ops" cs service0 eq_refl) as H.
  destruct (rw "batch_ops" (batch_calls cs) service0) as [r sv'] eqn:Hr.
  destruct H as (_ & _ & H). destruct r as [xs|e].
  - exists xs. destruct H as [H1 H2]. split_and!; [done|exact H1|]. rewrite H2. by vm_compute.
  - exfalso. apply (f_equal (λ x, is_ok x.1)) in Hr. by vm_compute in Hr.
Defined.
