(* ===== verification/Retention.v ===== *)
(** * What the collector keeps

    The storage service ([src/db.rs]) is used by clients and by bitswap while its
    collector runs in the background and clients ask for eviction.  Whatever they do in
    whatever order, everything that can be reached from an alias stays, until the alias
    itself is changed. *)

From S2P Require Import Prelude Duration Ipld Db DbSpec.

Open Scope Z_scope.

Section retention.
Context `{B : BlockStore, BL : !BlockStoreLaws}.
Implicit Types (sv : StorageService) (v : View).

(** What happens to the storage while its lock is held: a call, a round of the collector, a
    round of an eviction. *)
Inductive action : Type :=
| ACall (c : call)
| ACollect
| AEvict.

Definition perform (x : action) sv : StorageService :=
  match x with
  | ACall c => (exec c sv).2
  | ACollect => gc_round sv
  | AEvict => (evict_round sv).2
  end.

Inductive action_step : StorageService → action → StorageService → Prop :=
| step_action sv x : action_step sv x (perform x sv).

Inductive action_run : StorageService → list action → StorageService → Prop :=
| run_nil sv : action_run sv [] sv
| run_cons sv x sv1 xs sv2 :
    action_step sv x sv1 → action_run sv1 xs sv2 → action_run sv (x :: xs) sv2.

Lemma action_run_app sv1 xs sv2 ys sv3 :
  action_run sv1 xs sv2 → action_run sv2 ys sv3 → action_run sv1 (xs ++ ys) sv3.
Proof. induction 1; cbn; eauto using run_cons. Qed.

Definition perform_all (xs : list action) sv : StorageService := foldl (λ sv x, perform x sv) sv xs.

Lemma perform_all_run xs sv : action_run sv xs (perform_all xs sv).
Proof.
  revert sv. induction xs as [|x xs IH]; intros sv; cbn; [constructor|].
  econstructor; [constructor|apply IH].
Qed.

(** An eviction during which other threads do [between k] after round [k] is a sequence of
    such actions. *)
Lemma evict_run fuel between joined sv r sv' :
  evict fuel (λ k, perform_all (between k)) joined sv = Some (r, sv') →
  ∃ xs, action_run sv xs sv' ∧ ∀ x, x ∈ xs → x = AEvict ∨ ∃ k, x ∈ between k.
Proof.
  unfold evict. destruct (evict_loop _ _ _) as [[r1 sv1]|] eqn:Hl; [|done]. intros [= _ <-].
  revert between sv Hl. induction fuel as [|fuel IH]; intros between sv; cbn; [done|].
  assert (action_step sv AEvict (evict_round sv).2) as Hs by apply (step_action sv AEvict).
  destruct (evict_round sv) as [[[]|e] sv2] eqn:Hr; cbn in Hs.
  - intros [= <- <-]. exists [AEvict]. split; [by econstructor; [|constructor]|]. set_solver.
  - intros (xs & Hrun & Hx)%(IH (λ k, between (S k))).
    exists (AEvict :: between O ++ xs). split.
    + econstructor; [exact Hs|]. eapply action_run_app; [apply perform_all_run|exact Hrun].
    + intros x [->|[Hb|Hi]%elem_of_app]%elem_of_cons; [by left|by right; exists O|].
      destruct (Hx x Hi) as [->|[k Hk]]; [by left|]. right. by exists (S k).
  - intros [= <- <-]. exists [AEvict]. split; [by econstructor; [|constructor]|]. set_solver.
Qed.

(** The alias is still there, with every stored block that could be reached from it. *)
Definition retains (v : View) (a : Bytes) (root : Cid) (v' : View) : Prop :=
  v_aliases v' !! a = Some root ∧
  ∀ c d, reach links v root c → v_blocks v !! c = Some d → v_blocks v' !! c = Some d.

(** An action that does not touch the alias; a block that is inserted again carries the
    bytes that are stored under its content id. *)
Definition harmless (v : View) (a : Bytes) (root : Cid) (x : action) : Prop :=
  match x with
  | ACall (CAlias a' _) => a' ≠ a
  | ACall (CInsert b) =>
      ∀ d, reach links v root (block_cid b) → v_blocks v !! block_cid b = Some d → d = block_data b
  | _ => True
  end.

(** What could be reached can still be reached. *)
Lemma retains_reach v a root v' c :
  retains v a root v' → reach links v root c → reach links v' root c.
Proof.
  intros [_ Hb]. unfold reach. revert c. apply rtc_ind_r; [done|].
  intros c c' Hr (d & Hd & Hl) IH. eapply rtc_r; [exact IH|]. exists d. eauto.
Qed.

(** A single call. *)
Lemma spec_retains v a root v1 c r v2 :
  harmless v a root (ACall c) → retains v a root v1 → spec v1 c r v2 → retains v a root v2.
Proof.
  intros Hh [Ha Hb] Hs. destruct Hs; try done; cbn in Hh; split; cbn.
  - done.
  - intros c d' Hr Hc. rewrite lookup_insert. case_decide as Heq; [|by apply Hb].
    subst c. f_equal. specialize (Hb _ _ Hr Hc) as Hb1. pose proof (Hh _ Hr Hc) as Hh1.
    destruct H; congruence.
  - rewrite lookup_partial_alter, decide_False by done. done.
  - done.
Qed.

Lemma call_retains v a root c sv :
  harmless v a root (ACall c) → retains v a root (sview sv) →
  retains v a root (sview (exec c sv).2).
Proof.
  intros Hh Hr. pose proof (exec_refines c sv) as H. unfold refines in H.
  destruct (exec c sv) as [[r|e] sv']; cbn; [by eapply spec_retains|].
  destruct H as [->|[r H]]; [done | by eapply spec_retains].
Qed.

(** Collection, since what can be reached from the alias is pinned. *)
Lemma collected_retains v a root s s' :
  retains v a root (view s) → collected s s' → retains v a root (view s').
Proof.
  intros Hr (Ha & Hp & _). split; [rewrite Ha; apply Hr|]. intros c d Hc Hd.
  destruct (Hp c) as [-> _]; [|by apply Hr].
  eapply alias_pinned; [apply Hr | by eapply retains_reach].
Qed.

Lemma step_retains v a root sv x sv' :
  harmless v a root x → retains v a root (sview sv) → action_step sv x sv' →
  retains v a root (sview sv').
Proof.
  intros Hh Hr Hs. destruct Hs as [sv x]. destruct x as [c| |]; cbn [perform].
  - by apply call_retains.
  - unfold gc_round. destruct (gc_task sv); [|done].
    destruct (incremental_gc _ _ (store sv)) as [r s'] eqn:Hg. eapply collected_retains; [exact Hr|].
    by apply gc_view in Hg.
  - eapply collected_retains; [exact Hr|]. apply evict_round_collected.
Qed.
End retention.

(** The alias still names the root, and all that could be reached from it is still there. *)
Definition kept_dag `{BL : BlockStoreLaws} (a : Bytes) (root : Cid) (sv sv' : StorageService) : Prop :=
  v_aliases (sview sv') !! a = Some root ∧
  ∀ c, reach links (sview sv) root c →
    reach links (sview sv') root c ∧
    ∀ d, v_blocks (sview sv) !! c = Some d → v_blocks (sview sv') !! c = Some d.

Lemma run_keeps_dag `{BL : BlockStoreLaws} a root sv xs sv' :
  v_aliases (sview sv) !! a = Some root → action_run sv xs sv' →
  (∀ x, x ∈ xs → harmless (sview sv) a root x) → kept_dag a root sv sv'.
Proof.
  intros Ha Hr Hh. unfold kept_dag. set (v := sview sv) in *.
  assert (retains v a root (sview sv')) as Hv.
  { assert (retains v a root (sview sv)) as H0 by done. clearbody v. clear Ha. revert H0 Hh.
    induction Hr as [sv|sv x sv1 xs sv2 Hs _ IH]; [done|]. intros H0 Hh. apply IH.
    - eapply step_retains; [apply Hh; left | exact H0 | exact Hs].
    - intros y Hy. apply Hh. by right. }
  split; [apply Hv|]. intros c Hc. split; [by eapply retains_reach|]. intros d. by apply Hv.
Qed.

(** C7: a DAG that is named is never lost.  Let a block be stored and reachable from the root
    of an alias.  After any sequence of storage calls - failed ones included -, rounds of
    the collector and rounds of evictions, in any interleaving, that neither re-defines this
    alias nor inserts, under the content id of a stored block of the DAG, other bytes than
    the stored ones - so in particular whenever content ids are hashes - the alias still
    names the root and the block is still stored with the same bytes, and so is everything
    it could be reached through.  The whole eviction is such a sequence, whatever other
    threads do between its rounds. *)
Theorem aliased_dag_survives `{I : Ipld, B : !BlockStore, BL : !BlockStoreLaws} a root sv xs sv' :
  v_aliases (sview sv) !! a = Some root → action_run sv xs sv' →
  (∀ x, x ∈ xs → harmless (sview sv) a root x) →
  kept_dag a root sv sv' ∧
  ∀ fuel between joined r sv'', (∀ k x, x ∈ between k → harmless (sview sv) a root x) →
    evict fuel (λ k, perform_all (between k)) joined sv' = Some (r, sv'') →
    kept_dag a root sv sv''.
Proof.
  intros Ha Hr Hh. assert (∀ ys sv'', action_run sv ys sv'' →
    (∀ x, x ∈ ys → harmless (sview sv) a root x) → kept_dag a root sv sv'') as Hall.
  { intros. by eapply run_keeps_dag. }
  split; [by eapply Hall|]. intros fuel between joined r sv'' Hb He.
  apply evict_run in He as (ys & Hys & Hy). eapply Hall; [by eapply action_run_app|].
  intros x [Hx|Hx]%elem_of_app; [by apply Hh|]. destruct (Hy x Hx) as [->|[k Hk]]; [done|]. by eapply Hb.
Qed.
(** A chain of three blocks under a name, and one that nothing refers to. *)
Definition service2 : StorageService :=
  (exec_all [CInsert (1%N, []); CInsert (2%N, [1]); CInsert (3%N, [2]); CInsert (4%N, [9]);
             CAlias [120] (Some 3%N)] service0).2.

(** An eviction; the unreferenced block is gone afterwards. *)
Definition service3 : StorageService :=
  match evict 9 alone true service2 with Some (_, sv) => sv | None => service2 end.

(** After the first round another block is inserted. *)
Definition meanwhile (k : nat) : list action :=
  match k with O => [ACall (CInsert (20%N, []))] | S _ => [] end.

Lemma aliased_dag_survives_witness :
  ∃ sv', evict 9 (λ k, perform_all (meanwhile k)) true service2 = Some (Ok (), sv') ∧
    v_blocks (sview sv') !! 1%N = Some [].
Proof.
  destruct (evict 9 (λ k, perform_all (meanwhile k)) true service2) as [[r sv']|] eqn:He.
  - assert (r = Ok ()) as ->.
    { apply (f_equal (from_option (λ y, is_ok y.1) false)) in He.
      destruct r as [[]|]; [done|]. by vm_compute in He. }
    exists sv'. split; [done|].
    destruct (aliased_dag_survives (I := numbered) [120] 3%N service2 [] service2) as [_ H].
    + by vm_compute.
    + constructor.
    + intros x Hx. destruct (not_elem_of_nil x Hx).
    + destruct (H 9%nat meanwhile true (Ok ()) sv') as [_ Hd]; [|exact He|].
      * intros [|k] x; [intros ->%list_elem_of_singleton|intros Hx; destruct (not_elem_of_nil x Hx)].
        intros d _ Hd. exfalso. by vm_compute in Hd.
      * destruct (Hd 1%N) as [_ Hb]; [|apply Hb; by vm_compute].
        apply (m_reach_spec (m_blocks (store service2)) (m_aliases (store service2))).
        apply (bool_decide_unpack _). by vm_compute.
  - exfalso. apply (f_equal (from_option (λ _, true) false)) in He. by vm_compute in He.
Defined.
