(* ===== verification/StorageTests.v ===== *)
(** * The unit tests of the storage

    The tests of [src/db.rs] and the tests of [src/lib.rs] that only use the storage, as
    programs.  They pass on every block store that has the documented behaviour: none of
    their assertions can fail, only the [unwrap] of an error the store reports. *)

From S2P Require Import Prelude Duration Testing Ipld Db DbSpec.

Open Scope Z_scope.

(** ** The tests of [src/db.rs] *)
Section db_tests.
Context `{I : Ipld, B : !BlockStore}.
Local Open Scope test_scope.

(** The macros [assert_evicted!], [assert_pinned!] and [assert_unpinned!]. *)
Definition names_of (b : Block) : test StorageService (option (gset Bytes)) :=
  unwrapped (reverse_alias (block_cid b)).
Definition assert_evicted (b : Block) : test StorageService () :=
  names <- names_of b; asserts (bool_decide (names = None)).
Definition nonempty (names : option (gset Bytes)) : option bool :=
  (λ a, negb (bool_decide (a = ∅))) <$> names.
Definition assert_pinned (b : Block) : test StorageService () :=
  names <- names_of b; asserts (bool_decide (nonempty names = Some true)).
Definition assert_unpinned (b : Block) : test StorageService () :=
  names <- names_of b; asserts (bool_decide (nonempty names = Some false)).

Definition t_insert (b : Block) : test StorageService () := unwrapped (insert_block b).
Definition t_alias (a : Bytes) (c : option Cid) : test StorageService () := unwrapped (alias a c).
Definition t_flush : test StorageService () := unwrapped (flush true).
Definition t_evict (fuel : nat) : test StorageService () := λ sv,
  match evict fuel alone true sv with
  | Some (r, sv) => (match r with Ok a => Ok a | Err _ => Err Unwrapped end, sv)
  | None => (Err Unwrapped, sv)
  end.

(** [create_store]: an in-memory store. *)
Definition db_test_config : StorageConfig := StorageConfig_new None None 2 (100 * NANOS_PER_SEC).
Definition create_store `{H : !StoreHost} (queries : gmap string Z) (fs : FsState)
    : result StorageService StoreError * FsState :=
  open_service queries db_test_config fs.

(** [test_store_evict]. *)
Definition test_store_evict (fuel : nat) (a b c d : Block) : test StorageService () :=
  t_insert a ;; t_insert b ;; t_flush ;; t_evict fuel ;;
  assert_unpinned a ;; assert_unpinned b ;;
  t_insert c ;; t_flush ;; t_evict fuel ;;
  assert_evicted a ;; assert_unpinned b ;; assert_unpinned c ;;
  unwrapped (get (block_cid b)) ;;
  t_insert d ;; t_flush ;; t_evict fuel ;;
  assert_unpinned b ;; assert_evicted c ;; assert_unpinned d.

(** [test_store_unpin]: the names are [x] and [y]. *)
Definition test_store_unpin (x y : Bytes) (a b c : Block) : test StorageService () :=
  t_insert a ;; t_insert b ;; t_insert c ;;
  t_alias x (Some (block_cid b)) ;; t_alias y (Some (block_cid c)) ;;
  t_flush ;;
  assert_pinned a ;; assert_pinned b ;; assert_pinned c ;;
  t_alias x None ;; t_flush ;;
  assert_pinned a ;; assert_unpinned b ;; assert_pinned c ;;
  t_alias y None ;; t_flush ;;
  assert_unpinned a ;; assert_unpinned b ;; assert_unpinned c.

(** [test_store_unpin2]. *)
Definition test_store_unpin2 (x y : Bytes) (a b : Block) : test StorageService () :=
  t_insert a ;; t_insert b ;;
  t_alias x (Some (block_cid b)) ;; t_alias y (Some (block_cid b)) ;;
  t_flush ;;
  assert_pinned a ;; assert_pinned b ;;
  t_alias x None ;; t_flush ;;
  assert_pinned a ;; assert_pinned b ;;
  t_alias y None ;; t_flush ;;
  assert_unpinned a ;; assert_unpinned b.
End db_tests.

(** *** Single steps, from known contents *)
Section steps.
Context `{I : Ipld, B : !BlockStore, BL : !BlockStoreLaws}.
Implicit Types (v : View) (b : Block).

Definition holds (v : View) (sv : StorageService) : Prop := sview sv = v.

Definition with_block (b : Block) (v : View) : View :=
  MkView (<[block_cid b := block_data b]> (v_blocks v)) (v_aliases v).
Definition with_alias (a : Bytes) (c : option Cid) (v : View) : View :=
  MkView (v_blocks v) (partial_alter (λ _, c) a (v_aliases v)).
Definition has (v : View) (b : Block) : Prop := v_blocks v !! block_cid b = Some (block_data b).

(** [b] can be reached from the root of an alias. *)
Definition named (v : View) (b : Block) : Prop :=
  ∃ a root, v_aliases v !! a = Some root ∧ reach links v root (block_cid b).

Lemma unwrapped_call {R} (f : StorageService → result R StoreError * StorageService)
    (g : R → reply) c v (Q : R → StorageService → Prop) :
  (∀ sv, exec c sv = answer g (f sv)) →
  (∀ x v' sv', spec v c (g x) v' → holds v' sv' → Q x sv') →
  passes (holds v) (unwrapped f) Q.
Proof.
  intros He HQ sv Hsv. pose proof (exec_refines c sv) as H. rewrite He in H.
  unfold unwrapped. unfold refines, answer in H. destruct (f sv) as [[x|e] sv']; [|done].
  cbn in *. rewrite Hsv in H. by eapply HQ.
Qed.

Lemma insert_step v b :
  v_blocks v !! block_cid b = None →
  passes (holds v) (t_insert b) (λ _, holds (with_block b v)).
Proof.
  intros Hn. apply (unwrapped_call _ (λ _, RUnit) (CInsert b)); [done|].
  intros [] v' sv' Hs Hv. unfold holds in *. rewrite Hv.
  inversion Hs as [| | | | |? ? d Hd| | | | | | |]; subst. destruct Hd as [->|?]; [done|congruence].
Qed.

Lemma alias_step v a c : passes (holds v) (t_alias a c) (λ _, holds (with_alias a c v)).
Proof.
  apply (unwrapped_call _ (λ _, RUnit) (CAlias a c)); [done|].
  intros [] v' sv' Hs Hv. unfold holds in *. rewrite Hv. by inversion Hs.
Qed.

Lemma flush_step v : passes (holds v) t_flush (λ _, holds v).
Proof.
  apply (unwrapped_call _ (λ _, RUnit) (CFlush true)); [done|].
  intros [] v' sv' Hs Hv. unfold holds in *. rewrite Hv. by inversion Hs.
Qed.

(** The names of a stored block are there exactly when it can be reached from one. *)
Lemma names_step v b :
  has v b →
  passes (holds v) (names_of b) (λ names sv, holds v sv ∧
    ∃ s, names = Some s ∧ (s ≠ ∅ ↔ named v b)).
Proof.
  intros Hb. apply (unwrapped_call _ RNames (CReverseAlias (block_cid b))); [done|].
  intros x v' sv' Hs Hv. inversion Hs as [| | | | | | | | |? ? Hn|? ? names _ Hn|?|?]; subst.
  { unfold has in Hb. congruence. }
  split; [done|]. exists names. split; [done|]. split.
  - intros [a Ha%Hn]%set_choose_L. destruct Ha as (root & ? & ?). by exists a, root.
  - intros (a & root & ? & ?) ->. assert (a ∈ (∅ : gset Bytes)) as []%not_elem_of_empty.
    apply Hn. eauto.
Qed.

Lemma pinned_step v b : has v b → named v b → passes (holds v) (assert_pinned b) (λ _, holds v).
Proof.
  intros Hb Hn. eapply passes_bind; [by apply names_step|]. intros names.
  apply passes_asserts. intros sv [Hv (s & -> & Hs)]. split; [|done]. apply bool_decide_eq_true.
  cbn. rewrite bool_decide_false; [done|]. by apply Hs.
Qed.

Lemma unpinned_step v b :
  has v b → ¬ named v b → passes (holds v) (assert_unpinned b) (λ _, holds v).
Proof.
  intros Hb Hn. eapply passes_bind; [by apply names_step|]. intros names.
  apply passes_asserts. intros sv [Hv (s & -> & Hs)]. split; [|done]. apply bool_decide_eq_true.
  cbn. rewrite bool_decide_true; [done|]. apply dec_stable. by rewrite Hs.
Qed.

(** *** Reachability in a DAG of two levels *)

Lemma reach_leaf v b x :
  has v b → links (block_cid b) (block_data b) = [] → reach links v (block_cid b) x →
  x = block_cid b.
Proof.
  intros Hb Hl [->|(y & (d & Hd & Hy) & _)]%rtc_inv; [done|].
  unfold has in Hb. simplify_eq. rewrite Hl in Hy. by apply not_elem_of_nil in Hy.
Qed.

Lemma reach_parent v a b x :
  has v a → has v b → links (block_cid a) (block_data a) = [] →
  links (block_cid b) (block_data b) = [block_cid a] →
  reach links v (block_cid b) x ↔ x = block_cid b ∨ x = block_cid a.
Proof.
  intros Ha Hb Hla Hlb. split.
  - intros [->|(y & (d & Hd & Hy) & Hr)]%rtc_inv; [by left|]. right.
    unfold has in Hb. simplify_eq. rewrite Hlb in Hy. apply list_elem_of_singleton in Hy as ->.
    by apply reach_leaf in Hr.
  - intros [->| ->]; [apply rtc_refl|]. apply rtc_once. exists (block_data b).
    split; [exact Hb|]. rewrite Hlb. by apply list_elem_of_singleton.
Qed.
End steps.

(** *** The two tests about names *)
Section unpin.
Context `{I : Ipld, B : !BlockStore, BL : !BlockStoreLaws} (a b c : Block) (x y : Bytes).

(** [ipld!({ "a": [] })], [ipld!({ "b": [a.cid()] })] and [ipld!({ "c": [a.cid()] })]. *)
Hypotheses (Hla : links (block_cid a) (block_data a) = [])
  (Hlb : links (block_cid b) (block_data b) = [block_cid a])
  (Hlc : links (block_cid c) (block_data c) = [block_cid a])
  (Hab : block_cid a ≠ block_cid b) (Hac : block_cid a ≠ block_cid c)
  (Hbc : block_cid b ≠ block_cid c) (Hxy : x ≠ y).

Definition empty_view : View := MkView ∅ ∅.
Definition two : View := with_block b (with_block a empty_view).
Definition three : View := with_block c two.

(** The aliases of a view all name parents of [a]. *)
Definition parents (v : View) : Prop :=
  ∀ n r, v_aliases v !! n = Some r →
    ∃ p, has v p ∧ links (block_cid p) (block_data p) = [block_cid a] ∧ r = block_cid p.

(** Then a block is named directly, or it is [a] and anything is named. *)
Lemma named_iff v d :
  has v a → parents v →
  named v d ↔ ∃ n r, v_aliases v !! n = Some r ∧ (block_cid d = r ∨ block_cid d = block_cid a).
Proof.
  intros Ha Hp. split; intros (n & r & Hn & Hr); exists n, r; (split; [done|]);
    destruct (Hp n r Hn) as (q & Hq & Hl & ->); by apply (reach_parent v a q).
Qed.

(** Look-ups in the views of the tests. *)
Local Ltac look_up :=
  repeat match goal with
  | H : context [partial_alter _ _ _ !! _] |- _ => rewrite lookup_partial_alter in H
  | |- context [partial_alter _ _ _ !! _] => rewrite lookup_partial_alter
  | |- context [<[_ := _]> _ !! _] => rewrite lookup_insert
  | |- context [∅ !! _] => rewrite lookup_empty
  | H : context [∅ !! _] |- _ => rewrite lookup_empty in H
  | H : context [decide _] |- _ => case_decide
  | |- context [decide _] => case_decide
  end; simplify_eq.

Local Ltac have := unfold has; cbn; look_up; congruence.
Local Ltac parental :=
  let Hn := fresh in intros ? ? Hn; cbn in Hn; look_up;
  first [exists b; split; [have|done] | exists c; split; [have|done]].
Local Ltac named_by n := exists n; eexists; cbn; look_up; split; [reflexivity|]; by auto.
Local Ltac pinned :=
  first [have | apply named_iff; [have | parental | first [named_by x | named_by y]]].
Local Ltac unpinned :=
  first [have | rewrite named_iff; [|have|parental];
    let Hn := fresh in let Hd := fresh in intros (? & ? & Hn & Hd); cbn in Hn; look_up;
    destruct Hd; congruence].
Local Ltac run :=
  repeat (eapply passes_bind;
    [first [ apply insert_step; cbn; look_up; congruence | apply alias_step | apply flush_step
           | apply pinned_step; pinned | apply unpinned_step; unpinned ] | intros ?; cbn beta]);
  first [apply unpinned_step; unpinned].

Lemma unpin_passes :
  passes (holds empty_view) (test_store_unpin x y a b c)
    (λ _, holds (with_alias y None (with_alias x None
       (with_alias y (Some (block_cid c)) (with_alias x (Some (block_cid b)) three))))).
Proof. unfold test_store_unpin. run. Qed.

Lemma unpin2_passes :
  passes (holds empty_view) (test_store_unpin2 x y a b)
    (λ _, holds (with_alias y None (with_alias x None
       (with_alias y (Some (block_cid b)) (with_alias x (Some (block_cid b)) two))))).
Proof. unfold test_store_unpin2. run. Qed.
End unpin.

(** The tests [test_store_unpin] and [test_store_unpin2] on a store that was just created:
    blocks are pinned exactly as long as an alias leads to them, through whichever of
    their parents. *)
Theorem name_tests_pass `{I : Ipld, B : !BlockStore, BL : !BlockStoreLaws, H : !StoreHost}
    (a b c : Block) (x y : Bytes) queries fs sv fs' :
  (∀ sizes tracker s, store_memory sizes tracker = Ok s → view s = empty_view) →
  links (block_cid a) (block_data a) = [] →
  links (block_cid b) (block_data b) = [block_cid a] →
  links (block_cid c) (block_data c) = [block_cid a] →
  block_cid a ≠ block_cid b → block_cid a ≠ block_cid c → block_cid b ≠ block_cid c → x ≠ y →
  create_store queries fs = (Ok sv, fs') →
  (test_store_unpin x y a b c sv).1 ≠ Err Asserted ∧ (test_store_unpin2 x y a b sv).1 ≠ Err Asserted.
Proof.
  intros Hm Hla Hlb Hlc Hab Hac Hbc Hxy Hc.
  assert (holds empty_view sv) as Hsv.
  { unfold create_store, open_service in Hc. cbn in Hc.
    destruct (store_memory _ _) as [s|e] eqn:Hs; cbn in Hc; [|done]. simplify_eq. by eapply Hm. }
  split.
  - pose proof (unpin_passes a b c x y Hla Hlb Hlc Hab Hac Hbc Hxy sv Hsv) as Hp.
    destruct (test_store_unpin x y a b c sv) as [[]]; [done|]. by rewrite Hp.
  - pose proof (unpin2_passes a b x y Hla Hlb Hab Hxy sv Hsv) as Hp.
    destruct (test_store_unpin2 x y a b sv) as [[]]; [done|]. by rewrite Hp.
Qed.

(** [test_store_evict] on the concrete store with room for two blocks, which forgets the
    block that was not used for the longest time. *)
Definition lru_service : StorageService := MkService (m_empty 2) usize_MAX 1000 true ∅.

Example store_evict_passes :
  (test_store_evict 9 (10%N, []) (11%N, []) (12%N, []) (13%N, []) lru_service).1 = Ok ().
Proof. vm_compute. reflexivity. Qed.
