(* ===== verification/Utf8.v ===== *)
(** * Strings and their bytes

    [str::as_bytes] and [std::str::from_utf8]: a string is the sequence of its bytes,
    and a byte sequence is a string when it is well-formed UTF-8 (the table of the
    Unicode standard, section 3.9). *)

From Stdlib Require Import Ascii.
From S2P Require Import Prelude Ipld.

Open Scope Z_scope.

Definition byte_of_ascii (c : ascii) : Z := Z.of_N (N_of_ascii c).
Definition ascii_of_byte (b : Z) : ascii := ascii_of_N (Z.to_N b).

(** [str::as_bytes]. *)
Fixpoint as_bytes (s : string) : Bytes :=
  match s with
  | EmptyString => []
  | String c s => byte_of_ascii c :: as_bytes s
  end.

Fixpoint of_bytes (bs : Bytes) : string :=
  match bs with
  | [] => EmptyString
  | b :: bs => String (ascii_of_byte b) (of_bytes bs)
  end.

Definition between (lo hi b : Z) : bool := (lo <=? b) && (b <=? hi).
Definition cont (b : Z) : bool := between 128 191 b.

(** Well-formed UTF-8. *)
Fixpoint utf8_valid (bs : Bytes) : bool :=
  match bs with
  | [] => true
  | b0 :: bs =>
      if between 0 127 b0 then utf8_valid bs
      else match bs with
      | [] => false
      | b1 :: bs =>
          if between 194 223 b0 then cont b1 && utf8_valid bs
          else match bs with
          | [] => false
          | b2 :: bs =>
              if between 224 239 b0 then
                between (if b0 =? 224 then 160 else 128) (if b0 =? 237 then 159 else 191) b1
                && cont b2 && utf8_valid bs
              else match bs with
              | [] => false
              | b3 :: bs =>
                  between 240 244 b0
                  && between (if b0 =? 240 then 144 else 128) (if b0 =? 244 then 143 else 191) b1
                  && cont b2 && cont b3 && utf8_valid bs
              end
          end
      end
  end.

(** [std::str::from_utf8]. *)
Definition from_utf8 (bs : Bytes) : option string :=
  if utf8_valid bs then Some (of_bytes bs) else None.

Lemma of_as_bytes s : of_bytes (as_bytes s) = s.
Proof.
  induction s as [|c s IH]; cbn; [done|]. rewrite IH. f_equal.
  unfold ascii_of_byte, byte_of_ascii. rewrite N2Z.id. apply ascii_N_embedding.
Qed.

Lemma from_utf8_as_bytes s : utf8_valid (as_bytes s) = true → from_utf8 (as_bytes s) = Some s.
Proof. unfold from_utf8. intros ->. by rewrite of_as_bytes. Qed.
