(* ===== verification/Behaviour.v ===== *)
(** * [src/net/behaviour.rs]: the composed network behaviour

    The sub-protocols (Kademlia, gossipsub, broadcast, bitswap) are parameters,
    [Protocols]; the address book is the one of [Peers].  This file models how the
    behaviour routes their events: to the table of running queries, to the
    subscribers of topics and to the address book. *)

From S2P Require Import Prelude Libp2p Duration PeerInfo AddressHandler Channel Peers Ipld Utf8.

Open Scope Z_scope.

(** ** The sub-protocols *)
Class Protocols `{L : Libp2p, I : Ipld} := {
  (** [libp2p::kad]. *)
  Kad : Type;
  KadQueryId : Type;
  KadQueryId_eq_dec :: EqDecision KadQueryId;
  KadQueryId_countable :: Countable KadQueryId;
  Key : Type;
  KadRecord : Type;
  PeerRecord : Type;
  Quorum : Type;
  KadError : Type;
  kad_add_address : PeerId → Multiaddr → Kad → Kad;
  kad_remove_address : PeerId → Multiaddr → Kad → Kad;
  kad_bootstrap : Kad → result KadQueryId KadError * Kad;
  kad_start_providing : Key → Kad → result KadQueryId KadError * Kad;
  kad_stop_providing : Key → Kad → Kad;
  kad_get_providers : Key → Kad → KadQueryId * Kad;
  kad_get_record : Key → Quorum → Kad → KadQueryId * Kad;
  kad_put_record : KadRecord → Quorum → Kad → result KadQueryId KadError * Kad;
  kad_remove_record : Key → Kad → Kad;

  (** [libp2p::gossipsub].  [ident_hash t] is [IdentTopic::new(t).hash().as_str()],
      which is the topic itself. *)
  Gossipsub : Type;
  GossipError : Type;
  ident_hash : string → string;
  ident_hash_id t : ident_hash t = t;
  gossip_subscribe : string → Gossipsub → result bool GossipError * Gossipsub;
  gossip_unsubscribe : string → Gossipsub → result bool GossipError * Gossipsub;
  (** [None] is [PublishError::InsufficientPeers]. *)
  gossip_publish : string → Bytes → Gossipsub → result () (option GossipError) * Gossipsub;

  (** [libp2p_broadcast]. *)
  Broadcast : Type;
  Topic : Type;
  topic_new : Bytes → Topic;
  topic_bytes : Topic → Bytes;
  broadcast_subscribe : Topic → Broadcast → Broadcast;
  broadcast_unsubscribe : Topic → Broadcast → Broadcast;
  broadcast_broadcast : Topic → Bytes → Broadcast → Broadcast;

  (** [libp2p_bitswap]. *)
  Bitswap : Type;
  BitswapError : Type;
  BitswapQueryId : Type;
  BitswapQueryId_eq_dec :: EqDecision BitswapQueryId;
  BitswapQueryId_countable :: Countable BitswapQueryId;
  bitswap_get : Cid → list PeerId → Bitswap → BitswapQueryId * Bitswap;
  bitswap_sync : Cid → list PeerId → list Cid → Bitswap → BitswapQueryId * Bitswap;
  bitswap_cancel : BitswapQueryId → Bitswap → Bitswap;
}.

Section types.
Context `{L : Libp2p, I : Ipld, N : !Protocols}.

(** [QueryId]. *)
Inductive QueryId : Type :=
| QBitswap (id : BitswapQueryId)
| QKad (id : KadQueryId).

#[export] Instance QueryId_eq_dec : EqDecision QueryId.
Proof. solve_decision. Defined.
#[export] Program Instance QueryId_countable : Countable QueryId :=
  inj_countable' (λ q, match q with QBitswap i => inl i | QKad i => inr i end)
                 (λ x, match x with inl i => QBitswap i | inr i => QKad i end) _.
Next Obligation. by intros []. Qed.

(** The error values the behaviour returns. *)
Inductive NetError : Type :=
| DisabledProtocol (name : string)
| NotBootstrapped
| NoKnownPeers (e : KadError)
| KadStoreError (e : KadError)
| KadBootstrapError (e : KadError)
| KadGetClosestPeersError (e : KadError)
| KadGetProvidersError (e : KadError)
| KadAddProviderError (e : KadError)
| KadGetRecordError (e : KadError)
| KadPutRecordError (e : KadError)
| GossipsubPublishError (e : GossipError)
| GossipsubSubscribeError (e : GossipError)
| BitswapFailed (e : BitswapError)
| NetBlockNotFound (c : Cid).

Inductive SyncEvent : Type :=
| Progress (missing : Z)
| Complete (r : result () NetError).

Inductive GossipEvent : Type :=
| GSubscribed (p : PeerId)
| GMessage (p : PeerId) (data : Bytes)
| GUnsubscribed (p : PeerId).
End types.

(** The sending end of a [oneshot::channel]. *)
Definition Oneshot : Type := nat.

Section channels.
Context `{L : Libp2p, I : Ipld, N : !Protocols, CE : !Channels Event,
          CG : !Channels GossipEvent, CS : !Channels SyncEvent}.

(** [QueryChannel]. *)
Inductive QueryChannel : Type :=
| ChGet (tx : Oneshot)
| ChSync (tx : sender SyncEvent)
| ChBootstrap (tx : Oneshot)
| ChGetClosestPeers (tx : Oneshot)
| ChGetProviders (tx : Oneshot)
| ChStartProviding (tx : Oneshot)
| ChGetRecord (tx : Oneshot)
| ChPutRecord (tx : Oneshot).

(** What is sent on oneshot channels. *)
Inductive Reply : Type :=
| RepUnit (r : result () NetError)
| RepPeers (r : result (list PeerId) NetError)
| RepProviders (r : result (gset PeerId) NetError)
| RepRecords (r : result (list PeerRecord) NetError)
| RepGossip (r : result (sender GossipEvent) NetError)
| RepGetQuery (id : QueryId) (rx : Oneshot)
| RepSyncQuery (id : QueryId) (rx : sender SyncEvent)
| RepSwarmEvents (rx : sender Event).

(** What happened to sending ends, in order: a value was sent, or the end was
    dropped and the receiver sees the channel closed. *)
Inductive Answer : Type :=
| Answered (tx : Oneshot) (r : Reply)
| Abandoned (tx : Oneshot)
| HungUp (tx : sender SyncEvent).

(** The behaviour ([peers_st], [kad], [gossipsub], [broadcast], [bitswap]) with the
    variables of the task that drives it: the [bootstrapped] flag, the query table,
    the topic subscriptions, and the channels they use. *)
Record Net : Type := MkNet {
  peers_st : State;
  kad : option Kad;
  gossipsub : option Gossipsub;
  broadcast : option Broadcast;
  bitswap : option Bitswap;
  bootstrapped : bool;
  queries : gmap QueryId QueryChannel;
  subscriptions : gmap string (list (sender GossipEvent));
  gossip_chans : chan_state GossipEvent;
  sync_chans : chan_state SyncEvent;
  oneshots : nat;
  outbox : list Answer;
}.

(** *** Field updates *)
Definition set_peers_st (f : State → State) (n : Net) : Net :=
  MkNet (f (peers_st n)) (kad n) (gossipsub n) (broadcast n) (bitswap n) (bootstrapped n)
    (queries n) (subscriptions n) (gossip_chans n) (sync_chans n) (oneshots n) (outbox n).
Definition set_kad (k : option Kad) (n : Net) : Net :=
  MkNet (peers_st n) k (gossipsub n) (broadcast n) (bitswap n) (bootstrapped n)
    (queries n) (subscriptions n) (gossip_chans n) (sync_chans n) (oneshots n) (outbox n).
Definition set_gossipsub (g : option Gossipsub) (n : Net) : Net :=
  MkNet (peers_st n) (kad n) g (broadcast n) (bitswap n) (bootstrapped n)
    (queries n) (subscriptions n) (gossip_chans n) (sync_chans n) (oneshots n) (outbox n).
Definition set_broadcast (b : option Broadcast) (n : Net) : Net :=
  MkNet (peers_st n) (kad n) (gossipsub n) b (bitswap n) (bootstrapped n)
    (queries n) (subscriptions n) (gossip_chans n) (sync_chans n) (oneshots n) (outbox n).
Definition set_bitswap (b : option Bitswap) (n : Net) : Net :=
  MkNet (peers_st n) (kad n) (gossipsub n) (broadcast n) b (bootstrapped n)
    (queries n) (subscriptions n) (gossip_chans n) (sync_chans n) (oneshots n) (outbox n).
Definition set_bootstrapped (b : bool) (n : Net) : Net :=
  MkNet (peers_st n) (kad n) (gossipsub n) (broadcast n) (bitswap n) b
    (queries n) (subscriptions n) (gossip_chans n) (sync_chans n) (oneshots n) (outbox n).
Definition set_queries (f : gmap QueryId QueryChannel → gmap QueryId QueryChannel) (n : Net)
    : Net :=
  MkNet (peers_st n) (kad n) (gossipsub n) (broadcast n) (bitswap n) (bootstrapped n)
    (f (queries n)) (subscriptions n) (gossip_chans n) (sync_chans n) (oneshots n) (outbox n).
Definition set_subscriptions
    (f : gmap string (list (sender GossipEvent)) → gmap string (list (sender GossipEvent)))
    (n : Net) : Net :=
  MkNet (peers_st n) (kad n) (gossipsub n) (broadcast n) (bitswap n) (bootstrapped n)
    (queries n) (f (subscriptions n)) (gossip_chans n) (sync_chans n) (oneshots n) (outbox n).
Definition set_gossip_chans (c : chan_state GossipEvent) (n : Net) : Net :=
  MkNet (peers_st n) (kad n) (gossipsub n) (broadcast n) (bitswap n) (bootstrapped n)
    (queries n) (subscriptions n) c (sync_chans n) (oneshots n) (outbox n).
Definition set_sync_chans (c : chan_state SyncEvent) (n : Net) : Net :=
  MkNet (peers_st n) (kad n) (gossipsub n) (broadcast n) (bitswap n) (bootstrapped n)
    (queries n) (subscriptions n) (gossip_chans n) c (oneshots n) (outbox n).

(** [oneshot::channel()]. *)
Definition oneshot_channel (n : Net) : Oneshot * Net :=
  (oneshots n,
   MkNet (peers_st n) (kad n) (gossipsub n) (broadcast n) (bitswap n) (bootstrapped n)
     (queries n) (subscriptions n) (gossip_chans n) (sync_chans n) (S (oneshots n)) (outbox n)).

Definition log (a : Answer) (n : Net) : Net :=
  MkNet (peers_st n) (kad n) (gossipsub n) (broadcast n) (bitswap n) (bootstrapped n)
    (queries n) (subscriptions n) (gossip_chans n) (sync_chans n) (oneshots n)
    (outbox n ++ [a]).

(** [tx.send(r).ok()] and dropping [tx]. *)
Definition send (tx : Oneshot) (r : Reply) : Net → Net := log (Answered tx r).
Definition drop_tx (tx : Oneshot) : Net → Net := log (Abandoned tx).

Definition drop_channel (ch : QueryChannel) : Net → Net :=
  match ch with
  | ChSync tx => log (HungUp tx)
  | ChGet tx | ChBootstrap tx | ChGetClosestPeers tx | ChGetProviders tx
  | ChStartProviding tx | ChGetRecord tx | ChPutRecord tx => drop_tx tx
  end.

(** [queries.insert(id, ch)]; a channel that was registered is dropped. *)
Definition insert_query (id : QueryId) (ch : QueryChannel) (n : Net) : Net :=
  let n' := set_queries <[id := ch]> n in
  match queries n !! id with
  | Some old => drop_channel old n'
  | None => n'
  end.

(** [if let Some(QueryChannel::K(ch)) = queries.remove(&id) { ch.send(r).ok(); }],
    where [want] recognises the constructor [K]. *)
Definition finish (id : QueryId) (want : QueryChannel → option Oneshot) (r : Reply) (n : Net)
    : Net :=
  match queries n !! id with
  | Some ch =>
      let n := set_queries (delete id) n in
      match want ch with
      | Some tx => send tx r n
      | None => drop_channel ch n
      end
  | None => n
  end.

Definition as_bootstrap (ch : QueryChannel) : option Oneshot :=
  match ch with ChBootstrap tx => Some tx | _ => None end.
Definition as_closest (ch : QueryChannel) : option Oneshot :=
  match ch with ChGetClosestPeers tx => Some tx | _ => None end.
Definition as_providers (ch : QueryChannel) : option Oneshot :=
  match ch with ChGetProviders tx => Some tx | _ => None end.
Definition as_providing (ch : QueryChannel) : option Oneshot :=
  match ch with ChStartProviding tx => Some tx | _ => None end.
Definition as_get_record (ch : QueryChannel) : option Oneshot :=
  match ch with ChGetRecord tx => Some tx | _ => None end.
Definition as_put_record (ch : QueryChannel) : option Oneshot :=
  match ch with ChPutRecord tx => Some tx | _ => None end.
End channels.

(** ** Events of the sub-protocols *)
Section events.
Context `{L : Libp2p, I : Ipld, N : !Protocols}.

Inductive MdnsEvent : Type :=
| MdnsDiscovered (found : list (PeerId * Multiaddr))
| MdnsExpired.

(** [kad::QueryResult], with the fields the behaviour reads. *)
Inductive QueryResult : Type :=
| QrBootstrap (r : result Z KadError)
| QrGetClosestPeers (r : result (list PeerId) KadError)
| QrGetProviders (r : result (gset PeerId) KadError)
| QrStartProviding (r : result () KadError)
| QrRepublishProvider (r : result () KadError)
| QrGetRecord (r : result (list PeerRecord) KadError)
| QrPutRecord (r : result () KadError)
| QrRepublishRecord (r : result () KadError).

Inductive KademliaEvent : Type :=
| OutboundQueryCompleted (id : KadQueryId) (r : QueryResult)
| KadOther.

Inductive BitswapEvent : Type :=
| BsProgress (id : BitswapQueryId) (missing : Z)
| BsComplete (id : BitswapQueryId) (r : result () BitswapError).

Inductive PingResult : Type :=
| PingOk (rtt : Duration)
| Pong
| PingTimeout
| PingFailed
| PingUnsupported.

Inductive IdentifyEvent : Type :=
| IdReceived (p : PeerId) (info : IdentifyInfo)
| IdOther.

Inductive GossipsubEvent : Type :=
| GsMessage (topic : string) (source : option PeerId) (propagation_source : PeerId)
    (data : Bytes)
| GsSubscribed (p : PeerId) (topic : string)
| GsUnsubscribed (p : PeerId) (topic : string)
| GsNotSupported.

Inductive BroadcastEvent : Type :=
| BcReceived (p : PeerId) (topic : Topic) (data : Bytes)
| BcSubscribed (p : PeerId) (topic : Topic)
| BcUnsubscribed (p : PeerId) (topic : Topic).
End events.

Section behaviour.
Context `{L : Libp2p, I : Ipld, N : !Protocols, CE : !Channels Event,
          CG : !Channels GossipEvent, CS : !Channels SyncEvent,
          F : !Fmt, E : Environment, O : HashOrder, P : Profile}.

(** An operation of the address book, which may panic. *)
Definition on_book (f : State → outcome State) (n : Net) : outcome Net :=
  s ← f (peers_st n); Done (set_peers_st (λ _, s) n).

(** [NetworkBackendBehaviour::add_address]. *)
Definition net_add_address (p : PeerId) (addr : Multiaddr) (source : AddressSource) (n : Net)
    : outcome Net :=
  let n := match kad n with
           | Some k => set_kad (Some (kad_add_address p addr k)) n
           | None => n
           end in
  on_book (Peers.add_address p addr source) n.

(** [remove_address], [prune_peers], [dial], [dial_address], [connection_closed],
    [swarm_events]. *)
Definition net_remove_address (p : PeerId) (addr : Multiaddr) (n : Net) : Net :=
  let n := set_peers_st (Peers.remove_address p addr) n in
  match kad n with
  | Some k => set_kad (Some (kad_remove_address p addr k)) n
  | None => n
  end.
Definition net_prune_peers (min_age : Duration) : Net → Net :=
  set_peers_st (Peers.prune_peers min_age).
Definition net_dial (p : PeerId) : Net → Net := set_peers_st (Peers.dial p).
Definition net_dial_address (p : PeerId) (addr : Multiaddr) : Net → Net :=
  set_peers_st (Peers.dial_address p addr).
Definition net_connection_closed (p : PeerId) (cp : ConnectedPoint) (num_established : Z)
    (error : option (ConnectionError MyHandlerError)) : Net → Net :=
  set_peers_st (Peers.connection_closed p cp num_established error).
Definition net_swarm_events (tx : sender Event) : Net → Net :=
  set_peers_st (Peers.swarm_events tx).

(** [inject_mdns_event]. *)
Definition inject_mdns_event (e : MdnsEvent) (n : Net) : outcome Net :=
  match e with
  | MdnsDiscovered found => foldM (λ n '(p, addr), net_add_address p addr Mdns n) found n
  | MdnsExpired => Done n
  end.

(** [inject_kad_event]. *)
Definition inject_kad_event (e : KademliaEvent) (n : Net) : Net :=
  match e with
  | OutboundQueryCompleted id r =>
      let id := QKad id in
      match r with
      | QrBootstrap (Ok num_remaining) =>
          if bool_decide (num_remaining = 0) then
            let n := set_bootstrapped true n in
            let n := finish id as_bootstrap (RepUnit (Ok ())) n in
            set_peers_st (notify Bootstrapped) n
          else n
      | QrBootstrap (Err e) => finish id as_bootstrap (RepUnit (Err (KadBootstrapError e))) n
      | QrGetClosestPeers (Ok l) => finish id as_closest (RepPeers (Ok l)) n
      | QrGetClosestPeers (Err e) =>
          finish id as_closest (RepPeers (Err (KadGetClosestPeersError e))) n
      | QrGetProviders (Ok ps) => finish id as_providers (RepProviders (Ok ps)) n
      | QrGetProviders (Err e) =>
          finish id as_providers (RepProviders (Err (KadGetProvidersError e))) n
      | QrStartProviding (Ok _) => finish id as_providing (RepUnit (Ok ())) n
      | QrStartProviding (Err e) =>
          finish id as_providing (RepUnit (Err (KadAddProviderError e))) n
      | QrRepublishProvider _ => n
      | QrGetRecord (Ok rs) => finish id as_get_record (RepRecords (Ok rs)) n
      | QrGetRecord (Err e) =>
          finish id as_get_record (RepRecords (Err (KadGetRecordError e))) n
      | QrPutRecord (Ok _) => finish id as_put_record (RepUnit (Ok ())) n
      | QrPutRecord (Err e) => finish id as_put_record (RepUnit (Err (KadPutRecordError e))) n
      | QrRepublishRecord _ => n
      end
  | KadOther => n
  end.

Definition bitswap_result (r : result () BitswapError) : result () NetError :=
  match r with Ok u => Ok u | Err e => Err (BitswapFailed e) end.

(** [tx.unbounded_send(e).ok()] on a sync channel. *)
Definition sync_send (tx : sender SyncEvent) (e : SyncEvent) (n : Net) : Net :=
  set_sync_chans (unbounded_send tx e (sync_chans n)).2 n.

(** [inject_bitswap_event]. *)
Definition inject_bitswap_event (e : BitswapEvent) (n : Net) : Net :=
  match e with
  | BsProgress id missing =>
      match queries n !! QBitswap id with
      | Some (ChSync tx) => sync_send tx (Progress missing) n
      | _ => n
      end
  | BsComplete id r =>
      match queries n !! QBitswap id with
      | Some ch =>
          let n := set_queries (delete (QBitswap id)) n in
          match ch with
          | ChGet tx => send tx (RepUnit (bitswap_result r)) n
          | ChSync tx => log (HungUp tx) (sync_send tx (Complete (bitswap_result r)) n)
          | _ => drop_channel ch n
          end
      | None => n
      end
  end.

(** [inject_ping_event]. *)
Definition inject_ping_event (p : PeerId) (r : PingResult) (n : Net) : outcome Net :=
  match r with
  | PingOk rtt => on_book (book_set_rtt p (Some rtt)) n
  | PingTimeout | PingFailed => on_book (book_set_rtt p None) n
  | Pong | PingUnsupported => Done n
  end.

(** [inject_id_event]. *)
Definition inject_id_event (e : IdentifyEvent) (n : Net) : outcome Net :=
  match e with
  | IdReceived p info => on_book (set_info p info) n
  | IdOther => Done n
  end.

(** ** Topics *)

Definition broadcast_topic (topic : string) : Topic := topic_new (as_bytes (ident_hash topic)).

(** [unsubscribe]; an error of gossipsub is only traced. *)
Definition unsubscribe (topic : string) (n : Net) : Net :=
  let n := match gossipsub n with
           | Some g => set_gossipsub (Some (gossip_unsubscribe topic g).2) n
           | None => n
           end in
  match broadcast n with
  | Some b => set_broadcast (Some (broadcast_unsubscribe (broadcast_topic topic) b)) n
  | None => n
  end.

(** [notify_subscribers]. *)
Definition notify_subscribers (topic : string) (e : GossipEvent) (n : Net) : Net :=
  match subscriptions n !! topic with
  | Some txs =>
      let '(txs, c) := send_retain e txs (gossip_chans n) in
      let n := set_gossip_chans c (set_subscriptions <[topic := txs]> n) in
      if bool_decide (txs = [])
      then set_subscriptions (delete topic) (unsubscribe topic n)
      else n
  | None => n
  end.

(** [inject_gossip_event]. *)
Definition inject_gossip_event (e : GossipsubEvent) (n : Net) : Net :=
  match e with
  | GsMessage topic source propagation_source data =>
      notify_subscribers topic (GMessage (default propagation_source source) data) n
  | GsSubscribed p topic =>
      notify_subscribers topic (GSubscribed p) (set_peers_st (notify (Subscribed p topic)) n)
  | GsUnsubscribed p topic =>
      notify_subscribers topic (GUnsubscribed p)
        (set_peers_st (notify (Unsubscribed p topic)) n)
  | GsNotSupported => n
  end.

(** [inject_broadcast_event]: the topic of a message is unwrapped. *)
Definition inject_broadcast_event (e : BroadcastEvent) (n : Net) : outcome Net :=
  match e with
  | BcReceived p topic data =>
      topic ← unwrap (from_utf8 (topic_bytes topic));
      Done (notify_subscribers topic (GMessage p data) n)
  | BcSubscribed p topic =>
      match from_utf8 (topic_bytes topic) with
      | Some topic =>
          Done (notify_subscribers topic (GSubscribed p)
                  (set_peers_st (notify (Subscribed p topic)) n))
      | None => Done n
      end
  | BcUnsubscribed p topic =>
      match from_utf8 (topic_bytes topic) with
      | Some topic =>
          Done (notify_subscribers topic (GUnsubscribed p)
                  (set_peers_st (notify (Unsubscribed p topic)) n))
      | None => Done n
      end
  end.

(** [subscribe]; the receiver is named by its sending end. *)
Definition subscribe (topic : string) (n : Net) : result (sender GossipEvent) NetError * Net :=
  match gossipsub n, broadcast n with
  | None, None => (Err (DisabledProtocol "gossipsub and broadcast"), n)
  | _, _ =>
      let '(tx, c) := unbounded (gossip_chans n) in
      let n := set_gossip_chans c n in
      match subscriptions n !! topic with
      | Some txs => (Ok tx, set_subscriptions <[topic := txs ++ [tx]]> n)
      | None =>
          let n := set_subscriptions <[ident_hash topic := [tx]]> n in
          let '(r, n) :=
            match gossipsub n with
            | Some g => let '(r, g) := gossip_subscribe topic g in
                        (r, set_gossipsub (Some g) n)
            | None => (Ok true, n)
            end in
          match r with
          | Err e =>
              (* the receiver is dropped on the early return *)
              (Err (GossipsubSubscribeError e), set_gossip_chans (drop_rx tx (gossip_chans n)) n)
          | Ok _ =>
              (Ok tx,
               match broadcast n with
               | Some b => set_broadcast (Some (broadcast_subscribe (broadcast_topic topic) b)) n
               | None => n
               end)
          end
      end
  end.

(** [publish]: having no peers to publish to is not an error. *)
Definition publish (topic : string) (msg : Bytes) (n : Net) : result () NetError * Net :=
  match gossipsub n with
  | Some g =>
      let '(r, g) := gossip_publish topic msg g in
      (match r with
       | Ok _ => Ok ()
       | Err None => Ok ()
       | Err (Some e) => Err (GossipsubPublishError e)
       end, set_gossipsub (Some g) n)
  | None => (Err (DisabledProtocol "gossipsub"), n)
  end.

(** [broadcast]. *)
Definition net_broadcast (topic : string) (msg : Bytes) (n : Net) : result () NetError * Net :=
  match broadcast n with
  | Some b => (Ok (), set_broadcast (Some (broadcast_broadcast (broadcast_topic topic) msg b)) n)
  | None => (Err (DisabledProtocol "broadcast"), n)
  end.
End behaviour.

(** ** Queries *)
Section queries.
Context `{L : Libp2p, I : Ipld, N : !Protocols, CE : !Channels Event,
          CG : !Channels GossipEvent, CS : !Channels SyncEvent}.

(** [bootstrap]. *)
Definition net_bootstrap (tx : Oneshot) (n : Net) : Net :=
  match kad n with
  | Some k =>
      let '(r, k) := kad_bootstrap k in
      let n := set_kad (Some k) n in
      match r with
      | Ok id => insert_query (QKad id) (ChBootstrap tx) n
      | Err e => send tx (RepUnit (Err (NoKnownPeers e))) n
      end
  | None => send tx (RepUnit (Err NotBootstrapped)) n
  end.

(** [provide]: without Kademlia the sender is dropped unanswered. *)
Definition provide (key : Key) (bootstrap_complete : bool) (tx : Oneshot) (n : Net) : Net :=
  if bootstrap_complete then
    match kad n with
    | Some k =>
        let '(r, k) := kad_start_providing key k in
        let n := set_kad (Some k) n in
        match r with
        | Ok id => insert_query (QKad id) (ChStartProviding tx) n
        | Err e => send tx (RepUnit (Err (KadStoreError e))) n
        end
    | None => drop_tx tx n
    end
  else send tx (RepUnit (Err NotBootstrapped)) n.

(** [unprovide]. *)
Definition unprovide (key : Key) (n : Net) : Net :=
  match kad n with
  | Some k => set_kad (Some (kad_stop_providing key k)) n
  | None => n
  end.

(** [providers]. *)
Definition providers (key : Key) (bootstrap_complete : bool) (tx : Oneshot) (n : Net) : Net :=
  if bootstrap_complete then
    match kad n with
    | Some k =>
        let '(id, k) := kad_get_providers key k in
        insert_query (QKad id) (ChGetProviders tx) (set_kad (Some k) n)
    | None => drop_tx tx n
    end
  else send tx (RepProviders (Err NotBootstrapped)) n.

(** [get_record]. *)
Definition get_record (key : Key) (quorum : Quorum) (bootstrap_complete : bool)
    (tx : Oneshot) (n : Net) : Net :=
  if bootstrap_complete then
    match kad n with
    | Some k =>
        let '(id, k) := kad_get_record key quorum k in
        insert_query (QKad id) (ChGetRecord tx) (set_kad (Some k) n)
    | None => drop_tx tx n
    end
  else send tx (RepRecords (Err NotBootstrapped)) n.

(** [put_record]. *)
Definition put_record (record : KadRecord) (quorum : Quorum) (bootstrap_complete : bool)
    (tx : Oneshot) (n : Net) : Net :=
  if bootstrap_complete then
    match kad n with
    | Some k =>
        let '(r, k) := kad_put_record record quorum k in
        let n := set_kad (Some k) n in
        match r with
        | Ok id => insert_query (QKad id) (ChPutRecord tx) n
        | Err e => send tx (RepUnit (Err (KadStoreError e))) n
        end
    | None => drop_tx tx n
    end
  else send tx (RepUnit (Err NotBootstrapped)) n.

(** [remove_record]. *)
Definition remove_record (key : Key) (n : Net) : Net :=
  match kad n with
  | Some k => set_kad (Some (kad_remove_record key k)) n
  | None => n
  end.

(** [get]: panics when bitswap is disabled. *)
Definition net_get (cid : Cid) (providers : list PeerId) (n : Net)
    : outcome (Oneshot * QueryId * Net) :=
  b ← unwrap (bitswap n);
  let '(tx, n) := oneshot_channel n in
  let '(id, b) := bitswap_get cid providers b in
  Done (tx, QBitswap id, insert_query (QBitswap id) (ChGet tx) (set_bitswap (Some b) n)).

(** [sync]: panics when bitswap is disabled. *)
Definition net_sync (cid : Cid) (providers : list PeerId) (missing : list Cid) (n : Net)
    : outcome (sender SyncEvent * QueryId * Net) :=
  b ← unwrap (bitswap n);
  let '(tx, c) := unbounded (sync_chans n) in
  let n := set_sync_chans c n in
  let '(id, b) := bitswap_sync cid providers missing b in
  Done (tx, QBitswap id, insert_query (QBitswap id) (ChSync tx) (set_bitswap (Some b) n)).

(** [cancel]. *)
Definition cancel (id : QueryId) (n : Net) : outcome Net :=
  let n := match queries n !! id with
           | Some ch => drop_channel ch (set_queries (delete id) n)
           | None => n
           end in
  match id with
  | QBitswap id =>
      b ← unwrap (bitswap n);
      Done (set_bitswap (Some (bitswap_cancel id b)) n)
  | QKad _ => Done n
  end.
End queries.
