(* ===== verification/Network.v ===== *)
(** * [src/net/mod.rs]: the swarm task and its handle

    The task [poll_swarm] that owns the swarm, as a transition on its variables: one
    step per event of the swarm or command of a client.  The forwarding of listener
    events, the query futures and the client side [NetworkService] follow. *)

From S2P Require Import Prelude Libp2p Duration PeerInfo AddressHandler Channel Peers Ipld.
From S2P Require Import Behaviour.

Open Scope Z_scope.

(** ** The swarm *)

(** [libp2p::swarm::Swarm], less the behaviour it drives. *)
Class SwarmOps `{L : Libp2p} := {
  Swarm : Type;
  (** The error is its [Display] text. *)
  swarm_listen_on : Multiaddr → Swarm → result ListenerId string * Swarm;
  (** [add_external_address(addr, AddressScore::Infinite)]. *)
  swarm_add_external_address : Multiaddr → Swarm → Swarm;
  ban_peer_id : PeerId → Swarm → Swarm;
  unban_peer_id : PeerId → Swarm → Swarm;
}.

Section types.
Context `{L : Libp2p, I : Ipld, N : !Protocols}.

Inductive ListenerEvent : Type :=
| LNewListenAddr (addr : Multiaddr)
| LExpiredListenAddr (addr : Multiaddr)
| LListenFailed (addr : Multiaddr) (err : string).
End types.

Section task.
Context `{L : Libp2p, I : Ipld, N : !Protocols, CE : !Channels Event,
          CG : !Channels GossipEvent, CS : !Channels SyncEvent,
          CL : !Channels ListenerEvent, W : !SwarmOps,
          F : !Fmt, E : Environment, O : HashOrder, P : Profile}.

(** [NetworkCommand]. *)
Inductive NetworkCommand : Type :=
| ListenOn (addr : Multiaddr) (tx : sender ListenerEvent)
| AddExternalAddress (addr : Multiaddr)
| AddAddress (p : PeerId) (addr : Multiaddr)
| RemoveAddress (p : PeerId) (addr : Multiaddr)
| PrunePeers (min_age : Duration)
| CmdDial (p : PeerId)
| DialAddress (p : PeerId) (addr : Multiaddr)
| Ban (p : PeerId)
| Unban (p : PeerId)
| Bootstrap (initial : list (PeerId * Multiaddr)) (tx : Oneshot)
| Providers (key : Key) (tx : Oneshot)
| Provide (key : Key) (tx : Oneshot)
| Unprovide (key : Key)
| GetRecord (key : Key) (quorum : Quorum) (tx : Oneshot)
| PutRecord (record : KadRecord) (quorum : Quorum) (tx : Oneshot)
| RemoveRecord (key : Key)
| Subscribe (topic : string) (tx : Oneshot)
| Publish (topic : string) (msg : Bytes) (tx : Oneshot)
| CmdBroadcast (topic : string) (msg : Bytes) (tx : Oneshot)
| Get (cid : Cid) (providers : list PeerId) (tx : Oneshot)
| Sync (cid : Cid) (providers : list PeerId) (missing : list Cid) (tx : Oneshot)
| CmdSwarmEvents (tx : Oneshot)
| CancelQuery (id : QueryId).

(** [NetworkBackendBehaviourEvent]; the address book's own events are [Void]. *)
Inductive BehaviourEvent : Type :=
| EvKad (e : KademliaEvent)
| EvMdns (e : MdnsEvent)
| EvPing (p : PeerId) (r : PingResult)
| EvIdentify (e : IdentifyEvent)
| EvBitswap (e : BitswapEvent)
| EvGossipsub (e : GossipsubEvent)
| EvBroadcast (e : BroadcastEvent).

Inductive SwarmEvent : Type :=
| SwConnectionClosed (p : PeerId) (endpoint : ConnectedPoint) (num_established : Z)
    (cause : option (ConnectionError MyHandlerError))
| SwBehaviour (e : BehaviourEvent)
| SwOther.

(** A spawned [forward_listener_events]. *)
Record Forwarder : Type := MkForwarder {
  fw_listener : ListenerId;
  fw_response : sender ListenerEvent;
  fw_rx : sender Event;
}.

(** The variables of [poll_swarm] and the tasks it spawned. *)
Record Task : Type := MkTask {
  net : Net;
  swarm : Swarm;
  forwarders : list Forwarder;
  listen_chans : chan_state ListenerEvent;
}.

Definition set_net (n : Net) (t : Task) : Task :=
  MkTask n (swarm t) (forwarders t) (listen_chans t).
Definition set_swarm (w : Swarm) (t : Task) : Task :=
  MkTask (net t) w (forwarders t) (listen_chans t).

Definition on_net (f : Net → Net) (t : Task) : outcome Task := Done (set_net (f (net t)) t).
Definition on_net_o (f : Net → outcome Net) (t : Task) : outcome Task :=
  n ← f (net t); Done (set_net n t).

(** [let (tx, rx) = mpsc::unbounded(); behaviour.swarm_events(tx)]. *)
Definition new_event_stream (n : Net) : sender Event * Net :=
  let '(tx, c) := unbounded (chans (world (peers_st n))) in
  (tx, net_swarm_events tx (set_peers_st (set_chans c) n)).

(** The arm for [SwarmEvent]s. *)
Definition handle_swarm_event (e : SwarmEvent) (t : Task) : outcome Task :=
  match e with
  | SwConnectionClosed p cp num cause => on_net (net_connection_closed p cp num cause) t
  | SwBehaviour (EvKad e) => on_net (inject_kad_event e) t
  | SwBehaviour (EvMdns e) => on_net_o (inject_mdns_event e) t
  | SwBehaviour (EvPing p r) => on_net_o (inject_ping_event p r) t
  | SwBehaviour (EvIdentify e) => on_net_o (inject_id_event e) t
  | SwBehaviour (EvBitswap e) => on_net (inject_bitswap_event e) t
  | SwBehaviour (EvGossipsub e) => on_net (inject_gossip_event e) t
  | SwBehaviour (EvBroadcast e) => on_net_o (inject_broadcast_event e) t
  | SwOther => Done t
  end.

(** The arm for [ListenOn]. *)
Definition handle_listen_on (addr : Multiaddr) (response : sender ListenerEvent) (t : Task)
    : Task :=
  let '(tx, n) := new_event_stream (net t) in
  let t := set_net n t in
  let '(r, w) := swarm_listen_on addr (swarm t) in
  let t := set_swarm w t in
  match r with
  | Ok listener =>
      MkTask (net t) (swarm t) (forwarders t ++ [MkForwarder listener response tx])
        (listen_chans t)
  | Err error =>
      (* the receiver of swarm events goes out of scope *)
      let n := set_peers_st (λ s, set_chans (drop_rx tx (chans (world s))) s) (net t) in
      MkTask n (swarm t) (forwarders t)
        (unbounded_send response (LListenFailed addr error) (listen_chans t)).2
  end.

(** The body of the loop over [initial] for [Bootstrap]. *)
Definition bootstrap_peer (n : Net) (x : PeerId * Multiaddr) : outcome Net :=
  n ← net_add_address x.1 x.2 User n; Done (net_dial x.1 n).

Definition reply_with {A} (tx : Oneshot) (f : result A NetError → Reply)
    (op : Net → result A NetError * Net) (n : Net) : Net :=
  let '(r, n) := op n in send tx (f r) n.

(** The arm for commands. *)
Definition handle_command (cmd : NetworkCommand) (t : Task) : outcome Task :=
  let b := bootstrapped (net t) in
  match cmd with
  | ListenOn addr response => Done (handle_listen_on addr response t)
  | AddExternalAddress addr => Done (set_swarm (swarm_add_external_address addr (swarm t)) t)
  | AddAddress p addr => on_net_o (net_add_address p addr User) t
  | RemoveAddress p addr => on_net (net_remove_address p addr) t
  | PrunePeers min_age => on_net (net_prune_peers min_age) t
  | CmdDial p => on_net (net_dial p) t
  | DialAddress p addr => on_net (net_dial_address p addr) t
  | Ban p => Done (set_swarm (ban_peer_id p (swarm t)) t)
  | Unban p => Done (set_swarm (unban_peer_id p (swarm t)) t)
  | Bootstrap initial tx =>
      on_net_o (λ n, n ← foldM bootstrap_peer initial n; Done (net_bootstrap tx n)) t
  | Providers key tx => on_net (providers key b tx) t
  | Provide key tx => on_net (provide key b tx) t
  | Unprovide key => on_net (unprovide key) t
  | GetRecord key quorum tx => on_net (get_record key quorum b tx) t
  | PutRecord record quorum tx => on_net (put_record record quorum b tx) t
  | RemoveRecord key => on_net (remove_record key) t
  | Subscribe topic tx => on_net (reply_with tx RepGossip (subscribe topic)) t
  | Publish topic msg tx => on_net (reply_with tx RepUnit (publish topic msg)) t
  | CmdBroadcast topic msg tx => on_net (reply_with tx RepUnit (net_broadcast topic msg)) t
  | Get cid provs tx =>
      on_net_o (λ n, '(rx, id, n) ← net_get cid provs n; Done (send tx (RepGetQuery id rx) n)) t
  | Sync cid provs missing tx =>
      on_net_o (λ n, '(rx, id, n) ← net_sync cid provs missing n;
                     Done (send tx (RepSyncQuery id rx) n)) t
  | CmdSwarmEvents tx =>
      on_net (λ n, let '(rx, n) := new_event_stream n in send tx (RepSwarmEvents rx) n) t
  | CancelQuery id => on_net_o (cancel id) t
  end.

(** What [future::select] yields to the loop. *)
Inductive input : Type :=
| InSwarm (e : option SwarmEvent)
| InCommand (c : option NetworkCommand).

(** One iteration of the loop; [None] when the task returns. *)
Definition poll_swarm_step (x : input) (t : Task) : outcome (option Task) :=
  match x with
  | InSwarm (Some e) => Some <$> handle_swarm_event e t
  | InCommand (Some c) => Some <$> handle_command c t
  | InSwarm None | InCommand None => Done None
  end.

(** [poll_swarm] on a sequence of inputs. *)
Fixpoint poll_swarm (xs : list input) (t : Task) : outcome (option Task) :=
  match xs with
  | [] => Done (Some t)
  | x :: xs =>
      r ← poll_swarm_step x t;
      match r with Some t => poll_swarm xs t | None => Done None end
  end.
End task.
