(* ===== verification/NetworkService.v ===== *)
(** * [src/net/mod.rs]: listener forwarding, query futures, the client handle

    [forward_listener_events], the futures [GetQuery] and [SyncQuery], and
    [NetworkService], whose methods read the variables shared with the swarm task or
    queue a command for it. *)

From S2P Require Import Prelude Libp2p Duration PeerInfo AddressHandler Channel Peers Ipld.
From S2P Require Import Behaviour Network.

Open Scope Z_scope.

(** ** Forwarding of listener events *)
Section forwarding.
Context `{L : Libp2p, CL : !Channels ListenerEvent}.

(** The predicate of [take_while], with its sends. *)
Definition forward_one (listener : ListenerId) (response : sender ListenerEvent) (e : Event)
    (c : chan_state ListenerEvent) : bool * chan_state ListenerEvent :=
  match e with
  | ListenerClosed id =>
      if bool_decide (id = listener) then (false, c) else (true, c)
  | NewListenAddr id addr =>
      if bool_decide (id = listener)
      then unbounded_send response (LNewListenAddr addr) c else (true, c)
  | ExpiredListenAddr id addr =>
      if bool_decide (id = listener)
      then unbounded_send response (LExpiredListenAddr addr) c else (true, c)
  | _ => (true, c)
  end.

(** [forward_listener_events] on the events received so far; the flag says whether
    the task is still running. *)
Fixpoint forward_listener_events (listener : ListenerId) (response : sender ListenerEvent)
    (events : list Event) (c : chan_state ListenerEvent) : bool * chan_state ListenerEvent :=
  match events with
  | [] => (true, c)
  | e :: events =>
      let '(go, c) := forward_one listener response e c in
      if go then forward_listener_events listener response events c else (false, c)
  end.
End forwarding.

(** ** Query futures *)
Section futures.
Context `{L : Libp2p, I : Ipld, N : !Protocols, CE : !Channels Event,
          CG : !Channels GossipEvent, CS : !Channels SyncEvent,
          CL : !Channels ListenerEvent}.

(** Errors seen by clients: those of the behaviour, a closed oneshot, a command
    that could not be queued. *)
Inductive ServiceError : Type :=
| SvcNet (e : NetError)
| SvcCanceled
| SvcSend (reason : string).

(** What a poll of a oneshot receiver yields. *)
Inductive OneshotPoll (A : Type) : Type :=
| OsValue (a : A)
| OsCanceled
| OsPending.
Arguments OsValue {_} _.
Arguments OsCanceled {_}.
Arguments OsPending {_}.

(** [Future for GetQuery]. *)
Definition GetQuery_poll (rx : OneshotPoll (result () NetError))
    : Poll (result () ServiceError) :=
  match rx with
  | OsValue (Ok u) => Ready (Ok u)
  | OsValue (Err e) => Ready (Err (SvcNet e))
  | OsCanceled => Ready (Err SvcCanceled)
  | OsPending => Pending
  end.

(** [SyncQuery]: its id, unless it was born ready, and its channel: the events not
    yet received and whether the sending end is gone. *)
Record SyncQuery : Type := MkSyncQuery {
  sq_id : option QueryId;
  sq_queue : list SyncEvent;
  sq_closed : bool;
}.

(** [SyncQuery::poll_next]. *)
Definition SyncQuery_poll_next (q : SyncQuery) : Poll (option SyncEvent) * SyncQuery :=
  match sq_queue q with
  | e :: es => (Ready (Some e), MkSyncQuery (sq_id q) es (sq_closed q))
  | [] => (if sq_closed q then Ready None else Pending, q)
  end.

(** [Future for SyncQuery]: the loop, [None] when the fuel runs out. *)
Fixpoint SyncQuery_poll (fuel : nat) (q : SyncQuery)
    : option (Poll (result () NetError) * SyncQuery) :=
  match fuel with
  | O => None
  | S fuel =>
      match SyncQuery_poll_next q with
      | (Ready (Some (Complete r)), q) => Some (Ready r, q)
      | (Ready _, q) => SyncQuery_poll fuel q
      | (Pending, q) => Some (Pending, q)
      end
  end.

(** [SyncQuery::ready]: the sending end is dropped when the function returns. *)
Definition SyncQuery_ready (r : result () NetError) : SyncQuery :=
  MkSyncQuery None [Complete r] true.
End futures.

(** ** The command channel *)

(** Why [try_send] failed. *)
Inductive SendFail : Type := SfFull | SfDisconnected.

(** [futures::channel::mpsc::channel]: a bounded queue. *)
Class Bounded (T : Type) := {
  bounded_state : Type;
  pending : bounded_state → list T;
  bounded_new : nat → bounded_state;
  pending_new n : pending (bounded_new n) = [];
  try_send : T → bounded_state → option SendFail * bounded_state;
  try_send_ok x s s' : try_send x s = (None, s') → pending s' = pending s ++ [x];
  try_send_err x s s' f : try_send x s = (Some f, s') → pending s' = pending s;
  (** [next] on the receiving end: the oldest value, or nothing yet. *)
  next_cmd : bounded_state → option T * bounded_state;
  next_cmd_spec s :
    match pending s with
    | [] => next_cmd s = (None, s)
    | x :: l => ∃ s', next_cmd s = (Some x, s') ∧ pending s' = l
    end;
}.
Arguments bounded_state T {_}.

Section service.
Context `{L : Libp2p, I : Ipld, N : !Protocols, CE : !Channels Event,
          CG : !Channels GossipEvent, CS : !Channels SyncEvent,
          CL : !Channels ListenerEvent, CC : !Bounded NetworkCommand, O : HashOrder}.

(** The client side: identity, command channel, and the ends it created. *)
Record Client : Type := MkClient {
  c_peer_id : PeerId;
  c_node_name : string;
  c_cmd : bounded_state NetworkCommand;
  c_oneshots : nat;
  c_listen : chan_state ListenerEvent;
}.

Definition reason_of (f : SendFail) : string :=
  match f with
  | SfDisconnected => "receiver went away"
  | SfFull => "channel is full"
  end.

(** [handle_send_result]. *)
Definition handle_send_result (res : option SendFail) (msg : NetworkCommand)
    : option (NetworkCommand * string) :=
  match res with
  | None => None
  | Some f => Some (msg, reason_of f)
  end.

(** [cmd], [cmd_shared]. *)
Definition cmd (msg : NetworkCommand) (c : Client)
    : option (NetworkCommand * string) * Client :=
  let '(r, s) := try_send msg (c_cmd c) in
  (handle_send_result r msg, MkClient (c_peer_id c) (c_node_name c) s (c_oneshots c) (c_listen c)).

(** A method that only queues a command: [add_address], [remove_address],
    [prune_peers], [dial], [dial_address], [ban], [unban]. *)
Definition fire (msg : NetworkCommand) (c : Client) : Client := (cmd msg c).2.

Definition svc_add_address (p : PeerId) (a : Multiaddr) := fire (AddAddress p a).
Definition svc_remove_address (p : PeerId) (a : Multiaddr) := fire (RemoveAddress p a).
Definition svc_prune_peers (min_age : Duration) := fire (PrunePeers min_age).
Definition svc_dial (p : PeerId) := fire (CmdDial p).
Definition svc_dial_address (p : PeerId) (a : Multiaddr) := fire (DialAddress p a).
Definition svc_ban (p : PeerId) := fire (Ban p).
Definition svc_unban (p : PeerId) := fire (Unban p).

(** [add_external_address]. *)
Definition svc_add_external_address (a : Multiaddr) (c : Client) : Client :=
  fire (AddExternalAddress (normalize_addr a (c_peer_id c))) c.

(** [unprovide], [remove_record]. *)
Definition fire_result (msg : NetworkCommand) (c : Client) : result () ServiceError * Client :=
  let '(r, c) := cmd msg c in
  (match r with Some (_, reason) => Err (SvcSend reason) | None => Ok () end, c).
Definition svc_unprovide (key : Key) := fire_result (Unprovide key).
Definition svc_remove_record (key : Key) := fire_result (RemoveRecord key).

(** A future that is ready with an error, or waits for the answer on a oneshot. *)
Inductive Request : Type :=
| Failed (e : ServiceError)
| Waiting (rx : Oneshot).

(** A method that queues a command carrying the sending end of a new oneshot. *)
Definition request (mk : Oneshot → NetworkCommand) (c : Client) : Request * Client :=
  let rx := c_oneshots c in
  let c := MkClient (c_peer_id c) (c_node_name c) (c_cmd c) (S (c_oneshots c)) (c_listen c) in
  let '(r, c) := cmd (mk rx) c in
  (match r with Some (_, reason) => Failed (SvcSend reason) | None => Waiting rx end, c).

Definition svc_bootstrap (peers : list (PeerId * Multiaddr)) := request (Bootstrap peers).
Definition svc_providers (key : Key) := request (Providers key).
Definition svc_provide (key : Key) := request (Provide key).
Definition svc_get_record (key : Key) (q : Quorum) := request (GetRecord key q).
Definition svc_put_record (r : KadRecord) (q : Quorum) := request (PutRecord r q).
Definition svc_subscribe (topic : string) := request (Subscribe topic).
Definition svc_publish (topic : string) (msg : Bytes) := request (Publish topic msg).
Definition svc_broadcast (topic : string) (msg : Bytes) := request (CmdBroadcast topic msg).
Definition svc_get (cid : Cid) (provs : list PeerId) := request (Get cid provs).
Definition svc_swarm_events := request CmdSwarmEvents.

(** [sync]: nothing to do, nobody to ask, or a command. *)
Inductive SyncRequest : Type :=
| SyncReady (q : SyncQuery)
| SyncRequested (r : Request).

Definition svc_sync (cid : Cid) (provs : list PeerId) (missing : list Cid) (c : Client)
    : SyncRequest * Client :=
  match missing, provs with
  | [], _ => (SyncReady (SyncQuery_ready (Ok ())), c)
  | m :: _, [] => (SyncReady (SyncQuery_ready (Err (NetBlockNotFound m))), c)
  | _, _ => let '(r, c) := request (Sync cid provs missing) c in (SyncRequested r, c)
  end.

(** [listen_on]; the stream is named by its sending end. *)
Definition svc_listen_on (addr : Multiaddr) (c : Client) : sender ListenerEvent * Client :=
  let '(tx, l) := unbounded (c_listen c) in
  let c := MkClient (c_peer_id c) (c_node_name c) (c_cmd c) (c_oneshots c) l in
  let '(r, c) := cmd (ListenOn addr tx) c in
  match r with
  | Some (ListenOn addr tx', reason) =>
      let e := LListenFailed addr ("cannot send to Swarm: " +:+ reason) in
      (tx, MkClient (c_peer_id c) (c_node_name c) (c_cmd c) (c_oneshots c)
             (unbounded_send tx' e (c_listen c)).2)
  | _ => (tx, c)
  end.

(** [Drop for GetQuery] and [Drop for SyncQuery]: the query is cancelled. *)
Definition drop_get_query (id : QueryId) : Client → Client := fire (CancelQuery id).
Definition drop_sync_query (q : SyncQuery) (c : Client) : Client :=
  match sq_id q with Some id => fire (CancelQuery id) c | None => c end.

(** *** Methods that read the shared variables *)

(** [listeners], [external_addresses], [peers], [peer_info], [is_bootstrapped]. *)
Definition svc_listeners (n : Net) : list Multiaddr := hs_iter (listeners (book (peers_st n))).
Definition svc_external_addresses (n : Net) : list AddressRecord :=
  external (book (peers_st n)).
Definition svc_peers (n : Net) : list PeerId := (hm_iter (peers (book (peers_st n)))).*1.
Definition svc_peer_info (p : PeerId) (n : Net) : option PeerInfo :=
  peers (book (peers_st n)) !! p.
Definition svc_is_bootstrapped (n : Net) : bool := bootstrapped n.

(** [connections]. *)
Definition svc_connections (n : Net) : list (PeerId * Multiaddr * Z * Direction) :=
  flat_map (λ '(p, info), (λ '(a, (t, d)), (p, a, t, d)) <$> hm_iter (connections info))
    (hm_iter (peers (book (peers_st n)))).

(** [is_connected]. *)
Definition svc_is_connected (local p : PeerId) (n : Net) : bool :=
  bool_decide (p = local) ||
  match peers (book (peers_st n)) !! p with
  | Some info => negb (bool_decide (connections info = ∅))
  | None => false
  end.
End service.

Arguments OsValue {_} _.
Arguments OsCanceled {_}.
Arguments OsPending {_}.
