(* ===== verification/NetToy.v ===== *)
(** * Concrete sub-protocols

    Small instances of [Protocols], [SwarmOps] and [Bounded] that satisfy their laws,
    and a network task over them, on which the theorems about the network are
    evaluated. *)

From S2P Require Import Prelude Libp2p Duration PeerInfo AddressHandler Channel Peers PeersReach.
From S2P Require Import Ipld Utf8 Behaviour Network NetworkService.

Open Scope Z_scope.

(** Query ids are counted; gossipsub refuses the topic ["refused"]. *)
#[export] Program Instance toy_protocols : Protocols (L := toy) (I := numbered) := {|
  Kad := nat;
  KadQueryId := nat;
  Key := N;
  KadRecord := N;
  PeerRecord := N;
  Quorum := ();
  KadError := string;
  kad_add_address := λ _ _ k, k;
  kad_remove_address := λ _ _ k, k;
  kad_bootstrap := λ k, (Ok k, S k);
  kad_start_providing := λ _ k, (Ok k, S k);
  kad_stop_providing := λ _ k, k;
  kad_get_providers := λ _ k, (k, S k);
  kad_get_record := λ _ _ k, (k, S k);
  kad_put_record := λ _ _ k, (Ok k, S k);
  kad_remove_record := λ _ k, k;
  Gossipsub := gset string;
  GossipError := string;
  ident_hash := λ t, t;
  gossip_subscribe := λ t g,
    if bool_decide (t = "refused") then (Err "refused", g)
    else (Ok (bool_decide (t ∉ g)), {[t]} ∪ g);
  gossip_unsubscribe := λ t g, (Ok (bool_decide (t ∈ g)), g ∖ {[t]});
  gossip_publish := λ t _ g, (Err None, g);
  Broadcast := list (list Z);
  Topic := list Z;
  topic_new := λ b, b;
  topic_bytes := λ t, t;
  broadcast_subscribe := λ t b, t :: b;
  broadcast_unsubscribe := λ t b, b;
  broadcast_broadcast := λ _ _ b, b;
  Bitswap := nat;
  BitswapError := string;
  BitswapQueryId := nat;
  bitswap_get := λ _ _ b, (b, S b);
  bitswap_sync := λ _ _ _ b, (b, S b);
  bitswap_cancel := λ _ b, b;
|}.
Next Obligation. done. Qed.

#[export] Instance toy_swarm : SwarmOps (L := toy) := {|
  Swarm := nat;
  swarm_listen_on := λ _ w, (Ok w, S w);
  swarm_add_external_address := λ _ w, w;
  ban_peer_id := λ _ w, w;
  unban_peer_id := λ _ w, w;
|}.

(** A command channel with room for [n] commands. *)
#[export] Program Instance toy_bounded (T : Type) : Bounded T := {|
  bounded_state := nat * list T;
  pending := snd;
  bounded_new := λ n, (n, []);
  try_send := λ x s, if bool_decide (length s.2 < s.1)%nat
                     then (None, (s.1, s.2 ++ [x])) else (Some SfFull, s);
  next_cmd := λ s, match s.2 with [] => (None, s) | x :: l => (Some x, (s.1, l)) end;
|}.
Next Obligation. done. Qed.
Next Obligation. intros T x [k l] s'. cbn. case_bool_decide; by intros [= <-]. Qed.
Next Obligation. intros T x [k l] s' f. cbn. case_bool_decide; by intros [= <- <-]. Qed.
Next Obligation. intros T [k [|x l]]; cbn; [done|]. by eexists. Qed.

(** The task right after the node was started, with every protocol enabled. *)
Definition net0 : Net :=
  MkNet start (Some 0%nat) (Some ∅) (Some []) (Some 0%nat) false ∅ ∅
    (∅ : chan_state GossipEvent (Channels := queues _)) (∅ : chan_state SyncEvent (Channels := queues _)) 0 [].

Definition task0 : Task := MkTask net0 (0%nat : Swarm) []
  (∅ : chan_state ListenerEvent (Channels := queues _)).

Definition client0 : Client :=
  MkClient peer_a "node" ((1%nat, []) : bounded_state NetworkCommand) 0
    (∅ : chan_state ListenerEvent (Channels := queues _)).

(** Continue a run of the task, which must not have panicked or ended. *)
Definition force_task (o : outcome (option Task)) : Task :=
  match o with Done (Some t) => t | _ => task0 end.

Definition going (o : outcome (option Task)) : bool :=
  match o with Done (Some _) => true | _ => false end.

Lemma force_task_Done o : going o = true → o = Done (Some (force_task o)).
Proof. by destruct o as [[]|]. Qed.

Definition get_input : input := InCommand (Some (Get 5%N [peer_b] 102%nat)).

(** Bootstrap, provide a key, fetch a block; the bootstrap completes. *)
Definition inputs0 : list input :=
  [InCommand (Some (Bootstrap [] 100%nat));
   InCommand (Some (Provide 7%N 101%nat));
   InSwarm (Some (SwBehaviour (EvKad (OutboundQueryCompleted 0%nat (QrBootstrap (Ok 0))))));
   get_input].
