(* ===== verification/NetworkSpec.v ===== *)
(** * What the swarm task guarantees

    Reply channels are used linearly, the bootstrap flag changes exactly once a
    bootstrap completes, topic subscribers receive what is published and the address
    book stays well formed, for every sequence of swarm events and commands. *)

From S2P Require Import Prelude Libp2p Duration PeerInfo AddressHandler Channel Peers PeersInv.
From S2P Require Import PeersSpec Ipld Utf8 Behaviour Network NetworkService NetToy.

Open Scope Z_scope.

(** ** Linear use of reply channels *)
Section linear.
Context `{L : Libp2p, I : Ipld, N : !Protocols, CE : !Channels Event,
          CG : !Channels GossipEvent, CS : !Channels SyncEvent,
          CL : !Channels ListenerEvent, W : !SwarmOps,
          F : !Fmt, E : Environment, O : HashOrder, P : Profile}.
Implicit Types (n : Net) (t : Task).

(** The oneshot a registered query will be answered on. *)
Definition query_tx (ch : QueryChannel) : list Oneshot :=
  match ch with
  | ChSync _ => []
  | ChGet tx | ChBootstrap tx | ChGetClosestPeers tx | ChGetProviders tx
  | ChStartProviding tx | ChGetRecord tx | ChPutRecord tx => [tx]
  end.

Definition answer_tx (a : Answer) : list Oneshot :=
  match a with Answered tx _ | Abandoned tx => [tx] | HungUp _ => [] end.

(** Sending ends that were used up, and those still held by running queries. *)
Definition consumed n : list Oneshot := outbox n ≫= answer_tx.
Definition held n : list Oneshot := map_to_list (queries n) ≫= (λ x, query_tx x.2).
Definition all_tx n : list Oneshot := consumed n ++ held n.

(** The sending end a command carries. *)
Definition cmd_tx (c : NetworkCommand) : list Oneshot :=
  match c with
  | Bootstrap _ tx | Providers _ tx | Provide _ tx | GetRecord _ _ tx | PutRecord _ _ tx
  | Subscribe _ tx | Publish _ _ tx | CmdBroadcast _ _ tx | Get _ _ tx | Sync _ _ _ tx
  | CmdSwarmEvents tx => [tx]
  | _ => []
  end.

(** [Get] makes one more oneshot, for the block itself. *)
Definition introduced (c : NetworkCommand) n : list Oneshot :=
  cmd_tx c ++ match c with Get _ _ _ => [oneshots n] | _ => [] end.

(** Nothing but the query table and the log matters. *)
Lemma same_tx n n' : queries n' = queries n → outbox n' = outbox n → all_tx n' = all_tx n.
Proof. unfold all_tx, consumed, held. by intros -> ->. Qed.

Lemma same_tx_perm n n' :
  queries n' = queries n → outbox n' = outbox n → all_tx n' ≡ₚ all_tx n.
Proof. intros H1 H2. by rewrite (same_tx n n' H1 H2). Qed.

Lemma held_insert q ch m :
  map_to_list (<[q := ch]> m) ≫= (λ x : QueryId * QueryChannel, query_tx x.2) ≡ₚ
  query_tx ch ++ (map_to_list (delete q m) ≫= (λ x, query_tx x.2)).
Proof.
  rewrite <- insert_delete_eq.
  rewrite map_to_list_insert by apply lookup_delete_eq. done.
Qed.

Lemma held_delete q ch m :
  m !! q = Some ch →
  map_to_list m ≫= (λ x : QueryId * QueryChannel, query_tx x.2) ≡ₚ
  query_tx ch ++ (map_to_list (delete q m) ≫= (λ x, query_tx x.2)).
Proof. intros Hq. rewrite <- (insert_id m q ch) at 1 by done. apply held_insert. Qed.

Lemma log_tx a n : all_tx (log a n) ≡ₚ answer_tx a ++ all_tx n.
Proof.
  unfold all_tx, consumed, held. cbn. rewrite bind_app. cbn. rewrite app_nil_r.
  rewrite (Permutation_app_comm (outbox n ≫= answer_tx) (answer_tx a)).
  by rewrite <- app_assoc.
Qed.

Lemma drop_channel_tx ch n : all_tx (drop_channel ch n) ≡ₚ query_tx ch ++ all_tx n.
Proof. destruct ch; apply log_tx. Qed.

Lemma delete_query_tx q ch n :
  queries n !! q = Some ch → query_tx ch ++ all_tx (set_queries (delete q) n) ≡ₚ all_tx n.
Proof.
  intros Hq. unfold all_tx, consumed, held. cbn. rewrite (held_delete _ _ _ Hq).
  rewrite !app_assoc. by rewrite (Permutation_app_comm (query_tx ch)).
Qed.

Lemma insert_query_tx q ch n : all_tx (insert_query q ch n) ≡ₚ query_tx ch ++ all_tx n.
Proof.
  assert (all_tx (set_queries <[q := ch]> n) ≡ₚ
          query_tx ch ++ all_tx (set_queries (delete q) n)) as Hins.
  { unfold all_tx, consumed, held. cbn. rewrite held_insert.
    rewrite !app_assoc. by rewrite (Permutation_app_comm (query_tx ch)). }
  unfold insert_query. destruct (queries n !! q) as [old|] eqn:Hq.
  - rewrite drop_channel_tx, Hins, <- (delete_query_tx _ _ _ Hq).
    rewrite !app_assoc. by rewrite (Permutation_app_comm (query_tx old)).
  - rewrite Hins. erewrite (same_tx n); [done| |done]. cbn. by apply delete_id.
Qed.

Lemma finish_tx q want r n :
  (∀ ch tx, want ch = Some tx → query_tx ch = [tx]) → all_tx (finish q want r n) ≡ₚ all_tx n.
Proof.
  intros Hw. unfold finish. destruct (queries n !! q) as [ch|] eqn:Hq; [|done].
  rewrite <- (delete_query_tx _ _ _ Hq). destruct (want ch) as [tx|] eqn:Hch.
  - unfold send. rewrite log_tx. cbn. by rewrite (Hw _ _ Hch).
  - apply drop_channel_tx.
Qed.

Lemma kad_event_tx e n : all_tx (inject_kad_event e n) ≡ₚ all_tx n.
Proof.
  assert (∀ q want r n, want ∈ [as_bootstrap; as_closest; as_providers; as_providing;
            as_get_record; as_put_record] → all_tx (finish q want r n) ≡ₚ all_tx n) as Hf.
  { intros q want r n0 Hw. apply finish_tx. intros ch tx.
    repeat (apply elem_of_cons in Hw as [->|Hw]; [by destruct ch; cbn; intros [=->]|]).
    by apply not_elem_of_nil in Hw. }
  destruct e as [id r|]; [|done].
  destruct r as [[x|x]|[x|x]|[x|x]|[x|x]|[x|x]|[x|x]|[x|x]|[x|x]]; cbn [inject_kad_event];
    try done; try (apply Hf; by repeat constructor).
  case_bool_decide; [|done]. rewrite (same_tx (finish _ _ _ _)) by done.
  rewrite Hf by by repeat constructor. by apply same_tx_perm.
Qed.

Lemma bitswap_event_tx e n : all_tx (inject_bitswap_event e n) ≡ₚ all_tx n.
Proof.
  destruct e as [id m|id r]; cbn; destruct (queries n !! QBitswap id) as [ch|] eqn:Hq; try done.
  - by destruct ch.
  - rewrite <- (delete_query_tx _ _ _ Hq).
    destruct ch; try (apply drop_channel_tx); unfold send; rewrite log_tx; by cbn.
Qed.

(** Operations that leave the query table and the log alone. *)
Definition quiet_tx n n' : Prop :=
  queries n' = queries n ∧ outbox n' = outbox n ∧ oneshots n' = oneshots n.

Lemma quiet_all n n' : quiet_tx n n' → all_tx n' = all_tx n.
Proof. intros (?&?&?). by apply same_tx. Qed.

#[local] Instance quiet_tx_preorder : PreOrder quiet_tx.
Proof. split; [by repeat split|]. intros ??? (?&?&?) (?&?&?). repeat split; congruence. Qed.

Lemma on_book_quiet f n n' : on_book f n = Done n' → quiet_tx n n'.
Proof. unfold on_book. rewrite bind_Done. by intros (s & _ & [= <-]). Qed.

Lemma add_address_quiet p a src n n' : net_add_address p a src n = Done n' → quiet_tx n n'.
Proof. unfold net_add_address. intros Hn%on_book_quiet. etrans; [|exact Hn]. by destruct (kad n). Qed.

Lemma fold_quiet {A} (f : Net → A → outcome Net) l n n' :
  (∀ n x n', f n x = Done n' → quiet_tx n n') → foldM f l n = Done n' → quiet_tx n n'.
Proof.
  intros Hf. revert n. induction l as [|x l IH]; intros n; cbn; [by intros [= <-]|].
  rewrite bind_Done. intros (n1 & H1%Hf & H2%IH). by etrans.
Qed.

Lemma unsubscribe_quiet topic n : quiet_tx n (unsubscribe topic n).
Proof. unfold unsubscribe. by repeat case_match. Qed.

Lemma notify_subscribers_quiet topic e n : quiet_tx n (notify_subscribers topic e n).
Proof.
  unfold notify_subscribers. case_match; [|done]. destruct (send_retain _ _ _) as [txs c].
  case_match; [|done]. etrans; [|by repeat split]. etrans; [|apply unsubscribe_quiet]. by repeat split.
Qed.

Lemma gossip_event_quiet e n : quiet_tx n (inject_gossip_event e n).
Proof.
  destruct e; cbn; try done; (etrans; [|apply notify_subscribers_quiet]; by repeat split).
Qed.

Lemma broadcast_event_quiet e n n' : inject_broadcast_event e n = Done n' → quiet_tx n n'.
Proof.
  destruct e; cbn; rewrite ?bind_Done; intros H.
  - destruct H as (topic' & _ & [= <-]). apply notify_subscribers_quiet.
  - case_match; simplify_eq; [|done]. etrans; [|apply notify_subscribers_quiet]. by repeat split.
  - case_match; simplify_eq; [|done]. etrans; [|apply notify_subscribers_quiet]. by repeat split.
Qed.

Lemma subscribe_quiet topic n : quiet_tx n (subscribe topic n).2.
Proof.
  unfold subscribe. destruct (unbounded _) as [tx c].
  repeat (case_match; simplify_eq/=); by repeat split.
Qed.

(** The counter of oneshots made by the task itself. *)
Lemma log_oneshots a n : oneshots (log a n) = oneshots n.
Proof. done. Qed.

Lemma insert_query_oneshots q ch n : oneshots (insert_query q ch n) = oneshots n.
Proof. unfold insert_query, drop_channel. by repeat case_match. Qed.

Lemma finish_oneshots q want r n : oneshots (finish q want r n) = oneshots n.
Proof. unfold finish, drop_channel. by repeat case_match. Qed.

(** What was answered stays answered. *)
Definition logged n n' : Prop := outbox n `prefix_of` outbox n'.

#[local] Instance logged_preorder : PreOrder logged.
Proof. split; unfold logged; [intros n; reflexivity|]. intros n1 n2 n3 H1 H2. by etrans. Qed.

Lemma same_logged n n' : outbox n' = outbox n → logged n n'.
Proof. unfold logged. intros ->. reflexivity. Qed.

Lemma log_logged a n : logged n (log a n).
Proof. by exists [a]. Qed.

Lemma drop_channel_logged ch n : logged n (drop_channel ch n).
Proof. destruct ch; apply log_logged. Qed.

Lemma insert_query_logged q ch n : logged n (insert_query q ch n).
Proof.
  unfold insert_query. case_match; [|by apply same_logged].
  apply (drop_channel_logged _ (set_queries <[q := ch]> n)).
Qed.

Lemma finish_logged q want r n : logged n (finish q want r n).
Proof.
  unfold finish. repeat case_match; [| |by apply same_logged].
  - apply (log_logged _ (set_queries (delete q) n)).
  - apply (drop_channel_logged _ (set_queries (delete q) n)).
Qed.

(** A step of the behaviour that uses up the sending ends [l]. *)
Definition uses n n' (l : list Oneshot) : Prop :=
  all_tx n' ≡ₚ l ++ all_tx n ∧ oneshots n' = oneshots n ∧ logged n n'.

Lemma uses_quiet n n' : quiet_tx n n' → uses n n' [].
Proof.
  intros Hq. split_and!; [by rewrite (quiet_all _ _ Hq) | apply Hq |].
  apply same_logged, Hq.
Qed.

Lemma uses_send tx r n : uses n (send tx r n) [tx].
Proof. split_and!; [apply log_tx | done | apply log_logged]. Qed.

Lemma uses_drop tx n : uses n (drop_tx tx n) [tx].
Proof. split_and!; [apply log_tx | done | apply log_logged]. Qed.

Lemma uses_insert q ch n : uses n (insert_query q ch n) (query_tx ch).
Proof.
  split_and!; [apply insert_query_tx | apply insert_query_oneshots | apply insert_query_logged].
Qed.

Lemma uses_after n n1 n2 l : quiet_tx n n1 → uses n1 n2 l → uses n n2 l.
Proof.
  intros Hq (H1 & H2 & H3). split_and!; [by rewrite H1, (quiet_all _ _ Hq) | rewrite H2; apply Hq |].
  etrans; [apply same_logged, Hq | exact H3].
Qed.

Lemma uses_kad_event e n : uses n (inject_kad_event e n) [].
Proof.
  split; [apply kad_event_tx|]. destruct e as [id r|]; [|by split; [|apply same_logged]].
  destruct r as [[x|x]|[x|x]|[x|x]|[x|x]|[x|x]|[x|x]|[x|x]|[x|x]]; cbn [inject_kad_event];
    try (by split; [|apply same_logged]); try (split; [apply finish_oneshots | apply finish_logged]).
  case_bool_decide; [|by split; [|apply same_logged]]. split; [cbn; by rewrite finish_oneshots|].
  apply (finish_logged _ _ _ (set_bootstrapped true n)).
Qed.

Lemma uses_bitswap_event e n : uses n (inject_bitswap_event e n) [].
Proof.
  split_and!; [apply bitswap_event_tx| |];
    destruct e as [id m|id r]; cbn; destruct (queries n !! QBitswap id) as [ch|]; try done;
    try (by apply same_logged).
  - by destruct ch.
  - by destruct ch.
  - destruct ch; by apply same_logged.
  - destruct ch; apply (log_logged _ (set_queries (delete (QBitswap id)) n)).
Qed.

Lemma uses_on_net f t t' l :
  (∀ n, uses n (f n) l) → on_net f t = Done t' → uses (net t) (net t') l.
Proof. intros Hf [= <-]. apply Hf. Qed.

Lemma uses_on_net_o f t t' l :
  (∀ n n', f n = Done n' → uses n n' l) → on_net_o f t = Done t' → uses (net t) (net t') l.
Proof. intros Hf. unfold on_net_o. rewrite bind_Done. intros (n & H & [= <-]). by apply Hf. Qed.

Lemma swarm_event_uses e t t' :
  handle_swarm_event e t = Done t' → uses (net t) (net t') [].
Proof.
  destruct e as [p cp num cause|[e|e|p r|e|e|e|e]|]; cbn; try (apply uses_on_net; intros n);
    try (apply uses_on_net_o; intros n n' H).
  - by apply uses_quiet.
  - apply uses_kad_event.
  - apply uses_quiet. destruct e as [found|]; cbn in H; [|by simplify_eq].
    eapply fold_quiet; [|exact H]. intros n0 [p a] n1. apply add_address_quiet.
  - apply uses_quiet. destruct r; cbn in H; simplify_eq; by eauto using on_book_quiet.
  - apply uses_quiet. destruct e; cbn in H; simplify_eq; by eauto using on_book_quiet.
  - apply uses_bitswap_event.
  - apply uses_quiet, gossip_event_quiet.
  - by apply uses_quiet, (broadcast_event_quiet e).
  - intros [= <-]. by apply uses_quiet.
Qed.

Lemma new_event_stream_quiet n : quiet_tx n (new_event_stream n).2.
Proof. unfold new_event_stream. destruct (unbounded _). by repeat split. Qed.

Lemma uses_reply_with {A} tx f (op : Net → result A NetError * Net) n :
  quiet_tx n (op n).2 → uses n (reply_with tx f op n) [tx].
Proof.
  unfold reply_with. destruct (op n) as [r n1]. cbn. intros Hq.
  eapply uses_after; [exact Hq | apply uses_send].
Qed.

Lemma listen_on_quiet addr r t : quiet_tx (net t) (net (handle_listen_on addr r t)).
Proof.
  unfold handle_listen_on. pose proof (new_event_stream_quiet (net t)) as Hq.
  destruct (new_event_stream (net t)) as [tx n]. destruct (swarm_listen_on _ _) as [[l|e] w]; cbn;
    [exact Hq|]. etrans; [exact Hq|]. by repeat split.
Qed.

Lemma bootstrap_uses initial tx n n' :
  (n ← foldM bootstrap_peer initial n; Done (net_bootstrap tx n)) = Done n' →
  uses n n' [tx].
Proof.
  rewrite bind_Done. intros (n1 & H1 & [= <-]). eapply uses_after.
  { eapply fold_quiet; [|exact H1]. intros n0 [p a] n2. unfold bootstrap_peer.
    rewrite bind_Done. intros (n3 & H3%add_address_quiet & [= <-]).
    etrans; [exact H3|]. by repeat split. }
  unfold net_bootstrap. destruct (kad n1) as [k|]; [|apply uses_send].
  destruct (kad_bootstrap k) as [[id|e] k'];
    (eapply uses_after; [|apply (uses_insert _ (ChBootstrap tx)) || apply uses_send]);
    by repeat split.
Qed.

(** The four DHT commands: rejected, dropped, registered or answered. *)
Lemma dht_uses tx n :
  (∀ key b, uses n (providers key b tx n) [tx]) ∧ (∀ key b, uses n (provide key b tx n) [tx]) ∧
  (∀ key q b, uses n (get_record key q b tx n) [tx]) ∧
  (∀ rec q b, uses n (put_record rec q b tx n) [tx]).
Proof.
  split_and!; intros.
  - unfold providers. destruct b; [|apply uses_send]. destruct (kad n); [|apply uses_drop].
    destruct (kad_get_providers _ _). eapply uses_after; [|apply uses_insert]. by repeat split.
  - unfold provide. destruct b; [|apply uses_send]. destruct (kad n); [|apply uses_drop].
    destruct (kad_start_providing _ _) as [[id|e] k'];
      (eapply uses_after; [|apply uses_insert || apply uses_send]); by repeat split.
  - unfold get_record. destruct b; [|apply uses_send]. destruct (kad n); [|apply uses_drop].
    destruct (kad_get_record _ _ _). eapply uses_after; [|apply uses_insert]. by repeat split.
  - unfold put_record. destruct b; [|apply uses_send]. destruct (kad n); [|apply uses_drop].
    destruct (kad_put_record _ _ _) as [[id|e] k'];
      (eapply uses_after; [|apply uses_insert || apply uses_send]); by repeat split.
Qed.

Lemma cancel_uses id n n' : cancel id n = Done n' → uses n n' [].
Proof.
  assert (uses n (match queries n !! id with
                  | Some ch => drop_channel ch (set_queries (delete id) n) | None => n end) [])
    as Hd.
  { destruct (queries n !! id) as [ch|] eqn:Hq; [|by apply uses_quiet]. split_and!.
    - rewrite drop_channel_tx. by apply delete_query_tx.
    - by destruct ch.
    - apply (drop_channel_logged _ (set_queries (delete id) n)). }
  unfold cancel. destruct id as [i|i]; [|by intros [= <-]].
  rewrite bind_Done. intros (b & _ & [= <-]). destruct Hd as (H1 & H2 & H3).
  split_and!; [|exact H2|exact H3]. rewrite <- H1. by apply same_tx_perm.
Qed.

Definition is_get (c : NetworkCommand) : nat := match c with Get _ _ _ => 1 | _ => 0 end.

Lemma command_uses c t t' :
  handle_command c t = Done t' →
  all_tx (net t') ≡ₚ introduced c (net t) ++ all_tx (net t) ∧
  oneshots (net t') = (is_get c + oneshots (net t))%nat ∧ logged (net t) (net t').
Proof.
  assert (∀ l, l = introduced c (net t) → is_get c = 0%nat → uses (net t) (net t') l →
    all_tx (net t') ≡ₚ introduced c (net t) ++ all_tx (net t) ∧
    oneshots (net t') = (is_get c + oneshots (net t))%nat ∧ logged (net t) (net t')) as Hu
    by (intros l <- -> H; exact H).
  destruct c; cbn [handle_command]; intros H; try (eapply Hu; [reflexivity|done|]; clear Hu).
  - simplify_eq. apply uses_quiet, listen_on_quiet.
  - simplify_eq. by apply uses_quiet.
  - revert H. apply uses_on_net_o. intros n n' H. by eapply uses_quiet, add_address_quiet.
  - revert H. apply uses_on_net. intros n. apply uses_quiet.
    unfold net_remove_address. by case_match.
  - revert H. apply uses_on_net. intros n. by apply uses_quiet.
  - revert H. apply uses_on_net. intros n. by apply uses_quiet.
  - revert H. apply uses_on_net. intros n. by apply uses_quiet.
  - simplify_eq. by apply uses_quiet.
  - simplify_eq. by apply uses_quiet.
  - revert H. apply uses_on_net_o. intros n n'. apply bootstrap_uses.
  - revert H. apply uses_on_net. intros n. apply dht_uses.
  - revert H. apply uses_on_net. intros n. apply dht_uses.
  - revert H. apply uses_on_net. intros n. apply uses_quiet. unfold unprovide. by case_match.
  - revert H. apply uses_on_net. intros n. apply dht_uses.
  - revert H. apply uses_on_net. intros n. apply dht_uses.
  - revert H. apply uses_on_net. intros n. apply uses_quiet. unfold remove_record. by case_match.
  - revert H. apply uses_on_net. intros n. apply uses_reply_with, subscribe_quiet.
  - revert H. apply uses_on_net. intros n. apply uses_reply_with. unfold publish.
    destruct (gossipsub n); [|done]. destruct (gossip_publish _ _ _) as [? ?]. by repeat split.
  - revert H. apply uses_on_net. intros n. apply uses_reply_with. unfold net_broadcast.
    by destruct (broadcast n).
  - clear Hu. unfold on_net_o in H. rewrite bind_Done in H. destruct H as (n1 & H & [= <-]).
    rewrite bind_Done in H. destruct H as ([[rx id] n2] & H & [= <-]).
    unfold net_get in H. rewrite bind_Done in H. destruct H as (b & _ & H).
    cbn [oneshot_channel] in H. destruct (bitswap_get _ _ b) as [i b'].
    injection H as <- <- <-. cbn [set_net net]. unfold send. rewrite log_tx. cbn. split_and!.
    + rewrite insert_query_tx. reflexivity.
    + by rewrite insert_query_oneshots.
    + etrans; [|apply log_logged]. etrans; [|apply insert_query_logged]. by apply same_logged.
  - revert H. apply uses_on_net_o. intros n n' H.
    rewrite bind_Done in H. destruct H as ([[rx id] n2] & H & [= <-]).
    unfold net_sync in H. rewrite bind_Done in H. destruct H as (b & _ & H).
    destruct (unbounded _) as [tx' c]. destruct (bitswap_sync _ _ _ _) as [i b'].
    injection H as <- <- <-. destruct (uses_send tx (RepSyncQuery (QBitswap i) tx')
      (insert_query (QBitswap i) (ChSync tx') (set_bitswap (Some b') (set_sync_chans c n)))) as (H1 & H2 & H3).
    split_and!; [|by rewrite H2, insert_query_oneshots|].
    + rewrite H1, insert_query_tx. reflexivity.
    + etrans; [|exact H3]. etrans; [|apply insert_query_logged]. by apply same_logged.
  - revert H. apply uses_on_net. intros n. pose proof (new_event_stream_quiet n) as Hq.
    destruct (new_event_stream n) as [rx n1]. eapply uses_after; [exact Hq | apply uses_send].
  - revert H. apply uses_on_net_o. intros n n'. apply cancel_uses.
Qed.

(** What the inputs of a run introduce. *)
Definition input_tx (x : input) : list Oneshot :=
  match x with InCommand (Some c) => cmd_tx c | _ => [] end.
Definition input_gets (x : input) : nat :=
  match x with InCommand (Some c) => is_get c | _ => 0 end.
End linear.

(** C4: the swarm task uses reply channels linearly: after any run, the oneshots
    answered or dropped so far together with those registered with running queries are,
    as a multiset, those of the start plus exactly the ones that came with the commands
    plus one per [Get] - so no reply channel is lost, and none is answered twice. *)
Theorem replies_linear `{L : Libp2p, I : Ipld, N : !Protocols, CE : !Channels Event,
    CG : !Channels GossipEvent, CS : !Channels SyncEvent, CL : !Channels ListenerEvent,
    W : !SwarmOps, F : !Fmt, E : Environment, O : HashOrder, P : Profile} xs (t t' : Task) :
  poll_swarm xs t = Done (Some t') →
  all_tx (net t') ≡ₚ all_tx (net t) ++ (xs ≫= input_tx) ++
                     seq (oneshots (net t)) (sum_list (input_gets <$> xs)).
Proof.
  revert t. induction xs as [|x xs IH]; intros t; cbn [poll_swarm].
  { intros [= <-]. cbn. by rewrite app_nil_r. }
  rewrite bind_Done. intros ([t1|] & Hx & Hr); [|done]. apply IH in Hr. rewrite Hr. clear IH Hr.
  destruct x as [[e|]|[c|]]; cbn in Hx; try done.
  - destruct (handle_swarm_event e t) as [t1'|] eqn:He; cbn in Hx; simplify_eq.
    apply swarm_event_uses in He as (-> & -> & _). done.
  - destruct (handle_command c t) as [t1'|] eqn:He; cbn in Hx; simplify_eq.
    apply command_uses in He as (-> & -> & _). unfold introduced. cbn.
    rewrite (Permutation_app_comm _ (all_tx (net t))), <- !app_assoc.
    apply Permutation_app_head.
    destruct c; cbn; try done. constructor. apply Permutation_middle.
Qed.


Lemma replies_linear_witness :
  all_tx (net (force_task (poll_swarm inputs0 task0))) ≡ₚ [100; 101; 102; 0]%nat.
Proof.
  etrans; [apply (replies_linear inputs0 task0), force_task_Done; by vm_compute|].
  by vm_compute.
Defined.

(** ** Bootstrapping *)
Section bootstrapping.
Context `{L : Libp2p, I : Ipld, N : !Protocols, CE : !Channels Event,
          CG : !Channels GossipEvent, CS : !Channels SyncEvent,
          CL : !Channels ListenerEvent, W : !SwarmOps,
          F : !Fmt, E : Environment, O : HashOrder, P : Profile}.
Implicit Types (n : Net) (t : Task).

(** The input that completes a bootstrap. *)
Definition bootstrap_done (x : input) : bool :=
  match x with
  | InSwarm (Some (SwBehaviour (EvKad (OutboundQueryCompleted _ (QrBootstrap (Ok r)))))) =>
      bool_decide (r = 0)
  | _ => false
  end.

Definition same_flag n n' : Prop := bootstrapped n' = bootstrapped n.

#[local] Instance same_flag_preorder : PreOrder same_flag.
Proof. split; [done|]. intros ??? H1 H2. unfold same_flag in *. congruence. Qed.

Lemma finish_flag q want r n : same_flag n (finish q want r n).
Proof. unfold finish, drop_channel. by repeat case_match. Qed.

Lemma insert_query_flag q ch n : same_flag n (insert_query q ch n).
Proof. unfold insert_query, drop_channel. by repeat case_match. Qed.

Lemma on_book_flag f n n' : on_book f n = Done n' → same_flag n n'.
Proof. unfold on_book. rewrite bind_Done. by intros (s & _ & [= <-]). Qed.

Lemma add_address_flag p a src n n' : net_add_address p a src n = Done n' → same_flag n n'.
Proof. unfold net_add_address. intros Hn%on_book_flag. etrans; [|exact Hn]. by destruct (kad n). Qed.

Lemma fold_flag {A} (f : Net → A → outcome Net) l n n' :
  (∀ n x n', f n x = Done n' → same_flag n n') → foldM f l n = Done n' → same_flag n n'.
Proof.
  intros Hf. revert n. induction l as [|x l IH]; intros n; cbn; [by intros [= <-]|].
  rewrite bind_Done. intros (n1 & H1%Hf & H2%IH). by etrans.
Qed.

Lemma notify_subscribers_flag topic e n : same_flag n (notify_subscribers topic e n).
Proof.
  unfold notify_subscribers, unsubscribe. destruct (subscriptions n !! topic); [|done].
  destruct (send_retain _ _ _) as [txs c]. by repeat case_match.
Qed.

Lemma swarm_event_flag e t t' :
  handle_swarm_event e t = Done t' →
  bootstrapped (net t') = bootstrapped (net t) || bootstrap_done (InSwarm (Some e)).
Proof.
  assert (∀ f, (∀ n n', f n = Done n' → same_flag n n') → on_net_o f t = Done t' →
            bootstrapped (net t') = bootstrapped (net t) || false) as Ho.
  { intros f Hf. unfold on_net_o. rewrite bind_Done, orb_false_r.
    intros (n & H%Hf & [= <-]). exact H. }
  assert (∀ f, (∀ n, same_flag n (f n)) → on_net f t = Done t' →
            bootstrapped (net t') = bootstrapped (net t) || false) as Hn.
  { intros f Hf [= <-]. rewrite orb_false_r. apply Hf. }
  destruct e as [p cp num cause|[e|e|p r|e|e|e|e]|]; cbn [handle_swarm_event bootstrap_done].
  - by apply Hn.
  - intros [= <-]. cbn [set_net net]. destruct e as [id r|]; [|by rewrite orb_false_r].
    destruct r as [[x|x]|[x|x]|[x|x]|[x|x]|[x|x]|[x|x]|[x|x]|[x|x]]; cbn [inject_kad_event];
      rewrite ?orb_false_r; try done; try apply finish_flag.
    case_bool_decide; rewrite ?orb_false_r, ?orb_true_r; [|done].
    cbn. by rewrite finish_flag.
  - apply Ho. intros n n' H. destruct e as [found|]; cbn in H; [|by simplify_eq].
    eapply fold_flag; [|exact H]. intros n0 [p a] n1. apply add_address_flag.
  - apply Ho. intros n n' H. destruct r; cbn in H; simplify_eq; by eauto using on_book_flag.
  - apply Ho. intros n n' H. destruct e; cbn in H; simplify_eq; by eauto using on_book_flag.
  - apply Hn. intros n. destruct e; cbn; repeat case_match; try done; by destruct q.
  - apply Hn. intros n. destruct e; cbn; try done;
      (etrans; [|apply notify_subscribers_flag]; done).
  - apply Ho. intros n n' H. destruct e; cbn in H; rewrite ?bind_Done in H.
    + destruct H as (? & _ & [= <-]). apply notify_subscribers_flag.
    + case_match; simplify_eq; [|done]. etrans; [|apply notify_subscribers_flag]. done.
    + case_match; simplify_eq; [|done]. etrans; [|apply notify_subscribers_flag]. done.
  - intros [= <-]. by rewrite orb_false_r.
Qed.

Lemma dht_flag tx n :
  (∀ key b, same_flag n (providers key b tx n)) ∧ (∀ key b, same_flag n (provide key b tx n)) ∧
  (∀ key q b, same_flag n (get_record key q b tx n)) ∧
  (∀ rec q b, same_flag n (put_record rec q b tx n)).
Proof.
  split_and!; intros; unfold providers, provide, get_record, put_record;
    repeat (case_match; try done); (etrans; [|apply insert_query_flag]; done).
Qed.

Lemma command_flag c t t' :
  handle_command c t = Done t' → bootstrapped (net t') = bootstrapped (net t).
Proof.
  assert (∀ f, (∀ n n', f n = Done n' → same_flag n n') → on_net_o f t = Done t' →
            bootstrapped (net t') = bootstrapped (net t)) as Ho.
  { intros f Hf. unfold on_net_o. rewrite bind_Done.
    intros (n & H%Hf & [= <-]). exact H. }
  assert (∀ f, (∀ n, same_flag n (f n)) → on_net f t = Done t' →
            bootstrapped (net t') = bootstrapped (net t)) as Hn.
  { intros f Hf [= <-]. apply Hf. }
  destruct c; cbn [handle_command]; try (by intros [= <-]); try (by apply Hn);
    try (apply Hn; intros n; by apply dht_flag).
  - intros [= <-]. unfold handle_listen_on, new_event_stream.
    destruct (unbounded _). destruct (swarm_listen_on _ _) as [[?|?] ?]; done.
  - apply Ho. intros n n'. apply add_address_flag.
  - apply Hn. intros n. unfold net_remove_address. by case_match.
  - apply Ho. intros n n'. rewrite bind_Done. intros (n1 & H1 & [= <-]).
    trans n1.
    { eapply fold_flag; [|exact H1]. intros n0 [p a] n2. unfold bootstrap_peer.
      rewrite bind_Done. intros (n3 & H3%add_address_flag & [= <-]). etrans; [exact H3|done]. }
    unfold net_bootstrap. repeat (case_match; try done).
    etrans; [|apply insert_query_flag]. done.
  - apply Hn. intros n. unfold unprovide. by case_match.
  - apply Hn. intros n. unfold remove_record. by case_match.
  - apply Hn. intros n. unfold reply_with, subscribe.
    destruct (unbounded _) as [rx c]. by repeat (case_match; simplify_eq/=).
  - apply Hn. intros n. unfold reply_with, publish. by repeat (case_match; simplify_eq/=).
  - apply Hn. intros n. unfold reply_with, net_broadcast.
    by repeat (case_match; simplify_eq/=).
  - apply Ho. intros n n'. rewrite bind_Done. intros ([[rx id] n2] & H & [= <-]).
    unfold net_get in H. rewrite bind_Done in H. destruct H as (b & _ & H).
    cbn [oneshot_channel] in H. destruct (bitswap_get _ _ b). simplify_eq.
    etrans; [|apply (insert_query_flag _ _ _)]. done.
  - apply Ho. intros n n'. rewrite bind_Done. intros ([[rx id] n2] & H & [= <-]).
    unfold net_sync in H. rewrite bind_Done in H. destruct H as (b & _ & H).
    destruct (unbounded _) as [tx' c]. destruct (bitswap_sync _ _ _ b). simplify_eq.
    etrans; [|apply (insert_query_flag _ _ _)]. done.
  - apply Hn. intros n. unfold new_event_stream. by destruct (unbounded _).
  - apply Ho. intros n n'. unfold cancel.
    assert (same_flag n (match queries n !! id with
                  | Some ch => drop_channel ch (set_queries (delete id) n) | None => n end)) as Hd.
    { case_match; [|done]. unfold drop_channel. by case_match. }
    destruct id; [|by intros [= <-]]. rewrite bind_Done. by intros (b & _ & [= <-]).
Qed.
End bootstrapping.

(** The node counts as bootstrapped exactly after the first completed bootstrap:
    after any run of the swarm task the flag is what it was, or true if some input of
    the run reported a bootstrap query with no remaining peers; no command and no
    other event touches it. *)
Theorem bootstrapped_iff `{L : Libp2p, I : Ipld, N : !Protocols, CE : !Channels Event,
    CG : !Channels GossipEvent, CS : !Channels SyncEvent, CL : !Channels ListenerEvent,
    W : !SwarmOps, F : !Fmt, E : Environment, O : HashOrder, P : Profile} xs (t t' : Task) :
  poll_swarm xs t = Done (Some t') →
  bootstrapped (net t') = bootstrapped (net t) || existsb bootstrap_done xs.
Proof.
  revert t. induction xs as [|x xs IH]; intros t; cbn [poll_swarm].
  { intros [= <-]. by rewrite orb_false_r. }
  rewrite bind_Done. intros ([t1|] & Hx & Hr); [|done]. apply IH in Hr. rewrite Hr. clear IH Hr.
  destruct x as [[e|]|[c|]]; cbn [poll_swarm_step] in Hx; try done.
  - destruct (handle_swarm_event e t) as [t1'|] eqn:He; cbn in Hx; simplify_eq.
    apply swarm_event_flag in He as ->. cbn [existsb]. by rewrite orb_assoc.
  - destruct (handle_command c t) as [t1'|] eqn:He; cbn in Hx; simplify_eq.
    by apply command_flag in He as ->.
Qed.

Lemma bootstrapped_iff_witness :
  bootstrapped (net (force_task (poll_swarm inputs0 task0))) = true.
Proof.
  etrans; [apply (bootstrapped_iff inputs0 task0), force_task_Done; by vm_compute|].
  by vm_compute.
Defined.
