(* ===== verification/Config.v ===== *)
(** * Configuration: [src/net/config.rs], [NetworkBackendBehaviour::new], the CLI

    The network configuration, what the behaviour makes of it, and the configuration
    the command line tool builds in [cli/src/main.rs]. *)

From S2P Require Import Prelude Libp2p Duration PeerInfo AddressHandler Channel Peers PeersReach.
From S2P Require Import Ipld Behaviour Network NetworkService NetToy.

Open Scope Z_scope.

(** Keys and the configuration types of the sub-protocols, with their defaults and
    constructors. *)
Class Setup `{L : Libp2p, I : Ipld, N : !Protocols} := {
  Keypair : Type;
  PublicKey : Type;
  public : Keypair → PublicKey;
  to_peer_id : PublicKey → PeerId;
  SetupError : Type;
  MdnsConfig : Type;
  KadConfig : Type;
  PingConfig : Type;
  GossipsubConfig : Type;
  BroadcastConfig : Type;
  BitswapConfig : Type;
  ResolverConfig : Type;
  ResolverOpts : Type;
  mdns_default : MdnsConfig;
  kad_default : KadConfig;
  gossipsub_default : GossipsubConfig;
  broadcast_default : BroadcastConfig;
  bitswap_default : BitswapConfig;
  (** [Mdns::new], [Kademlia::new] over a [MemoryStore], [Gossipsub::new],
      [Broadcast::new], [Bitswap::new] on the block store. *)
  mdns_new : MdnsConfig → result () SetupError;
  kad_new : PeerId → KadConfig → Kad;
  gossipsub_new : Keypair → GossipsubConfig → result Gossipsub SetupError;
  broadcast_new : BroadcastConfig → Broadcast;
  bitswap_new : BitswapConfig → Bitswap;
}.

Section config.
Context `{L : Libp2p, I : Ipld, N : !Protocols, S : !Setup}.

(** [identify::Config], the fields the sources set. *)
Record IdentifyConfig : Type := MkIdentifyConfig {
  ic_protocol_version : string;
  ic_local_public_key : PublicKey;
  ic_agent_version : string;
}.

(** [DnsConfig]. *)
Inductive DnsConfig : Type :=
| Custom (config : ResolverConfig) (opts : ResolverOpts)
| SystemWithFallback (config : ResolverConfig) (opts : ResolverOpts).

(** [NetworkConfig]. *)
Record NetworkConfig : Type := MkNetworkConfig {
  nc_enable_loopback : bool;
  nc_port_reuse : bool;
  nc_node_name : string;
  nc_node_key : Keypair;
  nc_psk : option Bytes;
  nc_dns : option DnsConfig;
  nc_mdns : option MdnsConfig;
  nc_kad : option KadConfig;
  nc_ping : option PingConfig;
  nc_identify : option IdentifyConfig;
  nc_gossipsub : option GossipsubConfig;
  nc_broadcast : option BroadcastConfig;
  nc_bitswap : option BitswapConfig;
  nc_keep_alive : bool;
}.

(** [NetworkConfig::new]; [name] is drawn by the name generator, [agent] is the
    default agent version of [identify::Config::new]. *)
Definition NetworkConfig_new (name agent : string) (node_key : Keypair) : NetworkConfig :=
  MkNetworkConfig true true name node_key None None (Some mdns_default) (Some kad_default)
    None (Some (MkIdentifyConfig "/ipfs-embed/1.0" (public node_key) agent))
    (Some gossipsub_default) (Some broadcast_default) (Some bitswap_default) false.

(** [NetworkBackendBehaviour::new], the identify protocol. *)
Definition identify_new (config : NetworkConfig) : option IdentifyConfig :=
  c ← nc_identify config;
  Some (MkIdentifyConfig (ic_protocol_version c) (public (nc_node_key config))
          (nc_node_name config)).

(** What [NetworkBackendBehaviour::new] builds: the address book with fresh shared
    tables, and the enabled sub-protocols. *)
Record Behaviours `{CE : !Channels Event} : Type := MkBehaviours {
  bh_peers : AddressBook;
  bh_mdns : bool;
  bh_kad : option Kad;
  bh_ping : option PingConfig;
  bh_identify : option IdentifyConfig;
  bh_bitswap : option Bitswap;
  bh_gossipsub : option Gossipsub;
  bh_broadcast : option Broadcast;
}.

(** [NetworkBackendBehaviour::new]. *)
Definition Behaviour_new `{CE : !Channels Event} (config : NetworkConfig)
    : result Behaviours SetupError :=
  let peer_id := to_peer_id (public (nc_node_key config)) in
  try mdns := match nc_mdns config with
              | Some c => try _ := mdns_new c in Ok true
              | None => Ok false
              end in
  let kad := kad_new peer_id <$> nc_kad config in
  try gossipsub := match nc_gossipsub config with
                   | Some c => try g := gossipsub_new (nc_node_key config) c in Ok (Some g)
                   | None => Ok None
                   end in
  Ok (MkBehaviours CE
        (AddressBook_new peer_id (nc_port_reuse config) (nc_enable_loopback config)
           (nc_keep_alive config) ∅ ∅ [])
        mdns kad (nc_ping config) (identify_new config) (bitswap_new <$> nc_bitswap config)
        gossipsub (broadcast_new <$> nc_broadcast config)).
End config.

(** ** The command line tool *)
Section cli.
Context `{L : Libp2p, I : Ipld, N : !Protocols, S : !Setup}.

(** [Config] of [cli/src/lib.rs]; addresses are their texts. *)
Record CliConfig : Type := MkCliConfig {
  cc_path : option string;
  cc_node_name : option string;
  cc_keypair : Z;
  cc_enable_mdns : bool;
  cc_listen_on : list Multiaddr;
  cc_bootstrap : list Multiaddr;
  cc_external : list Multiaddr;
  cc_disable_port_reuse : bool;
}.

(** [Config::new]; [any] is the parsed address [/ip4/0.0.0.0/tcp/30000]. *)
Definition CliConfig_new (any : Multiaddr) (keypair : Z) : CliConfig :=
  MkCliConfig None None keypair false [any] [] [] false.

(** [From<Config> for async_process::Command]: the arguments; [render] is
    [u64::to_string], [show] is [Multiaddr::to_string]. *)
Definition CliConfig_args (render : Z → string) (show : Multiaddr → string) (c : CliConfig)
    : list string :=
  match cc_path c with Some p => ["--path"; p] | None => [] end ++
  match cc_node_name c with Some n => ["--node-name"; n] | None => [] end ++
  ["--keypair"; render (cc_keypair c)] ++
  (cc_listen_on c ≫= λ a, ["--listen-on"; show a]) ++
  (cc_bootstrap c ≫= λ a, ["--bootstrap"; show a]) ++
  (cc_external c ≫= λ a, ["--external"; show a]) ++
  (if cc_enable_mdns c then ["--enable-mdns"] else []) ++
  (if cc_disable_port_reuse c then ["--disable-port-reuse"] else []).

(** The secret key of [keypair(i)]: the big-endian bytes of [i], padded. *)
Definition to_be_bytes (i : Z) : Bytes :=
  (λ k : nat, (i / 2 ^ (8 * (7 - Z.of_nat k))) `mod` 256) <$> seq 0 8.
Definition secret_of (i : Z) : Bytes := to_be_bytes i ++ repeat 0 24.

(** The network configuration of [run] in [cli/src/main.rs]: [default] is
    [NetworkConfig::default()], [key] is [keypair(config.keypair)]; panics if the
    default has no identify configuration. *)
Definition cli_network (render : Z → string) (key : Keypair) (default : NetworkConfig)
    (c : CliConfig) : outcome NetworkConfig :=
  let node_name := match cc_node_name c with
                   | Some n => n
                   | None => "node" +:+ render (cc_keypair c)
                   end in
  id ← unwrap (nc_identify default);
  Done (MkNetworkConfig (nc_enable_loopback default) (negb (cc_disable_port_reuse c))
          (nc_node_name default) key (nc_psk default) (nc_dns default)
          (if cc_enable_mdns c then Some mdns_default else None) None (nc_ping default)
          (Some (MkIdentifyConfig (ic_protocol_version id) (ic_local_public_key id) node_name))
          (nc_gossipsub default) (nc_broadcast default) (nc_bitswap default)
          (nc_keep_alive default)).
End cli.

(** Quotients agree when the next coarser quotients and the bytes between agree. *)
Lemma next_byte i j c :
  0 < c → i / (c * 256) = j / (c * 256) → (i / c) `mod` 256 = (j / c) `mod` 256 →
  i / c = j / c.
Proof.
  intros Hc Hq Hm. rewrite <- !Z.div_div in Hq by lia.
  rewrite (Z.div_mod (i / c) 256), (Z.div_mod (j / c) 256) by lia. congruence.
Qed.

Lemma to_be_bytes_inj i j :
  0 ≤ i < 2 ^ 64 → 0 ≤ j < 2 ^ 64 → to_be_bytes i = to_be_bytes j → i = j.
Proof.
  intros Hi Hj H. unfold to_be_bytes in H. cbn [seq fmap list_fmap] in H.
  injection H as H0 H1 H2 H3 H4 H5 H6 H7.
  assert (i / 2 ^ 64 = j / 2 ^ 64) as H8 by (by rewrite !Z.div_small).
  apply (next_byte i j (2 ^ 56)) in H0; [|done..].
  apply (next_byte i j (2 ^ 48)) in H1; [|done..].
  apply (next_byte i j (2 ^ 40)) in H2; [|done..].
  apply (next_byte i j (2 ^ 32)) in H3; [|done..].
  apply (next_byte i j (2 ^ 24)) in H4; [|done..].
  apply (next_byte i j (2 ^ 16)) in H5; [|done..].
  apply (next_byte i j (2 ^ 8)) in H6; [|done..].
  apply (next_byte i j (2 ^ 0)) in H7; [|done..].
  by rewrite Z.pow_0_r, !Z.div_1_r in H7.
Qed.

(** The node name given on the command line never reaches the network: the agent
    version the node announces is the generated name of the default configuration,
    whatever [--node-name] says, because the behaviour overwrites the agent version
    that [run] sets.  Everything else is as asked for: mDNS and port reuse follow
    their flags, and the DHT is off. *)
Theorem node_name_ignored `{L : Libp2p, I : Ipld, N : !Protocols, S : !Setup,
    CE : !Channels Event} render key default c net bh :
  cli_network render key default c = Done net → Behaviour_new net = Ok bh →
  (∀ ic, bh_identify bh = Some ic → ic_agent_version ic = nc_node_name default) ∧
  is_Some (bh_identify bh) ∧
  bh_mdns bh = cc_enable_mdns c ∧ bh_kad bh = None ∧
  port_reuse (bh_peers bh) = negb (cc_disable_port_reuse c) ∧
  local_peer_id (bh_peers bh) = to_peer_id (public key).
Proof.
  unfold cli_network. rewrite bind_Done. intros (id & _ & [= <-]).
  unfold Behaviour_new. cbn. destruct (cc_enable_mdns c); cbn.
  - destruct (mdns_new mdns_default); cbn; [|done].
    destruct (nc_gossipsub default) as [g|]; cbn; [destruct (gossipsub_new key g); cbn; [|done]|];
      intros [= <-]; cbn; split_and!; naive_solver.
  - destruct (nc_gossipsub default) as [g|]; cbn; [destruct (gossipsub_new key g); cbn; [|done]|];
      intros [= <-]; cbn; split_and!; naive_solver.
Qed.

(** Keys are numbers and name their peer; every sub-protocol starts. *)
#[export] Instance toy_setup : Setup (N := toy_protocols) := {|
  Keypair := nat;
  PublicKey := nat;
  public := λ k, k;
  to_peer_id := λ k, if bool_decide (k = 0%nat) then peer_a else peer_b;
  SetupError := string;
  MdnsConfig := ();
  KadConfig := ();
  PingConfig := ();
  GossipsubConfig := ();
  BroadcastConfig := ();
  BitswapConfig := ();
  ResolverConfig := string;
  ResolverOpts := ();
  mdns_default := ();
  kad_default := ();
  gossipsub_default := ();
  broadcast_default := ();
  bitswap_default := ();
  mdns_new := λ _, Ok ();
  kad_new := λ _ _, 0%nat;
  gossipsub_new := λ _ _, Ok ∅;
  broadcast_new := λ _, [];
  bitswap_new := λ _, 0%nat;
|}.

Definition key0 : Keypair (Setup := toy_setup) := 0%nat.
Definition key1 : Keypair (Setup := toy_setup) := 1%nat.

(** The network of [ipfs-cli --node-name alice --keypair 1 --enable-mdns]. *)
Definition cli_alice : CliConfig (L := toy) :=
  MkCliConfig None (Some "alice") 1 true [] [] [] false.

Definition net_alice : NetworkConfig (S := toy_setup) :=
  match cli_network (λ _, "1") key1
          (NetworkConfig_new "generated" "rust-libp2p" key0) cli_alice with
  | Done n => n
  | Panicked => NetworkConfig_new "" "" key0
  end.

Lemma node_name_ignored_witness :
  ∃ bh ic, Behaviour_new (CE := queues Event) net_alice = Ok bh ∧ bh_identify bh = Some ic ∧
    ic_agent_version ic = "generated".
Proof.
  destruct (Behaviour_new (CE := queues Event) net_alice) as [bh|] eqn:E; [|done].
  destruct (node_name_ignored (S := toy_setup) (CE := queues Event) (λ _, "1") key1
    (NetworkConfig_new "generated" "rust-libp2p" key0) cli_alice net_alice bh
    eq_refl E) as (Hn & [ic Hic] & _).
  exists bh, ic. split_and!; [done..|]. exact (Hn ic Hic).
Defined.
