(* ===== verification/NetworkLive.v ===== *)
(** * Queries are answered

    A query that was accepted stays registered, whatever else the node does, until the
    sub-protocol reports its end or somebody cancels it, and its end is reported to the
    one who asked ([src/net/mod.rs], [src/net/behaviour.rs]).  The sub-protocols number
    their queries; that they never issue a number twice is the interface [QueryIds]. *)

From S2P Require Import Prelude Libp2p Duration PeerInfo AddressHandler Channel Peers PeersReach.
From S2P Require Import Ipld Utf8 Behaviour Network NetworkService NetToy.

Open Scope Z_scope.

(** ** Query ids are unique *)
Class QueryIds `{L : Libp2p, I : Ipld, N : !Protocols} := {
  kad_issued : Kad → KadQueryId → Prop;
  bitswap_issued : Bitswap → BitswapQueryId → Prop;
  kad_add_issued p a k id : kad_issued k id → kad_issued (kad_add_address p a k) id;
  kad_remove_issued p a k id : kad_issued k id → kad_issued (kad_remove_address p a k) id;
  kad_stop_issued key k id : kad_issued k id → kad_issued (kad_stop_providing key k) id;
  kad_remove_record_issued key k id : kad_issued k id → kad_issued (kad_remove_record key k) id;
  kad_bootstrap_issued k id : kad_issued k id →
    kad_issued (kad_bootstrap k).2 id ∧ (kad_bootstrap k).1 ≠ Ok id;
  kad_providing_issued key k id : kad_issued k id →
    kad_issued (kad_start_providing key k).2 id ∧ (kad_start_providing key k).1 ≠ Ok id;
  kad_providers_issued key k id : kad_issued k id →
    kad_issued (kad_get_providers key k).2 id ∧ (kad_get_providers key k).1 ≠ id;
  kad_get_issued key q k id : kad_issued k id →
    kad_issued (kad_get_record key q k).2 id ∧ (kad_get_record key q k).1 ≠ id;
  kad_put_issued r q k id : kad_issued k id →
    kad_issued (kad_put_record r q k).2 id ∧ (kad_put_record r q k).1 ≠ Ok id;
  bitswap_get_issued c ps b id : bitswap_issued b id →
    bitswap_issued (bitswap_get c ps b).2 id ∧ (bitswap_get c ps b).1 ≠ id;
  bitswap_get_new c ps b : bitswap_issued (bitswap_get c ps b).2 (bitswap_get c ps b).1;
  bitswap_sync_issued c ps ms b id : bitswap_issued b id →
    bitswap_issued (bitswap_sync c ps ms b).2 id ∧ (bitswap_sync c ps ms b).1 ≠ id;
  bitswap_sync_new c ps ms b : bitswap_issued (bitswap_sync c ps ms b).2 (bitswap_sync c ps ms b).1;
  bitswap_cancel_issued i b id : bitswap_issued b id → bitswap_issued (bitswap_cancel i b) id;
}.

Section live.
Context `{L : Libp2p, I : Ipld, N : !Protocols, Q : !QueryIds, CE : !Channels Event,
          CG : !Channels GossipEvent, CS : !Channels SyncEvent,
          CL : !Channels ListenerEvent, W : !SwarmOps,
          F : !Fmt, E : Environment, O : HashOrder, P : Profile}.
Implicit Types (n : Net) (t : Task) (q : QueryId).

(** The id was issued by the sub-protocol. *)
Definition issued n q : Prop :=
  match q with
  | QKad id => ∃ k, kad n = Some k ∧ kad_issued k id
  | QBitswap id => ∃ b, bitswap n = Some b ∧ bitswap_issued b id
  end.

(** What is registered for an issued id does not change. *)
Definition kept q n n' : Prop :=
  issued n q → issued n' q ∧ queries n' !! q = queries n !! q.

#[local] Instance kept_preorder q : PreOrder (kept q).
Proof.
  split; [by split|]. intros n1 n2 n3 H1 H2 Hi. destruct (H1 Hi) as [Hi2 E1].
  destruct (H2 Hi2) as [Hi3 E2]. split; [done | congruence].
Qed.

(** Operations that concern neither the table nor the sub-protocols with queries. *)
Definition same_ids n n' : Prop :=
  queries n' = queries n ∧ kad n' = kad n ∧ bitswap n' = bitswap n.

#[local] Instance same_ids_preorder : PreOrder same_ids.
Proof. split; [by repeat split|]. intros ??? (?&?&?) (?&?&?). repeat split; congruence. Qed.

Lemma same_kept q n n' : same_ids n n' → kept q n n'.
Proof. intros (Hq & Hk & Hb) Hi. rewrite Hq. split; [|done]. destruct q; cbn in *; by rewrite ?Hk, ?Hb. Qed.

Lemma set_kad_kept q n k k' :
  kad n = Some k → (∀ id, kad_issued k id → kad_issued k' id) → kept q n (set_kad (Some k') n).
Proof.
  intros Hk Hm Hi. split; [|done]. destruct q as [id|id]; cbn in *; [done|].
  destruct Hi as (k0 & Hk0 & Hi). simplify_eq. eauto.
Qed.

Lemma set_bitswap_kept q n b b' :
  bitswap n = Some b → (∀ id, bitswap_issued b id → bitswap_issued b' id) →
  kept q n (set_bitswap (Some b') n).
Proof.
  intros Hb Hm Hi. split; [|done]. destruct q as [id|id]; cbn in *; [|done].
  destruct Hi as (b0 & Hb0 & Hi). simplify_eq. eauto.
Qed.

Lemma log_kept q a n : kept q n (log a n).
Proof. by apply same_kept. Qed.
Lemma drop_channel_same ch n : same_ids n (drop_channel ch n).
Proof. by destruct ch. Qed.

Lemma insert_query_kept q q' ch n : q' ≠ q → kept q n (insert_query q' ch n).
Proof.
  intros Hne. transitivity (set_queries <[q' := ch]> n).
  - intros Hi. split; [by destruct q|]. cbn. by rewrite lookup_insert_ne.
  - unfold insert_query. apply same_kept. case_match; [apply drop_channel_same | done].
Qed.

Lemma delete_query_kept q q' n : q' ≠ q → kept q n (set_queries (delete q') n).
Proof. intros Hne Hi. split; [by destruct q|]. cbn. by rewrite lookup_delete_ne. Qed.

Lemma finish_kept q q' want r n : q' ≠ q → kept q n (finish q' want r n).
Proof.
  intros Hne. unfold finish. destruct (queries n !! q') as [ch|]; [|done].
  etrans; [by apply (delete_query_kept q q')|]. apply same_kept.
  case_match; [done | apply drop_channel_same].
Qed.

Lemma on_book_same f n n' : on_book f n = Done n' → same_ids n n'.
Proof. unfold on_book. rewrite bind_Done. by intros (s & _ & [= <-]). Qed.

Lemma add_address_kept q p a src n n' : net_add_address p a src n = Done n' → kept q n n'.
Proof.
  unfold net_add_address. intros Hn%on_book_same. etrans; [|by apply same_kept, Hn].
  destruct (kad n) as [k|] eqn:Hk; [|done]. apply (set_kad_kept _ _ k); [done|].
  intros id. apply kad_add_issued.
Qed.

Lemma fold_kept {A} q (f : Net → A → outcome Net) l n n' :
  (∀ n x n', f n x = Done n' → kept q n n') → foldM f l n = Done n' → kept q n n'.
Proof.
  intros Hf. revert n. induction l as [|x l IH]; intros n; cbn; [by intros [= <-]|].
  rewrite bind_Done. intros (n1 & H1%Hf & H2%IH). by etrans.
Qed.

Lemma notify_subscribers_same topic e n : same_ids n (notify_subscribers topic e n).
Proof.
  unfold notify_subscribers, unsubscribe. destruct (subscriptions n !! topic); [|done].
  destruct (send_retain _ _ _) as [txs c]. by repeat case_match.
Qed.

(** ** The inputs that end a query

    A bootstrap reports its progress as completed queries with buckets remaining; what is
    republished was not asked for by a client. *)
Definition final (r : QueryResult) : bool :=
  match r with
  | QrBootstrap (Ok num_remaining) => bool_decide (num_remaining = 0)
  | QrRepublishProvider _ | QrRepublishRecord _ => false
  | _ => true
  end.

Definition ends q (x : input) : bool :=
  match x with
  | InSwarm (Some (SwBehaviour (EvKad (OutboundQueryCompleted id r)))) =>
      bool_decide (q = QKad id) && final r
  | InSwarm (Some (SwBehaviour (EvBitswap (BsComplete id _)))) => bool_decide (q = QBitswap id)
  | InCommand (Some (CancelQuery id)) => bool_decide (q = id)
  | _ => false
  end.

Lemma kad_event_kept q e n :
  ends q (InSwarm (Some (SwBehaviour (EvKad e)))) = false → kept q n (inject_kad_event e n).
Proof.
  destruct e as [id r|]; [|done]. cbn [ends]. intros He.
  assert (final r = true → QKad id ≠ q) as Hne.
  { intros Hf <-. rewrite Hf, andb_true_r in He. by bsimp. }
  destruct r as [[x|x]|[x|x]|[x|x]|[x|x]|[x|x]|[x|x]|[x|x]|[x|x]]; cbn [inject_kad_event];
    try done; try (by apply finish_kept, Hne).
  destruct (bool_decide (x = 0)) eqn:Hr; [|done]. specialize (Hne Hr).
  etrans; [|by apply same_kept]. etrans; [|by apply finish_kept].
  by apply same_kept.
Qed.

Lemma bitswap_event_kept q e n :
  ends q (InSwarm (Some (SwBehaviour (EvBitswap e)))) = false → kept q n (inject_bitswap_event e n).
Proof.
  destruct e as [id m|id r]; cbn [ends inject_bitswap_event].
  - intros _. apply same_kept. by repeat case_match.
  - intros Hne%bool_decide_eq_false. destruct (queries n !! QBitswap id) as [ch|]; [|done].
    etrans; [apply (delete_query_kept q (QBitswap id)); auto|].
    destruct ch; by apply same_kept.
Qed.

Lemma swarm_event_kept q e t t' :
  ends q (InSwarm (Some e)) = false → handle_swarm_event e t = Done t' →
  kept q (net t) (net t').
Proof.
  intros He. assert (∀ f, (∀ n n', f n = Done n' → kept q n n') → on_net_o f t = Done t' →
    kept q (net t) (net t')) as Ho.
  { intros f Hf. unfold on_net_o. rewrite bind_Done. intros (n & H%Hf & [= <-]). exact H. }
  assert (∀ f, (∀ n, kept q n (f n)) → on_net f t = Done t' → kept q (net t) (net t')) as Hn.
  { intros f Hf [= <-]. apply Hf. }
  destruct e as [p cp num cause|[e|e|p r|e|e|e|e]|]; cbn [handle_swarm_event].
  - apply Hn. intros n. by apply same_kept.
  - apply Hn. intros n. by apply kad_event_kept.
  - apply Ho. intros n n' H. destruct e as [found|]; cbn in H; [|by simplify_eq].
    eapply fold_kept; [|exact H]. intros n0 [p a] n1. apply add_address_kept.
  - apply Ho. intros n n' H. apply same_kept.
    destruct r; cbn in H; simplify_eq; by eauto using on_book_same.
  - apply Ho. intros n n' H. apply same_kept.
    destruct e; cbn in H; simplify_eq; by eauto using on_book_same.
  - apply Hn. intros n. by apply bitswap_event_kept.
  - apply Hn. intros n. apply same_kept. destruct e; cbn; try done;
      (etrans; [|apply notify_subscribers_same]; by repeat split).
  - apply Ho. intros n n' H. apply same_kept. destruct e; cbn in H; rewrite ?bind_Done in H.
    + destruct H as (? & _ & [= <-]). apply notify_subscribers_same.
    + case_match; simplify_eq; [|done]. etrans; [|apply notify_subscribers_same]. by repeat split.
    + case_match; simplify_eq; [|done]. etrans; [|apply notify_subscribers_same]. by repeat split.
  - intros [= <-]. done.
Qed.

(** *** Commands *)

(** Registering a query of Kademlia under an id that was not issued before. *)
Lemma kad_query_kept q n k k' id ch :
  kad n = Some k → (∀ i, kad_issued k i → kad_issued k' i ∧ id ≠ i) →
  kept q n (insert_query (QKad id) ch (set_kad (Some k') n)).
Proof.
  intros Hk Hid Hi. assert (kept q n (set_kad (Some k') n)) as Hset.
  { apply (set_kad_kept _ _ k); [done|]. intros i. apply Hid. }
  destruct (Hset Hi) as [Hi' Eq]. rewrite <- Eq. apply insert_query_kept; [|done].
  intros <-. destruct Hi as (k0 & Hk0 & Hi). simplify_eq. by apply Hid in Hi as [_ ?].
Qed.

Lemma bitswap_query_kept q n b b' id ch :
  bitswap n = Some b → (∀ i, bitswap_issued b i → bitswap_issued b' i ∧ id ≠ i) →
  kept q n (insert_query (QBitswap id) ch (set_bitswap (Some b') n)).
Proof.
  intros Hk Hid Hi. assert (kept q n (set_bitswap (Some b') n)) as Hset.
  { apply (set_bitswap_kept _ _ b); [done|]. intros i. apply Hid. }
  destruct (Hset Hi) as [Hi' Eq]. rewrite <- Eq. apply insert_query_kept; [|done].
  intros <-. destruct Hi as (k0 & Hk0 & Hi). simplify_eq. by apply Hid in Hi as [_ ?].
Qed.

Lemma bootstrap_kept q tx n : kept q n (net_bootstrap tx n).
Proof.
  unfold net_bootstrap. destruct (kad n) as [k|] eqn:Hk; [|by apply same_kept].
  pose proof (kad_bootstrap_issued k) as Hid. destruct (kad_bootstrap k) as [[id|e] k']; cbn in Hid.
  - apply (kad_query_kept q n k); [done|]. intros i Hi%Hid. split; [apply Hi|]. naive_solver.
  - etrans; [apply (set_kad_kept q n k k'); [done|]|by apply same_kept].
    intros i Hi%Hid. apply Hi.
Qed.

Lemma provide_kept q key b tx n : kept q n (provide key b tx n).
Proof.
  unfold provide. destruct b; [|by apply same_kept].
  destruct (kad n) as [k|] eqn:Hk; [|by apply same_kept].
  pose proof (kad_providing_issued key k) as Hid.
  destruct (kad_start_providing key k) as [[id|e] k']; cbn in Hid.
  - apply (kad_query_kept q n k); [done|]. intros i Hi%Hid. split; [apply Hi|]. naive_solver.
  - etrans; [apply (set_kad_kept q n k k'); [done|]|by apply same_kept].
    intros i Hi%Hid. apply Hi.
Qed.

Lemma put_record_kept q r quorum b tx n : kept q n (put_record r quorum b tx n).
Proof.
  unfold put_record. destruct b; [|by apply same_kept].
  destruct (kad n) as [k|] eqn:Hk; [|by apply same_kept].
  pose proof (kad_put_issued r quorum k) as Hid.
  destruct (kad_put_record r quorum k) as [[id|e] k']; cbn in Hid.
  - apply (kad_query_kept q n k); [done|]. intros i Hi%Hid. split; [apply Hi|]. naive_solver.
  - etrans; [apply (set_kad_kept q n k k'); [done|]|by apply same_kept].
    intros i Hi%Hid. apply Hi.
Qed.

Lemma providers_kept q key b tx n : kept q n (providers key b tx n).
Proof.
  unfold providers. destruct b; [|by apply same_kept].
  destruct (kad n) as [k|] eqn:Hk; [|by apply same_kept].
  pose proof (kad_providers_issued key k) as Hid.
  destruct (kad_get_providers key k) as [id k']; cbn in Hid. by apply (kad_query_kept q n k).
Qed.

Lemma get_record_kept q key quorum b tx n : kept q n (get_record key quorum b tx n).
Proof.
  unfold get_record. destruct b; [|by apply same_kept].
  destruct (kad n) as [k|] eqn:Hk; [|by apply same_kept].
  pose proof (kad_get_issued key quorum k) as Hid.
  destruct (kad_get_record key quorum k) as [id k']; cbn in Hid. by apply (kad_query_kept q n k).
Qed.

Lemma net_get_kept q cid provs n rx id n' :
  net_get cid provs n = Done (rx, id, n') → kept q n n'.
Proof.
  unfold net_get. rewrite bind_Done. intros (b & Hb & H). cbn [oneshot_channel] in H.
  pose proof (bitswap_get_issued cid provs b) as Hid.
  destruct (bitswap_get cid provs b) as [i b']. injection H as <- <- <-.
  etrans; [|apply (bitswap_query_kept q _ b); [|exact Hid]]; [by apply same_kept|].
  cbn. by destruct (bitswap n); simplify_eq/=.
Qed.

Lemma net_sync_kept q cid provs missing n rx id n' :
  net_sync cid provs missing n = Done (rx, id, n') → kept q n n'.
Proof.
  unfold net_sync. rewrite bind_Done. intros (b & Hb & H). destruct (unbounded _) as [tx c].
  pose proof (bitswap_sync_issued cid provs missing b) as Hid.
  destruct (bitswap_sync cid provs missing b) as [i b']. injection H as <- <- <-.
  etrans; [|apply (bitswap_query_kept q _ b); [|exact Hid]]; [by apply same_kept|].
  cbn. by destruct (bitswap n); simplify_eq/=.
Qed.

Lemma cancel_kept q id n n' : id ≠ q → cancel id n = Done n' → kept q n n'.
Proof.
  intros Hne. unfold cancel.
  set (n1 := match queries n !! id with Some ch => _ | None => n end).
  assert (kept q n n1) as Hd.
  { unfold n1. destruct (queries n !! id) as [ch|]; [|done].
    etrans; [by apply (delete_query_kept q id)|]. apply same_kept, drop_channel_same. }
  destruct id as [i|i]; [|by intros [= <-]]. rewrite bind_Done. intros (b & Hb & [= <-]).
  etrans; [exact Hd|]. apply (set_bitswap_kept _ _ b).
  - by destruct (bitswap n1); simplify_eq/=.
  - intros i'. apply bitswap_cancel_issued.
Qed.

Lemma listen_on_same addr r t : same_ids (net t) (net (handle_listen_on addr r t)).
Proof.
  unfold handle_listen_on, new_event_stream. destruct (unbounded _).
  by destruct (swarm_listen_on _ _) as [[?|?] ?].
Qed.

Lemma command_kept q c t t' :
  ends q (InCommand (Some c)) = false → handle_command c t = Done t' → kept q (net t) (net t').
Proof.
  intros He. assert (∀ f, (∀ n n', f n = Done n' → kept q n n') → on_net_o f t = Done t' →
    kept q (net t) (net t')) as Ho.
  { intros f Hf. unfold on_net_o. rewrite bind_Done. intros (n & H%Hf & [= <-]). exact H. }
  assert (∀ f, (∀ n, kept q n (f n)) → on_net f t = Done t' → kept q (net t) (net t')) as Hn.
  { intros f Hf [= <-]. apply Hf. }
  destruct c; cbn [handle_command]; try (by intros [= <-]);
    try (by apply Hn; intros n; apply same_kept);
    try (by apply Hn; intros n; auto using providers_kept, provide_kept, get_record_kept,
         put_record_kept).
  - intros [= <-]. apply same_kept, listen_on_same.
  - apply Ho. intros n n'. apply add_address_kept.
  - apply Hn. intros n. unfold net_remove_address. cbn. destruct (kad n) as [k|] eqn:Hk;
      [|by apply same_kept]. etrans; [|apply (set_kad_kept _ _ k); [done|]].
    + by apply same_kept.
    + intros id. apply kad_remove_issued.
  - apply Ho. intros n n'. rewrite bind_Done. intros (n1 & H1 & [= <-]).
    etrans; [|apply bootstrap_kept]. eapply fold_kept; [|exact H1].
    intros n0 [p a] n2. unfold bootstrap_peer. rewrite bind_Done.
    intros (n3 & H3%(add_address_kept q) & [= <-]). etrans; [exact H3|]. by apply same_kept.
  - apply Hn. intros n. unfold unprovide. destruct (kad n) as [k|] eqn:Hk; [|done].
    apply (set_kad_kept _ _ k); [done|]. intros id. apply kad_stop_issued.
  - apply Hn. intros n. unfold remove_record. destruct (kad n) as [k|] eqn:Hk; [|done].
    apply (set_kad_kept _ _ k); [done|]. intros id. apply kad_remove_record_issued.
  - apply Hn. intros n. apply same_kept. unfold reply_with, subscribe.
    destruct (unbounded _) as [rx c]. by repeat (case_match; simplify_eq/=).
  - apply Hn. intros n. apply same_kept. unfold reply_with, publish.
    by repeat (case_match; simplify_eq/=).
  - apply Hn. intros n. apply same_kept. unfold reply_with, net_broadcast.
    by repeat (case_match; simplify_eq/=).
  - apply Ho. intros n n'. rewrite bind_Done. intros ([[rx id] n2] & H & [= <-]).
    etrans; [by eapply net_get_kept|]. by apply same_kept.
  - apply Ho. intros n n'. rewrite bind_Done. intros ([[rx id] n2] & H & [= <-]).
    etrans; [by eapply net_sync_kept|]. by apply same_kept.
  - apply Hn. intros n. apply same_kept. unfold new_event_stream. by destruct (unbounded _).
  - apply Ho. intros n n'. apply cancel_kept. cbn in He.
    intros <-. by rewrite bool_decide_true in He.
Qed.

(** ** Runs during which a query does not end

    The task takes an input that does not end the query, or the swarm makes progress:
    anything but the query table may change, ids stay issued. *)
Inductive live_step q : Task → Task → Prop :=
| live_input x t t' :
    ends q x = false → poll_swarm_step x t = Done (Some t') → live_step q t t'
| live_progress n t :
    queries n = queries (net t) → (issued (net t) q → issued n q) → live_step q t (set_net n t).

Lemma live_step_kept q t t' : live_step q t t' → kept q (net t) (net t').
Proof.
  destruct 1 as [x t t' He Hx|n t Hq Hm].
  - destruct x as [[e|]|[c|]]; cbn [poll_swarm_step] in Hx; try done.
    + destruct (handle_swarm_event e t) as [t1|] eqn:H1; cbn in Hx; simplify_eq.
      by eapply swarm_event_kept.
    + destruct (handle_command c t) as [t1|] eqn:H1; cbn in Hx; simplify_eq.
      by eapply command_kept.
  - intros Hi. cbn. by rewrite Hq; auto.
Qed.

Lemma live_run_kept q t t' : rtc (live_step q) t t' → kept q (net t) (net t').
Proof. induction 1; [done|]. etrans; [by apply live_step_kept|done]. Qed.

(** What the one who asked is told when the query ends: a reply, or the completion of a
    synchronisation on its stream, which ends with it. *)
Inductive verdict : Type :=
| Reply_on (tx : Oneshot) (rep : Reply)
| Complete_on (tx : sender SyncEvent) (r : result () NetError).

Definition told (v : verdict) n n' : Prop :=
  match v with
  | Reply_on tx rep =>
      outbox n' = outbox n ++ [Answered tx rep] ∧ sync_chans n' = sync_chans n
  | Complete_on tx r =>
      outbox n' = outbox n ++ [HungUp tx] ∧
      sync_chans n' = (unbounded_send tx (Complete r) (sync_chans n)).2
  end.

Definition completion q (ch : QueryChannel) (x : input) : option verdict :=
  match x with
  | InSwarm (Some (SwBehaviour (EvBitswap (BsComplete id r)))) =>
      if bool_decide (q = QBitswap id) then
        match ch with
        | ChGet tx => Some (Reply_on tx (RepUnit (bitswap_result r)))
        | ChSync tx => Some (Complete_on tx (bitswap_result r))
        | _ => None
        end
      else None
  | InSwarm (Some (SwBehaviour (EvKad (OutboundQueryCompleted id r)))) =>
      if bool_decide (q = QKad id) then
        match ch, r with
        | ChBootstrap tx, QrBootstrap (Ok 0) => Some (Reply_on tx (RepUnit (Ok ())))
        | ChBootstrap tx, QrBootstrap (Err e) =>
            Some (Reply_on tx (RepUnit (Err (KadBootstrapError e))))
        | ChGetClosestPeers tx, QrGetClosestPeers (Ok l) => Some (Reply_on tx (RepPeers (Ok l)))
        | ChGetClosestPeers tx, QrGetClosestPeers (Err e) =>
            Some (Reply_on tx (RepPeers (Err (KadGetClosestPeersError e))))
        | ChGetProviders tx, QrGetProviders (Ok ps) => Some (Reply_on tx (RepProviders (Ok ps)))
        | ChGetProviders tx, QrGetProviders (Err e) =>
            Some (Reply_on tx (RepProviders (Err (KadGetProvidersError e))))
        | ChStartProviding tx, QrStartProviding (Ok _) => Some (Reply_on tx (RepUnit (Ok ())))
        | ChStartProviding tx, QrStartProviding (Err e) =>
            Some (Reply_on tx (RepUnit (Err (KadAddProviderError e))))
        | ChGetRecord tx, QrGetRecord (Ok rs) => Some (Reply_on tx (RepRecords (Ok rs)))
        | ChGetRecord tx, QrGetRecord (Err e) =>
            Some (Reply_on tx (RepRecords (Err (KadGetRecordError e))))
        | ChPutRecord tx, QrPutRecord (Ok _) => Some (Reply_on tx (RepUnit (Ok ())))
        | ChPutRecord tx, QrPutRecord (Err e) =>
            Some (Reply_on tx (RepUnit (Err (KadPutRecordError e))))
        | _, _ => None
        end
      else None
  | _ => None
  end.

(** Which reports are of the kind the channel waits for. *)
Definition same_kind (ch : QueryChannel) (x : input) : bool :=
  match x with
  | InSwarm (Some (SwBehaviour (EvBitswap (BsComplete _ _)))) =>
      match ch with ChGet _ | ChSync _ => true | _ => false end
  | InSwarm (Some (SwBehaviour (EvKad (OutboundQueryCompleted _ r)))) =>
      match ch, r with
      | ChBootstrap _, QrBootstrap _ | ChGetClosestPeers _, QrGetClosestPeers _
      | ChGetProviders _, QrGetProviders _ | ChStartProviding _, QrStartProviding _
      | ChGetRecord _, QrGetRecord _ | ChPutRecord _, QrPutRecord _ => true
      | _, _ => false
      end
  | _ => false
  end.

Lemma completion_total q ch x :
  ends q x = true → same_kind ch x = true → is_Some (completion q ch x).
Proof.
  destruct x as [[[|[e| | | |e| |]|]|]|]; try done; cbn [ends same_kind completion].
  - destruct e as [id r|]; [|done]. intros [-> Hf]%andb_true_iff Hk.
    destruct ch, r as [[x|x]|[x|x]|[x|x]|[x|x]|[x|x]|[x|x]|[x|x]|[x|x]]; try done; try by eexists.
    cbn in Hf. bsimp. by eexists.
  - destruct e as [|id r]; [done|]. intros -> Hk. destruct ch; done || by eexists.
Qed.

Lemma finish_answers q want r n ch tx :
  queries n !! q = Some ch → want ch = Some tx →
  told (Reply_on tx r) n (finish q want r n) ∧ queries (finish q want r n) !! q = None.
Proof.
  intros Hq Hw. unfold finish. rewrite Hq, Hw. cbn. split; [done|]. apply lookup_delete_eq.
Qed.

Lemma completion_answers q ch x t v :
  queries (net t) !! q = Some ch → completion q ch x = Some v →
  ∃ t', poll_swarm_step x t = Done (Some t') ∧ told v (net t) (net t') ∧
    queries (net t') !! q = None.
Proof.
  intros Hq. destruct x as [[[|[e| | | |e| |]|]|]|]; try done; cbn [completion].
  - destruct e as [id r|]; [|done]. case_bool_decide as Hid; [|done]. subst q.
    intros Hc. eexists. split; [done|]. cbn [set_net net].
    destruct ch, r as [[x|x]|[x|x]|[x|x]|[x|x]|[x|x]|[x|x]|[x|x]|[x|x]]; try done;
      cbn [inject_kad_event]; try (injection Hc as <-; by eapply finish_answers).
    destruct x; try done. injection Hc as <-. rewrite bool_decide_true by done.
    by apply (finish_answers (QKad id) as_bootstrap (RepUnit (Ok ())) (set_bootstrapped true (net t))
      (ChBootstrap tx)).
  - destruct e as [|id r]; [done|]. case_bool_decide as Hid; [|done]. subst q.
    destruct ch; try done; intros [= <-]; eexists; (split; [done|]); cbn; rewrite Hq; cbn;
      (split; [done|]); apply lookup_delete_eq.
Qed.
End live.

(** C14: a query that the network accepted is answered.  As long as its end is not reported
    and it is not cancelled, the query stays registered with its channel, whatever commands
    and events - progress of a bootstrap or of a synchronisation included - the swarm task
    handles meanwhile; and when the sub-protocol then reports its end, with a result of the
    kind that was asked for, the task does not panic, tells the outcome - value or error -
    to the one who asked, on the reply channel, or on the stream of a synchronisation,
    which it closes, and forgets the query.  A bootstrap ends when no bucket remains. *)
Theorem query_answered `{L : Libp2p, I : Ipld, N : !Protocols, Q : !QueryIds,
    CE : !Channels Event, CG : !Channels GossipEvent, CS : !Channels SyncEvent,
    CL : !Channels ListenerEvent, W : !SwarmOps, F : !Fmt, E : Environment, O : HashOrder,
    P : Profile} q ch x (t t' : Task) :
  issued (net t) q → queries (net t) !! q = Some ch → rtc (live_step q) t t' →
  queries (net t') !! q = Some ch ∧
  (ends q x = true → same_kind ch x = true →
   ∃ v t'', completion q ch x = Some v ∧ poll_swarm_step x t' = Done (Some t'') ∧
     told v (net t') (net t'') ∧ queries (net t'') !! q = None).
Proof.
  intros Hi Hq Hrun. apply live_run_kept in Hrun. destruct (Hrun Hi) as [_ Hq'].
  rewrite Hq in Hq'. split; [done|]. intros He Hk. destruct (completion_total q ch x He Hk) as [v Hv].
  destruct (completion_answers q ch x t' v Hq' Hv) as (t'' & H). by exists v, t''.
Qed.

(** C23: fetching a block ends with bitswap's verdict.  A handled [Get] command answers the
    client with the id of a query and a second channel; unless the client cancels it,
    that channel receives the result bitswap reports for the query, however long it takes
    and whatever else the node does, and the future [GetQuery] polling it becomes ready
    with that result. *)
Theorem get_answered `{L : Libp2p, I : Ipld, N : !Protocols, Q : !QueryIds,
    CE : !Channels Event, CG : !Channels GossipEvent, CS : !Channels SyncEvent,
    CL : !Channels ListenerEvent, W : !SwarmOps, F : !Fmt, E : Environment, O : HashOrder,
    P : Profile} cid provs tx (t t1 : Task) :
  poll_swarm_step (InCommand (Some (Get cid provs tx))) t = Done (Some t1) →
  ∃ id rx, last (outbox (net t1)) = Some (Answered tx (RepGetQuery (QBitswap id) rx)) ∧
    ∀ t2 r, rtc (live_step (QBitswap id)) t1 t2 →
      ∃ t3, poll_swarm_step (InSwarm (Some (SwBehaviour (EvBitswap (BsComplete id r))))) t2 =
              Done (Some t3) ∧
        last (outbox (net t3)) = Some (Answered rx (RepUnit (bitswap_result r))) ∧
        GetQuery_poll (OsValue (bitswap_result r)) =
          Ready (match r with Ok u => Ok u | Err e => Err (SvcNet (BitswapFailed e)) end).
Proof.
  cbn [poll_swarm_step handle_command]. unfold on_net_o, net_get.
  destruct (bitswap (net t)) as [b|] eqn:Hb; [|done]. cbn [unwrap mbind outcome_bind oneshot_channel].
  pose proof (bitswap_get_new cid provs b) as Hnew.
  destruct (bitswap_get cid provs b) as [id b']. intros [= <-]. cbn [net set_net].
  exists id, (oneshots (net t)). split; [apply last_snoc|]. intros t2 r Hrun.
  set (n1 := insert_query _ _ _) in *.
  assert (queries n1 !! QBitswap id = Some (ChGet (oneshots (net t)))) as Hq.
  { unfold n1, insert_query, drop_channel. repeat case_match; cbn; apply lookup_insert_eq. }
  assert (issued n1 (QBitswap id)) as Hi.
  { exists b'. split; [|done]. unfold n1, insert_query, drop_channel. by repeat case_match. }
  apply live_run_kept in Hrun. cbn [net] in Hrun. destruct (Hrun Hi) as [_ Hq2]. cbn in Hq2.
  rewrite Hq in Hq2.
  destruct (completion_answers (QBitswap id) (ChGet (oneshots (net t)))
    (InSwarm (Some (SwBehaviour (EvBitswap (BsComplete id r))))) t2
    (Reply_on (oneshots (net t)) (RepUnit (bitswap_result r))) Hq2) as (t3 & H3 & [Ho _] & _).
  { cbn. by rewrite bool_decide_true. }
  exists t3. split_and!; [done| |by destruct r]. rewrite Ho. apply last_snoc.
Qed.

(** Counters never issue a number twice. *)
#[export] Program Instance toy_ids : QueryIds (N := toy_protocols) := {|
  kad_issued := λ (k : nat) (id : nat), (id < k)%nat;
  bitswap_issued := λ (b : nat) (id : nat), (id < b)%nat;
|}.
Next Obligation. done. Qed.
Next Obligation. done. Qed.
Next Obligation. done. Qed.
Next Obligation. done. Qed.
Next Obligation. intros k id H. cbn in *. split; [lia|]. intros [= ->]. lia. Qed.
Next Obligation. intros key k id H. cbn in *. split; [lia|]. intros [= ->]. lia. Qed.
Next Obligation. intros key k id H. cbn in *. split; lia. Qed.
Next Obligation. intros key q k id H. cbn in *. split; lia. Qed.
Next Obligation. intros r q k id H. cbn in *. split; [lia|]. intros [= ->]. lia. Qed.
Next Obligation. intros c ps b id H. cbn in *. split; lia. Qed.
Next Obligation. intros c ps b. cbn. lia. Qed.
Next Obligation. intros c ps ms b id H. cbn in *. split; lia. Qed.
Next Obligation. intros c ps ms b. cbn. lia. Qed.
Next Obligation. done. Qed.

Definition qid0 : QueryId (N := toy_protocols) := QBitswap (0%nat : BitswapQueryId).

(** The block is asked for, then another one, then the first query completes. *)
Lemma get_answered_witness :
  ∃ t1 id rx, poll_swarm_step get_input task0 = Done (Some t1) ∧
    last (outbox (net t1)) = Some (Answered 102%nat (RepGetQuery (QBitswap id) rx)).
Proof.
  destruct (poll_swarm_step get_input task0) as [[t1|]|] eqn:Hs.
  - destruct (get_answered (I := numbered) (N := toy_protocols) 5%N [peer_b] 102%nat task0 t1 Hs) as (id & rx & Hl & _).
    exists t1, id, rx. by split.
  - exfalso. apply (f_equal going) in Hs. by vm_compute in Hs.
  - exfalso. apply (f_equal going) in Hs. by vm_compute in Hs.
Defined.

Definition task1 : Task := force_task (poll_swarm_step get_input task0).

Definition waits_on (o : option QueryChannel) (tx : Oneshot) : bool :=
  match o with Some (ChGet tx') => Nat.eqb tx' tx | _ => false end.

Lemma task1_query tx :
  waits_on (queries (net task1) !! qid0) tx = true → queries (net task1) !! qid0 = Some (ChGet tx).
Proof.
  destruct (queries (net task1) !! qid0) as [[]|]; try done. by intros ->%Nat.eqb_eq.
Qed.

Definition done0 : input :=
  InSwarm (Some (SwBehaviour (EvBitswap (BsComplete (0%nat : BitswapQueryId (Protocols := toy_protocols))
    (Ok ()))))).

Lemma query_answered_witness :
  queries (net task1) !! qid0 = Some (ChGet 0%nat) ∧
  ∃ t2, poll_swarm_step done0 task1 = Done (Some t2) ∧ queries (net t2) !! qid0 = None.
Proof.
  assert (queries (net task1) !! qid0 = Some (ChGet 0%nat)) as Hq
    by (apply task1_query; by vm_compute).
  destruct (query_answered qid0 (ChGet 0%nat) done0 task1 task1) as [_ H].
  - exists (1%nat : Bitswap (Protocols := toy_protocols)). split; [done|]. cbn. lia.
  - exact Hq.
  - done.
  - split; [exact Hq|]. destruct H as (v & t2 & _ & H2 & _ & H3); [done..|]. by exists t2.
Defined.
