(* ===== verification/NetworkSafe.v ===== *)
(** * The swarm task never panics and keeps the address book well formed

    The safety of [poll_swarm] in [src/net/mod.rs], composed from the invariants of
    the address book, and the broadcast messages that do make it panic. *)

From S2P Require Import Prelude Libp2p Duration PeerInfo AddressHandler Channel Peers PeersInv.
From S2P Require Import PeersReach PeersSpec PeersConn Ipld Utf8 Behaviour Network NetworkService.
From S2P Require Import NetToy.

Open Scope Z_scope.

Section safe.
Context `{L : Libp2p, I : Ipld, N : !Protocols, CE : !Channels Event,
          CG : !Channels GossipEvent, CS : !Channels SyncEvent,
          CL : !Channels ListenerEvent, W : !SwarmOps,
          F : !Fmt, E : Environment, O : HashOrder, P : Profile}.
Implicit Types (n : Net) (t : Task) (s : State).

(** What the swarm promises: connections are with others only, and round-trip times are
    [Duration]s. *)
Definition input_typed n (x : input) : Prop :=
  match x with
  | InSwarm (Some (SwConnectionClosed p _ _ _)) => p ≠ local_peer_id (book (peers_st n))
  | InSwarm (Some (SwBehaviour (EvPing p (PingOk d)))) => 0 ≤ d ≤ DURATION_MAX
  | _ => True
  end.

(** The inputs on which the task panics: a ping that overflows the round-trip record of its
    peer, a broadcast message whose topic is no text, a request for bitswap when it is not
    enabled. *)
Definition input_panics n (x : input) : bool :=
  match x with
  | InSwarm (Some (SwBehaviour (EvPing p (PingOk d)))) => rtt_overflows p (Some d) (peers_st n)
  | InSwarm (Some (SwBehaviour (EvPing p (PingTimeout | PingFailed)))) =>
      rtt_overflows p None (peers_st n)
  | InSwarm (Some (SwBehaviour (EvBroadcast (BcReceived _ topic _)))) =>
      negb (utf8_valid (topic_bytes topic))
  | InCommand (Some (Get _ _ _ | Sync _ _ _ _ | CancelQuery (QBitswap _))) =>
      match bitswap n with Some _ => false | None => true end
  | _ => false
  end.

Definition input_ok n x : Prop := input_typed n x ∧ input_panics n x = false.

(** The address book is well formed, for the same local peer, and bitswap is
    enabled if it was. *)
Definition net_safe n n' : Prop :=
  book_wf (peers_st n') ∧
  local_peer_id (book (peers_st n')) = local_peer_id (book (peers_st n)) ∧
  (is_Some (bitswap n) → is_Some (bitswap n')).

Definition returns_safe n (o : outcome Net) : Prop := ∃ n', o = Done n' ∧ net_safe n n'.

(** Same address book and bitswap. *)
Definition same_base n n' : Prop := peers_st n' = peers_st n ∧ bitswap n' = bitswap n.

#[local] Instance same_base_preorder : PreOrder same_base.
Proof. split; [by split|]. intros ??? [] []. split; congruence. Qed.

Lemma same_base_safe n n' : book_wf (peers_st n) → same_base n n' → net_safe n n'.
Proof. intros Hwf [H1 H2]. unfold net_safe. by rewrite H1, H2. Qed.

Lemma safe_refl n : book_wf (peers_st n) → net_safe n n.
Proof. by split. Qed.

Lemma net_safe_trans n1 n2 n3 : net_safe n1 n2 → net_safe n2 n3 → net_safe n1 n3.
Proof. intros (_ & L2 & B2) (W3 & L3 & B3). unfold net_safe. split_and!; [done | congruence | auto]. Qed.

Lemma safe_same n1 n2 n3 : net_safe n1 n2 → same_base n2 n3 → net_safe n1 n3.
Proof. intros H Hs. eapply net_safe_trans; [exact H|]. apply same_base_safe; [apply H|done]. Qed.

Lemma set_peers_st_safe f n :
  book_wf (f (peers_st n)) →
  local_peer_id (book (f (peers_st n))) = local_peer_id (book (peers_st n)) →
  net_safe n (set_peers_st f n).
Proof. intros. unfold net_safe. by split_and!. Qed.

Lemma on_book_safe f n : returns_wf (peers_st n) (f (peers_st n)) → returns_safe n (on_book f n).
Proof.
  intros (s & Hs & Hwf & Hl). unfold on_book. rewrite Hs. eexists. split; [done|].
  unfold net_safe. by split_and!.
Qed.

Lemma notify_safe e n : book_wf (peers_st n) → net_safe n (set_peers_st (notify e) n).
Proof. intros Hwf. apply set_peers_st_safe; [by apply notify_wf | apply notify_local]. Qed.

(** *** Operations that leave the address book alone *)

Lemma finish_base q want r n : same_base n (finish q want r n).
Proof. unfold finish, drop_channel. by repeat case_match. Qed.
Lemma insert_query_base q ch n : same_base n (insert_query q ch n).
Proof. unfold insert_query, drop_channel. by repeat case_match. Qed.
Lemma notify_subscribers_base topic e n : same_base n (notify_subscribers topic e n).
Proof.
  unfold notify_subscribers, unsubscribe. destruct (subscriptions n !! topic); [|done].
  destruct (send_retain _ _ _) as [txs c]. by repeat case_match.
Qed.
Lemma subscribe_base topic n : same_base n (subscribe topic n).2.
Proof.
  unfold subscribe. destruct (unbounded _) as [tx c].
  by repeat (case_match; simplify_eq/=).
Qed.
Lemma dht_base tx n :
  (∀ key b, same_base n (providers key b tx n)) ∧ (∀ key b, same_base n (provide key b tx n)) ∧
  (∀ key q b, same_base n (get_record key q b tx n)) ∧
  (∀ rec q b, same_base n (put_record rec q b tx n)).
Proof.
  split_and!; intros; unfold providers, provide, get_record, put_record;
    repeat (case_match; try done); (etrans; [|apply insert_query_base]; done).
Qed.

Lemma kad_event_safe e n : book_wf (peers_st n) → net_safe n (inject_kad_event e n).
Proof.
  intros Hwf. destruct e as [id r|]; [|by apply safe_refl].
  destruct r as [[x|x]|[x|x]|[x|x]|[x|x]|[x|x]|[x|x]|[x|x]|[x|x]]; cbn [inject_kad_event];
    try (by apply safe_refl); try (apply same_base_safe; [done | apply finish_base]).
  case_bool_decide; [|by apply safe_refl].
  destruct (finish_base (QKad id) as_bootstrap (RepUnit (Ok ())) (set_bootstrapped true n))
    as [H1 H2].
  eapply net_safe_trans; [|apply notify_safe; by rewrite H1].
  apply same_base_safe; [done|]. by split; [rewrite H1 | rewrite H2].
Qed.

Lemma bitswap_event_base e n : same_base n (inject_bitswap_event e n).
Proof. destruct e; cbn; repeat case_match; try done; by destruct q. Qed.

Lemma notify_topic_safe ev topic e n :
  book_wf (peers_st n) →
  net_safe n (notify_subscribers topic e (set_peers_st (notify ev) n)).
Proof.
  intros Hwf. eapply safe_same; [by apply (notify_safe ev) | apply notify_subscribers_base].
Qed.

Lemma net_add_address_safe p a src n :
  book_wf (peers_st n) → returns_safe n (net_add_address p a src n).
Proof.
  intros Hwf. unfold net_add_address.
  set (n1 := match kad n with Some k => _ | None => n end).
  assert (same_base n n1) as [H1 H2] by (unfold n1; by destruct (kad n)).
  destruct (on_book_safe (Peers.add_address p a src) n1) as (n' & Hn & Hs).
  { rewrite H1. by apply add_address_wf. }
  exists n'. split; [done|]. unfold net_safe in *. by rewrite H1, H2 in Hs.
Qed.

Lemma fold_safe {A} (f : Net → A → outcome Net) l n :
  (∀ n x, book_wf (peers_st n) → returns_safe n (f n x)) →
  book_wf (peers_st n) → returns_safe n (foldM f l n).
Proof.
  intros Hf Hwf. destruct (foldM_inv (net_safe n) f l n) as (n' & Hn & Hs).
  - by apply safe_refl.
  - intros n1 x _ Hs. destruct (Hf n1 x) as (n2 & H2 & Hs2); [apply Hs|].
    exists n2. split; [done|]. by eapply net_safe_trans.
  - by exists n'.
Qed.

Lemma new_event_stream_safe n :
  book_wf (peers_st n) → net_safe n (new_event_stream n).2.
Proof.
  intros Hwf. unfold new_event_stream. destruct (unbounded _) as [tx c]. cbn.
  unfold net_safe. split_and!; [|done|done]. by destruct Hwf.
Qed.

(** *** The two arms of the loop *)

Lemma on_net_safe f t :
  net_safe (net t) (f (net t)) → ∃ t', on_net f t = Done t' ∧ net_safe (net t) (net t').
Proof. intros Hs. eexists. by split. Qed.

Lemma on_net_o_safe f t :
  returns_safe (net t) (f (net t)) →
  ∃ t', on_net_o f t = Done t' ∧ net_safe (net t) (net t').
Proof. intros (n' & Hn & Hs). unfold on_net_o. rewrite Hn. eexists. by split. Qed.

Lemma local_remove_address p a s :
  local_peer_id (book (Peers.remove_address p a s)) = local_peer_id (book s).
Proof. unfold Peers.remove_address. by case_match. Qed.

Lemma local_prune ps s :
  local_peer_id (book (foldl (λ s peer, notify (NewInfo peer) (set_peers (delete peer) s)) s ps))
  = local_peer_id (book s).
Proof. revert s. induction ps as [|p ps IH]; intros s; cbn; [done|]. by rewrite IH, notify_local. Qed.

Lemma local_closed p cp num err s :
  local_peer_id (book (Peers.connection_closed p cp num err s)) = local_peer_id (book s).
Proof.
  unfold Peers.connection_closed. destruct (close_reason err). cbn [utc_now].
  rewrite notify_local. by case_match; rewrite !notify_local.
Qed.

Lemma swarm_event_safe e t :
  book_wf (peers_st (net t)) → input_ok (net t) (InSwarm (Some e)) →
  ∃ t', handle_swarm_event e t = Done t' ∧ net_safe (net t) (net t').
Proof.
  intros Hwf [Hty Hok]. destruct e as [p cp num cause|[e|e|p r|e|e|e|e]|]; cbn [handle_swarm_event];
    cbn [input_typed input_panics] in Hty, Hok.
  - apply on_net_safe, set_peers_st_safe; [by apply connection_closed_wf | apply local_closed].
  - apply on_net_safe. by apply kad_event_safe.
  - apply on_net_o_safe. destruct e as [found|]; [|eexists; by split; [|apply safe_refl]].
    apply fold_safe; [|done]. intros n [p a] Hn. by apply net_add_address_safe.
  - apply on_net_o_safe. destruct r as [d| | | |]; cbn [inject_ping_event];
      try (eexists; by split; [|apply safe_refl]); apply on_book_safe.
    + pose proof (book_set_rtt_exact p (Some d) _ ltac:(by intros ? [= <-]) Hwf) as H. by rewrite Hok in H.
    + pose proof (book_set_rtt_exact p None _ ltac:(done) Hwf) as H. by rewrite Hok in H.
    + pose proof (book_set_rtt_exact p None _ ltac:(done) Hwf) as H. by rewrite Hok in H.
  - apply on_net_o_safe. destruct e; cbn [inject_id_event].
    + by apply on_book_safe, set_info_wf.
    + eexists; by split; [|apply safe_refl].
  - apply on_net_safe, same_base_safe; [done | apply bitswap_event_base].
  - apply on_net_safe. destruct e; cbn; try (by apply safe_refl); try by apply notify_topic_safe.
    apply same_base_safe; [done | apply notify_subscribers_base].
  - apply on_net_o_safe. destruct e as [p topic d|p topic|p topic]; cbn.
    + unfold from_utf8. apply negb_false_iff in Hok. rewrite Hok. eexists. split; [done|].
      apply same_base_safe; [done | apply notify_subscribers_base].
    + case_match; eexists; (split; [done|]); [by apply notify_topic_safe | by apply safe_refl].
    + case_match; eexists; (split; [done|]); [by apply notify_topic_safe | by apply safe_refl].
  - eexists. split; [done|]. by apply safe_refl.
Qed.

Lemma listen_on_safe addr r t :
  book_wf (peers_st (net t)) → net_safe (net t) (net (handle_listen_on addr r t)).
Proof.
  intros Hwf. unfold handle_listen_on. pose proof (new_event_stream_safe _ Hwf) as Hs.
  destruct (new_event_stream (net t)) as [tx n]. destruct (swarm_listen_on _ _) as [[l|e] w]; cbn;
    [exact Hs|]. eapply net_safe_trans; [exact Hs|]. destruct Hs as (Hn & _). cbn in Hn.
  apply set_peers_st_safe; [by destruct Hn | done].
Qed.

Lemma command_safe c t :
  book_wf (peers_st (net t)) → input_ok (net t) (InCommand (Some c)) →
  ∃ t', handle_command c t = Done t' ∧ net_safe (net t) (net t').
Proof.
  intros Hwf [_ Hok]. destruct c; cbn [handle_command]; cbn [input_panics] in Hok;
    try (by eexists; split; [done|]; apply safe_refl);
    try (by apply on_net_safe, same_base_safe; [done|]; apply dht_base).
  - eexists. split; [done|]. by apply listen_on_safe.
  - apply on_net_o_safe. by apply net_add_address_safe.
  - apply on_net_safe. eapply safe_same.
    + apply set_peers_st_safe; [by apply remove_address_wf | apply local_remove_address].
    + unfold net_remove_address. by case_match.
  - apply on_net_safe, set_peers_st_safe; [by apply prune_peers_wf|].
    unfold Peers.prune_peers. cbn [utc_now]. by rewrite local_prune.
  - apply on_net_safe, set_peers_st_safe; [by apply dial_wf|]. unfold Peers.dial. by case_match.
  - apply on_net_safe, set_peers_st_safe; [by apply dial_address_wf|].
    unfold Peers.dial_address. by repeat case_match.
  - apply on_net_o_safe.
    destruct (fold_safe bootstrap_peer initial (net t)) as (n1 & -> & Hs).
    { intros n [p a] Hn. unfold bootstrap_peer.
      destruct (net_add_address_safe p a User n Hn) as (n1 & H1 & Hs1). cbn [fst snd].
      rewrite H1. eexists. split; [done|]. eapply net_safe_trans; [exact Hs1|].
      apply set_peers_st_safe; [apply dial_wf, Hs1|]. unfold Peers.dial. by case_match. }
    { done. }
    eexists. split; [done|]. eapply safe_same; [exact Hs|].
    unfold net_bootstrap. repeat (case_match; try done).
    etrans; [|apply insert_query_base]. done.
  - apply on_net_safe, same_base_safe; [done|]. unfold unprovide. by case_match.
  - apply on_net_safe, same_base_safe; [done|]. unfold remove_record. by case_match.
  - apply on_net_safe, same_base_safe; [done|]. unfold reply_with.
    pose proof (subscribe_base topic (net t)) as Hs. by destruct (subscribe topic (net t)).
  - apply on_net_safe, same_base_safe; [done|]. unfold reply_with, publish.
    by repeat (case_match; simplify_eq/=).
  - apply on_net_safe, same_base_safe; [done|]. unfold reply_with, net_broadcast.
    by repeat (case_match; simplify_eq/=).
  - apply on_net_o_safe. destruct (bitswap (net t)) as [b|] eqn:Hb; [|done]. unfold net_get. rewrite Hb.
    cbn [unwrap mbind outcome_bind oneshot_channel]. destruct (bitswap_get _ _ b) as [i b'].
    eexists. split; [done|]. destruct (insert_query_base (QBitswap i) (ChGet (oneshots (net t)))
      (set_bitswap (Some b') (oneshot_channel (net t)).2)) as [H1 H2].
    unfold net_safe. cbn in *. rewrite H1, H2. by split_and!.
  - apply on_net_o_safe. destruct (bitswap (net t)) as [b|] eqn:Hb; [|done]. unfold net_sync. rewrite Hb.
    cbn [unwrap mbind outcome_bind]. destruct (unbounded _) as [tx' c].
    destruct (bitswap_sync _ _ _ b) as [i b'].
    eexists. split; [done|]. destruct (insert_query_base (QBitswap i) (ChSync tx')
      (set_bitswap (Some b') (set_sync_chans c (net t)))) as [H1 H2].
    unfold net_safe. cbn in *. rewrite H1, H2. by split_and!.
  - apply on_net_safe. pose proof (new_event_stream_safe _ Hwf) as Hs.
    by destruct (new_event_stream (net t)).
  - apply on_net_o_safe. unfold cancel.
    set (n1 := match queries (net t) !! id with Some ch => _ | None => _ end).
    assert (same_base (net t) n1) as [H1 H2].
    { unfold n1, drop_channel. destruct (queries (net t) !! id) as [[]|]; by split. }
    destruct id as [i|i].
    + destruct (bitswap (net t)) as [b|] eqn:Hb; [|done]. rewrite H2. eexists. split; [done|].
      unfold net_safe. cbn. rewrite H1. by split_and!.
    + eexists. split; [done|]. by apply same_base_safe.
Qed.

(** *** When the task panics *)

Lemma cancel_panics i n : bitswap n = None → cancel (QBitswap i) n = Panicked.
Proof.
  intros Hb. unfold cancel.
  set (n1 := match queries n !! _ with Some ch => _ | None => _ end).
  assert (bitswap n1 = None) as ->; [|done].
  unfold n1, drop_channel. by destruct (queries n !! _) as [[]|].
Qed.

Lemma input_panics_spec x t :
  book_wf (peers_st (net t)) → input_typed (net t) x → input_panics (net t) x = true →
  poll_swarm_step x t = Panicked.
Proof.
  intros Hwf Hty Hp.
  assert (∀ p r, (∀ d, r = Some d → 0 ≤ d ≤ DURATION_MAX) →
    rtt_overflows p r (peers_st (net t)) = true →
    on_book (book_set_rtt p r) (net t) = Panicked) as Hping.
  { intros p r Hd Ho. unfold on_book. by rewrite (proj2 (book_set_rtt_panics p r _ Hd Hwf) Ho). }
  destruct x as [[[p cp num cause|[e|e|p r|e|e|e|e]|]|]|[c|]]; try done; cbn in Hp.
  - cbn. unfold on_net_o. destruct r as [d| | | |]; try done; cbn [inject_ping_event];
      rewrite Hping; try done. by intros ? [= <-].
  - destruct e; try done. cbn. unfold from_utf8. by apply negb_true_iff in Hp as ->.
  - destruct c; try done; cbn.
    + unfold on_net_o, net_get. by destruct (bitswap (net t)).
    + unfold on_net_o, net_sync. by destruct (bitswap (net t)).
    + destruct id as [i|i]; [|done]. unfold on_net_o. rewrite cancel_panics; [done|].
      by destruct (bitswap (net t)).
Qed.
End safe.

(** From a state with a well-formed address book, the swarm task panics on exactly the
    inputs of [input_panics]; any other event of the swarm and command is handled to
    completion and leaves the address book well formed.  The task ends exactly when the
    swarm or the command channel ends. *)
Theorem task_safe `{L : Libp2p, I : Ipld, N : !Protocols, CE : !Channels Event,
    CG : !Channels GossipEvent, CS : !Channels SyncEvent, CL : !Channels ListenerEvent,
    W : !SwarmOps, F : !Fmt, E : Environment, O : HashOrder, P : Profile} x (t : Task) :
  book_wf (peers_st (net t)) → input_typed (net t) x →
  if input_panics (net t) x then poll_swarm_step x t = Panicked
  else ∃ r, poll_swarm_step x t = Done r ∧
    match r with
    | Some t' => net_safe (net t) (net t')
    | None => x = InSwarm None ∨ x = InCommand None
    end.
Proof.
  intros Hwf Hty. destruct (input_panics (net t) x) eqn:Hp; [by apply input_panics_spec|].
  destruct x as [[e|]|[c|]]; cbn [poll_swarm_step]; try (by exists None; auto).
  - destruct (swarm_event_safe e t Hwf (conj Hty Hp)) as (t' & -> & H). by exists (Some t').
  - destruct (command_safe c t Hwf (conj Hty Hp)) as (t' & -> & H). by exists (Some t').
Qed.

Lemma task_safe_witness :
  ∃ r, poll_swarm_step get_input task0 = Done (Some r) ∧
    book_wf (peers_st (net r)).
Proof.
  destruct (task_safe get_input task0 (fresh_wf _ _ _ _ _) I) as ([t'|] & E & H).
  - exists t'. split; [exact E | apply H].
  - destruct H as [[=]|[=]].
Defined.


(** One byte that is no text. *)
Definition topic_ff : Topic (Protocols := toy_protocols) := [255].

