(* ===== verification/Topics.v ===== *)
(** * Topic subscriptions

    What [subscribe], [unsubscribe] and [notify_subscribers] of
    [src/net/behaviour.rs] guarantee: a message on a topic reaches exactly the live
    subscribers of that topic, in order, and a topic nobody listens to is left. *)

From S2P Require Import Prelude Libp2p Duration PeerInfo AddressHandler Channel Peers PeersReach.
From S2P Require Import Ipld Utf8 Behaviour Network NetworkService NetToy.

Open Scope Z_scope.

Section topics.
Context `{L : Libp2p, I : Ipld, N : !Protocols, CE : !Channels Event,
          CG : !Channels GossipEvent, CS : !Channels SyncEvent}.
Implicit Types (n : Net) (topic : string).

(** Every registered topic has subscribers, each listed once, on existing channels. *)
Definition topics_wf n : Prop :=
  ∀ topic txs, subscriptions n !! topic = Some txs →
    txs ≠ [] ∧ NoDup txs ∧ Forall (created (gossip_chans n)) txs.

Definition live n topic : list (sender GossipEvent) :=
  filter (λ d, rx_alive (gossip_chans n) d = true) (default [] (subscriptions n !! topic)).

Lemma unsubscribe_frame topic n :
  subscriptions (unsubscribe topic n) = subscriptions n ∧
  gossip_chans (unsubscribe topic n) = gossip_chans n.
Proof. unfold unsubscribe. by repeat case_match. Qed.

(** The closed form: deliver, keep the live subscribers, leave an empty topic. *)
Lemma notify_subscribers_eq topic e n txs :
  subscriptions n !! topic = Some txs →
  notify_subscribers topic e n =
    let n1 := set_gossip_chans (send_retain e txs (gossip_chans n)).2
                (set_subscriptions <[topic := live n topic]> n) in
    if bool_decide (live n topic = [])
    then set_subscriptions (delete topic) (unsubscribe topic n1) else n1.
Proof.
  intros Ht. unfold notify_subscribers, live. rewrite Ht. cbn [from_option id].
  pose proof (send_retain_senders e txs (gossip_chans n)) as Hs.
  destruct (send_retain e txs (gossip_chans n)) as [txs' c]. cbn in Hs. by subst txs'.
Qed.

Lemma notify_subscribers_chans topic e n txs :
  subscriptions n !! topic = Some txs →
  gossip_chans (notify_subscribers topic e n) = (send_retain e txs (gossip_chans n)).2.
Proof.
  intros Ht. rewrite (notify_subscribers_eq _ _ _ _ Ht). cbv zeta.
  destruct (bool_decide (live n topic = [])); [|done].
  cbn. by rewrite (proj2 (unsubscribe_frame _ _)).
Qed.

Lemma notify_subscribers_subs topic e n txs :
  subscriptions n !! topic = Some txs →
  subscriptions (notify_subscribers topic e n) =
    if bool_decide (live n topic = []) then delete topic (subscriptions n)
    else <[topic := live n topic]> (subscriptions n).
Proof.
  intros Ht. rewrite (notify_subscribers_eq _ _ _ _ Ht). cbv zeta.
  destruct (bool_decide (live n topic = [])); [|done].
  cbn. rewrite (proj1 (unsubscribe_frame _ _)). cbn. apply delete_insert_eq.
Qed.

Lemma notify_subscribers_wf topic e n : topics_wf n → topics_wf (notify_subscribers topic e n).
Proof.
  intros Hwf. destruct (subscriptions n !! topic) as [txs|] eqn:Ht.
  2: { unfold notify_subscribers. by rewrite Ht. }
  intros topic' txs'. rewrite (notify_subscribers_subs _ _ _ _ Ht).
  rewrite (notify_subscribers_chans _ _ _ _ Ht).
  assert (∀ l, Forall (created (gossip_chans n)) l →
               Forall (created (send_retain e txs (gossip_chans n)).2) l) as Hcr.
  { intros l Hl. eapply Forall_impl; [exact Hl|]. intros d. by rewrite send_retain_created. }
  case_bool_decide as Hl.
  - rewrite lookup_delete. case_decide; [done|]. intros Hx.
    destruct (Hwf _ _ Hx) as (? & ? & ?). auto.
  - rewrite lookup_insert. case_decide.
    + intros [= <-]. destruct (Hwf _ _ Ht) as (_ & Hnd & Hc).
      split_and!; [done| |apply Hcr]; unfold live; rewrite Ht; cbn.
      * by apply NoDup_filter.
      * rewrite Forall_forall in Hc |- *. intros x [_ Hx]%list_elem_of_filter. auto.
    + intros Hx. destruct (Hwf _ _ Hx) as (? & ? & ?). auto.
Qed.

(** Every live subscriber gets the event, once; nobody else does. *)
Lemma notify_subscribers_queue topic e n d :
  topics_wf n →
  queue (gossip_chans (notify_subscribers topic e n)) d =
    queue (gossip_chans n) d ++ (if bool_decide (d ∈ live n topic) then [e] else []).
Proof.
  intros Hwf. destruct (subscriptions n !! topic) as [txs|] eqn:Ht.
  2: { assert (live n topic = []) as -> by (unfold live; by rewrite Ht).
       unfold notify_subscribers. rewrite Ht. by rewrite app_nil_r. }
  destruct (Hwf _ _ Ht) as (_ & Hnd & _).
  rewrite (notify_subscribers_chans _ _ _ _ Ht), send_retain_queue by done. f_equal.
  assert (bool_decide (d ∈ txs) && rx_alive (gossip_chans n) d =
          bool_decide (d ∈ live n topic)) as ->; [|done].
  unfold live. rewrite Ht. cbn. apply eq_bool_prop_intro. rewrite Is_true_true.
  rewrite Is_true_true, andb_true_iff, !bool_decide_eq_true, list_elem_of_filter. naive_solver.
Qed.

Lemma notify_subscribers_alive topic e n d :
  rx_alive (gossip_chans (notify_subscribers topic e n)) d = rx_alive (gossip_chans n) d.
Proof.
  destruct (subscriptions n !! topic) as [txs|] eqn:Ht.
  - rewrite (notify_subscribers_chans _ _ _ _ Ht). apply send_retain_alive.
  - unfold notify_subscribers. by rewrite Ht.
Qed.

(** The subscribers of a topic after an event on some topic. *)
Lemma notify_subscribers_lookup topic e n topic' :
  default [] (subscriptions (notify_subscribers topic e n) !! topic') =
    if decide (topic' = topic) then live n topic else default [] (subscriptions n !! topic').
Proof.
  destruct (subscriptions n !! topic) as [txs|] eqn:Ht.
  - rewrite (notify_subscribers_subs _ _ _ _ Ht).
    case_decide as Hd; [subst topic'|]; case_bool_decide as Hl.
    + by rewrite lookup_delete_eq, Hl.
    + by rewrite lookup_insert_eq.
    + by rewrite lookup_delete_ne.
    + by rewrite lookup_insert_ne.
  - unfold notify_subscribers. rewrite Ht. case_decide as Hd; [|done]. subst topic'.
    unfold live. by rewrite Ht.
Qed.

(** Subscribing, when the topic is known or gossipsub accepts it. *)
Lemma subscribe_known topic n txs :
  (is_Some (gossipsub n) ∨ is_Some (broadcast n)) → subscriptions n !! topic = Some txs →
  subscribe topic n =
    (Ok (unbounded (gossip_chans n)).1,
     set_subscriptions <[topic := txs ++ [(unbounded (gossip_chans n)).1]]>
       (set_gossip_chans (unbounded (gossip_chans n)).2 n)).
Proof.
  intros Hen Ht. unfold subscribe. destruct (unbounded (gossip_chans n)) as [tx c].
  cbn. rewrite Ht. destruct (gossipsub n), (broadcast n); try done.
  by destruct Hen as [[? [=]]|[? [=]]].
Qed.

Lemma subscribe_inv topic n rx n' :
  subscribe topic n = (Ok rx, n') →
  rx = (unbounded (gossip_chans n)).1 ∧
  gossip_chans n' = (unbounded (gossip_chans n)).2 ∧
  subscriptions n' =
    <[topic := default [] (subscriptions n !! topic) ++ [rx]]> (subscriptions n).
Proof.
  unfold subscribe. destruct (unbounded (gossip_chans n)) as [tx c]. cbn.
  destruct (subscriptions n !! topic) as [txs|] eqn:Ht; cbn; rewrite ?Ht;
    repeat (case_match; simplify_eq/=); intros; simplify_eq/=; by rewrite ?ident_hash_id.
Qed.

Lemma subscribe_wf topic n rx n' :
  subscribe topic n = (Ok rx, n') → topics_wf n → topics_wf n'.
Proof.
  intros (-> & Hc & Hs)%subscribe_inv Hwf topic' txs'. rewrite Hs, Hc.
  assert (∀ l, Forall (created (gossip_chans n)) l →
               Forall (created (unbounded (gossip_chans n)).2) l) as Hcr.
  { intros l Hl. eapply Forall_impl; [exact Hl|]. intros d Hd.
    apply unbounded_created. by right. }
  rewrite lookup_insert. case_decide as Hd.
  - intros [= <-]. subst topic'. split_and!.
    + by destruct (default [] _).
    + destruct (subscriptions n !! topic) as [txs|] eqn:Ht; cbn; [|by apply NoDup_singleton].
      destruct (Hwf _ _ Ht) as (_ & Hnd & Hall). apply NoDup_app. split_and!; [done| |by apply NoDup_singleton].
      intros d Hin ->%list_elem_of_singleton.
      rewrite Forall_forall in Hall. by apply (unbounded_fresh (gossip_chans n)), Hall.
    + apply Forall_app. split.
      * destruct (subscriptions n !! topic) as [txs|] eqn:Ht; cbn; [|constructor].
        apply Hcr, (Hwf _ _ Ht).
      * constructor; [|constructor]. apply unbounded_created. by left.
  - intros Hx. destruct (Hwf _ _ Hx) as (? & ? & ?). auto.
Qed.
End topics.

(** An event on a topic is appended to the channel of every subscriber of that
    topic whose receiver still exists, once, and to no other channel; the subscribers
    that are gone are dropped; when none is left the topic is forgotten, and the
    subscription state of gossipsub changes only then. *)
Theorem notify_subscribers_spec `{L : Libp2p, I : Ipld, N : !Protocols, CE : !Channels Event,
    CG : !Channels GossipEvent, CS : !Channels SyncEvent} topic e (n : Net) :
  topics_wf n →
  let n' := notify_subscribers topic e n in
  topics_wf n' ∧
  (∀ d, queue (gossip_chans n') d =
          queue (gossip_chans n) d ++ (if bool_decide (d ∈ live n topic) then [e] else [])) ∧
  subscriptions n' !! topic =
    (if bool_decide (live n topic = []) then None else Some (live n topic)) ∧
  (∀ topic', topic' ≠ topic → subscriptions n' !! topic' = subscriptions n !! topic') ∧
  (live n topic ≠ [] ∨ subscriptions n !! topic = None → gossipsub n' = gossipsub n) ∧
  peers_st n' = peers_st n.
Proof.
  intros Hwf n'. split; [by apply notify_subscribers_wf|]. unfold n'.
  destruct (subscriptions n !! topic) as [txs|] eqn:Ht.
  2: { assert (live n topic = []) as Hl by (unfold live; by rewrite Ht).
       unfold notify_subscribers. rewrite Ht, Hl. split_and!; try done. intros d.
       by rewrite app_nil_r. }
  rewrite (notify_subscribers_subs _ _ _ _ Ht). split_and!.
  - intros d. by apply notify_subscribers_queue.
  - case_bool_decide; [apply lookup_delete_eq | apply lookup_insert_eq].
  - intros topic' Hne. case_bool_decide;
      [by rewrite lookup_delete_ne | by rewrite lookup_insert_ne].
  - intros [Hl|[=]]. rewrite (notify_subscribers_eq _ _ _ _ Ht). cbv zeta.
    by rewrite bool_decide_false.
  - rewrite (notify_subscribers_eq _ _ _ _ Ht). cbv zeta. unfold unsubscribe.
    by repeat case_match.
Qed.

Definition rx2 : sender GossipEvent := 2%nat.

(** Two subscribers of a topic, the first of which is gone. *)
Definition net1 : Net := (subscribe "t" (subscribe "t" net0).2).2.
Definition net2 : Net := set_gossip_chans (drop_rx (0%nat : sender GossipEvent) (gossip_chans net1)) net1.

Lemma topics_wf_bool (n : Net) :
  forallb (λ x, bool_decide (x.2 ≠ []) && bool_decide (NoDup x.2) &&
             forallb (λ d, bool_decide (is_Some (gossip_chans n !! d))) x.2)
    (map_to_list (subscriptions n)) = true → topics_wf n.
Proof.
  rewrite forallb_forall. intros H topic txs Ht%elem_of_map_to_list%list_elem_of_In.
  apply H in Ht. bsimp. split_and!; [done..|].
  apply Forall_forall. intros d Hd%list_elem_of_In.
  match goal with Hf : forallb _ _ = true |- _ =>
    rewrite forallb_forall in Hf; apply Hf in Hd end. by bsimp.
Qed.

Lemma notify_subscribers_spec_witness :
  topics_wf net2 ∧
  queue (gossip_chans (notify_subscribers "t" (GSubscribed peer_b) net2)) 1%nat =
    [GSubscribed peer_b].
Proof.
  assert (topics_wf net2) as Hwf by (apply topics_wf_bool; by vm_compute).
  split; [exact Hwf|].
  destruct (notify_subscribers_spec "t" (GSubscribed peer_b) net2 Hwf) as (_ & Hq & _).
  etrans; [apply (Hq 1%nat)|]. by vm_compute.
Defined.

(** A successful subscription returns a new channel with no messages, appended to
    the subscribers of its topic and to no other, so that later messages on the topic
    reach it after the earlier subscribers. *)
Theorem subscribe_spec `{L : Libp2p, I : Ipld, N : !Protocols, CE : !Channels Event,
    CG : !Channels GossipEvent, CS : !Channels SyncEvent} topic rx (n n' : Net) :
  topics_wf n → subscribe topic n = (Ok rx, n') →
  topics_wf n' ∧ live n' topic = live n topic ++ [rx] ∧
  rx ∉ live n topic ∧ queue (gossip_chans n') rx = [] ∧
  (∀ topic', topic' ≠ topic → subscriptions n' !! topic' = subscriptions n !! topic').
Proof.
  intros Hwf Hs. split; [by eapply subscribe_wf|].
  apply subscribe_inv in Hs as (-> & Hc & Hsub).
  assert (∀ d, d ∈ default [] (subscriptions n !! topic) → d ≠ (unbounded (gossip_chans n)).1)
    as Hold.
  { intros d Hin ->.
    destruct (subscriptions n !! topic) as [txs|] eqn:Ht; cbn in Hin;
      [|by apply not_elem_of_nil in Hin].
    destruct (Hwf _ _ Ht) as (_ & _ & Hall).
    rewrite Forall_forall in Hall. by apply (unbounded_fresh (gossip_chans n)), Hall. }
  unfold live. rewrite Hsub, Hc, lookup_insert_eq. cbn [from_option id]. split_and!.
  - rewrite filter_app. f_equal.
    + apply filter_ext_elem. intros d Hd. by rewrite unbounded_alive, decide_False by auto.
    + rewrite filter_cons, decide_True; [done|]. by rewrite unbounded_alive, decide_True.
  - intros [_ Hin]%list_elem_of_filter. by eapply Hold.
  - by rewrite unbounded_queue, decide_True.
  - intros topic' Hne. by rewrite lookup_insert_ne.
Qed.

Lemma subscribe_spec_witness :
  topics_wf net2 ∧ live (subscribe "t" net2).2 "t" = [1; 2]%nat.
Proof.
  assert (topics_wf net2) as Hwf by (apply topics_wf_bool; by vm_compute).
  split; [exact Hwf|].
  destruct (subscribe_spec "t" rx2 net2 (subscribe "t" net2).2 Hwf) as (_ & Hl & _).
  - etrans; [apply surjective_pairing|]. apply (f_equal (λ r, (r, (subscribe "t" net2).2))).
    by vm_compute.
  - etrans; [exact Hl|]. by vm_compute.
Defined.

(** When gossipsub rejects the first subscription to a topic, the caller gets an
    error but the topic stays registered; from then on subscribing succeeds without
    gossipsub or broadcast ever being subscribed to the topic. *)
Theorem failed_subscription_sticks `{L : Libp2p, I : Ipld, N : !Protocols,
    CE : !Channels Event, CG : !Channels GossipEvent, CS : !Channels SyncEvent}
    topic e g g' (n : Net) :
  subscriptions n !! topic = None → gossipsub n = Some g →
  gossip_subscribe topic g = (Err e, g') →
  ∃ n1, subscribe topic n = (Err (GossipsubSubscribeError e), n1) ∧
    ∃ rx n2, subscribe topic n1 = (Ok rx, n2) ∧
      gossipsub n2 = Some g' ∧ broadcast n2 = broadcast n.
Proof.
  intros Ht Hg He. unfold subscribe at 1. rewrite Hg.
  destruct (unbounded (gossip_chans n)) as [tx c].
  cbn [set_gossip_chans subscriptions set_subscriptions gossipsub]. rewrite Ht, Hg, He.
  eexists. split; [by destruct (broadcast n)|].
  do 2 eexists. split.
  - apply subscribe_known with (txs := [tx]); cbn; [by left|].
    by rewrite ident_hash_id, lookup_insert_eq.
  - done.
Qed.

Definition refusal : GossipError := "refused".
Definition no_topics : Gossipsub := (∅ : gset string).

Lemma failed_subscription_sticks_witness :
  ∃ n1, subscribe "refused" net0 = (Err (GossipsubSubscribeError refusal), n1) ∧
    ∃ rx n2, subscribe "refused" n1 = (Ok rx, n2) ∧
      gossipsub n2 = Some no_topics ∧ broadcast n2 = broadcast net0.
Proof. by apply (failed_subscription_sticks "refused" refusal no_topics no_topics net0). Defined.
