(* ===== verification/NetworkClient.v ===== *)
(** * What clients of the network see

    Specifications of the client side of [src/net/mod.rs]: listener streams, the
    [SyncQuery] future, commands that may not fit into the command channel, and the
    view of connections. *)

From S2P Require Import Prelude Libp2p Duration PeerInfo AddressHandler Channel Peers PeersInv.
From S2P Require Import PeersReach PeersSpec PeersConn Ipld Behaviour Network NetworkService.
From S2P Require Import NetToy.

Open Scope Z_scope.

(** ** Listener streams *)
Section forwarding.
Context `{L : Libp2p, CL : !Channels ListenerEvent}.
Implicit Types (id : ListenerId) (events : list Event).

Definition closes id (e : Event) : bool :=
  match e with ListenerClosed i => bool_decide (i = id) | _ => false end.

(** What a listener's stream says about an event of the swarm. *)
Definition listener_event id (e : Event) : option ListenerEvent :=
  match e with
  | NewListenAddr i a => if bool_decide (i = id) then Some (LNewListenAddr a) else None
  | ExpiredListenAddr i a => if bool_decide (i = id) then Some (LExpiredListenAddr a) else None
  | _ => None
  end.

(** The events before the listener is closed. *)
Fixpoint until_closed id events : list Event :=
  match events with
  | [] => []
  | e :: events => if closes id e then [] else e :: until_closed id events
  end.

Lemma forward_one_alive id r e (c : chan_state ListenerEvent) :
  rx_alive c r = true →
  ∃ c', forward_one id r e c = (negb (closes id e), c') ∧ rx_alive c' r = true ∧
    queue c' r = queue c r ++ option_list (listener_event id e) ∧
    ∀ d, d ≠ r → queue c' d = queue c d.
Proof.
  intros Ha.
  assert (∀ x, ∃ c', unbounded_send r x c = (true, c') ∧ rx_alive c' r = true ∧
    queue c' r = queue c r ++ [x] ∧ ∀ d, d ≠ r → queue c' d = queue c d) as Hsend.
  { intros x. pose proof (send_result r x c) as H1. pose proof (send_alive r x c) as H2.
    pose proof (send_queue r x c) as H3. destruct (unbounded_send r x c) as [ok c']. cbn in *.
    exists c'. rewrite H1, H2, Ha. split_and!; [done..| |].
    - rewrite H3, decide_True, Ha by done. done.
    - intros d Hd. by rewrite H3, decide_False by auto. }
  destruct e; cbn; try (by exists c; rewrite app_nil_r); case_bool_decide; cbn;
    try (by exists c; rewrite app_nil_r); apply Hsend.
Qed.
End forwarding.

(** C39: while its receiver exists, the stream returned by [listen_on] carries exactly
    the new and expired addresses of that listener, in the order the swarm reported
    them and up to the closing of the listener, at which point the forwarding task
    ends; events of other listeners are skipped and no other channel is written. *)
Theorem forward_listener_spec `{L : Libp2p, CL : !Channels ListenerEvent}
    id r events (c : chan_state ListenerEvent) :
  rx_alive c r = true →
  let '(running, c') := forward_listener_events id r events c in
  running = negb (existsb (closes id) events) ∧
  queue c' r = queue c r ++ omap (listener_event id) (until_closed id events) ∧
  ∀ d, d ≠ r → queue c' d = queue c d.
Proof.
  revert c. induction events as [|e events IH]; intros c Ha; cbn.
  { by rewrite app_nil_r. }
  destruct (forward_one_alive id r e c Ha) as (c1 & -> & Ha1 & Hq & Ho).
  destruct (closes id e) eqn:He; cbn.
  - by destruct e.
  - specialize (IH c1 Ha1). destruct (forward_listener_events id r events c1) as [b c'].
    destruct IH as (-> & H2 & H3). split_and!; [done| |intros d Hd; by rewrite H3, Ho].
    rewrite H2, Hq, <- app_assoc. f_equal. by destruct (listener_event id e).
Qed.

Definition listener1 : ListenerId := 1%nat.

Lemma forward_listener_spec_witness :
  queue (forward_listener_events listener0 (0%nat : sender ListenerEvent)
           [NewListenAddr listener1 addr_a; NewListenAddr listener0 addr_b2;
            ListenerClosed listener0; NewListenAddr listener0 addr_b3]
           (unbounded (∅ : chan_state ListenerEvent (Channels := queues _))).2).2 0%nat
  = [LNewListenAddr addr_b2].
Proof.
  pose proof (forward_listener_spec listener0 (0%nat : sender ListenerEvent)
    [NewListenAddr listener1 addr_a; NewListenAddr listener0 addr_b2;
     ListenerClosed listener0; NewListenAddr listener0 addr_b3]
    (unbounded (∅ : chan_state ListenerEvent (Channels := queues _))).2 eq_refl) as H.
  destruct (forward_listener_events _ _ _ _) as [b c']. destruct H as (_ & Hq & _).
  etrans; [exact Hq|]. by vm_compute.
Defined.

(** ** Sync queries *)

Definition is_progress `{L : Libp2p, I : Ipld, N : !Protocols} (e : SyncEvent) : bool :=
  match e with Progress _ => true | Complete _ => false end.

(** Progress events are skipped. *)
Lemma SyncQuery_skip `{L : Libp2p, I : Ipld, N : !Protocols} es fuel id rest closed :
  Forall (λ e, is_progress e = true) es →
  SyncQuery_poll (length es + fuel) (MkSyncQuery id (es ++ rest) closed) =
  SyncQuery_poll fuel (MkSyncQuery id rest closed).
Proof. induction 1 as [|[] es He _ IH]; done. Qed.

(** Polling a sync query skips progress reports and returns the result of the
    first completion, leaving later events unread; with progress reports only, it is
    pending; a query created ready is ready at the first poll.  One more round than
    there are progress reports is enough. *)
Theorem SyncQuery_poll_spec `{L : Libp2p, I : Ipld, N : !Protocols} es id rest closed r :
  Forall (λ e, is_progress e = true) es →
  SyncQuery_poll (S (length es)) (MkSyncQuery id (es ++ Complete r :: rest) closed) =
    Some (Ready r, MkSyncQuery id rest closed) ∧
  SyncQuery_poll (S (length es)) (MkSyncQuery id es false) =
    Some (Pending, MkSyncQuery id [] false) ∧
  SyncQuery_poll 1 (SyncQuery_ready r) = Some (Ready r, MkSyncQuery None [] true).
Proof.
  intros Hes. rewrite <- Nat.add_1_r. split_and!.
  - by rewrite SyncQuery_skip.
  - rewrite <- (app_nil_r es) at 2. by rewrite SyncQuery_skip.
  - done.
Qed.

Lemma SyncQuery_poll_spec_witness :
  SyncQuery_poll 2 (MkSyncQuery (N := toy_protocols) None [Progress 3; Complete (Ok ())] false) =
    Some (Ready (Ok ()), MkSyncQuery None [] false).
Proof.
  destruct (SyncQuery_poll_spec (N := toy_protocols) [Progress 3] None [] false (Ok ()))
    as (H & _); [by repeat constructor|]. exact H.
Defined.

(** A sync query whose channel is closed without a completion - the query was
    cancelled, or the swarm task ended - never becomes ready: one poll loops forever,
    whatever the fuel. *)
Theorem SyncQuery_poll_spins `{L : Libp2p, I : Ipld, N : !Protocols} es id fuel :
  Forall (λ e, is_progress e = true) es →
  SyncQuery_poll fuel (MkSyncQuery id es true) = None.
Proof.
  intros Hes. revert es Hes. induction fuel as [|fuel IH]; intros es Hes; [done|].
  destruct Hes as [|[] es He Hes]; cbn; [|by apply IH|done]. apply (IH []). constructor.
Qed.

Lemma SyncQuery_poll_spins_witness :
  SyncQuery_poll 1000 (MkSyncQuery (N := toy_protocols) None [Progress 3] true) = None.
Proof. apply (SyncQuery_poll_spins (N := toy_protocols) [Progress 3]). by repeat constructor. Defined.

(** ** Commands *)
Section commands.
Context `{L : Libp2p, I : Ipld, N : !Protocols, CE : !Channels Event,
          CG : !Channels GossipEvent, CS : !Channels SyncEvent,
          CL : !Channels ListenerEvent, CC : !Bounded NetworkCommand}.

Definition queued (c : Client) : list NetworkCommand := pending (c_cmd c).

Lemma cmd_spec msg (c : Client) :
  let '(r, c') := cmd msg c in
  c_oneshots c' = c_oneshots c ∧ c_listen c' = c_listen c ∧ c_peer_id c' = c_peer_id c ∧
  match r with
  | None => queued c' = queued c ++ [msg]
  | Some (msg', reason) => msg' = msg ∧ queued c' = queued c ∧
      (reason = "receiver went away" ∨ reason = "channel is full")
  end.
Proof.
  unfold cmd, queued. destruct (try_send msg (c_cmd c)) as [[f|] s] eqn:Ht; cbn.
  - apply try_send_err in Ht. split_and!; try done. destruct f; auto.
  - by apply try_send_ok in Ht.
Qed.
(** A command sent without waiting for an answer. *)
Lemma fire_queued msg (c : Client) :
  queued (fire msg c) = queued c ∨ queued (fire msg c) = queued c ++ [msg].
Proof.
  unfold fire. pose proof (cmd_spec msg c) as H.
  destruct (cmd msg c) as [[[m f]|] c']; cbn; [left | right]; apply H.
Qed.

(** A request either queues its command, with a reply channel that was not used
    before, or leaves the queue as it is and fails with the reason. *)
Lemma request_queued mk (c : Client) :
  let '(r, c') := request mk c in
  c_oneshots c' = S (c_oneshots c) ∧
  match r with
  | Waiting rx => rx = c_oneshots c ∧ queued c' = queued c ++ [mk rx]
  | Failed e => queued c' = queued c ∧
      (e = SvcSend "receiver went away" ∨ e = SvcSend "channel is full")
  end.
Proof.
  unfold request.
  pose proof (cmd_spec (mk (c_oneshots c)) (MkClient (c_peer_id c) (c_node_name c) (c_cmd c)
    (S (c_oneshots c)) (c_listen c))) as H.
  destruct (cmd _ _) as [[[msg reason]|] c']; destruct H as (H1 & _ & _ & H2).
  - destruct H2 as (-> & H2 & H3). split; [done|]. split; [done|]. naive_solver.
  - by split.
Qed.
End commands.

(** A sync request answers at once and without a command exactly when there is
    nothing to fetch - the query is ready with success - or nobody to ask - it is ready
    with the first missing block not found.  Otherwise it queues one command for exactly
    the missing blocks and the given providers, with a reply channel that was never used
    before, or, when the queue is full or the swarm task is gone, leaves the queue as it
    is and fails with that reason. *)
Theorem svc_sync_spec `{L : Libp2p, I : Ipld, N : !Protocols, CE : !Channels Event,
    CG : !Channels GossipEvent, CS : !Channels SyncEvent, CL : !Channels ListenerEvent,
    CC : !Bounded NetworkCommand} cid provs missing (c : Client) :
  let '(r, c') := svc_sync cid provs missing c in
  match r with
  | SyncReady q => c' = c ∧ ∃ res q', SyncQuery_poll 1 q = Some (Ready res, q') ∧
      match res with
      | Ok _ => missing = []
      | Err e => provs = [] ∧ ∃ m, head missing = Some m ∧ e = NetBlockNotFound m
      end
  | SyncRequested (Waiting rx) => missing ≠ [] ∧ provs ≠ [] ∧
      rx = c_oneshots c ∧ c_oneshots c' = S rx ∧ queued c' = queued c ++ [Sync cid provs missing rx]
  | SyncRequested (Failed e) => missing ≠ [] ∧ provs ≠ [] ∧ queued c' = queued c ∧
      (e = SvcSend "receiver went away" ∨ e = SvcSend "channel is full")
  end.
Proof.
  unfold svc_sync. destruct missing as [|m missing].
  { split; [done|]. by exists (Ok ()), (MkSyncQuery None [] true). }
  destruct provs as [|p provs].
  { split; [done|]. exists (Err (NetBlockNotFound m)), (MkSyncQuery None [] true).
    cbn. by eauto. }
  pose proof (request_queued (Sync cid (p :: provs) (m :: missing)) c) as H.
  destruct (request _ _) as [[e|rx] c']; destruct H as [H1 H2].
  - by destruct H2.
  - destruct H2 as [-> H2]. split_and!; done.
Qed.

Definition cid7 : Cid (Ipld := numbered) := 7%N.

Lemma svc_sync_spec_witness :
  queued (svc_sync cid7 [peer_b] [cid7] client0).2 = [Sync cid7 [peer_b] [cid7] 0%nat].
Proof.
  pose proof (svc_sync_spec cid7 [peer_b] [cid7] client0) as H.
  destruct (svc_sync cid7 [peer_b] [cid7] client0) as [[q|[e|rx]] c'] eqn:E.
  - destruct H as (_ & res & q' & Hq & H). exfalso. by destruct res; [|destruct H].
  - apply (f_equal (λ x, match x.1 with SyncRequested (Failed _) => true | _ => false end)) in E.
    by vm_compute in E.
  - destruct H as (_ & _ & -> & _ & Hq). exact Hq.
Defined.

(** The stream returned by [listen_on] is a new channel; either the command with
    that channel is queued and the stream is empty, or nothing is queued and the stream
    carries exactly one failure, with the address and the reason. *)
Theorem svc_listen_on_spec `{L : Libp2p, I : Ipld, N : !Protocols, CE : !Channels Event,
    CG : !Channels GossipEvent, CS : !Channels SyncEvent, CL : !Channels ListenerEvent,
    CC : !Bounded NetworkCommand} addr (c : Client) :
  let '(tx, c') := svc_listen_on addr c in
  ¬ created (c_listen c) tx ∧
  ((queued c' = queued c ++ [ListenOn addr tx] ∧ queue (c_listen c') tx = []) ∨
   (queued c' = queued c ∧ ∃ reason,
      queue (c_listen c') tx = [LListenFailed addr ("cannot send to Swarm: " +:+ reason)])).
Proof.
  unfold svc_listen_on.
  pose proof (unbounded_fresh (c_listen c)) as Hf. pose proof (unbounded_queue (c_listen c)) as Hq.
  pose proof (unbounded_alive (c_listen c)) as Ha.
  destruct (unbounded (c_listen c)) as [tx l]. cbn in Hf, Hq, Ha.
  pose proof (cmd_spec (ListenOn addr tx) (MkClient (c_peer_id c) (c_node_name c) (c_cmd c)
    (c_oneshots c) l)) as H.
  destruct (cmd _ _) as [[[msg reason]|] c']; destruct H as (_ & H1 & _ & H2); cbn in H1.
  - destruct H2 as (-> & H2 & _). cbn. split; [done|]. right. split; [done|].
    exists reason. by rewrite send_queue, decide_True, H1, Ha, Hq, !decide_True.
  - split; [done|]. left. split; [done|]. by rewrite H1, Hq, decide_True.
Qed.

(** A client whose command queue is full. *)
Definition client_full : Client :=
  MkClient peer_a "node" ((0%nat, []) : bounded_state NetworkCommand) 0
    (∅ : chan_state ListenerEvent (Channels := queues _)).

Lemma svc_listen_on_spec_witness :
  let '(tx, c') := svc_listen_on addr_a client_full in
  ∃ reason, queue (c_listen c') tx =
    [LListenFailed addr_a ("cannot send to Swarm: " +:+ reason)].
Proof.
  pose proof (svc_listen_on_spec addr_a client_full) as H.
  destruct (svc_listen_on addr_a client_full) as [tx c'] eqn:E.
  destruct H as (_ & [[_ Hq]|[_ H]]); [|exact H]. exfalso.
  apply (f_equal (λ x, queue (c_listen x.2) x.1)) in E. cbn [fst snd] in E. rewrite Hq in E.
  by vm_compute in E.
Defined.

(** ** Connections *)

(** C33: on every run of the address book, [is_connected] holds for the local peer and
    for exactly those peers for which the replayed reports of the swarm leave some
    address open, and [connections] lists exactly the open pairs. *)
Theorem is_connected_spec `{L : Libp2p, I : Ipld, N : !Protocols, CE : !Channels Event,
    CG : !Channels GossipEvent, CS : !Channels SyncEvent, F : !Fmt, E : Environment,
    O : HashOrder, P : Profile} local pr lb ka w ls p (n : Net) :
  run (fresh local pr lb ka w) ls (peers_st n) →
  (svc_is_connected local p n = true ↔
     p = local ∨ ∃ a, (p, a) ∈ foldl conn_effect ∅ ls) ∧
  (∀ a, (∃ t d, (p, a, t, d) ∈ svc_connections n) ↔ (p, a) ∈ foldl conn_effect ∅ ls).
Proof.
  intros Hrun.
  pose proof (λ a, conn_run _ _ _ ∅ Hrun (fresh_rel local pr lb ka w) (p, a)) as Hrel.
  unfold connected, info_of in Hrel. cbn [fst snd] in Hrel.
  split.
  - unfold svc_is_connected. rewrite orb_true_iff, bool_decide_eq_true.
    apply or_iff_compat_l. setoid_rewrite <- Hrel.
    destruct (peers (book (peers_st n)) !! p) as [i|]; cbn.
    + rewrite negb_true_iff, bool_decide_eq_false. split.
      * intros Hne. apply map_choose in Hne as (a & x & Ha). exists a. by rewrite Ha.
      * intros [a [x Ha]] Hnil. by rewrite Hnil, lookup_empty in Ha.
    + split; [done|]. intros [a [x Ha]]. by rewrite lookup_empty in Ha.
  - intros a. rewrite <- Hrel. unfold svc_connections. split.
    + intros (t & d & Hin%list_elem_of_In). apply in_flat_map in Hin as ([q i] & Hq & Hin).
      apply list_elem_of_In, elem_of_hm_iter in Hq.
      apply list_elem_of_In, list_elem_of_fmap in Hin as ([b [t' d']] & [= <- -> -> ->] & Hb).
      apply elem_of_hm_iter in Hb. rewrite Hq. cbn. by rewrite Hb.
    + intros [[t d] Ha]. exists t, d. apply list_elem_of_In, in_flat_map.
      destruct (peers (book (peers_st n)) !! p) as [i|] eqn:Hp; cbn in Ha;
        [|by rewrite lookup_empty in Ha].
      exists (p, i). split; [by apply list_elem_of_In, elem_of_hm_iter|].
      apply list_elem_of_In, list_elem_of_fmap. exists (a, (t, d)). split; [done|].
      by apply elem_of_hm_iter.
Qed.

Definition net6 : Net := set_peers_st (λ _, run6) net0.

Lemma is_connected_spec_witness :
  run start labels0 (peers_st net6) ∧ svc_is_connected peer_a peer_b net6 = true.
Proof.
  split; [exact run_labels0|].
  apply (is_connected_spec peer_a false false false world0 labels0 peer_b net6 run_labels0).
  right. exists addr_b1. by apply (bool_decide_eq_true_1 (_ ∈ _)); vm_compute.
Defined.
