(* ===== verification/NetworkNew.v ===== *)
(** * [NetworkService::new] in [src/net/mod.rs]

    The constructor of the network: the behaviour, the transport stack over TCP, the
    name resolver, the swarm, the command channel and the spawned swarm task.  The
    transports of the crate [libp2p] and the resolver are a parameter.  Proved here:
    what a new network is, that a failed start leaves no task behind, and that nothing
    the swarm task meets after a successful start makes it panic. *)

From S2P Require Import Prelude Utf8 Libp2p Duration PeerInfo Executor AddressHandler Channel Peers.
From S2P Require Import PeersInv PeersReach Ipld Behaviour Network NetworkService NetToy Config.
From S2P Require Import PeersSpec PeersConn NetworkSafe.

Open Scope Z_scope.

(** ** The transports of [libp2p] *)
Class Transports `{L : Libp2p, I : Ipld, N : !Protocols, S : !Setup, W : !SwarmOps} := {
  (** TCP sockets, optionally behind the handshake of a pre-shared key. *)
  Sockets : Type;
  (** [TcpTransport::new] with [nodelay] and [port_reuse]. *)
  tcp_new : bool → bool → Sockets;
  pnet : Bytes → Sockets → Sockets;
  (** [noise::Keypair::new().into_authentic], which signs with the node key. *)
  NoiseKey : Type;
  into_authentic : Keypair → option NoiseKey;
  (** Authenticated, multiplexed connections that time out; with name resolution. *)
  Streams : Type;
  upgrade : NoiseKey → Duration → Sockets → Streams;
  Transport : Type;
  dns_custom : Streams → ResolverConfig → ResolverOpts → result Transport SetupError;
  dns_system : Streams → result Transport SetupError;
  read_system_conf : result (ResolverConfig * ResolverOpts) string;
  (** [SwarmBuilder::new], [max_negotiating_inbound_streams], [build]; the behaviour is
      kept by the swarm task. *)
  swarm_build : Transport → PeerId → Z → Swarm;
}.

Section new.
Context `{L : Libp2p, I : Ipld, N : !Protocols, CE : !Channels Event,
          CG : !Channels GossipEvent, CS : !Channels SyncEvent,
          CL : !Channels ListenerEvent, W : !SwarmOps, CC : !Bounded NetworkCommand,
          S : !Setup, T : !Transports, RT : Runtime}.

(** [NetworkService]: the client, and what only the constructor sets. *)
Record NetworkService : Type := MkNetworkService {
  ns_client : Client;
  ns_public_key : PublicKey;
  ns_swarm_task : JoinHandle;
}.

(** The block that builds [tcp]; panics if the noise key cannot be signed. *)
Definition tcp_transport (config : NetworkConfig) : outcome Streams :=
  let transport := tcp_new true (nc_port_reuse config) in
  let transport := match nc_psk config with
                   | Some psk => pnet psk transport
                   | None => transport
                   end in
  dh_key ← unwrap (into_authentic (nc_node_key config));
  Done (upgrade dh_key (5 * NANOS_PER_SEC) transport).

(** The name resolver. *)
Definition dns_transport (dns : option DnsConfig) (tcp : Streams) : result Transport SetupError :=
  match dns with
  | Some (Custom config opts) => dns_custom tcp config opts
  | Some (SystemWithFallback config opts) =>
      match read_system_conf with
      | Ok (config, opts) => dns_custom tcp config opts
      | Err _ => dns_custom tcp config opts
      end
  | None => dns_system tcp
  end.

(** The behaviour as the swarm task owns it, with the state of the process' channels
    and metrics. *)
Definition initial_net (bh : Behaviours) (w : World) (g : chan_state GossipEvent)
    (s : chan_state SyncEvent) : Net :=
  MkNet (MkState (bh_peers bh) w) (bh_kad bh) (bh_gossipsub bh) (bh_broadcast bh)
    (bh_bitswap bh) false ∅ ∅ g s 0 [].

(** [NetworkService::new]: the service and the variables of the spawned task. *)
Definition NetworkService_new (config : NetworkConfig) (executor : Executor) (w : World)
    (g : chan_state GossipEvent) (s : chan_state SyncEvent) (l : chan_state ListenerEvent)
    (r : rt_state) : outcome (result (NetworkService * Task) SetupError * rt_state) :=
  let public_key := public (nc_node_key config) in
  let peer_id := to_peer_id public_key in
  let node_name := nc_node_name config in
  match Behaviour_new config with
  | Err e => Done (Err e, r)
  | Ok behaviour =>
      tcp ← tcp_transport config;
      match dns_transport (nc_dns config) tcp with
      | Err e => Done (Err e, r)
      | Ok transport =>
          let swarm := swarm_build transport peer_id 10000 in
          let cmd := bounded_new 100 in
          let '(swarm_task, r) := spawn executor r in
          Done (Ok (MkNetworkService (MkClient peer_id node_name cmd 0 l) public_key swarm_task,
                    MkTask (initial_net behaviour w g s) swarm [] l), r)
      end
  end.

(** The executor handed to the swarm: connection tasks outlive their handles. *)
Definition swarm_executor `{FT : Features} (exec : Executor) (r : rt_state) : rt_state :=
  let '(h, r) := spawn exec r in detach h r.

(** [local_public_key], [local_peer_id], [local_node_name]. *)
Definition svc_local_public_key (n : NetworkService) : PublicKey := ns_public_key n.
Definition svc_local_peer_id (n : NetworkService) : PeerId := c_peer_id (ns_client n).
Definition svc_local_node_name (n : NetworkService) : string := c_node_name (ns_client n).

(** ** What a new network is *)

Lemma Behaviour_new_Ok config bh :
  Behaviour_new config = Ok bh →
  bh_peers bh = AddressBook_new (to_peer_id (public (nc_node_key config)))
    (nc_port_reuse config) (nc_enable_loopback config) (nc_keep_alive config) ∅ ∅ [] ∧
  bh_kad bh = kad_new (to_peer_id (public (nc_node_key config))) <$> nc_kad config ∧
  bh_bitswap bh = bitswap_new <$> nc_bitswap config ∧
  (is_Some (bh_gossipsub bh) ↔ is_Some (nc_gossipsub config)) ∧
  bh_broadcast bh = broadcast_new <$> nc_broadcast config.
Proof.
  unfold Behaviour_new. destruct (nc_mdns config) as [m|]; cbn;
    [destruct (mdns_new m); cbn; [|done]|].
  all: destruct (nc_gossipsub config) as [g|]; cbn;
    [destruct (gossipsub_new _ g); cbn; [|done]|]; intros [= <-]; cbn;
    split_and!; try done; split; intros [? ?]; try done; by eexists.
Qed.

(** [NetworkService::new] inverted. *)
Lemma NetworkService_new_Ok config ex w g s l r ns t r' :
  NetworkService_new config ex w g s l r = Done (Ok (ns, t), r') →
  ∃ bh tcp tr, Behaviour_new config = Ok bh ∧ tcp_transport config = Done tcp ∧
    dns_transport (nc_dns config) tcp = Ok tr ∧
    t = MkTask (initial_net bh w g s)
          (swarm_build tr (to_peer_id (public (nc_node_key config))) 10000) [] l ∧
    spawn ex r = (ns_swarm_task ns, r') ∧
    ns = MkNetworkService (MkClient (to_peer_id (public (nc_node_key config)))
           (nc_node_name config) (bounded_new 100) 0 l) (public (nc_node_key config))
           (ns_swarm_task ns).
Proof.
  unfold NetworkService_new. destruct (Behaviour_new config) as [bh|]; [|done].
  destruct (tcp_transport config) as [tcp|]; cbn; [|done].
  destruct (dns_transport _ tcp) as [tr|] eqn:Ed; [|done].
  destruct (spawn ex r) as [h r1] eqn:Es. intros [= <- <- <-].
  exists bh, tcp, tr. by split_and!.
Qed.

Lemma NetworkService_new_Err config ex w g s l r e r' :
  NetworkService_new config ex w g s l r = Done (Err e, r') →
  r' = r ∧ (Behaviour_new config = Err e ∨
            ∃ tcp, tcp_transport config = Done tcp ∧ dns_transport (nc_dns config) tcp = Err e).
Proof.
  unfold NetworkService_new. destruct (Behaviour_new config) as [bh|] eqn:Hb.
  - destruct (tcp_transport config) as [tcp|] eqn:Ht; cbn; [|done].
    destruct (dns_transport _ tcp) as [tr|] eqn:Ed; [by destruct (spawn ex r)|].
    intros [= -> ->]. split; [done|]. right. by exists tcp.
  - intros [= -> ->]. split; [done|]. by left.
Qed.

Lemma NetworkService_new_Panicked config ex w g s l r :
  NetworkService_new config ex w g s l r = Panicked →
  into_authentic (nc_node_key config) = None.
Proof.
  unfold NetworkService_new. destruct (Behaviour_new config) as [bh|]; [|done].
  unfold tcp_transport. destruct (into_authentic _) as [k|]; [|done]. cbn.
  destruct (dns_transport _ _); [by destruct (spawn ex r)|done].
Qed.
End new.

(** ** The swarm task from its start on *)
Section life.
Context `{L : Libp2p, I : Ipld, N : !Protocols, CE : !Channels Event,
          CG : !Channels GossipEvent, CS : !Channels SyncEvent,
          CL : !Channels ListenerEvent, W : !SwarmOps,
          F : !Fmt, E : Environment, O : HashOrder, P : Profile}.
Implicit Types (t : Task).

(** Either the loop of [poll_swarm] takes an event or a command, or, inside
    [swarm.next()], the swarm calls the address book. *)
Inductive task_step : Task → Task → Prop :=
| task_input x t t' :
    input_typed (net t) x → poll_swarm_step x t = Done (Some t') → task_step t t'
| task_callback l t s :
    book_step l (peers_st (net t)) s →
    task_step t (set_net (set_peers_st (λ _, s) (net t)) t).

(** A well-formed address book of one and the same node, and bitswap stays on. *)
Definition task_inv (local : PeerId) (b : bool) t : Prop :=
  book_wf (peers_st (net t)) ∧ local_peer_id (book (peers_st (net t))) = local ∧
  (b = true → is_Some (bitswap (net t))).

Lemma returns_wf_local s s' o :
  returns_wf s o → o = Done s' → local_peer_id (book s') = local_peer_id (book s).
Proof. intros (s1 & -> & _ & ?). naive_solver. Qed.

Lemma poll_local params ready s :
  local_peer_id (book (poll params ready s).2) = local_peer_id (book s).
Proof.
  destruct (poll_refresh params ready s) as (s1 & Hs1 & ->).
  destruct Hs1 as [-> | ->]; by repeat case_match.
Qed.

Lemma book_set_rtt_local p r s s' :
  book_set_rtt p r s = Done s' → local_peer_id (book s') = local_peer_id (book s).
Proof.
  unfold book_set_rtt. destruct (peers (book s) !! p); [|by intros [= <-]].
  rewrite bind_Done. intros (i' & _ & [= <-]). by rewrite notify_local.
Qed.

(** No call into the address book changes whose book it is. *)
Lemma book_step_local l s s' :
  book_step l s s' → book_wf s → local_peer_id (book s') = local_peer_id (book s).
Proof.
  intros Hstep Hs. destruct Hstep; try by rewrite ?notify_local.
  - unfold dial. by case_match.
  - unfold dial_address. by repeat case_match.
  - eauto using returns_wf_local, add_address_wf.
  - apply local_remove_address.
  - unfold prune_peers. cbn [utc_now]. by rewrite local_prune.
  - apply local_closed.
  - eauto using returns_wf_local, inject_connection_established_wf.
  - eauto using returns_wf_local, inject_address_change_wf.
  - eauto using book_set_rtt_local.
  - eauto using returns_wf_local, set_info_wf.
  - eauto using returns_wf_local, inject_dial_failure_wf.
  - apply poll_local.
  - unfold inject_new_listener. by rewrite notify_local.
  - unfold inject_new_listen_addr. rewrite notify_local. by case_match.
  - unfold inject_expired_listen_addr. rewrite notify_local. by case_match.
  - unfold inject_listener_error. by rewrite notify_local.
  - unfold inject_listener_closed. by rewrite notify_local.
  - unfold inject_new_external_addr. by rewrite notify_local.
  - unfold inject_expired_external_addr. by rewrite notify_local.
Qed.

(** An input on which the task does not panic is handled, and keeps the invariant. *)
Lemma input_progress local b x t :
  task_inv local b t → input_typed (net t) x →
  if input_panics (net t) x then poll_swarm_step x t = Panicked
  else ∃ r, poll_swarm_step x t = Done r ∧
    match r with
    | Some t' => task_inv local b t'
    | None => x = InSwarm None ∨ x = InCommand None
    end.
Proof.
  intros (Hwf & Hl & Hb) Hok. pose proof (task_safe x t Hwf Hok) as H.
  destruct (input_panics (net t) x); [done|]. destruct H as ([t'|] & -> & H).
  - destruct H as (H1 & H2 & H3). exists (Some t'). split; [done|]. split_and!; [done|congruence|auto].
  - by exists None.
Qed.

(** [input_panics] in words of the inputs. *)
Lemma input_panics_cases n x :
  input_panics n x = true ↔
  match x with
  | InSwarm (Some (SwBehaviour (EvPing p (PingOk d)))) => rtt_overflows p (Some d) (peers_st n) = true
  | InSwarm (Some (SwBehaviour (EvPing p (PingTimeout | PingFailed)))) =>
      rtt_overflows p None (peers_st n) = true
  | InSwarm (Some (SwBehaviour (EvBroadcast (BcReceived _ topic _)))) =>
      utf8_valid (topic_bytes topic) = false
  | InCommand (Some (Get _ _ _ | Sync _ _ _ _ | CancelQuery (QBitswap _))) => bitswap n = None
  | _ => False
  end.
Proof. unfold input_panics. repeat case_match; rewrite ?negb_true_iff; naive_solver. Qed.

Lemma task_step_inv local b t t' : task_step t t' → task_inv local b t → task_inv local b t'.
Proof.
  destruct 1 as [x t t' Hok Hx | l t s Hs]; intros Hinv.
  - pose proof (input_progress local b x t Hinv Hok) as H.
    destruct (input_panics (net t) x); [by rewrite Hx in H|]. destruct H as (r & Hr & H).
    rewrite Hx in Hr. injection Hr as <-. done.
  - destruct Hinv as (Hwf & Hl & Hb). split_and!; cbn.
    + eauto using book_step_wf.
    + rewrite (book_step_local _ _ _ Hs Hwf). done.
    + done.
Qed.

Lemma task_steps_inv local b t t' :
  rtc task_step t t' → task_inv local b t → task_inv local b t'.
Proof. induction 1; eauto using task_step_inv. Qed.
End life.

(** A network that starts has the identity of its configuration - peer id and public
    key of the node key, the configured name - nothing queued for it, no query and no
    subscription, is not bootstrapped, has an empty address book for its own peer id
    with the configured flags and exactly the configured sub-protocols, and its task has
    been spawned; a network that fails to start, for whatever reason, has spawned nothing,
    and the only panic is a node key that cannot sign. *)
Theorem NetworkService_new_spec `{L : Libp2p, I : Ipld, N : !Protocols, CE : !Channels Event,
    CG : !Channels GossipEvent, CS : !Channels SyncEvent, CL : !Channels ListenerEvent,
    W : !SwarmOps, CC : !Bounded NetworkCommand, S : !Setup, T : !Transports, RT : Runtime}
    config ex w g s l r :
  match NetworkService_new config ex w g s l r with
  | Panicked => into_authentic (nc_node_key config) = None
  | Done (Err e, r') =>
      r' = r ∧ (Behaviour_new config = Err e ∨
                ∃ tcp, tcp_transport config = Done tcp ∧ dns_transport (nc_dns config) tcp = Err e)
  | Done (Ok (ns, t), r') =>
      let me := to_peer_id (public (nc_node_key config)) in
      svc_local_public_key ns = public (nc_node_key config) ∧ svc_local_peer_id ns = me ∧
      svc_local_node_name ns = nc_node_name config ∧ pending (c_cmd (ns_client ns)) = [] ∧
      queries (net t) = ∅ ∧ subscriptions (net t) = ∅ ∧ bootstrapped (net t) = false ∧
      peers_st (net t) =
        fresh me (nc_port_reuse config) (nc_enable_loopback config) (nc_keep_alive config) w ∧
      (is_Some (kad (net t)) ↔ is_Some (nc_kad config)) ∧
      (is_Some (bitswap (net t)) ↔ is_Some (nc_bitswap config)) ∧
      (is_Some (gossipsub (net t)) ↔ is_Some (nc_gossipsub config)) ∧
      (is_Some (broadcast (net t)) ↔ is_Some (nc_broadcast config)) ∧
      ∃ j, handle_task (ns_swarm_task ns) = Some j ∧ ¬ spawned r j ∧
        ∀ u, running r' u = true ↔ u = j ∨ running r u = true
  end.
Proof.
  destruct (NetworkService_new config ex w g s l r) as [[[[ns t]|e] r']|] eqn:E.
  - apply NetworkService_new_Ok in E as (bh & tcp & tr & Hb & _ & _ & -> & Hs & Hns).
    destruct (Behaviour_new_Ok _ _ Hb) as (Hp & Hk & Hbs & Hg & Hbc).
    pose proof (spawn_spec ex r) as Hsp. rewrite Hs in Hsp.
    destruct Hsp as (j & Hj & Hf & Hr & _). rewrite Hns.
    split_and!; cbn; try done; try (by rewrite pending_new).
    + by rewrite Hp.
    + by rewrite Hk, fmap_is_Some.
    + by rewrite Hbs, fmap_is_Some.
    + by rewrite Hbc, fmap_is_Some.
    + by exists j.
  - by apply NetworkService_new_Err in E.
  - by apply NetworkService_new_Panicked in E.
Qed.

(** C3: when the swarm task of a network that started panics.  After any sequence of swarm
    events, client commands and calls into the address book that it got through - all it is
    assumed is that the swarm reports connections with other peers only and that round-trip
    times are [Duration]s - the next event or command makes it panic exactly when it is
    a broadcast message whose topic is not UTF-8, a get, sync or cancellation of bitswap in
    a network without bitswap, or a ping that overflows the round-trip record of a known
    peer (see [reachable_no_panic]).  Otherwise it is handled; the task ends only when the
    swarm or the command channel does; and until then its address book stays well formed
    and its own, and bitswap stays on if it was configured. *)
Theorem new_network_safe `{L : Libp2p, I : Ipld, N : !Protocols, CE : !Channels Event,
    CG : !Channels GossipEvent, CS : !Channels SyncEvent, CL : !Channels ListenerEvent,
    W : !SwarmOps, CC : !Bounded NetworkCommand, S : !Setup, T : !Transports, RT : Runtime,
    F : !Fmt, E : Environment, O : HashOrder, P : Profile}
    config ex w g s l r ns t0 r' (t : Task) x :
  NetworkService_new config ex w g s l r = Done (Ok (ns, t0), r') →
  rtc task_step t0 t → input_typed (net t) x →
  book_wf (peers_st (net t)) ∧
  local_peer_id (book (peers_st (net t))) = svc_local_peer_id ns ∧
  (is_Some (nc_bitswap config) → is_Some (bitswap (net t))) ∧
  (poll_swarm_step x t = Panicked ↔
     match x with
     | InSwarm (Some (SwBehaviour (EvPing p (PingOk d)))) =>
         rtt_overflows p (Some d) (peers_st (net t)) = true
     | InSwarm (Some (SwBehaviour (EvPing p (PingTimeout | PingFailed)))) =>
         rtt_overflows p None (peers_st (net t)) = true
     | InSwarm (Some (SwBehaviour (EvBroadcast (BcReceived _ topic _)))) =>
         utf8_valid (topic_bytes topic) = false
     | InCommand (Some (Get _ _ _ | Sync _ _ _ _ | CancelQuery (QBitswap _))) =>
         bitswap (net t) = None
     | _ => False
     end) ∧
  (poll_swarm_step x t = Done None ↔ x = InSwarm None ∨ x = InCommand None).
Proof.
  intros Hn Hrun Hok.
  apply NetworkService_new_Ok in Hn as (bh & tcp & tr & Hb & _ & _ & -> & _ & ->).
  destruct (Behaviour_new_Ok _ _ Hb) as (Hp & _ & Hbs & _).
  assert (task_inv (to_peer_id (public (nc_node_key config)))
            (bool_decide (is_Some (nc_bitswap config))) t) as Hinv.
  { apply (task_steps_inv _ _ _ _ Hrun). unfold task_inv. cbn. rewrite Hp. split_and!; [|done|].
    - apply (fresh_wf (to_peer_id (public (nc_node_key config))) (nc_port_reuse config)
        (nc_enable_loopback config) (nc_keep_alive config)).
    - rewrite Hbs, bool_decide_eq_true. by rewrite fmap_is_Some. }
  pose proof (input_progress _ _ x t Hinv Hok) as Hx.
  destruct Hinv as (Hwf & Hl & Hbit). split_and!; [done|done| | |].
  - intros Hc. apply Hbit. by apply bool_decide_eq_true.
  - transitivity (input_panics (net t) x = true); [|apply input_panics_cases].
    destruct (input_panics (net t) x); [done|]. destruct Hx as (o & -> & _). done.
  - split; [|by intros [->| ->]]. destruct (input_panics (net t) x); [by rewrite Hx|].
    destruct Hx as (o & -> & Ho). by intros [= ->].
Qed.

(** ** A concrete start *)

(** The system has no resolver configuration; resolvers named ["bad"] are refused. *)
#[export] Instance toy_transports : Transports (S := toy_setup) (W := toy_swarm) := {|
  Sockets := option Bytes;
  tcp_new := λ _ _, None;
  pnet := λ psk _, Some psk;
  NoiseKey := ();
  into_authentic := λ _, Some ();
  Streams := ();
  upgrade := λ _ _ _, ();
  Transport := string;
  dns_custom := λ _ (c : ResolverConfig) _,
    if bool_decide (c = "bad") then Err ("no resolver" : SetupError) else Ok c;
  dns_system := λ _, Err ("no system configuration" : SetupError);
  read_system_conf := Err "not found";
  swarm_build := λ _ _ _, (0%nat : Swarm);
|}.

Definition with_dns (dns : option DnsConfig) (c : NetworkConfig (S := toy_setup)) : NetworkConfig :=
  MkNetworkConfig (nc_enable_loopback c) (nc_port_reuse c) (nc_node_name c) (nc_node_key c)
    (nc_psk c) dns (nc_mdns c) (nc_kad c) (nc_ping c) (nc_identify c) (nc_gossipsub c)
    (nc_broadcast c) (nc_bitswap c) (nc_keep_alive c).

(** A node named [n0] that falls back to the resolver ["local"]. *)
Definition config0 : NetworkConfig (S := toy_setup) :=
  with_dns (Some (SystemWithFallback ("local" : ResolverConfig) (() : ResolverOpts)))
    (NetworkConfig_new "n0" "rust-libp2p" key0).

Definition listen0 : chan_state ListenerEvent (Channels := queues _) := ∅.
Definition rt0 : rt_state (Runtime := toy_runtime) := (∅, 0%nat).

Definition start0 := NetworkService_new (CG := queues _) (CS := queues _)
  (CC := toy_bounded _) (T := toy_transports) config0 AsyncGlobal world0 ∅ ∅ listen0 rt0.

Definition started {A B C} (o : outcome (result A B * C)) : bool :=
  match o with Done (Ok _, _) => true | _ => false end.

Lemma start0_started : started start0 = true.
Proof. vm_compute. reflexivity. Qed.

Lemma NetworkService_new_spec_witness :
  ∃ ns t r', start0 = Done (Ok (ns, t), r') ∧ svc_local_peer_id ns = peer_a ∧
    bootstrapped (net t) = false ∧ is_Some (bitswap (net t)).
Proof.
  pose proof (NetworkService_new_spec (CG := queues _) (CS := queues _) (CC := toy_bounded _)
    (T := toy_transports) config0 AsyncGlobal world0 ∅ ∅ listen0 rt0) as H.
  change (NetworkService_new _ _ _ _ _ _ _) with start0 in H.
  pose proof start0_started as Hst.
  destruct start0 as [[[[ns t]|e] r']|] eqn:E; [|discriminate..].
  destruct H as (_ & Hp & _ & _ & _ & _ & Hb & _ & _ & Hbs & _).
  exists ns, t, r'. split_and!; [done|exact Hp|exact Hb|]. apply Hbs. by eexists.
Defined.

(** A listen address is reported to the address book of the new network, then it is
    asked for a block. *)
Lemma new_network_safe_witness :
  ∃ ns t r' t', start0 = Done (Ok (ns, t), r') ∧ rtc task_step t t' ∧
    ∃ o, poll_swarm_step get_input t' = Done (Some o).
Proof.
  pose proof start0_started as Hst.
  destruct start0 as [[[[ns t]|e] r']|] eqn:E; [|discriminate..].
  set (t' := set_net (set_peers_st (λ _, inject_new_listen_addr listener0 addr_a
               (peers_st (net t))) (net t)) t).
  assert (rtc task_step t t') as Hrun.
  { apply rtc_once. eapply task_callback, step_new_listen_addr. }
  assert (is_Some (bitswap (net t'))) as [b Hbit].
  { change (is_Some (bitswap (net t))).
    apply NetworkService_new_Ok in E as (bh & ? & ? & Hb & _ & _ & -> & _).
    apply Behaviour_new_Ok in Hb as (_ & _ & Hbs & _). cbn. rewrite Hbs. by eexists. }
  destruct (new_network_safe (CG := queues _) (CS := queues _) (CC := toy_bounded _)
    (T := toy_transports) config0 AsyncGlobal world0 ∅ ∅ listen0 rt0 ns t r' t' get_input
    E Hrun I) as (_ & _ & _ & Hpan & Hend).
  exists ns, t, r', t'. split_and!; [done..|].
  destruct (poll_swarm_step get_input t') as [[o|]|] eqn:Eo.
  - by exists o.
  - destruct (proj1 Hend eq_refl) as [[=]|[=]].
  - pose proof (proj1 Hpan eq_refl) as Hno. unfold get_input in Hno. by rewrite Hbit in Hno.
Defined.
