(* ===== verification/Coupled.v ===== *)
(** * Clients and the swarm task together ([src/net/mod.rs])

    The methods of [NetworkService] put commands into a bounded channel; the loop of
    [poll_swarm] takes them out whenever the swarm has no event ready.  Here both ends
    are put together: the clients of a node and its swarm task take turns in any order.
    Proved: commands are handled in the order they were accepted, the sending end of a
    reply channel is at one place only and is used at most once, and a request is served
    once the swarm has been idle as often as there were commands before it. *)

From S2P Require Import Prelude Libp2p Duration PeerInfo AddressHandler Channel Peers PeersInv.
From S2P Require Import PeersReach Ipld Utf8 Behaviour Network NetworkService NetToy NetworkSpec.
From S2P Require Import NetworkSafe NetworkClient NetworkNew Config Executor.

Open Scope Z_scope.

Section coupled.
Context `{L : Libp2p, I : Ipld, N : !Protocols, CE : !Channels Event,
          CG : !Channels GossipEvent, CS : !Channels SyncEvent,
          CL : !Channels ListenerEvent, W : !SwarmOps, CC : !Bounded NetworkCommand,
          F : !Fmt, E : Environment, O : HashOrder, P : Profile}.

(** ** The methods of [NetworkService] that send a command *)
Inductive call : Type :=
| CallAddExternalAddress (a : Multiaddr)
| CallAddAddress (p : PeerId) (a : Multiaddr)
| CallRemoveAddress (p : PeerId) (a : Multiaddr)
| CallPrunePeers (min_age : Duration)
| CallDial (p : PeerId)
| CallDialAddress (p : PeerId) (a : Multiaddr)
| CallBan (p : PeerId)
| CallUnban (p : PeerId)
| CallUnprovide (key : Key)
| CallRemoveRecord (key : Key)
| CallDropGet (id : QueryId)
| CallDropSync (q : SyncQuery)
| CallListenOn (a : Multiaddr)
| CallBootstrap (ps : list (PeerId * Multiaddr))
| CallProviders (key : Key)
| CallProvide (key : Key)
| CallGetRecord (key : Key) (quorum : Quorum)
| CallPutRecord (r : KadRecord) (quorum : Quorum)
| CallSubscribe (topic : string)
| CallPublish (topic : string) (msg : Bytes)
| CallBroadcast (topic : string) (msg : Bytes)
| CallGet (cid : Cid) (provs : list PeerId)
| CallSync (cid : Cid) (provs : list PeerId) (missing : list Cid)
| CallSwarmEvents.

(** The reply channel the caller waits on, if the call gave it one. *)
Definition waits (r : Request) : option Oneshot :=
  match r with Waiting rx => Some rx | Failed _ => None end.

Definition do_call (k : call) (c : Client) : option Oneshot * Client :=
  let ask (x : Request * Client) := (waits x.1, x.2) in
  match k with
  | CallAddExternalAddress a => (None, svc_add_external_address a c)
  | CallAddAddress p a => (None, svc_add_address p a c)
  | CallRemoveAddress p a => (None, svc_remove_address p a c)
  | CallPrunePeers age => (None, svc_prune_peers age c)
  | CallDial p => (None, svc_dial p c)
  | CallDialAddress p a => (None, svc_dial_address p a c)
  | CallBan p => (None, svc_ban p c)
  | CallUnban p => (None, svc_unban p c)
  | CallUnprovide key => (None, (svc_unprovide key c).2)
  | CallRemoveRecord key => (None, (svc_remove_record key c).2)
  | CallDropGet id => (None, drop_get_query id c)
  | CallDropSync q => (None, drop_sync_query q c)
  | CallListenOn a => (None, (svc_listen_on a c).2)
  | CallBootstrap ps => ask (svc_bootstrap ps c)
  | CallProviders key => ask (svc_providers key c)
  | CallProvide key => ask (svc_provide key c)
  | CallGetRecord key q => ask (svc_get_record key q c)
  | CallPutRecord r q => ask (svc_put_record r q c)
  | CallSubscribe topic => ask (svc_subscribe topic c)
  | CallPublish topic m => ask (svc_publish topic m c)
  | CallBroadcast topic m => ask (svc_broadcast topic m c)
  | CallGet cid provs => ask (svc_get cid provs c)
  | CallSync cid provs ms =>
      match svc_sync cid provs ms c with
      | (SyncReady _, c) => (None, c)
      | (SyncRequested r, c) => ask (r, c)
      end
  | CallSwarmEvents => ask (svc_swarm_events c)
  end.

(** ** Both ends *)

(** The clients of a node and its swarm task.  Oneshot channels and listener streams
    are shared: what one side creates or sends exists for the other. *)
Record Node : Type := MkNode { client : Client; task : Task }.

Definition set_oneshots (k : nat) (n : Net) : Net :=
  MkNet (peers_st n) (kad n) (gossipsub n) (broadcast n) (bitswap n) (bootstrapped n)
    (queries n) (subscriptions n) (gossip_chans n) (sync_chans n) k (outbox n).

(** The channels after a turn of the clients, seen by the task. *)
Definition from_clients (c : Client) (t : Task) : Node :=
  MkNode c (MkTask (set_oneshots (c_oneshots c) (net t)) (swarm t) (forwarders t) (c_listen c)).

(** The channels after a turn of the task, seen by the clients. *)
Definition from_task (q : bounded_state NetworkCommand) (c : Client) (t : Task) : Node :=
  MkNode (MkClient (c_peer_id c) (c_node_name c) q (oneshots (net t)) (listen_chans t)) t.

(** [future::select] in the loop of [poll_swarm]: the swarm is polled first, and a
    command is taken only when it has no event ready.  The channel does not end, as the
    task holds a sender itself; with nothing queued the task waits. *)
Definition select (swarm_poll : Poll (option SwarmEvent)) (q : bounded_state NetworkCommand)
    : option input * bounded_state NetworkCommand :=
  match swarm_poll with
  | Ready e => (Some (InSwarm e), q)
  | Pending =>
      let '(m, q) := next_cmd q in
      (match m with Some m => Some (InCommand (Some m)) | None => None end, q)
  end.

(** A turn: a client calls a method; the swarm calls the address book while it is
    polled, which leaves it in the given state; or the task is woken up and selects. *)
Inductive turn : Type :=
| Calls (k : call)
| Book (s : State)
| Wakes (swarm_poll : Poll (option SwarmEvent)).

(** What a turn did with commands. *)
Inductive turn_label : Type :=
| Accepted (m : NetworkCommand)
| Took (m : NetworkCommand)
| Silent.

(** The command that a call added to the queue. *)
Definition added (c c' : Client) : turn_label :=
  match drop (length (queued c)) (queued c') with m :: _ => Accepted m | [] => Silent end.

(** One turn; [None] when the task returned. *)
Definition turn_step (x : turn) (nd : Node) : outcome (option (turn_label * Node)) :=
  let '(MkNode c t) := nd in
  match x with
  | Calls k =>
      let '(_, c') := do_call k c in Done (Some (added c c', from_clients c' t))
  | Book s => Done (Some (Silent, MkNode c (set_net (set_peers_st (λ _, s) (net t)) t)))
  | Wakes p =>
      let '(i, q) := select p (c_cmd c) in
      match i with
      | None => Done (Some (Silent, MkNode c t))
      | Some i =>
          r ← poll_swarm_step i t;
          Done (match r with
                | Some t =>
                    Some (match i with InCommand (Some m) => Took m | _ => Silent end,
                          from_task q c t)
                | None => None
                end)
      end
  end.

Fixpoint run_turns (xs : list turn) (nd : Node) : outcome (option (list turn_label * Node)) :=
  match xs with
  | [] => Done (Some ([], nd))
  | x :: xs =>
      r ← turn_step x nd;
      match r with
      | None => Done None
      | Some (l, nd) =>
          r ← run_turns xs nd;
          Done (match r with Some (ls, nd) => Some (l :: ls, nd) | None => None end)
      end
  end.

Definition accepted (ls : list turn_label) : list NetworkCommand :=
  omap (λ l, match l with Accepted m => Some m | _ => None end) ls.
Definition took (ls : list turn_label) : list NetworkCommand :=
  omap (λ l, match l with Took m => Some m | _ => None end) ls.

Definition waiting (nd : Node) : list NetworkCommand := queued (client nd).

(** ** What a call does *)

(** Nothing is queued, or one command, which carries a new reply channel exactly if the
    caller waits for one. *)
Definition call_effect (c : Client) (w : option Oneshot) (c' : Client) : Prop :=
  (c_oneshots c <= c_oneshots c')%nat ∧
  ((queued c' = queued c ∧ w = None) ∨
   ∃ m, queued c' = queued c ++ [m] ∧ cmd_tx m = option_list w ∧
        match w with
        | Some rx => rx = c_oneshots c ∧ c_oneshots c' = S rx
        | None => True
        end).

Lemma fire_effect m c : cmd_tx m = [] → call_effect c None (fire m c).
Proof.
  intros Hm. unfold fire. pose proof (cmd_spec m c) as H.
  destruct (cmd m c) as [[[m' f]|] c']; destruct H as (H1 & _ & _ & H2); split; cbn;
    [lia|left|lia|right; exists m]; by split_and?; try apply H2.
Qed.

Lemma fire_result_effect m c : cmd_tx m = [] → call_effect c None (fire_result m c).2.
Proof.
  intros Hm. pose proof (fire_effect m c Hm) as H. unfold fire in H. unfold fire_result.
  by destruct (cmd m c).
Qed.

Lemma request_effect mk c :
  (∀ rx, cmd_tx (mk rx) = [rx]) →
  call_effect c (waits (request mk c).1) (request mk c).2.
Proof.
  intros Hm. pose proof (request_queued mk c) as H.
  destruct (request mk c) as [[e|rx] c']; destruct H as [H1 H2]; split; cbn; try lia.
  - left. by destruct H2.
  - right. destruct H2 as [-> H2]. exists (mk (c_oneshots c)). by rewrite Hm.
Qed.

Lemma listen_on_effect a c : call_effect c None (svc_listen_on a c).2.
Proof.
  unfold svc_listen_on. destruct (unbounded (c_listen c)) as [tx l].
  pose proof (cmd_spec (ListenOn a tx) (MkClient (c_peer_id c) (c_node_name c) (c_cmd c)
    (c_oneshots c) l)) as H.
  destruct (cmd _ _) as [[[m f]|] c']; destruct H as (H1 & _ & _ & H2); cbn in H1.
  - destruct H2 as (-> & H2 & _). split; cbn; [lia|]. left. by split.
  - split; cbn; [lia|]. right. by exists (ListenOn a tx).
Qed.

Lemma call_effect_id c : call_effect c None c.
Proof. split; [done|]. by left. Qed.

Lemma do_call_effect k c : call_effect c (do_call k c).1 (do_call k c).2.
Proof.
  destruct k; try (by apply fire_effect); try (by apply fire_result_effect);
    try (by apply request_effect).
  - cbn. unfold drop_sync_query. destruct (sq_id q); [by apply fire_effect | apply call_effect_id].
  - apply listen_on_effect.
  - cbn. unfold svc_sync. destruct missing as [|m ms]; [apply call_effect_id|].
    destruct provs as [|p ps]; [apply call_effect_id|].
    pose proof (request_effect (Sync cid (p :: ps) (m :: ms)) c (λ _, eq_refl)) as H.
    by destruct (request _ _).
Qed.

(** A call of the queue is labelled with the command it added. *)
Lemma added_spec c w c' :
  call_effect c w c' → queued c' = queued c ++ accepted [added c c'] ∧ took [added c c'] = [].
Proof.
  unfold added. intros [_ [[-> _]|(m & -> & _)]].
  - rewrite drop_all. cbn. by rewrite app_nil_r.
  - by rewrite drop_app_length.
Qed.

(** ** Order *)

Lemma accepted_cons l ls : accepted (l :: ls) = accepted [l] ++ accepted ls.
Proof. by destruct l. Qed.
Lemma took_cons l ls : took (l :: ls) = took [l] ++ took ls.
Proof. by destruct l. Qed.

Lemma next_cmd_cases (q : bounded_state NetworkCommand) :
  (pending q = [] ∧ next_cmd q = (None, q)) ∨
  ∃ m q', next_cmd q = (Some m, q') ∧ pending q = m :: pending q'.
Proof.
  pose proof (next_cmd_spec q) as H. destruct (pending q) as [|m l]; [by left|].
  right. destruct H as (q' & H & <-). by exists m, q'.
Qed.

(** What [select] yields, and what is left in the queue. *)
Lemma select_cases p (q : bounded_state NetworkCommand) :
  (∃ e, p = Ready e ∧ select p q = (Some (InSwarm e), q)) ∨
  (p = Pending ∧ pending q = [] ∧ select p q = (None, q)) ∨
  (p = Pending ∧ ∃ m q', pending q = m :: pending q' ∧
     select p q = (Some (InCommand (Some m)), q')).
Proof.
  destruct p as [e|]; cbn; [left; by exists e|]. right.
  destruct (next_cmd_cases q) as [[Hp Hq]|(m & q' & Hq & Hp)]; rewrite Hq; [by left|].
  right. by eauto.
Qed.

Lemma turn_fifo x nd l nd' :
  turn_step x nd = Done (Some (l, nd')) →
  took [l] ++ waiting nd' = waiting nd ++ accepted [l].
Proof.
  destruct nd as [c t]. destruct x as [k|s|p]; cbn [turn_step].
  - pose proof (do_call_effect k c) as Hc. destruct (do_call k c) as [w c']. intros [= <- <-].
    cbn [fst snd] in Hc. apply added_spec in Hc as [Hq ->]. exact Hq.
  - intros [= <- <-]. cbn. by rewrite app_nil_r.
  - unfold waiting, queued. cbn [client].
    destruct (select_cases p (c_cmd c)) as [(e & _ & ->)|[(_ & _ & ->)|(_ & m & q & -> & ->)]].
    + rewrite bind_Done. intros ([t'|] & _ & [=<- <-]). cbn. by rewrite app_nil_r.
    + intros [= <- <-]. cbn. by rewrite app_nil_r.
    + rewrite bind_Done. intros ([t'|] & _ & [=<- <-]). cbn. by rewrite app_nil_r.
Qed.

Lemma run_turns_cons x xs nd ls nd' :
  run_turns (x :: xs) nd = Done (Some (ls, nd')) →
  ∃ l nd1 ls', turn_step x nd = Done (Some (l, nd1)) ∧
    run_turns xs nd1 = Done (Some (ls', nd')) ∧ ls = l :: ls'.
Proof.
  cbn [run_turns]. rewrite bind_Done. intros ([[l nd1]|] & H1 & H2); [|done].
  rewrite bind_Done in H2. destruct H2 as ([[ls' nd2]|] & H2 & [= <- <-]). by exists l, nd1, ls'.
Qed.

Lemma run_fifo xs nd ls nd' :
  run_turns xs nd = Done (Some (ls, nd')) →
  took ls ++ waiting nd' = waiting nd ++ accepted ls.
Proof.
  revert nd ls. induction xs as [|x xs IH]; intros nd ls.
  { intros [= <- <-]. cbn. by rewrite app_nil_r. }
  intros (l & nd1 & ls' & H1%turn_fifo & H2%IH & ->)%run_turns_cons.
  rewrite took_cons, accepted_cons, <- app_assoc, H2, app_assoc, H1. by rewrite app_assoc.
Qed.

(** ** Progress *)

(** How often the swarm had nothing to report when the task was woken up. *)
Fixpoint idle (xs : list turn) : nat :=
  match xs with
  | [] => 0
  | Wakes Pending :: xs => S (idle xs)
  | _ :: xs => idle xs
  end.

(** What the swarm and the address book may do in a turn: the swarm does not end and
    reports nothing that makes the task panic. *)
Definition turn_ok (x : turn) (nd : Node) : Prop :=
  match x with
  | Calls _ | Wakes Pending => True
  | Book s => ∃ l, book_step l (peers_st (net (task nd))) s
  | Wakes (Ready None) => False
  | Wakes (Ready (Some e)) => input_ok (net (task nd)) (InSwarm (Some e))
  end.

Fixpoint turns_ok (xs : list turn) (nd : Node) : Prop :=
  match xs with
  | [] => True
  | x :: xs => turn_ok x nd ∧ ∀ l nd', turn_step x nd = Done (Some (l, nd')) → turns_ok xs nd'
  end.

Lemma command_ok local m t : task_inv local true t → input_ok (net t) (InCommand (Some m)).
Proof.
  intros (_ & _ & Hb). destruct (Hb eq_refl) as [b Hs]. split; [done|]. cbn.
  destruct m; try done; rewrite ?Hs; try done. by destruct id; rewrite ?Hs.
Qed.

(** Every turn of a node with bitswap is taken: nothing panics and the task goes on. *)
Lemma turn_progress local x nd :
  task_inv local true (task nd) → turn_ok x nd →
  ∃ l nd', turn_step x nd = Done (Some (l, nd')) ∧ task_inv local true (task nd').
Proof.
  destruct nd as [c t]. cbn [task]. intros Hinv Hok. destruct x as [k|s|p]; cbn [turn_step].
  - destruct (do_call k c) as [w c']. eexists _, _. by split.
  - destruct Hok as [l Hl]. eexists _, _. split; [done|].
    eapply task_step_inv; [by eapply task_callback | exact Hinv].
  - assert (∀ i, input_ok (net t) i → i ≠ InSwarm None → i ≠ InCommand None →
      ∃ t', poll_swarm_step i t = Done (Some t') ∧ task_inv local true t') as Hstep.
    { intros i [Hi Hp] H1 H2. pose proof (input_progress local true i t Hinv Hi) as Hx.
      rewrite Hp in Hx. destruct Hx as ([t'|] & Ht & H); [by exists t'|by destruct H]. }
    destruct (select_cases p (c_cmd c)) as [(e & -> & ->)|[(_ & _ & ->)|(_ & m & q & _ & ->)]].
    + destruct e as [e|]; [|done]. destruct (Hstep (InSwarm (Some e))) as (t' & -> & Hi); [done..|].
      eexists _, _. by split.
    + eexists _, _. by split.
    + destruct (Hstep (InCommand (Some m))) as (t' & -> & Hi); [by eapply command_ok|done..|].
      eexists _, _. by split.
Qed.

Lemma run_progress local xs nd :
  task_inv local true (task nd) → turns_ok xs nd →
  ∃ ls nd', run_turns xs nd = Done (Some (ls, nd')) ∧ task_inv local true (task nd').
Proof.
  revert nd. induction xs as [|x xs IH]; intros nd Hinv Hok; [by exists [], nd|].
  destruct Hok as [Hx Hxs]. destruct (turn_progress local x nd Hinv Hx) as (l & nd1 & H1 & Hinv1).
  destruct (IH nd1 Hinv1 (Hxs _ _ H1)) as (ls & nd2 & H2 & Hinv2).
  exists (l :: ls), nd2. cbn [run_turns]. rewrite H1. cbn. rewrite H2. by split.
Qed.

(** Each idle wake-up takes a command, if one is queued. *)
Lemma turn_takes x nd l nd' :
  turn_step x nd = Done (Some (l, nd')) →
  (length (waiting nd) ≤ length (took [l]) + length (waiting nd'))%nat ∧
  (x = Wakes Pending → waiting nd ≠ [] → length (took [l]) = 1%nat).
Proof.
  intros Hx. split.
  { apply turn_fifo in Hx. apply (f_equal length) in Hx. rewrite !length_app in Hx. lia. }
  intros -> Hne. destruct nd as [c t]. cbn [turn_step] in Hx. unfold waiting, queued in Hne. cbn in Hne.
  destruct (select_cases Pending (c_cmd c)) as [(? & [=] & _)|[(_ & ? & _)|(_ & m & q & _ & Hs)]];
    [done|]. rewrite Hs in Hx. rewrite bind_Done in Hx. by destruct Hx as ([t'|] & _ & [= <- <-]).
Qed.

Lemma run_takes xs nd ls nd' :
  run_turns xs nd = Done (Some (ls, nd')) →
  (idle xs `min` length (waiting nd) ≤ length (took ls))%nat.
Proof.
  revert nd ls. induction xs as [|x xs IH]; intros nd ls; [cbn; lia|].
  intros (l & nd1 & ls' & H1%turn_takes & H2%IH & ->)%run_turns_cons.
  destruct H1 as [H1 H3]. rewrite took_cons, length_app.
  destruct x as [k|s|[e|]]; cbn [idle]; [lia..|].
  destruct (decide (waiting nd = [])) as [Hnil|Hnil]; [rewrite Hnil; cbn; lia|].
  specialize (H3 eq_refl Hnil). lia.
Qed.

(** ** Reply channels *)

(** Where the sending ends of reply channels are: used up or held by a running query of
    the task, or still in the queue. *)
Definition places (nd : Node) : list Oneshot :=
  all_tx (net (task nd)) ++ (waiting nd ≫= cmd_tx).

(** Each at one place, none from the future, and both sides agree on what exists. *)
Definition tx_inv (nd : Node) : Prop :=
  NoDup (places nd) ∧ Forall (λ tx, tx < c_oneshots (client nd))%nat (places nd) ∧
  oneshots (net (task nd)) = c_oneshots (client nd).

(** Answers are not taken back, and what is with the task stays with it. *)
Definition grows (n n' : Net) : Prop := logged n n' ∧ all_tx n ⊆ all_tx n'.

#[local] Instance grows_preorder : PreOrder grows.
Proof.
  split; unfold grows, logged; [intros n; by split|].
  intros n1 n2 n3 [] []. split; by etrans.
Qed.

Lemma uses_grows n n' l : all_tx n' ≡ₚ l ++ all_tx n → logged n n' → grows n n'.
Proof. intros Hp Hl. split; [done|]. intros tx Htx. rewrite Hp. apply elem_of_app. by right. Qed.

Lemma same_grows n n' : queries n' = queries n → outbox n' = outbox n → grows n n'.
Proof. intros Hq Ho. apply (uses_grows _ _ []); [by rewrite (same_tx n n') | by apply same_logged]. Qed.

(** A turn keeps the channels where they are or moves them, and makes at most one. *)
Definition moves (nd nd' : Node) : Prop :=
  ∃ new, places nd' ≡ₚ new ++ places nd ∧ oneshots (net (task nd')) = c_oneshots (client nd') ∧
    ((new = [] ∧ (c_oneshots (client nd) ≤ c_oneshots (client nd'))%nat) ∨
     (new = [c_oneshots (client nd)] ∧ c_oneshots (client nd') = S (c_oneshots (client nd)))) ∧
    grows (net (task nd)) (net (task nd')).

Lemma moves_inv nd nd' : moves nd nd' → tx_inv nd → tx_inv nd' ∧ places nd ⊆ places nd'.
Proof.
  intros (new & Hp & Heq & Hnew & _) (Hnd & Hlt & _). rewrite Forall_forall in Hlt.
  split; [|intros tx Htx; rewrite Hp; apply elem_of_app; by right].
  unfold tx_inv. rewrite Hp. destruct Hnew as [[-> Hle]|[-> Hc]]; cbn; split_and!; try done.
  - apply Forall_forall. intros tx Htx%Hlt. lia.
  - constructor; [|done]. intros Hin%Hlt. lia.
  - rewrite Hc. constructor; [lia|]. apply Forall_forall. intros tx Htx%Hlt. lia.
Qed.

Lemma call_moves k c t :
  oneshots (net t) = c_oneshots c → moves (MkNode c t) (from_clients (do_call k c).2 t).
Proof.
  intros Heq. destruct (do_call_effect k c) as [Hle Hq]. destruct (do_call k c) as [w c']. cbn in *.
  unfold moves, places, waiting. cbn.
  destruct Hq as [[-> _]|(m & -> & Hm & Hw)].
  - exists []. split_and!; [done|done|by left|by apply same_grows].
  - exists (option_list w). split_and!; [|done| |by apply same_grows].
    + rewrite bind_app. cbn. rewrite Hm, app_nil_r, app_assoc.
      by rewrite (Permutation_app_comm (option_list w)).
    + destruct w as [rx|]; [right | by left]. destruct Hw as [-> Hw]. by split.
Qed.

Lemma swarm_moves e c t t' :
  oneshots (net t) = c_oneshots c → handle_swarm_event e t = Done t' →
  moves (MkNode c t) (from_task (c_cmd c) c t').
Proof.
  intros Heq (Hp & Ho & Hl)%swarm_event_uses. exists []. unfold places, waiting. cbn.
  split_and!; [|done|left; split; [done|lia]|by eapply uses_grows]. by rewrite Hp.
Qed.

Lemma command_moves m q c t t' :
  oneshots (net t) = c_oneshots c → pending (c_cmd c) = m :: pending q →
  handle_command m t = Done t' → moves (MkNode c t) (from_task q c t').
Proof.
  intros Heq Hq (Hp & Ho & Hl)%command_uses. unfold moves, places, waiting, queued. cbn.
  exists (match m with Get _ _ _ => [oneshots (net t)] | _ => [] end).
  split_and!; [|done| |by eapply uses_grows].
  - rewrite Hq, Hp. unfold introduced. cbn. rewrite (Permutation_app_comm (cmd_tx m)), <- !app_assoc. apply Permutation_app_head.
    rewrite !app_assoc. apply Permutation_app_tail, Permutation_app_comm.
  - rewrite Ho, Heq. destruct m; cbn; auto with lia.
Qed.

Lemma turn_moves x nd l nd' :
  oneshots (net (task nd)) = c_oneshots (client nd) →
  turn_step x nd = Done (Some (l, nd')) → moves nd nd'.
Proof.
  destruct nd as [c t]. cbn [task client]. intros Heq.
  destruct x as [k|s|p]; cbn [turn_step].
  - pose proof (call_moves k c t Heq) as H. destruct (do_call k c) as [w c'].
    by intros [= <- <-].
  - intros [= <- <-]. exists []. split_and!; [done|done|by left|by apply same_grows].
  - destruct (select_cases p (c_cmd c)) as [(e & _ & ->)|[(_ & _ & ->)|(_ & m & q & Hq & ->)]].
    + rewrite bind_Done. intros ([t'|] & Hs & [= <- <-]). destruct e as [e|]; [|done]. cbn in Hs.
      destruct (handle_swarm_event e t) eqn:He; [|done]. simplify_eq/=. by eapply swarm_moves.
    + intros [= <- <-]. exists []. split_and!; [done|done|by left|by apply same_grows].
    + rewrite bind_Done. intros ([t'|] & Hs & [= <- <-]). cbn in Hs.
      destruct (handle_command m t) eqn:He; [|done]. simplify_eq/=. by eapply command_moves.
Qed.

Lemma run_moves xs nd ls nd' :
  tx_inv nd → run_turns xs nd = Done (Some (ls, nd')) →
  tx_inv nd' ∧ places nd ⊆ places nd' ∧ grows (net (task nd)) (net (task nd')).
Proof.
  revert nd ls. induction xs as [|x xs IH]; intros nd ls Hinv.
  { by intros [= <- <-]. }
  intros (l & nd1 & ls' & H1 & H2 & ->)%run_turns_cons.
  pose proof (turn_moves _ _ _ _ (proj2 (proj2 Hinv)) H1) as Hm.
  destruct (moves_inv _ _ Hm Hinv) as [Hinv1 Hp1]. destruct Hm as (_ & _ & _ & _ & Hl1).
  apply IH in H2 as (Hinv2 & Hp2 & Hl2); [|done].
  split_and!; [done|by etrans..].
Qed.

(** ** Answers *)

(** The reply channel of a command that is answered when it is handled. *)
Definition immediate (m : NetworkCommand) : option Oneshot :=
  match m with
  | Subscribe _ tx | Publish _ _ tx | CmdBroadcast _ _ tx | Get _ _ tx | Sync _ _ _ tx
  | CmdSwarmEvents tx => Some tx
  | _ => None
  end.

Lemma send_last tx r n : Answered tx r ∈ outbox (send tx r n).
Proof. cbn. apply elem_of_app. right. by left. Qed.

Lemma immediate_answered m tx t t' :
  immediate m = Some tx → handle_command m t = Done t' →
  ∃ r, Answered tx r ∈ outbox (net t').
Proof.
  assert (∀ f, (∀ n n', f n = Done n' → ∃ r n0, n' = send tx r n0) → on_net_o f t = Done t' →
    ∃ r, Answered tx r ∈ outbox (net t')) as Ho.
  { intros f Hf. unfold on_net_o. rewrite bind_Done. intros (n & Hn & [= <-]).
    apply Hf in Hn as (r & n0 & ->). exists r. apply send_last. }
  assert (∀ f, (∀ n, ∃ r n0, f n = send tx r n0) → on_net f t = Done t' →
    ∃ r, Answered tx r ∈ outbox (net t')) as Hn.
  { intros f Hf. apply (Ho (λ n, Done (f n))). intros n n' [= <-]. apply Hf. }
  destruct m; intros [= ->]; cbn [handle_command]; try (apply Hn; intros n); try apply Ho.
  1-3: unfold reply_with; case_match; by eauto.
  3: destruct (new_event_stream n); by eauto.
  all: intros n n'; rewrite bind_Done; intros ([[rx id] n0] & _ & [= <-]); by eauto.
Qed.

(** Every command the task took was handled. *)
Lemma took_handled x nd l nd' m :
  turn_step x nd = Done (Some (l, nd')) → m ∈ took [l] →
  handle_command m (task nd) = Done (task nd').
Proof.
  destruct nd as [c t]. destruct x as [k|s|p]; cbn [turn_step task].
  - pose proof (do_call_effect k c) as Hc. destruct (do_call k c) as [w c']. intros [= <- <-].
    cbn [fst snd] in Hc. apply added_spec in Hc as [_ ->]. by intros ?%not_elem_of_nil.
  - intros [= <- <-] []%not_elem_of_nil.
  - destruct (select_cases p (c_cmd c)) as [(e & _ & ->)|[(_ & _ & ->)|(_ & m' & q & Hq & ->)]].
    + rewrite bind_Done. intros ([t'|] & _ & [= <- <-]) []%not_elem_of_nil.
    + intros [= <- <-] []%not_elem_of_nil.
    + rewrite bind_Done. intros ([t'|] & Hs & [= <- <-]) ->%list_elem_of_singleton.
      cbn in Hs. destruct (handle_command m' t); [|done]. by simplify_eq/=.
Qed.

Lemma run_answers xs nd ls nd' m tx :
  tx_inv nd → run_turns xs nd = Done (Some (ls, nd')) → m ∈ took ls → immediate m = Some tx →
  ∃ r, Answered tx r ∈ outbox (net (task nd')).
Proof.
  revert nd ls. induction xs as [|x xs IH]; intros nd ls Hinv.
  { intros [= <- <-] []%not_elem_of_nil. }
  intros (l & nd1 & ls' & H1 & H2 & ->)%run_turns_cons Hm Himm. rewrite took_cons in Hm.
  pose proof (turn_moves _ _ _ _ (proj2 (proj2 Hinv)) H1) as [Hinv1 _]%moves_inv; [|done].
  apply elem_of_app in Hm as [Hm|Hm]; [|by eauto].
  eapply took_handled in H1; [|done]. eapply immediate_answered in H1 as [r Hr]; [|done].
  exists r. apply run_moves in H2 as (_ & _ & [[new ->] _]); [|done]. apply elem_of_app. by left.
Qed.

(** What came with a command the task took is with the task. *)
Lemma run_took_tx xs nd ls nd' m tx :
  tx_inv nd → run_turns xs nd = Done (Some (ls, nd')) → m ∈ took ls → tx ∈ cmd_tx m →
  tx ∈ all_tx (net (task nd')).
Proof.
  revert nd ls. induction xs as [|x xs IH]; intros nd ls Hinv.
  { intros [= <- <-] []%not_elem_of_nil. }
  intros (l & nd1 & ls' & H1 & H2 & ->)%run_turns_cons Hm Htx. rewrite took_cons in Hm.
  pose proof (turn_moves _ _ _ _ (proj2 (proj2 Hinv)) H1) as [Hinv1 _]%moves_inv; [|done].
  apply elem_of_app in Hm as [Hm|Hm]; [|by eauto].
  eapply took_handled, command_uses in H1 as (Hp & _); [|done].
  apply run_moves in H2 as (_ & _ & [_ Hg]); [|done]. apply Hg. rewrite Hp. unfold introduced.
  apply elem_of_app. left. apply elem_of_app. by left.
Qed.

(** A request is served once the task has been idle often enough. *)
Lemma call_served local k rx c1 nd xs :
  task_inv local true (task nd) → tx_inv nd → do_call k (client nd) = (Some rx, c1) →
  turns_ok xs (from_clients c1 (task nd)) → (length (waiting nd) < idle xs)%nat →
  ∃ m ls nd', run_turns xs (from_clients c1 (task nd)) = Done (Some (ls, nd')) ∧
    queued c1 = waiting nd ++ [m] ∧ cmd_tx m = [rx] ∧
    took ls !! length (waiting nd) = Some m ∧ rx ∈ all_tx (net (task nd')) ∧
    (is_Some (immediate m) → ∃ r, Answered rx r ∈ outbox (net (task nd'))).
Proof.
  intros Hinv Htx Hcall Hok Hlen. destruct nd as [c t]. cbn [task client] in *.
  destruct (do_call_effect k c) as [_ Hq]. rewrite Hcall in Hq. cbn in Hq.
  destruct Hq as [[_ ?]|(m & Hq & Hm & _)]; [done|]. exists m.
  assert (moves (MkNode c t) (from_clients c1 t)) as Hmv.
  { pose proof (call_moves k c t (proj2 (proj2 Htx))) as H. by rewrite Hcall in H. }
  destruct (moves_inv _ _ Hmv Htx) as [Htx1 _].
  destruct (run_progress local xs (from_clients c1 t)) as (ls & nd' & Hrun & _); [done..|].
  pose proof (run_fifo _ _ _ _ Hrun) as Hf. pose proof (run_takes _ _ _ _ Hrun) as Ht.
  destruct (run_moves _ _ _ _ Htx1 Hrun) as ((Hnd & _) & Hp & _).
  exists ls, nd'. unfold waiting in *. cbn [client from_clients] in *. rewrite Hq in *.
  rewrite length_app in Ht. cbn in Ht.
  assert (took ls !! length (queued c) = Some m) as Hm'.
  { rewrite <- (lookup_app_l _ (queued (client nd'))) by lia. rewrite Hf, <- app_assoc.
    rewrite lookup_app_r by done. by rewrite Nat.sub_diag. }
  split_and!; [done..| |].
  - apply list_elem_of_lookup_2 in Hm'. eapply run_took_tx; eauto. rewrite Hm. by left.
  - intros [tx Himm]. assert (tx = rx) as ->; [by destruct m; cbn in *; simplify_eq|].
    eapply run_answers; [exact Htx1|exact Hrun| |done]. by eapply list_elem_of_lookup_2.
Qed.
End coupled.

(** ** From the start of the network on *)
Section started.
Context `{L : Libp2p, I : Ipld, N : !Protocols, CE : !Channels Event,
          CG : !Channels GossipEvent, CS : !Channels SyncEvent,
          CL : !Channels ListenerEvent, W : !SwarmOps, CC : !Bounded NetworkCommand,
          S : !Setup, T : !Transports, RT : Runtime,
          F : !Fmt, E : Environment, O : HashOrder, P : Profile}.

(** A new network: no reply channel exists, nothing is queued, and the task is sound. *)
Lemma new_node config ex w g s l r ns t r' :
  NetworkService_new config ex w g s l r = Done (Ok (ns, t), r') →
  waiting (MkNode (ns_client ns) t) = [] ∧ tx_inv (MkNode (ns_client ns) t) ∧
  (is_Some (nc_bitswap config) → task_inv (svc_local_peer_id ns) true t).
Proof.
  intros (bh & tcp & tr & Hb & _ & _ & -> & _ & ->)%NetworkService_new_Ok.
  destruct (Behaviour_new_Ok _ _ Hb) as (Hp & _ & Hbs & _).
  assert (pending (bounded_new 100) = ([] : list NetworkCommand)) as Hq by apply pending_new.
  unfold tx_inv, places, waiting, queued, all_tx, consumed, held. cbn. rewrite Hq.
  rewrite map_to_list_empty. split_and!; [done|constructor|constructor|done|].
  intros Hc. unfold task_inv. cbn. rewrite Hp. split_and!; [|done|].
  - apply (fresh_wf (to_peer_id (public (nc_node_key config))) (nc_port_reuse config)
      (nc_enable_loopback config) (nc_keep_alive config)).
  - by rewrite Hbs, fmap_is_Some.
Qed.

Lemma run_task_inv local xs nd ls nd' :
  task_inv local true (task nd) → turns_ok xs nd → run_turns xs nd = Done (Some (ls, nd')) →
  task_inv local true (task nd').
Proof.
  intros Hinv Hok Hrun. destruct (run_progress local xs nd Hinv Hok) as (ls' & nd2 & H2 & Hinv2).
  rewrite Hrun in H2. by simplify_eq.
Qed.
End started.

(** C19: in every interleaving of client calls and swarm task turns from the start of a
    network, commands are handled in exactly the order in which they were accepted - those
    taken so far followed by those in the queue are those accepted - and the sending end of
    every reply channel is at exactly one place: in the queue, held by a running query, or
    used up, once. *)
Theorem interleaving_linear `{L : Libp2p, I : Ipld, N : !Protocols, CE : !Channels Event,
    CG : !Channels GossipEvent, CS : !Channels SyncEvent, CL : !Channels ListenerEvent,
    W : !SwarmOps, CC : !Bounded NetworkCommand, S : !Setup, T : !Transports, RT : Runtime,
    F : !Fmt, E : Environment, O : HashOrder, P : Profile}
    config ex w g s l r ns t r' xs ls (nd : Node) :
  NetworkService_new config ex w g s l r = Done (Ok (ns, t), r') →
  run_turns xs (MkNode (ns_client ns) t) = Done (Some (ls, nd)) →
  took ls ++ waiting nd = accepted ls ∧
  NoDup (consumed (net (task nd)) ++ held (net (task nd)) ++ (waiting nd ≫= cmd_tx)) ∧
  ∀ m tx, m ∈ accepted ls → tx ∈ cmd_tx m →
    tx ∈ consumed (net (task nd)) ++ held (net (task nd)) ++ (waiting nd ≫= cmd_tx).
Proof.
  intros (Hq & Htx & _)%new_node Hrun. pose proof (run_fifo _ _ _ _ Hrun) as Hf.
  rewrite Hq in Hf. rewrite app_assoc. split_and!; [exact Hf| |].
  - by destruct (run_moves _ _ _ _ Htx Hrun) as ((Hnd & _) & _).
  - intros m tx Hm Hin. rewrite <- (app_nil_l (accepted ls)), <- Hf in Hm.
    apply elem_of_app. apply elem_of_app in Hm as [Hm|Hm].
    + left. by eapply run_took_tx.
    + right. apply list_elem_of_bind. by exists m.
Qed.

(** C20: a request is served.  After any history of a network with bitswap, let a client
    make a call that gives it a reply channel.  Then whatever the clients, the swarm and
    the address book do next - as long as the swarm does not end and none of its events,
    before or after the call, is one that makes the task panic: a broadcast message whose
    topic is not UTF-8 or a ping that overflows the round-trip record of its peer - the task
    goes on; and as soon as the swarm was idle once more often than there were commands
    queued before, the command has been handled, right after those: its reply channel was
    used up or is held by a running query, and calls that are answered at once have their
    answer. *)
Theorem request_served `{L : Libp2p, I : Ipld, N : !Protocols, CE : !Channels Event,
    CG : !Channels GossipEvent, CS : !Channels SyncEvent, CL : !Channels ListenerEvent,
    W : !SwarmOps, CC : !Bounded NetworkCommand, S : !Setup, T : !Transports, RT : Runtime,
    F : !Fmt, E : Environment, O : HashOrder, P : Profile}
    config ex w g s l r ns t r' ys ls0 (nd : Node) k rx c1 xs :
  NetworkService_new config ex w g s l r = Done (Ok (ns, t), r') →
  is_Some (nc_bitswap config) →
  turns_ok ys (MkNode (ns_client ns) t) →
  run_turns ys (MkNode (ns_client ns) t) = Done (Some (ls0, nd)) →
  do_call k (client nd) = (Some rx, c1) →
  turns_ok xs (from_clients c1 (task nd)) → (length (waiting nd) < idle xs)%nat →
  ∃ m ls nd', run_turns xs (from_clients c1 (task nd)) = Done (Some (ls, nd')) ∧
    queued c1 = waiting nd ++ [m] ∧ cmd_tx m = [rx] ∧
    took ls !! length (waiting nd) = Some m ∧
    rx ∈ consumed (net (task nd')) ++ held (net (task nd')) ∧
    (is_Some (immediate m) → ∃ rep, Answered rx rep ∈ outbox (net (task nd'))).
Proof.
  intros (_ & Htx & Hinv)%new_node Hb Hys Hrun Hcall Hxs Hlen.
  eapply call_served; [|by eapply run_moves|exact Hcall|exact Hxs|exact Hlen].
  apply (run_task_inv (svc_local_peer_id ns) ys (MkNode (ns_client ns) t) ls0); [by apply Hinv|done..].
Qed.

(** A new network is asked for a block, then for its events; then the swarm is idle
    twice. *)
Definition asks : list turn := [Calls (CallGet (5%N : Cid (Ipld := numbered)) [peer_b])].

Definition history0 : option (list turn_label * Node) :=
  match start0 with
  | Done (Ok (ns, t), _) =>
      match run_turns asks (MkNode (ns_client ns) t) with Done o => o | Panicked => None end
  | _ => None
  end.

Lemma history0_facts :
  ((λ x : list turn_label * Node, (length (waiting x.2), (do_call CallSwarmEvents (client x.2)).1))
     <$> history0) = Some (1%nat, Some 1%nat).
Proof. by vm_compute. Qed.

Lemma history0_start :
  ∃ ns t r' ls nd, start0 = Done (Ok (ns, t), r') ∧ history0 = Some (ls, nd) ∧
    run_turns asks (MkNode (ns_client ns) t) = Done (Some (ls, nd)) ∧
    length (waiting nd) = 1%nat ∧ (do_call CallSwarmEvents (client nd)).1 = Some 1%nat.
Proof.
  pose proof history0_facts as H. unfold history0 in *.
  destruct start0 as [[[[ns t]|e] r']|]; [|discriminate H..].
  destruct (run_turns asks _) as [[[ls nd]|]|] eqn:E; [|discriminate H..].
  injection H as H1 H2. by exists ns, t, r', ls, nd.
Qed.

Lemma interleaving_linear_witness :
  ∃ ns t r' ls nd, start0 = Done (Ok (ns, t), r') ∧
    run_turns asks (MkNode (ns_client ns) t) = Done (Some (ls, nd)) ∧
    took ls ++ waiting nd = accepted ls.
Proof.
  destruct history0_start as (ns & t & r' & ls & nd & Hs & _ & Hrun & _).
  exists ns, t, r', ls, nd. split_and!; [exact Hs | exact Hrun |].
  by apply (interleaving_linear _ _ _ _ _ _ _ ns t r' asks ls nd Hs Hrun).
Defined.

Lemma request_served_witness :
  ∃ c1 nd nd' ls m, do_call CallSwarmEvents (client nd) = (Some 1%nat, c1) ∧
    run_turns [Wakes Pending; Wakes Pending] (from_clients c1 (task nd)) = Done (Some (ls, nd')) ∧
    took ls !! 1%nat = Some m ∧ cmd_tx m = [1%nat].
Proof.
  destruct history0_start as (ns & t & r' & ls & nd & Hs & _ & Hrun & Hlen & Hcall).
  destruct (do_call CallSwarmEvents (client nd)) as [w c1] eqn:Ec. cbn [fst] in Hcall. subst w.
  destruct (request_served _ _ _ _ _ _ _ ns t r' asks ls nd CallSwarmEvents 1%nat c1
    [Wakes Pending; Wakes Pending] Hs) as (m & ls' & nd' & H1 & _ & H3 & H4 & _).
  - by eexists.
  - by split.
  - exact Hrun.
  - exact Ec.
  - by split_and!; [|intros l n _; split].
  - rewrite Hlen. cbn. lia.
  - rewrite Hlen in H4. by exists c1, nd, nd', ls', m.
Defined.
