(* ===== verification/Tables.v ===== *)
(** * The tables of the swarm task are well typed

    The two tables that [poll_swarm] ([src/net/mod.rs]) owns and that
    [src/net/behaviour.rs] updates: running queries and topic subscriptions.  A query of
    bitswap is registered with a channel for a block or a sync, a query of Kademlia with a
    channel for one of its results, and every topic has subscribers on existing channels,
    from the start of the network on and after every input. *)

From S2P Require Import Prelude Libp2p Duration PeerInfo Executor AddressHandler Channel Peers.
From S2P Require Import PeersReach Ipld Utf8 Behaviour Network NetworkService NetToy Config.
From S2P Require Import Topics NetworkNew.

Open Scope Z_scope.

Section tables.
Context `{L : Libp2p, I : Ipld, N : !Protocols, CE : !Channels Event,
          CG : !Channels GossipEvent, CS : !Channels SyncEvent,
          CL : !Channels ListenerEvent, W : !SwarmOps,
          F : !Fmt, E : Environment, O : HashOrder, P : Profile}.
Implicit Types (n : Net) (t : Task).

(** The channels a query of either sub-protocol may have. *)
Definition channel_typed (q : QueryId) (ch : QueryChannel) : bool :=
  match q, ch with
  | QBitswap _, (ChGet _ | ChSync _) => true
  | QKad _, (ChBootstrap _ | ChGetProviders _ | ChStartProviding _ | ChGetRecord _ |
             ChPutRecord _) => true
  | _, _ => false
  end.

Definition queries_typed (m : gmap QueryId QueryChannel) : Prop :=
  map_Forall (λ q ch, channel_typed q ch = true) m.

Record tables_typed n : Prop := {
  tt_queries : queries_typed (queries n);
  tt_topics : topics_wf n;
}.

(** A step that keeps the types. *)
Definition typed n n' : Prop := tables_typed n → tables_typed n'.

#[local] Instance typed_preorder : PreOrder typed.
Proof. unfold typed. split; [by intros n H|]. intros ???. auto. Qed.

(** Nothing but the tables and the gossip channels matters. *)
Definition same_tables n n' : Prop :=
  queries n' = queries n ∧ subscriptions n' = subscriptions n ∧ gossip_chans n' = gossip_chans n.

#[local] Instance same_tables_preorder : PreOrder same_tables.
Proof. split; [by repeat split|]. intros ??? (?&?&?) (?&?&?). repeat split; congruence. Qed.

Lemma same_typed n n' : same_tables n n' → typed n n'.
Proof.
  intros (Hq & Hs & Hg) [H1 H2]. split; [by rewrite Hq|].
  intros topic txs. rewrite Hs, Hg. apply H2.
Qed.

Lemma drop_channel_tables ch n : same_tables n (drop_channel ch n).
Proof. by destruct ch. Qed.

Lemma insert_query_typed q ch n : channel_typed q ch = true → typed n (insert_query q ch n).
Proof.
  intros Hc. transitivity (set_queries <[q := ch]> n).
  - intros [H1 H2]. split; [|done]. by apply map_Forall_insert_2.
  - apply same_typed. unfold insert_query. case_match; [apply drop_channel_tables | done].
Qed.

Lemma delete_query_typed q n : typed n (set_queries (delete q) n).
Proof. intros [H1 H2]. split; [|done]. by apply map_Forall_delete. Qed.

Lemma finish_typed q want r n : typed n (finish q want r n).
Proof.
  unfold finish. destruct (queries n !! q) as [ch|]; [|done].
  etrans; [apply (delete_query_typed q)|]. apply same_typed.
  case_match; [done | apply drop_channel_tables].
Qed.

Lemma notify_subscribers_typed topic e n : typed n (notify_subscribers topic e n).
Proof.
  intros [H1 H2]. split; [|by apply notify_subscribers_wf].
  unfold notify_subscribers, unsubscribe. destruct (subscriptions n !! topic); [|done].
  destruct (send_retain _ _ _) as [txs c]. by repeat case_match.
Qed.

(** A rejected subscription still leaves a well-formed entry. *)
Lemma subscribe_Err_inv topic n e n' :
  subscribe topic n = (Err e, n') →
  n' = n ∨
  subscriptions n !! topic = None ∧
  subscriptions n' = <[topic := [(unbounded (gossip_chans n)).1]]> (subscriptions n) ∧
  gossip_chans n' = drop_rx (unbounded (gossip_chans n)).1 (unbounded (gossip_chans n)).2.
Proof.
  unfold subscribe. destruct (unbounded (gossip_chans n)) as [tx c]. cbn.
  destruct (subscriptions n !! topic) as [txs|] eqn:Ht; cbn; rewrite ?Ht;
    repeat (case_match; simplify_eq/=); intros; simplify_eq/=; rewrite ?ident_hash_id; auto.
Qed.

Lemma subscribe_topics topic n : topics_wf n → topics_wf (subscribe topic n).2.
Proof.
  intros H2. destruct (subscribe topic n) as [[rx|e] n'] eqn:Hs; cbn.
  { by eapply subscribe_wf. }
  apply subscribe_Err_inv in Hs as [->|(_ & Hs & Hg)]; [done|]. intros topic' txs. rewrite Hs, Hg.
  rewrite lookup_insert. case_decide.
  - intros [= <-]. split_and!; [done|by apply NoDup_singleton|].
    constructor; [|constructor]. apply drop_rx_created, unbounded_created. by left.
  - intros Hx. destruct (H2 _ _ Hx) as (? & ? & Hall). split_and!; [done..|].
    eapply Forall_impl; [exact Hall|]. intros d Hd. apply drop_rx_created, unbounded_created.
    by right.
Qed.

Lemma subscribe_typed topic n : typed n (subscribe topic n).2.
Proof.
  intros [H1 H2]. split; [|by apply subscribe_topics].
  assert (queries (subscribe topic n).2 = queries n) as ->; [|done].
  unfold subscribe. destruct (unbounded _) as [tx c]. by repeat (case_match; simplify_eq/=).
Qed.

Lemma on_book_tables f n n' : on_book f n = Done n' → same_tables n n'.
Proof. unfold on_book. rewrite bind_Done. by intros (s & _ & [= <-]). Qed.

Lemma add_address_tables p a src n n' : net_add_address p a src n = Done n' → same_tables n n'.
Proof.
  unfold net_add_address. intros Hn%on_book_tables. etrans; [|exact Hn]. by destruct (kad n).
Qed.

Lemma fold_tables {A} (f : Net → A → outcome Net) l n n' :
  (∀ n x n', f n x = Done n' → same_tables n n') → foldM f l n = Done n' → same_tables n n'.
Proof.
  intros Hf. revert n. induction l as [|x l IH]; intros n; cbn; [by intros [= <-]|].
  rewrite bind_Done. intros (n1 & H1%Hf & H2%IH). by etrans.
Qed.

Lemma kad_event_typed e n : typed n (inject_kad_event e n).
Proof.
  destruct e as [id r|]; [|done].
  destruct r as [[x|x]|[x|x]|[x|x]|[x|x]|[x|x]|[x|x]|[x|x]|[x|x]]; cbn [inject_kad_event];
    try done; try apply finish_typed.
  case_bool_decide; [|done].
  transitivity (finish (QKad id) as_bootstrap (RepUnit (Ok ())) (set_bootstrapped true n));
    [|by apply same_typed].
  transitivity (set_bootstrapped true n); [by apply same_typed | apply finish_typed].
Qed.

Lemma bitswap_event_typed e n : typed n (inject_bitswap_event e n).
Proof.
  destruct e as [id m|id r]; cbn.
  - apply same_typed. by repeat case_match.
  - destruct (queries n !! QBitswap id) as [ch|]; [|done].
    etrans; [apply (delete_query_typed (QBitswap id))|]. apply same_typed. by destruct ch.
Qed.

Lemma on_net_typed f t t' : (∀ n, typed n (f n)) → on_net f t = Done t' → typed (net t) (net t').
Proof. intros Hf [= <-]. apply Hf. Qed.

Lemma on_net_o_typed f t t' :
  (∀ n n', f n = Done n' → typed n n') → on_net_o f t = Done t' → typed (net t) (net t').
Proof. intros Hf. unfold on_net_o. rewrite bind_Done. intros (n & H%Hf & [= <-]). exact H. Qed.

Lemma swarm_event_typed e t t' : handle_swarm_event e t = Done t' → typed (net t) (net t').
Proof.
  destruct e as [p cp num cause|[e|e|p r|e|e|e|e]|]; cbn [handle_swarm_event];
    try (apply on_net_typed; intros n); try (apply on_net_o_typed; intros n n' H).
  - by apply same_typed.
  - apply kad_event_typed.
  - apply same_typed. destruct e as [found|]; cbn in H; [|by simplify_eq].
    eapply fold_tables; [|exact H]. intros n0 [p a] n1. apply add_address_tables.
  - apply same_typed. destruct r; cbn in H; simplify_eq; by eauto using on_book_tables.
  - apply same_typed. destruct e; cbn in H; simplify_eq; by eauto using on_book_tables.
  - apply bitswap_event_typed.
  - destruct e; cbn; try done; (etrans; [|apply notify_subscribers_typed]; by apply same_typed).
  - destruct e; cbn in H; rewrite ?bind_Done in H.
    + destruct H as (? & _ & [= <-]). apply notify_subscribers_typed.
    + case_match; simplify_eq; [|done]. etrans; [|apply notify_subscribers_typed]. by apply same_typed.
    + case_match; simplify_eq; [|done]. etrans; [|apply notify_subscribers_typed]. by apply same_typed.
  - by intros [= <-].
Qed.

(** Commands that may register a query of Kademlia. *)
Lemma dht_typed tx n :
  typed n (net_bootstrap tx n) ∧
  (∀ key b, typed n (providers key b tx n)) ∧ (∀ key b, typed n (provide key b tx n)) ∧
  (∀ key q b, typed n (get_record key q b tx n)) ∧ (∀ rec q b, typed n (put_record rec q b tx n)).
Proof.
  split_and!; intros; unfold net_bootstrap, providers, provide, get_record, put_record;
    repeat (case_match; simplify_eq/=); try (by apply same_typed);
    (etrans; [|by apply insert_query_typed]); by apply same_typed.
Qed.

Lemma net_get_typed cid provs n rx id n' :
  net_get cid provs n = Done (rx, id, n') → typed n n'.
Proof.
  unfold net_get. rewrite bind_Done. intros (b & _ & H). cbn [oneshot_channel] in H.
  destruct (bitswap_get _ _ b) as [i b']. injection H as <- <- <-.
  etrans; [|by apply insert_query_typed]. by apply same_typed.
Qed.

Lemma net_sync_typed cid provs missing n rx id n' :
  net_sync cid provs missing n = Done (rx, id, n') → typed n n'.
Proof.
  unfold net_sync. rewrite bind_Done. intros (b & _ & H). destruct (unbounded _) as [tx c].
  destruct (bitswap_sync _ _ _ b) as [i b']. injection H as <- <- <-.
  etrans; [|by apply insert_query_typed]. by apply same_typed.
Qed.

Lemma cancel_typed id n n' : cancel id n = Done n' → typed n n'.
Proof.
  unfold cancel. set (n1 := match queries n !! id with Some ch => _ | None => n end).
  assert (typed n n1) as Hd.
  { unfold n1. destruct (queries n !! id) as [ch|]; [|done].
    etrans; [apply (delete_query_typed id)|]. apply same_typed, drop_channel_tables. }
  destruct id as [i|i]; [|by intros [= <-]]. rewrite bind_Done. intros (b & _ & [= <-]).
  etrans; [exact Hd|]. by apply same_typed.
Qed.

Lemma listen_on_tables addr r t : same_tables (net t) (net (handle_listen_on addr r t)).
Proof.
  unfold handle_listen_on, new_event_stream. destruct (unbounded _).
  by destruct (swarm_listen_on _ _) as [[?|?] ?].
Qed.

Lemma command_typed c t t' : handle_command c t = Done t' → typed (net t) (net t').
Proof.
  destruct c; cbn [handle_command]; try (by intros [= <-]);
    try (apply on_net_typed; intros n; first [by apply same_typed | by apply dht_typed]).
  - intros [= <-]. apply same_typed, listen_on_tables.
  - apply on_net_o_typed. intros n n' H. eapply same_typed, add_address_tables, H.
  - apply on_net_typed. intros n. apply same_typed. unfold net_remove_address. by case_match.
  - apply on_net_o_typed. intros n n'. rewrite bind_Done. intros (n1 & H1 & [= <-]).
    etrans; [|apply dht_typed]. apply same_typed. eapply fold_tables; [|exact H1].
    intros n0 [p a] n2. unfold bootstrap_peer. rewrite bind_Done.
    intros (n3 & H3%add_address_tables & [= <-]). etrans; [exact H3|done].
  - apply on_net_typed. intros n. apply same_typed. unfold unprovide. by case_match.
  - apply on_net_typed. intros n. apply same_typed. unfold remove_record. by case_match.
  - apply on_net_typed. intros n. unfold reply_with. pose proof (subscribe_typed topic n) as Hs.
    destruct (subscribe topic n) as [r n1]. etrans; [exact Hs|]. by apply same_typed.
  - apply on_net_typed. intros n. apply same_typed. unfold reply_with, publish.
    by repeat (case_match; simplify_eq/=).
  - apply on_net_typed. intros n. apply same_typed. unfold reply_with, net_broadcast.
    by repeat (case_match; simplify_eq/=).
  - apply on_net_o_typed. intros n n'. rewrite bind_Done. intros ([[rx id] n2] & H & [= <-]).
    etrans; [by eapply net_get_typed|]. by apply same_typed.
  - apply on_net_o_typed. intros n n'. rewrite bind_Done. intros ([[rx id] n2] & H & [= <-]).
    etrans; [by eapply net_sync_typed|]. by apply same_typed.
  - apply on_net_typed. intros n. apply same_typed. unfold new_event_stream.
    by destruct (unbounded _).
  - apply on_net_o_typed. intros n n'. apply cancel_typed.
Qed.

(** What happens to the tables: the task takes an input; everything else - the swarm,
    the sub-protocols, the receivers of messages - leaves them alone and loses no channel. *)
Inductive table_step : Task → Task → Prop :=
| table_input x t t' : poll_swarm_step x t = Done (Some t') → table_step t t'
| table_outside n t :
    queries n = queries (net t) → subscriptions n = subscriptions (net t) →
    (∀ d, created (gossip_chans (net t)) d → created (gossip_chans n) d) →
    table_step t (set_net n t).

Lemma table_step_typed t t' : table_step t t' → typed (net t) (net t').
Proof.
  destruct 1 as [x t t' Hx|n t Hq Hs Hc].
  - destruct x as [[e|]|[c|]]; cbn [poll_swarm_step] in Hx; try done.
    + destruct (handle_swarm_event e t) as [t1|] eqn:H1; cbn in Hx; simplify_eq.
      by eapply swarm_event_typed.
    + destruct (handle_command c t) as [t1|] eqn:H1; cbn in Hx; simplify_eq.
      by eapply command_typed.
  - intros [H1 H2]. split; cbn; [by rewrite Hq|]. intros topic txs. rewrite Hs. intros Hx.
    destruct (H2 _ _ Hx) as (? & ? & Hall). split_and!; [done..|].
    by eapply Forall_impl.
Qed.

Lemma table_run_typed t t' : rtc table_step t t' → typed (net t) (net t').
Proof. induction 1; [done|]. etrans; [by apply table_step_typed|done]. Qed.
End tables.

(** C15: the tables of a network are well typed from its start on.  After any sequence of
    events and commands, whatever the swarm and the receivers do in between, a query of
    bitswap is registered with a channel for a block or a sync and a query of Kademlia with
    a channel for a result of Kademlia - so that no result meets a channel it does not
    fit - and every registered topic has at least one subscriber, each listed once and on
    a channel that was created. *)
Theorem new_network_typed `{L : Libp2p, I : Ipld, N : !Protocols, CE : !Channels Event,
    CG : !Channels GossipEvent, CS : !Channels SyncEvent, CL : !Channels ListenerEvent,
    W : !SwarmOps, CC : !Bounded NetworkCommand, S : !Setup, T : !Transports, RT : Runtime,
    F : !Fmt, E : Environment, O : HashOrder, P : Profile}
    config ex w g s l r ns r' (t0 t : Task) :
  NetworkService_new config ex w g s l r = Done (Ok (ns, t0), r') → rtc table_step t0 t →
  map_Forall (λ q ch, channel_typed q ch = true) (queries (net t)) ∧
  ∀ topic txs, subscriptions (net t) !! topic = Some txs →
    txs ≠ [] ∧ NoDup txs ∧ Forall (created (gossip_chans (net t))) txs.
Proof.
  intros (bh & tcp & tr & _ & _ & _ & -> & _)%NetworkService_new_Ok Hrun.
  destruct (table_run_typed _ _ Hrun) as [H1 H2]; [|done].
  split; cbn; [apply map_Forall_empty|]. intros topic txs Ht. cbn in Ht.
  by rewrite lookup_empty in Ht.
Qed.

(** A topic is subscribed to and a block is asked for. *)
Definition inputs1 : list input := [InCommand (Some (Subscribe "t" 7%nat)); get_input].

Lemma poll_swarm_steps xs (t t' : Task) : poll_swarm xs t = Done (Some t') → rtc table_step t t'.
Proof.
  revert t. induction xs as [|x xs IH]; intros t; cbn [poll_swarm]; [by intros [= <-]|].
  rewrite bind_Done. intros ([t1|] & Hx & Hr); [|done].
  eapply rtc_l; [by eapply table_input | by apply IH].
Qed.

Lemma new_network_typed_witness :
  ∃ ns t0 r' t, start0 = Done (Ok (ns, t0), r') ∧ poll_swarm inputs1 t0 = Done (Some t) ∧
    map_Forall (λ q ch, channel_typed q ch = true) (queries (net t)).
Proof.
  pose proof start0_started as Hst.
  destruct start0 as [[[[ns t0]|e] r']|] eqn:E; [|discriminate..].
  destruct (poll_swarm inputs1 t0) as [[t|]|] eqn:Hp.
  - exists ns, t0, r', t. split_and!; [done..|].
    apply (new_network_typed (CG := queues _) (CS := queues _) (CC := toy_bounded _)
      (T := toy_transports) config0 AsyncGlobal world0 ∅ ∅ listen0 rt0 ns r' t0 t E).
    by eapply poll_swarm_steps.
  - exfalso. apply (f_equal (λ o, match o with Done (Ok (_, t), _) => going (poll_swarm inputs1 t) | _ => true end)) in E.
    rewrite Hp in E. by vm_compute in E.
  - exfalso. apply (f_equal (λ o, match o with Done (Ok (_, t), _) => going (poll_swarm inputs1 t) | _ => true end)) in E.
    rewrite Hp in E. by vm_compute in E.
Defined.
