(* ===== verification/Streams.v ===== *)
(** * The streams of subscriptions

    What the receiver returned by [subscribe] ([src/net/mod.rs], [src/net/behaviour.rs])
    yields over the whole life of a subscription: exactly what gossipsub and broadcast
    report on its topic, in order and once, whatever else the swarm task does. *)

From S2P Require Import Prelude Libp2p Duration PeerInfo Executor AddressHandler Channel Peers.
From S2P Require Import PeersReach Ipld Utf8 Behaviour Network NetworkService NetToy Config.
From S2P Require Import Topics NetworkNew Tables.

Open Scope Z_scope.

Section streams.
Context `{L : Libp2p, I : Ipld, N : !Protocols, CE : !Channels Event,
          CG : !Channels GossipEvent, CS : !Channels SyncEvent,
          CL : !Channels ListenerEvent, W : !SwarmOps,
          F : !Fmt, E : Environment, O : HashOrder, P : Profile}.
Implicit Types (n : Net) (t : Task) (topic : string) (rx : sender GossipEvent).

(** ** The specification *)

(** What an input says about a topic.  Both protocols report on the same topics; a topic
    of broadcast that is no text is nobody's. *)
Definition said (x : input) : option (string * GossipEvent) :=
  match x with
  | InSwarm (Some (SwBehaviour (EvGossipsub e))) =>
      match e with
      | GsMessage topic source propagation_source data =>
          Some (topic, GMessage (default propagation_source source) data)
      | GsSubscribed p topic => Some (topic, GSubscribed p)
      | GsUnsubscribed p topic => Some (topic, GUnsubscribed p)
      | GsNotSupported => None
      end
  | InSwarm (Some (SwBehaviour (EvBroadcast e))) =>
      match e with
      | BcReceived p topic data => (λ s, (s, GMessage p data)) <$> from_utf8 (topic_bytes topic)
      | BcSubscribed p topic => (λ s, (s, GSubscribed p)) <$> from_utf8 (topic_bytes topic)
      | BcUnsubscribed p topic => (λ s, (s, GUnsubscribed p)) <$> from_utf8 (topic_bytes topic)
      end
  | _ => None
  end.

Definition on_topic topic (x : option (string * GossipEvent)) : list GossipEvent :=
  match x with
  | Some (topic', e) => if bool_decide (topic' = topic) then [e] else []
  | None => []
  end.

Definition heard topic (xs : list input) : list GossipEvent := xs ≫= (λ x, on_topic topic (said x)).

(** ** One subscriber *)

(** [rx] is the live receiver of a subscription to [topic], and of no other. *)
Record subscribed_rx topic rx n : Prop := {
  ls_wf : topics_wf n;
  ls_in : rx ∈ default [] (subscriptions n !! topic);
  ls_alive : rx_alive (gossip_chans n) rx = true;
  ls_only topic' : topic' ≠ topic → rx ∉ default [] (subscriptions n !! topic');
}.

Definition stream n rx : list GossipEvent := queue (gossip_chans n) rx.

(** The subscription goes on, and its stream got [es]. *)
Definition hears topic rx n n' (es : list GossipEvent) : Prop :=
  subscribed_rx topic rx n → subscribed_rx topic rx n' ∧ stream n' rx = stream n rx ++ es.

(** Steps that concern no topic. *)
Definition same_topics n n' : Prop :=
  subscriptions n' = subscriptions n ∧ gossip_chans n' = gossip_chans n.

#[local] Instance same_topics_preorder : PreOrder same_topics.
Proof. split; [by repeat split|]. intros ??? (?&?) (?&?). repeat split; congruence. Qed.

Lemma tables_topics n n' : same_tables n n' → same_topics n n'.
Proof. by intros (_ & ? & ?). Qed.

Lemma same_hears topic rx n n' : same_topics n n' → hears topic rx n n' [].
Proof.
  intros [Hs Hg] [H1 H2 H3 H4]. unfold stream. rewrite Hg, app_nil_r. split; [|done].
  split; rewrite ?Hs, ?Hg; try done. intros top txs. rewrite Hs, Hg. apply H1.
Qed.

Lemma hears_after topic rx n n1 n2 es :
  same_topics n n1 → hears topic rx n1 n2 es → hears topic rx n n2 es.
Proof.
  intros Hs H Hl. destruct (same_hears topic rx _ _ Hs Hl) as [Hl1 Hq1]. rewrite app_nil_r in Hq1.
  destruct (H Hl1) as [Hl2 Hq2]. split; [done | congruence].
Qed.

Lemma hears_before topic rx n n1 n2 es :
  hears topic rx n n1 es → same_topics n1 n2 → hears topic rx n n2 es.
Proof.
  intros H Hs Hl. destruct (H Hl) as [Hl1 Hq1]. destruct (same_hears topic rx _ _ Hs Hl1) as [Hl2 Hq2].
  rewrite app_nil_r in Hq2. split; [done | congruence].
Qed.

Lemma subscribed_rx_live topic rx n : subscribed_rx topic rx n → rx ∈ live n topic.
Proof. intros [_ H2 H3 _]. unfold live. apply list_elem_of_filter. by split. Qed.

(** An event on a topic. *)
Lemma notify_hears topic rx topic' e n :
  hears topic rx n (notify_subscribers topic' e n) (on_topic topic (Some (topic', e))).
Proof.
  intros Hl. pose proof (subscribed_rx_live _ _ _ Hl) as Hlive. destruct Hl as [H1 H2 H3 H4].
  assert (∀ top, rx ∉ default [] (subscriptions n !! top) → rx ∉ live n top) as Hsub.
  { intros top Hn [_ Hin]%list_elem_of_filter. done. }
  split; [split|].
  - by apply notify_subscribers_wf.
  - rewrite notify_subscribers_lookup. by case_decide; subst.
  - by rewrite notify_subscribers_alive.
  - intros top Hne. rewrite notify_subscribers_lookup. case_decide; subst; auto.
  - unfold stream. rewrite notify_subscribers_queue by done. f_equal. cbn.
    destruct (decide (topic' = topic)) as [->|Hne].
    + by rewrite !bool_decide_true.
    + rewrite !bool_decide_false; auto.
Qed.

(** Somebody subscribes, to this topic or another. *)
Lemma subscribe_hears topic rx topic' n : hears topic rx n (subscribe topic' n).2 [].
Proof.
  intros [H1 H2 H3 H4]. set (tx := (unbounded (gossip_chans n)).1).
  assert (rx ≠ tx) as Hne.
  { intros ->. destruct (subscriptions n !! topic) as [txs|] eqn:Ht; cbn in H2;
      [|by apply not_elem_of_nil in H2].
    destruct (H1 _ _ Ht) as (_ & _ & Hc). rewrite Forall_forall in Hc.
    by apply (unbounded_fresh (gossip_chans n)), Hc. }
  unfold stream. rewrite app_nil_r. destruct (subscribe topic' n) as [[rx'|e] n'] eqn:Hs; cbn.
  - pose proof (subscribe_wf _ _ _ _ Hs H1) as Hwf.
    apply subscribe_inv in Hs as (-> & Hg & Hsub). rewrite Hg, unbounded_queue, decide_False by done.
    split; [|done]. split; [done| | |].
    + rewrite Hsub, lookup_insert. case_decide; [subst|done]. apply elem_of_app. by left.
    + by rewrite Hg, unbounded_alive, decide_False.
    + intros top Htop. rewrite Hsub, lookup_insert. case_decide; [subst|by apply H4].
      cbn. intros [?|Hx%list_elem_of_singleton]%elem_of_app; [by apply (H4 top)|done].
  - pose proof (subscribe_topics topic' n) as Hwf. rewrite Hs in Hwf.
    apply subscribe_Err_inv in Hs as [->|(Hno & Hsub & Hg)]; [done|].
    rewrite Hg, drop_rx_queue, unbounded_queue, decide_False by done. split; [|done]. split.
    + by apply Hwf.
    + rewrite Hsub, lookup_insert. case_decide; [subst|done].
      rewrite Hno in H2. by apply not_elem_of_nil in H2.
    + by rewrite Hg, drop_rx_alive, decide_False, unbounded_alive, decide_False.
    + intros top Htop. rewrite Hsub, lookup_insert. case_decide; [|by apply H4].
      cbn. by intros ?%list_elem_of_singleton.
Qed.

(** ** The inputs of the task *)

Lemma insert_query_topics q ch n : same_topics n (insert_query q ch n).
Proof. unfold insert_query, drop_channel. by repeat case_match. Qed.

Lemma finish_topics q want r n : same_topics n (finish q want r n).
Proof. unfold finish, drop_channel. by repeat case_match. Qed.

Lemma kad_event_topics e n : same_topics n (inject_kad_event e n).
Proof.
  destruct e as [id r|]; [|done].
  destruct r as [[x|x]|[x|x]|[x|x]|[x|x]|[x|x]|[x|x]|[x|x]|[x|x]]; cbn [inject_kad_event];
    try done; try apply finish_topics.
  case_bool_decide; [|done].
  destruct (finish_topics (QKad id) as_bootstrap (RepUnit (Ok ())) (set_bootstrapped true n)).
  by split.
Qed.

Lemma bitswap_event_topics e n : same_topics n (inject_bitswap_event e n).
Proof. destruct e as [id m|id r]; cbn; destruct (queries n !! _) as [[]|]; by split. Qed.

Lemma on_net_hears topic rx f t t' es :
  (∀ n, hears topic rx n (f n) es) → on_net f t = Done t' → hears topic rx (net t) (net t') es.
Proof. intros Hf [= <-]. apply Hf. Qed.

Lemma on_net_o_hears topic rx f t t' es :
  (∀ n n', f n = Done n' → hears topic rx n n' es) → on_net_o f t = Done t' →
  hears topic rx (net t) (net t') es.
Proof. intros Hf. unfold on_net_o. rewrite bind_Done. intros (n & H%Hf & [= <-]). exact H. Qed.

Lemma gossip_hears topic rx e n :
  hears topic rx n (inject_gossip_event e n)
    (on_topic topic (said (InSwarm (Some (SwBehaviour (EvGossipsub e)))))).
Proof.
  destruct e; cbn -[on_topic]; [apply notify_hears| | |by apply same_hears];
    (eapply hears_after; [|apply notify_hears]; done).
Qed.

Lemma broadcast_hears topic rx e n n' :
  inject_broadcast_event e n = Done n' →
  hears topic rx n n' (on_topic topic (said (InSwarm (Some (SwBehaviour (EvBroadcast e)))))).
Proof.
  destruct e; cbn -[on_topic]; destruct (from_utf8 _) as [s|]; cbn -[on_topic]; intros [= <-];
    try (by apply same_hears); [apply notify_hears| |];
    (eapply hears_after; [|apply notify_hears]; done).
Qed.

Lemma swarm_event_hears topic rx e t t' :
  handle_swarm_event e t = Done t' →
  hears topic rx (net t) (net t') (on_topic topic (said (InSwarm (Some e)))).
Proof.
  destruct e as [p cp num cause|[e|e|p r|e|e|e|e]|]; cbn [handle_swarm_event said];
    try (apply on_net_hears; intros n); try (apply on_net_o_hears; intros n n' H).
  - by apply same_hears.
  - apply same_hears, kad_event_topics.
  - apply same_hears, tables_topics. destruct e as [found|]; cbn in H; [|by simplify_eq].
    eapply fold_tables; [|exact H]. intros n0 [p a] n1. apply add_address_tables.
  - apply same_hears, tables_topics.
    destruct r; cbn in H; simplify_eq; by eauto using on_book_tables.
  - apply same_hears, tables_topics.
    destruct e; cbn in H; simplify_eq; by eauto using on_book_tables.
  - apply same_hears, bitswap_event_topics.
  - apply gossip_hears.
  - by apply broadcast_hears.
  - intros [= <-]. by apply same_hears.
Qed.

Lemma dht_topics tx n :
  same_topics n (net_bootstrap tx n) ∧
  (∀ key b, same_topics n (providers key b tx n)) ∧ (∀ key b, same_topics n (provide key b tx n)) ∧
  (∀ key q b, same_topics n (get_record key q b tx n)) ∧
  (∀ rec q b, same_topics n (put_record rec q b tx n)).
Proof.
  split_and!; intros; unfold net_bootstrap, providers, provide, get_record, put_record;
    repeat (case_match; simplify_eq/=); try done;
    (etrans; [|apply insert_query_topics]); done.
Qed.

Lemma get_topics cid provs n y id n' :
  net_get cid provs n = Done (y, id, n') → same_topics n n'.
Proof.
  unfold net_get. rewrite bind_Done. intros (b & _ & H). cbn [oneshot_channel] in H.
  destruct (bitswap_get _ _ b) as [i b']. injection H as <- <- <-.
  etrans; [|apply insert_query_topics]. done.
Qed.

Lemma sync_topics cid provs missing n y id n' :
  net_sync cid provs missing n = Done (y, id, n') → same_topics n n'.
Proof.
  unfold net_sync. rewrite bind_Done. intros (b & _ & H). destruct (unbounded _) as [tx c].
  destruct (bitswap_sync _ _ _ b) as [i b']. injection H as <- <- <-.
  etrans; [|apply insert_query_topics]. done.
Qed.

Lemma cancel_topics id n n' : cancel id n = Done n' → same_topics n n'.
Proof.
  unfold cancel. set (n1 := match queries n !! id with Some ch => _ | None => n end).
  assert (same_topics n n1) as Hd.
  { unfold n1, drop_channel. by destruct (queries n !! id) as [[]|]. }
  destruct id as [i|i]; [|by intros [= <-]]. rewrite bind_Done. intros (b & _ & [= <-]).
  etrans; [exact Hd|done].
Qed.

Lemma command_hears topic rx c t t' :
  handle_command c t = Done t' → hears topic rx (net t) (net t') [].
Proof.
  destruct c; cbn [handle_command]; try (by intros [= <-]; apply same_hears);
    try (apply on_net_hears; intros n; apply same_hears; by apply dht_topics);
    try (by apply on_net_hears; intros n; apply same_hears).
  - intros [= <-]. apply same_hears, tables_topics, listen_on_tables.
  - apply on_net_o_hears. intros n n' H. eapply same_hears, tables_topics, add_address_tables, H.
  - apply on_net_hears. intros n. apply same_hears. unfold net_remove_address. by case_match.
  - apply on_net_o_hears. intros n n'. rewrite bind_Done. intros (n1 & H1 & [= <-]).
    apply same_hears. etrans; [|apply dht_topics]. apply tables_topics.
    eapply fold_tables; [|exact H1]. intros n0 [p a] n2. unfold bootstrap_peer. rewrite bind_Done.
    intros (n3 & (H3a & H3b & H3c)%add_address_tables & [= <-]). by repeat split.
  - apply on_net_hears. intros n. apply same_hears. unfold unprovide. by case_match.
  - apply on_net_hears. intros n. apply same_hears. unfold remove_record. by case_match.
  - apply on_net_hears. intros n. unfold reply_with.
    pose proof (subscribe_hears topic rx topic0 n) as Hs. destruct (subscribe topic0 n) as [r n1].
    eapply hears_before; [exact Hs|done].
  - apply on_net_hears. intros n. apply same_hears. unfold reply_with, publish.
    by repeat (case_match; simplify_eq/=).
  - apply on_net_hears. intros n. apply same_hears. unfold reply_with, net_broadcast.
    by repeat (case_match; simplify_eq/=).
  - apply on_net_o_hears. intros n n'. rewrite bind_Done. intros ([[y id] n2] & H & [= <-]).
    apply same_hears. etrans; [by eapply get_topics|done].
  - apply on_net_o_hears. intros n n'. rewrite bind_Done. intros ([[y id] n2] & H & [= <-]).
    apply same_hears. etrans; [by eapply sync_topics|done].
  - apply on_net_hears. intros n. apply same_hears. unfold new_event_stream.
    by destruct (unbounded _).
  - apply on_net_o_hears. intros n n' H. by eapply same_hears, cancel_topics.
Qed.

(** ** Runs *)

(** A run of the task on its inputs.  In between, other receivers may be dropped and the
    rest of the state may change, as long as nobody touches the subscription table or the
    channel of [rx]. *)
Inductive stream_run rx : Task → list input → Task → Prop :=
| stream_nil t : stream_run rx t [] t
| stream_input x xs t t1 t2 :
    poll_swarm_step x t = Done (Some t1) → stream_run rx t1 xs t2 → stream_run rx t (x :: xs) t2
| stream_outside n xs t t2 :
    subscriptions n = subscriptions (net t) →
    (∀ d, created (gossip_chans (net t)) d → created (gossip_chans n) d) →
    rx_alive (gossip_chans n) rx = rx_alive (gossip_chans (net t)) rx →
    queue (gossip_chans n) rx = queue (gossip_chans (net t)) rx →
    stream_run rx (set_net n t) xs t2 → stream_run rx t xs t2.

Lemma input_hears topic rx x t t' :
  poll_swarm_step x t = Done (Some t') →
  hears topic rx (net t) (net t') (on_topic topic (said x)).
Proof.
  destruct x as [[e|]|[c|]]; cbn [poll_swarm_step]; try done.
  - destruct (handle_swarm_event e t) as [t1|] eqn:H1; cbn [fmap outcome_fmap]; [|done].
    intros [= <-]. by apply swarm_event_hears.
  - destruct (handle_command c t) as [t1|] eqn:H1; cbn [fmap outcome_fmap]; [|done].
    intros [= <-]. by eapply command_hears.
Qed.

Lemma outside_hears topic rx n n' :
  subscriptions n' = subscriptions n →
  (∀ d, created (gossip_chans n) d → created (gossip_chans n') d) →
  rx_alive (gossip_chans n') rx = rx_alive (gossip_chans n) rx →
  queue (gossip_chans n') rx = queue (gossip_chans n) rx → hears topic rx n n' [].
Proof.
  intros Hs Hc Ha Hq [H1 H2 H3 H4]. unfold stream. rewrite Hq, app_nil_r. split; [|done].
  split; rewrite ?Hs, ?Ha; try done. intros top txs. rewrite Hs. intros Ht.
  destruct (H1 _ _ Ht) as (? & ? & Hall). split_and!; [done..|]. by eapply Forall_impl.
Qed.

Lemma run_hears topic rx t xs t' :
  stream_run rx t xs t' → hears topic rx (net t) (net t') (heard topic xs).
Proof.
  induction 1 as [t|x xs t t1 t2 Hx _ IH|n xs t t2 Hs Hc Ha Hq _ IH]; intros Hl.
  - by apply same_hears.
  - destruct (input_hears topic rx _ _ _ Hx Hl) as [Hl1 Hq1]. destruct (IH Hl1) as [Hl2 Hq2].
    split; [done|]. cbn. rewrite Hq2, Hq1. by rewrite app_assoc.
  - destruct (outside_hears topic rx (net t) n Hs Hc Ha Hq Hl) as [Hl1 Hq1].
    destruct (IH Hl1) as [Hl2 Hq2]. split; [done|]. rewrite Hq2. cbn. by rewrite Hq1, app_nil_r.
Qed.

(** A new subscription listens, with nothing received yet. *)
Lemma subscribe_subscribed_rx topic rx n n' :
  topics_wf n → subscribe topic n = (Ok rx, n') → subscribed_rx topic rx n' ∧ stream n' rx = [].
Proof.
  intros Hwf Hs. pose proof (subscribe_wf _ _ _ _ Hs Hwf) as Hwf'.
  apply subscribe_inv in Hs as (-> & Hg & Hsub). unfold stream.
  rewrite Hg, unbounded_queue, decide_True by done. split; [|done]. split; [done| | |].
  - rewrite Hsub, lookup_insert_eq. apply elem_of_app. right. by left.
  - by rewrite Hg, unbounded_alive, decide_True.
  - intros top Hne. rewrite Hsub, lookup_insert_ne by done. intros Hin.
    destruct (subscriptions n !! top) as [txs|] eqn:Ht; cbn in Hin; [|by apply not_elem_of_nil in Hin].
    destruct (Hwf _ _ Ht) as (_ & _ & Hc). rewrite Forall_forall in Hc.
    by apply (unbounded_fresh (gossip_chans n)), Hc.
Qed.
End streams.

(** C22: the stream of a subscription carries exactly what was said on its topic.  After any
    history of a network, let a client's [Subscribe] command be handled.  Either it is
    answered with an error, or with a receiver such that from then on, for every sequence
    of events and commands and whatever other subscribers do, the receiver gets exactly
    the messages, subscriptions and unsubscriptions that gossipsub and broadcast report on
    that topic, each once and in order, and stays registered. *)
Theorem subscription_stream `{L : Libp2p, I : Ipld, N : !Protocols, CE : !Channels Event,
    CG : !Channels GossipEvent, CS : !Channels SyncEvent, CL : !Channels ListenerEvent,
    W : !SwarmOps, CC : !Bounded NetworkCommand, S : !Setup, T : !Transports, RT : Runtime,
    F : !Fmt, E : Environment, O : HashOrder, P : Profile}
    config ex w g s l r ns r' (t0 t t1 : Task) topic tx :
  NetworkService_new config ex w g s l r = Done (Ok (ns, t0), r') → rtc table_step t0 t →
  poll_swarm_step (InCommand (Some (Subscribe topic tx))) t = Done (Some t1) →
  (∃ e, last (outbox (net t1)) = Some (Answered tx (RepGossip (Err e)))) ∨
  ∃ rx, last (outbox (net t1)) = Some (Answered tx (RepGossip (Ok rx))) ∧
    ∀ xs t2, stream_run rx t1 xs t2 →
      queue (gossip_chans (net t2)) rx = heard topic xs ∧
      rx ∈ default [] (subscriptions (net t2) !! topic).
Proof.
  intros (bh & tcp & tr & _ & _ & _ & -> & _)%NetworkService_new_Ok Hrun.
  assert (topics_wf (net t)) as Hwf.
  { destruct (table_run_typed _ _ Hrun) as [_ H2]; [|done].
    split; cbn; [apply map_Forall_empty|]. intros top txs Ht. cbn in Ht.
    by rewrite lookup_empty in Ht. }
  cbn. unfold on_net, reply_with. destruct (subscribe topic (net t)) as [[rx|e] n1] eqn:Hs;
    intros [= <-]; [right; exists rx | left; exists e]; (split; [apply last_snoc|] || apply last_snoc).
  intros xs t2 Hx. destruct (subscribe_subscribed_rx _ _ _ _ Hwf Hs) as [Hl Hq].
  destruct (same_hears topic rx n1 (send tx (RepGossip (Ok rx)) n1)) as [Hl1 Hq1]; [done..|].
  destruct (run_hears topic rx _ _ _ Hx Hl1) as [Hl2 Hq2].
  split; [|apply Hl2]. unfold stream in *. rewrite Hq2. cbn [set_net net] in *. by rewrite Hq1, Hq.
Qed.

(** Two messages on the topic and one on another. *)
Definition chatter : list input :=
  [InSwarm (Some (SwBehaviour (EvGossipsub (GsMessage "t" (Some peer_b) peer_b [1]))));
   InSwarm (Some (SwBehaviour (EvGossipsub (GsMessage "u" (Some peer_b) peer_b [2]))));
   InSwarm (Some (SwBehaviour (EvBroadcast (BcReceived peer_b (as_bytes "t" : Topic) [3]))))].

Lemma poll_swarm_stream rx xs (t t' : Task) : poll_swarm xs t = Done (Some t') → stream_run rx t xs t'.
Proof.
  revert t. induction xs as [|x xs IH]; intros t; cbn [poll_swarm]; [intros [= <-]; constructor|].
  rewrite bind_Done. intros ([t1|] & Hx & Hr); [|done]. by econstructor; [|apply IH].
Qed.

Definition subscribe_t : input := InCommand (Some (Subscribe "t" 7%nat)).

(** The new network accepts the subscription and goes on. *)
Definition subscribed (o : outcome (option Task)) : bool :=
  match o with
  | Done (Some t1) =>
      match last (outbox (net t1)) with
      | Some (Answered _ (RepGossip (Ok _))) => going (poll_swarm chatter t1)
      | _ => false
      end
  | _ => false
  end.

Lemma start0_subscribed :
  match start0 with
  | Done (Ok (_, t0), _) => subscribed (poll_swarm_step subscribe_t t0)
  | _ => false
  end = true.
Proof. by vm_compute. Qed.

Lemma subscription_stream_witness :
  ∃ ns t0 r' t1 t2 rx, start0 = Done (Ok (ns, t0), r') ∧
    poll_swarm_step subscribe_t t0 = Done (Some t1) ∧ poll_swarm chatter t1 = Done (Some t2) ∧
    queue (gossip_chans (net t2)) rx = [GMessage peer_b [1]; GMessage peer_b [3]].
Proof.
  pose proof start0_subscribed as Hst.
  destruct start0 as [[[[ns t0]|e] r']|] eqn:E; [|discriminate..].
  unfold subscribed in Hst.
  destruct (poll_swarm_step subscribe_t t0) as [[t1|]|] eqn:E1; [|discriminate..].
  destruct (subscription_stream (CG := queues _) (CS := queues _) (CC := toy_bounded _)
    (T := toy_transports) config0 AsyncGlobal world0 ∅ ∅ listen0 rt0 ns r' t0 t0 t1 "t" 7%nat
    E (rtc_refl _ _) E1) as [[e He]|(rx & Hrx & Hrun)].
  - rewrite He in Hst. discriminate.
  - rewrite Hrx in Hst. destruct (poll_swarm chatter t1) as [[t2|]|] eqn:E2; [|discriminate..].
    exists ns, t0, r', t1, t2, rx. split_and!; [done..|].
    etrans; [apply Hrun; by apply poll_swarm_stream|]. by vm_compute.
Defined.
