(* ===== verification/GossipTest.v ===== *)
(** * [test_gossip_and_broadcast] of [src/lib.rs]

    Several nodes subscribe to a topic; the first one publishes a message, then broadcasts
    one; in the end all but the first drop their subscriptions.  The test reads the streams
    of the subscriptions, each of which carries what was said on the topic at its node
    ([Streams]).  Here: the test as a program on these streams, and which streams make it
    pass - those in which everybody hears of somebody else's subscription before the first
    message, nothing but announced subscriptions comes before it and nothing at all between
    the two messages. *)

From S2P Require Import Prelude Testing Libp2p Ipld Behaviour NetToy PeersReach.

Open Scope Z_scope.

Section gossip.
Context `{L : Libp2p} (peers : list PeerId) (hello again : Bytes).
Local Open Scope test_scope.

(** What is still to be read of each stream. *)
Local Notation Streams := (list (list GossipEvent)).

#[export] Instance GossipEvent_eq_dec : EqDecision GossipEvent.
Proof. solve_decision. Defined.

(** [subscription.next()], which must not time out. *)
Definition next_of (i : nat) : test Streams GossipEvent := λ s,
  match s !! i with
  | Some (e :: es) => (Ok e, <[i := es]> s)
  | _ => (Err Asserted, s)
  end.

Definition is_message (e : GossipEvent) : bool :=
  match e with GMessage _ _ => true | _ => false end.
Definition is_subscribed (e : GossipEvent) : bool :=
  match e with GSubscribed _ => true | _ => false end.

(** [expected.remove(expected.iter().position(|e| e == &ev))]. *)
Fixpoint remove_first (e : GossipEvent) (l : list GossipEvent) : list GossipEvent :=
  match l with
  | [] => []
  | x :: l => if bool_decide (x = e) then l else x :: remove_first e l
  end.

(** The peers of the other nodes, each announced by both protocols. *)
Definition others (i : nat) : list PeerId := delete i peers.
Definition twice (f : PeerId → GossipEvent) (ps : list PeerId) : list GossipEvent :=
  ps ≫= (λ p, [f p; f p]).

Definition expected_of (p0 : PeerId) (i : nat) : list GossipEvent :=
  twice GSubscribed (others i) ++ (if bool_decide (i = 0%nat) then [] else [GMessage p0 hello]).

(** The loop that waits for the message; every round removes an expected event. *)
Fixpoint wait_message (fuel : nat) (i : nat) (expected : list GossipEvent)
    : test Streams (list GossipEvent) :=
  if existsb is_message expected then
    match fuel with
    | O => asserts false ;; test_ret expected
    | S fuel =>
        ev <- next_of i;
        asserts (bool_decide (ev ∈ expected)) ;;
        wait_message fuel i (remove_first ev expected)
    end
  else test_ret expected.

Definition gossip_phase (p0 : PeerId) (i : nat) : test Streams () :=
  let expected := expected_of p0 i in
  left <- wait_message (length expected) i expected;
  if bool_decide (i = 0%nat) then test_ret ()
  else asserts (bool_decide (length left < (length peers - 1) * 2)%nat).

(** [for subscription in &mut subscriptions[1..]]. *)
Definition broadcast_phase (p0 : PeerId) (i : nat) : test Streams () :=
  ev <- next_of i;
  match ev with
  | GMessage p data => asserts (bool_decide (p = p0)) ;; asserts (bool_decide (data = again))
  | _ => asserts false
  end.

(** The last loop, on the stream of the first node. *)
Fixpoint wait_unsubscribed (fuel : nat) (expected : list GossipEvent) : test Streams () :=
  if bool_decide (expected = []) then test_ret ()
  else
    match fuel with
    | O => asserts false
    | S fuel =>
        ev <- next_of 0;
        if is_subscribed ev then wait_unsubscribed fuel expected
        else
          asserts (bool_decide (ev ∈ expected)) ;;
          wait_unsubscribed fuel (remove_first ev expected)
    end.

Fixpoint for_nodes (ids : list nat) (body : nat → test Streams ()) : test Streams () :=
  match ids with [] => test_ret () | i :: ids => body i ;; for_nodes ids body end.

(** [test_gossip_and_broadcast], after the nodes have subscribed; [connected] is what
    [is_connected] says; [published], [broadcast1] and [broadcast2] are whether publishing
    and the two broadcasts succeed. *)
Definition test_gossip_and_broadcast (connected : nat → PeerId → bool)
    (published broadcast1 broadcast2 : bool) (fuel : nat) : test Streams () :=
  match peers with
  | [] => asserts false
  | p0 :: ps =>
      let n := length peers in
      for_nodes (seq 0 n) (λ i, asserts (forallb (connected i) peers)) ;;
      asserts published ;;
      for_nodes (seq 0 n) (gossip_phase p0) ;;
      asserts broadcast1 ;;
      for_nodes (seq 1 (n - 1)) (broadcast_phase p0) ;;
      asserts broadcast2 ;;
      wait_unsubscribed fuel (twice GUnsubscribed ps)
  end.

(** ** When the loops succeed *)

Lemma remove_first_perm e l : e ∈ l → l ≡ₚ e :: remove_first e l.
Proof.
  induction l as [|x l IH]; [by intros ?%not_elem_of_nil|]. cbn.
  case_bool_decide as Hx; [by subst|]. intros [->|He]%elem_of_cons; [done|].
  rewrite (IH He) at 1. apply Permutation_swap.
Qed.

Lemma existsb_perm (f : GossipEvent → bool) l l' : l ≡ₚ l' → existsb f l = existsb f l'.
Proof.
  induction 1 as [|x l l' _ IH|x y l|l1 l2 l3 _ IH1 _ IH2]; cbn; [done|by rewrite IH| |congruence].
  by rewrite !orb_assoc, (orb_comm (f x)).
Qed.

(** Without a message to wait for nothing is read. *)
Lemma wait_message_none fuel i expected s :
  existsb is_message expected = false → wait_message fuel i expected s = (Ok expected, s).
Proof. intros Hno. destruct fuel; cbn; by rewrite Hno. Qed.

(** Events that are expected, then the message: the loop ends right after it. *)
Lemma wait_message_ok fuel i pre m rest left expected (s : Streams) :
  expected ≡ₚ pre ++ m :: left → is_message m = true →
  existsb is_message pre = false → existsb is_message left = false →
  s !! i = Some (pre ++ m :: rest) → (length expected ≤ fuel)%nat →
  ∃ left', wait_message fuel i expected s = (Ok left', <[i := rest]> s) ∧ left' ≡ₚ left.
Proof.
  revert fuel expected s. induction pre as [|e pre IH]; intros fuel expected s Hp Hm Hpre Hleft Hs Hf.
  all: pose proof (existsb_perm is_message _ _ Hp) as Hex; cbn in Hex.
  all: rewrite ?existsb_app in Hex; cbn in Hex; rewrite Hm in Hex; cbn in Hex; rewrite ?orb_true_r in Hex.
  all: pose proof (Permutation_length Hp) as Hlen; cbn in Hlen.
  all: destruct fuel as [|fuel]; [lia|]; cbn [wait_message]; rewrite Hex; cbn in Hs.
  all: unfold test_bind, next_of, asserts; rewrite Hs.
  - assert (m ∈ expected) as Hin by (rewrite Hp; by left).
    rewrite bool_decide_true by done. exists (remove_first m expected).
    assert (remove_first m expected ≡ₚ left) as Hr.
    { apply (Permutation_cons_inv (a := m)). by rewrite <- remove_first_perm, Hp. }
    split; [|done]. apply wait_message_none. by rewrite (existsb_perm _ _ _ Hr).
  - cbn in Hpre. apply orb_false_iff in Hpre as [_ Hpre].
    assert (e ∈ expected) as Hin by (rewrite Hp; by left). rewrite bool_decide_true by done.
    pose proof (remove_first_perm e expected Hin) as Hr.
    destruct (IH fuel (remove_first e expected) (<[i := pre ++ m :: rest]> s))
      as (left' & Hw & Hl); [|done..| | |].
    + apply (Permutation_cons_inv (a := e)). by rewrite <- Hr, Hp.
    + apply list_lookup_insert_eq. by eapply lookup_lt_Some.
    + apply Permutation_length in Hr. cbn in Hr. lia.
    + exists left'. by rewrite Hw, list_insert_insert_eq.
Qed.

(** Subscriptions are skipped; the rest must be expected, in whatever order. *)
Lemma wait_unsubscribed_ok fuel es rest expected (s : Streams) :
  filter (λ e, is_subscribed e = false) es ≡ₚ expected →
  s !! 0%nat = Some (es ++ rest) → (length es ≤ fuel)%nat →
  ∃ s', wait_unsubscribed fuel expected s = (Ok (), s').
Proof.
  revert fuel expected s. induction es as [|e es IH]; intros fuel expected s Hp Hs Hf.
  { apply Permutation_nil_l in Hp as <-. exists s. by destruct fuel. }
  destruct fuel as [|fuel]; [cbn in Hf; lia|]. cbn [wait_unsubscribed].
  case_bool_decide as Hnil; [by exists s|].
  unfold test_bind, next_of, asserts. cbn in Hs. rewrite Hs.
  assert (<[0%nat := es ++ rest]> s !! 0%nat = Some (es ++ rest)) as Hs'.
  { apply list_lookup_insert_eq. by eapply lookup_lt_Some. }
  cbn in Hf. rewrite filter_cons in Hp. destruct (is_subscribed e) eqn:He.
  - rewrite decide_False in Hp by done. apply IH; [done..|lia].
  - rewrite decide_True in Hp by done.
    assert (e ∈ expected) as Hin by (rewrite <- Hp; by left). rewrite bool_decide_true by done.
    apply IH; [|done|lia].
    apply (Permutation_cons_inv (a := e)). by rewrite Hp, <- remove_first_perm.
Qed.

(** ** When the test passes *)

(** A node other than the first: announcements, at least one, then both messages. *)
Definition good_stream (p0 : PeerId) (i : nat) (es : list GossipEvent) : Prop :=
  ∃ pre left rest, es = pre ++ GMessage p0 hello :: GMessage p0 again :: rest ∧
    pre ≠ [] ∧ pre ++ left ≡ₚ twice GSubscribed (others i).

(** The first node: both protocols tell of every subscription that is dropped. *)
Definition good_first (ps : list PeerId) (fuel : nat) (es : list GossipEvent) : Prop :=
  ∃ pre rest, es = pre ++ rest ∧ (length pre ≤ fuel)%nat ∧
    filter (λ e, is_subscribed e = false) pre ≡ₚ twice GUnsubscribed ps.

Lemma twice_no_message f ps : (∀ p, is_message (f p) = false) → existsb is_message (twice f ps) = false.
Proof. intros Hf. induction ps as [|p ps IH]; [done|]. cbn. by rewrite !Hf. Qed.

Lemma gossip_phase_ok p0 i es (s : Streams) :
  i ≠ 0%nat → (i < length peers)%nat → good_stream p0 i es → s !! i = Some es →
  ∃ rest, gossip_phase p0 i s = (Ok (), <[i := GMessage p0 again :: rest]> s).
Proof.
  intros Hi Hlt (pre & left & rest & -> & Hne & Hp) Hs. exists rest. unfold gossip_phase, test_bind.
  assert (existsb is_message (pre ++ left) = false) as Hno.
  { rewrite (existsb_perm _ _ _ Hp). by apply twice_no_message. }
  rewrite existsb_app in Hno. apply orb_false_iff in Hno as [Hno1 Hno2].
  destruct (wait_message_ok (length (expected_of p0 i)) i pre (GMessage p0 hello)
    (GMessage p0 again :: rest) left (expected_of p0 i) s) as (left' & -> & Hl); try done.
  { unfold expected_of. rewrite bool_decide_false by done. rewrite <- Hp.
    rewrite <- app_assoc. apply Permutation_app_head. symmetry. apply Permutation_cons_append. }
  rewrite bool_decide_false by done. unfold asserts. rewrite bool_decide_true; [done|].
  apply Permutation_length in Hp, Hl. rewrite length_app in Hp.
  assert (length (twice GSubscribed (others i)) = (length (others i) * 2)%nat) as Ht.
  { generalize (others i). intros l. induction l as [|p l IH]; [done|].
    change (twice GSubscribed (p :: l)) with (GSubscribed p :: GSubscribed p :: twice GSubscribed l).
    cbn [length]. lia. }
  unfold others in *. rewrite length_delete in Ht by (by apply lookup_lt_is_Some).
  destruct pre; [done|]. cbn in Hp. lia.
Qed.

(** From a state in [Inv i] the body ends well in a state in [Inv (i + 1)]. *)
Lemma for_nodes_ok (Inv : nat → Streams → Prop) body k a s :
  (∀ i s, (a ≤ i < a + k)%nat → Inv i s → ∃ s', body i s = (Ok (), s') ∧ Inv (S i) s') →
  Inv a s → ∃ s', for_nodes (seq a k) body s = (Ok (), s') ∧ Inv (a + k)%nat s'.
Proof.
  revert a s. induction k as [|k IH]; intros a s Hb Hs; cbn.
  { exists s. by rewrite Nat.add_0_r. }
  destruct (Hb a s) as (s1 & H1 & Hs1); [lia|done|]. unfold test_bind. rewrite H1.
  replace (a + S k)%nat with (S a + k)%nat by lia. apply IH; [|done]. intros i s2 Hi. apply Hb. lia.
Qed.

(** The nodes before [i] are through with the first message. *)
Definition midway (p0 : PeerId) (s0 : Streams) (i : nat) (s : Streams) : Prop :=
  length s = length s0 ∧ s !! 0%nat = s0 !! 0%nat ∧
  (∀ j, (1 ≤ j < i)%nat → ∃ rest, s !! j = Some (GMessage p0 again :: rest)) ∧
  (∀ j, (i ≤ j)%nat → s !! j = s0 !! j).

Lemma gossip_phases_ok p0 ps s :
  peers = p0 :: ps → length s = length peers →
  (∀ i, (1 ≤ i < length peers)%nat → ∃ es, s !! i = Some es ∧ good_stream p0 i es) →
  ∃ s', for_nodes (seq 0 (length peers)) (gossip_phase p0) s = (Ok (), s') ∧
    midway p0 s (length peers) s'.
Proof.
  intros Hps Hlen Hgood. apply (for_nodes_ok (midway p0 s)); [|by split_and!; [..|intros; lia|]].
  intros i s1 Hi (H1 & H2 & H3 & H4). destruct (decide (i = 0%nat)) as [->|Hne].
  - exists s1. split.
    + unfold gossip_phase, expected_of, test_bind. rewrite bool_decide_true, app_nil_r by done.
      rewrite wait_message_none by by apply twice_no_message. done.
    + split_and!; [done..|intros; lia|]. intros j Hj. apply H4. lia.
  - destruct (Hgood i) as (es & Hes & Hg); [lia|].
    destruct (gossip_phase_ok p0 i es s1) as (rest & Hph); [done|lia|done|by rewrite H4|].
    exists (<[i := GMessage p0 again :: rest]> s1). split; [done|].
    assert (i < length s1)%nat by lia. split_and!.
    + by rewrite length_insert.
    + by rewrite list_lookup_insert_ne.
    + intros j Hj. destruct (decide (j = i)) as [->|Hji].
      * exists rest. by apply list_lookup_insert_eq.
      * rewrite list_lookup_insert_ne by done. apply H3. lia.
    + intros j Hj. rewrite list_lookup_insert_ne by lia. apply H4. lia.
Qed.

Lemma broadcast_phases_ok p0 s k a :
  (∀ j, (a ≤ j < a + k)%nat → ∃ rest, s !! j = Some (GMessage p0 again :: rest)) → (1 ≤ a)%nat →
  ∃ s', for_nodes (seq a k) (broadcast_phase p0) s = (Ok (), s') ∧ s' !! 0%nat = s !! 0%nat.
Proof.
  intros Hs Ha. destruct (for_nodes_ok (λ i s1, s1 !! 0%nat = s !! 0%nat ∧
    ∀ j, (i ≤ j)%nat → s1 !! j = s !! j) (broadcast_phase p0) k a s) as (s' & H1 & H2 & _);
    [|done|by exists s'].
  intros i s1 Hi [H0 H]. destruct (Hs i Hi) as [rest Hr].
  exists (<[i := rest]> s1). unfold broadcast_phase, test_bind, next_of, asserts.
  rewrite H, Hr by done. rewrite !bool_decide_true by done. split; [done|]. split.
  - by rewrite list_lookup_insert_ne by lia.
  - intros j Hj. rewrite list_lookup_insert_ne by lia. apply H. lia.
Qed.
End gossip.

(** [test_gossip_and_broadcast] passes for every number of nodes and all streams in which
    each other node hears of a subscription before the first message and of nothing but
    announced ones, both messages follow one another, and the first node is told by both
    protocols of every subscription that is dropped. *)
Theorem gossip_test_passes `{L : Libp2p} p0 ps hello again connected fuel (s : list (list GossipEvent)) :
  (∀ i p, connected i p = true) → length s = S (length ps) →
  (∀ i, (1 ≤ i < S (length ps))%nat → ∃ es, s !! i = Some es ∧ good_stream (p0 :: ps) hello again p0 i es) →
  (∃ es, s !! 0%nat = Some es ∧ good_first ps fuel es) →
  (test_gossip_and_broadcast (p0 :: ps) hello again connected true true true fuel s).1 = Ok ().
Proof.
  intros Hc Hlen Hgood (es0 & Hs0 & pre & rest & -> & Hf & Hp).
  unfold test_gossip_and_broadcast. unfold test_bind at 1.
  destruct (for_nodes_ok (λ _ s1, s1 = s) (λ i, asserts (forallb (connected i) (p0 :: ps)))
    (length (p0 :: ps)) 0 s) as (s1 & -> & ->); [|done|].
  { intros i s1 _ ->. exists s. unfold asserts.
    assert (forallb (connected i) (p0 :: ps) = true) as ->; [|done].
    apply forallb_forall. intros p _. apply Hc. }
  unfold test_bind at 1. unfold asserts at 1. unfold test_bind at 1.
  destruct (gossip_phases_ok (p0 :: ps) hello again p0 ps s) as (s2 & -> & Hm); [done..|].
  destruct Hm as (_ & H0 & H1 & _). unfold test_bind at 1. unfold asserts at 1.
  unfold test_bind at 1.
  destruct (broadcast_phases_ok again p0 s2 (length (p0 :: ps) - 1) 1) as (s3 & -> & H3).
  { intros j Hj. apply H1. cbn in *. lia. }
  { done. }
  unfold test_bind at 1. unfold asserts at 1.
  destruct (wait_unsubscribed_ok fuel pre rest (twice GUnsubscribed ps) s3) as (s4 & ->); try done.
  by rewrite H3, H0.
Qed.

(** Three nodes. *)
Definition chat : list (list (GossipEvent (L := toy))) :=
  let hello := GMessage (peer_a : PeerId) [1] in let again := GMessage (peer_a : PeerId) [2] in
  [[GSubscribed peer_b; GUnsubscribed peer_b; GUnsubscribed 9%N; GUnsubscribed peer_b;
    GSubscribed 9%N; GUnsubscribed 9%N];
   [GSubscribed peer_a; hello; again];
   [GSubscribed peer_b; GSubscribed peer_a; GSubscribed peer_b; hello; again]].

Example gossip_test_runs :
  (test_gossip_and_broadcast [peer_a; peer_b; 9%N] [1] [2] (λ _ _, true) true true true 6 chat).1 = Ok ().
Proof. by vm_compute. Qed.
