(* ===== verification/Harness.v ===== *)
(** * [harness/src/lib.rs]: the network simulation harness

    The library behind the simulations: the test DAG, who provides and who consumes, the
    configuration of each simulated node, and deadlines.  The encoder of [libipld] and
    the random generator are parameters. *)

From S2P Require Import Prelude Libp2p Duration PeerInfo AddressHandler Channel Peers Ipld.
From S2P Require Import Behaviour Network NetworkService NetToy Config.

Open Scope Z_scope.

(** ** The test DAG *)

(** [Node], derived [DagCbor]. *)
Record HNode `{I : Ipld} : Type := MkHNode {
  hn_links : list Cid;
  hn_depth : Z;
  hn_payload : Bytes;
}.

(** [Block::encode(DagCborCodec, Code::Blake3_256, node)] and the links of a block; the
    encoding of a node links to what the node links to. *)
Class Encoder `{I : Ipld} := {
  EncodeError : Type;
  Rng : Type;
  fill_bytes : nat → Rng → Bytes * Rng;
  encode : HNode → result Block EncodeError;
  references : Block → list Cid;
  references_encode n b : encode n = Ok b → references b = hn_links n;
}.

Section tree.
Context `{I : Ipld, C : !Encoder}.

(** [create_block]: leaves are large. *)
Definition create_block (links : list Cid) (depth : Z) (g : Rng) : result Block EncodeError * Rng :=
  let '(payload, g) :=
    if bool_decide (links = []) then fill_bytes (1024 * 16) g else fill_bytes 512 g in
  (encode (MkHNode _ links depth payload), g).

(** [for _ in 0..width], pushing what [build] returns, until the first error. *)
Fixpoint build_links (build : list Block → Rng → result Cid EncodeError * list Block * Rng)
    (width : nat) (links : list Cid) (blocks : list Block) (g : Rng)
    : result (list Cid) EncodeError * list Block * Rng :=
  match width with
  | O => (Ok links, blocks, g)
  | S width =>
      let '(r, blocks, g) := build blocks g in
      match r with
      | Ok cid => build_links build width (links ++ [cid]) blocks g
      | Err e => (Err e, blocks, g)
      end
  end.

(** [build_tree_0], [blocks] being the vector it appends to. *)
Fixpoint build_tree_0 (width depth : nat) (blocks : list Block) (g : Rng)
    : result Cid EncodeError * list Block * Rng :=
  let '(links, blocks, g) :=
    match depth with
    | O => (Ok [], blocks, g)
    | S depth => build_links (build_tree_0 width depth) width [] blocks g
    end in
  match links with
  | Err e => (Err e, blocks, g)
  | Ok links =>
      let '(block, g) := create_block links (Z.of_nat depth) g in
      match block with
      | Err e => (Err e, blocks, g)
      | Ok block => (Ok (block_cid block), blocks ++ [block], g)
      end
  end.

(** [build_tree]; the arguments are [u64]. *)
Definition build_tree (width depth : Z) (g : Rng)
    : result (Cid * list Block) EncodeError * Rng :=
  let '(r, blocks, g) := build_tree_0 (Z.to_nat width) (Z.to_nat depth) [] g in
  (match r with Ok cid => Ok (cid, blocks) | Err e => Err e end, g).

(** *** What is built *)

(** A vector that holds, one after the other, the sub-trees of a node and the node. *)
Inductive tree (width : nat) : nat → Cid → list Block → Prop :=
| tree_leaf b : references b = [] → tree width 0 (block_cid b) [b]
| tree_node d b cs bs :
    references b = cs → length cs = width → forest width d cs bs →
    tree width (S d) (block_cid b) (bs ++ [b])
with forest (width : nat) : nat → list Cid → list Block → Prop :=
| forest_nil d : forest width d [] []
| forest_snoc d cs bs c bs' :
    forest width d cs bs → tree width d c bs' → forest width d (cs ++ [c]) (bs ++ bs').

Scheme tree_mut := Induction for tree Sort Prop
with forest_mut := Induction for forest Sort Prop.
Combined Scheme tree_forest_ind from tree_mut, forest_mut.

(** Number of blocks. *)
Fixpoint tree_size (width depth : nat) : nat :=
  match depth with O => 1 | S depth => S (width * tree_size width depth) end.

Lemma build_links_tree width d n links blocks bs g :
  (∀ blocks g c blocks' g', build_tree_0 width d blocks g = (Ok c, blocks', g') →
     ∃ bs, blocks' = blocks ++ bs ∧ tree width d c bs) →
  forest width d links bs →
  ∀ links' blocks' g',
  build_links (build_tree_0 width d) n links (blocks ++ bs) g = (Ok links', blocks', g') →
  ∃ bs', blocks' = blocks ++ bs' ∧ forest width d links' bs' ∧ length links' = (length links + n)%nat.
Proof.
  intros Hb. revert links bs g. induction n as [|n IH]; intros links bs g Hf links' blocks' g'; cbn.
  { intros [= <- <- <-]. exists bs. split_and!; [done..|lia]. }
  destruct (build_tree_0 width d (blocks ++ bs) g) as [[[c|e] blocks1] g1] eqn:E; [|done].
  apply Hb in E as (bs1 & -> & Ht). rewrite <- app_assoc. intros H.
  apply IH in H as (bs' & -> & Hf' & Hl); [|by constructor].
  exists bs'. split_and!; [done..|]. rewrite Hl, length_app. cbn. lia.
Qed.

Lemma create_block_Ok links depth g b g' :
  create_block links depth g = (Ok b, g') → references b = links.
Proof.
  unfold create_block. destruct (bool_decide (links = [])); destruct (fill_bytes _ g);
    intros [= Hb _]; by apply references_encode in Hb.
Qed.

Lemma build_tree_0_tree width d blocks g c blocks' g' :
  build_tree_0 width d blocks g = (Ok c, blocks', g') →
  ∃ bs, blocks' = blocks ++ bs ∧ tree width d c bs.
Proof.
  revert blocks g c blocks' g'. induction d as [|d IH]; intros blocks g c blocks' g'; cbn [build_tree_0].
  - destruct (create_block [] (Z.of_nat 0) g) as [[b|] g1] eqn:E; [|done]. intros [= <- <- <-].
    exists [b]. split; [done|]. constructor. by apply create_block_Ok in E.
  - destruct (build_links _ width [] blocks g) as [[[links|] blocks1] g1] eqn:El; [|done].
    rewrite <- (app_nil_r blocks) in El.
    apply build_links_tree in El as (bs & -> & Hf & Hl); [|by apply IH|constructor].
    destruct (create_block links _ g1) as [[b|] g2] eqn:E; [|done]. intros [= <- <- <-].
    exists (bs ++ [b]). rewrite app_assoc. split; [done|].
    econstructor; [by apply create_block_Ok in E|done|done].
Qed.

(** Every link of a block is to an earlier block. *)
Definition linked_backwards (bs : list Block) : Prop :=
  ∀ i b l, bs !! i = Some b → l ∈ references b →
  ∃ j b', (j < i)%nat ∧ bs !! j = Some b' ∧ block_cid b' = l.

(** A block of [bs] with the first id links to the second. *)
Definition links_to (bs : list Block) (c c' : Cid) : Prop :=
  ∃ b, b ∈ bs ∧ block_cid b = c ∧ c' ∈ references b.

Lemma links_to_mono bs bs' c c' :
  bs ⊆ bs' → rtc (links_to bs) c c' → rtc (links_to bs') c c'.
Proof.
  intros Hs. induction 1 as [|c c1 c' (b & Hb & Hc & Hl)]; [done|].
  eapply rtc_l; [|done]. exists b. auto.
Qed.

Lemma backwards_app bs bs' :
  linked_backwards bs → linked_backwards bs' → linked_backwards (bs ++ bs').
Proof.
  intros H1 H2 i b l [Hi|[Hlen Hi]]%lookup_app_Some Hl.
  - destruct (H1 _ _ _ Hi Hl) as (j & b' & Hj & Hb' & Hc). exists j, b'.
    split_and!; [done| |done]. by apply lookup_app_l_Some.
  - destruct (H2 _ _ _ Hi Hl) as (j & b' & Hj & Hb' & Hc). exists (length bs + j)%nat, b'.
    split_and!; [lia| |done]. rewrite lookup_app_r by lia. rewrite <- Hb'. f_equal. lia.
Qed.

Lemma backwards_snoc bs b :
  linked_backwards bs → (∀ l, l ∈ references b → ∃ b', b' ∈ bs ∧ block_cid b' = l) →
  linked_backwards (bs ++ [b]).
Proof.
  intros H1 H2 i b0 l [Hi|[Hlen Hi]]%lookup_app_Some Hl.
  - destruct (H1 _ _ _ Hi Hl) as (j & b' & Hj & Hb' & Hc). exists j, b'.
    split_and!; [done| |done]. by apply lookup_app_l_Some.
  - apply list_lookup_singleton_Some in Hi as [Hi ->].
    destruct (H2 l Hl) as (b' & [j Hj]%list_elem_of_lookup & Hc). exists j, b'.
    split_and!; [|by apply lookup_app_l_Some|done]. apply lookup_lt_Some in Hj. lia.
Qed.

Lemma tree_forest_facts width :
  (∀ d c bs, tree width d c bs →
     length bs = tree_size width d ∧ (block_cid <$> last bs) = Some c ∧
     linked_backwards bs ∧ ∀ b, b ∈ bs → rtc (links_to bs) c (block_cid b)) ∧
  (∀ d cs bs, forest width d cs bs →
     length bs = (length cs * tree_size width d)%nat ∧
     (∀ c, c ∈ cs → ∃ b, b ∈ bs ∧ block_cid b = c) ∧
     linked_backwards bs ∧
     ∀ b, b ∈ bs → ∃ c, c ∈ cs ∧ rtc (links_to bs) c (block_cid b)).
Proof.
  apply tree_forest_ind.
  - intros b Hr. split_and!; [done|done| |].
    + intros i b0 l [_ ->]%list_lookup_singleton_Some. rewrite Hr. by intros ?%not_elem_of_nil.
    + by intros b0 ->%list_elem_of_singleton.
  - intros d b cs bs Hr Hl Hf (IH1 & IH2 & IH3 & IH4). split_and!.
    + rewrite length_app, IH1, Hl. cbn. lia.
    + by rewrite last_snoc.
    + apply backwards_snoc; [done|]. intros l. rewrite Hr. apply IH2.
    + intros b0 [Hb|Hb]%elem_of_app; [|by apply list_elem_of_singleton in Hb as ->].
      destruct (IH4 b0 Hb) as (c & Hc & Hrtc). eapply rtc_l.
      * exists b. split_and!; [set_solver|done|by rewrite Hr].
      * eapply links_to_mono; [|exact Hrtc]. set_solver.
  - intros d. split_and!; [done| | |]; try by intros ? ?%not_elem_of_nil.
    by intros i b l Hi; rewrite lookup_nil in Hi.
  - intros d cs bs c bs' Hf (IH1 & IH2 & IH3 & IH4) Ht (T1 & T2 & T3 & T4). split_and!.
    + rewrite !length_app, IH1, T1. cbn. lia.
    + intros c0 [H0|H0]%elem_of_app.
      * destruct (IH2 c0 H0) as (b & ? & ?). exists b. set_solver.
      * apply list_elem_of_singleton in H0 as ->. apply fmap_Some in T2 as (b & Hb & ->).
        exists b. split; [|done]. apply elem_of_app. right. by apply last_Some_elem_of.
    + by apply backwards_app.
    + intros b [Hb|Hb]%elem_of_app.
      * destruct (IH4 b Hb) as (c0 & Hc0 & Hrtc). exists c0. split; [set_solver|].
        eapply links_to_mono; [|exact Hrtc]. set_solver.
      * exists c. split; [set_solver|]. eapply links_to_mono; [|by apply T4]. set_solver.
Qed.

(** Building ends, and succeeds if the encoder does. *)
Lemma create_block_total links depth g :
  (∀ n, is_ok (encode n) = true) → ∃ b g', create_block links depth g = (Ok b, g').
Proof.
  intros He. unfold create_block. destruct (if bool_decide _ then _ else _) as [p g'].
  specialize (He (MkHNode I links depth p)). destruct (encode _) as [b|]; [by eexists _, _|done].
Qed.

Lemma build_links_total build width links blocks g :
  (∀ blocks g, ∃ c blocks' g', build blocks g = (Ok c, blocks', g')) →
  ∃ cs blocks' g', build_links build width links blocks g = (Ok cs, blocks', g').
Proof.
  intros Hb. revert links blocks g. induction width as [|n IH]; intros links blocks g; cbn.
  { by do 3 eexists. }
  destruct (Hb blocks g) as (c & blocks' & g' & ->). apply IH.
Qed.

Lemma build_tree_0_total width depth blocks g :
  (∀ n, is_ok (encode n) = true) →
  ∃ c blocks' g', build_tree_0 width depth blocks g = (Ok c, blocks', g').
Proof.
  intros He. revert blocks g. induction depth as [|d IH]; intros blocks g; cbn [build_tree_0].
  - destruct (create_block_total [] (Z.of_nat 0) g He) as (b & g' & ->). by do 3 eexists.
  - destruct (build_links_total (build_tree_0 width d) width [] blocks g IH) as (cs & bs & g1 & ->).
    destruct (create_block_total cs (Z.of_nat (S d)) g1 He) as (b & g' & ->). by do 3 eexists.
Qed.

Lemma tree_size_closed width depth :
  ((Z.of_nat width - 1) * Z.of_nat (tree_size width depth) = Z.of_nat width ^ (Z.of_nat depth + 1) - 1)%Z.
Proof.
  induction depth as [|d IH]; [cbn; lia|]. cbn [tree_size].
  rewrite Nat2Z.inj_succ, Nat2Z.inj_mul, Nat2Z.inj_succ.
  replace (Z.succ (Z.of_nat d) + 1) with (Z.succ (Z.of_nat d + 1)) by lia.
  rewrite Z.pow_succ_r by lia. nia.
Qed.
End tree.

(** C34: the test DAG is what the simulations rely on.  [build_tree] ends; unless the encoder
    fails it returns a root and a vector with [(width^(depth+1) - 1) / (width - 1)]
    blocks, the last of which is the root; every link points to an earlier block of the
    vector - so inserting the vector in order never inserts a block before its children
    - and every block of the vector is reachable from the root. *)
Theorem build_tree_spec `{I : Ipld, C : !Encoder} width depth (g : Rng) :
  0 ≤ width → 0 ≤ depth →
  ((∀ n, is_ok (encode n) = true) → is_ok (build_tree width depth g).1 = true) ∧
  ∀ c bs, (build_tree width depth g).1 = Ok (c, bs) →
    (width - 1) * Z.of_nat (length bs) = width ^ (depth + 1) - 1 ∧
    (block_cid <$> last bs) = Some c ∧ linked_backwards bs ∧
    ∀ b, b ∈ bs → rtc (links_to bs) c (block_cid b).
Proof.
  intros Hw Hd. unfold build_tree. split.
  - intros He. destruct (build_tree_0_total (Z.to_nat width) (Z.to_nat depth) [] g He)
      as (c & bs & g' & ->). done.
  - intros c bs. destruct (build_tree_0 _ _ [] g) as [[[c0|] bs0] g'] eqn:E; [|done].
    intros [= -> ->]. apply build_tree_0_tree in E as (bs' & -> & Ht). cbn.
    apply (proj1 (tree_forest_facts _)) in Ht as (H1 & H2 & H3 & H4).
    split_and!; [|done..]. rewrite H1, <- (Z2Nat.id width), <- (Z2Nat.id depth) at 1 by done.
    pose proof (tree_size_closed (Z.to_nat width) (Z.to_nat depth)) as Hs.
    rewrite !Z2Nat.id in * by done. exact Hs.
Qed.

(** Content ids by counting: the payload's first number is the name of the block. *)
#[export] Program Instance toy_encoder : Encoder (I := numbered) := {|
  EncodeError := string;
  Rng := nat;
  fill_bytes := λ n g, ([Z.of_nat g], S g);
  encode := λ n, Ok (Z.to_N (default 0 (head (hn_payload n))), Z.of_N <$> hn_links n);
  references := λ b, Z.to_N <$> b.2;
|}.
Next Obligation.
  intros n b [= <-]. cbn. induction (hn_links n) as [|c cs IH]; [done|].
  cbn. rewrite N2Z.id. f_equal. exact IH.
Qed.

Definition rng0 : Rng (Encoder := toy_encoder) := 0%nat.

(** Width 3 and depth 2: thirteen blocks. *)
Lemma build_tree_spec_witness :
  ∃ c bs, (build_tree 3 2 rng0).1 = Ok (c, bs) ∧ length bs = 13%nat ∧ linked_backwards bs.
Proof.
  destruct (build_tree_spec 3 2 rng0) as [Hok H]; [lia..|].
  specialize (Hok (λ _, eq_refl)). destruct (build_tree 3 2 rng0).1 as [[c bs]|]; [|done].
  exists c, bs. destruct (H c bs eq_refl) as (Hl & _ & Hb & _). split_and!; [done| |done].
  change (3 ^ (2 + 1) - 1) with 26 in Hl. lia.
Defined.

(** ** Simulated nodes *)

(** [HarnessOpts]. *)
Record HarnessOpts : Type := MkHarnessOpts {
  n_nodes : Z;
  n_providers : Z;
  n_consumers : Z;
  n_spam : Z;
  delay_ms : Z;
  ho_enable_mdns : bool;
  tree_width : Z;
  tree_depth : Z;
  ho_disable_port_reuse : bool;
}.

(** The defaults of the command line. *)
Definition HarnessOpts_default : HarnessOpts := MkHarnessOpts 2 1 1 0 0 false 10 4 false.

Inductive Role : Type := Provider | Consumer | Idle.

Section nodes.
Context `{L : Libp2p, P : Profile}.

(** [netsim_embed::Machine], the part used: its id and address.  [peer_id] is
    [ipfs_embed_cli::peer_id]; [tcp_addr] parses [/ip4/{addr}/tcp/30000]. *)
Record Machine : Type := MkMachine { machine_id : nat; machine_addr : Z }.

Context (peer_id : Z → PeerId) (tcp_addr : Z → Multiaddr).

(** [MachineExt]. *)
Definition machine_peer_id (m : Machine) : PeerId := peer_id (Z.of_nat (machine_id m)).
Definition machine_multiaddr (m : Machine) : Multiaddr := tcp_addr (machine_addr m).

(** [MultiaddrExt::is_loopback] of the harness. *)
Definition harness_is_loopback (a : Multiaddr) : bool :=
  match head (ma_iter a) with
  | Some (Ip4 ip) => if negb (Ipv4_is_loopback ip) then false else true
  | _ => true
  end.

(** [&machines[start..end]]. *)
Definition slice {A} (start stop : Z) (l : list A) : outcome (list A) :=
  if bool_decide (0 ≤ start ∧ start ≤ stop ∧ stop ≤ Z.of_nat (length l))
  then Done (take (Z.to_nat (stop - start)) (drop (Z.to_nat start) l)) else Panicked.

(** [NetsimExt::nodes]: collected into a [HashMap]. *)
Definition nodes (start stop : Z) (machines : list Machine)
    : outcome (gmap nat (PeerId * Multiaddr)) :=
  ms ← slice start stop machines;
  Done (foldl (λ acc m,
          let peer := machine_peer_id m in
          let addr := ma_push (machine_multiaddr m) (P2p (mh_of_peer peer)) in
          <[machine_id m := (peer, addr)]> acc) ∅ ms).

(** [NetsimExt::role]. *)
Definition role (opts : HarnessOpts) (r : Role) (machines : list Machine)
    : outcome (gmap nat (PeerId * Multiaddr)) :=
  '(start, stop) ←
    match r with
    | Provider => Done (0, n_providers opts)
    | Consumer => e ← add_u 64 (n_providers opts) (n_consumers opts); Done (n_providers opts, e)
    | Idle => s ← add_u 64 (n_providers opts) (n_consumers opts); Done (s, n_nodes opts)
    end;
  nodes start stop machines.

(** The name of node [i] in [run_netsim]; [render] is [usize::to_string]. *)
Definition node_name (render : Z → string) (opts : HarnessOpts) (i : Z) : outcome string :=
  if bool_decide (i < n_providers opts) then Done ("provider" +:+ render i)
  else
    e ← add_u 64 (n_providers opts) (n_consumers opts);
    if bool_decide (i < e) then
      k ← sub_u 64 i (n_providers opts); Done ("consumer" +:+ render k)
    else
      k ← sub_u 64 i (n_providers opts); k ← sub_u 64 k (n_consumers opts);
      Done ("idle" +:+ render k).

(** The configuration of node [i] in [run_netsim]; [dir] is the temporary directory and
    [any] the parsed address [/ip4/0.0.0.0/tcp/30000]. *)
Definition node_config (render : Z → string) (path_join : string → string → string)
    (dir : string) (any : Multiaddr) (opts : HarnessOpts) (i : Z) : outcome CliConfig :=
  name ← node_name render opts i;
  Done (MkCliConfig (Some (path_join dir (render i))) (Some name) i (ho_enable_mdns opts) [any]
          [] [] (ho_disable_port_reuse opts)).

(** The loop of [run_netsim] over all nodes, each with its delay; the simulator starts a
    machine per configuration. *)
Fixpoint node_configs (render : Z → string) (path_join : string → string → string)
    (dir : string) (any : Multiaddr) (opts : HarnessOpts) (n : nat) (i : Z)
    : outcome (list (CliConfig * Duration)) :=
  match n with
  | O => Done []
  | S n =>
      c ← node_config render path_join dir any opts i;
      cs ← node_configs render path_join dir any opts n (i + 1);
      Done ((c, from_millis (delay_ms opts)) :: cs)
  end.
End nodes.

(** ** Deadlines *)

(** The duration given to [async_std::future::timeout] by [MyFutureExt]. *)
Definition timeout_duration (d : Z) : Duration := from_secs d.

Definition deadline_duration (elapsed : Duration) (d : Z) : outcome Duration :=
  let d := from_secs d in
  e ← dur_add elapsed (from_millis 100);
  if bool_decide (d ≤ e) then Done (from_millis 100)
  else if bool_decide (elapsed ≤ d) then Done (d - elapsed) else Panicked.

(** A slice that does not panic has every element of its range. *)
Lemma slice_done {A} start stop (l r : list A) :
  slice start stop l = Done r →
  (0 ≤ start ∧ start ≤ stop ∧ stop ≤ Z.of_nat (length l)) ∧
  ∀ i x, start ≤ Z.of_nat i < stop → l !! i = Some x → x ∈ r.
Proof.
  unfold slice. case_bool_decide as Hb; [|done]. intros [= <-]. split; [done|].
  intros i x Hi Hx. apply (list_elem_of_lookup_2 _ (i - Z.to_nat start)).
  rewrite lookup_take_lt by lia. rewrite lookup_drop, <- Hx. f_equal. lia.
Qed.

(** Waiting until a deadline waits at least a tenth of a second and never underflows. *)
Lemma deadline_spec elapsed d :
  0 ≤ elapsed → elapsed + from_millis 100 ≤ DURATION_MAX →
  deadline_duration elapsed d = Done (Z.max (from_millis 100) (from_secs d - elapsed)).
Proof.
  intros H0 H1. unfold deadline_duration, dur_add. rewrite dur_checked_le by done.
  cbn [mbind outcome_bind]. case_bool_decide.
  - f_equal. unfold from_millis in *. lia.
  - rewrite bool_decide_true by (unfold from_millis in *; lia). f_equal. unfold from_millis in *. lia.
Qed.

Section roles.
Context `{L : Libp2p, P : Profile}.
Context (peer_id : Z → PeerId) (tcp_addr : Z → Multiaddr).
Implicit Types (opts : HarnessOpts) (ms : list Machine).

(** The prefix of the names of a role's nodes. *)
Definition role_prefix (r : Role) : string :=
  match r with Provider => "provider" | Consumer => "consumer" | Idle => "idle" end.

(** The positions of a role's machines. *)
Definition in_role opts (r : Role) (i : Z) : Prop :=
  match r with
  | Provider => i < n_providers opts
  | Consumer => n_providers opts ≤ i < n_providers opts + n_consumers opts
  | Idle => n_providers opts + n_consumers opts ≤ i
  end.

Definition peer_entry (m : Machine) : PeerId * Multiaddr :=
  (machine_peer_id peer_id m,
   ma_push (machine_multiaddr tcp_addr m) (P2p (mh_of_peer (machine_peer_id peer_id m)))).

Lemma foldl_entries ms (acc : gmap nat (PeerId * Multiaddr)) id e :
  NoDup (machine_id <$> ms) →
  foldl (λ acc m, <[machine_id m := peer_entry m]> acc) acc ms !! id = Some e ↔
  (∃ m, m ∈ ms ∧ id = machine_id m ∧ e = peer_entry m) ∨
  (id ∉ machine_id <$> ms ∧ acc !! id = Some e).
Proof.
  revert acc. induction ms as [|m ms IH]; intros acc; cbn [foldl fmap list_fmap].
  { intros _. split; [intros ?; right; split; [apply not_elem_of_nil|done]|].
    intros [(m & []%not_elem_of_nil & _)|[_ ?]]. done. }
  intros [Hni Hnd]%NoDup_cons. rewrite IH by done. rewrite lookup_insert, not_elem_of_cons.
  case_decide as Hm; subst.
  - split.
    + intros [(m' & Hm' & -> & ->)|[_ [= <-]]]; [|left; exists m; set_solver].
      left. exists m'. set_solver.
    + intros [(m' & [->|Hm']%elem_of_cons & Hid & ->)|[[? _] _]]; [by right| |done].
      left. by exists m'.
  - split.
    + intros [(m' & Hm' & -> & ->)|[? ?]]; [left; exists m'; set_solver|right; done].
    + intros [(m' & [->|Hm']%elem_of_cons & Hid & ->)|[[? ?] ?]]; [done| |by right].
      left. by exists m'.
Qed.

Lemma elem_of_slice {A} (x : A) a b l l' :
  slice a b l = Done l' → x ∈ l' ↔ ∃ i : nat, l !! i = Some x ∧ a ≤ Z.of_nat i < b.
Proof.
  unfold slice. case_bool_decide as H; [|done]. intros [= <-].
  rewrite elem_of_take. split.
  - intros (i & Hi & Hlt). rewrite lookup_drop in Hi. eexists. split; [exact Hi|lia].
  - intros (i & Hi & Hr). exists (i - Z.to_nat a)%nat. rewrite lookup_drop. split; [|lia].
    rewrite <- Hi. f_equal. lia.
Qed.

Lemma slice_sublist {A} a b (l l' : list A) : slice a b l = Done l' → sublist l' l.
Proof.
  unfold slice. case_bool_decide; [|done]. intros [= <-].
  etrans; [apply sublist_take | apply sublist_drop].
Qed.

Lemma nodes_spec a b ms :
  0 ≤ a → a ≤ b → b ≤ Z.of_nat (length ms) → NoDup (machine_id <$> ms) →
  ∃ found, nodes peer_id tcp_addr a b ms = Done found ∧
    ∀ id e, found !! id = Some e ↔
      ∃ (i : nat) m, ms !! i = Some m ∧ a ≤ Z.of_nat i < b ∧ id = machine_id m ∧ e = peer_entry m.
Proof.
  intros Ha Hab Hb Hnd. unfold nodes.
  assert (∃ l, slice a b ms = Done l) as [l Hl].
  { unfold slice. rewrite bool_decide_true by done. by eexists. }
  rewrite Hl. eexists. split; [done|]. intros id e.
  rewrite (foldl_entries l ∅ id e), lookup_empty.
  - setoid_rewrite (elem_of_slice _ _ _ _ _ Hl). naive_solver.
  - eapply sublist_NoDup; [exact Hnd|]. apply fmap_sublist. by eapply slice_sublist.
Qed.

Lemma add_u_fits w a b : 0 ≤ a + b < 2 ^ w → add_u w a b = Done (a + b).
Proof. intros H. unfold add_u, checked, fits. by rewrite bool_decide_true. Qed.
Lemma sub_u_fits w a b : 0 ≤ a - b < 2 ^ w → sub_u w a b = Done (a - b).
Proof. intros H. unfold sub_u, checked, fits. by rewrite bool_decide_true. Qed.
End roles.

(** Roles and names agree.  When the options leave room for providers and consumers,
    every role can be listed without a panic; it lists exactly the machines at the role's
    positions, each under its id with its peer id and its address completed by that peer
    id; and node [i], wherever it is, got the name of its role, numbered within the role.
    With more providers and consumers than nodes, listing the idle nodes panics. *)
Theorem roles_spec `{L : Libp2p, P : Profile} (peer_id : Z → PeerId) (tcp_addr : Z → Multiaddr)
    (render : Z → string) opts (ms : list Machine) :
  0 ≤ n_providers opts → 0 ≤ n_consumers opts →
  n_providers opts + n_consumers opts < 2 ^ 64 → n_nodes opts < 2 ^ 64 →
  n_nodes opts = Z.of_nat (length ms) → NoDup (machine_id <$> ms) →
  (n_providers opts + n_consumers opts ≤ n_nodes opts →
   (∀ r, ∃ found, role peer_id tcp_addr opts r ms = Done found ∧
      ∀ id e, found !! id = Some e ↔
        ∃ (i : nat) m, ms !! i = Some m ∧ in_role opts r (Z.of_nat i) ∧ id = machine_id m ∧
          e = peer_entry peer_id tcp_addr m) ∧
   (∀ r (i : nat), (i < length ms)%nat → in_role opts r (Z.of_nat i) →
      ∃ k, node_name render opts (Z.of_nat i) = Done (role_prefix r +:+ render k))) ∧
  (n_nodes opts < n_providers opts + n_consumers opts →
   role peer_id tcp_addr opts Idle ms = Panicked).
Proof.
  intros Hp Hc Hpc Hn Hlen Hnd. split; [intros Hle; split|intros Hlt].
  - intros r. destruct r; unfold role; rewrite ?add_u_fits by lia; cbn [mbind outcome_bind].
    + destruct (nodes_spec peer_id tcp_addr 0 (n_providers opts) ms) as (found & -> & Hf); [lia..|done|].
      exists found. split; [done|]. intros id e. rewrite Hf. cbn. naive_solver lia.
    + destruct (nodes_spec peer_id tcp_addr (n_providers opts) (n_providers opts + n_consumers opts) ms)
        as (found & -> & Hf); [lia..|done|]. by exists found.
    + destruct (nodes_spec peer_id tcp_addr (n_providers opts + n_consumers opts) (n_nodes opts) ms)
        as (found & -> & Hf); [lia..|done|]. exists found. split; [done|]. intros id e. rewrite Hf.
      split; intros (i & m & Hm & H); exists i, m; (split; [done|]); [naive_solver|].
      apply lookup_lt_Some in Hm. cbn in H. naive_solver lia.
  - intros r i Hi Hr. unfold node_name. rewrite add_u_fits by lia.
    destruct r; cbn [in_role role_prefix] in *.
    + rewrite bool_decide_true by done. by eexists.
    + rewrite bool_decide_false by lia. cbn [mbind outcome_bind].
      rewrite bool_decide_true, sub_u_fits by lia. by eexists.
    + rewrite bool_decide_false by lia. cbn [mbind outcome_bind].
      rewrite bool_decide_false, sub_u_fits by lia. cbn [mbind outcome_bind].
      rewrite sub_u_fits by lia. by eexists.
  - unfold role. rewrite add_u_fits by lia. cbn [mbind outcome_bind]. unfold nodes, slice.
    rewrite bool_decide_false by lia. done.
Qed.

(** Three nodes with the default roles: a provider, a consumer and an idle node. *)
Definition opts0 : HarnessOpts := MkHarnessOpts 3 1 1 0 0 false 10 4 false.
Definition machines0 : list Machine := [MkMachine 0 1; MkMachine 1 2; MkMachine 2 3].

Lemma roles_spec_witness :
  ∃ found, role (L := toy) Z.to_N (λ a, [Ip4 a; Tcp 30000]) opts0 Consumer machines0 = Done found ∧
    is_Some (found !! 1%nat).
Proof.
  destruct (roles_spec (L := toy) Z.to_N (λ a, [Ip4 a; Tcp 30000]) (λ _, "k") opts0 machines0)
    as [H _]; [done..| |].
  { by apply (bool_decide_unpack _). }
  destruct H as [H _]; [done|]. destruct (H Consumer) as (found & Hf & Hl).
  exists found. split; [exact Hf|]. eexists. apply Hl. exists 1%nat, (MkMachine 1 2).
  split_and!; done.
Defined.

(** ** The copy of the DAG builder in the unit tests, [src/test_util.rs] *)
Section test_util.
Context `{I : Ipld, C : !Encoder}.

Definition test_util_create_block (links : list Cid) (depth : Z) (g : Rng)
    : result Block EncodeError * Rng := create_block links depth g.
Definition test_util_build_tree_0 (width depth : nat) (blocks : list Block) (g : Rng)
    : result Cid EncodeError * list Block * Rng := build_tree_0 width depth blocks g.
Definition test_util_build_tree (width depth : Z) (g : Rng)
    : result (Cid * list Block) EncodeError * Rng := build_tree width depth g.
End test_util.
