(* ===== verification/Ipfs.v ===== *)
(** * [src/lib.rs]: the node

    [Ipfs] joins the storage service and the handle of the network.  Most methods
    delegate; [get], [fetch] and [sync] combine the two.  While a future of the
    network is awaited the storage changes under the node - blocks arrive through
    bitswap, the collector deletes others - so the network is an [Awaits]: the answer
    each future gives and what became of the storage in the meantime. *)

From S2P Require Import Prelude Libp2p Duration PeerInfo AddressHandler Channel Peers Ipld Db.
From S2P Require Import Behaviour Network NetworkService Config.

Open Scope Z_scope.

Section ipfs.
Context `{L : Libp2p, I : Ipld, B : !BlockStore, N : !Protocols, CE : !Channels Event,
          CG : !Channels GossipEvent, CS : !Channels SyncEvent,
          CL : !Channels ListenerEvent, CC : !Bounded NetworkCommand, O : HashOrder}.

(** Errors, [anyhow::Error] of either half. *)
Inductive IpfsError : Type :=
| FromStorage (e : StoreError)
| FromNetwork (e : ServiceError).

(** [Ipfs]. *)
Record Ipfs : Type := MkIpfs {
  storage : StorageService;
  network : Client;
}.

(** [Config] with [Config::new]. *)
Record IpfsConfig `{S : !Setup} : Type := MkIpfsConfig {
  cfg_storage : StorageConfig;
  cfg_network : NetworkConfig;
}.
Definition IpfsConfig_new `{S : !Setup, H : !StoreHost} (p name agent : string)
    (keypair : Keypair) : IpfsConfig :=
  let sweep_interval := 10000 * 1000000 in
  MkIpfsConfig S (StorageConfig_new (Some (path_join p "blocks")) None 0 sweep_interval)
    (NetworkConfig_new name agent keypair).

(** *** Delegation to the storage *)

(** A method that only calls the storage service. *)
Definition on_storage {R} (f : StorageService → result R StoreError * StorageService)
    (n : Ipfs) : result R IpfsError * Ipfs :=
  let '(r, sv) := f (storage n) in
  (match r with Ok x => Ok x | Err e => Err (FromStorage e) end, MkIpfs sv (network n)).

Definition ipfs_create_temp_pin := on_storage create_temp_pin.
Definition ipfs_temp_pin (tmp : TempPin) (c : Cid) (n : Ipfs)
    : result () IpfsError * TempPin * Ipfs :=
  let '(r, p, sv) := temp_pin tmp [c] (storage n) in
  (match r with Ok x => Ok x | Err e => Err (FromStorage e) end, p, MkIpfs sv (network n)).
Definition ipfs_iter := on_storage iter.
Definition ipfs_contains (c : Cid) := on_storage (contains c).
Definition ipfs_insert (b : Block) := on_storage (insert_block b).
Definition ipfs_alias (a : Bytes) (c : option Cid) := on_storage (alias a c).
Definition ipfs_aliases := on_storage aliases.
Definition ipfs_resolve (a : Bytes) := on_storage (resolve a).
Definition ipfs_reverse_alias (c : Cid) := on_storage (reverse_alias c).
Definition ipfs_flush (joined : bool) := on_storage (flush joined).
Definition batch_ops {R} (f : Batch R) := on_storage (rw "batch_ops" f).
Definition ipfs_evict (fuel : nat) (others : nat → StorageService → StorageService)
    (joined : bool) (n : Ipfs)
    : option (result () IpfsError * Ipfs) :=
  '(r, sv) ← evict fuel others joined (storage n);
  Some (match r with Ok x => Ok x | Err e => Err (FromStorage e) end, MkIpfs sv (network n)).

(** [BitswapStore for BitswapStorage]: what bitswap does to the same storage. *)
Definition bitswap_contains := contains.
Definition bitswap_get_block := get.
Definition bitswap_insert := insert_block.
Definition bitswap_missing_blocks := missing_blocks.

(** *** Delegation to the network *)

(** A method that only calls the network handle. *)
Definition on_network {R} (f : Client → R * Client) (n : Ipfs) : R * Ipfs :=
  let '(r, c) := f (network n) in (r, MkIpfs (storage n) c).

Definition ipfs_listen_on (a : Multiaddr) := on_network (svc_listen_on a).
Definition ipfs_add_external_address (a : Multiaddr) :=
  on_network (λ c, ((), svc_add_external_address a c)).
Definition ipfs_add_address (p : PeerId) (a : Multiaddr) :=
  on_network (λ c, ((), svc_add_address p a c)).
Definition ipfs_remove_address (p : PeerId) (a : Multiaddr) :=
  on_network (λ c, ((), svc_remove_address p a c)).
Definition ipfs_prune_peers (min_age : Duration) :=
  on_network (λ c, ((), svc_prune_peers min_age c)).
Definition ipfs_dial (p : PeerId) := on_network (λ c, ((), svc_dial p c)).
Definition ipfs_dial_address (p : PeerId) (a : Multiaddr) :=
  on_network (λ c, ((), svc_dial_address p a c)).
Definition ipfs_ban (p : PeerId) := on_network (λ c, ((), svc_ban p c)).
Definition ipfs_unban (p : PeerId) := on_network (λ c, ((), svc_unban p c)).
Definition ipfs_bootstrap (nodes : list (PeerId * Multiaddr)) := on_network (svc_bootstrap nodes).
Definition ipfs_providers (key : Key) := on_network (svc_providers key).
Definition ipfs_provide (key : Key) := on_network (svc_provide key).
Definition ipfs_unprovide (key : Key) := on_network (svc_unprovide key).
Definition ipfs_get_record (key : Key) (q : Quorum) := on_network (svc_get_record key q).
Definition ipfs_put_record (r : KadRecord) (q : Quorum) := on_network (svc_put_record r q).
Definition ipfs_remove_record (key : Key) := on_network (svc_remove_record key).
Definition ipfs_subscribe (topic : string) := on_network (svc_subscribe topic).
Definition ipfs_publish (topic : string) (msg : Bytes) := on_network (svc_publish topic msg).
Definition ipfs_broadcast (topic : string) (msg : Bytes) := on_network (svc_broadcast topic msg).
Definition ipfs_swarm_events := on_network svc_swarm_events.

(** *** Blocks *)

(** [Ipfs::get]. *)
Definition ipfs_get (c : Cid) (n : Ipfs) : result Block IpfsError * Ipfs :=
  let '(r, sv) := get c (storage n) in
  (match r with
   | Ok (Some data) => Ok (new_unchecked c data)
   | Ok None => Err (FromStorage (BlockNotFound c))
   | Err e => Err (FromStorage e)
   end, MkIpfs sv (network n)).

(** How awaited futures end, [None] for a cancelled oneshot, and the storage then. *)
Record Awaits : Type := MkAwaits {
  (** the answer to a [Get] command: the id of the query *)
  await_query : Oneshot → StorageService → option QueryId * StorageService;
  (** the result of the query *)
  await_get : QueryId → StorageService → option (result () NetError) * StorageService;
  (** the answer to a [Sync] command, which is the last one queued *)
  await_sync : list NetworkCommand → Oneshot → StorageService → option SyncQuery * StorageService;
  (** the first completion on the channel of a sync query *)
  await_complete : SyncQuery → StorageService → result () NetError * StorageService;
}.

(** [self.network.get(cid, providers).await?.await?]; the [GetQuery] is dropped
    when its result is known. *)
Definition network_get (w : Awaits) (c : Cid) (provs : list PeerId) (n : Ipfs)
    : result () IpfsError * Ipfs :=
  let '(req, cl) := svc_get c provs (network n) in
  match req with
  | Failed e => (Err (FromNetwork e), MkIpfs (storage n) cl)
  | Waiting rx =>
      let '(q, sv) := await_query w rx (storage n) in
      match q with
      | None => (Err (FromNetwork SvcCanceled), MkIpfs sv cl)
      | Some id =>
          let '(r, sv) := await_get w id sv in
          (match r with
           | Some (Ok _) => Ok ()
           | Some (Err e) => Err (FromNetwork (SvcNet e))
           | None => Err (FromNetwork SvcCanceled)
           end, MkIpfs sv (drop_get_query id cl))
      end
  end.

(** [Ipfs::fetch]. *)
Definition fetch (w : Awaits) (c : Cid) (provs : list PeerId) (n : Ipfs)
    : result Block IpfsError * Ipfs :=
  let '(r, sv) := get c (storage n) in
  let n := MkIpfs sv (network n) in
  match r with
  | Err e => (Err (FromStorage e), n)
  | Ok (Some data) => (Ok (new_unchecked c data), n)
  | Ok None =>
      if bool_decide (provs ≠ []) then
        let '(g, n) := network_get w c provs n in
        match g with
        | Err e => (Err e, n)
        | Ok _ =>
            let '(r, sv) := get c (storage n) in
            let n := MkIpfs sv (network n) in
            match r with
            | Err e => (Err (FromStorage e), n)
            | Ok (Some data) => (Ok (new_unchecked c data), n)
            | Ok None => (Err (FromStorage (BlockNotFound c)), n)
            end
        end
      else (Err (FromStorage (BlockNotFound c)), n)
  end.

(** [Ipfs::sync]. *)
Definition sync (c : Cid) (provs : list PeerId) (n : Ipfs) : SyncRequest * Ipfs :=
  let '(r, sv) := missing_blocks c (storage n) in
  let missing := match r with Ok l => l | Err _ => [] end in
  let '(q, cl) := svc_sync c provs missing (network n) in
  (q, MkIpfs sv cl).

(** [ipfs.sync(cid, providers).await?.await?]: request, await the query, await its
    completion, drop it. *)
Definition run_sync (w : Awaits) (c : Cid) (provs : list PeerId) (n : Ipfs)
    : result () IpfsError * Ipfs :=
  let complete q n :=
    let '(r, sv) := await_complete w q (storage n) in
    (match r with Ok _ => Ok () | Err e => Err (FromNetwork (SvcNet e)) end,
     MkIpfs sv (drop_sync_query q (network n))) in
  match sync c provs n with
  | (SyncReady q, n) => complete q n
  | (SyncRequested (Failed e), n) => (Err (FromNetwork e), n)
  | (SyncRequested (Waiting rx), n) =>
      let '(q, sv) := await_sync w (pending (c_cmd (network n))) rx (storage n) in
      let n := MkIpfs sv (network n) in
      match q with
      | None => (Err (FromNetwork SvcCanceled), n)
      | Some q => complete q n
      end
  end.

(** *** [libipld::store::Store for Ipfs], where it differs; [net] is the state shared
    with the swarm task. *)

(** [Store::reverse_alias]: the set becomes a vector. *)
Definition store_reverse_alias (order : gset Bytes → list Bytes) (c : Cid) (n : Ipfs)
    : result (option (list Bytes)) IpfsError * Ipfs :=
  let '(r, n) := ipfs_reverse_alias c n in
  (match r with Ok x => Ok (order <$> x) | Err e => Err e end, n).

(** [Store::fetch]. *)
Definition store_fetch (w : Awaits) (net : Net) (c : Cid) : Ipfs → result Block IpfsError * Ipfs :=
  fetch w c (svc_peers net).

(** [Store::sync]: on the connected peers. *)
Definition store_sync (w : Awaits) (net : Net) (c : Cid) : Ipfs → result () IpfsError * Ipfs :=
  run_sync w c (svc_peers net).
End ipfs.
