(* ===== verification/IpfsSpec.v ===== *)
(** * What the node promises

    Fetching a block and syncing a DAG through [Ipfs] ([src/lib.rs]), for every
    behaviour of the network and of the storage while the node waits. *)

From S2P Require Import Prelude Libp2p Duration PeerInfo AddressHandler Channel Peers PeersReach.
From S2P Require Import Ipld Db DbSpec Behaviour Network NetworkService NetToy Config.
From S2P Require Import NetworkClient Ipfs.

Open Scope Z_scope.

Section fetching.
Context `{L : Libp2p, I : Ipld, B : !BlockStore, BL : !BlockStoreLaws, N : !Protocols,
          CE : !Channels Event, CG : !Channels GossipEvent, CS : !Channels SyncEvent,
          CL : !Channels ListenerEvent, CC : !Bounded NetworkCommand}.

(** The blocks a node has stored. *)
Definition blocks (n : Ipfs) : gmap Cid Bytes := v_blocks (sview (storage n)).

(** What the storage says about a content id is what it holds, and asking changes
    nothing. *)
Lemma get_faithful c sv :
  let '(r, sv') := get c sv in
  sview sv' = sview sv ∧ ∀ d, r = Ok d → d = v_blocks (sview sv) !! c.
Proof.
  pose proof (exec_refines (CGet c) sv) as H. pose proof (exec_read (CGet c) sv eq_refl) as Hv.
  cbn [exec] in H, Hv. unfold answer, refines in *.
  destruct (get c sv) as [[d|e] sv']; cbn in H, Hv; [|done].
  inversion H; subst. split; [congruence|]. intros d' [= <-]. done.
Qed.

Lemma network_get_queued w c provs (n : Ipfs) :
  let '(g, n') := network_get w c provs n in
  match g with
  | Ok _ => ∃ rx id, queued (network n') = queued (network n) ++ [Get c provs rx] ∨
              queued (network n') = queued (network n) ++ [Get c provs rx; CancelQuery id]
  | Err _ => True
  end.
Proof.
  unfold network_get, svc_get. pose proof (request_queued (Get c provs) (network n)) as H.
  destruct (request _ _) as [[e|rx] cl]; [done|]. destruct H as (_ & _ & H).
  destruct (await_query w rx _) as [[id|] sv1]; [|done].
  destruct (await_get w id sv1) as [[[]|] sv2]; [|done..]. cbn.
  exists rx, id. unfold drop_get_query. destruct (fire_queued (CancelQuery id) cl) as [-> | ->].
  - by left.
  - right. rewrite H, <- app_assoc. done.
Qed.
End fetching.


Definition cid5 : Cid (Ipld := numbered) := 5%N.

(** A network whose query 0 delivers the block [(5, [50])]. *)
Definition awaits0 : Awaits (B := mem_store) (N := toy_protocols) := {|
  await_query := λ _ sv, (Some (QBitswap (0%nat : BitswapQueryId)), sv);
  await_get := λ _ sv, (Some (Ok ()), (insert_block (5%N, [50]) sv).2);
  await_sync := λ _ _ sv, (None, sv);
  await_complete := λ _ sv, (Ok (), sv);
|}.

Definition ipfs0 : Ipfs (B := mem_store) := MkIpfs service1 client0.


(** [sync] hides storage errors: if the storage fails to compute the missing
    blocks, the query reports success at the first poll, without any command to the
    network and whatever the providers, exactly as if nothing were missing. *)
Theorem sync_masks_storage_error `{L : Libp2p, I : Ipld, B : !BlockStore,
    N : !Protocols, CE : !Channels Event, CG : !Channels GossipEvent, CS : !Channels SyncEvent,
    CL : !Channels ListenerEvent, CC : !Bounded NetworkCommand} c provs (n : Ipfs) e :
  (missing_blocks c (storage n)).1 = Err e →
  ∃ q q' n', sync c provs n = (SyncReady q, n') ∧ network n' = network n ∧
    SyncQuery_poll 1 q = Some (Ready (Ok ()), q').
Proof.
  intros H. unfold sync. destruct (missing_blocks c (storage n)) as [r sv]. cbn in H. subst.
  by do 3 eexists.
Qed.

(** The store of [mem_store], whose query for missing blocks fails. *)
#[local] Instance broken_store : BlockStore := {|
  StoreError := string;
  BlockNotFound := BlockNotFound (BlockStore := mem_store);
  JoinError := JoinError (BlockStore := mem_store);
  TempPin := list N;
  Store := MemStore;
  Transaction := MemStore * list N;
  transaction := transaction (BlockStore := mem_store);
  commit := commit (BlockStore := mem_store);
  drop_txn := drop_txn (BlockStore := mem_store);
  txn_temp_pin := txn_temp_pin (BlockStore := mem_store);
  extend_temp_pin := extend_temp_pin (BlockStore := mem_store);
  get_block_cids := get_block_cids (BlockStore := mem_store);
  has_block := has_block (BlockStore := mem_store);
  get_block := get_block (BlockStore := mem_store);
  put_block := put_block (BlockStore := mem_store);
  txn_resolve := txn_resolve (BlockStore := mem_store);
  txn_alias := txn_alias (BlockStore := mem_store);
  txn_aliases := txn_aliases (BlockStore := mem_store);
  txn_reverse_alias := txn_reverse_alias (BlockStore := mem_store);
  get_missing_blocks := λ _ t, (Err "disk I/O error", t);
  incremental_gc := incremental_gc (BlockStore := mem_store);
  store_flush := store_flush (BlockStore := mem_store);
  get_store_stats := get_store_stats (BlockStore := mem_store);
|}.

Definition ipfs_broken : Ipfs (B := broken_store) :=
  MkIpfs (MkService (B := broken_store) (m_empty 0) 1 1000 true ∅) client0.

Lemma sync_masks_storage_error_witness :
  ∃ q q' n', sync cid5 [peer_b] ipfs_broken = (SyncReady q, n') ∧
    network n' = client0 ∧ SyncQuery_poll 1 q = Some (Ready (Ok ()), q').
Proof.
  apply (sync_masks_storage_error (B := broken_store) cid5 [peer_b] ipfs_broken
    "disk I/O error"). reflexivity.
Defined.
