(* ===== verification/IpfsStore.v ===== *)
(** * [libipld::store::Store for Ipfs] in [src/lib.rs], and the read-only methods

    The interface of the crate [libipld] as a class: its operations, and as laws what
    users of a store rely on, stated for the contents of the store - a map of blocks and a
    map of aliases.  [Ipfs] is an instance; what a program can expect after storing a DAG
    is proved against the interface. *)

From S2P Require Import Prelude Libp2p Duration PeerInfo AddressHandler Channel Peers PeersReach.
From S2P Require Import Ipld Db DbSpec Behaviour Network NetworkService NetToy Config.
From S2P Require Import NetworkClient Ipfs IpfsSpec Harness.

Open Scope Z_scope.

(** ** Read-only methods *)
Section reading.
Context `{L : Libp2p, I : Ipld, B : !BlockStore, N : !Protocols, CE : !Channels Event,
          CG : !Channels GossipEvent, CS : !Channels SyncEvent,
          CL : !Channels ListenerEvent, CC : !Bounded NetworkCommand, O : HashOrder}.
Implicit Types (net : Net).

(** The variables they read are those of the swarm task, [net]. *)
Definition ipfs_listeners net : list Multiaddr := svc_listeners net.
Definition ipfs_external_addresses net : list AddressRecord := svc_external_addresses net.
Definition ipfs_peers net : list PeerId := svc_peers net.
Definition ipfs_connections net : list (PeerId * Multiaddr * Z * Direction) := svc_connections net.
Definition ipfs_is_connected (n : Ipfs) (p : PeerId) net : bool :=
  svc_is_connected (c_peer_id (network n)) p net.
Definition ipfs_peer_info (p : PeerId) net : option PeerInfo := svc_peer_info p net.
Definition ipfs_is_bootstrapped net : bool := svc_is_bootstrapped net.
End reading.

(** ** The interface *)

(** [libipld::store::Store], its synchronous part. *)
Class IpldStore `{I : Ipld} (S E Pin : Type) := {
  st_create_temp_pin : S → result Pin E * S;
  st_temp_pin : Pin → Cid → S → result () E * Pin * S;
  st_contains : Cid → S → result bool E * S;
  st_get : Cid → S → result Block E * S;
  st_insert : Block → S → result () E * S;
  st_alias : Bytes → option Cid → S → result () E * S;
  st_resolve : Bytes → S → result (option Cid) E * S;
}.

(** What a store holds, and what calls say and do about it; a failed write has its effect
    or none.  A block that is stored may be kept when it is inserted again. *)
Class IpldStoreLaws `{I : Ipld} (S E Pin : Type) `{T : !IpldStore S E Pin} := {
  contents : S → View;
  st_insert_spec b s :
    let '(r, s') := st_insert b s in
    (is_ok r = false ∧ contents s' = contents s) ∨
    ∃ d, (d = block_data b ∨ v_blocks (contents s) !! block_cid b = Some d) ∧
      contents s' = MkView (<[block_cid b := d]> (v_blocks (contents s))) (v_aliases (contents s));
  st_alias_spec a c s :
    let '(r, s') := st_alias a c s in
    (is_ok r = false ∧ contents s' = contents s) ∨
    contents s' = MkView (v_blocks (contents s)) (partial_alter (λ _, c) a (v_aliases (contents s)));
  st_get_spec c s :
    contents (st_get c s).2 = contents s ∧
    ∀ b, (st_get c s).1 = Ok b →
         block_cid b = c ∧ v_blocks (contents s) !! c = Some (block_data b);
  st_resolve_spec a s :
    contents (st_resolve a s).2 = contents s ∧
    ∀ r, (st_resolve a s).1 = Ok r → r = v_aliases (contents s) !! a;
  st_contains_spec c s :
    contents (st_contains c s).2 = contents s ∧
    ∀ r, (st_contains c s).1 = Ok r → r = bool_decide (is_Some (v_blocks (contents s) !! c));
}.

(** ** The node is a store *)
Section instance.
Context `{L : Libp2p, I : Ipld, B : !BlockStore, N : !Protocols, CE : !Channels Event,
          CG : !Channels GossipEvent, CS : !Channels SyncEvent,
          CL : !Channels ListenerEvent, CC : !Bounded NetworkCommand, O : HashOrder}.

(** [Store::create_temp_pin] and [temp_pin]: the pin is shared behind a mutex. *)
Definition store_create_temp_pin : Ipfs → result TempPin IpfsError * Ipfs := ipfs_create_temp_pin.
Definition store_temp_pin (tmp : TempPin) (c : Cid) (n : Ipfs) : result () IpfsError * TempPin * Ipfs :=
  ipfs_temp_pin tmp c n.

(** [Store::contains] ... [Store::flush]. *)
Definition store_contains (c : Cid) : Ipfs → result bool IpfsError * Ipfs := ipfs_contains c.
Definition store_get (c : Cid) : Ipfs → result Block IpfsError * Ipfs := ipfs_get c.
Definition store_insert (b : Block) (n : Ipfs) : result () IpfsError * Ipfs :=
  let '(r, n) := ipfs_insert b n in
  (match r with Ok _ => Ok () | Err e => Err e end, n).
Definition store_alias (a : Bytes) (c : option Cid) : Ipfs → result () IpfsError * Ipfs :=
  ipfs_alias a c.
Definition store_resolve (a : Bytes) : Ipfs → result (option Cid) IpfsError * Ipfs :=
  ipfs_resolve a.
Definition store_flush (joined : bool) : Ipfs → result () IpfsError * Ipfs := ipfs_flush joined.

#[export] Instance ipfs_store : IpldStore Ipfs IpfsError TempPin := {|
  st_create_temp_pin := store_create_temp_pin;
  st_temp_pin := store_temp_pin;
  st_contains := store_contains;
  st_get := store_get;
  st_insert := store_insert;
  st_alias := store_alias;
  st_resolve := store_resolve;
|}.

Context {BL : BlockStoreLaws}.

(** A delegated call, in terms of the calls of the storage service. *)
Lemma on_storage_exec {R} (f : StorageService → result R StoreError * StorageService)
    (g : R → reply) c n :
  (∀ sv, exec c sv = answer g (f sv)) →
  match on_storage f n with
  | (Ok x, n') => spec (sview (storage n)) c (g x) (sview (storage n'))
  | (Err _, n') => spec_failed (sview (storage n)) c (sview (storage n'))
  end.
Proof.
  intros He. pose proof (exec_refines c (storage n)) as H. rewrite He in H.
  unfold on_storage. unfold answer in H. by destruct (f (storage n)) as [[x|e] sv].
Qed.

Lemma on_storage_read {R} (f : StorageService → result R StoreError * StorageService)
    (g : R → reply) c n :
  (∀ sv, exec c sv = answer g (f sv)) → writes c = false →
  sview (storage (on_storage f n).2) = sview (storage n).
Proof.
  intros He Hw. pose proof (exec_read c (storage n) Hw) as H. rewrite He in H.
  unfold on_storage. by destruct (f (storage n)) as [[x|e] sv].
Qed.

#[export, refine] Instance ipfs_store_laws : IpldStoreLaws Ipfs IpfsError TempPin := {|
  contents n := sview (storage n);
|}.
Proof.
  - intros b n. cbn. unfold store_insert, ipfs_insert.
    pose proof (on_storage_exec (insert_block b) (λ _, RUnit) (CInsert b) n (λ _, eq_refl)) as H.
    destruct (on_storage _ n) as [[x|e] n']; [right|destruct H as [?|[r H]]; [by left|right]];
      inversion H; subst; by eexists.
  - intros a c n. cbn. unfold store_alias, ipfs_alias.
    pose proof (on_storage_exec (alias a c) (λ _, RUnit) (CAlias a c) n (λ _, eq_refl)) as H.
    destruct (on_storage _ n) as [[x|e] n']; [right|destruct H as [?|[r H]]; [by left|right]];
      by inversion H.
  - intros c n. cbn. unfold store_get, ipfs_get.
    pose proof (get_faithful c (storage n)) as H. destruct (get c (storage n)) as [r sv].
    destruct H as [Hv H]. cbn. split; [done|]. destruct r as [[d|]|e]; [|done..].
    intros b [= <-]. rewrite block_cid_new, block_data_new. split; [done|]. by rewrite <- (H _ eq_refl).
  - intros a n. cbn. unfold store_resolve, ipfs_resolve.
    pose proof (on_storage_exec (resolve a) RCid (CResolve a) n (λ _, eq_refl)) as H.
    split; [by apply (on_storage_read (resolve a) RCid (CResolve a))|].
    destruct (on_storage _ n) as [[x|e] n']; [|done]. inversion H; subst. by intros r [= <-].
  - intros c n. cbn. unfold store_contains, ipfs_contains.
    pose proof (on_storage_exec (contains c) RBool (CContains c) n (λ _, eq_refl)) as H.
    split; [by apply (on_storage_read (contains c) RBool (CContains c))|].
    destruct (on_storage _ n) as [[x|e] n']; [|done]. inversion H; subst. by intros r [= <-].
Qed.
End instance.

(** ** Storing a DAG through the interface *)
Section client.
Context `{I : Ipld} {S E Pin : Type} `{T : !IpldStore S E Pin, TL : !IpldStoreLaws S E Pin}.
Implicit Types (s : S) (bs : list Block).

(** Insert blocks one after the other, until the first error. *)
Fixpoint insert_all bs s : result () E * S :=
  match bs with
  | [] => (Ok (), s)
  | b :: bs =>
      let '(r, s) := st_insert b s in
      match r with Ok _ => insert_all bs s | Err e => (Err e, s) end
  end.

(** Store a DAG under a name, as the tests and simulations do. *)
Definition store_dag (a : Bytes) (root : Cid) bs s : result () E * S :=
  let '(r, s) := insert_all bs s in
  match r with Ok _ => st_alias a (Some root) s | Err e => (Err e, s) end.

Lemma insert_all_contents bs s s' :
  insert_all bs s = (Ok (), s') →
  v_aliases (contents s') = v_aliases (contents s) ∧
  (∀ c, is_Some (v_blocks (contents s') !! c) ↔
        is_Some (v_blocks (contents s) !! c) ∨ ∃ b, b ∈ bs ∧ block_cid b = c).
Proof.
  revert s. induction bs as [|b bs IH]; intros s; cbn.
  { intros [= <-]. split; [done|]. intros c. split; [by left|].
    intros [?|(b & []%not_elem_of_nil & _)]. done. }
  pose proof (st_insert_spec b s) as Hb. destruct (st_insert b s) as [[u|e] s1]; [|done].
  destruct Hb as [[? _]|(d & _ & Hv)]; [done|]. intros (H1 & H2)%IH. rewrite H1, Hv. split; [done|].
  intros c. rewrite H2, Hv. cbn. rewrite lookup_insert. setoid_rewrite elem_of_cons.
  case_decide; subst; [|naive_solver]. split; [|intros _; left; by eexists].
  intros _. right. exists b. auto.
Qed.

(** After a DAG has been stored its name leads to its root, and every block of it and
    everything these blocks link to can be read back. *)
Lemma store_dag_complete `{C : !Encoder} a root bs s s' :
  linked_backwards bs → store_dag a root bs s = (Ok (), s') →
  (∀ r, (st_resolve a s').1 = Ok r → r = Some root) ∧
  ∀ b c r, b ∈ bs → c = block_cid b ∨ c ∈ references b → (st_contains c s').1 = Ok r → r = true.
Proof.
  intros Hl. unfold store_dag. destruct (insert_all bs s) as [[u|e] s1] eqn:Hi; [|done].
  destruct u. apply insert_all_contents in Hi as [_ Hb]. intros Ha.
  pose proof (st_alias_spec a (Some root) s1) as Hs. rewrite Ha in Hs.
  destruct Hs as [[? _]|Hs]; [done|]. split.
  - intros r Hr. apply (st_resolve_spec a s') in Hr as ->. rewrite Hs. cbn.
    by rewrite lookup_partial_alter, decide_True.
  - intros b c r Hin Hc Hr. apply (st_contains_spec c s') in Hr as ->.
    apply bool_decide_eq_true_2. rewrite Hs. cbn. apply Hb. right. destruct Hc as [->|Hc].
    + by exists b.
    + apply list_elem_of_lookup in Hin as [i Hi].
      destruct (Hl i b c Hi Hc) as (j & b' & _ & Hj & <-). exists b'. split; [|done].
      by eapply list_elem_of_lookup_2.
Qed.
End client.

Lemma store_dag_network `{L : Libp2p, I : Ipld, B : !BlockStore, N : !Protocols,
    CE : !Channels Event, CG : !Channels GossipEvent, CS : !Channels SyncEvent,
    CL : !Channels ListenerEvent, CC : !Bounded NetworkCommand} a root bs (n : Ipfs) :
  network (store_dag a root bs n).2 = network n.
Proof.
  assert (network (insert_all bs n).2 = network n) as H.
  { revert n. induction bs as [|b bs IH]; intros n; cbn; [done|].
    unfold store_insert, ipfs_insert, on_storage.
    destruct (insert_block b (storage n)) as [[x|e] sv]; cbn; [by rewrite IH|done]. }
  unfold store_dag. destruct (insert_all bs n) as [[u|e] n1]; cbn in H; [|done].
  cbn. unfold store_alias, ipfs_alias, on_storage. by destruct (alias _ _ _) as [[x|e] sv].
Qed.

(** A test DAG stored in a node is complete.  After the blocks of [build_tree] have been
    inserted through the [Store] interface of [Ipfs] and the root has been aliased, all
    without an error, the alias resolves to the root and everything reachable from the
    root over the links of the stored blocks is in the node - unless the storage reports
    an error - and the node asked the network for nothing. *)
Theorem stored_tree_complete `{L : Libp2p, I : Ipld, C : !Encoder, B : !BlockStore,
    BL : !BlockStoreLaws, N : !Protocols, CE : !Channels Event, CG : !Channels GossipEvent,
    CS : !Channels SyncEvent, CL : !Channels ListenerEvent, CC : !Bounded NetworkCommand}
    width depth (g : Rng) a root bs (n n' : Ipfs) :
  (build_tree width depth g).1 = Ok (root, bs) → store_dag a root bs n = (Ok (), n') →
  (∀ r, (store_resolve a n').1 = Ok r → r = Some root) ∧
  (∀ c r, rtc (links_to bs) root c → (store_contains c n').1 = Ok r → r = true) ∧
  network n' = network n.
Proof.
  unfold build_tree. destruct (build_tree_0 _ _ [] g) as [[[c0|] bs0] g'] eqn:E; [|done].
  cbn. intros [= -> ->]. apply build_tree_0_tree in E as (bs' & -> & Ht). cbn.
  apply (proj1 (tree_forest_facts _)) in Ht as (_ & Hlast & Hback & _).
  intros Hs. destruct (store_dag_complete a root bs' n n' Hback Hs) as [Hr Hc]. split_and!.
  - exact Hr.
  - intros c r Hrtc Hok. apply fmap_Some in Hlast as (b & Hb%last_Some_elem_of & Hroot).
    apply rtc_inv_r in Hrtc as [<-|(c1 & _ & (b1 & Hb1 & _ & Hl))].
    + apply (Hc b root r Hb); auto.
    + apply (Hc b1 c r Hb1); auto.
  - pose proof (store_dag_network a root bs' n) as Hn. by rewrite Hs in Hn.
Qed.

(** Width 2 and depth 1, stored under the name [1]. *)
Definition tree0 : result (Cid * list Block) EncodeError := (build_tree 2 1 rng0).1.
Definition dag0 : list Block := match tree0 with Ok (_, bs) => bs | Err _ => [] end.
Definition root0 : Cid := match tree0 with Ok (c, _) => c | Err _ => 0%N end.

Lemma stored_tree_complete_witness :
  ∃ n', store_dag [1] root0 dag0 ipfs0 = (Ok (), n') ∧
    (store_resolve [1] n').1 = Ok (Some root0).
Proof.
  destruct (store_dag [1] root0 dag0 ipfs0) as [[[]|e] n'] eqn:E;
    [|exfalso; apply (f_equal (λ x, is_ok x.1)) in E; by vm_compute in E].
  exists n'. split; [done|].
  destruct (stored_tree_complete 2 1 rng0 [1] root0 dag0 ipfs0 n') as (Hr & _).
  - vm_compute. reflexivity.
  - exact E.
  - apply (f_equal (λ x, is_ok (store_resolve [1] x.2).1)) in E.
    destruct (store_resolve [1] n').1 as [r|e] eqn:Er.
    + by rewrite (Hr r eq_refl).
    + cbn [snd] in E. rewrite Er in E. by vm_compute in E.
Defined.
