(* ===== verification/Sync.v ===== *)
(** * Synchronising a DAG

    [Ipfs::sync] ([src/lib.rs]) asks the storage which blocks of a DAG are missing and hands
    them to bitswap, which fetches them, inserts them through the same storage and asks
    again.  Meanwhile clients and the collector use the storage, too.  If the root is
    named before, then after a successful sync the DAG is complete. *)

From S2P Require Import Prelude Libp2p Duration PeerInfo AddressHandler Channel Peers PeersReach.
From S2P Require Import Ipld Db DbSpec Retention Behaviour Network NetworkService NetToy Config.
From S2P Require Import NetworkClient Ipfs IpfsSpec Harness IpfsStore.

Open Scope Z_scope.

Section content.
Context `{I : Ipld, B : !BlockStore, BL : !BlockStoreLaws} (data_of : Cid → Bytes).
Implicit Types (sv : StorageService) (v : View).

(** Content addressing: a content id stands for certain bytes.  What is stored is what
    its content id stands for. *)
Definition addressed (v : View) : Prop := ∀ c d, v_blocks v !! c = Some d → d = data_of c.

(** An action that inserts only such blocks and leaves the alias [a] alone. *)
Definition genuine (a : Bytes) (x : action) : Prop :=
  match x with
  | ACall (CAlias a' _) => a' ≠ a
  | ACall (CInsert b) => block_data b = data_of (block_cid b)
  | _ => True
  end.

(** Nothing that can be reached from the root is missing. *)
Definition complete (v : View) (root : Cid) : Prop :=
  ∀ m, reach links v root m → is_Some (v_blocks v !! m).

Definition genuine_run (a : Bytes) sv sv' : Prop :=
  ∃ xs, action_run sv xs sv' ∧ ∀ x, x ∈ xs → genuine a x.

Lemma genuine_harmless v a root x : addressed v → genuine a x → harmless v a root x.
Proof.
  intros Hv Hg. destruct x as [c| |]; try done. destruct c; try done. cbn in *.
  intros d _ Hd. apply Hv in Hd. congruence.
Qed.

(** Such an action only removes blocks, or it adds one with the bytes it stands for. *)
Definition changes_by v v' : Prop :=
  v_blocks v' ⊆ v_blocks v ∨ ∃ c, v_blocks v' = <[c := data_of c]> (v_blocks v).

Lemma spec_changes v c r v' a :
  genuine a (ACall c) → addressed v → spec v c r v' → changes_by v v'.
Proof.
  intros Hg Hv Hs. destruct Hs; try by left. cbn in Hg. right. exists (block_cid b). cbn.
  destruct H as [->|H]; [by rewrite Hg | by rewrite (Hv _ _ H)].
Qed.

Lemma step_changes sv x sv' a :
  genuine a x → addressed (sview sv) → action_step sv x sv' → changes_by (sview sv) (sview sv').
Proof.
  intros Hg Hv Hs. destruct Hs as [sv x]. destruct x as [c| |]; cbn [perform].
  - pose proof (exec_refines c sv) as H. unfold refines in H.
    destruct (exec c sv) as [[r|e] sv']; cbn; [by eapply spec_changes|].
    destruct H as [->|[r H]]; [by left | by eapply spec_changes].
  - left. unfold gc_round. destruct (gc_task sv); [|done].
    destruct (incremental_gc _ _ (store sv)) as [r s'] eqn:Hc. apply gc_view in Hc as (_ & _ & Hc).
    by apply map_subseteq_spec.
  - left. pose proof (evict_round_collected sv) as (_ & _ & Hc). by apply map_subseteq_spec.
Qed.

Lemma changes_addressed v v' : addressed v → changes_by v v' → addressed v'.
Proof.
  intros Hv [Hs|[c Hc]] c' d; [intros Hd; apply Hv; by eapply lookup_weaken|].
  rewrite Hc, lookup_insert. case_decide; [congruence | apply Hv].
Qed.

(** Along such actions everything stays addressed, and an alias keeps its DAG. *)
Lemma genuine_run_retains a root sv sv' :
  genuine_run a sv sv' → addressed (sview sv) → v_aliases (sview sv) !! a = Some root →
  addressed (sview sv') ∧ retains (sview sv) a root (sview sv').
Proof.
  intros (xs & Hr & Hg) Hv Ha. set (v := sview sv) in *.
  assert (retains v a root (sview sv)) as H0 by done. assert (addressed (sview sv)) as H1 by done.
  clearbody v. clear Ha. revert H0 H1 Hg.
  induction Hr as [sv|sv x sv1 xs sv2 Hs _ IH]; [done|]. intros H0 H1 Hg. apply IH.
  - eapply step_retains; [|exact H0|exact Hs]. apply genuine_harmless, Hg; [done | left].
  - eapply changes_addressed, step_changes; [done|apply Hg; left|done|exact Hs].
  - intros y Hy. apply Hg. by right.
Qed.

(** A complete DAG stays complete. *)
Lemma retains_complete v a root v' :
  complete v root → retains v a root v' → complete v' root.
Proof.
  intros Hc Hr.
  assert (∀ m, reach links v' root m → reach links v root m) as Hback.
  { unfold reach. apply rtc_ind_r; [done|]. intros c c' _ (d & Hd & Hl) IH.
    eapply rtc_r; [exact IH|]. destruct (Hc c IH) as [d' Hd'].
    exists d'. split; [done|]. apply Hr in Hd' as Hd1; [|done]. by simplify_eq. }
  intros m Hm%Hback. destruct (Hc m Hm) as [d Hd]. exists d. by apply Hr.
Qed.

(** In a complete view, links in the content that ids stand for can be followed. *)
Lemma content_reach v root (R : Cid → Cid → Prop) c :
  addressed v → complete v root → (∀ x y, R x y → y ∈ links x (data_of x)) →
  rtc R root c → reach links v root c.
Proof.
  intros Hv Hc HR. unfold reach. revert c. apply rtc_ind_r; [done|]. intros x y _ Hxy IH.
  eapply rtc_r; [exact IH|]. destruct (Hc x IH) as [d Hd]. exists d. split; [done|].
  apply Hv in Hd as ->. by apply HR.
Qed.

(** Then what the id stands for is stored. *)
Lemma content_stored v root (R : Cid → Cid → Prop) c :
  addressed v → complete v root → (∀ x y, R x y → y ∈ links x (data_of x)) →
  rtc R root c → v_blocks v !! c = Some (data_of c).
Proof.
  intros Hv Hc HR Hr. eapply content_reach in Hr; [|done..]. destruct (Hc _ Hr) as [d Hd].
  rewrite Hd. f_equal. by apply Hv.
Qed.

(** ** The blocks that are pending *)

Lemma reach_mono v v' c m :
  v_blocks v ⊆ v_blocks v' → reach links v c m → reach links v' c m.
Proof.
  intros Hs. apply rtc_subrel. intros x y (d & Hd & Hl). exists d. split; [|done].
  by eapply lookup_weaken.
Qed.

(** Everything that is missing is below a pending block. *)
Definition below (P : list Cid) (root : Cid) (v : View) : Prop :=
  ∀ m, reach links v root m → v_blocks v !! m = None →
    ∃ p, p ∈ P ∧ reach links v root p ∧ reach links v p m.

(** It stays so when the collector removes what is not pinned. *)
Lemma retains_reach_from v a root v' p m :
  retains v a root v' → reach links v root p → reach links v p m → reach links v' p m.
Proof.
  intros [_ Hb] Hp Hm. unfold reach in *. revert m Hm. apply rtc_ind_r; [done|].
  intros x y Hx (d & Hd & Hl) IH. eapply rtc_r; [exact IH|]. exists d. split; [|done].
  apply Hb; [|done]. by etrans.
Qed.

Lemma below_shrinks P a root v v' :
  v_blocks v' ⊆ v_blocks v → retains v a root v' → below P root v → below P root v'.
Proof.
  intros Hs Hr Hb m Hm Hn. apply (reach_mono _ v) in Hm; [|done].
  destruct (v_blocks v !! m) as [d|] eqn:Hd.
  { apply Hr in Hd; [congruence|done]. }
  destruct (Hb m Hm Hd) as (p & Hp & H1 & H2). exists p.
  split_and!; [done|by eapply retains_reach|by eapply retains_reach_from].
Qed.

(** And when a block arrives: what is missing below it is below what it was below. *)
Lemma reach_insert v c d v' root m :
  v_blocks v' = <[c := d]> (v_blocks v) → reach links v' root m →
  reach links v root m ∨ reach links v root c ∧ reach links v' c m.
Proof.
  intros Hv. unfold reach. revert m. apply rtc_ind_r; [by left|].
  intros x y _ (d' & Hd & Hl) IH. destruct (decide (x = c)) as [->|Hx].
  - right. destruct IH as [IH|[IH _]]; (split; [done|]); apply rtc_once; by exists d'.
  - destruct IH as [IH|[IH1 IH2]]; [left|right; split; [done|]]; (eapply rtc_r; [done|]); exists d';
      split; [|done| |done]; by rewrite Hv, lookup_insert_ne in *.
Qed.

Lemma below_grows P root v c v' :
  addressed v → v_blocks v' = <[c := data_of c]> (v_blocks v) → below P root v → below P root v'.
Proof.
  intros Ha Hv Hb m Hm Hn.
  assert (v_blocks v ⊆ v_blocks v') as Hs.
  { rewrite Hv. destruct (v_blocks v !! c) as [d|] eqn:Hd; [|by apply insert_subseteq].
    rewrite insert_id; [done|]. by rewrite Hd, (Ha _ _ Hd). }
  assert (v_blocks v !! m = None) as Hm0 by by eapply lookup_weaken_None.
  assert (∀ x, reach links v root x → v_blocks v !! x = None → reach links v' x m →
    ∃ p, p ∈ P ∧ reach links v' root p ∧ reach links v' p m) as Hx.
  { intros x Hx Hd Hxm. destruct (Hb x Hx Hd) as (p & Hp & H1 & H2). exists p.
    split_and!; [done|by eapply reach_mono|]. unfold reach in *. etrans; [|exact Hxm].
    by eapply reach_mono. }
  destruct (reach_insert v c (data_of c) v' root m Hv Hm) as [Hm1|[Hc Hcm]]; [by apply (Hx m)|].
  destruct (v_blocks v !! c) as [d|] eqn:Hd; [|by apply (Hx c)].
  apply (Hx m); [|done..]. apply (reach_mono v' v); [|done]. rewrite Hv, insert_id; [done|].
  by rewrite Hd, (Ha _ _ Hd).
Qed.

Lemma missing_answer c sv l sv' :
  missing_blocks c sv = (Ok l, sv') →
  sview sv' = sview sv ∧ ∀ m, m ∈ l ↔ v_blocks (sview sv) !! m = None ∧ reach links (sview sv) c m.
Proof.
  intros H. pose proof (exec_refines (CMissing c) sv) as Hs. unfold refines in Hs.
  cbn [exec] in Hs. unfold answer in Hs. rewrite H in Hs. cbn in Hs. by inversion Hs.
Qed.

(** ** A query of bitswap *)

(** The blocks a sync query still waits for, and the storage.  While the query waits others
    use the storage, and blocks arrive.  A pending block is done with by asking the storage
    what is missing below it; that becomes pending. *)
Inductive sync_step (a : Bytes) : list Cid * StorageService → list Cid * StorageService → Prop :=
| sync_meanwhile P sv x sv' :
    action_step sv x sv' → genuine a x → sync_step a (P, sv) (P, sv')
| sync_settled P c sv l sv' :
    c ∈ P → bitswap_missing_blocks c sv = (Ok l, sv') →
    sync_step a (P, sv) (filter (λ p, p ≠ c) P ++ l, sv').

(** The name leads to the DAG and the store is content addressed. *)
Definition ready_for (a : Bytes) (c : Cid) (sv : StorageService) : Prop :=
  addressed (sview sv) ∧ v_aliases (sview sv) !! a = Some c.

Lemma sync_step_below a root s s' :
  sync_step a s s' → ready_for a root s.2 → below s.1 root (sview s.2) →
  ready_for a root s'.2 ∧ below s'.1 root (sview s'.2).
Proof.
  intros Hs [Hv Ha] Hb. destruct Hs as [P sv x sv' Hs Hg|P c sv l sv' Hc Hl]; cbn in *.
  - pose proof (step_changes _ _ _ _ Hg Hv Hs) as Hch.
    assert (retains (sview sv) a root (sview sv')) as Hr
      by (eapply step_retains; [by apply genuine_harmless | done | exact Hs]).
    split; [split; [by eapply changes_addressed | apply Hr]|].
    destruct Hch as [Hch|[c Hch]]; [by eapply below_shrinks | by eapply below_grows].
  - apply missing_answer in Hl as [Heq Hl]. unfold ready_for. rewrite Heq. split; [done|].
    intros m Hm Hn. destruct (Hb m Hm Hn) as (p & Hp & H1 & H2).
    destruct (decide (p = c)) as [->|Hne].
    + exists m. split_and!; [|done|constructor]. apply elem_of_app. right. by apply Hl.
    + exists p. split_and!; [|done..]. apply elem_of_app. left. by apply list_elem_of_filter.
Qed.

(** A query that began with all that was missing and waits for nothing leaves a complete
    DAG. *)
Lemma sync_run_complete a root l sv sv' :
  rtc (sync_step a) (l, sv) ([], sv') → ready_for a root sv → below l root (sview sv) →
  ready_for a root sv' ∧ complete (sview sv') root.
Proof.
  intros Hrun. assert (∀ s s', rtc (sync_step a) s s' → ready_for a root s.2 →
    below s.1 root (sview s.2) → ready_for a root s'.2 ∧ below s'.1 root (sview s'.2)) as Hinv.
  { induction 1 as [|s1 s2 s3 Hs _ IH]; [done|]. intros H1 H2.
    destruct (sync_step_below _ _ _ _ Hs H1 H2). by apply IH. }
  intros H1 H2. destruct (Hinv _ _ Hrun H1 H2) as [H3 H4]. split; [done|]. intros m Hm.
  destruct (v_blocks _ !! m) eqn:E; [by eexists|]. destruct (H4 m Hm E) as (p & Hp & _).
  by apply not_elem_of_nil in Hp.
Qed.
End content.

Section sync.
Context `{L : Libp2p, I : Ipld, B : !BlockStore, BL : !BlockStoreLaws, N : !Protocols,
          CE : !Channels Event, CG : !Channels GossipEvent, CS : !Channels SyncEvent,
          CL : !Channels ListenerEvent, CC : !Bounded NetworkCommand}.
Implicit Types (n : Ipfs).

(** How the futures of a sync of [c] end, if everybody else leaves the alias [a] alone.  A
    query that was born ready has its result.  For a [Sync] command bitswap runs a query,
    which gets the missing blocks named in the command; when a block is there it runs a
    [missing_blocks] query on the storage, and the query completes when no block is
    pending. *)
Record sync_protocol (data_of : Cid → Bytes) (a : Bytes) (c : Cid) (w : Awaits) : Prop := {
  ready_result r sv : (await_complete w (SyncQuery_ready r) sv).1 = r;
  ready_meanwhile r sv : genuine_run data_of a sv (await_complete w (SyncQuery_ready r) sv).2;
  sync_registered cs rx sv q : (await_sync w cs rx sv).1 = Some q → sq_id q ≠ None;
  sync_fetches cs ps missing rx sv q sv1 :
    last cs = Some (Sync c ps missing rx) → await_sync w cs rx sv = (Some q, sv1) →
    (await_complete w q sv1).1 = Ok () →
    rtc (sync_step data_of a) (missing, sv) ([], (await_complete w q sv1).2);
}.

Context (data_of : Cid → Bytes) (a : Bytes) (c : Cid) (w : Awaits).
Hypothesis (Hw : sync_protocol data_of a c w).

Lemma genuine_run_complete sv sv' :
  genuine_run data_of a sv sv' → ready_for data_of a c sv → complete (sview sv) c →
  ready_for data_of a c sv' ∧ complete (sview sv') c.
Proof.
  intros Hr [Hv Ha] Hc. destruct (genuine_run_retains _ _ _ _ _ Hr Hv Ha) as [? Hk].
  split; [split; [done | apply Hk]|]. by eapply retains_complete.
Qed.

(** [ipfs.sync(..).await?.await?]. *)
Lemma run_sync_complete provs n n' :
  ready_for data_of a c (storage n) → is_ok (missing_blocks c (storage n)).1 = true →
  run_sync w c provs n = (Ok (), n') →
  ready_for data_of a c (storage n') ∧ complete (sview (storage n')) c.
Proof.
  intros Hr Hm. unfold run_sync, sync.
  destruct (missing_blocks c (storage n)) as [[missing|] sv] eqn:El; [|done].
  apply missing_answer in El as [Hv Hl]. cbn [storage network].
  assert (ready_for data_of a c sv) as Hsv by (unfold ready_for in *; by rewrite Hv).
  unfold svc_sync. destruct missing as [|m missing]; cbn [storage network].
  - pose proof (ready_meanwhile _ _ _ _ Hw (Ok ()) sv) as Hrun.
    destruct (await_complete w (SyncQuery_ready (Ok ())) sv) as [[[]|e] sv'] eqn:Ea; [|done].
    intros [= <-]. eapply genuine_run_complete; [exact Hrun|done|]. rewrite Hv. intros m Hm'.
    destruct (v_blocks _ !! m) eqn:E; [by eexists|]. exfalso. by eapply not_elem_of_nil, Hl.
  - destruct provs as [|p provs].
    { cbn [storage network]. pose proof (ready_result _ _ _ _ Hw (Err (NetBlockNotFound m)) sv) as He.
      destruct (await_complete w _ sv) as [r sv']. cbn in He. by subst r. }
    pose proof (request_queued (Sync c (p :: provs) (m :: missing)) (network n)) as Hq.
    destruct (request _ (network n)) as [[e|rx] cl]; [done|]. cbn [storage network].
    destruct Hq as (_ & _ & Hq). unfold queued in Hq. rewrite Hq.
    destruct (await_sync w _ rx sv) as [[q|] sv1] eqn:Es; [|done]. cbn [storage network].
    pose proof (sync_fetches _ _ _ _ Hw _ _ _ _ _ _ _ (last_snoc _ _) Es) as Hrun.
    destruct (await_complete w q sv1) as [[[]|e] sv'] eqn:Ea; [|done].
    intros [= <-]. eapply sync_run_complete; [by apply Hrun|done|].
    rewrite Hv. intros x Hx Hn. exists x. split_and!; [by apply Hl|done|constructor].
Qed.
End sync.

(** C8: synchronising works.  Let the root of a DAG made by [build_tree] - the links in its
    blocks are their references - be named in a content-addressed node whose storage can
    tell what is missing when [sync] is called.  [sync] hands the missing blocks to bitswap.
    Of bitswap it is assumed that its query settles every block that is pending by asking
    the storage what is missing below it, which then is pending, too, and reports success
    only when nothing is pending; meanwhile, in any interleaving, blocks arrive and clients
    and the collector use the storage, but nobody re-defines the alias or inserts other
    bytes than a content id stands for.  If [sync] with any providers then reports success,
    every block of the DAG is stored with its bytes and the name still leads to the root. *)
Theorem synced_tree_complete `{L : Libp2p, I : Ipld, C : !Encoder, B : !BlockStore,
    BL : !BlockStoreLaws, N : !Protocols, CE : !Channels Event, CG : !Channels GossipEvent,
    CS : !Channels SyncEvent, CL : !Channels ListenerEvent, CC : !Bounded NetworkCommand}
    (data_of : Cid → Bytes) width depth (g : Rng) a root bs w provs (n n' : Ipfs) :
  (build_tree width depth g).1 = Ok (root, bs) →
  (∀ b, b ∈ bs → links (block_cid b) (block_data b) = references b ∧
                 data_of (block_cid b) = block_data b) →
  sync_protocol data_of a root w →
  addressed data_of (sview (storage n)) → v_aliases (sview (storage n)) !! a = Some root →
  is_ok (missing_blocks root (storage n)).1 = true →
  run_sync w root provs n = (Ok (), n') →
  v_aliases (sview (storage n')) !! a = Some root ∧
  ∀ b, b ∈ bs → blocks n' !! block_cid b = Some (block_data b).
Proof.
  unfold build_tree. destruct (build_tree_0 _ _ [] g) as [[[c0|] bs0] g'] eqn:E; [|done].
  cbn. intros [= -> ->]. apply build_tree_0_tree in E as (bs' & -> & Ht). cbn.
  apply (proj1 (tree_forest_facts _)) in Ht as (_ & _ & _ & Hreach).
  intros Hbs Hw Hv Ha Hm Hs.
  destruct (run_sync_complete data_of a root w Hw provs n n' (conj Hv Ha) Hm Hs) as [[Hv' Ha'] Hc].
  split; [done|]. intros b Hb. destruct (Hbs b Hb) as [_ <-].
  apply (content_stored data_of (sview (storage n')) root (links_to bs')); [done|done| |by apply Hreach].
  intros x y (b1 & Hb1 & <- & Hl). destruct (Hbs b1 Hb1) as [Hl1 Hd1]. by rewrite Hd1, Hl1.
Qed.

(** ** A node that gets the small tree from a peer *)

Definition dag_data (c : N) : Bytes :=
  default [] (snd <$> list_find (λ b : N * Bytes, b.1 = c) dag0 ≫= λ x, Some x.2).

Definition block_of (c : N) : Block (Ipld := numbered) := (c, dag_data c).

(** The first pending block arrives and is settled, and so on. *)
Fixpoint fetch_pending (fuel : nat) (P : list N) (sv : StorageService (B := mem_store))
    : option (StorageService (B := mem_store)) :=
  match fuel, P with
  | _, [] => Some sv
  | O, _ => None
  | S fuel, c :: _ =>
      let sv := (exec (CInsert (block_of c)) sv).2 in
      match bitswap_missing_blocks c sv with
      | (Ok l, sv) => fetch_pending fuel (filter (λ p, p ≠ c) P ++ l) sv
      | (Err _, _) => None
      end
  end.

Lemma fetch_pending_run a fuel P sv sv' :
  fetch_pending fuel P sv = Some sv' → rtc (sync_step dag_data a) (P, sv) ([], sv').
Proof.
  revert P sv. induction fuel as [|fuel IH]; intros [|c P] sv; cbn [fetch_pending]; try by intros [= <-].
  set (sv1 := (exec (CInsert (block_of c)) sv).2).
  destruct (bitswap_missing_blocks _ sv1) as [[l|e] sv2] eqn:Hl; [|done]. intros H.
  apply (rtc_l _ _ (c :: P, sv1)).
  { by apply (@sync_meanwhile numbered mem_store dag_data a (c :: P) sv (ACall (CInsert (block_of c)))). }
  eapply rtc_l; [|by apply IH]. apply (@sync_settled numbered mem_store dag_data a (c :: P) c); [left|done].
Qed.

Definition sync_awaits : Awaits (B := mem_store) (N := toy_protocols) := {|
  await_query := λ _ sv, (None, sv);
  await_get := λ _ sv, (None, sv);
  await_sync := λ cs _ sv,
    let query r := Some (MkSyncQuery (Some (QBitswap (0%nat : BitswapQueryId))) [Complete r] false) in
    match last cs with
    | Some (Sync _ _ missing _) =>
        match fetch_pending 9 missing sv with
        | Some sv => (query (Ok ()), sv)
        | None => (query (Err NotBootstrapped), sv)
        end
    | _ => (None, sv)
    end;
  await_complete := λ q sv,
    match sq_queue q with Complete r :: _ => (r, sv) | _ => (Err NotBootstrapped, sv) end;
|}.

Lemma sync_awaits_protocol a c : sync_protocol dag_data a c sync_awaits.
Proof.
  split.
  - done.
  - intros r sv. exists []. split; [apply run_nil|]. by intros x ?%not_elem_of_nil.
  - intros cs rx sv q. cbn -[fetch_pending]. destruct (last cs) as [[]|]; try done.
    destruct (fetch_pending 9 missing sv); by intros [= <-].
  - intros cs ps missing rx sv q sv1 Hcs. cbn -[fetch_pending]. rewrite Hcs.
    destruct (fetch_pending 9 missing sv) as [sv'|] eqn:Hf; intros [= <- <-]; [|done].
    intros _. by eapply fetch_pending_run.
Qed.

Definition synced_node0 : Ipfs (B := mem_store) :=
  MkIpfs (alias [1] (Some root0) service0).2 client0.

Lemma synced_tree_complete_witness :
  ∃ n', run_sync sync_awaits root0 [peer_b] synced_node0 = (Ok (), n') ∧
    ∀ b, b ∈ dag0 → blocks n' !! block_cid b = Some (block_data b).
Proof.
  destruct (run_sync sync_awaits root0 [peer_b] synced_node0) as [[[]|e] n'] eqn:E;
    [|exfalso; apply (f_equal (λ x, is_ok x.1)) in E; by vm_compute in E].
  exists n'. split; [done|].
  apply (synced_tree_complete (I := numbered) (C := toy_encoder) (B := mem_store) (BL := mem_laws)
    dag_data 2 1 rng0 [1] root0 dag0 sync_awaits [peer_b] synced_node0 n').
  - by vm_compute.
  - assert (Forall (λ b : N * Bytes, m_links b.1 b.2 = (Z.to_N <$> b.2) ∧ dag_data b.1 = b.2) dag0)
      as Hall by (apply (bool_decide_unpack _); by vm_compute).
    apply (proj1 (Forall_forall _ _) Hall).
  - apply sync_awaits_protocol.
  - intros c d Hd. exfalso. by vm_compute in Hd.
  - by vm_compute.
  - by vm_compute.
  - exact E.
Defined.
