(* ===== verification/SyncExample.v ===== *)
(** * The examples [examples/sync.rs] and [examples/compat.rs]

    [sync.rs]: one node imports a chain of a thousand blocks under a temporary pin and names
    its head; another node names the same head and synchronises.  [compat.rs]: a node
    fetches two blocks from a given peer and synchronises a DAG with it.  The nodes are
    given as started; the encoder and the random generator are parameters. *)

From S2P Require Import Prelude Libp2p Duration PeerInfo AddressHandler Channel Peers PeersReach.
From S2P Require Import Ipld Db DbSpec Retention Behaviour Network NetworkService NetToy Config.
From S2P Require Import NetworkClient Ipfs IpfsSpec Harness IpfsStore Sync.

Open Scope Z_scope.

(** [Node]. *)
Record ChainNode `{I : Ipld} : Type := MkChainNode {
  cn_prev : option Cid;
  cn_id : Z;
  cn_payload : Bytes;
}.

(** [Block::encode(DagCborCodec, Code::Blake3_256, &node)], the links of a block, and
    [rand::thread_rng]; the encoding of a node links to its predecessor. *)
Class ChainEncoder `{I : Ipld} := {
  ChainError : Type;
  ChainRng : Type;
  chain_fill : nat → ChainRng → Bytes * ChainRng;
  chain_encode : ChainNode → result Block ChainError;
  chain_refs : Block → list Cid;
  chain_refs_encode n b : chain_encode n = Ok b → chain_refs b = option_list (cn_prev n);
}.

(** [NodeBuilder]; the default is an empty chain. *)
Record NodeBuilder `{I : Ipld} : Type := MkNodeBuilder {
  nb_id : Z;
  nb_prev : option Cid;
}.
Definition NodeBuilder_default `{I : Ipld} : NodeBuilder := MkNodeBuilder _ 0 None.

Section example.
Context `{L : Libp2p, I : Ipld, E : !ChainEncoder, B : !BlockStore, N : !Protocols,
          CE : !Channels Event, CG : !Channels GossipEvent, CS : !Channels SyncEvent,
          CL : !Channels ListenerEvent, CC : !Bounded NetworkCommand, P : Profile}.
Implicit Types (a b : Ipfs) (nb : NodeBuilder) (g : ChainRng).

Inductive ExampleError : Type :=
| ExEncode (e : ChainError)
| ExIpfs (e : IpfsError).

(** [NodeBuilder::create]. *)
Definition NodeBuilder_create nb g : outcome (result Block ExampleError * NodeBuilder * ChainRng) :=
  let '(payload, g) := chain_fill 4096 g in
  match chain_encode (MkChainNode _ (nb_prev nb) (nb_id nb) payload) with
  | Err e => Done (Err (ExEncode e), nb, g)
  | Ok block =>
      id ← add_u 32 (nb_id nb) 1;
      Done (Ok block, MkNodeBuilder _ id (Some (block_cid block)), g)
  end.

(** [f(..)?] on a node. *)
Definition ask {A X} (x : result A IpfsError * Ipfs)
    (k : A → Ipfs → outcome (result X ExampleError)) : outcome (result X ExampleError) :=
  match x with
  | (Ok r, n) => k r n
  | (Err e, _) => Done (Err (ExIpfs e))
  end.

(** [for _ in 0..1000]: create, pin and insert a block. *)
Fixpoint import_chain (n : nat) (tmp : TempPin) nb a g
    : outcome (result (NodeBuilder * Ipfs) ExampleError) :=
  match n with
  | O => Done (Ok (nb, a))
  | S n =>
      '(r, nb, g) ← NodeBuilder_create nb g;
      match r with
      | Err e => Done (Err e)
      | Ok block =>
          let '(r, tmp, a) := ipfs_temp_pin tmp (block_cid block) a in
          ask (r, a) (λ _ a, ask (ipfs_insert block a) (λ _ a, import_chain n tmp nb a g))
      end
  end.

(** [main], from the import on; [provider] is [a.local_peer_id()], [w] how the futures of
    [b] end, and [a_flushed], [b_flushed] whether the tasks that flush were joined. *)
Definition sync_main (w : Awaits) (ROOT : Bytes) (provider : PeerId) (a_flushed b_flushed : bool)
    (count : nat) a b g : outcome (result (NodeBuilder * Ipfs * Ipfs) ExampleError) :=
  ask (ipfs_create_temp_pin a) (λ tmp a,
    imported ← import_chain count tmp NodeBuilder_default a g;
    match imported with
    | Err e => Done (Err e)
    | Ok (nb, a) =>
        ask (ipfs_alias ROOT (nb_prev nb) a) (λ _ a,
        ask (ipfs_flush a_flushed a) (λ _ a,
        ask (ipfs_alias ROOT (nb_prev nb) b) (λ _ b,
          root ← unwrap (nb_prev nb);
          ask (run_sync w root [provider] b) (λ _ b,
          ask (ipfs_flush b_flushed b) (λ _ b, Done (Ok (nb, a, b)))))))
    end).

(** ** The chain *)

(** Blocks each of which links to the one before, the first one to [p]. *)
Inductive chain : option Cid → list Block → option Cid → Prop :=
| chain_nil p : chain p [] p
| chain_cons p blk bs q :
    (∃ nd, chain_encode nd = Ok blk ∧ cn_prev nd = p) → chain (Some (block_cid blk)) bs q →
    chain p (blk :: bs) q.

Lemma create_Ok nb g blk nb' g' :
  NodeBuilder_create nb g = Done (Ok blk, nb', g') →
  (∃ nd, chain_encode nd = Ok blk ∧ cn_prev nd = nb_prev nb) ∧ nb_prev nb' = Some (block_cid blk).
Proof.
  unfold NodeBuilder_create. destruct (chain_fill 4096 g) as [payload g1].
  destruct (chain_encode _) as [blk'|] eqn:Eb; [|done].
  destruct (add_u 32 (nb_id nb) 1); cbn; [|done]. intros [= <- <- <-]. split; [by eexists|done].
Qed.

Lemma create_id nb g :
  0 ≤ nb_id nb < 2 ^ 32 - 1 →
  ∃ r nb' g', NodeBuilder_create nb g = Done (r, nb', g') ∧ 0 ≤ nb_id nb' ≤ nb_id nb + 1.
Proof.
  intros Hid. unfold NodeBuilder_create. destruct (chain_fill 4096 g) as [payload g1].
  destruct (chain_encode _) as [blk|e]; cbn.
  - unfold add_u, checked, fits. rewrite bool_decide_true by lia. cbn.
    do 3 eexists. split; [done|]. cbn. lia.
  - do 3 eexists. split; [done|]. lia.
Qed.

(** The counter of at most [2^32 - 1] blocks does not overflow. *)
Lemma import_no_panic n tmp nb a g :
  0 ≤ nb_id nb → nb_id nb + Z.of_nat n < 2 ^ 32 → import_chain n tmp nb a g ≠ Panicked.
Proof.
  revert tmp nb a g. induction n as [|n IH]; intros tmp nb a g H0 Hn; cbn [import_chain]; [done|].
  destruct (create_id nb g) as (r & nb' & g' & -> & Hid); [lia|]. cbn.
  destruct r as [blk|e]; [|done]. destruct (ipfs_temp_pin tmp _ a) as [[[] tmp'] a1]; cbn; [|done].
  destruct (ipfs_insert blk a1) as [[] a2]; cbn; [|done]. apply IH; lia.
Qed.

Context {BL : BlockStoreLaws}.

Definition stored (n : Ipfs) (c : Cid) : Prop := is_Some (blocks n !! c).

Lemma insert_stored blk a u a' :
  ipfs_insert blk a = (Ok u, a') → stored a' (block_cid blk) ∧ ∀ c, stored a c → stored a' c.
Proof.
  intros H. pose proof (on_storage_exec (insert_block blk) (λ _, RUnit) (CInsert blk) a (λ _, eq_refl))
    as Hs. unfold ipfs_insert in H. rewrite H in Hs. unfold stored, blocks.
  remember (sview (storage a')) as v' eqn:Hv'. clear Hv'.
  inversion Hs as [| | | | |? ? d Hd| | | | | | |]; subst. cbn.
  split; [rewrite lookup_insert_eq; by eexists|]. intros c Hc. rewrite lookup_insert.
  case_decide; [by eexists | done].
Qed.

Lemma temp_pin_contents tmp c a :
  sview (storage (ipfs_temp_pin tmp c a).2) = sview (storage a).
Proof.
  pose proof (exec_read (CTempPin tmp [c]) (storage a) eq_refl) as Hv. cbn [exec] in Hv.
  unfold ipfs_temp_pin. by destruct (temp_pin tmp [c] (storage a)) as [[r p] sv].
Qed.

Lemma import_chain_Ok n tmp nb a g nb' a' :
  import_chain n tmp nb a g = Done (Ok (nb', a')) →
  ∃ bs, length bs = n ∧ chain (nb_prev nb) bs (nb_prev nb') ∧
    (∀ blk, blk ∈ bs → stored a' (block_cid blk)) ∧ ∀ c, stored a c → stored a' c.
Proof.
  revert tmp nb a g. induction n as [|n IH]; intros tmp nb a g; cbn [import_chain].
  { intros [= <- <-]. exists []. split_and!; [done|constructor|by intros ? ?%not_elem_of_nil|done]. }
  destruct (NodeBuilder_create nb g) as [[[r nb1] g1]|] eqn:Ec; cbn; [|done].
  destruct r as [blk|]; [|done]. apply create_Ok in Ec as [Hnd Hprev].
  pose proof (temp_pin_contents tmp (block_cid blk) a) as Hp.
  destruct (ipfs_temp_pin tmp (block_cid blk) a) as [[[] tmp1] a1]; cbn; [|done]. cbn in Hp.
  destruct (ipfs_insert blk a1) as [[u1|] a2] eqn:Ei; cbn; [|done].
  apply insert_stored in Ei as [Hblk Hold]. intros (bs & Hlen & Hch & Hin & Hkeep)%IH.
  exists (blk :: bs). rewrite Hprev in Hch. split_and!; [by f_equal/=|by constructor| |].
  - intros b0 [->|Hb]%elem_of_cons; auto.
  - intros c Hc. apply Hkeep, Hold. unfold stored, blocks in *. by rewrite Hp.
Qed.

(** The head of a chain leads to all its blocks. *)
Lemma chain_from (R : Cid → Cid → Prop) p bs q :
  (∀ blk nd c, chain_encode nd = Ok blk → cn_prev nd = Some c → R (block_cid blk) c) →
  chain p bs q → ∀ c, p = Some c → ∃ root, q = Some root ∧ rtc R root c.
Proof.
  intros HR. induction 1 as [p|p blk bs q (nd & He & Hnd) _ IH]; intros c ->; [by exists c|].
  destruct (IH _ eq_refl) as (root & -> & Hr). exists root. split; [done|].
  eapply rtc_r; [exact Hr|]. by eapply HR.
Qed.

Lemma chain_reach (R : Cid → Cid → Prop) p bs q :
  (∀ blk nd c, chain_encode nd = Ok blk → cn_prev nd = Some c → R (block_cid blk) c) →
  chain p bs q → ∀ blk, blk ∈ bs → ∃ root, q = Some root ∧ rtc R root (block_cid blk).
Proof.
  intros HR. induction 1 as [p|p blk bs q Hnd Hc IH]; intros b0; [by intros ?%not_elem_of_nil|].
  intros [->|Hb]%elem_of_cons; [by eapply chain_from | by apply IH].
Qed.

Lemma chain_encoded p bs q :
  chain p bs q → ∀ blk, blk ∈ bs → ∃ nd, chain_encode nd = Ok blk.
Proof.
  induction 1 as [p|p blk bs q (nd & He & _) Hc IH]; intros b0; [by intros ?%not_elem_of_nil|].
  intros [->|Hb]%elem_of_cons; [by exists nd | by apply IH].
Qed.

Lemma chain_last p blk bs q : chain p (blk :: bs) q → ∃ root, q = Some root.
Proof.
  intros H. destruct (chain_reach (λ _ _, True) _ _ _ (λ _ _ _ _ _, Logic.I) H blk) as (root & ? & _);
    [left | by exists root].
Qed.

(** Naming, and flushing. *)
Lemma alias_contents al c n u n' :
  ipfs_alias al c n = (Ok u, n') →
  blocks n' = blocks n ∧
  v_aliases (sview (storage n')) = partial_alter (λ _, c) al (v_aliases (sview (storage n))).
Proof.
  intros H. pose proof (on_storage_exec (alias al c) (λ _, RUnit) (CAlias al c) n (λ _, eq_refl)) as Hs.
  unfold ipfs_alias in H. rewrite H in Hs. unfold blocks.
  remember (sview (storage n')) as v' eqn:Hv'. clear Hv'. by inversion Hs.
Qed.

Lemma flush_contents j n : sview (storage (ipfs_flush j n).2) = sview (storage n).
Proof. by apply (on_storage_read (flush j) (λ _, RUnit) (CFlush j)). Qed.
End example.

(** What the example does.  Importing and synchronising at most [2^32 - 1] blocks does not
    panic; if it succeeds, a chain of that many blocks was made, each linking to the one
    before, all of them are in the first node, and all of them are in the second with
    their bytes, where the name leads to the last one. *)
Theorem sync_example `{L : Libp2p, I : Ipld, E : !ChainEncoder, B : !BlockStore,
    BL : !BlockStoreLaws, N : !Protocols, CE : !Channels Event, CG : !Channels GossipEvent,
    CS : !Channels SyncEvent, CL : !Channels ListenerEvent, CC : !Bounded NetworkCommand,
    P : Profile} (data_of : Cid → Bytes) w ROOT provider fa fb count (a b : Ipfs) g :
  (0 < count)%nat → Z.of_nat count < 2 ^ 32 →
  (∀ nd blk, chain_encode nd = Ok blk →
     links (block_cid blk) (block_data blk) = chain_refs blk ∧
     data_of (block_cid blk) = block_data blk) →
  (∀ c, sync_protocol data_of ROOT c w) → addressed data_of (sview (storage b)) →
  (∀ c sv, is_ok (missing_blocks c sv).1 = true) →
  match sync_main w ROOT provider fa fb count a b g with
  | Panicked => False
  | Done (Err _) => True
  | Done (Ok (nb, a', b')) =>
      ∃ bs, length bs = count ∧ chain None bs (nb_prev nb) ∧
        v_aliases (sview (storage b')) !! ROOT = nb_prev nb ∧
        ∀ blk, blk ∈ bs →
          stored a' (block_cid blk) ∧ blocks b' !! block_cid blk = Some (block_data blk)
  end.
Proof.
  intros H0 Hn Henc Hw Hv Hm. unfold sync_main.
  destruct (ipfs_create_temp_pin a) as [[tmp|] a1]; cbn [ask]; [|done].
  pose proof (import_no_panic count tmp NodeBuilder_default a1 g) as Hnp.
  destruct (import_chain count tmp NodeBuilder_default a1 g) as [[[nb a2]|]|] eqn:Ei; cbn;
    [|done|by destruct Hnp; cbn; [lia..|]].
  apply import_chain_Ok in Ei as (bs & Hlen & Hch & Hin & _). cbn in Hch.
  destruct (ipfs_alias ROOT (nb_prev nb) a2) as [[u|] a3] eqn:Ea; cbn; [|done].
  apply alias_contents in Ea as [Ha3 _].
  pose proof (flush_contents fa a3) as Hfa. destruct (ipfs_flush fa a3) as [[u1|] a4]; cbn; [|done].
  destruct (ipfs_alias ROOT (nb_prev nb) b) as [[u2|] b1] eqn:Eb; cbn; [|done].
  apply alias_contents in Eb as [Hb1 Hb1'].
  destruct bs as [|blk0 bs0]; [cbn in Hlen; lia|]. destruct (chain_last _ _ _ _ Hch) as [root Hroot].
  rewrite Hroot in Hch, Hb1' |- *. cbn.
  destruct (run_sync w root [provider] b1) as [[[]|] b2] eqn:Er; cbn; [|done].
  pose proof (flush_contents fb b2) as Hfb. destruct (ipfs_flush fb b2) as [[u3|] b3]; cbn; [|done].
  cbn in Hfa, Hfb.
  assert (ready_for data_of ROOT root (storage b1)) as Hready.
  { split; [intros c d Hd; apply Hv; unfold blocks in Hb1; by rewrite <- Hb1|].
    by rewrite Hb1', lookup_partial_alter, decide_True. }
  destruct (run_sync_complete data_of ROOT root w (Hw root) _ _ _ Hready (Hm _ _) Er) as [[Hv2 Hal2] Hc2].
  exists (blk0 :: bs0). rewrite Hroot, Hfb. split_and!; [done..|].
  intros blk Hblk. split.
  { unfold stored, blocks in *. rewrite Hfa, Ha3. by apply Hin. }
  destruct (chain_encoded _ _ _ Hch blk Hblk) as [nd He]. destruct (Henc nd blk He) as [_ Hd].
  unfold blocks. rewrite Hfb, <- Hd.
  destruct (chain_reach (λ x y, y ∈ links x (data_of x)) None (blk0 :: bs0) (Some root)) with blk
    as (r & [= <-] & Hr); [|done..|].
  - intros blk1 nd1 c He1 Hp1. destruct (Henc nd1 blk1 He1) as [Hl ->]. rewrite Hl.
    rewrite (chain_refs_encode nd1) by done. rewrite Hp1. by apply list_elem_of_singleton.
  - by apply (content_stored data_of (sview (storage b2)) root (λ x y, y ∈ links x (data_of x))).
Qed.

(** ** [examples/compat.rs] *)
Section compat.
Context `{L : Libp2p, I : Ipld, B : !BlockStore, N : !Protocols,
          CE : !Channels Event, CG : !Channels GossipEvent, CS : !Channels SyncEvent,
          CL : !Channels ListenerEvent, CC : !Bounded NetworkCommand}.
Implicit Types (n : Ipfs).

(** [ipfs.sync(..).await?], then the events are read to the end of the stream and only
    logged; the query is dropped. *)
Definition watch_sync (w : Awaits) (c : Cid) (provs : list PeerId) n
    : result () IpfsError * Ipfs :=
  let watched q n :=
    let '(_, sv) := await_complete w q (storage n) in
    (Ok (), MkIpfs sv (drop_sync_query q (network n))) in
  match sync c provs n with
  | (SyncReady q, n) => watched q n
  | (SyncRequested (Failed e), n) => (Err (FromNetwork e), n)
  | (SyncRequested (Waiting rx), n) =>
      let '(q, sv) := await_sync w (pending (c_cmd (network n))) rx (storage n) in
      let n := MkIpfs sv (network n) in
      match q with
      | None => (Err (FromNetwork SvcCanceled), n)
      | Some q => watched q n
      end
  end.

(** [main], from the dial on, with the two blocks that are fetched. *)
Definition compat_main (w : Awaits) (peer : PeerId) (addr : Multiaddr) (leaf dag : Cid) n
    : result (Block * Block) IpfsError * Ipfs :=
  let '(_, n) := ipfs_dial_address peer addr n in
  let '(r, n) := fetch w leaf [peer] n in
  match r with
  | Err e => (Err e, n)
  | Ok b1 =>
      let '(r, n) := fetch w dag [peer] n in
      match r with
      | Err e => (Err e, n)
      | Ok b2 =>
          let '(r, n) := watch_sync w dag [peer] n in
          (match r with Ok _ => Ok (b1, b2) | Err e => Err e end, n)
      end
  end.

Context {BL : BlockStoreLaws}.

(** Whatever happens while the node waits, only blocks with the bytes their ids stand for
    are stored. *)
Definition content_safe (data_of : Cid → Bytes) (f : StorageService → StorageService) : Prop :=
  ∀ sv, addressed data_of (sview sv) → addressed data_of (sview (f sv)).
Record addressing (data_of : Cid → Bytes) (w : Awaits) : Prop := {
  safe_query rx : content_safe data_of (λ sv, (await_query w rx sv).2);
  safe_get q : content_safe data_of (λ sv, (await_get w q sv).2);
}.

Lemma network_get_addressed data_of w c provs n :
  addressing data_of w → addressed data_of (sview (storage n)) →
  addressed data_of (sview (storage (network_get w c provs n).2)).
Proof.
  intros [Hq Hg] Hv. unfold network_get. destruct (svc_get c provs (network n)) as [[e|rx] cl]; [done|].
  specialize (Hq rx _ Hv). cbn beta in Hq. destruct (await_query w rx (storage n)) as [[q|] sv1]; [|done].
  cbn in Hq. specialize (Hg q _ Hq). cbn beta in Hg. by destruct (await_get w q sv1) as [[[]|] sv2].
Qed.

(** What [fetch] returns are the bytes that the content id stands for. *)
Lemma fetch_genuine data_of w c provs n b n' :
  addressing data_of w → addressed data_of (sview (storage n)) →
  fetch w c provs n = (Ok b, n') →
  addressed data_of (sview (storage n')) ∧ block_cid b = c ∧ block_data b = data_of c.
Proof.
  intros Ha Hv. unfold fetch. pose proof (get_faithful c (storage n)) as H1.
  destruct (get c (storage n)) as [[[d|]|e] sv1]; destruct H1 as [Hv1 H1]; [| |done].
  - intros [= <- <-]. cbn. rewrite block_cid_new, block_data_new, Hv1. split_and!; [done..|].
    apply Hv. by rewrite <- (H1 _ eq_refl).
  - case_bool_decide; [|done].
    pose proof (network_get_addressed data_of w c provs (MkIpfs sv1 (network n)) Ha) as Hn.
    cbn [storage] in Hn. rewrite Hv1 in Hn. specialize (Hn Hv).
    destruct (network_get w c provs _) as [[u|e] n2]; [|done]. cbn in Hn.
    pose proof (get_faithful c (storage n2)) as H2.
    destruct (get c (storage n2)) as [[[d|]|e] sv2]; destruct H2 as [Hv2 H2]; [|done..].
    intros [= <- <-]. cbn. rewrite block_cid_new, block_data_new, Hv2. split_and!; [done..|].
    apply Hn. by rewrite <- (H2 _ eq_refl).
Qed.
End compat.

(** If the example succeeds, the two blocks have the ids that were asked for and the bytes
    these ids stand for. *)
Theorem compat_example `{L : Libp2p, I : Ipld, B : !BlockStore, BL : !BlockStoreLaws,
    N : !Protocols, CE : !Channels Event, CG : !Channels GossipEvent, CS : !Channels SyncEvent,
    CL : !Channels ListenerEvent, CC : !Bounded NetworkCommand}
    (data_of : Cid → Bytes) w peer addr leaf dag (n : Ipfs) b1 b2 n' :
  addressing data_of w → addressed data_of (sview (storage n)) →
  compat_main w peer addr leaf dag n = (Ok (b1, b2), n') →
  block_cid b1 = leaf ∧ block_data b1 = data_of leaf ∧
  block_cid b2 = dag ∧ block_data b2 = data_of dag.
Proof.
  intros Ha Hv. unfold compat_main, ipfs_dial_address, on_network.
  destruct (fetch w leaf [peer] _) as [[x1|] n1] eqn:E1; [|done].
  destruct (fetch w dag [peer] n1) as [[x2|] n2] eqn:E2; [|done].
  destruct (watch_sync w dag [peer] n2) as [[]]; [|done]. intros [= <- <- _].
  apply (fetch_genuine data_of) in E1 as (Hv1 & ? & ?); [|done..].
  apply (fetch_genuine data_of) in E2 as (_ & ? & ?); [|done..]. done.
Qed.
