(* ===== verification/NodeTests.v ===== *)
(** * Unit tests of the node

    The tests of [src/lib.rs] that use one node: [test_local_store], [test_batch_read] and
    [test_batch_write].  They pass on every block store that has the documented
    behaviour; the last one documents that a batch is not a transaction. *)

From S2P Require Import Prelude Testing Libp2p Duration PeerInfo AddressHandler Channel Peers PeersReach.
From S2P Require Import Ipld Db DbSpec StorageTests Behaviour Network NetworkService NetToy Config.
From S2P Require Import Ipfs IpfsSpec.

Open Scope Z_scope.

(** ** The programs *)
Section node_tests.
Context `{L : Libp2p, I : Ipld, B : !BlockStore, N : !Protocols, CE : !Channels Event,
          CG : !Channels GossipEvent, CS : !Channels SyncEvent,
          CL : !Channels ListenerEvent, CC : !Bounded NetworkCommand}.
Local Open Scope test_scope.

(** [assert_eq!(block.data(), block2.data())]. *)
Definition assert_data (b b' : Block) : test Ipfs () :=
  asserts (bool_decide (block_data b = block_data b')).

(** [store.temp_pin(&mut tmp, cid)?]. *)
Definition t_temp_pin (tmp : TempPin) (c : Cid) : test Ipfs TempPin := λ n,
  let '(r, p, n) := ipfs_temp_pin tmp c n in
  (match r with Ok _ => Ok p | Err _ => Err Unwrapped end, n).

Definition test_local_store (block : Block) : test Ipfs () :=
  tmp <- unwrapped ipfs_create_temp_pin;
  t_temp_pin tmp (block_cid block) ;;
  unwrapped (ipfs_insert block) ;;
  block2 <- unwrapped (ipfs_get (block_cid block));
  assert_data block block2.

(** [db.contains(a.cid())? && db.contains(b.cid())?]: the second is only asked when the
    first is there. *)
Definition batch_both (a b : Cid) : Batch bool := λ t,
  let '(r, t) := batch_contains a t in
  match r with
  | Ok true => batch_contains b t
  | r => (r, t)
  end.

Definition test_batch_read (a b : Block) : test Ipfs () :=
  unwrapped (ipfs_insert a) ;;
  unwrapped (ipfs_insert b) ;;
  has_blocks <- unwrapped (batch_ops (batch_both (block_cid a) (block_cid b)));
  asserts has_blocks.

(** Two insertions in one batch. *)
Definition batch_insert_two (a b : Block) : Batch () := λ t,
  let '(r, t) := batch_insert a t in
  match r with Ok _ => batch_insert b t | Err e => (Err e, t) end.

(** [db.insert(c.clone())?; anyhow::bail!("nope!"); ..]. *)
Definition batch_bail (nope : StoreError) (c : Block) : Batch () := λ t,
  let '(r, t) := batch_insert c t in
  match r with Ok _ => (Err nope, t) | Err e => (Err e, t) end.

(** [ipfs.contains(a)? && ..], as a list of content ids and what is expected of each. *)
Fixpoint t_all_contain (cs : list (Cid * bool)) : test Ipfs bool :=
  match cs with
  | [] => test_ret true
  | (c, expected) :: cs =>
      r <- unwrapped (ipfs_contains c);
      if Bool.eqb r expected then t_all_contain cs else test_ret false
  end.

Definition test_batch_write (nope : StoreError) (a b c d : Block) : test Ipfs () :=
  unwrapped (batch_ops (batch_insert_two a b)) ;;
  ok <- t_all_contain [(block_cid a, true); (block_cid b, true)];
  asserts ok ;;
  (λ n, let '(_, n) := batch_ops (batch_bail nope c) n in (Ok (), n)) ;;
  ok <- t_all_contain [(block_cid d, false); (block_cid c, true); (block_cid b, true)];
  asserts ok.
End node_tests.

(** ** They pass *)
Section node_steps.
Context `{L : Libp2p, I : Ipld, B : !BlockStore, BL : !BlockStoreLaws, N : !Protocols,
          CE : !Channels Event, CG : !Channels GossipEvent, CS : !Channels SyncEvent,
          CL : !Channels ListenerEvent, CC : !Bounded NetworkCommand}.
Implicit Types (v : View) (n : Ipfs).

Definition nholds (v : View) (n : Ipfs) : Prop := sview (storage n) = v.

Lemma node_call {R} (f : StorageService → result R StoreError * StorageService)
    (g : R → reply) c v (Q : R → Ipfs → Prop) :
  (∀ sv, exec c sv = answer g (f sv)) →
  (∀ x v' n', spec v c (g x) v' → nholds v' n' → Q x n') →
  passes (nholds v) (unwrapped (on_storage f)) Q.
Proof.
  intros He HQ n Hn. pose proof (exec_refines c (storage n)) as H. rewrite He in H.
  unfold unwrapped, on_storage. unfold refines, answer in H.
  destruct (f (storage n)) as [[x|e] sv']; [|done]. cbn in *. rewrite Hn in H. by eapply HQ.
Qed.

(** A batch leaves what its closure leaves. *)
Lemma node_batch {R} (f : Batch R) v (Q : R → Ipfs → Prop) :
  (∀ t x t' n', tview t = v → f t = (Ok x, t') → nholds (tview t') n' → Q x n') →
  passes (nholds v) (unwrapped (batch_ops f)) Q.
Proof.
  intros HQ n Hn. unfold unwrapped, batch_ops, on_storage.
  destruct (rw "batch_ops" f (storage n)) as [r sv'] eqn:Hr.
  apply rw_inv in Hr as (_ & _ & res & t & Ht & Hv & Hr & _).
  destruct r as [x|]; [|done]. destruct Hr as [<-|[_ ?]]; [|done].
  eapply HQ; [|exact Ht|exact Hv]. by rewrite transaction_view.
Qed.

Lemma node_insert v b :
  v_blocks v !! block_cid b = None →
  passes (nholds v) (unwrapped (ipfs_insert b)) (λ _, nholds (with_block b v)).
Proof.
  intros Hb. apply (node_call _ (λ _, RUnit) (CInsert b)); [done|].
  intros [] v' n' Hs Hv. unfold nholds in *. rewrite Hv.
  inversion Hs as [| | | | |? ? d Hd| | | | | | |]; subst. destruct Hd as [->|?]; [done|congruence].
Qed.

(** The whole conjunction of the assertion holds. *)
Lemma node_contain v cs :
  (∀ c e, (c, e) ∈ cs → bool_decide (is_Some (v_blocks v !! c)) = e) →
  passes (nholds v) (t_all_contain cs) (λ r n, r = true ∧ nholds v n).
Proof.
  induction cs as [|[c e] cs IH]; intros Hcs; cbn.
  { by intros n Hn. }
  eapply (passes_bind _ _ _ (λ r n, r = e ∧ nholds v n)).
  - apply (node_call _ RBool (CContains c)); [done|]. intros x v' n' Hs Hv.
    inversion Hs; subst. split; [|done]. apply Hcs. left.
  - intros r n [-> Hn]. rewrite eqb_reflx. apply IH; [|done]. intros c' e' Hin. apply Hcs. by right.
Qed.

Lemma node_asserts v r : passes (λ n, r = true ∧ nholds v n) (asserts r) (λ _, nholds v).
Proof. by apply passes_asserts. Qed.

(** Inserting in a batch, the block not being there yet. *)
Lemma batch_insert_view b t r t' v :
  batch_insert b t = (r, t') → is_ok r = true → tview t = v → v_blocks v !! block_cid b = None →
  tview t' = with_block b v.
Proof.
  intros H Hr <- Hn. apply put_view in H as [[? _]|(d & Hd & ->)]; [congruence|].
  destruct Hd as [->|?]; [done | congruence].
Qed.

Lemma local_store_passes v block :
  v_blocks v !! block_cid block = None →
  passes (nholds v) (test_local_store block) (λ _, nholds (with_block block v)).
Proof.
  intros Hb. eapply passes_bind.
  { apply (node_call _ RPin CCreateTempPin _ (λ _, nholds v)); [done|]. intros p v' n' Hs Hv.
    by inversion Hs; subst. }
  intros tmp. eapply (passes_bind _ _ _ (λ _, nholds v)).
  { intros n Hn. unfold t_temp_pin, ipfs_temp_pin.
    pose proof (exec_read (CTempPin tmp [block_cid block]) (storage n) eq_refl) as Hv. cbn [exec] in Hv.
    destruct (temp_pin tmp _ (storage n)) as [[[]  p] sv]; [|done]. cbn in *. unfold nholds.
    cbn. rewrite <- Hn. exact Hv. }
  intros p. eapply passes_bind; [by apply node_insert|]. intros u.
  eapply (passes_bind _ _ _ (λ b n, block_data b = block_data block ∧ nholds (with_block block v) n)).
  - intros n Hn. unfold unwrapped, ipfs_get. pose proof (get_faithful (block_cid block) (storage n)) as H.
    destruct (get (block_cid block) (storage n)) as [[[d|]|e] sv]; [|done..]. destruct H as [Hv Hd].
    unfold nholds in *. cbn. split; [|congruence]. rewrite block_data_new.
    specialize (Hd _ eq_refl). rewrite Hn in Hd. cbn in Hd. rewrite lookup_insert_eq in Hd. congruence.
  - intros b. apply passes_asserts. intros n [Hd Hn]. split; [|done]. by apply bool_decide_eq_true.
Qed.

Lemma batch_read_passes v a b :
  block_cid a ≠ block_cid b → v_blocks v !! block_cid a = None → v_blocks v !! block_cid b = None →
  passes (nholds v) (test_batch_read a b) (λ _, nholds (with_block b (with_block a v))).
Proof.
  intros Hab Ha Hb. eapply passes_bind; [by apply node_insert|]. intros u1.
  eapply passes_bind; [apply node_insert; cbn; by rewrite lookup_insert_ne|]. intros u2.
  eapply (passes_bind _ _ _ (λ r n, r = true ∧ nholds (with_block b (with_block a v)) n));
    [|intros r; apply node_asserts].
  apply node_batch. intros t r t' n' Ht Hr Hn'. unfold batch_both, batch_contains in Hr.
  destruct (has_block (block_cid a) t) as [r1 t1] eqn:H1. apply has_view in H1 as [Hv1 H1].
  assert (∀ x, r1 = Ok x → x = true) as Hx1.
  { intros x ->. rewrite (H1 x eq_refl), Ht. apply bool_decide_eq_true. cbn.
    rewrite lookup_insert_ne, lookup_insert_eq by done. by eexists. }
  destruct r1 as [[]|]; [| |done].
  - apply has_view in Hr as [Hv2 H2]. rewrite Hv2, Hv1, Ht in Hn'. split; [|done].
    rewrite (H2 r eq_refl), Hv1, Ht. apply bool_decide_eq_true. cbn. rewrite lookup_insert_eq.
    by eexists.
  - by specialize (Hx1 false eq_refl).
Qed.

(** The two batches of [test_batch_write]. *)
Lemma two_view v a b t u t' :
  block_cid a ≠ block_cid b → v_blocks v !! block_cid a = None → v_blocks v !! block_cid b = None →
  tview t = v → batch_insert_two a b t = (Ok u, t') → tview t' = with_block b (with_block a v).
Proof.
  intros Hab Ha Hb Ht H. unfold batch_insert_two in H.
  destruct (batch_insert a t) as [[[]|] t1] eqn:H1; [|done].
  eapply batch_insert_view in H1; [|done..]. eapply batch_insert_view; [exact H|done|exact H1|].
  cbn. by rewrite lookup_insert_ne.
Qed.

Lemma bail_view v nope c n :
  (∀ t, is_ok (put_block c t).1 = true) → v_blocks v !! block_cid c = None → nholds v n →
  nholds (with_block c v) (batch_ops (batch_bail nope c) n).2.
Proof.
  intros Hok Hc Hn. unfold batch_ops, on_storage, nholds.
  destruct (rw "batch_ops" _ (storage n)) as [r sv'] eqn:Hr.
  apply rw_inv in Hr as (_ & _ & res & t & Ht & Hv & _). cbn. rewrite Hv.
  unfold batch_bail, batch_insert in Ht. specialize (Hok (transaction (store (storage n)))).
  destruct (put_block c _) as [r1 t1] eqn:H1. destruct r1; [|done]. injection Ht as <- <-.
  eapply batch_insert_view; [exact H1|done| |done]. by rewrite transaction_view.
Qed.
End node_steps.

(** The tests of one node pass on every store that has the documented behaviour, started
    empty and given different blocks.  In particular the block inserted by a batch that
    then fails is there ([test_batch_write]; its own insertion must not fail, since the
    test ignores the result of that batch). *)
Theorem node_tests_pass `{L : Libp2p, I : Ipld, B : !BlockStore, BL : !BlockStoreLaws,
    N : !Protocols, CE : !Channels Event, CG : !Channels GossipEvent, CS : !Channels SyncEvent,
    CL : !Channels ListenerEvent, CC : !Bounded NetworkCommand} nope (a b c d : Block) (n : Ipfs) :
  sview (storage n) = empty_view → NoDup (block_cid <$> [a; b; c; d]) →
  (∀ t, is_ok (put_block c t).1 = true) →
  (test_local_store a n).1 ≠ Err Asserted ∧ (test_batch_read a b n).1 ≠ Err Asserted ∧
  (test_batch_write nope a b c d n).1 ≠ Err Asserted.
Proof.
  intros Hn Hd Hput. cbn in Hd. rewrite !NoDup_cons, !not_elem_of_cons in Hd.
  destruct Hd as ((Hab & Hac & Had & _) & (Hbc & Hbd & _) & (Hcd & _) & _).
  assert (∀ A (m : test Ipfs A) Q, passes (nholds empty_view) m Q → (m n).1 ≠ Err Asserted) as Hpass.
  { intros A m Q Hp. specialize (Hp n Hn). destruct (m n) as [[x|e] n']; [done|]. cbn. by rewrite Hp. }
  split_and!.
  - by eapply Hpass, local_store_passes.
  - by eapply Hpass, batch_read_passes.
  - apply (Hpass _ _ (λ _ _, True)). set (v := with_block b (with_block a empty_view)).
    assert (v_blocks v !! block_cid c = None) as Hc by (cbn; by rewrite !lookup_insert_ne).
    eapply (passes_bind _ _ _ (λ _, nholds v)).
    { apply node_batch. intros t u t' n' Ht Hr Hn'. unfold nholds. rewrite Hn'. by eapply two_view. }
    intros u1. eapply passes_bind; [apply node_contain|intros ok].
    { intros c' e Hin. rewrite !elem_of_cons in Hin. cbn.
      destruct Hin as [[= -> ->]|[[= -> ->]|[]%not_elem_of_nil]]; apply bool_decide_eq_true;
        rewrite ?lookup_insert_ne, ?lookup_insert_eq by done; by eexists. }
    eapply passes_bind; [apply node_asserts|]. intros u2.
    eapply (passes_bind _ _ _ (λ _, nholds (with_block c v))).
    { intros n1 Hn1. pose proof (bail_view v nope c n1 Hput Hc Hn1) as Hb.
      by destruct (batch_ops _ n1) as [r n2]. }
    intros u3. eapply passes_bind; [apply node_contain|intros ok2].
    { intros c' e Hin. rewrite !elem_of_cons in Hin. cbn.
      destruct Hin as [[= -> ->]|[[= -> ->]|[[= -> ->]|[]%not_elem_of_nil]]];
        [apply bool_decide_eq_false|apply bool_decide_eq_true..];
        rewrite ?lookup_insert_eq, ?lookup_insert_ne, ?lookup_insert_eq by done; try by eexists.
      rewrite lookup_empty. by intros [? [=]]. }
    apply passes_asserts. by intros n1 [-> _].
Qed.
