(* ===== verification/SyncTests.v ===== *)
(** * Unit tests of two nodes

    The tests of [src/lib.rs] in which one node fetches from another or synchronises with
    it: [test_exchange_mdns], [test_bitswap_sync_chain], [test_bitswap_sync_tree] and
    [test_sync].  A test acts on
    both nodes; how the futures of a synchronisation end is a parameter, as in [Sync]. *)

From S2P Require Import Prelude Testing Libp2p Duration PeerInfo AddressHandler Channel Peers PeersReach.
From S2P Require Import Ipld Db DbSpec Retention StorageTests Behaviour Network NetworkService.
From S2P Require Import NetToy Config NetworkClient Ipfs IpfsSpec Harness IpfsStore Sync SyncExample NodeTests.

Open Scope Z_scope.

(** ** The programs *)
Section sync_tests.
Context `{L : Libp2p, I : Ipld, B : !BlockStore, N : !Protocols, CE : !Channels Event,
          CG : !Channels GossipEvent, CS : !Channels SyncEvent,
          CL : !Channels ListenerEvent, CC : !Bounded NetworkCommand}.
Local Open Scope test_scope.

(** A call on the first or on the second node. *)
Definition at1 {A} (m : test Ipfs A) : test (Ipfs * Ipfs) A := λ s,
  let '(r, n) := m s.1 in (r, (n, s.2)).
Definition at2 {A} (m : test Ipfs A) : test (Ipfs * Ipfs) A := λ s,
  let '(r, n) := m s.2 in (r, (s.1, n)).

Fixpoint for_blocks {S} (bs : list Block) (body : Block → test S ()) : test S () :=
  match bs with [] => test_ret () | b :: bs => body b ;; for_blocks bs body end.

(** [assert_pinned!] and [assert_unpinned!] on a node. *)
Definition n_names (b : Block) : test Ipfs (option (gset Bytes)) :=
  unwrapped (ipfs_reverse_alias (block_cid b)).
Definition n_assert_pinned (b : Block) : test Ipfs () :=
  names <- n_names b; asserts (bool_decide (nonempty names = Some true)).
Definition n_assert_unpinned (b : Block) : test Ipfs () :=
  names <- n_names b; asserts (bool_decide (nonempty names = Some false)).

Definition n_insert (b : Block) : test Ipfs () := unwrapped (ipfs_insert b).
Definition n_alias (a : Bytes) (c : option Cid) : test Ipfs () := unwrapped (ipfs_alias a c).
Definition n_flush : test Ipfs () := unwrapped (ipfs_flush true).
Definition n_sync (w : Awaits) (c : Cid) (p : PeerId) : test Ipfs () :=
  unwrapped (run_sync w c [p]).

(** [b.get(..)?]; the error is that there is no such block when the storage says so. *)
Definition n_get (c : Cid) : test Ipfs Block := λ n,
  let '(r, n') := ipfs_get c n in
  (match r, (get c (storage n)).1 with
   | Ok b, _ => Ok b
   | Err _, Ok None => Err NotFound
   | Err _, _ => Err Unwrapped
   end, n').

(** [.sync(..).await?.for_each(..).await]. *)
Definition n_sync_events (w : Awaits) (c : Cid) (p : PeerId) : test Ipfs () :=
  unwrapped (watch_sync w c [p]).

(** [test_exchange_mdns]: [p] is [store1.local_peer_id()]. *)
Definition test_exchange_mdns (w : Awaits) (p : PeerId) (block : Block) : test (Ipfs * Ipfs) () :=
  at1 (tmp <- unwrapped ipfs_create_temp_pin; t_temp_pin tmp (block_cid block) ;;
       n_insert block ;; n_flush) ;;
  at2 (tmp <- unwrapped ipfs_create_temp_pin; t_temp_pin tmp (block_cid block) ;;
       block2 <- unwrapped (fetch w (block_cid block) [p]);
       assert_data block block2).

(** [test_bitswap_sync_chain] and [test_bitswap_sync_tree], which differ in the tree; [p] is
    [a.local_peer_id()] and [block_eqb] the comparison of blocks. *)
Definition bitswap_sync_test (block_eqb : Block → Block → bool) (w : Awaits) (root : Bytes)
    (p : PeerId) (cid : Cid) (blocks : list Block) : test (Ipfs * Ipfs) () :=
  at1 (n_alias root (Some cid)) ;;
  at2 (n_alias root (Some cid)) ;;
  for_blocks blocks (λ b, at1 (n_insert b)) ;;
  at1 n_flush ;;
  at2 (n_sync_events w cid p) ;;
  at2 n_flush ;;
  for_blocks blocks (λ b, data <- at2 (n_get (block_cid b)); asserts (block_eqb data b)).

Definition built_test {X E} (built : result (Cid * list Block) E * X)
    (body : Cid → list Block → test (Ipfs * Ipfs) ()) : test (Ipfs * Ipfs) () :=
  match built.1 with
  | Ok (cid, blocks) => body cid blocks
  | Err _ => λ s, (Err Unwrapped, s)
  end.

Definition test_bitswap_sync_chain `{C : !Encoder} block_eqb w root p (g : Rng)
    : test (Ipfs * Ipfs) () :=
  built_test (test_util_build_tree 1 1000 g) (bitswap_sync_test block_eqb w root p).
Definition test_bitswap_sync_tree `{C : !Encoder} block_eqb w root p (g : Rng)
    : test (Ipfs * Ipfs) () :=
  built_test (test_util_build_tree 10 4 g) (bitswap_sync_test block_eqb w root p).

(** [test_sync], once the nodes know each other's addresses: [p1], [p2] are their peer ids,
    [w1], [w2] how the futures of each end, [x] the name.  The last [flush] is that of the
    second node, as in the source. *)
Definition test_sync (w1 w2 : Awaits) (p1 p2 : PeerId) (x : Bytes) (a1 b1 c1 b2 c2 : Block)
    : test (Ipfs * Ipfs) () :=
  at1 (n_insert a1 ;; n_insert b1 ;; n_insert c1 ;;
       n_alias x (Some (block_cid c1)) ;; n_flush ;;
       n_assert_pinned a1 ;; n_assert_pinned b1 ;; n_assert_pinned c1) ;;
  at2 (n_alias x (Some (block_cid c1)) ;; n_sync w2 (block_cid c1) p1 ;; n_flush ;;
       n_assert_pinned a1 ;; n_assert_pinned b1 ;; n_assert_pinned c1 ;;
       n_insert b2 ;; n_insert c2 ;; n_alias x (Some (block_cid c2)) ;; n_flush ;;
       n_assert_pinned a1 ;; n_assert_unpinned b1 ;; n_assert_unpinned c1 ;;
       n_assert_pinned b2 ;; n_assert_pinned c2) ;;
  at1 (n_alias x (Some (block_cid c2)) ;; n_sync w1 (block_cid c2) p2 ;; n_flush ;;
       n_assert_pinned a1 ;; n_assert_unpinned b1 ;; n_assert_unpinned c1 ;;
       n_assert_pinned b2 ;; n_assert_pinned c2) ;;
  at2 (n_alias x None ;; n_flush ;;
       n_assert_unpinned a1 ;; n_assert_unpinned b1 ;; n_assert_unpinned c1 ;;
       n_assert_unpinned b2 ;; n_assert_unpinned c2) ;;
  at1 (n_alias x None) ;;
  at2 n_flush ;;
  at1 (n_assert_unpinned a1 ;; n_assert_unpinned b1 ;; n_assert_unpinned c1 ;;
       n_assert_unpinned b2 ;; n_assert_unpinned c2).
End sync_tests.

(** ** Steps of a test on one node *)
Section steps.
Context `{L : Libp2p, I : Ipld, B : !BlockStore, BL : !BlockStoreLaws, N : !Protocols,
          CE : !Channels Event, CG : !Channels GossipEvent, CS : !Channels SyncEvent,
          CL : !Channels ListenerEvent, CC : !Bounded NetworkCommand} (data_of : Cid → Bytes).
Implicit Types (v : View) (n : Ipfs) (m : gmap Bytes Cid) (bs : list Block).

(** The contents are content addressed, with exactly the aliases [m] and at least the
    blocks [bs]. *)
Definition kept m bs v : Prop :=
  addressed data_of v ∧ v_aliases v = m ∧ ∀ b, b ∈ bs → has v b.
Definition keeps m bs n : Prop := kept m bs (sview (storage n)).

Lemma insert_kept m bs b v r v' :
  block_data b = data_of (block_cid b) → spec v (CInsert b) r v' → kept m bs v →
  kept m (b :: bs) v'.
Proof.
  intros Hb Hs (Hv & Hm & Hbs). inversion Hs as [| | | | |? ? d Hd| | | | | | |]; subst.
  assert (d = data_of (block_cid b)) as -> by (destruct Hd as [->|Hd]; [done | by apply Hv]).
  split_and!; [|done|]; cbn.
  - intros c d. cbn. rewrite lookup_insert. case_decide; [|by apply Hv]. by intros [= <-]; subst.
  - intros b' Hb'. unfold has. cbn. rewrite lookup_insert. case_decide as Heq.
    + apply elem_of_cons in Hb' as [->|Hb']; [by rewrite Hb|].
      specialize (Hbs _ Hb'). rewrite Heq. f_equal. symmetry. by apply Hv.
    + apply elem_of_cons in Hb' as [->|Hb']; [done|]. by apply Hbs.
Qed.

Lemma kept_weaken m bs bs' v : bs ⊆ bs' → kept m bs' v → kept m bs v.
Proof. intros Hs (? & ? & H). split_and!; [done..|]. intros b Hb. by apply H, Hs. Qed.

Lemma keeps_call {R} (f : StorageService → result R StoreError * StorageService)
    (g : R → reply) c m bs (Q : R → Ipfs → Prop) :
  (∀ sv, exec c sv = answer g (f sv)) →
  (∀ n x n', keeps m bs n → spec (sview (storage n)) c (g x) (sview (storage n')) → Q x n') →
  passes (keeps m bs) (unwrapped (on_storage f)) Q.
Proof.
  intros He HQ n Hn. pose proof (on_storage_exec f g c n He) as H. unfold unwrapped.
  destruct (on_storage f n) as [[x|e] n']; [|done]. by eapply HQ.
Qed.

Lemma keeps_insert m bs b :
  block_data b = data_of (block_cid b) →
  passes (keeps m bs) (n_insert b) (λ _, keeps m (b :: bs)).
Proof.
  intros Hb. apply (keeps_call _ (λ _, RUnit) (CInsert b)); [done|].
  intros n [] n' Hn Hs. by eapply insert_kept.
Qed.

Lemma keeps_alias m bs a c :
  passes (keeps m bs) (n_alias a c) (λ _, keeps (partial_alter (λ _, c) a m) bs).
Proof.
  apply (keeps_call _ (λ _, RUnit) (CAlias a c)); [done|]. intros n [] n' (Hv & <- & Hbs) Hs.
  unfold keeps, kept. remember (sview (storage n')) as v' eqn:Hv'. clear Hv'. by inversion Hs; subst.
Qed.

Lemma keeps_flush m bs : passes (keeps m bs) n_flush (λ _, keeps m bs).
Proof.
  apply (keeps_call _ (λ _, RUnit) (CFlush true)); [done|]. intros n [] n' Hn Hs.
  unfold keeps in *. remember (sview (storage n')) as v' eqn:Hv'. clear Hv'. by inversion Hs; subst.
Qed.

(** The assertions; [named] is decided by the aliases and the blocks the node keeps. *)
Lemma keeps_names m bs b :
  b ∈ bs →
  passes (keeps m bs) (n_names b) (λ names n, keeps m bs n ∧
    ∃ s, names = Some s ∧ (s ≠ ∅ ↔ named (sview (storage n)) b)).
Proof.
  intros Hb. apply (keeps_call _ RNames (CReverseAlias (block_cid b))); [done|].
  intros n x n' Hn Hs. unfold keeps in *. pose proof (proj2 (proj2 Hn) b Hb) as Hhas.
  remember (sview (storage n')) as v' eqn:Hv'. clear Hv'.
  inversion Hs as [| | | | | | | | |? ? Hno|? ? names _ Hno|?|?]; subst.
  { unfold has in Hhas. congruence. }
  split; [done|]. exists names. split; [done|]. split.
  - intros [a Ha%Hno]%set_choose_L. destruct Ha as (root & ? & ?). by exists a, root.
  - intros (a & root & ? & ?) ->. assert (a ∈ (∅ : gset Bytes)) as []%not_elem_of_empty.
    apply Hno. eauto.
Qed.

Lemma keeps_pinned m bs b :
  b ∈ bs → (∀ n, keeps m bs n → named (sview (storage n)) b) →
  passes (keeps m bs) (n_assert_pinned b) (λ _, keeps m bs).
Proof.
  intros Hb Hn. eapply passes_bind; [by apply keeps_names|]. intros names.
  apply passes_asserts. intros n [Hk (s & -> & Hs)]. split; [|done]. apply bool_decide_eq_true.
  cbn. rewrite bool_decide_false; [done|]. by apply Hs, Hn.
Qed.

Lemma keeps_unpinned m bs b :
  b ∈ bs → (∀ n, keeps m bs n → ¬ named (sview (storage n)) b) →
  passes (keeps m bs) (n_assert_unpinned b) (λ _, keeps m bs).
Proof.
  intros Hb Hn. eapply passes_bind; [by apply keeps_names|]. intros names.
  apply passes_asserts. intros n [Hk (s & -> & Hs)]. split; [|done]. apply bool_decide_eq_true.
  cbn. rewrite bool_decide_true; [done|]. apply dec_stable. rewrite Hs. by apply Hn.
Qed.

Lemma keeps_get m bs b :
  b ∈ bs →
  passes (keeps m bs) (n_get (block_cid b)) (λ b' n, keeps m bs n ∧
    block_cid b' = block_cid b ∧ block_data b' = block_data b).
Proof.
  intros Hb n Hn. unfold n_get, ipfs_get. pose proof (get_faithful (block_cid b) (storage n)) as H.
  pose proof (proj2 (proj2 Hn) b Hb) as Hhas. unfold keeps in *.
  destruct (get (block_cid b) (storage n)) as [[[d|]|e] sv]; cbn.
  - destruct H as [-> H]. rewrite block_cid_new, block_data_new. split_and!; [by apply Hn..|done|].
    specialize (H _ eq_refl). unfold has in Hhas. congruence.
  - destruct H as [_ H]. specialize (H _ eq_refl). unfold has in Hhas. congruence.
  - done.
Qed.

(** *** Synchronising while nobody else uses the node *)

(** Blocks with the bytes they stand for arrive, and bitswap looks things up. *)
Definition fetching (x : action) : Prop :=
  match x with
  | ACall (CInsert b) => block_data b = data_of (block_cid b)
  | ACall c => writes c = false
  | _ => False
  end.
Definition fetch_run (sv sv' : StorageService) : Prop :=
  ∃ xs, action_run sv xs sv' ∧ ∀ x, x ∈ xs → fetching x.
Record undisturbed (w : Awaits) : Prop := {
  quiet_sync cs rx sv : fetch_run sv (await_sync w cs rx sv).2;
  quiet_complete q sv : fetch_run sv (await_complete w q sv).2;
}.

Lemma fetch_call_kept c r v v' m bs :
  fetching (ACall c) → spec v c r v' → kept m bs v → kept m bs v'.
Proof.
  intros Hf Hs Hk. destruct (writes c) eqn:Hw.
  - destruct c; try done. eapply kept_weaken; [|by eapply insert_kept]. set_solver.
  - by rewrite (spec_read _ _ _ _ Hw Hs).
Qed.

Lemma fetch_run_kept sv sv' m bs :
  fetch_run sv sv' → kept m bs (sview sv) → kept m bs (sview sv').
Proof.
  intros (xs & Hr & Hf). induction Hr as [sv|sv x sv1 xs sv2 Hs _ IH]; [done|]. intros Hk.
  apply IH; [intros y Hy; apply Hf; by right|]. specialize (Hf x (list_elem_of_here _ _)).
  destruct Hs as [sv [c| |]]; [|done..]. cbn [perform].
  pose proof (exec_refines c sv) as H. unfold refines in H.
  destruct (exec c sv) as [[r|e] sv']; cbn; [by eapply fetch_call_kept|].
  destruct H as [->|[r H]]; [done | by eapply fetch_call_kept].
Qed.

Lemma missing_kept c sv m bs : kept m bs (sview sv) → kept m bs (sview (missing_blocks c sv).2).
Proof.
  pose proof (exec_read (CMissing c) sv eq_refl) as Hv. cbn [exec] in Hv. unfold answer in Hv.
  cbn in Hv. by rewrite Hv.
Qed.

Lemma run_sync_kept w c provs m bs n :
  undisturbed w → keeps m bs n → keeps m bs (run_sync w c provs n).2.
Proof.
  intros [Q1 Q2] Hn. unfold run_sync, sync, keeps in *.
  pose proof (missing_kept c (storage n) m bs Hn) as Hk.
  destruct (missing_blocks c (storage n)) as [r sv]. cbn in Hk.
  destruct (svc_sync _ _ _ (network n)) as [[q|[e|rx]] cl]; cbn [storage network].
  - pose proof (fetch_run_kept _ _ _ _ (Q2 q sv) Hk). by destruct (await_complete w q sv).
  - done.
  - pose proof (fetch_run_kept _ _ _ _ (Q1 (pending (c_cmd cl)) rx sv) Hk) as Hk1.
    destruct (await_sync w _ rx sv) as [[q|] sv1]; [|done]. cbn [storage network snd] in *.
    pose proof (fetch_run_kept _ _ _ _ (Q2 q sv1) Hk1). by destruct (await_complete w q sv1).
Qed.

Lemma keeps_sync w x c p m bs :
  sync_protocol data_of x c w → undisturbed w → m !! x = Some c →
  (∀ sv, is_ok (missing_blocks c sv).1 = true) →
  passes (keeps m bs) (n_sync w c p)
    (λ _ n, keeps m bs n ∧ complete (sview (storage n)) c).
Proof.
  intros Hw Hu Hx Hm n Hn. unfold n_sync, unwrapped.
  pose proof (run_sync_kept w c [p] m bs n Hu Hn) as Hk.
  pose proof (run_sync_complete data_of x c w Hw [p] n) as Hc.
  destruct (run_sync w c [p] n) as [[[]|e] n']; [|done]. split; [exact Hk|].
  destruct Hn as (Hv & Ha & _). eapply Hc; [|apply Hm|done]. split; [done|]. by rewrite Ha.
Qed.

(** When every query that bitswap runs ends well, only logging the events is no loss. *)
Lemma sync_events w x c p n :
  sync_protocol data_of x c w → (∀ q sv, sq_id q ≠ None → (await_complete w q sv).1 = Ok ()) →
  n_sync_events w c p n = n_sync w c p n.
Proof.
  intros Hw Hok. unfold n_sync_events, n_sync, unwrapped, watch_sync, run_sync, sync.
  destruct (missing_blocks c (storage n)) as [r sv]. unfold svc_sync.
  destruct (match r with Ok l => l | Err _ => [] end); cbn [storage network].
  - pose proof (ready_result _ _ _ _ Hw (Ok ()) sv) as H.
    destruct (await_complete w _ sv) as [r1 sv1]. cbn in H. by subst r1.
  - destruct (request _ (network n)) as [[e|rx] cl]; [done|]. cbn [storage network].
    pose proof (sync_registered _ _ _ _ Hw (pending (c_cmd cl)) rx sv) as Hid.
    destruct (await_sync w _ rx sv) as [[q|] sv1]; [|done]. cbn [storage network].
    specialize (Hok q sv1 (Hid q eq_refl)). destruct (await_complete w q sv1) as [r1 sv2].
    cbn in Hok. by subst r1.
Qed.

(** A complete DAG has the blocks that its root leads to. *)
Lemma complete_kept m bs bs' v root :
  kept m bs v → complete v root →
  (∀ b, b ∈ bs' → block_data b = data_of (block_cid b) ∧
                  rtc (λ x y, y ∈ links x (data_of x)) root (block_cid b)) →
  kept m (bs' ++ bs) v.
Proof.
  intros (Hv & Ha & Hbs) Hc Hb. split_and!; [done..|]. intros b [Hin|Hin]%elem_of_app; [|by apply Hbs].
  destruct (Hb b Hin) as [Hd Hr]. unfold has. rewrite Hd.
  by apply (content_stored data_of v root (λ x y, y ∈ links x (data_of x))).
Qed.

(** *** Two nodes *)

Lemma passes_at1 {A} P (t : test Ipfs A) Q (F : Ipfs → Prop) :
  passes P t Q → passes (λ s, P s.1 ∧ F s.2) (at1 t) (λ a s, Q a s.1 ∧ F s.2).
Proof.
  intros H [n1 n2] [HP HF]. unfold at1. cbn in *. specialize (H n1 HP).
  by destruct (t n1) as [[a|e] n1'].
Qed.

Lemma passes_at2 {A} P (t : test Ipfs A) Q (F : Ipfs → Prop) :
  passes P t Q → passes (λ s, F s.1 ∧ P s.2) (at2 t) (λ a s, F s.1 ∧ Q a s.2).
Proof.
  intros H [n1 n2] [HF HP]. unfold at2. cbn in *. specialize (H n2 HP).
  by destruct (t n2) as [[a|e] n2'].
Qed.

Lemma passes_for_blocks {S} (P : S → Prop) bs body :
  (∀ b, b ∈ bs → passes P (body b) (λ _, P)) → passes P (for_blocks bs body) (λ _, P).
Proof.
  induction bs as [|b bs IH]; intros H; [by intros s|]. cbn.
  eapply passes_bind; [apply H; left|]. intros u. apply IH. intros b' Hb'. apply H. by right.
Qed.
End steps.

(** ** Fetching one block *)
Section exchange.
Context `{L : Libp2p, I : Ipld, B : !BlockStore, BL : !BlockStoreLaws, N : !Protocols,
          CE : !Channels Event, CG : !Channels GossipEvent, CS : !Channels SyncEvent,
          CL : !Channels ListenerEvent, CC : !Bounded NetworkCommand} (data_of : Cid → Bytes).

Lemma keeps_create_pin m bs :
  passes (keeps data_of m bs) (unwrapped ipfs_create_temp_pin) (λ _, keeps data_of m bs).
Proof.
  apply (keeps_call data_of _ RPin CCreateTempPin); [done|]. intros n p n' Hn Hs.
  unfold keeps in *. by rewrite (spec_read _ CCreateTempPin _ _ eq_refl Hs).
Qed.

Lemma keeps_temp_pin m bs tmp c :
  passes (keeps data_of m bs) (t_temp_pin tmp c) (λ _, keeps data_of m bs).
Proof.
  intros n Hn. unfold t_temp_pin. pose proof (temp_pin_contents tmp c n) as Hv. unfold keeps in *.
  destruct (ipfs_temp_pin tmp c n) as [[[]  p] n']; [|done]. cbn in *. by rewrite Hv.
Qed.
End exchange.

(** [test_exchange_mdns]: whatever the network does while the second node waits, as long as
    what is stored has the bytes its ids stand for, the assertion holds. *)
Theorem exchange_test_passes `{L : Libp2p, I : Ipld, B : !BlockStore, BL : !BlockStoreLaws,
    N : !Protocols, CE : !Channels Event, CG : !Channels GossipEvent, CS : !Channels SyncEvent,
    CL : !Channels ListenerEvent, CC : !Bounded NetworkCommand}
    (data_of : Cid → Bytes) w p block m1 m2 :
  addressing data_of w → block_data block = data_of (block_cid block) →
  passes (λ s, keeps data_of m1 [] s.1 ∧ keeps data_of m2 [] s.2) (test_exchange_mdns w p block)
    (λ _ s, keeps data_of m1 [block] s.1 ∧ addressed data_of (sview (storage s.2))).
Proof.
  intros Ha Hb. eapply passes_bind.
  { apply passes_at1. eapply passes_bind; [apply keeps_create_pin|intros tmp; cbn beta].
    eapply passes_bind; [apply keeps_temp_pin|intros ?; cbn beta].
    eapply passes_bind; [by apply keeps_insert|intros ?; cbn beta]. apply keeps_flush. }
  intros u; cbn beta.
  apply (passes_at2 _ _ (λ _ n, addressed data_of (sview (storage n)))).
  eapply passes_bind; [apply keeps_create_pin|intros tmp; cbn beta].
  eapply passes_bind; [apply keeps_temp_pin|intros ?; cbn beta].
  eapply (passes_bind _ _ _ (λ b n, addressed data_of (sview (storage n)) ∧
    block_data b = data_of (block_cid block))).
  - intros n (Hv & _). unfold unwrapped.
    destruct (fetch w (block_cid block) [p] n) as [[b|e] n'] eqn:E; [|done].
    by apply (fetch_genuine data_of) in E as (? & _ & ?).
  - intros b. apply passes_asserts. intros n [Hv Hd]. split; [|done].
    apply bool_decide_eq_true. congruence.
Qed.

(** ** The bitswap tests *)

Section bitswap_tests.
Context `{L : Libp2p, I : Ipld, C : !Encoder, B : !BlockStore, BL : !BlockStoreLaws, N : !Protocols,
          CE : !Channels Event, CG : !Channels GossipEvent, CS : !Channels SyncEvent,
          CL : !Channels ListenerEvent, CC : !Bounded NetworkCommand}.
Context (data_of : Cid → Bytes) (block_eqb : Block → Block → bool) (w : Awaits) (root : Bytes)
  (p : PeerId).
Hypotheses
  (Heq : ∀ b b', block_cid b = block_cid b' → block_data b = block_data b' → block_eqb b b' = true)
  (Hw : ∀ c, sync_protocol data_of root c w) (Hu : undisturbed data_of w)
  (Hok : ∀ q sv, sq_id q ≠ None → (await_complete w q sv).1 = Ok ())
  (Hm : ∀ c sv, is_ok (missing_blocks c sv).1 = true).

Lemma bitswap_sync_passes width depth g cid bs m1 m2 :
  (build_tree width depth g).1 = Ok (cid, bs) →
  (∀ b, b ∈ bs → links (block_cid b) (block_data b) = references b ∧
                 data_of (block_cid b) = block_data b) →
  passes (λ s, keeps data_of m1 [] s.1 ∧ keeps data_of m2 [] s.2)
    (bitswap_sync_test block_eqb w root p cid bs)
    (λ _ s, keeps data_of (partial_alter (λ _, Some cid) root m2) (bs ++ []) s.2).
Proof.
  unfold build_tree. destruct (build_tree_0 _ _ [] g) as [[[c0|] bs0] g'] eqn:E; [|done].
  cbn. intros [= -> ->]. apply build_tree_0_tree in E as (bs' & -> & Ht). cbn.
  apply (proj1 (tree_forest_facts _)) in Ht as (_ & _ & _ & Hreach). intros Hbs.
  set (m1' := partial_alter (λ _, Some cid) root m1). set (m2' := partial_alter (λ _, Some cid) root m2).
  eapply passes_bind; [apply passes_at1, keeps_alias|]. intros u1; cbn beta.
  eapply passes_bind; [apply passes_at2, keeps_alias|]. intros u2; cbn beta.
  eapply passes_bind.
  { apply passes_for_blocks. intros b Hb.
    apply (passes_at1 (keeps data_of m1' []) _ (λ _, keeps data_of m1' []) (keeps data_of m2' [])).
    eapply passes_weaken; [apply keeps_insert|done|]; [symmetry; by apply Hbs|].
    intros ? ?. apply kept_weaken, list_subseteq_nil. }
  intros u3; cbn beta. eapply passes_bind; [apply passes_at1, keeps_flush|]. intros u4; cbn beta.
  eapply passes_bind.
  { apply passes_at2. intros n Hn. rewrite (sync_events data_of w root cid p n) by done. revert n Hn.
    apply (keeps_sync data_of w root cid p m2' []); [done..| |done].
    unfold m2'. by rewrite lookup_partial_alter, decide_True. }
  intros u5; cbn beta. eapply (passes_bind _ _ _ (λ _ s, keeps data_of m2' (bs' ++ []) s.2)).
  { eapply passes_weaken; [apply (passes_at2 (keeps data_of m2' (bs' ++ []))), keeps_flush| |].
    - intros s [H1 [Hk Hc]]. split; [exact H1|]. eapply complete_kept; [exact Hk|exact Hc|].
      intros b Hb. split; [symmetry; by apply Hbs|].
      eapply rtc_subrel; [|by apply Hreach]. intros x y (b1 & Hb1 & <- & Hl).
      destruct (Hbs b1 Hb1) as [Hl1 Hd1]. by rewrite Hd1, Hl1.
    - by intros ? ? [_ ?]. }
  intros u6; cbn beta. apply passes_for_blocks. intros b Hb.
  eapply (passes_bind _ _ _ (λ b' s, keeps data_of m2' (bs' ++ []) s.2 ∧
    block_cid b' = block_cid b ∧ block_data b' = block_data b)).
  - intros s Hs. pose proof (keeps_get data_of m2' (bs' ++ []) b) as Hg. unfold at2.
    specialize (Hg (proj2 (elem_of_app _ _ _) (or_introl Hb)) _ Hs).
    by destruct (n_get (block_cid b) s.2) as [[b'|e] n'].
  - intros b'. apply passes_asserts. intros s (Hk & H1 & H2). split; [by apply Heq | exact Hk].
Qed.

(** A built tree either has an error or the test passes. *)
Lemma built_passes width depth g n1 n2 :
  (∀ cid bs b, (build_tree width depth g).1 = Ok (cid, bs) → b ∈ bs →
     links (block_cid b) (block_data b) = references b ∧ data_of (block_cid b) = block_data b) →
  addressed data_of (sview (storage n1)) → addressed data_of (sview (storage n2)) →
  let r := (built_test (build_tree width depth g) (bitswap_sync_test block_eqb w root p) (n1, n2)).1 in
  r = Ok () ∨ r = Err Unwrapped.
Proof.
  intros Hb H1 H2. unfold built_test. destruct (build_tree width depth g).1 as [[cid bs]|] eqn:E; [|by right].
  pose proof (bitswap_sync_passes width depth g cid bs (v_aliases (sview (storage n1)))
    (v_aliases (sview (storage n2))) E (λ b, Hb _ _ b eq_refl) (n1, n2)) as Hp.
  destruct (bitswap_sync_test _ _ _ _ _ _ (n1, n2)) as [[[]|e] s]; [by left|right]. cbn. f_equal.
  eapply Hp. split; (split_and!; [done|reflexivity|by intros ? ?%not_elem_of_nil]).
Qed.
End bitswap_tests.

(** [test_bitswap_sync_chain] and [test_bitswap_sync_tree]: if bitswap fetches what it is
    asked for and nobody else uses the nodes, no block is missed and no comparison fails;
    the tests only fail on errors reported by encoder, store or network. *)
Theorem bitswap_tests_pass `{L : Libp2p, I : Ipld, C : !Encoder, B : !BlockStore,
    BL : !BlockStoreLaws, N : !Protocols, CE : !Channels Event, CG : !Channels GossipEvent,
    CS : !Channels SyncEvent, CL : !Channels ListenerEvent, CC : !Bounded NetworkCommand}
    (data_of : Cid → Bytes) block_eqb w root p (g : Rng) (n1 n2 : Ipfs) :
  (∀ b b', block_cid b = block_cid b' → block_data b = block_data b' → block_eqb b b' = true) →
  (∀ width depth cid bs b, (build_tree width depth g).1 = Ok (cid, bs) → b ∈ bs →
     links (block_cid b) (block_data b) = references b ∧ data_of (block_cid b) = block_data b) →
  (∀ c, sync_protocol data_of root c w) → undisturbed data_of w →
  (∀ q sv, sq_id q ≠ None → (await_complete w q sv).1 = Ok ()) →
  (∀ c sv, is_ok (missing_blocks c sv).1 = true) →
  addressed data_of (sview (storage n1)) → addressed data_of (sview (storage n2)) →
  (∃ r, (test_bitswap_sync_chain block_eqb w root p g (n1, n2)).1 = r ∧ (r = Ok () ∨ r = Err Unwrapped)) ∧
  (∃ r, (test_bitswap_sync_tree block_eqb w root p g (n1, n2)).1 = r ∧ (r = Ok () ∨ r = Err Unwrapped)).
Proof.
  intros Heq Hb Hw Hu Hok Hm H1 H2. split; (eexists; split; [reflexivity|]).
  - by apply (built_passes data_of block_eqb w root p Heq Hw Hu Hok Hm 1 1000 g n1 n2 (Hb 1 1000)).
  - by apply (built_passes data_of block_eqb w root p Heq Hw Hu Hok Hm 10 4 g n1 n2 (Hb 10 4)).
Qed.

(** ** [test_sync] *)
Section test_sync.
Context `{L : Libp2p, I : Ipld, B : !BlockStore, BL : !BlockStoreLaws, N : !Protocols,
          CE : !Channels Event, CG : !Channels GossipEvent, CS : !Channels SyncEvent,
          CL : !Channels ListenerEvent, CC : !Bounded NetworkCommand}.
Context (data_of : Cid → Bytes) (x : Bytes).
Implicit Types (v : View) (bs : list Block).

(** A block with two leaves. *)
Record fan (c a b : Block) : Prop := {
  fan_root : links (block_cid c) (block_data c) = [block_cid a; block_cid b];
  fan_left : links (block_cid a) (block_data a) = [];
  fan_right : links (block_cid b) (block_data b) = [];
}.

Lemma fan_reach v c a b z :
  fan c a b → has v c → has v a → has v b →
  reach links v (block_cid c) z ↔ z ∈ [block_cid c; block_cid a; block_cid b].
Proof.
  intros [Hc Ha Hb] Hvc Hva Hvb. rewrite !elem_of_cons, elem_of_nil. split.
  - intros [->|(y & (d & Hd & Hy) & Hr)]%rtc_inv; [by left|]. right.
    unfold has in Hvc. simplify_eq. rewrite Hc, !elem_of_cons, elem_of_nil in Hy.
    destruct Hy as [->|[->|[]]]; apply reach_leaf in Hr; auto.
  - assert (∀ y, y ∈ links (block_cid c) (block_data c) → reach links v (block_cid c) y) as Hl.
    { intros y Hy. apply rtc_once. by exists (block_data c). }
    rewrite Hc in Hl. intros [->|[->|[->|[]]]]; [apply rtc_refl|apply Hl; set_solver..].
Qed.

(** With a single name, what is named are the three blocks of its fan. *)
Lemma fan_named v bs c a b d :
  fan c a b → kept data_of {[x := block_cid c]} bs v → [c; a; b] ⊆ bs →
  named v d ↔ block_cid d ∈ [block_cid c; block_cid a; block_cid b].
Proof.
  intros Hf (_ & Ha & Hbs) Hin. rewrite <- (fan_reach v c a b) by (done || apply Hbs, Hin; set_solver).
  unfold named. rewrite Ha. split.
  - by intros (n & r & [<- <-]%lookup_singleton_Some & Hr).
  - intros Hr. exists x, (block_cid c). by rewrite lookup_singleton_eq.
Qed.

Lemma none_named v bs d : kept data_of ∅ bs v → ¬ named v d.
Proof. intros (_ & Ha & _) (n & r & Hn & _). rewrite Ha in Hn. by rewrite lookup_empty in Hn. Qed.

Lemma fan_pinned c a b bs d :
  fan c a b → [c; a; b] ⊆ bs → d ∈ [c; a; b] →
  passes (keeps data_of {[x := block_cid c]} bs) (n_assert_pinned d)
    (λ _, keeps data_of {[x := block_cid c]} bs).
Proof.
  intros Hf Hin Hd. apply keeps_pinned; [by apply Hin|]. intros n Hn.
  apply (fan_named _ bs c a b d Hf Hn Hin). set_solver.
Qed.

Lemma fan_unpinned c a b bs d :
  fan c a b → [c; a; b] ⊆ bs → d ∈ bs →
  block_cid d ∉ [block_cid c; block_cid a; block_cid b] →
  passes (keeps data_of {[x := block_cid c]} bs) (n_assert_unpinned d)
    (λ _, keeps data_of {[x := block_cid c]} bs).
Proof.
  intros Hf Hin Hd Hno. apply keeps_unpinned; [done|]. intros n Hn.
  by rewrite (fan_named _ bs c a b d Hf Hn Hin).
Qed.

Lemma none_unpinned bs d :
  d ∈ bs → passes (keeps data_of ∅ bs) (n_assert_unpinned d) (λ _, keeps data_of ∅ bs).
Proof. intros Hd. apply keeps_unpinned; [done|]. intros n Hn. by eapply none_named. Qed.

(** Naming, when nothing or only this name was there. *)
Lemma name_first c bs :
  passes (keeps data_of ∅ bs) (n_alias x (Some c)) (λ _, keeps data_of {[x := c]} bs).
Proof. exact (keeps_alias data_of ∅ bs x (Some c)). Qed.

Lemma name_again c c' bs :
  passes (keeps data_of {[x := c]} bs) (n_alias x (Some c')) (λ _, keeps data_of {[x := c']} bs).
Proof.
  eapply passes_weaken; [apply keeps_alias|done|]. intros u n.
  assert (partial_alter (λ _, Some c') x {[x := c]} = {[x := c']} :> gmap Bytes Cid) as ->; [|done].
  exact (insert_singleton_eq x c' c).
Qed.

Lemma unname c bs :
  passes (keeps data_of {[x := c]} bs) (n_alias x None) (λ _, keeps data_of ∅ bs).
Proof.
  eapply passes_weaken; [apply keeps_alias|done|]. intros u n.
  assert (partial_alter (λ _, None) x {[x := c]} = ∅ :> gmap Bytes Cid) as ->; [|done].
  exact (delete_singleton_eq x c).
Qed.

(** Synchronising a fan under its name brings its blocks. *)
Lemma fan_sync w c a b p bs :
  fan c a b → (∀ d, d ∈ [c; a; b] → block_data d = data_of (block_cid d)) →
  sync_protocol data_of x (block_cid c) w → undisturbed data_of w →
  (∀ sv, is_ok (missing_blocks (block_cid c) sv).1 = true) →
  passes (keeps data_of {[x := block_cid c]} bs) (n_sync w (block_cid c) p)
    (λ _, keeps data_of {[x := block_cid c]} ([c; a; b] ++ bs)).
Proof.
  intros Hf Hd Hw Hu Hm.
  eapply passes_weaken; [apply (keeps_sync data_of w x (block_cid c) p)| |]; try done.
  - by rewrite lookup_singleton_eq.
  - intros u n [Hk Hc]. eapply complete_kept; [exact Hk|exact Hc|]. intros d Hin. split; [by apply Hd|].
    rewrite !elem_of_cons, elem_of_nil in Hin. destruct Hin as [->|[->|[->|[]]]];
      [apply rtc_refl|apply rtc_once..]; rewrite <- Hd, (fan_root _ _ _ Hf) by set_solver; set_solver.
Qed.

(** *** The phases *)
Context (w1 w2 : Awaits) (p1 p2 : PeerId) (a1 b1 c1 b2 c2 : Block).
Hypotheses (Hnd : NoDup (block_cid <$> [a1; b1; c1; b2; c2]))
  (Hf1 : fan c1 a1 b1) (Hf2 : fan c2 a1 b2)
  (Hd : ∀ d, d ∈ [a1; b1; c1; b2; c2] → block_data d = data_of (block_cid d))
  (Hw2 : sync_protocol data_of x (block_cid c1) w2) (Hu2 : undisturbed data_of w2)
  (Hw1 : sync_protocol data_of x (block_cid c2) w1) (Hu1 : undisturbed data_of w1)
  (Hm : ∀ c sv, is_ok (missing_blocks c sv).1 = true).

(** One block is not among three others. *)
Local Ltac differs :=
  let H := fresh in pose proof Hnd as H; cbn in H; rewrite !NoDup_cons in H; set_solver.
Local Ltac step :=
  first
  [ apply keeps_insert; apply Hd; set_solver
  | apply name_first | apply name_again | apply unname | apply keeps_flush
  | apply none_unpinned; set_solver
  | apply (fan_pinned c1 a1 b1); [done | set_solver..]
  | apply (fan_pinned c2 a1 b2); [done | set_solver..]
  | apply (fan_unpinned c2 a1 b2); [done | set_solver | set_solver | differs]
  | apply (fan_sync w2 c1 a1 b1); [done | set_solver | done..]
  | apply (fan_sync w1 c2 a1 b2); [done | set_solver | done..] ].
Local Ltac steps := repeat (eapply passes_bind; [step|intros ?; cbn beta]); step.

Lemma test_sync_run :
  passes (λ s, keeps data_of ∅ [] s.1 ∧ keeps data_of ∅ [] s.2)
    (test_sync w1 w2 p1 p2 x a1 b1 c1 b2 c2)
    (λ _ s, keeps data_of ∅ ([c2; a1; b2] ++ [c1; b1; a1]) s.1 ∧
            keeps data_of ∅ ([c2; b2] ++ [c1; a1; b1]) s.2).
Proof.
  eapply passes_bind; [apply passes_at1; steps|intros ?; cbn beta].
  eapply passes_bind; [apply passes_at2; steps|intros ?; cbn beta].
  eapply passes_bind; [apply passes_at1; steps|intros ?; cbn beta].
  eapply passes_bind; [apply passes_at2; steps|intros ?; cbn beta].
  eapply passes_bind; [apply passes_at1; steps|intros ?; cbn beta].
  eapply passes_bind; [apply passes_at2; steps|intros ?; cbn beta].
  apply (passes_at1 _ _ (λ _, keeps data_of ∅ ([c2; a1; b2] ++ [c1; b1; a1]))). steps.
Qed.
End test_sync.

(** [test_sync]: two nodes exchange two versions of a DAG that share a block.  If bitswap
    fetches what it is asked for and nobody else uses the nodes, none of the assertions on
    what is pinned can fail. *)
Theorem test_sync_passes `{L : Libp2p, I : Ipld, B : !BlockStore, BL : !BlockStoreLaws,
    N : !Protocols, CE : !Channels Event, CG : !Channels GossipEvent, CS : !Channels SyncEvent,
    CL : !Channels ListenerEvent, CC : !Bounded NetworkCommand}
    (data_of : Cid → Bytes) w1 w2 p1 p2 x (a1 b1 c1 b2 c2 : Block) (n1 n2 : Ipfs) :
  NoDup (block_cid <$> [a1; b1; c1; b2; c2]) → fan c1 a1 b1 → fan c2 a1 b2 →
  (∀ d, d ∈ [a1; b1; c1; b2; c2] → block_data d = data_of (block_cid d)) →
  sync_protocol data_of x (block_cid c1) w2 → undisturbed data_of w2 →
  sync_protocol data_of x (block_cid c2) w1 → undisturbed data_of w1 →
  (∀ c sv, is_ok (missing_blocks c sv).1 = true) →
  keeps data_of ∅ [] n1 → keeps data_of ∅ [] n2 →
  let r := (test_sync w1 w2 p1 p2 x a1 b1 c1 b2 c2 (n1, n2)).1 in r = Ok () ∨ r = Err Unwrapped.
Proof.
  intros Hnd Hf1 Hf2 Hd Hw2 Hu2 Hw1 Hu1 Hm H1 H2.
  pose proof (test_sync_run data_of x w1 w2 p1 p2 a1 b1 c1 b2 c2 Hnd Hf1 Hf2 Hd Hw2 Hu2 Hw1 Hu1 Hm
    (n1, n2) (conj H1 H2)) as Hp.
  destruct (test_sync _ _ _ _ _ _ _ _ _ _ (n1, n2)) as [[[]|e] s]; [by left|right]. cbn. by f_equal.
Qed.

(** A run of [test_sync] on two stores in memory, in which the queries of bitswap deliver
    the blocks of the other node. *)
Definition delivering (bs : list (N * Bytes)) : Awaits (B := mem_store) (N := toy_protocols) := {|
  await_query := λ _ sv, (None, sv);
  await_get := λ _ sv, (None, sv);
  await_sync := λ _ _ sv, (Some (MkSyncQuery (Some (QBitswap (0%nat : BitswapQueryId))) [] false), sv);
  await_complete := λ q sv, (Ok (), (exec_all (map CInsert bs) sv).2);
|}.
Definition fresh_node : Ipfs (B := mem_store) := MkIpfs service0 client0.

Example test_sync_runs :
  let a1 := (1%N, []) in let b1 := (2%N, []) in let c1 := (3%N, [1; 2]) in
  let b2 := (4%N, []) in let c2 := (5%N, [1; 4]) in
  (test_sync (delivering [c2; b2]) (delivering [c1; a1; b1]) peer_a peer_b [120]
     a1 b1 c1 b2 c2 (fresh_node, fresh_node)).1 = Ok ().
Proof. by vm_compute. Qed.
