(* ===== verification/DhtTests.v ===== *)
(** * Unit tests on the distributed hash table

    [test_exchange_kad], [test_provider_not_found] and [test_dht_record] of [src/lib.rs].
    What the hash table answers to a node is a parameter, an [Answers]; while an answer is
    awaited the storage may change.  [test_exchange_kad] relies on nothing the table says:
    whoever is named as a provider, the bytes that are fetched are those of the block. *)

From S2P Require Import Prelude Testing Libp2p Duration PeerInfo AddressHandler Channel Peers PeersReach.
From S2P Require Import Ipld Db DbSpec Retention StorageTests Behaviour Network NetworkService.
From S2P Require Import NetToy Config NetworkClient Ipfs IpfsSpec Harness IpfsStore Sync SyncExample NodeTests SyncTests.

Open Scope Z_scope.

(** ** The programs *)
Section programs.
Context `{L : Libp2p, I : Ipld, B : !BlockStore, N : !Protocols, CE : !Channels Event,
          CG : !Channels GossipEvent, CS : !Channels SyncEvent,
          CL : !Channels ListenerEvent, CC : !Bounded NetworkCommand}.
Local Open Scope test_scope.

(** What arrives on a reply channel, [None] when it is cancelled, and the storage then. *)
Definition answer (A : Type) : Type :=
  Oneshot → StorageService → option (result A NetError) * StorageService.
Record Answers : Type := MkAnswers {
  on_bootstrap : answer ();
  on_provide : answer ();
  on_providers : answer (gset PeerId);
  on_put_record : answer ();
  on_get_record : answer (list PeerRecord);
}.

(** [.await?] on a method that sends a command and waits for the reply. *)
Definition awaited {A} (send : Ipfs → Request * Ipfs) (reply : answer A) : test Ipfs A := λ n,
  let '(req, n) := send n in
  match req with
  | Failed _ => (Err Unwrapped, n)
  | Waiting rx =>
      let '(r, sv) := reply rx (storage n) in
      (match r with Some (Ok a) => Ok a | _ => Err Unwrapped end, MkIpfs sv (network n))
  end.

(** A result that is looked at later, and [unwrap] on it. *)
Definition joined {S A} (m : test S A) : test S (result A failure) := λ s,
  let '(r, s) := m s in (Ok r, s).
Definition unwrap_joined {S A} (r : result A failure) : test S A := λ s, (r, s).

(** [test_exchange_kad]: [nodes] is the address of the first of the three nodes, the state
    is the other two; [key] is made of the content id.  The bootstraps are joined, each on
    its own node. *)
Definition test_exchange_kad (w : Awaits) (d1 d2 : Answers) (nodes : list (PeerId * Multiaddr))
    (key : Key) (block : Block) : test (Ipfs * Ipfs) () :=
  r1 <- at1 (joined (awaited (ipfs_bootstrap nodes) (on_bootstrap d1)));
  r2 <- at2 (joined (awaited (ipfs_bootstrap nodes) (on_bootstrap d2)));
  unwrap_joined r1 ;;
  unwrap_joined r2 ;;
  at1 (tmp1 <- unwrapped ipfs_create_temp_pin; t_temp_pin tmp1 (block_cid block) ;;
       n_insert block ;;
       awaited (ipfs_provide key) (on_provide d1) ;;
       n_flush) ;;
  at2 (tmp2 <- unwrapped ipfs_create_temp_pin; t_temp_pin tmp2 (block_cid block) ;;
       provs <- awaited (ipfs_providers key) (on_providers d2);
       block2 <- unwrapped (fetch w (block_cid block) (elements provs));
       assert_data block block2).

(** [error.downcast_ref::<BlockNotFound>().is_some()]; [of_store] and [of_bitswap] decide it
    for the errors of the block store and of bitswap. *)
Definition block_not_found (of_store : StoreError → bool) (of_bitswap : BitswapError → bool)
    (e : IpfsError) : bool :=
  match e with
  | FromStorage e => of_store e
  | FromNetwork (SvcNet (BitswapFailed e)) => of_bitswap e
  | FromNetwork (SvcNet (NetBlockNotFound _)) => true
  | FromNetwork _ => false
  end.

(** [test_provider_not_found]: [p] is the node itself. *)
Definition test_provider_not_found of_store of_bitswap (w : Awaits) (p : PeerId) (block : Block)
    : test Ipfs () := λ n,
  let '(r, n) := fetch w (block_cid block) [p] n in
  match r with
  | Ok _ => (Err Unwrapped, n)
  | Err e => asserts (block_not_found of_store of_bitswap e) n
  end.

(** [test_dht_record]: [a1] and [a2] are the peers and addresses of the two nodes. *)
Definition test_dht_record (d1 d2 : Answers) (a1 a2 : PeerId * Multiaddr) (key : Key)
    (record : KadRecord) (one : Quorum) : test (Ipfs * Ipfs) () :=
  at1 (awaited (ipfs_bootstrap [a2]) (on_bootstrap d1)) ;;
  at2 (awaited (ipfs_bootstrap [a1]) (on_bootstrap d2)) ;;
  at1 (awaited (ipfs_put_record record one) (on_put_record d1)) ;;
  records <- at2 (awaited (ipfs_get_record key one) (on_get_record d2));
  asserts (bool_decide (length records = 1%nat)).
End programs.

(** ** What the tests show *)
Section shown.
Context `{L : Libp2p, I : Ipld, B : !BlockStore, BL : !BlockStoreLaws, N : !Protocols,
          CE : !Channels Event, CG : !Channels GossipEvent, CS : !Channels SyncEvent,
          CL : !Channels ListenerEvent, CC : !Bounded NetworkCommand} (data_of : Cid → Bytes).
Local Notation genuine_node := (λ n : Ipfs, addressed data_of (sview (storage n))).

(** Waiting for the answer stores only blocks that hash to their content id. *)
Definition safe_answer {A} (reply : answer A) : Prop :=
  ∀ rx, content_safe data_of (λ sv, (reply rx sv).2).

(** Only the network is asked. *)
Definition network_only (send : Ipfs → Request * Ipfs) : Prop :=
  ∀ n, storage (send n).2 = storage n.

Lemma on_network_only f : network_only (on_network f).
Proof. intros n. unfold on_network. by destruct (f (network n)). Qed.

(** A result that was put aside fails in an [unwrap] or not at all. *)
Definition unwraps {A} (r : result A failure) : Prop := ∀ e, r = Err e → e = Unwrapped.

Lemma joined_passes {S A} P (m : test S A) (Q : S → Prop) :
  (∀ s, P s → Q (m s).2) → passes P m (λ _, Q) →
  passes P (joined m) (λ r s, Q s ∧ unwraps r).
Proof.
  intros H1 H2 s Hs. specialize (H1 s Hs). specialize (H2 s Hs). unfold joined.
  destruct (m s) as [[a|e] s']; (split; [done|]); [done|]. by intros ? [= <-].
Qed.

Lemma awaited_state {A} send (reply : answer A) n :
  network_only send → safe_answer reply → genuine_node n → genuine_node (awaited send reply n).2.
Proof.
  intros Hs Hr Hn. unfold awaited. specialize (Hs n). cbn beta in Hn. rewrite <- Hs in Hn.
  destruct (send n) as [[e|rx] n1]; [done|]. cbn in Hn.
  specialize (Hr rx _ Hn). cbn beta in Hr. by destruct (reply rx (storage n1)) as [[[a|e]|] sv].
Qed.

Lemma awaited_genuine {A} send (reply : answer A) :
  network_only send → safe_answer reply →
  passes genuine_node (awaited send reply) (λ _, genuine_node).
Proof.
  intros Hs Hr n Hn. pose proof (awaited_state send reply n Hs Hr Hn) as Hst.
  unfold awaited in *. destruct (send n) as [[e|rx] n1]; [done|].
  by destruct (reply rx (storage n1)) as [[[a|e]|] sv].
Qed.

Lemma joined_genuine {A} send (reply : answer A) :
  network_only send → safe_answer reply →
  passes genuine_node (joined (awaited send reply)) (λ r n, genuine_node n ∧ unwraps r).
Proof.
  intros Hs Hr. apply joined_passes; [intros n; by apply awaited_state|by apply awaited_genuine].
Qed.

Lemma unwrap_joined_passes {S A} (P : S → Prop) (r : result A failure) :
  unwraps r → passes P (unwrap_joined r) (λ _, P).
Proof. intros Hr s Hs. unfold unwrap_joined. destruct r as [a|e]; [done|]. by apply Hr. Qed.

(** What keeps aliases and blocks keeps blocks genuine. *)
Lemma genuine_of_keeps {A} (m : test Ipfs A) bs :
  (∀ al, passes (keeps data_of al []) m (λ _, keeps data_of al bs)) →
  passes genuine_node m (λ _, genuine_node).
Proof.
  intros Hm n Hn. specialize (Hm (v_aliases (sview (storage n))) n).
  assert (keeps data_of (v_aliases (sview (storage n))) [] n) as Hk
    by (split_and!; [done..|by intros ? ?%not_elem_of_nil]).
  specialize (Hm Hk). destruct (m n) as [[a|e] n']; [by destruct Hm|done].
Qed.

Lemma pinned_genuine {A} c (k : test Ipfs A) Q :
  passes genuine_node k Q →
  passes genuine_node (tmp <- unwrapped ipfs_create_temp_pin; t_temp_pin tmp c ;; k)%test Q.
Proof.
  intros Hk. eapply passes_bind; [apply (genuine_of_keeps _ []); intros al; apply keeps_create_pin|intros tmp].
  by eapply passes_bind; [apply (genuine_of_keeps _ []); intros al; apply keeps_temp_pin|intros ?].
Qed.

Lemma fetch_passes w c provs :
  addressing data_of w →
  passes genuine_node (unwrapped (fetch w c provs))
    (λ b n, genuine_node n ∧ block_data b = data_of c).
Proof.
  intros Ha n Hn. unfold unwrapped. destruct (fetch w c provs n) as [[b|e] n'] eqn:E; [|done].
  by apply (fetch_genuine data_of) in E as (? & _ & ?).
Qed.
End shown.

(** [test_exchange_kad]: whatever the hash table answers, whoever it names as providers and
    whatever the network delivers, as long as only blocks are stored that hash to their
    content id, the fetched block is the inserted one: the test can end early in an error
    of the network or the store, but its assertion holds. *)
Theorem exchange_kad_passes `{L : Libp2p, I : Ipld, B : !BlockStore, BL : !BlockStoreLaws,
    N : !Protocols, CE : !Channels Event, CG : !Channels GossipEvent, CS : !Channels SyncEvent,
    CL : !Channels ListenerEvent, CC : !Bounded NetworkCommand}
    (data_of : Cid → Bytes) w d1 d2 nodes key block :
  addressing data_of w → block_data block = data_of (block_cid block) →
  safe_answer data_of (on_bootstrap d1) → safe_answer data_of (on_bootstrap d2) →
  safe_answer data_of (on_provide d1) → safe_answer data_of (on_providers d2) →
  passes (λ s, addressed data_of (sview (storage s.1)) ∧ addressed data_of (sview (storage s.2)))
    (test_exchange_kad w d1 d2 nodes key block)
    (λ _ s, addressed data_of (sview (storage s.1)) ∧ addressed data_of (sview (storage s.2))).
Proof.
  intros Ha Hb Hb1 Hb2 Hp1 Hp2.
  assert (∀ f : Client → Request * Client, network_only (on_network f)) as Hnet
    by (intros; apply on_network_only).
  pose proof (joined_genuine data_of (ipfs_bootstrap nodes) _ (Hnet _) Hb1) as J1.
  pose proof (joined_genuine data_of (ipfs_bootstrap nodes) _ (Hnet _) Hb2) as J2.
  set (ok_node := λ n : Ipfs, addressed data_of (sview (storage n))).
  set (G := λ s : Ipfs * Ipfs, ok_node s.1 ∧ ok_node s.2).
  eapply (passes_bind _ _ _ (λ r s, G s ∧ unwraps r)).
  { eapply passes_weaken; [apply (passes_at1 _ _ _ ok_node J1)|done|].
    by intros r s [[? ?] ?]. }
  intros r1. apply passes_pure. intros Hr1. eapply (passes_bind _ _ _ (λ r s, G s ∧ unwraps r)).
  { eapply passes_weaken; [apply (passes_at2 _ _ _ ok_node J2)|done|].
    by intros r s [? [? ?]]. }
  intros r2. apply passes_pure. intros Hr2.
  eapply passes_bind; [by apply unwrap_joined_passes|intros ?].
  eapply passes_bind; [by apply unwrap_joined_passes|intros ?].
  eapply passes_bind; [apply (passes_at1 ok_node _ (λ _, ok_node) ok_node), pinned_genuine|intros ?].
  { eapply passes_bind; [by apply (genuine_of_keeps _ _ [block]); intros al; apply keeps_insert|intros ?].
    eapply passes_bind; [apply awaited_genuine; [apply Hnet|done]|intros ?].
    apply (genuine_of_keeps _ _ []). intros al. apply keeps_flush. }
  apply (passes_at2 ok_node _ (λ _, ok_node) ok_node), pinned_genuine. eapply passes_bind; [apply awaited_genuine; [apply Hnet|done]|intros provs].
  eapply passes_bind; [by apply fetch_passes|intros b]. apply passes_asserts.
  intros n [Hv Hd]. split; [|done]. apply bool_decide_eq_true. congruence.
Qed.

(** [test_provider_not_found] passes on a node that does not have the block, when its
    storage can be read and the network either refuses with the error of bitswap for a
    block that was not found or claims success without delivering it. *)
Theorem provider_not_found_passes `{L : Libp2p, I : Ipld, B : !BlockStore, BL : !BlockStoreLaws,
    N : !Protocols, CE : !Channels Event, CG : !Channels GossipEvent, CS : !Channels SyncEvent,
    CL : !Channels ListenerEvent, CC : !Bounded NetworkCommand}
    of_store of_bitswap w p block n rx cl id :
  (∀ c, of_store (BlockNotFound c) = true) →
  (∀ sv, ∃ r, (get (block_cid block) sv).1 = Ok r) →
  v_blocks (sview (storage n)) !! block_cid block = None →
  svc_get (block_cid block) [p] (network n) = (Waiting rx, cl) →
  (∀ sv, ∃ sv', await_query w rx sv = (Some id, sv') ∧ sview sv' = sview sv) →
  (∀ sv, ∃ r sv', await_get w id sv = (Some r, sv') ∧ sview sv' = sview sv ∧
     (r = Ok () ∨ ∃ e, r = Err (BitswapFailed e) ∧ of_bitswap e = true)) →
  (test_provider_not_found of_store of_bitswap w p block n).1 = Ok ().
Proof.
  intros Hst Hget Hno Hsvc Hq Hg.
  assert (∀ sv, v_blocks (sview sv) !! block_cid block = None →
    ∃ sv', get (block_cid block) sv = (Ok None, sv') ∧ sview sv' = sview sv) as Hmiss.
  { intros sv Hsv. destruct (Hget sv) as [r Hr]. pose proof (get_faithful (block_cid block) sv) as Hf.
    destruct (get (block_cid block) sv) as [r' sv']. cbn in Hr. subst r'. destruct Hf as [Hv Hf].
    exists sv'. split; [|done]. specialize (Hf _ eq_refl). congruence. }
  unfold test_provider_not_found, fetch. destruct (Hmiss _ Hno) as (sv1 & -> & Hv1).
  rewrite bool_decide_true by done. unfold network_get. cbn [network storage]. rewrite Hsvc.
  destruct (Hq sv1) as (sv2 & -> & Hv2). destruct (Hg sv2) as (r & sv3 & -> & Hv3 & Hr).
  destruct Hr as [->|(e & -> & He)].
  - cbn [network storage]. destruct (Hmiss sv3) as (sv4 & -> & _); [congruence|].
    unfold asserts. cbn. by rewrite Hst.
  - unfold asserts. cbn. by rewrite He.
Qed.

(** Runs on stores in memory: a table that knows the first node as provider, one that names
    nobody, one that finds a record and one that finds none. *)
Definition table (provs : gset N) (records : list PeerRecord)
    : Answers (B := mem_store) (N := toy_protocols) := {|
  on_bootstrap := λ _ sv, (Some (Ok ()), sv);
  on_provide := λ _ sv, (Some (Ok ()), sv);
  on_providers := λ _ sv, (Some (Ok provs), sv);
  on_put_record := λ _ sv, (Some (Ok ()), sv);
  on_get_record := λ _ sv, (Some (Ok records), sv);
|}.
Definition fetching (b : N * Bytes) : Awaits (B := mem_store) (N := toy_protocols) := {|
  await_query := λ _ sv, (Some (QBitswap (0%nat : BitswapQueryId)), sv);
  await_get := λ _ sv, (Some (Ok ()), (exec_all [CInsert b] sv).2);
  await_sync := λ _ _ sv, (None, sv);
  await_complete := λ q sv, (Err (BitswapFailed "none"), sv);
|}.

(** A node whose queue of commands has room for the commands of a test. *)
Definition roomy_node : Ipfs (B := mem_store) (N := toy_protocols) :=
  MkIpfs service0 (MkClient peer_a "node" ((8%nat, []) : bounded_state NetworkCommand) 0
    (∅ : chan_state ListenerEvent (Channels := queues _))).

Example exchange_kad_runs :
  let b := (7%N, [1]) in
  let run d := (test_exchange_kad (fetching b) d d [] (7%N : Key) b (roomy_node, roomy_node)).1 in
  run (table {[peer_a]} []) = Ok () ∧ run (table ∅ []) = Err Unwrapped.
Proof. by vm_compute. Qed.

Example dht_record_runs :
  let run rs := (test_dht_record (table ∅ rs) (table ∅ rs) (peer_a, addr_a) (peer_b, addr_a)
    (7%N : Key) (8%N : KadRecord) (() : Quorum) (roomy_node, roomy_node)).1 in
  run [8%N : PeerRecord] = Ok () ∧ run [] = Err Asserted.
Proof. by vm_compute. Qed.

(** Another block is delivered than the one asked for; a query that is cancelled fails the
    test. *)
Example provider_not_found_runs :
  let run w := (test_provider_not_found (λ e, bool_decide (e = BlockNotFound 0%N)) (λ _, false)
    w peer_a (7%N, [1]) roomy_node).1 in
  run (fetching (8%N, [1])) = Ok () ∧ run (delivering []) = Err Asserted.
Proof. by vm_compute. Qed.
