(* ===== verification/Lifecycle.v ===== *)
(** * Starting, cloning and dropping a node: [Ipfs::new] in [src/lib.rs]

    Who keeps whom alive.  An [Ipfs] handle owns a share of the storage
    ([Arc<StorageServiceInner>]), a share of the handle of the swarm task
    ([Arc<JoinHandle>]) and a sender of commands; the future of the swarm task owns
    another sender and, if bitswap is configured, a share of the storage.  The last share
    of the storage aborts the collector, the last share of the task handle drops it. *)

From S2P Require Import Prelude Libp2p Duration PeerInfo Executor AddressHandler Channel Peers.
From S2P Require Import PeersReach Ipld Db Behaviour Network NetworkService NetToy Config.
From S2P Require Import NetworkNew Ipfs DbSpec.

Open Scope Z_scope.

Section life.
Context `{FT : Features, RT : Runtime}.

(** The handles of a node in a process. *)
Record Life : Type := MkLife {
  lf_rt : rt_state;
  (** clones of [Ipfs] that have not been dropped *)
  lf_clones : nat;
  (** [NetworkService::_swarm_task] and [StorageServiceInner::gc_task], until dropped *)
  lf_swarm : option JoinHandle;
  lf_gc : option JoinHandle;
  (** the tasks behind them *)
  lf_swarm_task : task;
  lf_gc_task : task;
  (** whether the behaviour holds the block store *)
  lf_bitswap : bool;
}.

Definition set_rt (r : rt_state) (l : Life) : Life :=
  MkLife r (lf_clones l) (lf_swarm l) (lf_gc l) (lf_swarm_task l) (lf_gc_task l) (lf_bitswap l).

(** Shares of [StorageServiceInner]; senders of the command channel. *)
Definition storage_refs (l : Life) : nat :=
  lf_clones l + (if lf_bitswap l && running (lf_rt l) (lf_swarm_task l) then 1 else 0).
Definition command_senders (l : Life) : nat :=
  lf_clones l + (if running (lf_rt l) (lf_swarm_task l) then 1 else 0).

(** [Drop for StorageServiceInner], once the last share is gone. *)
Definition release_storage (l : Life) : Life :=
  match lf_gc l with
  | Some h =>
      if bool_decide (storage_refs l = 0%nat)
      then MkLife (abort h (lf_rt l)) (lf_clones l) (lf_swarm l) None (lf_swarm_task l)
             (lf_gc_task l) (lf_bitswap l)
      else l
  | None => l
  end.

(** Dropping the last [Arc<JoinHandle>] drops the handle. *)
Definition release_swarm (l : Life) : Life :=
  match lf_swarm l with
  | Some h =>
      if bool_decide (lf_clones l = 0%nat)
      then MkLife (drop_handle h (lf_rt l)) (lf_clones l) None (lf_gc l) (lf_swarm_task l)
             (lf_gc_task l) (lf_bitswap l)
      else l
  | None => l
  end.

(** [Clone for Ipfs]. *)
Definition clone_node (l : Life) : Life :=
  MkLife (lf_rt l) (S (lf_clones l)) (lf_swarm l) (lf_gc l) (lf_swarm_task l) (lf_gc_task l)
    (lf_bitswap l).

(** Dropping an [Ipfs]: first [storage], then [network], and with the swarm task what
    its future holds. *)
Definition drop_node (l : Life) : Life :=
  let l := MkLife (lf_rt l) (pred (lf_clones l)) (lf_swarm l) (lf_gc l) (lf_swarm_task l)
             (lf_gc_task l) (lf_bitswap l) in
  release_storage (release_swarm (release_storage l)).

(** What happens in the life of a node.  The loop of the collector does not end by
    itself; the swarm task may, and then its future is dropped. *)
Inductive life_event : Type := Cloned | Dropped | SwarmEnded | Elsewhere.

Inductive life_step : life_event → Life → Life → Prop :=
| life_clone l : (0 < lf_clones l)%nat → life_step Cloned l (clone_node l)
| life_drop l : (0 < lf_clones l)%nat → life_step Dropped l (drop_node l)
| life_swarm_ends r l :
    (∀ u, running r u = true ↔ running (lf_rt l) u = true ∧ u ≠ lf_swarm_task l) →
    life_step SwarmEnded l (release_storage (set_rt r l))
| life_others r l :
    running r (lf_swarm_task l) = running (lf_rt l) (lf_swarm_task l) →
    running r (lf_gc_task l) = running (lf_rt l) (lf_gc_task l) →
    life_step Elsewhere l (set_rt r l).

Inductive life_run : Life → list life_event → Life → Prop :=
| life_nil l : life_run l [] l
| life_cons e es l1 l2 l3 : life_step e l1 l2 → life_run l2 es l3 → life_run l1 (e :: es) l3.

(** ** The invariant of handles and tasks *)

(** The handle of a task spawned by the default executor. *)
Definition handle_of (t : task) : JoinHandle :=
  if feature_async_global then JAsyncGlobal (Some t) else JTokio t.

Record life_inv (l : Life) : Prop := {
  li_distinct : lf_swarm_task l ≠ lf_gc_task l;
  li_gc : lf_gc l = if bool_decide (storage_refs l = 0%nat) then None
                    else Some (handle_of (lf_gc_task l));
  li_gc_running : running (lf_rt l) (lf_gc_task l) = negb (bool_decide (storage_refs l = 0%nat));
  li_swarm : lf_swarm l = if bool_decide (lf_clones l = 0%nat) then None
                          else Some (handle_of (lf_swarm_task l));
  li_swarm_running :
    lf_clones l = 0%nat → feature_async_global = true →
    running (lf_rt l) (lf_swarm_task l) = false;
}.

Lemma abort_handle_of t r u :
  running (abort (handle_of t) r) u = true ↔ running r u = true ∧ u ≠ t.
Proof.
  unfold abort, handle_of. pose proof some_executor as Hf.
  destruct feature_async_global; cbn.
  - rewrite andb_false_r. apply ag_drop_running.
  - rewrite orb_false_r in Hf. rewrite Hf. apply tk_abort_running.
Qed.

Lemma drop_handle_of t r u :
  running (drop_handle (handle_of t) r) u = true ↔
  running r u = true ∧ (feature_async_global = true → u ≠ t).
Proof.
  unfold handle_of. rewrite drop_handle_running. destruct feature_async_global; naive_solver.
Qed.

Lemma running_other (f : rt_state → rt_state) r t u :
  (∀ v, running (f r) v = true ↔ running r v = true ∧ v ≠ t) → u ≠ t →
  running (f r) u = running r u.
Proof. intros H Hu. apply eq_bool_prop_intro. rewrite !Is_true_true, H. naive_solver. Qed.

Lemma running_gone (f : rt_state → rt_state) r t :
  (∀ v, running (f r) v = true ↔ running r v = true ∧ v ≠ t) → running (f r) t = false.
Proof. intros H. apply not_true_is_false. rewrite H. naive_solver. Qed.

(** Releasing the storage re-establishes the part of the invariant about the collector,
    when the collector ran as long as it was held. *)
Lemma release_storage_inv l :
  lf_swarm_task l ≠ lf_gc_task l →
  (lf_gc l = Some (handle_of (lf_gc_task l)) ∧ running (lf_rt l) (lf_gc_task l) = true ∨
   lf_gc l = None ∧ running (lf_rt l) (lf_gc_task l) = false ∧ storage_refs l = 0%nat) →
  let l' := release_storage l in
  storage_refs l' = storage_refs l ∧ lf_clones l' = lf_clones l ∧ lf_swarm l' = lf_swarm l ∧
  lf_swarm_task l' = lf_swarm_task l ∧ lf_gc_task l' = lf_gc_task l ∧
  lf_bitswap l' = lf_bitswap l ∧
  running (lf_rt l') (lf_swarm_task l) = running (lf_rt l) (lf_swarm_task l) ∧
  lf_gc l' = (if bool_decide (storage_refs l = 0%nat) then None
              else Some (handle_of (lf_gc_task l))) ∧
  running (lf_rt l') (lf_gc_task l) = negb (bool_decide (storage_refs l = 0%nat)).
Proof.
  intros Hd [[Hg Hr]|(Hg & Hr & H0)]; unfold release_storage; rewrite Hg; cbn.
  - case_bool_decide as H0; cbn; [|by split_and!].
    assert (running (abort (handle_of (lf_gc_task l)) (lf_rt l)) (lf_swarm_task l) =
            running (lf_rt l) (lf_swarm_task l)) as Hs.
    { apply (running_other (abort (handle_of (lf_gc_task l))) _ (lf_gc_task l)); [|done].
      intros v. apply abort_handle_of. }
    split_and!; try done.
    + unfold storage_refs. cbn. by rewrite Hs.
    + apply (running_gone (abort (handle_of (lf_gc_task l)))). intros v. apply abort_handle_of.
  - by rewrite bool_decide_true.
Qed.

(** Releasing the handle of the swarm task stops it on one runtime and detaches it on the
    other; the collector goes on. *)
Lemma release_swarm_inv l :
  lf_swarm_task l ≠ lf_gc_task l → lf_swarm l = Some (handle_of (lf_swarm_task l)) →
  let l' := release_swarm l in
  lf_clones l' = lf_clones l ∧ lf_gc l' = lf_gc l ∧
  lf_swarm_task l' = lf_swarm_task l ∧ lf_gc_task l' = lf_gc_task l ∧
  lf_bitswap l' = lf_bitswap l ∧
  running (lf_rt l') (lf_gc_task l) = running (lf_rt l) (lf_gc_task l) ∧
  lf_swarm l' = (if bool_decide (lf_clones l = 0%nat) then None
                 else Some (handle_of (lf_swarm_task l))) ∧
  running (lf_rt l') (lf_swarm_task l) =
    running (lf_rt l) (lf_swarm_task l) &&
    negb (feature_async_global && bool_decide (lf_clones l = 0%nat)).
Proof.
  intros Hd Hh. unfold release_swarm. rewrite Hh. case_bool_decide; cbn.
  - split_and!; try done; apply eq_bool_prop_intro; rewrite !Is_true_true.
    + rewrite drop_handle_of. naive_solver.
    + rewrite drop_handle_of, andb_true_r, andb_true_iff, negb_true_iff.
      destruct feature_async_global; naive_solver.
  - by rewrite andb_false_r, andb_true_r.
Qed.

(** Both leave all other tasks alone. *)
Lemma release_storage_others l u :
  (∀ h, lf_gc l = Some h → h = handle_of (lf_gc_task l)) → u ≠ lf_gc_task l →
  running (lf_rt (release_storage l)) u = running (lf_rt l) u.
Proof.
  intros Hh Hu. unfold release_storage. destruct (lf_gc l) as [h|]; [|done].
  rewrite (Hh h) by done. case_bool_decide; [|done]. cbn.
  apply (running_other (abort (handle_of (lf_gc_task l))) _ (lf_gc_task l)); [|done].
  intros v. apply abort_handle_of.
Qed.

Lemma release_swarm_others l u :
  (∀ h, lf_swarm l = Some h → h = handle_of (lf_swarm_task l)) → u ≠ lf_swarm_task l →
  running (lf_rt (release_swarm l)) u = running (lf_rt l) u.
Proof.
  intros Hh Hu. unfold release_swarm. destruct (lf_swarm l) as [h|]; [|done].
  rewrite (Hh h) by done. case_bool_decide; [|done]. cbn.
  apply eq_bool_prop_intro. rewrite !Is_true_true, drop_handle_of. by split; [intros [? _]|].
Qed.

Lemma release_storage_same l :
  lf_swarm (release_storage l) = lf_swarm l ∧ lf_swarm_task (release_storage l) = lf_swarm_task l ∧
  lf_gc_task (release_storage l) = lf_gc_task l ∧
  ∀ h, lf_gc (release_storage l) = Some h → lf_gc l = Some h.
Proof. unfold release_storage. destruct (lf_gc l) eqn:E; [case_bool_decide|]; split_and!; try done;
  intros h; cbn; congruence. Qed.

Lemma release_swarm_same l :
  lf_gc (release_swarm l) = lf_gc l ∧ lf_gc_task (release_swarm l) = lf_gc_task l.
Proof. unfold release_swarm. destruct (lf_swarm l); [case_bool_decide|]; done. Qed.

Lemma drop_node_others l u :
  life_inv l → u ≠ lf_swarm_task l → u ≠ lf_gc_task l →
  running (lf_rt (drop_node l)) u = running (lf_rt l) u.
Proof.
  intros [_ Hg _ Hs _] Hu1 Hu2. unfold drop_node. set (l0 := MkLife _ (pred _) _ _ _ _ _).
  destruct (release_storage_same l0) as (A1 & A2 & A3 & A4).
  destruct (release_swarm_same (release_storage l0)) as [B1 B2].
  assert (∀ h, lf_gc l0 = Some h → h = handle_of (lf_gc_task l0)) as Hg0.
  { cbn. intros h. rewrite Hg. destruct (bool_decide _); congruence. }
  rewrite release_storage_others, release_swarm_others, release_storage_others; try done.
  - rewrite A1, A2. cbn. intros h. rewrite Hs. destruct (bool_decide (lf_clones l = 0%nat));
      intros Heq; by simplify_eq.
  - by rewrite A2.
  - rewrite B1, B2, A3. intros h Hh. by apply Hg0, A4.
  - by rewrite B2, A3.
Qed.

Lemma storage_refs_spec l :
  storage_refs l = 0%nat ↔
  lf_clones l = 0%nat ∧ lf_bitswap l && running (lf_rt l) (lf_swarm_task l) = false.
Proof. unfold storage_refs. destruct (_ && _); naive_solver lia. Qed.

Lemma drop_node_inv l :
  life_inv l → (0 < lf_clones l)%nat →
  life_inv (drop_node l) ∧ lf_clones (drop_node l) = pred (lf_clones l) ∧
  lf_swarm_task (drop_node l) = lf_swarm_task l ∧ lf_gc_task (drop_node l) = lf_gc_task l ∧
  lf_bitswap (drop_node l) = lf_bitswap l ∧
  running (lf_rt (drop_node l)) (lf_swarm_task l) =
    running (lf_rt l) (lf_swarm_task l) &&
    negb (feature_async_global && bool_decide (pred (lf_clones l) = 0%nat)).
Proof.
  intros [Hd Hg Hr Hs _] Hc. assert (storage_refs l ≠ 0%nat) as Href by (unfold storage_refs; lia).
  rewrite bool_decide_false in Hg, Hr by done.
  rewrite bool_decide_false in Hs by lia. cbn in Hr.
  unfold drop_node. set (l0 := MkLife _ (pred _) _ _ _ _ _).
  destruct (release_storage_inv l0 Hd (or_introl (conj Hg Hr)))
    as (A1 & A2 & A3 & A4 & A5 & A6 & A7 & A8 & A9).
  set (l1 := release_storage l0) in *.
  destruct (release_swarm_inv l1) as (B1 & B2 & B3 & B4 & B5 & B6 & B7 & B8);
    [by rewrite A4, A5 | by rewrite A3, A4|].
  set (l2 := release_swarm l1) in *. cbn [l0 lf_swarm_task lf_gc_task lf_clones lf_bitswap lf_rt lf_swarm] in *.
  rewrite A4 in B3, B7, B8. rewrite A5 in B4, B6. rewrite A2 in B1, B7, B8. rewrite A6 in B5.
  rewrite A7 in B8.
  assert (storage_refs l2 = 0%nat ∨ storage_refs l1 ≠ 0%nat) as Hle.
  { destruct (decide (storage_refs l1 = 0%nat)) as [H0|]; [left|by right].
    rewrite storage_refs_spec in *. rewrite B1, B3, B5, B8, <- A7.
    destruct H0 as [H1 H2]. rewrite A2 in H1. rewrite A4, A6 in H2. split; [done|].
    apply andb_false_iff in H2 as [->| ->]; [done|]. by rewrite andb_false_r. }
  destruct (release_storage_inv l2) as (C1 & C2 & C3 & C4 & C5 & C6 & C7 & C8 & C9).
  { by rewrite B3, B4. }
  { rewrite B2, B4, B6, A8, A9, <- A1.
    destruct (bool_decide_reflect (storage_refs l1 = 0%nat)); [right | by left].
    split_and!; [done..|]. by destruct Hle. }
  set (l3 := release_storage l2) in *.
  rewrite B4 in C5, C8, C9. rewrite B3 in C4, C7. rewrite B8 in C7.
  split_and!; [split|..]; rewrite ?C1, ?C2, ?C3, ?C4, ?C5, ?C6, ?B1, ?B5; try done.
  intros H0 Ha. rewrite C7, Ha, bool_decide_true by done. apply andb_false_r.
Qed.

(** Every step keeps the invariant; the swarm task stops when it ends by itself or, on
    [async-global-executor], with the last clone. *)
Lemma life_step_inv e l l' :
  life_step e l l' → life_inv l →
  life_inv l' ∧ lf_bitswap l' = lf_bitswap l ∧
  (e ≠ SwarmEnded →
   running (lf_rt l') (lf_swarm_task l') =
     running (lf_rt l) (lf_swarm_task l) &&
     negb (feature_async_global && bool_decide (lf_clones l' = 0%nat))).
Proof.
  intros Hstep Hinv. destruct Hstep as [l Hc|l Hc|r l Hr|r l Hs Hg].
  - destruct Hinv as [Hd Hg Hr Hs Hsr]. assert (storage_refs l ≠ 0%nat) by (unfold storage_refs; lia).
    assert (storage_refs (clone_node l) ≠ 0%nat) by (unfold storage_refs; cbn; lia).
    split_and!; [split|..]; cbn [clone_node lf_swarm_task lf_gc_task lf_gc lf_rt lf_clones lf_swarm lf_bitswap]; try done.
    + rewrite Hg. by rewrite !bool_decide_false.
    + rewrite Hr. by rewrite !bool_decide_false.
    + rewrite Hs. by rewrite !bool_decide_false by lia.
    + intros _. rewrite bool_decide_false by lia. by rewrite andb_false_r, andb_true_r.
  - destruct (drop_node_inv l Hinv Hc) as (Hi & Hcl & Hst & Hgt & Hb & Hrun).
    split_and!; [done..|]. intros _. by rewrite Hst, Hrun, Hcl.
  - destruct Hinv as [Hd Hg Hgr Hs Hsr].
    assert (running r (lf_swarm_task l) = false) as Hoff.
    { apply not_true_is_false. rewrite Hr. naive_solver. }
    assert (running r (lf_gc_task l) = running (lf_rt l) (lf_gc_task l)) as Hsame.
    { apply (running_other (λ _, r) (lf_rt l) (lf_swarm_task l)); [exact Hr | done]. }
    assert (storage_refs l = 0%nat → storage_refs (set_rt r l) = 0%nat) as Hle.
    { rewrite !storage_refs_spec. cbn. rewrite Hoff, andb_false_r. naive_solver. }
    destruct (release_storage_inv (set_rt r l) Hd) as (C1 & C2 & C3 & C4 & C5 & C6 & C7 & C8 & C9).
    { cbn. rewrite Hsame, Hg, Hgr. destruct (bool_decide_reflect (storage_refs l = 0%nat));
        [right; by auto | by left]. }
    cbn in C2, C3, C4, C5, C6, C7, C8, C9. split_and!; [split|..]; rewrite ?C1, ?C2, ?C3, ?C4, ?C5; try done.
    intros _ _. by rewrite C7.
  - destruct Hinv as [Hd Hgc Hgr Hsw Hsr].
    assert (storage_refs (set_rt r l) = storage_refs l) as Hre by (unfold storage_refs; cbn; by rewrite Hs).
    split_and!; [split|..]; rewrite ?Hre; cbn; rewrite ?Hs, ?Hg; try done.
    intros _. destruct feature_async_global eqn:Ha; cbn; [|by rewrite andb_true_r].
    case_bool_decide; cbn; [|by rewrite andb_true_r]. rewrite andb_false_r. by apply Hsr.
Qed.

Lemma life_step_dead e l l' : life_step e l l' → lf_clones l = 0%nat → lf_clones l' = 0%nat.
Proof.
  destruct 1; intros Hz; try lia; [|done]. unfold release_storage.
  destruct (lf_gc _); [|done]. by case_bool_decide.
Qed.

Lemma life_run_dead es l l' : life_run l es l' → lf_clones l = 0%nat → lf_clones l' = 0%nat.
Proof. induction 1; eauto using life_step_dead. Qed.

Lemma life_run_inv es l l' :
  life_run l es l' → life_inv l →
  life_inv l' ∧ lf_bitswap l' = lf_bitswap l ∧
  (SwarmEnded ∉ es →
   running (lf_rt l') (lf_swarm_task l') =
     running (lf_rt l) (lf_swarm_task l) &&
     negb (feature_async_global && bool_decide (lf_clones l' = 0%nat))).
Proof.
  induction 1 as [l|e es l1 l2 l3 Hstep Hrun IH]; intros Hinv.
  - split_and!; [done..|]. intros _. destruct feature_async_global eqn:Ha; cbn;
      [|by rewrite andb_true_r]. case_bool_decide; cbn; [|by rewrite andb_true_r].
    rewrite andb_false_r. by apply (li_swarm_running _ Hinv).
  - destruct (life_step_inv _ _ _ Hstep Hinv) as (Hi & Hb & Hr).
    destruct (IH Hi) as (Hi3 & Hb3 & Hr3). split_and!; [done|congruence|].
    intros [He Hes]%not_elem_of_cons. rewrite Hr3, Hr, <- andb_assoc by auto. f_equal.
    pose proof (life_run_dead _ _ _ Hrun). destruct feature_async_global; cbn; [|done].
    do 2 case_bool_decide; naive_solver.
Qed.
End life.

(** ** Starting a node *)
Section start.
Context `{L : Libp2p, I : Ipld, B : !BlockStore, H : !StoreHost, N : !Protocols,
          CE : !Channels Event, CG : !Channels GossipEvent, CS : !Channels SyncEvent,
          CL : !Channels ListenerEvent, W : !SwarmOps, CC : !Bounded NetworkCommand,
          S : !Setup, T : !Transports, FT : Features, RT : Runtime}.

(** What the rest of the process looks like when a node is started: metrics, channels,
    files and tasks. *)
Record Host : Type := MkHost {
  h_queries : gmap string Z;
  h_world : World;
  h_gossip : chan_state GossipEvent;
  h_sync : chan_state SyncEvent;
  h_listen : chan_state ListenerEvent;
  h_fs : FsState;
  h_rt : rt_state;
}.

Definition set_host (fs : FsState) (r : rt_state) (h : Host) : Host :=
  MkHost (h_queries h) (h_world h) (h_gossip h) (h_sync h) (h_listen h) fs r.

(** Errors of [Ipfs::new], [anyhow::Error]. *)
Inductive StartError : Type :=
| StorageFailed (e : StoreError)
| NetworkFailed (e : SetupError).

(** A started node: the handle, the variables of its swarm task, its tasks. *)
Record Started : Type := MkStarted {
  st_ipfs : Ipfs;
  st_service : NetworkService;
  st_task : Task;
  st_life : Life;
}.

(** [StorageService::open] with the spawned collector. *)
Definition open_storage (config : StorageConfig) (executor : Executor) (h : Host)
    : result (StorageService * JoinHandle) StoreError * Host :=
  match open_service (h_queries h) config (h_fs h) with
  | (Err e, fs) => (Err e, set_host fs (h_rt h) h)
  | (Ok sv, fs) =>
      let '(gc_task, r) := spawn executor (h_rt h) in (Ok (sv, gc_task), set_host fs r h)
  end.

(** [Ipfs::new0].  When the network fails to start, the storage is dropped. *)
Definition Ipfs_new0 (config : IpfsConfig) (executor : Executor) (h : Host)
    : outcome (result Started StartError * Host) :=
  match open_storage (cfg_storage config) executor h with
  | (Err e, h) => Done (Err (StorageFailed e), h)
  | (Ok (storage, gc), h) =>
      '(network, r) ← NetworkService_new (cfg_network config) executor (h_world h) (h_gossip h)
        (h_sync h) (h_listen h) (h_rt h);
      match network with
      | Err e => Done (Err (NetworkFailed e), set_host (h_fs h) (abort gc r) h)
      | Ok (ns, t) =>
          (* a handle fresh from [spawn] names its task *)
          sw ← unwrap (handle_task (ns_swarm_task ns));
          g ← unwrap (handle_task gc);
          let l := MkLife r 1 (Some (ns_swarm_task ns)) (Some gc) sw g
                     (bool_decide (is_Some (nc_bitswap (cfg_network config)))) in
          Done (Ok (MkStarted (MkIpfs storage (ns_client ns)) ns t l), set_host (h_fs h) r h)
      end
  end.

(** [Ipfs::new]. *)
Definition Ipfs_new (config : IpfsConfig) (h : Host) : outcome (result Started StartError * Host) :=
  Ipfs_new0 config Executor_new h.

(** [local_public_key], [local_peer_id], [local_node_name]. *)
Definition ipfs_local_public_key (s : Started) : PublicKey := svc_local_public_key (st_service s).
Definition ipfs_local_peer_id (s : Started) : PeerId := svc_local_peer_id (st_service s).
Definition ipfs_local_node_name (s : Started) : string := svc_local_node_name (st_service s).

Lemma spawn_handle_of r h r' :
  spawn Executor_new r = (h, r') →
  ∃ t, h = handle_of t ∧ running r t = false ∧ ¬ spawned r t ∧
    (∀ u, running r' u = true ↔ u = t ∨ running r u = true) ∧ spawned r' t.
Proof.
  intros E. pose proof (spawn_spec Executor_new r) as Hs. rewrite E in Hs.
  destruct Hs as (t & Ht & Hf & Hr & Hsp). exists t.
  split_and!; [|apply not_true_is_false; by intros ?%running_spawned|done..|apply Hsp; by left].
  unfold Executor_new, handle_of in *. destruct feature_async_global; cbn in E.
  - destruct (ag_spawn r). simplify_eq/=. done.
  - destruct (tk_spawn r). simplify_eq/=. done.
Qed.

(** [Ipfs::new] inverted, in each of its three outcomes. *)
Lemma Ipfs_new_Ok config h st h' :
  Ipfs_new config h = Done (Ok st, h') →
  life_inv (st_life st) ∧ lf_clones (st_life st) = 1%nat ∧
  lf_bitswap (st_life st) = bool_decide (is_Some (nc_bitswap (cfg_network config))) ∧
  running (lf_rt (st_life st)) (lf_swarm_task (st_life st)) = true ∧
  (∀ u, running (lf_rt (st_life st)) u = true ↔
        u = lf_swarm_task (st_life st) ∨ u = lf_gc_task (st_life st) ∨
        running (h_rt h) u = true) ∧
  lf_rt (st_life st) = h_rt h' ∧
  open_service (h_queries h) (cfg_storage config) (h_fs h) = (Ok (storage (st_ipfs st)), h_fs h') ∧
  network (st_ipfs st) = ns_client (st_service st) ∧
  (running (h_rt h) (lf_swarm_task (st_life st)) = false ∧
   running (h_rt h) (lf_gc_task (st_life st)) = false) ∧
  ∃ r, NetworkService_new (cfg_network config) Executor_new (h_world h) (h_gossip h) (h_sync h)
         (h_listen h) r = Done (Ok (st_service st, st_task st), h_rt h').
Proof.
  unfold Ipfs_new, Ipfs_new0, open_storage.
  destruct (open_service _ _ _) as [[sv|e] fs] eqn:Eo; [|done].
  destruct (spawn Executor_new (h_rt h)) as [gc r1] eqn:Eg. cbn [set_host h_world h_gossip h_sync h_listen h_fs h_rt h_queries].
  destruct (NetworkService_new _ _ _ _ _ _ _) as [[[[ns t]|e] r2]|] eqn:En; [|done..]. cbn.
  destruct (spawn_handle_of _ _ _ Eg) as (g & -> & Hg1 & _ & Hg2 & Hg3).
  pose proof En as En'.
  apply NetworkService_new_Ok in En' as (_ & _ & _ & _ & _ & _ & _ & Es & _).
  destruct (spawn_handle_of _ _ _ Es) as (sw & Hsw & Hs0 & Hs1 & Hs2 & _). rewrite Hsw.
  assert (handle_task (handle_of sw) = Some sw) as -> by (unfold handle_of; by destruct feature_async_global).
  assert (handle_task (handle_of g) = Some g) as -> by (unfold handle_of; by destruct feature_async_global).
  cbn. intros [= <- <-]. cbn. assert (sw ≠ g) as Hne by (intros ->; done).
  assert (running r2 sw = true) as Hrs by (apply Hs2; by left).
  assert (running r2 g = true) as Hrg by (apply Hs2; right; apply Hg2; by left).
  split_and!; try done; [intros u; by rewrite Hs2, Hg2 | | by exists r1].
  apply not_true_is_false. intros Hx. apply not_true_iff_false in Hs0. apply Hs0, Hg2. by right.
Qed.

Lemma Ipfs_new_Err config h e h' u :
  Ipfs_new config h = Done (Err e, h') → running (h_rt h') u = running (h_rt h) u.
Proof.
  unfold Ipfs_new, Ipfs_new0, open_storage.
  destruct (open_service _ _ _) as [[sv|e'] fs]; [|by intros [= _ <-]].
  destruct (spawn Executor_new (h_rt h)) as [gc r1] eqn:Eg. cbn [set_host h_world h_gossip h_sync h_listen h_fs h_rt h_queries].
  destruct (NetworkService_new _ _ _ _ _ _ _) as [[[[ns t]|e'] r2]|] eqn:En; [| |done]; cbn.
  { by destruct (handle_task (ns_swarm_task ns)), (handle_task gc). }
  apply NetworkService_new_Err in En as [-> _]. intros [= _ <-]. cbn.
  destruct (spawn_handle_of _ _ _ Eg) as (g & -> & Hg1 & _ & Hg2 & _).
  apply eq_bool_prop_intro. rewrite !Is_true_true, abort_handle_of, Hg2.
  split; [naive_solver|]. intros Hu. split; [by right|]. intros ->. congruence.
Qed.

Lemma Ipfs_new_Panicked config h :
  Ipfs_new config h = Panicked → into_authentic (nc_node_key (cfg_network config)) = None.
Proof.
  intros E.
  unfold Ipfs_new, Ipfs_new0, open_storage in E.
  destruct (open_service _ _ _) as [[sv|e'] fs]; [|done].
  destruct (spawn Executor_new (h_rt h)) as [gc r1] eqn:Eg.
  cbn [set_host h_world h_gossip h_sync h_listen h_fs h_rt h_queries] in E.
  destruct (NetworkService_new _ _ _ _ _ _ _) as [[[[ns t]|e'] r2]|] eqn:En;
    [|done|by apply NetworkService_new_Panicked in En]. exfalso. cbn in E.
  destruct (spawn_handle_of _ _ _ Eg) as (g & -> & _).
  apply NetworkService_new_Ok in En as (_ & _ & _ & _ & _ & _ & _ & Es & _).
  destruct (spawn_handle_of _ _ _ Es) as (sw & Hsw & _). rewrite Hsw in E.
  unfold handle_of in E. by destruct feature_async_global.
Qed.
End start.

(** C18: [Ipfs::new] either starts a node or leaves no trace among the tasks of the
    process.  On success the storage is the one opened from the storage configuration,
    the two background tasks run - the swarm task and the collector, nothing else was
    added - and the one handle knows both; on any error, also when only the network fails
    after the collector was spawned, exactly the tasks that ran before run now.  It panics
    only when the node key cannot sign. *)
Theorem Ipfs_new_spec `{L : Libp2p, I : Ipld, B : !BlockStore, H : !StoreHost, N : !Protocols,
    CE : !Channels Event, CG : !Channels GossipEvent, CS : !Channels SyncEvent,
    CL : !Channels ListenerEvent, W : !SwarmOps, CC : !Bounded NetworkCommand,
    S : !Setup, T : !Transports, FT : Features, RT : Runtime} config h :
  match Ipfs_new config h with
  | Panicked => into_authentic (nc_node_key (cfg_network config)) = None
  | Done (Err _, h') => ∀ u, running (h_rt h') u = running (h_rt h) u
  | Done (Ok st, h') =>
      open_service (h_queries h) (cfg_storage config) (h_fs h) =
        (Ok (storage (st_ipfs st)), h_fs h') ∧
      ipfs_local_peer_id st = to_peer_id (public (nc_node_key (cfg_network config))) ∧
      local_peer_id (book (peers_st (net (st_task st)))) = ipfs_local_peer_id st ∧
      lf_swarm_task (st_life st) ≠ lf_gc_task (st_life st) ∧
      lf_clones (st_life st) = 1%nat ∧
      ∀ u, running (h_rt h') u = true ↔
           u = lf_swarm_task (st_life st) ∨ u = lf_gc_task (st_life st) ∨
           running (h_rt h) u = true
  end.
Proof.
  destruct (Ipfs_new config h) as [[[st|e] h']|] eqn:E.
  - apply Ipfs_new_Ok in E as (Hi & Hc & _ & _ & Hr & Hrt & Ho & _ & _ & r & Hn).
    apply NetworkService_new_Ok in Hn as (bh & ? & ? & Hb & _ & _ & Ht & _ & Hns).
    apply Behaviour_new_Ok in Hb as (Hp & _).
    unfold ipfs_local_peer_id, svc_local_peer_id. rewrite <- Hrt, Hns, Ht. cbn. rewrite Hp.
    split_and!; [done..| |done|exact Hr]. apply Hi.
  - intros u. by eapply Ipfs_new_Err.
  - by apply Ipfs_new_Panicked in E.
Qed.

(** C17: who stops the background tasks.  While a clone of the node exists the collector
    runs, and after the last clone is dropped it runs exactly as long as the swarm task
    does (if bitswap is configured, otherwise it stops at once).  The swarm task never
    sees the end of its command channel, for it holds a sender itself; if it does not end
    by itself it stops with the last clone when the runtime is [async-global-executor] -
    so both tasks stop - and never stops when it is tokio: then both tasks are leaked. *)
Theorem node_shutdown `{L : Libp2p, I : Ipld, B : !BlockStore, H : !StoreHost, N : !Protocols,
    CE : !Channels Event, CG : !Channels GossipEvent, CS : !Channels SyncEvent,
    CL : !Channels ListenerEvent, W : !SwarmOps, CC : !Bounded NetworkCommand,
    S : !Setup, T : !Transports, FT : Features, RT : Runtime} config h st h' es l :
  Ipfs_new config h = Done (Ok st, h') → life_run (st_life st) es l →
  let swarm_runs := running (lf_rt l) (lf_swarm_task l) in
  let bitswap := bool_decide (is_Some (nc_bitswap (cfg_network config))) in
  running (lf_rt l) (lf_gc_task l) =
    negb (bool_decide (lf_clones l = 0%nat)) || (bitswap && swarm_runs) ∧
  (swarm_runs = true → command_senders l ≠ 0%nat) ∧
  (feature_async_global = true → lf_clones l = 0%nat →
   swarm_runs = false ∧ running (lf_rt l) (lf_gc_task l) = false) ∧
  (SwarmEnded ∉ es → feature_async_global = false ∨ lf_clones l ≠ 0%nat → swarm_runs = true).
Proof.
  intros Hn Hrun. apply Ipfs_new_Ok in Hn as (Hi & _ & Hb & Hs & _).
  destruct (life_run_inv _ _ _ Hrun Hi) as ([Hd Hg Hgr Hsw Hsr] & Hb' & Hr).
  assert (running (lf_rt l) (lf_gc_task l) =
    negb (bool_decide (lf_clones l = 0%nat)) ||
    (bool_decide (is_Some (nc_bitswap (cfg_network config))) &&
     running (lf_rt l) (lf_swarm_task l))) as Hgc.
  { rewrite Hgr, <- Hb, <- Hb', (bool_decide_ext _ _ (storage_refs_spec l)).
    destruct (bool_decide_reflect (lf_clones l = 0%nat)) as [Hz|Hz]; cbn.
    - destruct (lf_bitswap l && running (lf_rt l) (lf_swarm_task l)); [|by rewrite bool_decide_true].
      rewrite bool_decide_false; [done|]. by intros [_ ?].
    - rewrite bool_decide_false; [done|]. by intros [? _]. }
  cbv zeta. split_and!; [done| | |].
  - intros Hru. unfold command_senders. rewrite Hru. lia.
  - intros Ha Hz. rewrite Hgc, Hsr, andb_false_r, orb_false_r, Hz by done. done.
  - intros He Hor. rewrite (Hr He), Hs. cbn. apply negb_true_iff.
    destruct Hor as [->|Hz]; [done|]. by rewrite (bool_decide_false _ Hz), andb_false_r.
Qed.

(** ** A concrete node on tokio, started and dropped *)

(** No files exist; every store opens empty. *)
#[export] Instance toy_host : StoreHost (B := mem_store) := {|
  FsState := ();
  is_file := λ _ _, false;
  create_dir_all := λ _ fs, (Ok (), fs);
  path_join := λ p q, p +:+ "/" +:+ q;
  CacheTracker := ();
  sqlite_tracker := λ _ fs, (Ok (), fs);
  in_mem_tracker := ();
  store_open := λ _ sizes _ fs, (Ok (m_empty (Z.to_nat sizes.1) : Store), fs);
  store_memory := λ sizes _, Ok (m_empty (Z.to_nat sizes.1) : Store);
  additional_connection := λ _, Ok ();
|}.

Definition host0 : Host (H := toy_host) (CG := queues _) (CS := queues _) (CL := queues _)
    (CE := queues _) (RT := toy_runtime) :=
  MkHost ∅ world0 (∅ : chan_state GossipEvent (Channels := queues _))
    (∅ : chan_state SyncEvent (Channels := queues _)) listen0 (() : FsState) rt0.

Definition node_config0 : IpfsConfig (S := toy_setup) :=
  MkIpfsConfig toy_setup (StorageConfig_new (Some "data") None 0 0) config0.

Definition node0 := Ipfs_new (FT := tokio_only) (CC := toy_bounded _) (T := toy_transports)
  node_config0 host0.

Lemma node0_started : started node0 = true.
Proof. vm_compute. reflexivity. Qed.

(** A configuration with a refused resolver: the storage opens, the network does not. *)
Definition bad_config0 : IpfsConfig (S := toy_setup) :=
  MkIpfsConfig toy_setup (StorageConfig_new (Some "data") None 0 0)
    (with_dns (Some (Custom ("bad" : ResolverConfig) (() : ResolverOpts))) config0).

Definition bad_node0 := Ipfs_new (FT := tokio_only) (CC := toy_bounded _) (T := toy_transports)
  bad_config0 host0.

Definition refused {A B C} (o : outcome (result A B * C)) : bool :=
  match o with Done (Err _, _) => true | _ => false end.

Lemma bad_node0_refused : refused bad_node0 = true.
Proof. vm_compute. reflexivity. Qed.

Lemma Ipfs_new_spec_witness :
  ∃ e h', bad_node0 = Done (Err e, h') ∧ ∀ u, running (h_rt h') u = running rt0 u.
Proof.
  pose proof (Ipfs_new_spec (FT := tokio_only) (CC := toy_bounded _) (T := toy_transports)
    bad_config0 host0) as H.
  change (Ipfs_new _ _) with bad_node0 in H. pose proof bad_node0_refused as Hst.
  destruct bad_node0 as [[[st|e] h']|]; [discriminate| |discriminate].
  exists e, h'. by split.
Defined.

Lemma node_shutdown_witness :
  ∃ st h', node0 = Done (Ok st, h') ∧
    let l := drop_node (FT := tokio_only) (st_life st) in
    lf_clones l = 0%nat ∧ running (lf_rt l) (lf_swarm_task l) = true ∧
    running (lf_rt l) (lf_gc_task l) = true.
Proof.
  pose proof node0_started as Hst.
  destruct node0 as [[[st|e] h']|] eqn:E; [|discriminate..].
  destruct (Ipfs_new_Ok (FT := tokio_only) (CC := toy_bounded _) (T := toy_transports)
    node_config0 host0 st h' E) as (Hi & Hc & _).
  assert (0 < lf_clones (st_life st))%nat as Hpos by (rewrite Hc; lia).
  destruct (drop_node_inv (FT := tokio_only) (st_life st) Hi Hpos) as (_ & Hz & _).
  rewrite Hc in Hz.
  destruct (node_shutdown (FT := tokio_only) (CC := toy_bounded _) (T := toy_transports)
    node_config0 host0 st h' [Dropped] (drop_node (FT := tokio_only) (st_life st)) E)
    as (Hg & _ & _ & Hs).
  - eapply life_cons; [by apply life_drop | apply life_nil].
  - assert (running (lf_rt (drop_node (FT := tokio_only) (st_life st)))
      (lf_swarm_task (drop_node (FT := tokio_only) (st_life st))) = true) as Hr.
    { apply Hs; [|by left]. intros [[=]|?%not_elem_of_nil]%elem_of_cons; done. }
    exists st, h'. split; [done|]. split_and!; [exact Hz|exact Hr|].
    rewrite Hg, Hr. by rewrite orb_true_r.
Defined.
