(* ===== verification/GcTest.v ===== *)
(** * [tests/gc.rs]: the test of the collector

    [DagBuilder] grows a graph of blocks from random numbers: each new block refers to
    some of the current heads, and some of these stop being heads.  Every head has an
    alias; after each change the store is flushed and evicted, and the blocks under the
    heads are read back.  In the end no head is left and the store must be empty.

    Proved: on every block store with the documented behaviour and without room for
    unpinned blocks, for every choice of random numbers and every order in which hash
    sets are iterated, the test passes - the collector keeps exactly what can be reached
    from an alias - and all its loops end. *)

From S2P Require Import Prelude Libp2p Duration Testing Ipld Db DbSpec StorageTests Lifecycle.

Open Scope Z_scope.

(** ** The program *)

(** The derived encoding of [Node] in [tests/gc.rs]: the block of a nonce and children,
    and the links that [references] finds in a block. *)
Class NodeCodec `{I : Ipld} := {
  encode_node : Z → list Cid → option Block;
  references : Cid → Bytes → option (list Cid);
  cid_bytes : Cid → Bytes;
}.

Section gc.
Context `{I : Ipld, B : !BlockStore, C : !NodeCodec, HO : HashOrder}.
Local Open Scope test_scope.

(** The node, of which only the storage is used, and the heads. *)
Record DagBuilder : Type := MkBuilder { ipfs : StorageService; heads : gset Cid }.

Definition on_ipfs {A} (m : test StorageService A) : test DagBuilder A := λ b,
  let '(r, sv) := m (ipfs b) in (r, MkBuilder sv (heads b)).
Definition get_heads : test DagBuilder (gset Cid) := λ b, (Ok (heads b), b).
Definition set_heads (f : gset Cid → gset Cid) : test DagBuilder () := λ b,
  (Ok (), MkBuilder (ipfs b) (f (heads b))).

(** [Some] of a value, or the [?] of an error. *)
Definition or_error {A} (o : option A) (e : failure) : test DagBuilder A := λ b,
  (match o with Some a => Ok a | None => Err e end, b).

(** [ipfs.alias(cid.to_bytes(), None)?; heads.remove(&cid)]. *)
Definition drop_head (c : Cid) : test DagBuilder () :=
  on_ipfs (t_alias (cid_bytes c) None) ;; set_heads (.∖ {[ c ]}).

Fixpoint drop_heads (cs : list Cid) : test DagBuilder () :=
  match cs with
  | [] => test_ret ()
  | c :: cs => drop_head c ;; drop_heads cs
  end.

(** How many of [n] heads become children, and how many of those stop being heads, for
    two random numbers. *)
Definition n_children (n : nat) (r1 : Z) : nat :=
  if bool_decide (n = 0%nat) then 0 else Z.to_nat (r1 `mod` Z.of_nat n).
Definition n_children_rm (k : nat) (r2 : Z) : nat :=
  if bool_decide (k = 0%nat) then 0 else Z.to_nat (r2 `mod` Z.of_nat k).

(** [DagBuilder::add_head], with the numbers it draws. *)
Definition add_head (draw : Z * Z * Z) : test DagBuilder () :=
  let '(r1, r2, nonce) := draw in
  hs <- get_heads;
  let k := n_children (size hs) r1 in
  let children := take k (hs_iter hs) in
  block <- or_error (encode_node nonce children) Unwrapped;
  on_ipfs (t_alias (cid_bytes (block_cid block)) (Some (block_cid block))) ;;
  on_ipfs (t_insert block) ;;
  drop_heads (take (n_children_rm k r2) children) ;;
  set_heads (λ hs, {[ block_cid block ]} ∪ hs).

(** [DagBuilder::remove_head]. *)
Definition remove_head : test DagBuilder () :=
  hs <- get_heads;
  match hs_iter hs with
  | c :: _ => drop_head c
  | [] => test_ret ()
  end.

(** [Ipfs::evict]; an eviction that does not end fails the test. *)
Definition b_evict (fuel : nat) : test StorageService () := λ sv,
  match evict fuel alone true sv with
  | Some (r, sv) => (match r with Ok a => Ok a | Err _ => Err Unwrapped end, sv)
  | None => (Err Asserted, sv)
  end.

(** The loop of [check]: read everything that can be reached from [stack].  A walk that
    does not end fails the test. *)
Fixpoint walk (fuel : nat) (stack live : gset Cid) : test DagBuilder () :=
  match fuel with
  | O => asserts false
  | S fuel =>
      match hs_iter stack with
      | [] => test_ret ()
      | c :: _ =>
          let stack := stack ∖ {[ c ]} in
          if bool_decide (c ∈ live) then walk fuel stack live
          else
            o <- on_ipfs (unwrapped (get c));
            d <- or_error o NotFound;
            refs <- or_error (references c d) Unwrapped;
            walk fuel (list_to_set refs ∪ stack) ({[ c ]} ∪ live)
      end
  end.

(** [DagBuilder::check]. *)
Definition check (fuel : nat) : test DagBuilder () :=
  on_ipfs t_flush ;;
  on_ipfs (b_evict fuel) ;;
  hs <- get_heads;
  walk fuel hs ∅.

Fixpoint add_heads (draws : list (Z * Z * Z)) : test DagBuilder () :=
  match draws with
  | [] => test_ret ()
  | draw :: draws => add_head draw ;; add_heads draws
  end.

Fixpoint remove_heads (fuel n : nat) : test DagBuilder () :=
  match n with
  | O => test_ret ()
  | S n => remove_head ;; check fuel ;; remove_heads fuel n
  end.

(** The test [gc], which makes a hundred heads. *)
Definition gc (fuel : nat) (draws : list (Z * Z * Z)) : test DagBuilder () :=
  add_heads draws ;;
  check fuel ;;
  hs <- get_heads;
  remove_heads fuel (size hs) ;;
  cids <- on_ipfs (unwrapped iter);
  asserts (bool_decide (cids = [])).

(** [DagBuilder::new]. *)
Definition gc_config (tmp : string) : StorageConfig :=
  StorageConfig_new (Some tmp) None 0 (1000 * NANOS_PER_SEC).
Definition DagBuilder_new `{H : !StoreHost} (tmp : string) (queries : gmap string Z) (fs : FsState)
    : result DagBuilder StoreError * FsState :=
  let '(r, fs) := open_service queries (gc_config tmp) fs in
  (match r with Ok sv => Ok (MkBuilder sv ∅) | Err e => Err e end, fs).
End gc.

(** ** Block stores without room *)

(** A call that makes a temporary pin. *)
Definition pins `{B : BlockStore, BL : !BlockStoreLaws} (c : call) : bool :=
  match c with CCreateTempPin | CTempPin _ _ => true | _ => false end.

(** Stores that were opened with a cache size of zero blocks and on which no temporary
    pin was made - no operation of the crate but [extend_temp_pin] makes one, and none
    changes the cache size: such a store is within its limits only when empty, and pinned
    is only what can be reached from an alias. *)
Class NoRoom `{B : BlockStore, BL : !BlockStoreLaws} := {
  roomless : Store → Prop;
  (** the same of the store a transaction is on *)
  roomless_txn : Transaction → Prop;
  roomless_transaction s : roomless s → roomless_txn (transaction s);
  roomless_commit t s : roomless_txn t → roomless (commit t s).2;
  roomless_drop t s : roomless_txn t → roomless (drop_txn t s);
  roomless_cids t : roomless_txn t → roomless_txn (get_block_cids t).2;
  roomless_has c t : roomless_txn t → roomless_txn (has_block c t).2;
  roomless_get c t : roomless_txn t → roomless_txn (get_block c t).2;
  roomless_put b t : roomless_txn t → roomless_txn (put_block b t).2;
  roomless_resolve a t : roomless_txn t → roomless_txn (txn_resolve a t).2;
  roomless_alias a c t : roomless_txn t → roomless_txn (txn_alias a c t).2;
  roomless_aliases t : roomless_txn t → roomless_txn (txn_aliases t).2;
  roomless_reverse c t : roomless_txn t → roomless_txn (txn_reverse_alias c t).2;
  roomless_missing c t : roomless_txn t → roomless_txn (get_missing_blocks c t).2;
  roomless_flush s : roomless s → roomless (store_flush s).2;
  roomless_gc n d s : roomless s → roomless (incremental_gc n d s).2;
  roomless_within s : roomless s → within_limits s → v_blocks (view s) = ∅;
  roomless_pinned s c :
    roomless s → pinned s c → is_Some (v_blocks (view s) !! c) →
    ∃ a root, v_aliases (view s) !! a = Some root ∧ reach links (view s) root c;
  roomless_count s : roomless s → block_count s = size (v_blocks (view s));
}.

(** What the encoding promises: the links of a block are its children, content ids
    identify their bytes, and no block contains its own content id. *)
Class NodeCodecLaws `{B : BlockStore, BL : !BlockStoreLaws, C : !NodeCodec} := {
  encode_links n cs b c :
    encode_node n cs = Some b → c ∈ links (block_cid b) (block_data b) ↔ c ∈ cs;
  encode_references n cs b :
    encode_node n cs = Some b → ∃ l, references (block_cid b) (block_data b) = Some l ∧
      ∀ c, c ∈ l ↔ c ∈ cs;
  encode_unique n1 cs1 b1 n2 cs2 b2 :
    encode_node n1 cs1 = Some b1 → encode_node n2 cs2 = Some b2 →
    block_cid b1 = block_cid b2 → block_data b1 = block_data b2;
  encode_acyclic n cs b : encode_node n cs = Some b → block_cid b ∉ cs;
  cid_bytes_inj c1 c2 : cid_bytes c1 = cid_bytes c2 → c1 = c2;
}.

Section proofs.
Context `{I : Ipld, B : !BlockStore, BL : !BlockStoreLaws, NR : !NoRoom, C : !NodeCodec,
          CL : !NodeCodecLaws, HO : HashOrder}.
Implicit Types (v : View) (b : Block) (hs : gset Cid) (sv : StorageService).

(** ** Steps of the storage *)

(** The store has the contents [v], no room, and a collector that makes progress. *)
Definition roomy v sv : Prop :=
  holds v sv ∧ roomless (store sv) ∧ 0 < svc_gc_min_blocks sv.

Lemma exec_min_blocks c sv : svc_gc_min_blocks (exec c sv).2 = svc_gc_min_blocks sv.
Proof.
  assert (∀ R op (f : Batch R) g, svc_gc_min_blocks (answer g (rw op f sv)).2 = svc_gc_min_blocks sv)
    as Hrw.
  { intros R op f g. destruct (rw op f sv) as [r sv'] eqn:Hr. apply rw_inv in Hr as [[? _] _]. done. }
  destruct c; try apply Hrw; cbn [exec].
  - unfold temp_pin. destruct (batch_temp_pin _ _ _) as [[r p'] t].
    destruct (rw _ _ sv) as [r' sv'] eqn:Hr. apply rw_inv in Hr as [[? _] _]. done.
  - unfold flush, observe_future, answer. cbn. by destruct (store_flush _).
Qed.

Lemma roomless_rw {R} op (f : Batch R) sv :
  (∀ t, roomless_txn t → roomless_txn (f t).2) → roomless (store sv) → roomless (store (rw op f sv).2).
Proof.
  intros Hf Hr. specialize (Hf _ (roomless_transaction _ Hr)). unfold rw. cbn [count_query store].
  destruct (f (transaction (store sv))) as [[x|e] t]; cbn in *; [|by apply roomless_drop].
  pose proof (roomless_commit t (store sv) Hf) as Hc. by destruct (commit t (store sv)) as [[]].
Qed.

Lemma roomless_call c sv : pins c = false → roomless (store sv) → roomless (store (exec c sv).2).
Proof.
  intros Hp Hr. destruct c; try done; cbn [exec]; unfold answer; cbn [snd];
    try (apply roomless_rw; [|done]; intros t Ht;
         auto using roomless_cids, roomless_has, roomless_get, roomless_put, roomless_resolve,
           roomless_alias, roomless_aliases, roomless_reverse, roomless_missing).
  unfold flush, observe_future. cbn. pose proof (roomless_flush _ Hr) as Hf.
  by destruct (store_flush (store sv)).
Qed.

(** A call with exactly known contents; cf. [unwrapped_call]. *)
Lemma call_step {R} (f : StorageService → result R StoreError * StorageService)
    (g : R → reply) c v (Q : R → StorageService → Prop) :
  (∀ sv, exec c sv = answer g (f sv)) → pins c = false →
  (∀ x v' sv', spec v c (g x) v' → roomy v' sv' → Q x sv') →
  passes (roomy v) (unwrapped f) Q.
Proof.
  intros He Hp HQ sv (Hv & Hr & Hn). pose proof (exec_refines c sv) as H.
  pose proof (roomless_call c sv Hp Hr) as Hr'. pose proof (exec_min_blocks c sv) as Hn'.
  rewrite He in H, Hr', Hn'. unfold unwrapped. unfold refines, answer in *.
  destruct (f sv) as [[x|e] sv']; [|done]. cbn in *. rewrite Hv in H.
  eapply HQ; [exact H|]. split_and!; [done..|]. by rewrite Hn'.
Qed.

Lemma t_alias_step v a c : passes (roomy v) (t_alias a c) (λ _, roomy (with_alias a c v)).
Proof.
  apply (call_step _ (λ _, RUnit) (CAlias a c)); [done|done|]. intros [] v' sv' Hs. by inversion Hs.
Qed.

Lemma t_flush_step v : passes (roomy v) t_flush (λ _, roomy v).
Proof.
  apply (call_step _ (λ _, RUnit) (CFlush true)); [done|done|]. intros [] v' sv' Hs. by inversion Hs.
Qed.

Lemma t_get_step v c : passes (roomy v) (unwrapped (get c)) (λ o sv, o = v_blocks v !! c ∧ roomy v sv).
Proof.
  apply (call_step _ RData (CGet c)); [done|done|]. intros o v' sv' Hs Hr. by inversion Hs; subst.
Qed.

Lemma t_iter_step v :
  passes (roomy v) (unwrapped iter)
    (λ l sv, (∀ c, c ∈ l ↔ is_Some (v_blocks v !! c)) ∧ roomy v sv).
Proof.
  apply (call_step _ RCids CIter); [done|done|]. intros o v' sv' Hs Hr. by inversion Hs; subst.
Qed.

(** A block may be stored already. *)
Lemma t_insert_step v b :
  (∀ d, v_blocks v !! block_cid b = Some d → d = block_data b) →
  passes (roomy v) (t_insert b) (λ _, roomy (with_block b v)).
Proof.
  intros Hd. apply (call_step _ (λ _, RUnit) (CInsert b)); [done|done|]. intros [] v' sv' Hs Hv.
  inversion Hs as [| | | | |? ? d [->|Hn]| | | | | | |]; subst; [done|].
  unfold with_block. by rewrite <- (Hd d Hn).
Qed.

(** ** Eviction *)

(** Exactly what can be reached from an alias is left. *)
Definition evicted v v' : Prop :=
  v_aliases v' = v_aliases v ∧ v_blocks v' ⊆ v_blocks v ∧
  (∀ a root c, v_aliases v !! a = Some root → reach links v root c →
     v_blocks v' !! c = v_blocks v !! c) ∧
  (∀ c, is_Some (v_blocks v' !! c) →
     ∃ a root, v_aliases v' !! a = Some root ∧ reach links v' root c).

(** The store stays without room, and the settings stay. *)
Definition stays sv sv' : Prop :=
  (roomless (store sv) → roomless (store sv')) ∧ svc_gc_min_blocks sv' = svc_gc_min_blocks sv.

#[local] Instance stays_preorder : PreOrder stays.
Proof. split; [by split|]. intros s1 s2 s3 [H1 E1] [H2 E2]. split; [auto|congruence]. Qed.

Lemma evict_loop_stays fuel sv r sv' :
  evict_loop fuel alone sv = Some (r, sv') → stays sv sv'.
Proof.
  apply (evict_loop_inv stays); [|by intros]. intros sv1. unfold evict_round.
  pose proof (roomless_gc (svc_gc_min_blocks sv1) (svc_gc_target_duration sv1) (store sv1)) as Hg.
  by destruct (incremental_gc _ _ (store sv1)).
Qed.

Lemma b_evict_step fuel v :
  (size (v_blocks v) < fuel)%nat →
  passes (roomy v) (b_evict fuel) (λ _ sv, ∃ v', evicted v v' ∧ roomy v' sv).
Proof.
  intros Hf sv (Hv & Hr & Hn). unfold b_evict, evict. unfold holds, sview in Hv.
  destruct (evict_loop_enough fuel alone sv Hn) as [[r sv'] He]; [done| |].
  { by rewrite roomless_count, Hv. }
  pose proof (evict_loop_collected _ _ _ _ He) as (Ha & Hp & Hs).
  destruct (evict_loop_stays _ _ _ _ He) as [Hr' Hn']. specialize (Hr' Hr).
  rewrite He. cbn. destruct r as [u|e]; [|done]. exists (sview sv').
  split; [|split_and!; [done|done|congruence]].
  rewrite Hv in *. split_and!; [done| | |].
  - apply map_subseteq_spec. exact Hs.
  - intros a root c Hc Hreach. apply Hp. eapply alias_pinned; by rewrite Hv.
  - intros c Hc. destruct (evict_loop_done _ _ _ _ _ He) as [Hw|Hall].
    + apply (roomless_within _ Hr') in Hw. unfold sview in Hc. rewrite Hw in Hc. by destruct Hc.
    + apply (roomless_pinned _ _ Hr'); auto.
Qed.

(** ** The graph under the heads *)

(** Every head has its alias, nothing else has one, all that can be reached from a head
    is stored, and only encoded nodes are stored. *)
Definition sound v hs : Prop :=
  (∀ a c, v_aliases v !! a = Some c ↔ c ∈ hs ∧ a = cid_bytes c) ∧
  (∀ h c, h ∈ hs → reach links v h c → is_Some (v_blocks v !! c)) ∧
  (∀ c d, v_blocks v !! c = Some d →
     ∃ n cs b, encode_node n cs = Some b ∧ block_cid b = c ∧ block_data b = d).

(** Nothing but the graph under the heads is stored. *)
Definition exact v hs : Prop :=
  ∀ c, is_Some (v_blocks v !! c) → ∃ h, h ∈ hs ∧ reach links v h c.

Lemma reach_subset v v' h c : v_blocks v' ⊆ v_blocks v → reach links v' h c → reach links v h c.
Proof.
  intros Hs. apply rtc_subrel. intros x y (d & Hd & Hl). exists d. split; [|done].
  by eapply lookup_weaken.
Qed.

Lemma sound_evicted v v' hs : sound v hs → evicted v v' → sound v' hs ∧ exact v' hs.
Proof.
  intros (Ha & Hc & He) (Ea & Es & Ep & Ex). split; [split_and!|].
  - intros a c. by rewrite Ea, Ha.
  - intros h c Hh Hr%(reach_subset v); [|done].
    rewrite (Ep (cid_bytes h) h c); [by eapply Hc | by apply Ha | done].
  - intros c d Hd. eapply He, lookup_weaken; done.
  - intros c (a & root & H1 & H2)%Ex. rewrite Ea, Ha in H1. exists root. by destruct H1.
Qed.

Lemma sound_drop v hs c : sound v hs → sound (with_alias (cid_bytes c) None v) (hs ∖ {[ c ]}).
Proof.
  intros (Ha & Hc & He). split_and!; cbn; [|intros h x [Hh _]%elem_of_difference; by apply Hc|done].
  intros a x. rewrite lookup_partial_alter. case_decide as Hd.
  - split; [done|]. intros [[_ Hx]%elem_of_difference ->]. apply cid_bytes_inj in Hd. set_solver.
  - rewrite Ha, elem_of_difference, elem_of_singleton. naive_solver.
Qed.

Lemma sound_insert v hs n cs b :
  sound v hs → encode_node n cs = Some b → (∀ c, c ∈ cs → c ∈ hs) →
  sound (with_block b (with_alias (cid_bytes (block_cid b)) (Some (block_cid b)) v))
    ({[ block_cid b ]} ∪ hs).
Proof.
  intros (Ha & Hc & He) Hb Hcs. set (v' := with_block _ _). split_and!.
  - intros a x. cbn. rewrite lookup_partial_alter, elem_of_union, elem_of_singleton.
    case_decide as Hd; [|rewrite Ha; naive_solver].
    split; [intros [= <-]; by auto|]. intros [[->|Hx] Hx']; [done|].
    f_equal. apply cid_bytes_inj. congruence.
  - set (P c := is_Some (v_blocks v' !! c) ∧ (c = block_cid b ∨ ∃ h, h ∈ hs ∧ reach links v h c)).
    assert (∀ c, (∃ h, h ∈ hs ∧ reach links v h c) → P c) as HP.
    { intros c Hr. split; [|by right]. cbn. rewrite lookup_insert. case_decide; [done|].
      destruct Hr as (h & Hh & Hr). by eapply Hc. }
    assert (∀ x y, P x → edge links v' x y → P y) as Hstep.
    { intros x y [_ Hx] (d & Hd & Hl). cbn in Hd. rewrite lookup_insert in Hd.
      apply HP. case_decide as Heq.
      - subst x. simplify_eq. rewrite (encode_links n cs) in Hl by done.
        exists y. split; [by apply Hcs | apply rtc_refl].
      - destruct Hx as [->|(h & Hh & Hr)]; [done|]. exists h. split; [done|].
        eapply rtc_r; [exact Hr|]. by exists d. }
    intros h c Hh Hr. assert (P h) as Hp.
    { apply elem_of_union in Hh as [->%elem_of_singleton|Hh].
      - split; [|by left]. cbn. by rewrite lookup_insert_eq.
      - apply HP. exists h. split; [done | apply rtc_refl]. }
    clear Hh. induction Hr as [h|h y c Hy _ IH]; [apply Hp | by eapply IH, Hstep].
  - intros c d. cbn. rewrite lookup_insert. case_decide as Heq; [|apply He].
    intros [= <-]. by exists n, cs, b.
Qed.

(** ** Steps of the builder *)

Definition state v hs (bd : DagBuilder) : Prop := roomy v (ipfs bd) ∧ heads bd = hs.

(** The heads are [hs], the graph under them and under [X] is sound, and at most [m]
    blocks are stored. *)
Definition inv (m : nat) (X hs : gset Cid) (bd : DagBuilder) : Prop :=
  ∃ v, state v hs bd ∧ sound v (X ∪ hs) ∧ (size (v_blocks v) ≤ m)%nat.

Lemma on_ipfs_step {A} v hs (m : test StorageService A) Q :
  passes (roomy v) m Q → passes (state v hs) (on_ipfs m) (λ a bd, Q a (ipfs bd) ∧ heads bd = hs).
Proof.
  intros Hm bd [Hv Hh]. unfold on_ipfs. specialize (Hm _ Hv). by destruct (m (ipfs bd)) as [[]].
Qed.

Lemma drop_head_step m X hs c :
  c ∉ X → passes (inv m X hs) (drop_head c) (λ _, inv m X (hs ∖ {[ c ]})).
Proof.
  intros HX bd (v & Hst & Hs & Hm).
  assert (passes (state v hs) (drop_head c)
    (λ _, state (with_alias (cid_bytes c) None v) (hs ∖ {[ c ]}))) as Hp.
  { eapply passes_bind; [apply on_ipfs_step, t_alias_step|]. intros _ bd' [Hr <-]. by split. }
  specialize (Hp bd Hst). destruct (drop_head c bd) as [[]]; [|done].
  exists (with_alias (cid_bytes c) None v). split_and!; [done| |done].
  replace (X ∪ hs ∖ {[c]}) with ((X ∪ hs) ∖ {[c]}) by set_solver. by apply sound_drop.
Qed.

Lemma drop_heads_step m X hs cs :
  (∀ c, c ∈ cs → c ∉ X) →
  passes (inv m X hs) (drop_heads cs) (λ _, inv m X (hs ∖ list_to_set cs)).
Proof.
  revert hs. induction cs as [|c cs IH]; intros hs HX.
  - intros bd. cbn. by replace (hs ∖ ∅) with hs by set_solver.
  - eapply passes_bind; [apply drop_head_step, HX; by left|]. intros u. cbn beta.
    eapply passes_weaken; [apply IH; intros; apply HX; by right|done|]. intros [] bd.
    cbn. by replace (hs ∖ {[c]} ∖ list_to_set cs) with (hs ∖ ({[c]} ∪ list_to_set cs)) by set_solver.
Qed.

Lemma hs_iter_subset hs k c : c ∈ take k (hs_iter hs) → c ∈ hs.
Proof. intros Hc. apply elem_of_hs_iter. by eapply subseteq_take. Qed.

Lemma add_head_step m hs draw :
  passes (inv m ∅ hs) (add_head draw) (λ _ bd, ∃ hs', inv (S m) ∅ hs' bd).
Proof.
  destruct draw as [[r1 r2] nonce]. intros bd (v & Hst & Hs & Hm). rewrite (left_id_L ∅ _) in Hs.
  unfold add_head. unfold test_bind at 1. cbn [get_heads].
  destruct Hst as [Hr Hh]. rewrite Hh. set (k := n_children (size hs) r1).
  set (cs := take k (hs_iter hs)).
  unfold test_bind at 1. unfold or_error at 1. destruct (encode_node nonce cs) as [b|] eqn:Eb; [|done].
  assert (∀ c, c ∈ cs → c ∈ hs) as Hcs by (intros c; apply hs_iter_subset).
  set (v' := with_block b (with_alias (cid_bytes (block_cid b)) (Some (block_cid b)) v)).
  set (X := {[ block_cid b ]} : gset Cid).
  assert (∀ bd', state v' hs bd' → inv (S m) X hs bd') as Hinv.
  { intros bd' Hb. exists v'. split_and!; [done|by eapply sound_insert|]. cbn.
    rewrite map_size_insert. destruct (v_blocks v !! block_cid b); cbn; lia. }
  assert (passes (state v hs)
    (on_ipfs (t_alias (cid_bytes (block_cid b)) (Some (block_cid b))) ;; on_ipfs (t_insert b) ;;
     drop_heads (take (n_children_rm k r2) cs) ;; set_heads (λ hs, {[ block_cid b ]} ∪ hs))%test
    (λ _ bd, ∃ hs', inv (S m) ∅ hs' bd)) as Hp; [|exact (Hp bd (conj Hr Hh))].
  eapply passes_bind; [apply on_ipfs_step, t_alias_step|]. intros u. cbn beta.
  eapply passes_bind; [apply on_ipfs_step, t_insert_step|].
  { cbn. intros d Hd. apply Hs in Hd as (n' & cs' & b' & Hb' & H1 & <-).
    by eapply encode_unique. }
  intros u'. cbn beta.
  eapply passes_bind; [eapply passes_weaken; [apply (drop_heads_step (S m) X)| exact Hinv |done]|].
  { intros c Hc ->%elem_of_singleton. apply (encode_acyclic _ _ _ Eb).
    by eapply subseteq_take. }
  intros u2 bd' (v2 & [Hr2 Hh2] & Hs2 & Hm2). cbn. eexists.
  exists v2. split_and!; [by split| |done]. rewrite (left_id_L ∅ _). by rewrite Hh2.
Qed.

Lemma add_heads_step draws m hs :
  passes (inv m ∅ hs) (add_heads draws) (λ _ bd, ∃ hs', inv (length draws + m) ∅ hs' bd).
Proof.
  revert m hs. induction draws as [|draw draws IH]; intros m hs; [intros bd Hb; by exists hs|].
  eapply passes_bind; [apply add_head_step|]. intros u bd (hs1 & H1). cbn [length].
  pose proof (IH _ _ bd H1) as H2. by replace (S (length draws) + m)%nat with (length draws + S m)%nat by lia.
Qed.

Lemma remove_head_step m hs :
  passes (inv m ∅ hs) remove_head (λ _ bd, ∃ hs', inv m ∅ hs' bd ∧ size hs' = pred (size hs)).
Proof.
  intros bd Hb. pose proof Hb as (v & [_ Hh] & _). unfold remove_head, test_bind. cbn. rewrite Hh.
  destruct (hs_iter hs) as [|c l] eqn:Hi.
  - exists hs. split; [done|]. assert (hs = ∅) as ->; [|by rewrite size_empty].
    apply elem_of_equiv_empty_L. intros c Hc%elem_of_hs_iter. rewrite Hi in Hc.
    by apply not_elem_of_nil in Hc.
  - pose proof (drop_head_step m ∅ hs c (not_elem_of_empty c) bd Hb) as H.
    destruct (drop_head c bd) as [[]]; [|done]. eexists. split; [exact H|].
    assert (c ∈ hs) as Hc by (apply elem_of_hs_iter; rewrite Hi; by left).
    rewrite size_difference by set_solver. rewrite size_singleton. lia.
Qed.

(** ** The walk *)

(** Rounds that are enough for a walk with this much on the stack and this much seen,
    when [n] blocks are stored. *)
Definition walk_fuel (n : nat) (stack live : gset Cid) : nat :=
  (n - size live) * S n + size stack.

Lemma walk_step v hs fuel stack live :
  sound v hs → (∀ c, c ∈ stack → ∃ h, h ∈ hs ∧ reach links v h c) → live ⊆ dom (v_blocks v) →
  (walk_fuel (size (v_blocks v)) stack live < fuel)%nat →
  passes (state v hs) (walk fuel stack live) (λ _, state v hs).
Proof.
  intros (_ & Hc & He). revert stack live.
  induction fuel as [|fuel IH]; intros stack live Hst Hl Hf; [lia|]. cbn [walk].
  destruct (hs_iter stack) as [|c l] eqn:Hi; [by intros bd|].
  assert (c ∈ stack) as Hcs by (apply elem_of_hs_iter; rewrite Hi; by left).
  assert (size stack = S (size (stack ∖ {[c]}))) as Hsz.
  { rewrite (union_difference_singleton_L c stack) at 1 by done.
    rewrite size_union by set_solver. by rewrite size_singleton. }
  unfold walk_fuel in *. case_bool_decide as Hlive.
  { apply IH; [set_solver|done|lia]. }
  destruct (Hst c Hcs) as (h & Hh & Hr). destruct (Hc h c Hh Hr) as [d Hd].
  destruct (He c d Hd) as (n & cs & b & Hb & <- & <-).
  destruct (encode_references n cs b Hb) as (refs & Href & Hin).
  eapply passes_bind; [apply on_ipfs_step, t_get_step|]. intros o bd [[-> Hro] Hhd].
  rewrite Hd. unfold test_bind, or_error. rewrite Href.
  assert (∀ x, x ∈ (list_to_set refs ∪ stack ∖ {[block_cid b]} : gset Cid) →
    ∃ h, h ∈ hs ∧ reach links v h x) as Hst'.
  { intros x [Hx%elem_of_list_to_set|[Hx _]%elem_of_difference]%elem_of_union; [|by apply Hst].
    exists h. split; [done|]. eapply rtc_r; [exact Hr|]. exists (block_data b).
    split; [done|]. apply (encode_links n cs); [done|]. by apply Hin. }
  assert ({[block_cid b]} ∪ live ⊆ dom (v_blocks v)) as Hl'.
  { apply union_subseteq. split; [|done]. apply singleton_subseteq_l. by eapply elem_of_dom_2. }
  apply IH; [done|done| |by split].
  assert (list_to_set refs ∪ stack ∖ {[block_cid b]} ⊆ dom (v_blocks v)) as Hsub%subseteq_size.
  { intros x (h' & Hh' & Hr')%Hst'. apply elem_of_dom. by eapply Hc. }
  apply subseteq_size in Hl'. rewrite size_dom in Hsub, Hl'.
  rewrite size_union, size_singleton in * by (by apply disjoint_singleton_l).
  nia.
Qed.

(** [check] finds everything, and leaves nothing but the graph under the heads. *)
Definition checked (m : nat) hs (bd : DagBuilder) : Prop :=
  ∃ v, state v hs bd ∧ sound v hs ∧ exact v hs ∧ (size (v_blocks v) ≤ m)%nat.

Lemma checked_inv m hs bd : checked m hs bd → inv m ∅ hs bd.
Proof. intros (v & H1 & H2 & _ & H4). exists v. by rewrite (left_id_L ∅ _). Qed.

(** Rounds that are enough for every loop of the test when it makes [m] heads. *)
Definition gc_fuel (m : nat) : nat := S (m * (m + 2)).

Lemma check_step m fuel hs :
  (gc_fuel m ≤ fuel)%nat → passes (inv m ∅ hs) (check fuel) (λ _, checked m hs).
Proof.
  unfold gc_fuel. intros Hf bd (v & Hst & Hs & Hm). rewrite (left_id_L ∅ _) in Hs.
  assert (passes (state v hs) (check fuel) (λ _, checked m hs)) as Hp; [|by apply Hp].
  eapply passes_bind; [apply on_ipfs_step, t_flush_step|]. intros u. cbn beta.
  eapply passes_bind; [apply on_ipfs_step, b_evict_step; nia|].
  intros u' bd' [(v' & Hev & Hr) Hh]. cbn. unfold test_bind. cbn. rewrite Hh.
  destruct (sound_evicted _ _ _ Hs Hev) as [Hs' Hx].
  assert (size (v_blocks v') ≤ m)%nat as Hm'.
  { destruct Hev as (_ & Hsub & _). etrans; [|exact Hm]. rewrite <- !size_dom.
    apply subseteq_size. by apply subseteq_dom. }
  pose proof (walk_step v' hs fuel hs ∅ Hs') as Hw.
  assert (size hs ≤ size (v_blocks v'))%nat as Hhs.
  { rewrite <- size_dom. apply subseteq_size. intros h Hh'. apply elem_of_dom.
    destruct Hs' as (_ & Hc & _). eapply Hc; [done | apply rtc_refl]. }
  specialize (Hw ltac:(intros c ?; exists c; split; [done | apply rtc_refl])
    (empty_subseteq _)).
  specialize (Hw ltac:(unfold walk_fuel; rewrite size_empty; nia) bd' (conj Hr Hh)).
  destruct (walk fuel hs ∅ bd') as [[]]; [|done]. by exists v'.
Qed.

Lemma remove_heads_step m fuel hs n :
  (gc_fuel m ≤ fuel)%nat → size hs = n →
  passes (checked m hs) (remove_heads fuel n) (λ _, checked m ∅).
Proof.
  intros Hf. revert hs. induction n as [|n IH]; intros hs Hn.
  { apply size_empty_inv, leibniz_equiv in Hn as ->. by intros bd. }
  eapply passes_bind.
  { eapply passes_weaken; [apply remove_head_step|apply checked_inv|exact (λ _ _ H, H)]. }
  intros u bd (hs' & Hb & Hsz). cbn beta.
  assert (passes (inv m ∅ hs') (check fuel ;; remove_heads fuel n)%test (λ _, checked m ∅)) as Hp;
    [|by apply Hp].
  eapply passes_bind; [by apply check_step|]. intros u'. apply IH. lia.
Qed.

Lemma gc_step fuel draws :
  (gc_fuel (length draws) ≤ fuel)%nat → passes (inv 0 ∅ ∅) (gc fuel draws) (λ _ _, True).
Proof.
  intros Hf. eapply passes_bind; [apply add_heads_step|]. intros u bd (hs & Hb). cbn beta.
  rewrite Nat.add_0_r in Hb. set (m := length draws) in *.
  assert (passes (inv m ∅ hs) (check fuel ;; (test_bind get_heads (λ hs,
    remove_heads fuel (size hs) ;; test_bind (on_ipfs (unwrapped iter)) (λ cids,
    asserts (bool_decide (cids = []))))))%test (λ _ _, True)) as Hp; [|by apply Hp].
  eapply passes_bind; [by apply check_step|]. intros u' bd' Hc. cbn beta in Hc.
  pose proof Hc as (v & [_ Hh] & _). unfold test_bind at 1. cbn [get_heads]. rewrite Hh.
  assert (passes (checked m hs) (remove_heads fuel (size hs) ;;
    test_bind (on_ipfs (unwrapped iter)) (λ cids, asserts (bool_decide (cids = []))))%test
    (λ _ _, True)) as Hq; [|by apply Hq].
  eapply passes_bind; [by apply remove_heads_step|]. intros u2 bd2 (v2 & Hst & _ & Hx & _).
  assert (passes (state v2 ∅) (test_bind (on_ipfs (unwrapped iter))
    (λ cids, asserts (bool_decide (cids = [])))) (λ _ _, True)) as Hr; [|by apply Hr].
  eapply passes_bind; [apply on_ipfs_step, t_iter_step|]. intros cids.
  apply passes_asserts. intros bd3 [[Hin _] _]. split; [|done]. apply bool_decide_eq_true.
  destruct cids as [|c cids]; [done|]. destruct (Hx c) as (h & Hh' & _); [apply Hin; by left|].
  by apply not_elem_of_empty in Hh'.
Qed.
End proofs.

(** C21: the collector keeps exactly what is named.  On a block store whose database file
    is created in a new, empty directory with no room for unpinned blocks, the test [gc]
    passes, whatever numbers are drawn and in whatever order hash sets are iterated: after
    each flush and eviction every block under a head is found, in the end the store is
    empty, and no loop runs for more than [m * (m + 2) + 1] rounds when [m] heads are made;
    only an error that the store or the encoder reports can end it early. *)
Theorem gc_test_passes `{I : Ipld, B : !BlockStore, BL : !BlockStoreLaws, NR : !NoRoom,
    C : !NodeCodec, CL : !NodeCodecLaws, HO : HashOrder, H : !StoreHost}
    tmp queries fs bd fs' draws fuel :
  (** a database that does not exist yet is empty *)
  (∀ p tracker fs1 s fs2, is_file p fs1 = false →
     store_open p (0, u64_MAX) tracker fs1 = (Ok s, fs2) → roomless s ∧ view s = empty_view) →
  (** the temporary directory is empty *)
  is_file tmp fs = false →
  (∀ fs1, create_dir_all tmp fs = (Ok (), fs1) → is_file (path_join tmp "db") fs1 = false) →
  DagBuilder_new tmp queries fs = (Ok bd, fs') → (gc_fuel (length draws) ≤ fuel)%nat →
  (gc fuel draws bd).1 = Ok () ∨ (gc fuel draws bd).1 = Err Unwrapped.
Proof.
  intros Hopen Htmp Hdir Hnew Hf.
  assert (inv 0 ∅ ∅ bd) as Hinv.
  { unfold DagBuilder_new, open_service in Hnew. cbn in Hnew.
    unfold db_file in Hnew. rewrite Htmp in Hnew.
    destruct (create_dir_all tmp fs) as [[[]|e] fs1]; cbn in Hnew; [|done].
    specialize (Hdir fs1 eq_refl).
    destruct (store_open _ _ _ fs1) as [[s|e] fs2] eqn:Ho; cbn in Hnew; [|done].
    destruct (additional_connection s); cbn in Hnew; [|done]. injection Hnew as <- <-.
    apply Hopen in Ho as [Hr Hv]; [|done]. exists empty_view. split_and!; [by split|..].
    - rewrite (left_id_L ∅ _). split_and!; cbn.
      + intros name c. rewrite lookup_empty. set_solver.
      + intros h c Hh. set_solver.
      + intros c d Hd. by rewrite lookup_empty in Hd.
    - cbn. by rewrite map_size_empty. }
  pose proof (gc_step fuel draws Hf bd Hinv) as Hp.
  destruct (gc fuel draws bd) as [[[]|e] bd']; [by left | right; by rewrite Hp].
Qed.

(** ** A concrete run *)

(** A number that determines the list and is larger than its elements. *)
Fixpoint goedel (l : list N) : N :=
  match l with
  | [] => 0
  | x :: l => (x + goedel l) * (x + goedel l) + goedel l + 1
  end%N.

Lemma goedel_lt x l : x ∈ l → (x < goedel l)%N.
Proof. intros Hx. induction Hx as [x l|x y l Hx IH]; cbn [goedel]; nia. Qed.

Lemma square_inj (a b x y : N) : ((x + a) * (x + a) + a = (y + b) * (y + b) + b → x = y ∧ a = b)%N.
Proof. destruct (N.lt_trichotomy (x + a) (y + b)) as [?|[?|?]]; nia. Qed.

Lemma goedel_inj l l' : goedel l = goedel l' → l = l'.
Proof.
  revert l'. induction l as [|x l IH]; intros [|y l']; cbn [goedel]; [done|lia|lia|].
  intros H. destruct (square_inj (goedel l) (goedel l') x y) as [-> ?]; [lia|]. f_equal. by apply IH.
Qed.

Definition node_cid (nonce : Z) (children : list N) : N := goedel (children ++ [Z.to_N nonce]).
Definition node_data (nonce : Z) (children : list N) : Bytes :=
  (Z.of_N <$> children) ++ [Z.of_N (node_cid nonce children)].

#[export] Instance toy_codec : NodeCodec (I := numbered) := {
  encode_node nonce children := Some (node_cid nonce children, node_data nonce children);
  references c d := Some (m_links c d);
  cid_bytes c := [Z.of_N c];
}.

Lemma node_links nonce children c :
  c ∈ m_links (node_cid nonce children) (node_data nonce children) ↔ c ∈ children.
Proof.
  unfold m_links, node_data. rewrite list_elem_of_filter, fmap_app, elem_of_app.
  rewrite <- list_fmap_compose. cbn. rewrite N2Z.id, list_elem_of_singleton.
  rewrite (list_fmap_ext (Z.to_N ∘ Z.of_N) id children) by (intros; apply N2Z.id).
  rewrite list_fmap_id.
  split; [intros [? [?|?]]; [done|lia]|]. intros Hc. split; [|by left].
  apply goedel_lt. apply elem_of_app. by left.
Qed.

#[export] Instance toy_codec_laws : NodeCodecLaws (B := mem_store).
Proof.
  split; cbn.
  - intros n cs b c [= <-]. apply node_links.
  - intros n cs b [= <-]. eexists. split; [done|]. apply node_links.
  - intros n1 cs1 b1 n2 cs2 b2 [= <-] [= <-] H.
    change (node_cid n1 cs1 = node_cid n2 cs2) in H. cbn. unfold node_data. rewrite H. apply goedel_inj in H. by apply app_inj_tail in H as [-> _].
  - intros n cs b [= <-]. cbn. intros Hc.
    assert (node_cid n cs < goedel (cs ++ [Z.to_N n]))%N by (apply goedel_lt, elem_of_app; by left).
    unfold node_cid in *. lia.
  - intros c1 c2 [= H]. by apply N2Z.inj.
Qed.

#[export, refine] Instance mem_no_room : NoRoom (B := mem_store) := {
  roomless s := m_limit s = 0%nat ∧ m_pins s = [];
  roomless_txn t := m_limit t.1 = 0%nat ∧ m_pins t.1 = [];
}.
Proof.
  all: try done.
  - intros n d s [H1 H2]. cbn. unfold m_gc. by destruct (m_victims s).
  - intros s [H1 _] Hw. cbn in *. rewrite H1 in Hw. apply map_size_empty_inv. lia.
  - intros s c [_ H2] Hp _. cbn in *. unfold m_pinned, m_roots in Hp. rewrite H2 in Hp.
    apply bool_decide_eq_true, list_elem_of_bind in Hp as (root & Hc & Hr).
    apply list_elem_of_fmap in Hr as ([a root'] & -> & Ha%elem_of_map_to_list).
    exists a, root'. split; [done|]. by apply m_reach_spec.
Defined.

(** Three heads without children; the fourth has two of them as children, of which one
    stops being a head. *)
Definition draws0 : list (Z * Z * Z) := [(7, 5, 0); (3, 9, 1); (4, 8, 2); (8, 3, 3)].

Definition builder0 : DagBuilder (B := mem_store) :=
  MkBuilder (MkService (m_empty 0) usize_MAX (u64_MAX * NANOS_PER_SEC + (1000000000 - 1)) true ∅) ∅.

Example gc_test_run : (gc 25 draws0 builder0).1 = Ok ().
Proof. vm_compute. reflexivity. Qed.

Lemma gc_test_passes_witness :
  (gc 25 draws0 builder0).1 = Ok () ∨ (gc 25 draws0 builder0).1 = Err Unwrapped.
Proof.
  apply (gc_test_passes (H := toy_host) "tmp" ∅ (() : FsState (StoreHost := toy_host)) builder0
    (() : FsState (StoreHost := toy_host)) draws0 25).
  - intros p tracker fs1 s fs2 _ [= <- <-]. by split.
  - done.
  - done.
  - done.
  - vm_compute. lia.
Defined.
