(* ===== verification/Text.v ===== *)
(** * Words of a line

    [str::split_whitespace] on UTF-8 text, [slice::chunks(2)] and the hexadecimal
    encoding of bytes used by the command line protocol, with their round trips. *)

From Stdlib Require Import Ascii.
From S2P Require Import Prelude Ipld Utf8.

Open Scope Z_scope.

#[local] Arguments String.append !_ _ /.

(** ** White space *)

(** The encodings of the Unicode characters with property [White_Space], by length. *)
Definition ws1 (a : Z) : bool := between 9 13 a || (a =? 32).
Definition ws2 (a b : Z) : bool := (a =? 194) && ((b =? 133) || (b =? 160)).
Definition ws3 (a b c : Z) : bool :=
  (a =? 225) && (b =? 154) && (c =? 128)
  || (a =? 226) && (b =? 128) && (between 128 138 c || (c =? 168) || (c =? 169) || (c =? 175))
  || (a =? 226) && (b =? 129) && (c =? 159)
  || (a =? 227) && (b =? 128) && (c =? 128).

(** The length of the white-space character a text starts with, or 0. *)
Definition ws_len (s : string) : nat :=
  match s with
  | String a r =>
      if ws1 (byte_of_ascii a) then 1%nat
      else match r with
      | String b r =>
          if ws2 (byte_of_ascii a) (byte_of_ascii b) then 2%nat
          else match r with
          | String c _ => if ws3 (byte_of_ascii a) (byte_of_ascii b) (byte_of_ascii c)
                          then 3%nat else 0%nat
          | EmptyString => 0%nat
          end
      | EmptyString => 0%nat
      end
  | EmptyString => 0%nat
  end.

Definition push_word (w : string) (l : list string) : list string :=
  if bool_decide (w = EmptyString) then l else w :: l.

Definition snoc (w : string) (c : ascii) : string := String.append w (String c EmptyString).

(** [skip] bytes are left of the current white-space character, [cur] is the word
    read so far. *)
Fixpoint split_from (skip : nat) (s : string) (cur : string) : list string :=
  match s with
  | EmptyString => push_word cur []
  | String c r =>
      match skip with
      | S k => split_from k r cur
      | O =>
          match ws_len s with
          | O => split_from 0 r (snoc cur c)
          | S k => push_word cur (split_from k r EmptyString)
          end
      end
  end.

(** [str::split_whitespace]. *)
Definition split_whitespace (s : string) : list string := split_from 0 s EmptyString.

(** A text without white space. *)
Fixpoint no_ws (w : string) : bool :=
  match w with
  | EmptyString => true
  | String _ r => Nat.eqb (ws_len w) 0 && no_ws r
  end.

(** Something [split_whitespace] may return. *)
Definition word (w : string) : bool := negb (bool_decide (w = EmptyString)) && no_ws w.

(** [parts.join(" ")]. *)
Fixpoint join (l : list string) : string :=
  match l with
  | [] => EmptyString
  | [w] => w
  | w :: l => w +:+ " " +:+ join l
  end.

Lemma app_snoc w c r : String.append (snoc w c) r = String.append w (String c r).
Proof.
  unfold snoc. induction w as [|a w IH]; [done|].
  change (String a (String.append (String.append w (String c EmptyString)) r) =
          String a (String.append w (String c r))). by rewrite IH.
Qed.

Lemma app_empty_r w : String.append w EmptyString = w.
Proof. induction w as [|c w IH]; cbn; congruence. Qed.

(** Appending a space does not create white space. *)
Lemma ws_len_space c w r :
  ws_len (String c w) = 0%nat → ws_len (String c (String.append w (String " " r))) = 0%nat.
Proof.
  unfold ws_len. destruct w as [|a [|b w]]; cbn [String.append].
  - destruct (ws1 _); [done|]. intros _.
    replace (ws2 (byte_of_ascii c) (byte_of_ascii " ")) with false
      by (unfold ws2; cbn; by rewrite andb_false_r).
    destruct r; [done|].
    replace (ws3 (byte_of_ascii c) (byte_of_ascii " ") (byte_of_ascii a)) with false; [done|].
    unfold ws3. cbn. by rewrite !andb_false_r.
  - destruct (ws1 _); [done|]. destruct (ws2 _ _); [done|]. intros _.
    replace (ws3 (byte_of_ascii c) (byte_of_ascii a) (byte_of_ascii " ")) with false; [done|].
    unfold ws3. cbn. by rewrite !andb_false_r.
  - done.
Qed.

(** Nor does appending a newline, which ends the last word of a line. *)
Lemma ws_len_newline c w :
  ws_len (String c (String.append w (String "010" EmptyString))) = ws_len (String c w).
Proof.
  unfold ws_len. destruct w as [|a [|b w]]; cbn [String.append]; [| |done];
    destruct (ws1 _); try done.
  - replace (ws2 (byte_of_ascii c) (byte_of_ascii "010")) with false; [done|].
    unfold ws2. cbn. by rewrite andb_false_r.
  - destruct (ws2 _ _); [done|].
    replace (ws3 (byte_of_ascii c) (byte_of_ascii a) (byte_of_ascii "010")) with false; [done|].
    unfold ws3. cbn. by rewrite !andb_false_r.
Qed.

Lemma split_from_newline s skip cur :
  split_from skip (String.append s (String "010" EmptyString)) cur = split_from skip s cur.
Proof.
  revert skip cur. induction s as [|c s IH]; intros skip cur; [by destruct skip as [|[]]|].
  destruct skip as [|k]; cbn [String.append split_from]; [|apply IH].
  rewrite ws_len_newline. destruct (ws_len (String c s)); by rewrite IH.
Qed.

Lemma split_newline s :
  split_whitespace (String.append s (String "010" EmptyString)) = split_whitespace s.
Proof. apply split_from_newline. Qed.

Lemma split_word w cur r :
  no_ws w = true →
  split_from 0 (String.append w (String " " r)) cur =
    push_word (String.append cur w) (split_from 0 r EmptyString).
Proof.
  revert cur. induction w as [|c w IH]; intros cur Hw.
  - by rewrite app_empty_r.
  - cbn [no_ws] in Hw. apply andb_true_iff in Hw as [Hc%Nat.eqb_eq Hw].
    cbn [String.append split_from]. rewrite (ws_len_space c w r Hc).
    by rewrite (IH _ Hw), app_snoc.
Qed.

Lemma split_last w cur :
  no_ws w = true → split_from 0 w cur = push_word (String.append cur w) [].
Proof.
  revert cur. induction w as [|c w IH]; intros cur Hw.
  - by rewrite app_empty_r.
  - cbn [no_ws] in Hw. apply andb_true_iff in Hw as [Hc%Nat.eqb_eq Hw].
    cbn [split_from]. by rewrite Hc, (IH _ Hw), app_snoc.
Qed.

Lemma push_word_word w l : word w = true → push_word w l = w :: l.
Proof.
  unfold word, push_word. intros [Hw _]%andb_true_iff. by apply negb_true_iff in Hw as ->.
Qed.

Lemma split_cons w r :
  word w = true → split_whitespace (w +:+ " " +:+ r) = w :: split_whitespace r.
Proof.
  intros Hw. pose proof Hw as [_ Hn]%andb_true_iff. unfold split_whitespace.
  change (w +:+ " " +:+ r) with (String.append w (String " " r)).
  rewrite split_word by done. by apply push_word_word.
Qed.

Lemma split_single w : word w = true → split_whitespace w = [w].
Proof.
  intros Hw. pose proof Hw as [_ Hn]%andb_true_iff. unfold split_whitespace.
  rewrite split_last by done. by apply push_word_word.
Qed.

Lemma split_join l : Forall (λ w, word w = true) l → split_whitespace (join l) = l.
Proof.
  induction 1 as [|w [|w' l] Hw Hl IH]; [done | by apply split_single|].
  change (join (w :: w' :: l)) with (w +:+ " " +:+ join (w' :: l)).
  by rewrite split_cons, IH.
Qed.

(** ** Hexadecimal *)

Definition hex_digit (d : Z) : ascii := ascii_of_byte (if d <? 10 then 48 + d else 87 + d).

(** [write!(f, "{:02x}", byte)] for each byte. *)
Fixpoint hex_encode (data : Bytes) : string :=
  match data with
  | [] => EmptyString
  | b :: data => String (hex_digit (b / 16)) (String (hex_digit (b `mod` 16)) (hex_encode data))
  end.

Definition hex_value (b : Z) : option Z :=
  if between 48 57 b then Some (b - 48)
  else if between 97 102 b then Some (b - 87)
  else if between 65 70 b then Some (b - 55)
  else None.

(** [u8::from_str_radix(s, 16)] on a chunk of at most two bytes: a leading plus sign
    is accepted. *)
Definition from_str_radix_16 (chunk : Bytes) : option Z :=
  match chunk with
  | [a] => hex_value a
  | [a; b] => if a =? 43 then hex_value b
              else x ← hex_value a; y ← hex_value b; Some (16 * x + y)
  | _ => None
  end.

(** [str_data.as_bytes().chunks(2)], decoded chunk by chunk. *)
Fixpoint hex_decode (bs : Bytes) : option Bytes :=
  match bs with
  | [] => Some []
  | [a] => _ ← from_utf8 [a]; x ← from_str_radix_16 [a]; Some [x]
  | a :: b :: bs =>
      _ ← from_utf8 [a; b]; x ← from_str_radix_16 [a; b]; xs ← hex_decode bs; Some (x :: xs)
  end.

Definition is_byte (b : Z) : bool := between 0 255 b.

Lemma byte_of_hex_digit d :
  0 ≤ d < 16 → byte_of_ascii (hex_digit d) = if d <? 10 then 48 + d else 87 + d.
Proof.
  intros Hd. assert (∀ k, (k < 16)%nat →
    byte_of_ascii (hex_digit (Z.of_nat k)) =
      if Z.of_nat k <? 10 then 48 + Z.of_nat k else 87 + Z.of_nat k) as H.
  { intros k Hk. do 16 (destruct k as [|k]; [done|]). lia. }
  specialize (H (Z.to_nat d)). rewrite Z2Nat.id in H by lia. apply H. lia.
Qed.

Lemma hex_value_digit d : 0 ≤ d < 16 → hex_value (byte_of_ascii (hex_digit d)) = Some d.
Proof.
  intros Hd. rewrite byte_of_hex_digit by done. unfold hex_value, between.
  destruct (Z.ltb_spec d 10).
  - rewrite !(proj2 (Z.leb_le _ _)) by lia. cbn. f_equal. lia.
  - rewrite (proj2 (Z.leb_gt (87 + d) 57)), andb_false_r by lia.
    rewrite !(proj2 (Z.leb_le _ _)) by lia. cbn. f_equal. lia.
Qed.

Lemma hex_digit_ascii d :
  0 ≤ d < 16 → between 0 127 (byte_of_ascii (hex_digit d)) = true ∧
               (byte_of_ascii (hex_digit d) =? 43) = false ∧
               ws1 (byte_of_ascii (hex_digit d)) = false.
Proof.
  intros Hd. rewrite byte_of_hex_digit by done. unfold ws1, between.
  assert (48 ≤ (if d <? 10 then 48 + d else 87 + d) ≤ 102) by (destruct (Z.ltb_spec d 10); lia).
  generalize dependent (if d <? 10 then 48 + d else 87 + d). intros x Hx. split_and!.
  - apply andb_true_iff. lia.
  - lia.
  - apply orb_false_iff. rewrite andb_false_iff. lia.
Qed.

(** The encoding is inverted by the decoder. *)
Lemma hex_roundtrip data :
  forallb is_byte data = true → hex_decode (as_bytes (hex_encode data)) = Some data.
Proof.
  induction data as [|b data IH]; [done|]. cbn [forallb]. intros [Hb Hd]%andb_true_iff.
  unfold is_byte, between in Hb. apply andb_true_iff in Hb as [H0%Z.leb_le H1%Z.leb_le].
  destruct (hex_digit_ascii (b / 16)) as (A1 & A2 & _); [lia|].
  destruct (hex_digit_ascii (b `mod` 16)) as (B1 & _ & _); [lia|].
  cbn [hex_encode as_bytes hex_decode]. unfold from_utf8. cbn [utf8_valid].
  rewrite A1, B1. cbn [mbind option_bind from_str_radix_16]. rewrite A2.
  rewrite !hex_value_digit by lia. cbn [mbind option_bind]. rewrite IH by done. cbn.
  f_equal. f_equal. lia.
Qed.

Lemma hex_no_ws data : forallb is_byte data = true → no_ws (hex_encode data) = true.
Proof.
  assert (∀ d r, 0 ≤ d < 16 → ws_len (String (hex_digit d) r) = 0%nat) as Hlen.
  { intros d r Hd. unfold ws_len. destruct (hex_digit_ascii d Hd) as (A & _ & ->).
    assert (byte_of_ascii (hex_digit d) ≤ 127) as Hle
      by (unfold between in A; apply andb_true_iff in A; lia).
    destruct r as [|c1 [|c2 r]]; [done| |].
    - unfold ws2. by rewrite (proj2 (Z.eqb_neq _ 194)) by lia.
    - unfold ws2, ws3. rewrite (proj2 (Z.eqb_neq _ 194)), (proj2 (Z.eqb_neq _ 225)),
        (proj2 (Z.eqb_neq _ 226)), (proj2 (Z.eqb_neq _ 227)) by lia. done. }
  induction data as [|b data IH]; [done|]. cbn [forallb]. intros [Hb Hd]%andb_true_iff.
  unfold is_byte, between in Hb. apply andb_true_iff in Hb as [H0%Z.leb_le H1%Z.leb_le].
  cbn [hex_encode no_ws]. rewrite !Hlen by lia. by rewrite IH.
Qed.
