(* ===== verification/Restart.v ===== *)
(** * [examples/restart.rs]: starting and dropping nodes again and again

    The example starts a node and drops it, 131 times in all, and prints how many threads
    there are.  On [async-global-executor] nothing is left of a dropped node; on tokio two
    tasks are left of every one. *)

From S2P Require Import Prelude Libp2p Duration PeerInfo Executor AddressHandler Channel Peers.
From S2P Require Import PeersReach Ipld Db Behaviour Network NetworkService NetToy Config.
From S2P Require Import NetworkNew Ipfs DbSpec Lifecycle Text.

Open Scope Z_scope.

Section restart.
Context `{L : Libp2p, I : Ipld, B : !BlockStore, H : !StoreHost, N : !Protocols,
          CE : !Channels Event, CG : !Channels GossipEvent, CS : !Channels SyncEvent,
          CL : !Channels ListenerEvent, W : !SwarmOps, CC : !Bounded NetworkCommand,
          S : !Setup, T : !Transports, FT : Features, RT : Runtime}.
Implicit Types (h : Host).

(** [let ipfs = Ipfs::<DefaultParams>::new(config).await?; drop(ipfs);]. *)
Definition start_and_drop (config : IpfsConfig) h : outcome (result () StartError * Host) :=
  '(r, h) ← Ipfs_new config h;
  match r with
  | Err e => Done (Err e, h)
  | Ok st => Done (Ok (), set_host (h_fs h) (lf_rt (drop_node (st_life st))) h)
  end.

(** Three nodes, then [for _ in 0..128]; each configuration is a fresh [Config::default()]. *)
Fixpoint restart_main (configs : list IpfsConfig) h : outcome (result () StartError * Host) :=
  match configs with
  | [] => Done (Ok (), h)
  | config :: configs =>
      '(r, h) ← start_and_drop config h;
      match r with
      | Err e => Done (Err e, h)
      | Ok _ => restart_main configs h
      end
  end.

(** [threads]: the second word of the line of [/proc/self/status] that starts with
    "Threads:"; panics when there is none, or no number. *)
Fixpoint threads (parse_u64 : string → option Z) (lines : list string) : outcome Z :=
  match lines with
  | [] => Panicked
  | line :: lines =>
      if String.prefix "Threads:" line then
        match split_whitespace line with
        | _ :: n :: _ => unwrap (parse_u64 n)
        | _ => Panicked
        end
      else threads parse_u64 lines
  end.

(** What is left of a node that was dropped at once. *)
Definition leftovers (config : IpfsConfig) (st : Started) : list task :=
  if feature_async_global then []
  else lf_swarm_task (st_life st) ::
       (if bool_decide (is_Some (nc_bitswap (cfg_network config))) then [lf_gc_task (st_life st)]
        else []).

Lemma dropped_tasks config h st h' u :
  Ipfs_new config h = Done (Ok st, h') →
  running (lf_rt (drop_node (st_life st))) u = true ↔
  u ∈ leftovers config st ∨ running (h_rt h) u = true.
Proof.
  intros E. apply Ipfs_new_Ok in E as (Hi & Hc & Hb & Hs & Hr & _ & _ & _ & [Hf1 Hf2] & _).
  assert (0 < lf_clones (st_life st))%nat as Hpos by (rewrite Hc; lia).
  destruct (drop_node_inv _ Hi Hpos) as (Hi' & Hz & Hst & Hgt & Hbs & Hrun).
  pose proof (li_distinct _ Hi) as Hd.
  pose proof (li_gc_running _ Hi') as Hgr.
  rewrite (bool_decide_ext _ _ (storage_refs_spec _)), Hz, Hst, Hgt, Hbs, Hb, Hrun, Hs, Hc in Hgr.
  rewrite Hs, Hc in Hrun. cbn in Hrun, Hgr.
  unfold leftovers. set (bw := bool_decide (is_Some _)) in *.
  destruct (decide (u = lf_swarm_task (st_life st))) as [->|Hu1].
  { rewrite Hrun, Hf1. destruct feature_async_global; cbn; set_solver. }
  destruct (decide (u = lf_gc_task (st_life st))) as [->|Hu2].
  { rewrite Hgr, Hf2. destruct feature_async_global, bw; cbn; set_solver. }
  rewrite drop_node_others, Hr by done. destruct feature_async_global, bw; cbn; set_solver.
Qed.
End restart.

(** How many tasks a dropped node leaves behind. *)
Definition leftover_count `{L : Libp2p, I : Ipld, B : !BlockStore, N : !Protocols, S : !Setup,
    FT : Features} (config : IpfsConfig) : nat :=
  if feature_async_global then 0
  else if bool_decide (is_Some (nc_bitswap (cfg_network config))) then 2 else 1.

(** Starting and dropping nodes one after the other.  On [async-global-executor] exactly
    the tasks run afterwards that ran before; on tokio every dropped node leaves its swarm
    task running and, if bitswap is configured as it is by default, its collector, so that
    the 131 nodes of the example leave 262 tasks, unless the swarm tasks end by
    themselves. *)
Theorem restart_tasks `{L : Libp2p, I : Ipld, B : !BlockStore, H : !StoreHost, N : !Protocols,
    CE : !Channels Event, CG : !Channels GossipEvent, CS : !Channels SyncEvent,
    CL : !Channels ListenerEvent, W : !SwarmOps, CC : !Bounded NetworkCommand,
    S : !Setup, T : !Transports, FT : Features, RT : Runtime} configs h h' :
  restart_main configs h = Done (Ok (), h') →
  ∃ ts, NoDup ts ∧ length ts = list_sum (leftover_count <$> configs) ∧
    (∀ u, u ∈ ts → running (h_rt h) u = false) ∧
    ∀ u, running (h_rt h') u = true ↔ u ∈ ts ∨ running (h_rt h) u = true.
Proof.
  revert h. induction configs as [|config configs IH]; intros h; cbn.
  { intros [= <-]. exists []. split_and!; [constructor|done|by intros u ?%not_elem_of_nil|].
    intros u. rewrite elem_of_nil. naive_solver. }
  unfold start_and_drop. destruct (Ipfs_new config h) as [[[st|e] h1]|] eqn:E; cbn; [|done..].
  intros (ts & Hnd & Hlen & Hnew & Hrun)%IH. cbn in Hnew, Hrun.
  pose proof (λ u, dropped_tasks config h st h1 u E) as Hdrop.
  apply Ipfs_new_Ok in E as (Hi & _ & _ & _ & _ & _ & _ & _ & [Hf1 Hf2] & _).
  exists (leftovers config st ++ ts). split_and!.
  - apply NoDup_app. split_and!; [|intros u Hu Hin|done].
    + pose proof (li_distinct _ Hi). unfold leftovers. destruct feature_async_global; [constructor|].
      case_bool_decide; repeat constructor; set_solver.
    + apply Hnew, not_true_iff_false in Hin. apply Hin, Hdrop. by left.
  - rewrite length_app, Hlen. f_equal. unfold leftovers, leftover_count.
    destruct feature_async_global; [done|]. by case_bool_decide.
  - intros u [Hu|Hu]%elem_of_app.
    + unfold leftovers in Hu. destruct feature_async_global; [by apply not_elem_of_nil in Hu|].
      apply elem_of_cons in Hu as [->|Hu]; [done|].
      case_bool_decide; [by apply list_elem_of_singleton in Hu as ->|by apply not_elem_of_nil in Hu].
    + apply Hnew, not_true_iff_false in Hu. apply not_true_is_false. intros Hx. apply Hu, Hdrop. by right.
  - intros u. rewrite Hrun, Hdrop, elem_of_app. tauto.
Qed.

Example threads_line :
  threads (λ s, if String.eqb s "12" then Some 12 else None)
    ["Name: restart"; "Threads: 12"; "SigQ: 0/1"] = Done 12.
Proof. reflexivity. Qed.
