(* ===== verification/Cli.v ===== *)
(** * [cli/src/lib.rs]: the line protocol of the command line tool

    Commands and events, their [Display] and their [FromStr]; the events a node's swarm
    events are reported as, from [cli/src/main.rs].  Display and parsing of peer ids,
    addresses, content ids and JSON are parameters. *)

From Stdlib Require Import Ascii.
From S2P Require Import Prelude Libp2p Duration PeerInfo AddressHandler Channel Peers Ipld Utf8.
From S2P Require Import Text.

Open Scope Z_scope.

(** A type with [Display] and [FromStr] that are inverse, whose texts are words. *)
Class Text (T Err : Type) := {
  show : T → string;
  parse : string → result T Err;
  parse_show x : parse (show x) = Ok x;
  show_word x : word (show x) = true;
}.

Section cli.
Context `{L : Libp2p, I : Ipld} {ParseError : Type}
  {TP : Text PeerId ParseError} {TA : Text Multiaddr ParseError} {TC : Text Cid ParseError}.

(** [anyhow::Error]. *)
Inductive CliError : Type :=
| BadValue (e : ParseError)
| BadHex
| BadBlock (e : ParseError)
| BadJson (e : ParseError)
| InvalidCommand (s : string)
| InvalidEvent (s : string).

(** [PeerInfoIo]. *)
Record PeerInfoIo : Type := MkPeerInfoIo {
  io_protocol_version : option string;
  io_agent_version : option string;
  io_protocols : list string;
  io_listeners : list Multiaddr;
  io_addresses : gmap Multiaddr string;
  io_connections : list Multiaddr;
  io_failures : list string;
}.

(** [Block::new], which checks the hash, and [serde_json] for [PeerInfoIo]. *)
Context (block_new : Cid → Bytes → result Block ParseError)
  (json_show : PeerInfoIo → string) (json_parse : string → result PeerInfoIo ParseError).

(** [From<PeerInfo> for PeerInfoIo]; the renderings are [format!("{:?}")]. *)
Definition PeerInfoIo_from `{!HashOrder} (debug_source : AddressSource → string)
    (debug_failure : ConnectionFailure → string) (info : PeerInfo) : PeerInfoIo :=
  MkPeerInfoIo (protocol_version info) (agent_version info) (protocols info)
    (pi_listeners info)
    (list_to_map ((λ '(a, s, _), (a, debug_source s)) <$> iter_addresses info))
    ((λ '(a, _, _), a) <$> iter_connections info)
    (debug_failure <$> recent_failures info).

(** [Command]. *)
Inductive Command : Type :=
| CmdAddAddress (p : PeerId) (a : Multiaddr)
| CmdDialPeer (p : PeerId)
| CmdPrunePeers
| CmdGet (c : Cid)
| CmdInsert (b : Block)
| CmdAlias (alias : string) (c : option Cid)
| CmdFlush
| CmdSync (c : Cid).

(** [Display for Command]. *)
Definition Command_fmt (c : Command) : string :=
  match c with
  | CmdAddAddress p a => ">add-address " +:+ show p +:+ " " +:+ show a
  | CmdDialPeer p => ">dial " +:+ show p
  | CmdPrunePeers => ">prune-peers"
  | CmdGet c => ">get " +:+ show c
  | CmdInsert b => ">insert " +:+ show (block_cid b) +:+ " " +:+ hex_encode (block_data b)
  | CmdAlias alias None => ">alias " +:+ alias
  | CmdAlias alias (Some c) => ">alias " +:+ alias +:+ " " +:+ show c
  | CmdFlush => ">flush"
  | CmdSync c => ">sync " +:+ show c
  end.

(** [let x = parts.next().unwrap().parse()?; k]: panics when there is no part. *)
Definition arg {A B} `{T : Text A ParseError} (parts : list string)
    (k : A → list string → outcome (result B CliError)) : outcome (result B CliError) :=
  match parts with
  | [] => Panicked
  | p :: parts =>
      match parse p with
      | Ok x => k x parts
      | Err e => Done (Err (BadValue e))
      end
  end.

(** [let s = parts.next().unwrap(); k]. *)
Definition raw_arg {B} (parts : list string)
    (k : string → list string → outcome (result B CliError)) : outcome (result B CliError) :=
  match parts with
  | [] => Panicked
  | p :: parts => k p parts
  end.

(** The block data of [>insert] and [<block]. *)
Definition parse_block (cid : Cid) (str_data : string) : result Block CliError :=
  match hex_decode (as_bytes str_data) with
  | None => Err BadHex
  | Some data =>
      match block_new cid data with
      | Ok b => Ok b
      | Err e => Err (BadBlock e)
      end
  end.

Definition map_result {A B} (f : A → B) (r : result A CliError) : result B CliError :=
  match r with Ok a => Ok (f a) | Err e => Err e end.

(** [FromStr for Command]. *)
Definition Command_from_str (s : string) : outcome (result Command CliError) :=
  match split_whitespace s with
  | [] => Done (Err (InvalidCommand s))
  | w :: parts =>
      if String.eqb w ">add-address" then
        arg parts (λ p parts, arg parts (λ a _, Done (Ok (CmdAddAddress p a))))
      else if String.eqb w ">dial" then arg parts (λ p _, Done (Ok (CmdDialPeer p)))
      else if String.eqb w ">prune-peers" then Done (Ok CmdPrunePeers)
      else if String.eqb w ">get" then arg parts (λ c _, Done (Ok (CmdGet c)))
      else if String.eqb w ">insert" then
        arg parts (λ cid parts,
          raw_arg parts (λ data _, Done (map_result CmdInsert (parse_block cid data))))
      else if String.eqb w ">alias" then
        raw_arg parts (λ alias parts,
          match parts with
          | [] => Done (Ok (CmdAlias alias None))
          | c :: _ =>
              match parse c with
              | Ok c => Done (Ok (CmdAlias alias (Some c)))
              | Err e => Done (Err (BadValue e))
              end
          end)
      else if String.eqb w ">flush" then Done (Ok CmdFlush)
      else if String.eqb w ">sync" then arg parts (λ c _, Done (Ok (CmdSync c)))
      else Done (Err (InvalidCommand s))
  end.

(** [Event]. *)
Inductive CliEvent : Type :=
| EvNewListener
| EvNewListenAddr (a : Multiaddr)
| EvExpiredListenAddr (a : Multiaddr)
| EvListenerClosed
| EvNewExternalAddr (a : Multiaddr)
| EvExpiredExternalAddr (a : Multiaddr)
| EvDiscovered (p : PeerId)
| EvUnreachable (p : PeerId)
| EvConnected (p : PeerId)
| EvDisconnected (p : PeerId)
| EvSubscribed (p : PeerId) (topic : string)
| EvUnsubscribed (p : PeerId) (topic : string)
| EvBlock (b : Block)
| EvFlushed
| EvSynced
| EvBootstrapped
| EvPeerInfo (p : PeerId) (i : PeerInfoIo)
| EvPeerRemoved (p : PeerId)
| EvDialFailure (p : PeerId) (a : Multiaddr) (e : string)
| EvConnectionEstablished (p : PeerId) (a : Multiaddr)
| EvConnectionClosed (p : PeerId) (a : Multiaddr).

(** [Display for Event]. *)
Definition CliEvent_fmt (e : CliEvent) : string :=
  match e with
  | EvNewListener => "<new-listener"
  | EvNewListenAddr a => "<new-listen-addr " +:+ show a
  | EvExpiredListenAddr a => "<expired-listen-addr " +:+ show a
  | EvListenerClosed => "<listener-closed"
  | EvNewExternalAddr a => "<new-external-addr " +:+ show a
  | EvExpiredExternalAddr a => "<expired-external-addr " +:+ show a
  | EvDiscovered p => "<discovered " +:+ show p
  | EvUnreachable p => "<unreachable " +:+ show p
  | EvConnected p => "<connected " +:+ show p
  | EvDisconnected p => "<disconnected " +:+ show p
  | EvSubscribed p t => "<subscribed " +:+ show p +:+ " " +:+ t
  | EvUnsubscribed p t => "<unsubscribed " +:+ show p +:+ " " +:+ t
  | EvBlock b => "<block " +:+ show (block_cid b) +:+ " " +:+ hex_encode (block_data b)
  | EvFlushed => "<flushed"
  | EvSynced => "<synced"
  | EvBootstrapped => "<bootstrapped"
  | EvPeerInfo p i => "<peer-info " +:+ show p +:+ " " +:+ json_show i
  | EvPeerRemoved p => "<peer-removed " +:+ show p
  | EvDialFailure p a e => "<dial-failure " +:+ show p +:+ " " +:+ show a +:+ " " +:+ e
  | EvConnectionEstablished p a =>
      "<connection-established " +:+ show p +:+ " " +:+ show a
  | EvConnectionClosed p a => "<connection-closed " +:+ show p +:+ " " +:+ show a
  end.

(** [FromStr for Event]. *)
Definition CliEvent_from_str (s : string) : outcome (result CliEvent CliError) :=
  match split_whitespace s with
  | [] => Done (Err (InvalidEvent s))
  | w :: parts =>
      let one (f : PeerId → CliEvent) := arg parts (λ p _, Done (Ok (f p))) in
      let addr (f : Multiaddr → CliEvent) := arg parts (λ a _, Done (Ok (f a))) in
      let both (f : PeerId → Multiaddr → CliEvent) :=
        arg parts (λ p parts, arg parts (λ a _, Done (Ok (f p a)))) in
      let topic (f : PeerId → string → CliEvent) :=
        arg parts (λ p parts, raw_arg parts (λ t _, Done (Ok (f p t)))) in
      if String.eqb w "<new-listener" then Done (Ok EvNewListener)
      else if String.eqb w "<new-listen-addr" then addr EvNewListenAddr
      else if String.eqb w "<expired-listen-addr" then addr EvExpiredListenAddr
      else if String.eqb w "<listener-closed" then Done (Ok EvListenerClosed)
      else if String.eqb w "<new-external-addr" then addr EvNewExternalAddr
      else if String.eqb w "<expired-external-addr" then addr EvExpiredExternalAddr
      else if String.eqb w "<discovered" then one EvDiscovered
      else if String.eqb w "<unreachable" then one EvUnreachable
      else if String.eqb w "<connected" then one EvConnected
      else if String.eqb w "<disconnected" then one EvDisconnected
      else if String.eqb w "<subscribed" then topic EvSubscribed
      else if String.eqb w "<unsubscribed" then topic EvUnsubscribed
      else if String.eqb w "<block" then
        arg parts (λ cid parts,
          raw_arg parts (λ data _, Done (map_result EvBlock (parse_block cid data))))
      else if String.eqb w "<flushed" then Done (Ok EvFlushed)
      else if String.eqb w "<synced" then Done (Ok EvSynced)
      else if String.eqb w "<bootstrapped" then Done (Ok EvBootstrapped)
      else if String.eqb w "<peer-info" then
        arg parts (λ p parts,
          match json_parse (join parts) with
          | Ok i => Done (Ok (EvPeerInfo p i))
          | Err e => Done (Err (BadJson e))
          end)
      else if String.eqb w "<peer-removed" then one EvPeerRemoved
      else if String.eqb w "<dial-failure" then
        arg parts (λ p parts, arg parts (λ a parts, Done (Ok (EvDialFailure p a (join parts)))))
      else if String.eqb w "<connection-established" then both EvConnectionEstablished
      else if String.eqb w "<connection-closed" then both EvConnectionClosed
      else Done (Err (InvalidEvent s))
  end.

(** [cli/src/main.rs]: the line printed for an event of the swarm, if any;
    [peer_info] is the node's answer at that moment. *)
Definition report (peer_info : PeerId → option PeerInfoIo) (e : Event) : option CliEvent :=
  match e with
  | NewListener _ => Some EvNewListener
  | NewListenAddr _ a => Some (EvNewListenAddr a)
  | ExpiredListenAddr _ a => Some (EvExpiredListenAddr a)
  | ListenerClosed _ => Some EvListenerClosed
  | NewExternalAddr a => Some (EvNewExternalAddr a)
  | ExpiredExternalAddr a => Some (EvExpiredExternalAddr a)
  | Discovered p => Some (EvDiscovered p)
  | Unreachable p => Some (EvUnreachable p)
  | Connected p => Some (EvConnected p)
  | Disconnected p => Some (EvDisconnected p)
  | Subscribed p t => Some (EvSubscribed p t)
  | Unsubscribed p t => Some (EvUnsubscribed p t)
  | Bootstrapped => Some EvBootstrapped
  | NewInfo p =>
      match peer_info p with
      | Some i => Some (EvPeerInfo p i)
      | None => Some (EvPeerRemoved p)
      end
  | ListenerError _ _ => None
  | DialFailure p a e => Some (EvDialFailure p a e)
  | ConnectionEstablished p cp => Some (EvConnectionEstablished p (get_remote_address cp))
  | ConnectionClosed p cp => Some (EvConnectionClosed p (get_remote_address cp))
  | AddressChanged _ _ _ => None
  end.
End cli.
Arguments CliError : clear implicits.
