(* ===== verification/CliSpec.v ===== *)
(** * The line protocol is a round trip

    Printing a command or an event of [cli/src/lib.rs] and parsing the line gives it
    back, under the conditions its texts need; and the lines for which it does not. *)

From Stdlib Require Import Ascii.
From S2P Require Import Prelude Libp2p Duration PeerInfo AddressHandler Channel Peers PeersReach.
From S2P Require Import Ipld Utf8 Text Cli.

Open Scope Z_scope.

Section roundtrip.
Context `{L : Libp2p, I : Ipld} {PE : Type}
  {TP : Text PeerId PE} {TA : Text Multiaddr PE} {TC : Text Cid PE}
  (block_new : Cid → Bytes → result Block PE)
  (json_show : PeerInfoIo → string) (json_parse : string → result PeerInfoIo PE).

(** A block whose hash is right, with data. *)
Definition block_ok (b : Block) : Prop :=
  block_new (block_cid b) (block_data b) = Ok b ∧
  forallb is_byte (block_data b) = true ∧ block_data b ≠ [].

Definition command_ok (c : Command) : Prop :=
  match c with
  | CmdInsert b => block_ok b
  | CmdAlias alias _ => word alias = true
  | _ => True
  end.

(** White space in the text is single spaces between words. *)
Definition tidy (s : string) : Prop := join (split_whitespace s) = s.

Definition event_ok (e : CliEvent) : Prop :=
  match e with
  | EvSubscribed _ t | EvUnsubscribed _ t => word t = true
  | EvBlock b => block_ok b
  | EvPeerInfo _ i => tidy (json_show i) ∧ json_parse (json_show i) = Ok i
  | EvDialFailure _ _ e => tidy e
  | _ => True
  end.

Lemma hex_word data :
  forallb is_byte data = true → data ≠ [] → word (hex_encode data) = true.
Proof.
  intros Hb Hne. unfold word. rewrite hex_no_ws by done. by destruct data.
Qed.

Lemma parse_block_ok b :
  block_ok b → parse_block block_new (block_cid b) (hex_encode (block_data b)) = Ok b.
Proof.
  intros (Hn & Hb & _). unfold parse_block. by rewrite hex_roundtrip, Hn.
Qed.

Lemma arg_show {A B} `{T : Text A PE} (x : A) parts
    (k : A → list string → outcome (result B (CliError PE))) :
  arg (show x :: parts) k = k x parts.
Proof. unfold arg. by rewrite parse_show. Qed.
End roundtrip.

(** Split the keyword off a printed line. *)
Ltac split_keyword :=
  rewrite split_cons by (reflexivity || apply show_word).

(** Compare keywords. *)
Ltac pick_keyword := cbv beta iota zeta delta [String.eqb Ascii.eqb Bool.eqb].

(** A keyword with the space that follows it. *)
Ltac keyword k k' := change (k +:+ ?x) with (k' +:+ " " +:+ x); split_keyword.

(** The data of a block that is all right is one word. *)
Ltac by_hex := match goal with H : block_ok _ _ |- _ => apply hex_word; apply H end.

(** Parse a printed line with keyword [k']: split it, select the keyword's case and
    parse the arguments. *)
Ltac line k k' :=
  keyword k k'; repeat split_keyword;
  rewrite ?split_single by (apply show_word || assumption || by_hex);
  pick_keyword; rewrite ?arg_show.

Section parsing.
Context `{L : Libp2p, I : Ipld} {PE : Type}
  {TP : Text PeerId PE} {TA : Text Multiaddr PE} {TC : Text Cid PE}
  (block_new : Cid → Bytes → result Block PE).

(** The parser undoes [Display] on commands. *)
Lemma parse_fmt (c : Command) :
  command_ok block_new c → Command_from_str block_new (Command_fmt c) = Done (Ok c).
Proof.
  intros Hok. unfold Command_from_str.
  destruct c as [p a|p| |c|b|alias [c|]| |c]; cbn [Command_fmt]; cbn in Hok.
  - by line ">add-address " ">add-address".
  - by line ">dial " ">dial".
  - done.
  - by line ">get " ">get".
  - line ">insert " ">insert". cbn [raw_arg]. by rewrite (parse_block_ok _ _ Hok).
  - keyword ">alias " ">alias". rewrite split_cons by exact Hok.
    rewrite split_single by apply show_word. pick_keyword. cbn [raw_arg]. by rewrite parse_show.
  - by line ">alias " ">alias".
  - done.
  - by line ">sync " ">sync".
Qed.

(** The newline that [read_line] leaves at the end of a line is ignored. *)
Lemma parse_line (c : Command) :
  command_ok block_new c →
  Command_from_str block_new (Command_fmt c +:+ String "010" EmptyString) = Done (Ok c).
Proof.
  intros Hok%parse_fmt. unfold Command_from_str in *. rewrite split_newline.
  destruct (split_whitespace (Command_fmt c)) as [|w parts]; [done|].
  repeat (destruct (String.eqb w _); [done|]). done.
Qed.
End parsing.

(** C26: every command survives the line protocol: parsing the printed line returns
    the command, for block insertions with data and a matching hash and for aliases
    that are words.  In particular hexadecimal encoding of block data is undone by the
    parser and no part of a line is lost. *)
Theorem command_roundtrip `{L : Libp2p, I : Ipld} {PE : Type}
    {TP : Text PeerId PE} {TA : Text Multiaddr PE} {TC : Text Cid PE}
    (block_new : Cid → Bytes → result Block PE) (c : Command) :
  command_ok block_new c → Command_from_str block_new (Command_fmt c) = Done (Ok c).
Proof. apply parse_fmt. Qed.

(** C25: every event survives the line protocol: parsing the printed line returns the
    event, provided topics are words, blocks have data and a matching hash, and error
    texts and the JSON of peer information have no white space but single spaces. *)
Theorem event_roundtrip `{L : Libp2p, I : Ipld} {PE : Type}
    {TP : Text PeerId PE} {TA : Text Multiaddr PE} {TC : Text Cid PE}
    (block_new : Cid → Bytes → result Block PE)
    (json_show : PeerInfoIo → string) (json_parse : string → result PeerInfoIo PE) e :
  event_ok block_new json_show json_parse e →
  CliEvent_from_str block_new json_parse (CliEvent_fmt json_show e) = Done (Ok e).
Proof.
  intros Hok. unfold CliEvent_from_str.
  destruct e as [|a|a| |a|a|p|p|p|p|p t|p t|b| | | |p i|p|p a e|p a|p a]; cbn [CliEvent_fmt];
    try reflexivity; cbn in Hok.
  - by line "<new-listen-addr " "<new-listen-addr".
  - by line "<expired-listen-addr " "<expired-listen-addr".
  - by line "<new-external-addr " "<new-external-addr".
  - by line "<expired-external-addr " "<expired-external-addr".
  - by line "<discovered " "<discovered".
  - by line "<unreachable " "<unreachable".
  - by line "<connected " "<connected".
  - by line "<disconnected " "<disconnected".
  - by line "<subscribed " "<subscribed".
  - by line "<unsubscribed " "<unsubscribed".
  - line "<block " "<block". cbn [raw_arg]. by rewrite (parse_block_ok _ _ Hok).
  - line "<peer-info " "<peer-info". destruct Hok as [Htidy Hjson].
    unfold tidy in Htidy. by rewrite Htidy, Hjson.
  - by line "<peer-removed " "<peer-removed".
  - line "<dial-failure " "<dial-failure". unfold tidy in Hok. by rewrite Hok.
  - by line "<connection-established " "<connection-established".
  - by line "<connection-closed " "<connection-closed".
Qed.

(** Where the line protocol is not a round trip: the line of an empty block, as a
    command or as an event, panics the parser, and a topic that contains white space
    comes back cut at its first space. *)
Theorem line_protocol_gaps `{L : Libp2p, I : Ipld} {PE : Type}
    {TP : Text PeerId PE} {TA : Text Multiaddr PE} {TC : Text Cid PE}
    (block_new : Cid → Bytes → result Block PE)
    (json_show : PeerInfoIo → string) (json_parse : string → result PeerInfoIo PE)
    b p head tail :
  block_data b = [] → word head = true →
  Command_from_str block_new (Command_fmt (CmdInsert b)) = Panicked ∧
  CliEvent_from_str block_new json_parse (CliEvent_fmt json_show (EvBlock b)) = Panicked ∧
  CliEvent_from_str block_new json_parse
    (CliEvent_fmt json_show (EvSubscribed p (head +:+ " " +:+ tail))) =
    Done (Ok (EvSubscribed p head)).
Proof.
  intros Hb Hh. unfold Command_from_str, CliEvent_from_str. cbn [Command_fmt CliEvent_fmt].
  rewrite Hb. split_and!.
  - keyword ">insert " ">insert". split_keyword. pick_keyword. by rewrite arg_show.
  - keyword "<block " "<block". split_keyword. pick_keyword. by rewrite arg_show.
  - keyword "<subscribed " "<subscribed". split_keyword. rewrite split_cons by exact Hh.
    pick_keyword. by rewrite arg_show.
Qed.

(** ** Concrete texts

    Any countable type has texts: the binary digits of its code. *)
Fixpoint show_pos (p : positive) : string :=
  match p with
  | xH => "1"
  | xO p => String "0" (show_pos p)
  | xI p => String "1" (show_pos p)
  end.

Fixpoint parse_pos (s : string) : option positive :=
  match s with
  | EmptyString => None
  | String c EmptyString => if Ascii.eqb c "1" then Some xH else None
  | String c s =>
      p ← parse_pos s;
      if Ascii.eqb c "1" then Some (xI p) else if Ascii.eqb c "0" then Some (xO p) else None
  end.

Lemma parse_show_pos p : parse_pos (show_pos p) = Some p.
Proof.
  induction p as [p IH|p IH|]; [| |done]; cbn [show_pos parse_pos]; rewrite IH;
    by destruct p.
Qed.

Lemma show_pos_word p : word (show_pos p) = true.
Proof.
  assert (no_ws (show_pos p) = true) as Hn.
  { assert (∀ r, ws_len (String "0" r) = 0%nat ∧ ws_len (String "1" r) = 0%nat) as Hl.
    { intros r. by destruct r as [|? [|? r]]. }
    induction p as [p IH|p IH|]; cbn [show_pos no_ws]; [..|done];
      rewrite ?(proj1 (Hl _)), ?(proj2 (Hl _)); exact IH. }
  unfold word. rewrite Hn. by destruct p.
Qed.

Definition parse_code {A : Type} `{Countable A} (s : string) : result A string :=
  match parse_pos s ≫= decode with Some x => Ok x | None => Err "no such value" end.

#[export] Program Instance countable_text (A : Type) `{Countable A} : Text A string := {|
  show := λ x, show_pos (encode x);
  parse := parse_code;
|}.
Next Obligation.
  intros A ?? x. unfold parse_code. rewrite parse_show_pos. cbn. by rewrite decode_encode.
Qed.
Next Obligation. intros. apply show_pos_word. Qed.

(** Every block is taken at face value; peer information prints as nothing. *)
Definition trust_block (c : Cid) (d : Bytes) : result Block string := Ok (c, d).
Definition no_json (i : PeerInfoIo) : string := EmptyString.
Definition parse_no_json (s : string) : result PeerInfoIo string :=
  Ok (MkPeerInfoIo None None [] [] ∅ [] []).

Definition block0 : Block := (5%N, [104; 105]).
Definition empty_block : Block := (5%N, []).

Lemma command_roundtrip_witness :
  Command_from_str trust_block (Command_fmt (CmdInsert block0)) = Done (Ok (CmdInsert block0)).
Proof. by apply (command_roundtrip trust_block (CmdInsert block0)). Defined.

Lemma event_roundtrip_witness :
  CliEvent_from_str trust_block parse_no_json
    (CliEvent_fmt no_json (EvDialFailure peer_b addr_b2 "no route")) =
    Done (Ok (EvDialFailure peer_b addr_b2 "no route")).
Proof.
  by apply (event_roundtrip trust_block no_json parse_no_json
              (EvDialFailure peer_b addr_b2 "no route")).
Defined.

Lemma line_protocol_gaps_witness :
  Command_from_str trust_block (Command_fmt (CmdInsert empty_block)) = Panicked ∧
  CliEvent_from_str trust_block parse_no_json
    (CliEvent_fmt no_json (EvSubscribed peer_b "my topic")) =
    Done (Ok (EvSubscribed peer_b "my")).
Proof.
  destruct (line_protocol_gaps trust_block no_json parse_no_json empty_block peer_b "my" "topic")
    as (H1 & _ & H2); [done..|]. by split.
Defined.
