(* ===== verification/CliMain.v ===== *)
(** * [cli/src/main.rs]: the main loop of the command line tool

    Every round reads a line from standard input, parses it and applies the command to
    the node; errors are printed and the loop goes on.  The world of a round is what
    the node meets in it: the state shared with the swarm task, how its futures end,
    and whether its blocking tasks are joined. *)

From Stdlib Require Import Ascii.
From S2P Require Import Prelude Libp2p Duration PeerInfo AddressHandler Channel Peers PeersReach.
From S2P Require Import Ipld Db DbSpec Utf8 Behaviour Network NetworkService NetToy Config.
From S2P Require Import NetworkClient Ipfs IpfsSpec Text Cli CliSpec.

Open Scope Z_scope.

Section main.
Context `{L : Libp2p, I : Ipld, B : !BlockStore, N : !Protocols, CE : !Channels Event,
          CG : !Channels GossipEvent, CS : !Channels SyncEvent,
          CL : !Channels ListenerEvent, CC : !Bounded NetworkCommand, O : HashOrder}
  {PE : Type} {TP : Text PeerId PE} {TA : Text Multiaddr PE} {TC : Text Cid PE}
  (block_new : Cid → Bytes → result Block PE).

Inductive MainError : Type :=
| FromParser (e : CliError PE)
| FromNode (e : IpfsError).

Record RoundWorld : Type := MkRoundWorld {
  w_awaits : Awaits;
  w_net : Net;
  w_joined : bool;
}.

(** What a round prints on standard output, and the error it reports. *)
Record Round : Type := MkRound {
  printed : list CliEvent;
  error : option (string * MainError);
}.

(** The arms of the [match]: result, printed events, node. *)
Definition run_command (w : RoundWorld) (c : Command) (n : Ipfs)
    : result () IpfsError * list CliEvent * Ipfs :=
  match c with
  | CmdAddAddress p a => (Ok (), [], (ipfs_add_address p a n).2)
  | CmdDialPeer p => (Ok (), [], (ipfs_dial p n).2)
  | CmdPrunePeers => (Ok (), [], (ipfs_prune_peers 0 n).2)
  | CmdGet c =>
      let '(r, n) := ipfs_get c n in
      match r with
      | Ok b => (Ok (), [EvBlock b], n)
      | Err e => (Err e, [], n)
      end
  | CmdInsert b => let '(r, n) := ipfs_insert b n in (r, [], n)
  | CmdAlias a c => let '(r, n) := ipfs_alias (as_bytes a) c n in (r, [], n)
  | CmdFlush =>
      let '(r, n) := ipfs_flush (w_joined w) n in
      (r, if is_ok r then [EvFlushed] else [], n)
  | CmdSync c =>
      let '(r, n) := store_sync (w_awaits w) (w_net w) c n in
      (r, if is_ok r then [EvSynced] else [], n)
  end.

(** One round on the line read. *)
Definition round (w : RoundWorld) (line : string) (n : Ipfs) : outcome (Round * Ipfs) :=
  parsed ← Command_from_str block_new line;
  match parsed with
  | Err e => Done (MkRound [] (Some (line, FromParser e)), n)
  | Ok c =>
      let '(r, out, n) := run_command w c n in
      Done (MkRound out (match r with Ok _ => None | Err e => Some (line, FromNode e) end), n)
  end.

(** [stdin.read_line]: at the end of the input it returns no bytes. *)
Definition read_line (stdin : list string) : string * list string :=
  match stdin with
  | [] => (EmptyString, [])
  | l :: stdin => (l, stdin)
  end.

(** The loop has no exit; one round per world given. *)
Fixpoint main_loop (worlds : list RoundWorld) (stdin : list string) (n : Ipfs)
    : outcome (list Round * Ipfs) :=
  match worlds with
  | [] => Done ([], n)
  | w :: worlds =>
      let '(line, stdin) := read_line stdin in
      '(r, n) ← round w line n;
      '(rs, n) ← main_loop worlds stdin n;
      Done (r :: rs, n)
  end.

(** At the end of its input the tool does not stop: every round reports the same
    error and leaves the node as it is. *)
Lemma main_loop_eof worlds n :
  main_loop worlds [] n =
  Done (replicate (length worlds)
          (MkRound [] (Some (EmptyString, FromParser (InvalidCommand EmptyString)))), n).
Proof.
  induction worlds as [|w worlds IH]; [done|]. cbn [main_loop read_line].
  change (round w EmptyString n) with
    (Done (MkRound [] (Some (EmptyString, FromParser (InvalidCommand EmptyString))), n)).
  cbn [mbind outcome_bind]. by rewrite IH.
Qed.

Lemma main_loop_eof_quiet worlds n rs n' :
  main_loop worlds [] n = Done (rs, n') →
  length rs = length worlds ∧ ∀ i r, rs !! i = Some r → printed r = [].
Proof.
  rewrite main_loop_eof. intros [= <- <-]. split; [apply length_replicate|].
  by intros i r [-> _]%lookup_replicate.
Qed.

Lemma round_command w c n :
  command_ok block_new c →
  round w (Command_fmt c +:+ newline) n =
  (let '(r, out, n) := run_command w c n in
   Done (MkRound out (match r with
                      | Ok _ => None
                      | Err e => Some (Command_fmt c +:+ newline, FromNode e)
                      end), n)).
Proof. intros Hok. unfold round, newline. by rewrite parse_line. Qed.
End main.

Section insert_get.
Context `{L : Libp2p, I : Ipld, B : !BlockStore, BL : !BlockStoreLaws, N : !Protocols,
          CE : !Channels Event, CG : !Channels GossipEvent, CS : !Channels SyncEvent,
          CL : !Channels ListenerEvent, CC : !Bounded NetworkCommand}.

Lemma ipfs_insert_stored b (n : Ipfs) :
  let '(r, n') := ipfs_insert b n in
  network n' = network n ∧
  match r with
  | Ok _ => ∃ d, (d = block_data b ∨ blocks n !! block_cid b = Some d) ∧
              blocks n' = <[block_cid b := d]> (blocks n)
  | Err e => ∃ e', e = FromStorage e'
  end.
Proof.
  unfold ipfs_insert, on_storage, blocks. pose proof (exec_refines (CInsert b) (storage n)) as H.
  cbn [exec] in H. unfold answer in H.
  destruct (insert_block b (storage n)) as [[u|e] sv]; cbn in *; [|by eauto].
  split; [done|]. inversion H. by eexists; split; [eassumption|].
Qed.

Lemma ipfs_get_stored c (n : Ipfs) :
  let '(r, n') := ipfs_get c n in
  network n' = network n ∧ blocks n' = blocks n ∧
  match r with
  | Ok b => block_cid b = c ∧ blocks n !! c = Some (block_data b)
  | Err e => (∃ e', e = FromStorage e') ∧
             (blocks n !! c = None ∨ ∃ e', (get c (storage n)).1 = Err e')
  end.
Proof.
  unfold ipfs_get, blocks. pose proof (get_faithful c (storage n)) as H.
  destruct (get c (storage n)) as [[[d|]|e] sv]; destruct H as [Hv Hd]; cbn; rewrite Hv.
  - by rewrite block_cid_new, block_data_new, (Hd _ eq_refl).
  - rewrite <- (Hd _ eq_refl). split_and!; eauto.
  - split_and!; eauto.
Qed.
End insert_get.

(** ** What is printed is true *)
Section truth.
Context `{L : Libp2p, I : Ipld, B : !BlockStore, BL : !BlockStoreLaws, N : !Protocols,
          CE : !Channels Event, CG : !Channels GossipEvent, CS : !Channels SyncEvent,
          CL : !Channels ListenerEvent, CC : !Bounded NetworkCommand, O : HashOrder}
  {PE : Type} {TP : Text PeerId PE} {TA : Text Multiaddr PE} {TC : Text Cid PE}
  (block_new : Cid → Bytes → result Block PE).
Implicit Types (n : Ipfs).

(** The event answers the command, of which [n] is the node then. *)
Definition answers (c : Command) (n : Ipfs) (e : CliEvent) : Prop :=
  match c, e with
  | CmdGet c, EvBlock b => block_cid b = c ∧ blocks n !! c = Some (block_data b)
  | CmdFlush, EvFlushed | CmdSync _, EvSynced => True
  | _, _ => False
  end.

Lemma command_answers w c n r out n' e :
  run_command w c n = (r, out, n') → e ∈ out → is_ok r = true ∧ answers c n' e.
Proof.
  destruct c; cbn [run_command]; try by intros [= <- <- <-] ?%not_elem_of_nil.
  - pose proof (ipfs_get_stored c n) as H. destruct (ipfs_get c n) as [[b'|e'] n1];
      intros [= <- <- <-]; [|by intros ?%not_elem_of_nil].
    intros ->%list_elem_of_singleton. cbn. by destruct H as (_ & -> & H).
  - destruct (ipfs_insert _ n). by intros [= <- <- <-] ?%not_elem_of_nil.
  - destruct (ipfs_alias _ _ n). by intros [= <- <- <-] ?%not_elem_of_nil.
  - destruct (ipfs_flush _ n) as [[] n1]; intros [= <- <- <-];
      [by intros ->%list_elem_of_singleton | by intros ?%not_elem_of_nil].
  - destruct (store_sync _ _ _ n) as [[] n1]; intros [= <- <- <-];
      [by intros ->%list_elem_of_singleton | by intros ?%not_elem_of_nil].
Qed.

Lemma round_answers w line n r n' e :
  round block_new w line n = Done (r, n') → e ∈ printed r →
  error r = None ∧ ∃ c, Command_from_str block_new line = Done (Ok c) ∧ answers c n' e.
Proof.
  unfold round. destruct (Command_from_str block_new line) as [[c|e']|]; cbn; [| |done].
  - destruct (run_command w c n) as [[r1 out] n1] eqn:E. intros [= <- <-] He. cbn in *.
    destruct (command_answers _ _ _ _ _ _ _ E He) as [Hr Ha]. destruct r1; [by eauto|done].
  - intros [= <- <-]. by intros ?%not_elem_of_nil.
Qed.

Lemma round_panics w line n :
  round block_new w line n = Panicked ↔ Command_from_str block_new line = Panicked.
Proof.
  unfold round. destruct (Command_from_str block_new line) as [[c|e]|]; cbn; [|done..].
  by destruct (run_command w c n) as [[]].
Qed.
End truth.


(** C27: typing [>insert] with a block that the line protocol can carry - its data are not
    empty and match its content id - and then [>get] with its content id prints the
    line of that very block, unless the storage reports an error, given that it holds no
    other bytes under the same content id: both lines are parsed, no round panics, nothing
    else is printed, errors come from the storage only and nothing is sent to the network.
    (The line of an empty block panics the parser, see [line_protocol_gaps].) *)
Theorem cli_insert_get `{L : Libp2p, I : Ipld, B : !BlockStore, BL : !BlockStoreLaws,
    N : !Protocols, CE : !Channels Event, CG : !Channels GossipEvent, CS : !Channels SyncEvent,
    CL : !Channels ListenerEvent, CC : !Bounded NetworkCommand, O : HashOrder}
    {PE : Type} {TP : Text PeerId PE} {TA : Text Multiaddr PE} {TC : Text Cid PE}
    (block_new : Cid → Bytes → result Block PE) json_show b w1 w2 (n : Ipfs) :
  block_ok block_new b → (∀ d, blocks n !! block_cid b = Some d → d = block_data b) →
  ∃ r1 r2 n',
    main_loop block_new [w1; w2]
      [Command_fmt (CmdInsert b) +:+ newline; Command_fmt (CmdGet (block_cid b)) +:+ newline] n =
      Done ([r1; r2], n') ∧
    network n' = network n ∧ printed r1 = [] ∧
    (error r1 = None → error r2 = None →
     CliEvent_fmt json_show <$> printed r2 = [CliEvent_fmt json_show (EvBlock b)]) ∧
    (∀ l e, error r1 = Some (l, e) ∨ error r2 = Some (l, e) → ∃ e', e = FromNode (FromStorage e')).
Proof.
  intros Hok Hsame. cbn [main_loop read_line]. rewrite round_command by done. cbn [run_command].
  pose proof (ipfs_insert_stored b n) as H1. destruct (ipfs_insert b n) as [r1 n1].
  destruct H1 as [Hn1 H1]. cbn [mbind outcome_bind].
  rewrite round_command by done. cbn [run_command].
  pose proof (ipfs_get_stored (block_cid b) n1) as H2.
  destruct (ipfs_get (block_cid b) n1) as [r2 n2]. destruct H2 as (Hn2 & _ & H2).
  destruct r2 as [b'|e2]; cbn [mbind outcome_bind]; do 3 eexists;
    (split; [reflexivity|]); cbn [printed error].
  - split_and!; [congruence|done| |destruct r1; naive_solver].
    destruct r1; [|done]. intros _ _. destruct H2 as [Hc Hd], H1 as (d & Hor & H1).
    assert (d = block_data b) as -> by (destruct Hor; auto).
    rewrite H1, lookup_insert_eq in Hd. cbn. congruence.
  - split_and!; [congruence|done..|destruct r1; naive_solver].
Qed.

Definition cli_world0 : RoundWorld := MkRoundWorld awaits0 net0 true.

(** All rounds ran without error. *)
Definition no_errors {A} (o : outcome (list (Round (PE := string)) * A)) : bool :=
  match o with
  | Done (rs, _) => forallb (λ r, match error r with None => true | Some _ => false end) rs
  | Panicked => false
  end.

Lemma cli_insert_get_witness :
  ∃ r1 r2 n',
    main_loop trust_block [cli_world0; cli_world0]
      [Command_fmt (CmdInsert block0) +:+ newline; Command_fmt (CmdGet cid5) +:+ newline] ipfs0 =
      Done ([r1; r2], n') ∧
    CliEvent_fmt no_json <$> printed r2 = [CliEvent_fmt no_json (EvBlock block0)].
Proof.
  destruct (cli_insert_get trust_block no_json block0 cli_world0 cli_world0 ipfs0) as
    (r1 & r2 & n' & E & _ & _ & Hp & _); [done | by vm_compute |].
  exists r1, r2, n'. split; [exact E|]. apply (f_equal no_errors) in E. cbn [no_errors forallb] in E.
  assert (no_errors (main_loop trust_block [cli_world0; cli_world0]
    [Command_fmt (CmdInsert block0) +:+ newline; Command_fmt (CmdGet cid5) +:+ newline] ipfs0) = true)
    as H by (by vm_compute).
  apply Hp; destruct (error r1), (error r2); try done; exfalso;
    pose proof (eq_trans (eq_sym H) E) as Hf; discriminate.
Defined.
