(* ===== verification/CliStart.v ===== *)
(** * [cli/src/main.rs]: starting the command line tool

    What [run] does before its main loop: the configuration of the node from the command
    line, [Ipfs::new], the stream of events, the listeners and external addresses.  While
    the event stream is awaited the swarm task takes commands from the queue, so how that
    await ends, and the node then, is an argument. *)

From S2P Require Import Prelude Libp2p Duration PeerInfo Executor AddressHandler Channel Peers.
From S2P Require Import PeersReach Ipld Db Behaviour Network NetworkService NetToy Config.
From S2P Require Import NetworkNew NetworkClient Ipfs DbSpec Lifecycle.

Open Scope Z_scope.

Section start_tool.
Context `{L : Libp2p, I : Ipld, B : !BlockStore, H : !StoreHost, N : !Protocols,
          CE : !Channels Event, CG : !Channels GossipEvent, CS : !Channels SyncEvent,
          CL : !Channels ListenerEvent, W : !SwarmOps, CC : !Bounded NetworkCommand,
          S : !Setup, T : !Transports, FT : Features, RT : Runtime}.

(** Errors of [run] before the loop, [anyhow::Error]. *)
Inductive RunError : Type :=
| RunStart (e : StartError)
| RunEvents (e : ServiceError).

(** The storage of the tool: ten blocks of cache, swept every ten seconds. *)
Definition cli_storage (c : CliConfig) : StorageConfig :=
  StorageConfig_new (cc_path c) None 10 (10000 * 1000000).

(** [ipfs.swarm_events().await?]; [await] is [None] when the oneshot is cancelled. *)
Definition open_events (await : Oneshot → Ipfs → option (sender Event) * Ipfs) (n : Ipfs)
    : result (sender Event) ServiceError * Ipfs :=
  let '(req, n) := ipfs_swarm_events n in
  match req with
  | Failed e => (Err e, n)
  | Waiting rx =>
      let '(events, n) := await rx n in
      (match events with Some e => Ok e | None => Err SvcCanceled end, n)
  end.

(** [for addr in config.listen_on { let _ = ipfs.listen_on(addr); }], and the external
    addresses. *)
Definition listen_all (addrs : list Multiaddr) (n : Ipfs) : Ipfs :=
  foldl (λ n a, (ipfs_listen_on a n).2) n addrs.
Definition external_all (addrs : list Multiaddr) (n : Ipfs) : Ipfs :=
  foldl (λ n a, (ipfs_add_external_address a n).2) n addrs.

(** [run] up to the event task; [unimplemented!()] when a bootstrap node is given.
    [default] is [NetworkConfig::default()], [key] is [keypair(config.keypair)]. *)
Definition run_start (render : Z → string) (key : Keypair) (default : NetworkConfig)
    (await : Oneshot → Ipfs → option (sender Event) * Ipfs) (config : CliConfig) (h : Host)
    : outcome (result (Ipfs * sender Event * Started) RunError * Host) :=
  network ← cli_network render key default config;
  '(started, h) ← Ipfs_new (MkIpfsConfig S (cli_storage config) network) h;
  match started with
  | Err e => Done (Err (RunStart e), h)
  | Ok st =>
      let '(events, n) := open_events await (st_ipfs st) in
      match events with
      | Err e => Done (Err (RunEvents e), h)
      | Ok events =>
          let n := external_all (cc_external config) (listen_all (cc_listen_on config) n) in
          if bool_decide (cc_bootstrap config = []) then Done (Ok (n, events, st), h)
          else Panicked
      end
  end.

(** ** What has been asked of the network *)

Definition queued_at (n : Ipfs) : list NetworkCommand := queued (network n).

(** A command that asks to listen on an address, or announces one. *)
Definition asks (c : NetworkCommand) (x : bool * Multiaddr) : Prop :=
  match c with
  | ListenOn a _ => x = (true, a)
  | AddExternalAddress a => x = (false, a)
  | _ => False
  end.

(** The commands queued since [n] ask, in order, for some of [xs]. *)
Definition asked (n n' : Ipfs) (xs : list (bool * Multiaddr)) : Prop :=
  storage n' = storage n ∧ c_peer_id (network n') = c_peer_id (network n) ∧
  ∃ cs ys, queued_at n' = queued_at n ++ cs ∧ Forall2 asks cs ys ∧ ys `sublist_of` xs.

Lemma asked_refl n : asked n n [].
Proof. split_and!; [done..|]. exists [], []. by rewrite app_nil_r. Qed.

Lemma asked_trans n1 n2 n3 xs ys : asked n1 n2 xs → asked n2 n3 ys → asked n1 n3 (xs ++ ys).
Proof.
  intros (S1 & P1 & cs1 & ys1 & Q1 & F1 & L1) (S2 & P2 & cs2 & ys2 & Q2 & F2 & L2).
  split_and!; [congruence..|]. exists (cs1 ++ cs2), (ys1 ++ ys2).
  rewrite Q2, Q1, app_assoc. split_and!; [done|by apply Forall2_app|by apply sublist_app].
Qed.

Lemma listen_on_asked a n : asked n (ipfs_listen_on a n).2 [(true, a)].
Proof.
  unfold ipfs_listen_on, on_network, asked, queued_at.
  pose proof (svc_listen_on_spec a (network n)) as Hq.
  assert (c_peer_id (svc_listen_on a (network n)).2 = c_peer_id (network n)) as Hp.
  { unfold svc_listen_on, cmd. destruct (unbounded _) as [tx l]. cbn.
    by destruct (try_send _ _) as [[]]. }
  destruct (svc_listen_on a (network n)) as [tx c]. cbn in *.
  split_and!; [done..|]. destruct Hq as [_ [[-> _]|[-> _]]].
  - exists [ListenOn a tx], [(true, a)]. split_and!; [done|by repeat constructor|done].
  - exists [], []. rewrite app_nil_r. split_and!; [done|constructor|apply sublist_nil_l].
Qed.

Lemma external_asked a n :
  asked n (ipfs_add_external_address a n).2 [(false, normalize_addr a (c_peer_id (network n)))].
Proof.
  unfold ipfs_add_external_address, on_network, asked, queued_at, svc_add_external_address, fire.
  set (msg := AddExternalAddress _). pose proof (cmd_spec msg (network n)) as Hq.
  destruct (cmd msg (network n)) as [[[m r]|] c]; cbn in *; destruct Hq as (_ & _ & Hp & Hq).
  - split_and!; [done..|]. exists [], []. destruct Hq as (_ & -> & _). rewrite app_nil_r.
    split_and!; [done|constructor|apply sublist_nil_l].
  - split_and!; [done..|]. exists [msg], [(false, normalize_addr a (c_peer_id (network n)))].
    split_and!; [done|by repeat constructor|done].
Qed.

(** The commands of both loops. *)
Lemma listen_all_asked addrs n : asked n (listen_all addrs n) (pair true <$> addrs).
Proof.
  revert n. induction addrs as [|a addrs IH]; intros n; [apply asked_refl|].
  apply (asked_trans _ _ _ [(true, a)] _ (listen_on_asked a n)), IH.
Qed.

Lemma external_all_asked addrs n :
  asked n (external_all addrs n)
    ((λ a, (false, normalize_addr a (c_peer_id (network n)))) <$> addrs).
Proof.
  revert n. induction addrs as [|a addrs IH]; intros n; [apply asked_refl|].
  pose proof (external_asked a n) as Ha. destruct (Ha) as (_ & Hp & _).
  apply (asked_trans _ _ _ _ _ Ha). cbn [external_all foldl fmap list_fmap].
  rewrite <- Hp. apply IH.
Qed.
End start_tool.

(** How the tool starts.  It gets to its main loop only without bootstrap nodes, with a
    node started from the storage and network configuration of the command line, and
    after asking - as far as the command queue takes it, without looking at the outcome -
    to listen on every given address and to announce every external one, in that order.
    When the node cannot be started no task is left behind.  A panic means that the key
    cannot sign, that the default configuration lacks identify, or that a bootstrap node
    was given. *)
Theorem run_start_spec `{L : Libp2p, I : Ipld, B : !BlockStore, H : !StoreHost, N : !Protocols,
    CE : !Channels Event, CG : !Channels GossipEvent, CS : !Channels SyncEvent,
    CL : !Channels ListenerEvent, W : !SwarmOps, CC : !Bounded NetworkCommand,
    S : !Setup, T : !Transports, FT : Features, RT : Runtime}
    render key default await config h :
  match run_start render key default await config h with
  | Panicked =>
      nc_identify default = None ∨ into_authentic key = None ∨ cc_bootstrap config ≠ []
  | Done (Err (RunStart _), h') => ∀ u, running (h_rt h') u = running (h_rt h) u
  | Done (Err (RunEvents e), h') =>
      ∃ net st, cli_network render key default config = Done net ∧
        Ipfs_new (MkIpfsConfig S (cli_storage config) net) h = Done (Ok st, h') ∧
        (open_events await (st_ipfs st)).1 = Err e
  | Done (Ok (n, events, st), h') =>
      cc_bootstrap config = [] ∧
      ∃ net n0, cli_network render key default config = Done net ∧
        Ipfs_new (MkIpfsConfig S (cli_storage config) net) h = Done (Ok st, h') ∧
        open_events await (st_ipfs st) = (Ok events, n0) ∧
        asked n0 n ((pair true <$> cc_listen_on config) ++
          ((λ a, (false, normalize_addr a (c_peer_id (network n0)))) <$> cc_external config))
  end.
Proof.
  unfold run_start. destruct (cli_network render key default config) as [net|] eqn:En; cbn.
  2: { left. unfold cli_network in En. by destruct (nc_identify default). }
  destruct (Ipfs_new _ h) as [[[st|e] h']|] eqn:E; cbn.
  - destruct (open_events await (st_ipfs st)) as [[events|e] n0] eqn:Ee; cbn;
      [|exists net, st; by rewrite Ee].
    case_bool_decide as Hb; [|by right; right]. split; [done|].
    exists net, n0. split_and!; [done..|]. eapply asked_trans; [apply listen_all_asked|].
    pose proof (listen_all_asked (cc_listen_on config) n0) as (_ & <- & _).
    apply external_all_asked.
  - intros u. by eapply Ipfs_new_Err.
  - right; left. apply Ipfs_new_Panicked in E. cbn in E. rewrite <- E. f_equal.
    unfold cli_network in En. destruct (nc_identify default); [|done]. by injection En as <-.
Qed.
