(* ===== verification/LockUse.v ===== *)
(** * How the program uses its locks

    For every operation of the address book, of the swarm task, of the client handles,
    of the storage and of the command line tool, the sequence in which it acquires and
    releases locks, as a function of the same arguments and state.  A guard that is a
    temporary is released at the end of its statement, a named guard where it is dropped
    or goes out of scope.  All sequences are ordered, so threads that run them in any
    number and interleaving exclude each other from what is written, never deadlock, and
    finish. *)

From S2P Require Import Prelude Libp2p Duration PeerInfo Locks AddressHandler Channel Peers.
From S2P Require Import PeersReach Ipld Behaviour Network NetworkService NetToy Cli.

Open Scope Z_scope.

(** A guard held while [body] runs. *)
Definition with_lock (l : lock) (m : mode) (body : list lock_op) : list lock_op :=
  Acq l m :: body ++ [Rel l].

Section book.
Context `{L : Libp2p, C : !Channels Event, F : !Fmt, E : Environment,
          O : HashOrder, P : Profile}.

(** ** The address book *)

Definition locks_dial_address (peer : PeerId) (s : State) : list lock_op :=
  if bool_decide (peer = local_peer_id (book s)) then []
  else with_lock PeersLock Exclusive [].

Definition locks_add_address (peer : PeerId) (address : Multiaddr) (s : State) : list lock_op :=
  if bool_decide (peer = local_peer_id (book s)) then []
  else if negb (enable_loopback (book s)) && is_loopback address then []
  else
    let address := match normalize_addr_ref address peer with
                   | inl _ => ma_pop address
                   | inr _ => address
                   end in
    with_lock PeersLock Shared [] ++ with_lock ListenersLock Shared [] ++
    if bool_decide (address ∈ listeners (book s)) then [] else with_lock PeersLock Exclusive [].

Definition locks_remove_address : list lock_op := with_lock PeersLock Exclusive [].

(** One shared guard for the loop over all peers, one exclusive guard per removal. *)
Definition locks_prune_peers (min_age : Duration) (s : State) : list lock_op :=
  let '(now, s) := utc_now s in
  let remove := (filter (λ x : PeerId * PeerInfo, keep_peer now min_age x.2 = false)
                        (hm_iter (peers (book s)))).*1 in
  with_lock PeersLock Shared [] ++ (remove ≫= λ _, with_lock PeersLock Exclusive []).

Definition locks_connection_closed : list lock_op := with_lock PeersLock Exclusive [].
Definition locks_set_rtt : list lock_op := with_lock PeersLock Exclusive [].

(** The listen addresses are looked up while the peers are locked. *)
Definition locks_set_info (peer : PeerId) (identify : IdentifyInfo) (s : State) : list lock_op :=
  with_lock PeersLock Exclusive
    match peers (book s) !! peer with
    | Some info =>
        match derived_addresses peer (enable_loopback (book s)) (with_identify identify info) with
        | Done translated => hs_iter translated ≫= λ _, with_lock ListenersLock Shared []
        | Panicked => []
        end
    | None => []
    end.

Definition locks_addresses_of_peer : list lock_op := with_lock PeersLock Shared [].

Definition locks_poll (s : State) : list lock_op :=
  if refresh_external (book s) then with_lock ExternalLock Exclusive [] else [].

Definition locks_connection_established (peer : PeerId) (conn : ConnectedPoint) (s : State)
    : list lock_op :=
  let conn := normalize_connected_point conn (local_peer_id (book s)) peer in
  locks_add_address peer (get_remote_address conn) s ++ with_lock PeersLock Exclusive [].

Definition locks_address_change (peer : PeerId) (new : ConnectedPoint) (s : State)
    : list lock_op :=
  let new := normalize_connected_point new (local_peer_id (book s)) peer in
  locks_add_address peer (get_remote_address new) s ++ with_lock PeersLock Exclusive [].

Definition locks_dial_failure (peer_id : option PeerId) (handler : IntoAddressHandler)
    : list lock_op :=
  match handler_peer_id handler, peer_id with
  | None, None => []
  | _, _ => with_lock PeersLock Exclusive []
  end.

(** [inject_new_listen_addr], [inject_expired_listen_addr]. *)
Definition locks_listen_addr : list lock_op := with_lock ListenersLock Exclusive [].
End book.

Section task.
Context `{L : Libp2p, I : Ipld, N : !Protocols, CE : !Channels Event,
          CG : !Channels GossipEvent, CS : !Channels SyncEvent, CL : !Channels ListenerEvent,
          F : !Fmt, E : Environment, O : HashOrder, P : Profile}.

(** ** The swarm task *)

(** A loop over [xs] whose body is [f] and locks as [locks] says. *)
Fixpoint locks_loop {A} (locks : A → Net → list lock_op) (f : Net → A → outcome Net)
    (xs : list A) (n : Net) : list lock_op :=
  match xs with
  | [] => []
  | x :: xs =>
      locks x n ++ match f n x with Done n => locks_loop locks f xs n | Panicked => [] end
  end.

Definition locks_net_add_address (x : PeerId * Multiaddr) (n : Net) : list lock_op :=
  locks_add_address x.1 x.2 (peers_st n).

(** The bootstrap flag is read before and written after the event is handled. *)
Definition locks_kad_event (e : KademliaEvent) (n : Net) : list lock_op :=
  with_lock BootstrappedLock Shared [] ++
  if bool_decide (bootstrapped (inject_kad_event e n) = bootstrapped n) then []
  else with_lock BootstrappedLock Exclusive [].

Definition locks_swarm_event (e : SwarmEvent) (n : Net) : list lock_op :=
  match e with
  | SwConnectionClosed _ _ _ _ => locks_connection_closed
  | SwBehaviour (EvKad e) => locks_kad_event e n
  | SwBehaviour (EvMdns (MdnsDiscovered found)) =>
      locks_loop locks_net_add_address (λ n '(p, addr), net_add_address p addr Mdns n) found n
  | SwBehaviour (EvPing _ (PingOk _ | PingTimeout | PingFailed)) => locks_set_rtt
  | SwBehaviour (EvIdentify (IdReceived p info)) => locks_set_info p info (peers_st n)
  | _ => []
  end.

Definition locks_command (c : NetworkCommand) (n : Net) : list lock_op :=
  match c with
  | AddAddress p addr => locks_add_address p addr (peers_st n)
  | RemoveAddress _ _ => locks_remove_address
  | PrunePeers min_age => locks_prune_peers min_age (peers_st n)
  | DialAddress p _ => locks_dial_address p (peers_st n)
  | Bootstrap initial _ => locks_loop locks_net_add_address bootstrap_peer initial n
  | Providers _ _ | Provide _ _ | GetRecord _ _ _ | PutRecord _ _ _ =>
      with_lock BootstrappedLock Shared []
  | _ => []
  end.
End task.

(** ** Clients, storage and the command line tool *)

(** [Reader::project], [get], [get_cloned]. *)
Definition locks_reader (l : lock) : list lock_op := with_lock l Shared [].

(** [StorageService::rw], one round of [evict] or of the collector, [flush], [collect]. *)
Definition locks_storage : list lock_op := with_lock StoreMutex Exclusive [].

(** [Store::temp_pin] for [Ipfs]: the pin is locked while the storage is. *)
Definition locks_temp_pin : list lock_op := with_lock PinMutex Exclusive locks_storage.

Section tool.
Context `{L : Libp2p, I : Ipld}.

(** The arms of the main loop: the node is locked while its method runs; the blocking
    task that flushes takes the storage by itself. *)
Definition locks_main (c : Command) : list lock_op :=
  match c with
  | CmdAddAddress _ _ | CmdDialPeer _ | CmdPrunePeers => with_lock NodeMutex Exclusive []
  | CmdGet _ | CmdInsert _ | CmdAlias _ _ => with_lock NodeMutex Exclusive locks_storage
  | CmdFlush => with_lock NodeMutex Exclusive []
  | CmdSync _ =>
      with_lock NodeMutex Exclusive (locks_reader PeersLock) ++
      with_lock NodeMutex Exclusive locks_storage
  end.

(** The task that reports events: the node is asked for the information on a peer. *)
Definition locks_report (e : Event) : list lock_op :=
  match e with
  | NewInfo _ => with_lock NodeMutex Exclusive (locks_reader PeersLock)
  | _ => []
  end.
End tool.

(** ** Everything a thread may run *)
Section activities.
Context `{L : Libp2p, I : Ipld, N : !Protocols, CE : !Channels Event,
          CG : !Channels GossipEvent, CS : !Channels SyncEvent, CL : !Channels ListenerEvent,
          F : !Fmt, E : Environment, O : HashOrder, P : Profile}.

Inductive activity : Type :=
| ASwarmEvent (e : SwarmEvent) (n : Net)
| ACommand (c : NetworkCommand) (n : Net)
| AEstablished (p : PeerId) (cp : ConnectedPoint) (s : State)
| AAddressChange (p : PeerId) (cp : ConnectedPoint) (s : State)
| ADialFailure (p : option PeerId) (h : IntoAddressHandler)
| AListenAddr
| AAddressesOfPeer
| APoll (s : State)
| AReader (l : lock)
| AStorage
| ATempPin
| AMain (c : Command)
| AReport (e : Event).

Definition locks_of (a : activity) : list lock_op :=
  match a with
  | ASwarmEvent e n => locks_swarm_event e n
  | ACommand c n => locks_command c n
  | AEstablished p cp s => locks_connection_established p cp s
  | AAddressChange p cp s => locks_address_change p cp s
  | ADialFailure p h => locks_dial_failure p h
  | AListenAddr => locks_listen_addr
  | AAddressesOfPeer => locks_addresses_of_peer
  | APoll s => locks_poll s
  | AReader l => locks_reader l
  | AStorage => locks_storage
  | ATempPin => locks_temp_pin
  | AMain c => locks_main c
  | AReport e => locks_report e
  end.

(** A thread that is about to run some activities in order. *)
Definition start_thread (acts : list activity) : thread :=
  MkThread (concat (locks_of <$> acts)) [].

(** *** All of them are ordered *)

Lemma ordered_with_lock l m : ordered [] (with_lock l m []) = true.
Proof. by destruct l. Qed.

Lemma ordered_bind {A} (xs : list A) p : ordered [] p = true → ordered [] (xs ≫= λ _, p) = true.
Proof. intros Hp. induction xs; [done|]. by apply ordered_app. Qed.

Lemma ordered_add_address p a (s : State) : ordered [] (locks_add_address p a s) = true.
Proof.
  unfold locks_add_address. case_bool_decide; [done|]. destruct (_ && _); [done|].
  by case_bool_decide.
Qed.

Lemma ordered_loop {A} locks (f : Net → A → outcome Net) xs n :
  (∀ x n, ordered [] (locks x n) = true) → ordered [] (locks_loop locks f xs n) = true.
Proof.
  intros Hl. revert n. induction xs as [|x xs IH]; intros n; [done|]. cbn.
  apply ordered_app; [done|]. by destruct (f n x).
Qed.

(** While the peers are locked, listen addresses may be looked up. *)
Lemma ordered_nested {A} (xs : list A) :
  ordered [] (with_lock PeersLock Exclusive (xs ≫= λ _, with_lock ListenersLock Shared [])) = true.
Proof.
  unfold with_lock at 1. cbn [ordered forallb andb]. induction xs as [|x xs IH]; [done|]. exact IH.
Qed.

Lemma ordered_set_info p i (s : State) : ordered [] (locks_set_info p i s) = true.
Proof.
  unfold locks_set_info. destruct (peers (book s) !! p); [|done].
  destruct (derived_addresses _ _ _); [|done]. apply ordered_nested.
Qed.

Lemma ordered_prune d (s : State) : ordered [] (locks_prune_peers d s) = true.
Proof.
  unfold locks_prune_peers. destruct (utc_now s). apply ordered_app; [done|].
  by apply ordered_bind.
Qed.

Lemma ordered_swarm_event e n : ordered [] (locks_swarm_event e n) = true.
Proof.
  destruct e as [?|[e|[]|? []|[]| | |]|]; try done; cbn [locks_swarm_event].
  - unfold locks_kad_event. by case_bool_decide.
  - apply ordered_loop. intros. apply ordered_add_address.
  - apply ordered_set_info.
Qed.

Lemma ordered_command c n : ordered [] (locks_command c n) = true.
Proof.
  destruct c; try done; cbn [locks_command].
  - apply ordered_add_address.
  - apply ordered_prune.
  - unfold locks_dial_address. by case_bool_decide.
  - apply ordered_loop. intros. apply ordered_add_address.
Qed.

Lemma ordered_activity a : ordered [] (locks_of a) = true.
Proof.
  destruct a; cbn [locks_of]; try done.
  - apply ordered_swarm_event.
  - apply ordered_command.
  - apply ordered_app; [apply ordered_add_address | done].
  - apply ordered_app; [apply ordered_add_address | done].
  - unfold locks_dial_failure. by destruct (handler_peer_id h), p.
  - unfold locks_poll. by destruct (refresh_external _).
  - apply ordered_with_lock.
  - by destruct c.
  - by destruct e.
Qed.

Lemma start_disciplined ass : Forall disciplined (start_thread <$> ass).
Proof.
  apply Forall_fmap, Forall_forall. intros acts _. unfold disciplined. cbn.
  apply ordered_concat, Forall_fmap, Forall_forall. intros a _. apply ordered_activity.
Qed.
End activities.

(** C16: no deadlocks: let any number of threads run any activities of the program - events
    and commands in the swarm task, reads of clients, storage transactions, the loops of
    the command line tool - interleaved in any way.  In every reachable state nobody holds
    a lock that another thread holds exclusively, either all threads are finished and
    hold nothing or some thread can continue, and no interleaving takes more steps than
    there are lock operations. *)
Theorem locks_never_deadlock `{L : Libp2p, I : Ipld, N : !Protocols, CE : !Channels Event,
    CG : !Channels GossipEvent, CS : !Channels SyncEvent, CL : !Channels ListenerEvent,
    F : !Fmt, E : Environment, O : HashOrder, P : Profile}
    (ass : list (list activity)) k ts :
  nsteps sched k (start_thread <$> ass) ts →
  exclusive ts ∧ (Forall finished ts ∨ ∃ ts', sched ts ts') ∧
  (k + remaining ts = remaining (start_thread <$> ass))%nat.
Proof.
  assert (∀ ts0, Forall disciplined ts0 → exclusive ts0 → nsteps sched k ts0 ts →
    Forall disciplined ts ∧ exclusive ts ∧ (k + remaining ts = remaining ts0)%nat) as Hrun.
  { induction k as [|k IH]; intros ts0 Hd He Hr; inversion Hr as [|? ? y ? [i Hi] Hr']; subst.
    - by split_and!.
    - apply IH in Hr' as (Hd' & He' & Hk);
        [|by eapply disciplined_step | by eapply exclusive_step].
      apply step_remaining in Hi. split_and!; [done..|]. cbn. by rewrite Hk. }
  intros Hr. apply Hrun in Hr as (Hd & He & Hk); [|apply start_disciplined|].
  - split_and!; [done | by apply disciplined_progress | done].
  - intros i j t u l Hi _ _ Hl. apply list_lookup_fmap_Some in Hi as (acts & -> & _).
    by apply elem_of_nil in Hl.
Qed.

(** The swarm task handles an identify message while the tool asks for the information
    on that peer. *)
Definition net4 : Net := set_peers_st (λ _, run4) net0.
Definition busy : list (list activity) :=
  [[ASwarmEvent (SwBehaviour (EvIdentify (IdReceived peer_b info_b))) net4];
   [AReport (NewInfo peer_b)]].

Lemma locks_never_deadlock_witness :
  ∃ ts, nsteps sched 1 (start_thread <$> busy) ts ∧
    exclusive ts ∧ (Forall finished ts ∨ ∃ ts', sched ts ts').
Proof.
  assert (∃ ts, nsteps sched 1 (start_thread <$> busy) ts) as [ts Hr].
  { eexists. eapply nsteps_l; [|apply nsteps_O]. exists 1%nat. reflexivity. }
  exists ts. split; [exact Hr|].
  by destruct (locks_never_deadlock busy 1 ts Hr) as (He & Hp & _).
Defined.
