(* ===== verification/Netsim.v ===== *)
(** * Simulations: what a script does to simulated machines

    The programs under [harness/src/bin/] drive command line nodes on machines of the
    crate [netsim_embed].  The simulator is a parameter: commands can be sent to a
    machine, and one can wait for an event a machine prints.  A script is a function
    on the simulator that may panic, or may still be waiting. *)

From S2P Require Import Prelude Libp2p Duration PeerInfo AddressHandler Channel Peers Ipld.
From S2P Require Import Behaviour Network NetworkService NetToy Config Text Cli Harness.

Open Scope Z_scope.

(** What waiting for an event ends with: an event that was looked for, the end of the
    machine's output, or the time-out. *)
Inductive selected (V : Type) : Type :=
| Found (v : V)
| Ended
| TimedOut.
Arguments Found {_} _.
Arguments Ended {_}.
Arguments TimedOut {_}.

(** ** The simulator *)
Class Netsim `{L : Libp2p, I : Ipld} := {
  Sim : Type;
  (** The machines, the configurations they were started with, the commands sent to one
      and the events it has printed so far, whether its output is closed, and the clock. *)
  sim_machines : Sim → list Machine;
  sim_configs : Sim → list CliConfig;
  sim_sent : Sim → nat → list Command;
  sim_printed : Sim → nat → list CliEvent;
  sim_ended : Sim → nat → bool;
  sim_now : Sim → Z;
  (** [Machine::send]; [Machine::select] and [select_draining], which differ in what
      happens to the events passed over; [drain] and [drain_matching]; [down]. *)
  sim_send : nat → Command → Sim → Sim;
  sim_select {V : Type} : bool → nat → (CliEvent → option V) → option Duration → Sim →
                          selected V * Sim;
  sim_drain : nat → (CliEvent → bool) → Sim → Sim;
  sim_down : nat → Sim → Sim;
  (** [Netsim::new] with its first network; [spawn_machine], with the delay of the
      machine's wire, and [plug] into one of two networks. *)
  sim_new : Sim;
  sim_spawn : CliConfig → option Duration → bool → Sim → Sim;
  (** [add_nat_route], with the ports it forwards. *)
  sim_nat : list (Z * (Z * Z)) → Sim → Sim;
  (** No machine and nothing that was sent or printed is forgotten. *)
  sim_extends : Sim → Sim → Prop;
  extends_preorder :: PreOrder sim_extends;
  extends_machines s s' : sim_extends s s' → sim_machines s `prefix_of` sim_machines s';
  extends_sent s s' m c : sim_extends s s' → c ∈ sim_sent s m → c ∈ sim_sent s' m;
  extends_printed s s' m e : sim_extends s s' → e ∈ sim_printed s m → e ∈ sim_printed s' m;
  extends_ended s s' m : sim_extends s s' → sim_ended s m = true → sim_ended s' m = true;
  send_extends m c s : sim_extends s (sim_send m c s);
  send_sent m c s : c ∈ sim_sent (sim_send m c s) m;
  select_extends {V} dr m (f : CliEvent → option V) d s : sim_extends s (sim_select dr m f d s).2;
  select_found {V} dr m (f : CliEvent → option V) d s v :
    (sim_select dr m f d s).1 = Found v →
    ∃ e, e ∈ sim_printed (sim_select dr m f d s).2 m ∧ f e = Some v;
  select_ended {V} dr m (f : CliEvent → option V) d s :
    (sim_select dr m f d s).1 = Ended → sim_ended (sim_select dr m f d s).2 m = true;
  drain_extends m p s : sim_extends s (sim_drain m p s);
  down_extends m s : sim_extends s (sim_down m s);
  spawn_extends c d b s : sim_extends s (sim_spawn c d b s);
  (** Machines are numbered in the order they are started in. *)
  new_machines : sim_machines sim_new = [] ∧ sim_configs sim_new = [];
  spawn_machines c d b s :
    ∃ m, sim_machines (sim_spawn c d b s) = sim_machines s ++ [m] ∧
         machine_id m = length (sim_machines s);
  spawn_configs c d b s : sim_configs (sim_spawn c d b s) = sim_configs s ++ [c];
  nat_extends ports s : sim_extends s (sim_nat ports s);
}.

(** ** Scripts *)
Section scripts.
Context `{L : Libp2p, I : Ipld, M : !Netsim}.
Implicit Types (s : Sim).

(** The result of a script, [None] while it is waiting, and the simulator. *)
Definition script (A : Type) : Type := Sim → outcome (option A * Sim).

Definition ret {A} (a : A) : script A := λ s, Done (Some a, s).
Definition bind {A B} (m : script A) (k : A → script B) : script B := λ s,
  match m s with
  | Done (Some a, s) => k a s
  | Done (None, s) => Done (None, s)
  | Panicked => Panicked
  end.
Definition lift {A} (o : outcome A) : script A := λ s,
  match o with Done a => Done (Some a, s) | Panicked => Panicked end.
Definition waiting {A} : script A := λ s, Done (None, s).

(** A [for] loop. *)
Fixpoint for_each {A} (l : list A) (body : A → script ()) : script () :=
  match l with [] => ret () | x :: l => bind (body x) (λ _, for_each l body) end.

Definition spawn_node (c : CliConfig) (delay : option Duration) (other : bool) : script () := λ s,
  Done (Some (), sim_spawn c delay other s).
Definition send_cmd (m : nat) (c : Command) : script () := λ s, Done (Some (), sim_send m c s).
Definition drain (m : nat) (p : CliEvent → bool) : script () := λ s,
  Done (Some (), sim_drain m p s).
Definition down (m : nat) : script () := λ s, Done (Some (), sim_down m s).
Definition machines : script (list Machine) := λ s, Done (Some (sim_machines s), s).

(** [Instant::now]. *)
Definition now : script Z := λ s, Done (Some (sim_now s), s).

(** [.timeout(d).await.unwrap()] and [.deadline(started, d).await.unwrap()]: a time-out
    panics; whether an event was found is still open. *)
Definition select_timeout {V} (draining : bool) (m : nat) (f : CliEvent → option V) (d : Duration)
    : script (option V) := λ s,
  match sim_select draining m f (Some d) s with
  | (Found v, s) => Done (Some (Some v), s)
  | (Ended, s) => Done (Some None, s)
  | (TimedOut, _) => Panicked
  end.
Definition select_deadline {V} (draining : bool) (m : nat) (f : CliEvent → option V)
    (started : Z) (d : Z) : script (option V) := λ s,
  match deadline_duration (diff_time started (sim_now s)) d with
  | Done d => select_timeout draining m f d s
  | Panicked => Panicked
  end.

(** The second [unwrap]. *)
Definition expect {A} (m : script (option A)) : script A :=
  bind m (λ o, lift (unwrap o)).

(** [Machine::recv] with [.timeout(d).await.unwrap()], or without a time limit. *)
Definition recv_timeout (m : nat) (d : Duration) : script (option CliEvent) :=
  select_timeout true m Some d.
Definition recv (m : nat) : script (option CliEvent) := λ s,
  match sim_select true m Some None s with
  | (Found e, s) => Done (Some (Some e), s)
  | (Ended, s) => Done (Some None, s)
  | (TimedOut, s) => Done (None, s)
  end.

(** ** What the success of a script shows *)

(** If the script succeeds in [s], with the result [a], then [Q a] holds afterwards. *)
Definition shows {A} (P : Sim → Prop) (m : script A) (Q : A → Sim → Prop) : Prop :=
  ∀ s a s', P s → m s = Done (Some a, s') → Q a s' ∧ sim_extends s s'.

(** Facts about what was sent and printed stay true. *)
Definition stable (P : Sim → Prop) : Prop := ∀ s s', sim_extends s s' → P s → P s'.

(** A machine printed an event that [f] accepts, or its output is closed. *)
Definition saw {V} (m : nat) (f : CliEvent → option V) s : Prop :=
  (∃ e v, e ∈ sim_printed s m ∧ f e = Some v) ∨ sim_ended s m = true.
Definition sent (m : nat) (c : Command) s : Prop := c ∈ sim_sent s m.

Lemma saw_stable {V} m (f : CliEvent → option V) : stable (saw m f).
Proof.
  intros s s' Hs [(e & v & He & Hf)|He]; [left; exists e, v | right].
  - split; [|done]. by eapply extends_printed.
  - by eapply extends_ended.
Qed.

Lemma sent_stable m c : stable (sent m c).
Proof. intros s s' Hs. by apply extends_sent. Qed.

Lemma and_stable P1 P2 : stable P1 → stable P2 → stable (λ s, P1 s ∧ P2 s).
Proof. intros H1 H2 s s' Hs [??]. split; [by eapply H1 | by eapply H2]. Qed.

Lemma all_stable {A} (P : A → Sim → Prop) : (∀ x, stable (P x)) → stable (λ s, ∀ x, P x s).
Proof. intros H s s' Hs Ha x. by eapply H. Qed.

Lemma imp_stable (X : Prop) P : stable P → stable (λ s, X → P s).
Proof. intros H s s' Hs Ha x. eapply H; eauto. Qed.

Lemma true_stable : stable (λ _, True).
Proof. done. Qed.

Lemma shows_conseq {A} P P' (m : script A) Q Q' :
  shows P' m Q' → (∀ s, P s → P' s) → (∀ a s, Q' a s → Q a s) → shows P m Q.
Proof. intros H Hp Hq s a s' HP Hm. destruct (H s a s' (Hp _ HP) Hm). auto. Qed.

Lemma shows_post {A} P (m : script A) Q Q' :
  shows P m Q' → (∀ a s, Q' a s → Q a s) → shows P m Q.
Proof. intros H Hq. by eapply shows_conseq. Qed.

Lemma shows_ret {A} P (a : A) : shows P (ret a) (λ a' s, a' = a ∧ P s).
Proof. intros s a' s' HP [= <- <-]. done. Qed.

Lemma shows_lift {A} P (o : outcome A) : shows P (lift o) (λ a s, o = Done a ∧ P s).
Proof. intros s a s' HP. unfold lift. destruct o; [|done]. by intros [= <- <-]. Qed.

Lemma shows_bind {A B} P (m : script A) (k : A → script B) Q R :
  shows P m Q → (∀ a, shows (Q a) (k a) R) → shows P (bind m k) R.
Proof.
  intros Hm Hk s b s' HP. unfold bind. destruct (m s) as [[[a|] s1]|] eqn:E; try done.
  destruct (Hm _ _ _ HP E) as [HQ He]. intros Hr. destruct (Hk a _ _ _ HQ Hr) as [HR He'].
  split; [done | by etrans].
Qed.

(** Something known before stays known, if it is stable. *)
Lemma shows_frame {A} P (m : script A) Q F :
  stable F → shows P m Q → shows (λ s, P s ∧ F s) m (λ a s, Q a s ∧ F s).
Proof.
  intros HF Hm s a s' [HP Hf] E. destruct (Hm _ _ _ HP E) as [HQ He].
  split; [|done]. split; [done | by eapply HF].
Qed.

Lemma shows_for_each {A} P (l : list A) body (Q : A → Sim → Prop) :
  stable P → (∀ x, stable (Q x)) → (∀ x, x ∈ l → shows P (body x) (λ _, Q x)) →
  shows P (for_each l body) (λ _ s, P s ∧ ∀ x, x ∈ l → Q x s).
Proof.
  intros HP HQ. induction l as [|x l IH]; intros Hb; cbn.
  { intros s a s' Hs [= <- <-]. split; [|done]. split; [done|]. by intros ? ?%not_elem_of_nil. }
  eapply shows_bind with (Q := λ _ s, P s ∧ Q x s).
  - intros s a s' Hs E. destruct (Hb x (list_elem_of_here _ _) _ _ _ Hs E) as [Hq He].
    split; [|done]. split; [by eapply HP | done].
  - intros _. eapply shows_conseq; [apply (shows_frame P _ (λ _ s, P s ∧ ∀ y, y ∈ l → Q y s) (Q x))| |].
    + apply HQ.
    + apply IH. intros y Hy. apply Hb. by right.
    + done.
    + intros _ s [[Hs Hl] Hx]. split; [done|]. intros y [->|Hy]%elem_of_cons; auto.
Qed.
End scripts.

(** *** What the single operations show *)
Section operations.
Context `{L : Libp2p, I : Ipld, M : !Netsim}.
Implicit Types (P : Sim → Prop).

Lemma shows_send P m c : stable P → shows P (send_cmd m c) (λ _ s, P s ∧ sent m c s).
Proof.
  intros HP s a s' Hs [= <- <-]. split; [|apply send_extends].
  split; [eapply HP; [apply send_extends | done] | apply send_sent].
Qed.

Lemma shows_sending P m c : stable P → shows P (send_cmd m c) (λ _, P).
Proof. intros HP. eapply shows_post; [by apply shows_send|]. by intros a s [? _]. Qed.

(** Waiting succeeds with an event that was printed, or because the output is closed. *)
Definition outcome_of {V} (m : nat) (f : CliEvent → option V) (o : option V) (s : Sim) : Prop :=
  match o with
  | Some v => ∃ e, e ∈ sim_printed s m ∧ f e = Some v
  | None => sim_ended s m = true
  end.

Lemma outcome_saw {V} m (f : CliEvent → option V) o s : outcome_of m f o s → saw m f s.
Proof. destruct o; [intros (e & ? & ?); left; eauto | by right]. Qed.

Lemma outcome_stable {V} m (f : CliEvent → option V) o : stable (outcome_of m f o).
Proof.
  intros s s' Hs. destruct o; cbn.
  - intros (e & He & Hf). exists e. split; [|done]. by eapply extends_printed.
  - by apply extends_ended.
Qed.

Lemma shows_select P {V} dr m (f : CliEvent → option V) d :
  stable P → shows P (select_timeout dr m f d) (λ o s, P s ∧ outcome_of m f o s).
Proof.
  intros HP s a s' Hs. unfold select_timeout.
  pose proof (select_extends dr m f (Some d) s) as He. pose proof (select_found dr m f (Some d) s) as Hf.
  pose proof (select_ended dr m f (Some d) s) as Hn.
  destruct (sim_select dr m f (Some d) s) as [[v| |] s1]; cbn in *; [| |done];
    intros [= <- <-]; (split; [|done]); (split; [by eapply HP|]); cbn; auto.
Qed.

Lemma shows_deadline P {V} dr m (f : CliEvent → option V) started d :
  stable P → shows P (select_deadline dr m f started d) (λ o s, P s ∧ outcome_of m f o s).
Proof.
  intros HP s a s' Hs. unfold select_deadline. destruct (deadline_duration _ _); [|done].
  by apply shows_select.
Qed.

Lemma shows_recv P m : stable P → shows P (recv m) (λ o s, P s ∧ outcome_of m Some o s).
Proof.
  intros HP s a s' Hs. unfold recv.
  pose proof (select_extends true m Some None s) as He. pose proof (select_found true m Some None s) as Hf.
  pose proof (select_ended true m Some None s) as Hn.
  destruct (sim_select true m Some None s) as [[v| |] s1]; cbn in *; [| |done];
    intros [= <- <-]; (split; [|done]); (split; [by eapply HP|]); cbn; auto.
Qed.

Lemma shows_expect {A} P (m : script (option A)) Q :
  shows P m Q → shows P (expect m) (λ a s, Q (Some a) s).
Proof.
  intros Hm. eapply shows_bind; [exact Hm|]. intros o s a s' HQ. unfold lift.
  destruct o; cbn; [|done]. by intros [= <- <-].
Qed.

Lemma shows_now P : shows P now (λ _, P).
Proof. by intros s a s' Hs [= <- <-]. Qed.
Lemma shows_machines P : shows P machines (λ _, P).
Proof. by intros s a s' Hs [= <- <-]. Qed.
Lemma shows_drain P m p : stable P → shows P (drain m p) (λ _, P).
Proof.
  intros HP s a s' Hs [= <- <-]. split; [|apply drain_extends].
  eapply HP; [apply drain_extends | done].
Qed.
Lemma shows_down P m : stable P → shows P (down m) (λ _, P).
Proof.
  intros HP s a s' Hs [= <- <-]. split; [|apply down_extends].
  eapply HP; [apply down_extends | done].
Qed.
End operations.
