(* ===== verification/Simulations.v ===== *)
(** * The simulations: [harness/src/bin/]

    [sim_open.rs], [discover_plain.rs], [discover_nat.rs], [discover_nat_forward.rs] and
    [bitswap.rs] as scripts, and what it shows that one of them succeeds. *)

From S2P Require Import Prelude Libp2p Duration PeerInfo AddressHandler Channel Peers Ipld.
From S2P Require Import Behaviour Network NetworkService NetToy Config Text Cli Harness Netsim.

Open Scope Z_scope.

Declare Scope sim_scope.
Delimit Scope sim_scope with sim.
Notation "x <~ m ; k" := (bind m (λ x, k))
  (at level 20, m at level 100, k at level 200, right associativity) : sim_scope.
Notation "m ;; k" := (bind m (λ _, k)) (at level 100, right associativity) : sim_scope.
Open Scope sim_scope.

Section simulations.
Context `{L : Libp2p, I : Ipld, M : !Netsim, HO : HashOrder, P : Profile}.
Context (peer_id : Z → PeerId) (tcp_addr : Z → Multiaddr).

(** Ignore whether an event was found. *)
Definition ignore {A} (m : script A) : script () := m ;; ret ().

(** The keys and the values of a table of nodes, in its order of iteration. *)
Definition ids (t : gmap nat (PeerId * Multiaddr)) : list nat := (hm_iter t).*1.
Definition values (t : gmap nat (PeerId * Multiaddr)) : list (PeerId * Multiaddr) := (hm_iter t).*2.

(** ** The events waited for *)

(** [matches!(e, Event::NewListenAddr(a) if !a.is_loopback())]. *)
Definition listening (e : CliEvent) : option () :=
  match e with
  | EvNewListenAddr a => if harness_is_loopback a then None else Some ()
  | _ => None
  end.

(** [Event::PeerInfo(p, i) if p == peer && i.addresses == addresses]. *)
Definition knows (peer : PeerId) (addresses : gmap Multiaddr string) (e : CliEvent) : option () :=
  match e with
  | EvPeerInfo p i => if bool_decide (p = peer ∧ io_addresses i = addresses) then Some () else None
  | _ => None
  end.

(** ** [run_netsim] *)

(** The loop that starts the nodes, each in the first network with its delay, given the
    configurations the loop computes. *)
Definition start_nodes (cfgs : outcome (list (CliConfig * Duration))) : script () :=
  cs <~ lift cfgs;
  for_each cs (λ c, spawn_node c.1 (Some c.2) false).

(** [run_netsim]: the nodes are started in a new simulator, then [f] runs. *)
Definition run_netsim {A} (render : Z → string) (path_join : string → string → string)
    (dir : string) (any : Multiaddr) (opts : HarnessOpts) (f : HarnessOpts → script A)
    : outcome (option A * Sim) :=
  (start_nodes (node_configs render path_join dir any opts (Z.to_nat (n_nodes opts)) 0) ;;
   f opts) sim_new.

(** ** [sim_open.rs] *)

(** [loop { if let Some(Event::NewListenAddr(addr)) = m.recv().await { .. break } }]. *)
Fixpoint wait_listening (fuel : nat) (m : nat) : script () :=
  match fuel with
  | O => waiting
  | S fuel =>
      e <~ recv m;
      match e with
      | Some (EvNewListenAddr a) =>
          if negb (harness_is_loopback a) then ret () else wait_listening fuel m
      | _ => wait_listening fuel m
      end
  end.

(** The loops that wait for the connection: [false] is the error "sim open failed". *)
Fixpoint wait_connected (fuel : nat) (m : nat) (peer : PeerId) : script bool :=
  match fuel with
  | O => waiting
  | S fuel =>
      e <~ recv m;
      match e with
      | Some (EvConnected id) =>
          if bool_decide (id = peer) then ret true else wait_connected fuel m peer
      | Some (EvUnreachable id) =>
          if bool_decide (id = peer) then ret false else wait_connected fuel m peer
      | _ => wait_connected fuel m peer
      end
  end.

Definition sim_open (fuel : nat) (cfg : Z → CliConfig) : script bool :=
  let wire := Some (from_millis 100) in
  spawn_node (cfg 0) wire false ;;
  spawn_node (cfg 1) wire false ;;
  ms <~ machines;
  a <~ lift (unwrap (ms !! 0%nat));
  b <~ lift (unwrap (ms !! 1%nat));
  let a_id := machine_peer_id peer_id a in
  let a_addr := machine_multiaddr tcp_addr a in
  let b_id := machine_peer_id peer_id b in
  let b_addr := machine_multiaddr tcp_addr b in
  wait_listening fuel (machine_id a) ;;
  wait_listening fuel (machine_id b) ;;
  send_cmd (machine_id a) (CmdAddAddress b_id b_addr) ;;
  send_cmd (machine_id b) (CmdAddAddress a_id a_addr) ;;
  send_cmd (machine_id a) (CmdDialPeer b_id) ;;
  send_cmd (machine_id b) (CmdDialPeer a_id) ;;
  ok <~ wait_connected fuel (machine_id a) b_id;
  if ok : bool then wait_connected fuel (machine_id b) a_id else ret false.

(** ** [discover_plain.rs] *)

(** Wait until all machines listen. *)
Definition all_listening (started : Z) (l : list nat) : script () :=
  for_each l (λ id, ignore (select_deadline false id listening started 5)).

(** Every consumer is told the address of every provider and dials it. *)
Definition dial_all (consumers providers : gmap nat (PeerId * Multiaddr)) : script () :=
  for_each (ids consumers) (λ id,
    for_each (values providers) (λ x,
      send_cmd id (CmdAddAddress x.1 x.2) ;; send_cmd id (CmdDialPeer x.1))).

(** Every machine of [from] knows every node of [to] by exactly its address. *)
Definition all_know (draining : bool) (started : Z) (expected : string)
    (from to : gmap nat (PeerId * Multiaddr)) : script () :=
  for_each (ids from) (λ id,
    for_each (values to) (λ x,
      ignore (select_deadline draining id (knows x.1 {[ x.2 := expected ]}) started 5))).

Definition discover_plain (opts : HarnessOpts) : script () :=
  ms <~ machines;
  providers <~ lift (role peer_id tcp_addr opts Provider ms);
  consumers <~ lift (role peer_id tcp_addr opts Consumer ms);
  started <~ now;
  all_listening started (ids providers ++ ids consumers) ;;
  dial_all consumers providers ;;
  started <~ now;
  all_know false started "Dial" consumers providers ;;
  all_know false started (if ho_disable_port_reuse opts then "Dial" else "Candidate")
    providers consumers.

(** ** [discover_nat.rs] *)

(** The consumers behind the NAT: nodes [n_nodes] to [2 * n_nodes], in the second network. *)
Definition nat_config (render : Z → string) (path_join : string → string → string)
    (dir : string) (any : Multiaddr) (opts : HarnessOpts) (i : Z) : CliConfig :=
  MkCliConfig (Some (path_join dir (render i))) (Some ("consumer-" +:+ render i)) i
    (ho_enable_mdns opts) [any] [] [] (ho_disable_port_reuse opts).

Definition spawn_consumers (cfg : Z → CliConfig) (opts : HarnessOpts) : script Z :=
  stop <~ lift (mul_u 64 2 (n_nodes opts));
  for_each (seqZ (n_nodes opts) (stop - n_nodes opts))
    (λ i, spawn_node (cfg i) None true) ;;
  ret stop.

(** [matches!(e, Event::PeerInfo(p, i) if p == peer && i.addresses.is_empty())]. *)
Definition without_addresses (peer : PeerId) (e : CliEvent) : option () := knows peer ∅ e.

(** The address of the connection is a candidate, or there are no addresses; panics when
    there is no connection. *)
Definition identified (peer : PeerId) (e : CliEvent) : option (outcome ()) :=
  match e with
  | EvPeerInfo p i =>
      if bool_decide (p = peer) then
        match io_connections i with
        | a :: _ =>
            if bool_decide (io_addresses i !! a = Some "Candidate" ∨ io_addresses i = ∅)
            then Some (Done ()) else None
        | [] => Some Panicked
        end
      else None
  | _ => None
  end.

Definition disconnected (peer : PeerId) (e : CliEvent) : option () :=
  match e with EvDisconnected p => if bool_decide (p = peer) then Some () else None | _ => None end.
Definition removed (peer : PeerId) (e : CliEvent) : option () :=
  match e with EvPeerRemoved p => if bool_decide (p = peer) then Some () else None | _ => None end.
Definition dial_failed (peer : PeerId) (e : CliEvent) : bool :=
  match e with
  | EvDialFailure p _ _ | EvUnreachable p => bool_decide (p = peer)
  | _ => false
  end.

(** Whether the peer is still known after a failed dial. *)
Definition still_alive (peer : PeerId) (e : CliEvent) : option bool :=
  if dial_failed peer e then Some true
  else match removed peer e with Some _ => Some false | None => None end.

(** Dial, and prune if the peer is still known, until it is removed. *)
Definition dial_and_forget (id : nat) (peer : PeerId) : script () :=
  send_cmd id (CmdDialPeer peer) ;;
  alive <~ expect (select_timeout false id (still_alive peer) (from_secs 10));
  if alive : bool then
    send_cmd id CmdPrunePeers ;;
    ignore (select_timeout false id (removed peer) (from_secs 10))
  else ret ().

(** A check whose closure may panic. *)
Definition checked_select (id : nat) (f : CliEvent → option (outcome ())) (started : Z) (d : Z)
    : script () :=
  o <~ select_deadline false id f started d;
  match o with Some r => lift r | None => ret () end.

(** For every provider and every consumer. *)
Definition for_pairs (providers consumers : gmap nat (PeerId * Multiaddr))
    (body : nat → nat → PeerId → script ()) : script () :=
  for_each (ids providers) (λ id,
    for_each (hm_iter consumers) (λ x, body id x.1 x.2.1)).

Definition all_events (e : CliEvent) : bool := true.

Definition discover_nat (cfg : Z → CliConfig) (opts : HarnessOpts) : script () :=
  (λ s, Done (Some (), sim_nat [] s)) ;;
  stop <~ spawn_consumers cfg opts;
  ms <~ machines;
  providers <~ lift (nodes peer_id tcp_addr 0 (n_nodes opts) ms);
  consumers <~ lift (nodes peer_id tcp_addr (n_nodes opts) stop ms);
  started <~ now;
  all_listening started (ids providers ++ ids consumers) ;;
  dial_all consumers providers ;;
  started <~ now;
  all_know true started "Dial" consumers providers ;;
  started <~ now;
  if ho_disable_port_reuse opts then
    for_pairs providers consumers (λ id _ peer,
      ignore (select_deadline false id (without_addresses peer) started 10))
  else
    for_each (ids providers) (λ id,
      for_each (hm_iter consumers) (λ x, checked_select id (identified x.2.1) started 10) ;;
      drain id all_events) ;;
    for_each (ids consumers) down ;;
    started <~ now;
    for_pairs providers consumers (λ id _ peer,
      ignore (select_deadline false id (disconnected peer) started 30) ;;
      drain id (dial_failed peer) ;;
      dial_and_forget id peer).

(** ** [discover_nat_forward.rs] *)

(** [sock_addr]; panics unless the address starts with an IPv4 address and a TCP port. *)
Definition sock_addr (m : Multiaddr) : outcome (Z * Z) :=
  match ma_iter m with
  | Ip4 ip :: Tcp port :: _ => Done (ip, port)
  | _ => Panicked
  end.

(** [a.replace(1, |_| Some(Protocol::Tcp(30000)))]. *)
Definition forwarded (a : Multiaddr) : option Multiaddr :=
  ma_replace a 1 (λ _, Some (Tcp 30000)).

(** The first connection of a peer, which must have one; [k] is what is made of it. *)
Definition first_connection {V} (peer : PeerId) (k : Multiaddr → option V) (e : CliEvent)
    : option (outcome V) :=
  match e with
  | EvPeerInfo p i =>
      if bool_decide (p = peer) then
        match io_connections i with
        | a :: _ => Done <$> k a
        | [] => Some Panicked
        end
      else None
  | _ => None
  end.

(** The check of a provider with port reuse.  The disjunct about missing addresses is
    outside the condition on the peer. *)
Definition nat_identified (peer : PeerId) (a_1 : Multiaddr) (a_nat : option Multiaddr)
    (e : CliEvent) : option () :=
  match e with
  | EvPeerInfo p i =>
      if bool_decide (p = peer) && bool_decide (io_addresses i !! a_1 = Some "Candidate") &&
         match a_nat with
         | Some a => bool_decide (io_addresses i !! a = Some "Dial")
         | None => true
         end
         || bool_decide (io_addresses i = ∅)
      then Some () else None
  | _ => None
  end.

(** The consumers go away; each provider sees every connection close, then dials and
    forgets them. *)
Definition falsify (providers consumers : gmap nat (PeerId * Multiaddr)) : script () :=
  for_each (ids consumers) down ;;
  started <~ now;
  for_each (ids providers) (λ id,
    for_each (hm_iter consumers) (λ x,
      ignore (select_deadline false id (disconnected x.2.1) started 30)) ;;
    drain id all_events) ;;
  for_pairs providers consumers (λ id _ peer, dial_and_forget id peer).

Definition discover_nat_forward (cfg : Z → CliConfig) (opts : HarnessOpts) : script () :=
  stop <~ spawn_consumers cfg opts;
  ms <~ machines;
  providers <~ lift (nodes peer_id tcp_addr 0 (n_nodes opts) ms);
  consumers <~ lift (nodes peer_id tcp_addr (n_nodes opts) stop ms);
  m_nat <~ lift (unwrap (machine_id <$> ms !! Z.to_nat (n_nodes opts)));
  target <~ lift (x ← unwrap (consumers !! m_nat); sock_addr x.2)%stdpp;
  (λ s, Done (Some (), sim_nat [(30000, target)] s)) ;;
  started <~ now;
  all_listening started (ids providers ++ ids consumers) ;;
  dial_all consumers providers ;;
  started <~ now;
  all_know false started "Dial" consumers providers ;;
  started <~ now;
  if ho_disable_port_reuse opts then
    for_pairs providers consumers (λ id m_id peer,
      if bool_decide (m_id = m_nat) then
        a <~ expect (select_deadline false id (first_connection peer forwarded) started 5);
        a_nat <~ lift a;
        ignore (select_deadline false id (knows peer {[ a_nat := "Dial" ]}) started 10)
      else ignore (select_deadline false id (without_addresses peer) started 10))
  else
    for_each (ids providers) (λ id,
      for_each (hm_iter consumers) (λ x,
        let peer := x.2.1 in
        a <~ expect (select_timeout false id (first_connection peer Some) (from_secs 1));
        a_1 <~ lift a;
        let a_nat := b ← forwarded a_1;
                     if bool_decide (x.1 = m_nat ∧ b ≠ a_1) then Some b else None in
        ignore (select_deadline false id (nat_identified peer a_1 a_nat) started 10)) ;;
      drain id all_events) ;;
    falsify providers consumers.

(** ** [bitswap.rs] *)
Context {C : Encoder} (block_eqb : Block → Block → bool).

Fixpoint wait_address (fuel : nat) (m : nat) : script Multiaddr :=
  match fuel with
  | O => waiting
  | S fuel =>
      e <~ recv_timeout m (from_secs 3);
      match e with
      | Some (EvNewListenAddr a) =>
          if negb (harness_is_loopback a) then ret a else wait_address fuel m
      | _ => wait_address fuel m
      end
  end.

(** The root is named, then the blocks are inserted from the root down. *)
Definition insert_dag (alias : string) (root : Cid) (blocks : list Block) (m : Machine)
    : script () :=
  send_cmd (machine_id m) (CmdAlias alias (Some root)) ;;
  for_each (rev blocks) (λ b, send_cmd (machine_id m) (CmdInsert b)).

(** [for i in 0..opts.n_spam]: unrelated blocks on every node. *)
Fixpoint spam (render : Z → string) (opts : HarnessOpts) (n : nat) (i : Z) (g : Rng)
    : script (result () EncodeError * Rng) :=
  match n with
  | O => ret (Ok (), g)
  | S n =>
      match build_tree (tree_width opts) (tree_depth opts) g with
      | (Err e, g) => ret (Err e, g)
      | (Ok (root, blocks), g) =>
          ms <~ machines;
          for_each ms (insert_dag ("passive-" +:+ render i) root blocks) ;;
          spam render opts n (i + 1) g
      end
  end.

Definition flushed (e : CliEvent) : option () :=
  match e with EvFlushed => Some () | _ => None end.
Definition synced (e : CliEvent) : option () :=
  match e with EvSynced => Some () | _ => None end.
Definition is_block (e : CliEvent) : option Block :=
  match e with EvBlock b => Some b | _ => None end.

(** Ask a node for a block and compare. *)
Definition check_block (started : Z) (m : Machine) (block : Block) : script () :=
  send_cmd (machine_id m) (CmdGet (block_cid block)) ;;
  data <~ expect (select_deadline true (machine_id m) is_block started 5);
  lift (if block_eqb data block then Done () else Panicked).

(** A consumer has synced, and is flushed. *)
Definition wait_synced (started : Z) (m : Machine) : script () :=
  expect (select_deadline true (machine_id m) synced started 20) ;;
  send_cmd (machine_id m) CmdFlush ;;
  expect (select_timeout true (machine_id m) flushed (from_secs 1)).

(** Once the test data has been built: provide, flush, sync and check. *)
Definition sync_dag (root : string) (cid : Cid) (blocks : list Block) (opts : HarnessOpts)
    (stop : Z) : script () :=
  ms <~ machines;
  providers <~ lift (slice 0 (n_providers opts) ms);
  for_each providers (insert_dag root cid blocks) ;;
  for_each ms (λ m, send_cmd (machine_id m) CmdFlush) ;;
  started <~ now;
  for_each ms (λ m, expect (select_deadline true (machine_id m) flushed started 10)) ;;
  consumers <~ lift (slice (n_providers opts) stop ms);
  for_each consumers (λ m,
    send_cmd (machine_id m) (CmdAlias root (Some cid)) ;;
    send_cmd (machine_id m) (CmdSync cid)) ;;
  started <~ now;
  for_each consumers (wait_synced started) ;;
  started <~ now;
  for_each consumers (λ m, for_each blocks (check_block started m)).

Definition bitswap_sim (fuel : nat) (render : Z → string) (root : string) (opts : HarnessOpts)
    (g : Rng) : script (result () EncodeError) :=
  stop <~ lift (add_u 64 (n_providers opts) (n_consumers opts));
  ms <~ machines;
  for_each ms (λ m, ignore (wait_address fuel (machine_id m))) ;;
  x <~ spam render opts (Z.to_nat (n_spam opts)) 0 g;
  match x with
  | (Err e, _) => ret (Err e)
  | (Ok _, g) =>
      match build_tree (tree_width opts) (tree_depth opts) g with
      | (Err e, _) => ret (Err e)
      | (Ok (cid, blocks), _) => sync_dag root cid blocks opts stop ;; ret (Ok ())
      end
  end.
End simulations.

(** ** What success shows *)
Section sound.
Context `{L : Libp2p, I : Ipld, M : !Netsim, HO : HashOrder, P : Profile}.
Implicit Types (F : Sim → Prop).

(** A loop over things that each establish a fact, starting from stable knowledge. *)
Lemma shows_all {A} F (l : list A) body (Q : A → Sim → Prop) :
  stable F → (∀ x, stable (Q x)) → (∀ x, x ∈ l → shows F (body x) (λ _ s, F s ∧ Q x s)) →
  shows F (for_each l body) (λ _ s, F s ∧ ∀ x, x ∈ l → Q x s).
Proof.
  intros HF HQ Hb. apply shows_for_each; [done..|]. intros x Hx.
  eapply shows_conseq; [by apply Hb|done|]. by intros _ s [_ ?].
Qed.

(** Steps one after the other accumulate stable knowledge. *)
Lemma shows_then {A B} F (m : script A) (k : A → script B) Q R :
  shows F m (λ a s, F s ∧ Q a s) → (∀ a, shows (λ s, F s ∧ Q a s) (k a) R) → shows F (bind m k) R.
Proof. apply shows_bind. Qed.

Lemma shows_ignore {A} F (m : script A) Q :
  shows F m (λ _ s, Q s) → shows F (ignore m) (λ _ s, Q s).
Proof.
  intros Hm. eapply shows_bind; [exact Hm|]. intros a s x s' HQ Hr.
  injection Hr as <- <-. done.
Qed.

Lemma shows_ignored_select F {V} dr m (f : CliEvent → option V) started d :
  stable F → shows F (ignore (select_deadline dr m f started d)) (λ _ s, F s ∧ saw m f s).
Proof.
  intros HF. apply shows_ignore. eapply shows_conseq; [by apply shows_deadline|done|].
  intros o s [? ?]. eauto using outcome_saw.
Qed.

Lemma shows_all_listening F started l :
  stable F → shows F (all_listening started l) (λ _ s, F s ∧ ∀ id, id ∈ l → saw id listening s).
Proof.
  intros HF. apply shows_all; [done|intros id; apply saw_stable|].
  intros id _. by apply shows_ignored_select.
Qed.

Lemma shows_all_know F dr started e from to :
  stable F →
  shows F (all_know dr started e from to) (λ _ s, F s ∧
    ∀ id, id ∈ ids from → ∀ x, x ∈ values to → saw id (knows x.1 {[ x.2 := e ]}) s).
Proof.
  intros HF. apply shows_all; [done| |].
  - intros id. apply all_stable. intros x. apply imp_stable, saw_stable.
  - intros id _. apply shows_all; [done|intros x; apply saw_stable|].
    intros x _. by apply shows_ignored_select.
Qed.

(** The commands of [dial_all]. *)
Definition told (consumers providers : gmap nat (PeerId * Multiaddr)) (s : Sim) : Prop :=
  ∀ id, id ∈ ids consumers → ∀ x, x ∈ values providers →
    sent id (CmdAddAddress x.1 x.2) s ∧ sent id (CmdDialPeer x.1) s.

Lemma told_stable consumers providers : stable (told consumers providers).
Proof.
  unfold told. apply all_stable. intros id. apply imp_stable, all_stable. intros x.
  apply imp_stable, and_stable; apply sent_stable.
Qed.

Lemma shows_dial_all F consumers providers :
  stable F →
  shows F (dial_all consumers providers) (λ _ s, F s ∧ told consumers providers s).
Proof.
  intros HF. apply shows_all; [done| |].
  - intros id. apply all_stable. intros x. apply imp_stable, and_stable; apply sent_stable.
  - intros id _. apply shows_all; [done|intros x; apply and_stable; apply sent_stable|].
    intros x _. eapply shows_then; [by apply shows_send|]. intros u.
    eapply shows_conseq.
    + apply (shows_send (λ s, F s ∧ sent id (CmdAddAddress x.1 x.2) s)).
      apply and_stable; [done | apply sent_stable].
    + done.
    + intros a s [[? ?] ?]. done.
Qed.

Lemma bind_success {A B} (m : script A) (k : A → script B) s b s' :
  bind m k s = Done (Some b, s') →
  ∃ a s1, m s = Done (Some a, s1) ∧ k a s1 = Done (Some b, s').
Proof. unfold bind. destruct (m s) as [[[a|] s1]|]; try done. eauto. Qed.

Lemma lift_success {A} (o : outcome A) s a s' :
  lift o s = Done (Some a, s') → o = Done a ∧ s' = s.
Proof. unfold lift. destruct o; [|done]. by intros [= <- <-]. Qed.

(** What starting the nodes adds: a machine per configuration, numbered on. *)
Lemma started_nodes (cs : list (CliConfig * Duration)) s u s' :
  for_each cs (λ c, spawn_node c.1 (Some c.2) false) s = Done (Some u, s') →
  machine_id <$> sim_machines s' =
    (machine_id <$> sim_machines s) ++ seq (length (sim_machines s)) (length cs) ∧
  sim_configs s' = sim_configs s ++ cs.*1.
Proof.
  revert s. induction cs as [|c cs IH]; intros s H; cbn in H.
  { injection H as <- <-. by rewrite !app_nil_r. }
  destruct (IH _ H) as [-> ->]. destruct (spawn_machines c.1 (Some c.2) false s) as (m & Hm & Hid).
  rewrite spawn_configs, Hm, fmap_app, length_app, <-!(assoc_L (++)), Nat.add_1_r. cbn.
  by rewrite Hid.
Qed.

(** The keys of the nodes are their numbers. *)
Lemma node_configs_keys render path_join dir any opts n i cs :
  node_configs render path_join dir any opts n i = Done cs → cc_keypair ∘ fst <$> cs = seqZ i (Z.of_nat n).
Proof.
  revert i cs. induction n as [|n IH]; intros i cs; cbn; [by intros [= <-]|].
  destruct (node_config _ _ _ _ _ i) as [c|] eqn:Ec; cbn; [|done].
  destruct (node_configs _ _ _ _ _ n _) as [cs'|] eqn:Es; cbn; [|done]. intros [= <-].
  rewrite seqZ_cons, fmap_cons by lia. f_equal.
  - unfold node_config in Ec. destruct (node_name _ _ _); cbn in Ec; [|done]. by injection Ec as <-.
  - rewrite (IH _ _ Es). f_equal; lia.
Qed.

(** Every machine of [from] knew every node of [to]. *)
Definition known (e : string) (from to : gmap nat (PeerId * Multiaddr)) (s : Sim) : Prop :=
  ∀ id, id ∈ ids from → ∀ x, x ∈ values to → saw id (knows x.1 {[ x.2 := e ]}) s.

Lemma known_stable e from to : stable (known e from to).
Proof.
  unfold known. apply all_stable. intros id. apply imp_stable, all_stable. intros x.
  apply imp_stable, saw_stable.
Qed.

(** The part of [discover_plain] after the roles are known. *)
Lemma plain_shows consumers providers started e :
  shows (λ _, True)
    (all_listening started (ids providers ++ ids consumers) ;;
     dial_all consumers providers ;;
     started <~ now;
     all_know false started "Dial" consumers providers ;;
     all_know false started e providers consumers)
    (λ _ s, told consumers providers s ∧ known "Dial" consumers providers s ∧
            known e providers consumers s).
Proof.
  eapply shows_bind; [apply (shows_all_listening (λ _, True)), true_stable|]. intros u1.
  eapply shows_bind; [eapply (shows_conseq _ (λ _, True));
    [apply (shows_dial_all (λ _, True) consumers providers), true_stable|done|done]|]. intros u2.
  eapply shows_bind; [apply shows_now|]. intros started'.
  assert (stable (λ s, True ∧ told consumers providers s)) as Ht
    by (apply and_stable; [apply true_stable | apply told_stable]).
  eapply shows_bind; [by apply shows_all_know|]. intros u3.
  eapply shows_conseq.
  - apply (shows_all_know
      (λ s, (True ∧ told consumers providers s) ∧ known "Dial" consumers providers s)).
    apply and_stable; [exact Ht | apply known_stable].
  - done.
  - intros a s [[[_ ?] ?] ?]. done.
Qed.
End sound.

(** When [run_netsim] gets to a result, the body ran on exactly [n_nodes] machines, numbered
    from 0, and the key of each node is the number of its machine, which is what
    [MachineExt::peer_id] takes the peer id of a machine to be. *)
Theorem run_netsim_nodes `{L : Libp2p, I : Ipld, M : !Netsim, P : Profile} {A}
    render path_join dir any opts (f : HarnessOpts → script A) a s' :
  run_netsim render path_join dir any opts f = Done (Some a, s') →
  ∃ s, let n := Z.to_nat (n_nodes opts) in
    machine_id <$> sim_machines s = seq 0 n ∧
    cc_keypair <$> sim_configs s = Z.of_nat <$> (machine_id <$> sim_machines s) ∧
    f opts s = Done (Some a, s').
Proof.
  intros H. apply bind_success in H as (u & s & H & Hf). exists s.
  apply bind_success in H as (cs & s0 & [Hc ->]%lift_success & H).
  apply node_configs_keys in Hc as Hk. apply started_nodes in H as [Hm Hcfg].
  destruct new_machines as [E1 E2]. rewrite E1 in Hm. rewrite E2 in Hcfg. cbn in Hm, Hcfg.
  assert (length cs = Z.to_nat (n_nodes opts)) as Hl.
  { rewrite <-(length_fmap (cc_keypair ∘ fst)), Hk, length_seqZ. lia. }
  cbn zeta. rewrite Hl in Hm. split_and!; [done| |done].
  rewrite Hcfg, Hm, <-list_fmap_compose, Hk. unfold seqZ. rewrite Nat2Z.id.
  apply list_fmap_ext. intros ? k ?. lia.
Qed.

(** If [discover_plain] succeeds, then every consumer was told every provider's address and
    dialled it, and later knew it by exactly that address, and every provider knew every
    consumer by exactly its address, from a dial or - with port reuse - as a candidate;
    or else the output of the machine in question ended, which the script does not
    notice. *)
Theorem discover_plain_sound `{L : Libp2p, I : Ipld, M : !Netsim, HO : HashOrder, P : Profile}
    (peer_id : Z → PeerId) (tcp_addr : Z → Multiaddr) opts s s' :
  discover_plain peer_id tcp_addr opts s = Done (Some (), s') →
  ∃ providers consumers,
    role peer_id tcp_addr opts Provider (sim_machines s) = Done providers ∧
    role peer_id tcp_addr opts Consumer (sim_machines s) = Done consumers ∧
    told consumers providers s' ∧ known "Dial" consumers providers s' ∧
    known (if ho_disable_port_reuse opts then "Dial" else "Candidate") providers consumers s'.
Proof.
  intros H. apply bind_success in H as (ms & s1 & [= <- <-] & H).
  apply bind_success in H as (providers & s1 & [Hp ->]%lift_success & H).
  apply bind_success in H as (consumers & s1 & [Hc ->]%lift_success & H).
  apply bind_success in H as (started & s1 & [= <- <-] & H).
  exists providers, consumers. split_and!; [done..| | |];
    apply (plain_shows consumers providers _ _ s () s' Logic.I H).
Qed.

(** *** [sim_open.rs] *)
Section open_sound.
Context `{L : Libp2p, I : Ipld, M : !Netsim, P : Profile}.
Implicit Types (F : Sim → Prop).

Lemma shows_wait_listening F fuel m :
  stable F → shows F (wait_listening fuel m) (λ _ s, F s ∧ saw m listening s).
Proof.
  intros HF. induction fuel as [|fuel IH]; [done|].
  eapply shows_bind; [by apply shows_recv|]. intros o s u s' [HFs Ho].
  destruct o as [[]|]; try by apply (IH s u s').
  destruct (harness_is_loopback a) eqn:Ha; cbn; [by apply (IH s u s')|].
  intros [= <- <-]. destruct Ho as (e & He & [= ->]). split; [|done]. split; [done|].
  left. exists (EvNewListenAddr a), (). split; [done|]. cbn. by rewrite Ha.
Qed.

(** How the wait for a connection ended is what the machine printed. *)
Lemma shows_wait_connected F fuel m peer :
  stable F → shows F (wait_connected fuel m peer)
    (λ ok s, F s ∧ (if ok then EvConnected peer else EvUnreachable peer) ∈ sim_printed s m).
Proof.
  intros HF. induction fuel as [|fuel IH]; [done|].
  eapply shows_bind; [by apply shows_recv|]. intros o s u s' [HFs Ho].
  destruct o as [[]|]; try by apply (IH s u s').
  all: case_bool_decide as Hp; [subst|by apply (IH s u s')].
  all: intros [= <- <-]; destruct Ho as (e & He & [= ->]); split; [|done]; split; done.
Qed.

(** What [sim_open] does once the two machines are there, and what its result means. *)
Lemma open_shows fuel (a b : nat) a_id b_id a_addr b_addr :
  shows (λ _, True)
    (wait_listening fuel a ;;
     wait_listening fuel b ;;
     send_cmd a (CmdAddAddress b_id b_addr) ;;
     send_cmd b (CmdAddAddress a_id a_addr) ;;
     send_cmd a (CmdDialPeer b_id) ;;
     send_cmd b (CmdDialPeer a_id) ;;
     ok <~ wait_connected fuel a b_id;
     if ok : bool then wait_connected fuel b a_id else ret false)
    (λ ok s,
       (saw a listening s ∧ saw b listening s ∧
        sent a (CmdDialPeer b_id) s ∧ sent b (CmdDialPeer a_id) s) ∧
       if ok : bool
       then EvConnected b_id ∈ sim_printed s a ∧ EvConnected a_id ∈ sim_printed s b
       else EvUnreachable b_id ∈ sim_printed s a ∨ EvUnreachable a_id ∈ sim_printed s b).
Proof.
  set (F1 := λ s, True ∧ saw a listening s). set (F2 := λ s, F1 s ∧ saw b listening s).
  assert (stable F2) as HF2.
  { apply and_stable; [apply and_stable; [apply true_stable|]|]; apply saw_stable. }
  assert (∀ m c, stable (sent m c)) as Hst by exact sent_stable.
  eapply shows_bind; [apply (shows_wait_listening (λ _, True)), true_stable|]. intros u1.
  eapply shows_bind.
  { apply (shows_wait_listening F1). apply and_stable; [apply true_stable | apply saw_stable]. }
  intros u2. eapply shows_bind; [by apply (shows_sending F2)|]. intros u3.
  eapply shows_bind; [by apply (shows_sending F2)|]. intros u4.
  eapply shows_bind; [by apply (shows_send F2)|]. intros u5.
  eapply shows_bind; [apply shows_send; by apply and_stable|]. intros u6.
  assert (stable (λ s, (F2 s ∧ sent a (CmdDialPeer b_id) s) ∧ sent b (CmdDialPeer a_id) s)) as HF3
    by (apply and_stable; [by apply and_stable | apply Hst]).
  eapply shows_bind; [by apply shows_wait_connected|]. intros [].
  - eapply shows_post.
    + apply shows_wait_connected. apply and_stable; [exact HF3|].
      intros s s' Hs. by apply extends_printed.
    + intros ok s [[[[[[_ ?] ?] ?] ?] ?] ?]. split; [done|]. destruct ok; auto.
  - eapply shows_post; [apply shows_ret|].
    intros ok s [-> [[[[[_ ?] ?] ?] ?] ?]]. auto.
Qed.
End open_sound.

(** The result of [sim_open] is what the nodes said: it succeeds when both printed that they
    are connected to the other, after each was told to dial it, and fails when one of them
    printed that the other is unreachable. *)
Theorem sim_open_sound `{L : Libp2p, I : Ipld, M : !Netsim, P : Profile}
    (peer_id : Z → PeerId) (tcp_addr : Z → Multiaddr) fuel cfg s ok s' :
  sim_open peer_id tcp_addr fuel cfg s = Done (Some ok, s') →
  ∃ a b, let wire := Some (from_millis 100) in
         let ms := sim_machines (sim_spawn (cfg 1) wire false (sim_spawn (cfg 0) wire false s)) in
    ms !! 0%nat = Some a ∧ ms !! 1%nat = Some b ∧
    sent (machine_id a) (CmdDialPeer (machine_peer_id peer_id b)) s' ∧
    sent (machine_id b) (CmdDialPeer (machine_peer_id peer_id a)) s' ∧
    if ok : bool
    then EvConnected (machine_peer_id peer_id b) ∈ sim_printed s' (machine_id a) ∧
         EvConnected (machine_peer_id peer_id a) ∈ sim_printed s' (machine_id b)
    else EvUnreachable (machine_peer_id peer_id b) ∈ sim_printed s' (machine_id a) ∨
         EvUnreachable (machine_peer_id peer_id a) ∈ sim_printed s' (machine_id b).
Proof.
  intros H. unfold sim_open in H. apply bind_success in H as (? & s0 & [= <- <-] & H).
  apply bind_success in H as (? & s1 & [= <- <-] & H).
  apply bind_success in H as (ms & s1 & [= <- <-] & H).
  apply bind_success in H as (a & s1 & [Ha ->]%lift_success & H).
  apply bind_success in H as (b & s1 & [Hb ->]%lift_success & H).
  exists a, b. cbn zeta. split; [by destruct (_ !! 0%nat); [injection Ha as ->|]|].
  split; [by destruct (_ !! 1%nat); [injection Hb as ->|]|].
  destruct (open_shows _ _ _ _ _ _ _ _ ok s' Logic.I H) as [[(_ & _ & ? & ?) ?] _]. done.
Qed.

(** *** [bitswap.rs] *)
Section bitswap_sound.
Context `{L : Libp2p, I : Ipld, M : !Netsim, HO : HashOrder, P : Profile, C : !Encoder}.
Context (block_eqb : Block → Block → bool).
Implicit Types (F : Sim → Prop) (m : Machine).

(** A provider was given the DAG under its name. *)
Definition provided (alias : string) (root : Cid) (blocks : list Block) (m : Machine) (s : Sim)
    : Prop :=
  sent (machine_id m) (CmdAlias alias (Some root)) s ∧
  ∀ b, b ∈ blocks → sent (machine_id m) (CmdInsert b) s.

(** A machine printed an event, and it is not the end of its output that was taken for it. *)
Definition printed {V} (m : nat) (f : CliEvent → option V) (Q : V → Prop) (s : Sim) : Prop :=
  ∃ e v, e ∈ sim_printed s m ∧ f e = Some v ∧ Q v.

(** A consumer was told to sync, reported it, and then gave back a block equal to [b]. *)
Definition consumed (root : Cid) (blocks : list Block) (m : Machine) (s : Sim) : Prop :=
  sent (machine_id m) (CmdSync root) s ∧
  printed (machine_id m) synced (λ _, True) s ∧
  ∀ b, b ∈ blocks → sent (machine_id m) (CmdGet (block_cid b)) s ∧
                    printed (machine_id m) is_block (λ data, block_eqb data b = true) s.

Lemma printed_stable {V} (m : nat) (f : CliEvent → option V) Q : stable (printed m f Q).
Proof.
  intros s s' Hs (e & v & He & Hf & HQ). exists e, v. split; [|done]. by eapply extends_printed.
Qed.

Lemma provided_stable alias root blocks m : stable (provided alias root blocks m).
Proof.
  apply and_stable; [apply sent_stable|]. apply (all_stable (A := Block)). intros b.
  apply imp_stable, sent_stable.
Qed.

Lemma shows_insert_dag F alias root blocks m :
  stable F → shows F (insert_dag alias root blocks m) (λ _ s, F s ∧ provided alias root blocks m s).
Proof.
  intros HF. eapply shows_then; [by apply shows_send|]. intros u.
  eapply shows_conseq.
  - apply (shows_all (λ s, F s ∧ sent (machine_id m) (CmdAlias alias (Some root)) s) (rev blocks) _
             (λ b, sent (machine_id m) (CmdInsert b))).
    + apply and_stable; [done | apply sent_stable].
    + intros b. apply sent_stable.
    + intros b _. apply shows_send. apply and_stable; [done | apply sent_stable].
  - done.
  - intros _ s [[HFs Ha] Hb]. split; [done|]. split; [done|]. intros b Hin. apply Hb.
    apply list_elem_of_In, in_rev. rewrite rev_involutive. by apply list_elem_of_In.
Qed.

(** Both results of waiting are unwrapped, so an event was printed. *)
Lemma shows_found F {V} dr (m : nat) (f : CliEvent → option V) started d :
  stable F → shows F (expect (select_deadline dr m f started d))
                     (λ v s, F s ∧ printed m f (λ v', v' = v) s).
Proof.
  intros HF. eapply shows_conseq; [by apply shows_expect, shows_deadline|done|].
  intros v s [? (e & ? & ?)]. split; [done|]. by exists e, v.
Qed.

Lemma shows_check_block F started m b :
  stable F → shows F (check_block block_eqb started m b) (λ _ s, F s ∧
    sent (machine_id m) (CmdGet (block_cid b)) s ∧
    printed (machine_id m) is_block (λ data, block_eqb data b = true) s).
Proof.
  intros HF. eapply shows_then; [by apply shows_send|]. intros u.
  eapply shows_bind; [apply shows_found; apply and_stable; [done | apply sent_stable]|].
  intros data. eapply shows_post; [apply shows_lift|].
  intros [] s [Heq [[? ?] (e & v & ? & ? & ->)]]. split; [done|]. split; [done|].
  exists e, data. destruct (block_eqb data b); done.
Qed.

Lemma shows_wait_synced F started m :
  stable F → shows F (wait_synced started m) (λ _ s, F s ∧
    printed (machine_id m) synced (λ _, True) s).
Proof.
  intros HF. eapply shows_bind; [by apply shows_found|]. intros [].
  assert (stable (λ s, F s ∧ printed (machine_id m) synced (λ v, v = ()) s)) as HF'
    by (apply and_stable; [done | apply printed_stable]).
  eapply shows_bind; [by apply shows_send|]. intros u.
  eapply shows_post.
  - apply shows_expect, shows_select. apply and_stable; [exact HF' | apply sent_stable].
  - intros _ s [[[? (e & v & ? & ? & _)] _] _]. split; [done|]. by exists e, v.
Qed.

(** What the consumers were told, and printed. *)
Lemma shows_consumers F cid blocks (root : string) consumers :
  stable F →
  shows F
    (for_each consumers (λ m,
       send_cmd (machine_id m) (CmdAlias root (Some cid)) ;;
       send_cmd (machine_id m) (CmdSync cid)) ;;
     started <~ now;
     for_each consumers (wait_synced started) ;;
     started <~ now;
     for_each consumers (λ m, for_each blocks (check_block block_eqb started m)))
    (λ _ s, F s ∧ ∀ m, m ∈ consumers → consumed cid blocks m s).
Proof.
  intros HF.
  set (F1 := λ s, F s ∧ ∀ m, m ∈ consumers → sent (machine_id m) (CmdSync cid) s).
  set (F2 := λ s, F1 s ∧ ∀ m, m ∈ consumers → printed (machine_id m) synced (λ _, True) s).
  assert (stable F1) as HF1.
  { apply and_stable; [done|]. apply (all_stable (A := Machine)). intros m.
    apply imp_stable, sent_stable. }
  assert (stable F2) as HF2.
  { apply and_stable; [done|]. apply (all_stable (A := Machine)). intros m.
    apply imp_stable, printed_stable. }
  eapply shows_bind.
  { apply (shows_all F consumers _ (λ m, sent (machine_id m) (CmdSync cid))); [done| |].
    - intros m. apply sent_stable.
    - intros m _. eapply shows_bind; [by apply shows_send|]. intros u.
      eapply shows_post; [apply shows_send, and_stable; [done | apply sent_stable]|].
      by intros a s [[? ?] ?]. }
  intros u. eapply shows_bind; [apply (shows_now F1)|]. intros started.
  eapply shows_bind.
  { apply (shows_all F1 consumers _ (λ m, printed (machine_id m) synced (λ _, True))); [done| |].
    - intros m. apply printed_stable.
    - intros m _. by apply shows_wait_synced. }
  intros u'. eapply shows_bind; [apply (shows_now F2)|]. intros started'.
  eapply shows_conseq.
  - apply (shows_all F2 consumers _ (λ m s, ∀ b, b ∈ blocks →
      sent (machine_id m) (CmdGet (block_cid b)) s ∧
      printed (machine_id m) is_block (λ data, block_eqb data b = true) s)); [done| |].
    + intros m. apply (all_stable (A := Block)). intros b. apply imp_stable, and_stable;
        [apply sent_stable | apply printed_stable].
    + intros m _. apply (shows_all F2 blocks _ (λ b s,
        sent (machine_id m) (CmdGet (block_cid b)) s ∧
        printed (machine_id m) is_block (λ data, block_eqb data b = true) s)); [done| |].
      * intros b. apply and_stable; [apply sent_stable | apply printed_stable].
      * intros b _. by apply shows_check_block.
  - done.
  - intros _ s [[[? ?] ?] ?]. split; [done|]. intros m Hm. unfold consumed. auto.
Qed.

(** From the providers' data to the check of every block. *)
Lemma serve_shows root cid blocks ms providers consumers :
  shows (λ _, True)
    (for_each providers (insert_dag root cid blocks) ;;
     for_each ms (λ m, send_cmd (machine_id m) CmdFlush) ;;
     started <~ now;
     for_each ms (λ m, expect (select_deadline true (machine_id m) flushed started 10)) ;;
     consumers <~ lift (Done consumers);
     for_each consumers (λ m,
       send_cmd (machine_id m) (CmdAlias root (Some cid)) ;;
       send_cmd (machine_id m) (CmdSync cid)) ;;
     started <~ now;
     for_each consumers (wait_synced started) ;;
     started <~ now;
     for_each consumers (λ m, for_each blocks (check_block block_eqb started m)))
    (λ _ s, (∀ m, m ∈ providers → provided root cid blocks m s) ∧
            ∀ m, m ∈ consumers → consumed cid blocks m s).
Proof.
  set (F := λ s, True ∧ ∀ m, m ∈ providers → provided root cid blocks m s).
  assert (stable F) as HF.
  { apply and_stable; [apply true_stable|]. apply (all_stable (A := Machine)). intros m.
    apply imp_stable, provided_stable. }
  eapply shows_bind.
  { apply (shows_all (λ _, True) providers _ (provided root cid blocks)); [apply true_stable| |].
    - intros m. apply provided_stable.
    - intros m _. apply shows_insert_dag, true_stable. }
  intros u. eapply shows_bind.
  { eapply shows_conseq; [apply (shows_all F ms _ (λ _ _, True)); [done..|]|done|
      intros a s [HFs _]; exact HFs].
    intros m _. eapply shows_post; [by apply shows_sending|done]. }
  intros u1. eapply shows_bind; [apply (shows_now F)|]. intros started. eapply shows_bind.
  { eapply shows_conseq; [apply (shows_all F ms _ (λ _ _, True)); [done..|]|done|
      intros a s [HFs _]; exact HFs].
    intros m _. eapply shows_post; [by apply shows_found|]. by intros a s [? _]. }
  intros u2. eapply shows_bind; [apply (shows_lift F (Done consumers))|]. intros cs s a s' [[= <-] HFs].
  intros H. eapply (shows_consumers F) in H as [[[_ ?] ?] ?]; [|done..]. done.
Qed.

(** The whole of [sync_dag], after the machines have been read. *)
Lemma sync_dag_shows root cid blocks opts stop s s' :
  sync_dag block_eqb root cid blocks opts stop s = Done (Some (), s') →
  ∃ providers consumers,
    slice 0 (n_providers opts) (sim_machines s) = Done providers ∧
    slice (n_providers opts) stop (sim_machines s) = Done consumers ∧
    (∀ m, m ∈ providers → provided root cid blocks m s') ∧
    (∀ m, m ∈ consumers → consumed cid blocks m s') ∧ sim_extends s s'.
Proof.
  intros H. apply bind_success in H as (ms & s1 & [= <- <-] & H).
  apply bind_success in H as (providers & s1 & [Hp ->]%lift_success & H).
  assert (∃ consumers, slice (n_providers opts) stop (sim_machines s) = Done consumers)
    as [consumers Hc].
  { apply bind_success in H as (? & ? & _ & H1). apply bind_success in H1 as (? & ? & _ & H2).
    apply bind_success in H2 as (? & ? & _ & H3). apply bind_success in H3 as (? & ? & _ & H4).
    apply bind_success in H4 as (consumers & ? & [? _]%lift_success & _). eauto. }
  rewrite Hc in H. exists providers, consumers. split_and!; [done..| | |];
    apply (serve_shows root cid blocks (sim_machines s) providers consumers s () s' Logic.I H).
Qed.

(** The wait for an address ends only with one that is not a loopback address. *)
Lemma shows_wait_address fuel (m : nat) :
  shows (λ _, True) (wait_address fuel m) (λ _ s, printed m listening (λ _, True) s).
Proof.
  induction fuel as [|fuel IH]; [done|].
  eapply shows_bind; [apply (shows_select (λ _, True)), true_stable|].
  intros o s u s' [_ Ho].
  destruct o as [[]|]; try by apply (IH s u s').
  destruct (harness_is_loopback a) eqn:Ha; cbn; [by apply (IH s u s')|].
  intros [= <- <-]. destruct Ho as (e & He & [= ->]). split; [|done].
  exists (EvNewListenAddr a), (). split; [done|]. cbn. by rewrite Ha.
Qed.

Lemma shows_all_addresses fuel (ms : list Machine) :
  shows (λ _, True) (for_each ms (λ m, ignore (wait_address fuel (machine_id m))))
    (λ _ s, ∀ m, m ∈ ms → printed (machine_id m) listening (λ _, True) s).
Proof.
  eapply shows_post.
  - apply (shows_for_each (λ _, True) ms _ (λ m, printed (machine_id m) listening (λ _, True)));
      [apply true_stable | intros m; apply printed_stable|].
    intros m _. apply shows_ignore, shows_wait_address.
  - by intros _ s [_ ?].
Qed.

(** The unrelated data only adds commands. *)
Lemma shows_spam F render opts n i g :
  stable F → shows F (spam render opts n i g) (λ _ s, F s).
Proof.
  intros HF. revert i g. induction n as [|n IH]; intros i g.
  { eapply shows_post; [apply shows_ret|]. by intros a s [_ ?]. }
  cbn. destruct (build_tree _ _ g) as [[[root blocks]|e] g'];
    [|eapply shows_post; [apply shows_ret|]; by intros a s [_ ?]].
  eapply shows_bind; [apply shows_machines|]. intros ms. eapply shows_bind; [|intros u; apply IH].
  eapply shows_post; [apply (shows_all F ms _ (λ _ _, True)); [done..|]|by intros a s [? _]].
  intros m _. eapply shows_post; [by apply shows_insert_dag|]. by intros a s [? _].
Qed.
End bitswap_sound.

(** A successful run of [bitswap.rs], with what it has checked. *)
Lemma bitswap_run `{L : Libp2p, I : Ipld, M : !Netsim, HO : HashOrder, P : Profile, C : !Encoder}
    (block_eqb : Block → Block → bool) fuel render root opts (g : Rng) s s' :
  bitswap_sim block_eqb fuel render root opts g s = Done (Some (Ok ()), s') →
  sim_extends s s' ∧ (∀ m, m ∈ sim_machines s → printed (machine_id m) listening (λ _, True) s') ∧
  ∃ stop cid blocks g1 g2,
    add_u 64 (n_providers opts) (n_consumers opts) = Done stop ∧
    build_tree (tree_width opts) (tree_depth opts) g1 = (Ok (cid, blocks), g2) ∧
    sim_machines s `prefix_of` sim_machines s' ∧
    0 ≤ n_providers opts ≤ stop ∧ stop ≤ Z.of_nat (length (sim_machines s')) ∧
    ∀ i m, sim_machines s' !! i = Some m →
      (Z.of_nat i < n_providers opts → provided root cid blocks m s') ∧
      (n_providers opts ≤ Z.of_nat i < stop → consumed block_eqb cid blocks m s').
Proof.
  intros H. apply bind_success in H as (stop & s1 & [Hs ->]%lift_success & H).
  apply bind_success in H as (ms & s1 & [= <- <-] & H).
  apply bind_success in H as (u & s1 & Hl & H). apply bind_success in H as ([r g'] & s2 & Hx & H).
  destruct r as [[]|e]; [|done].
  destruct (build_tree _ _ g') as [[[cid blocks]|e] g2] eqn:Hb; [|done].
  apply bind_success in H as ([] & s3 & H & [= ->]).
  apply shows_all_addresses in Hl as [Hl He1]; [|done].
  apply (shows_spam (λ _, True)) in Hx as [_ He2]; [|done..].
  apply sync_dag_shows in H as (providers & consumers & H1 & H2 & H3 & H4 & He3). split_and!.
  - etrans; [exact He1|]. by etrans.
  - intros m Hm. eapply printed_stable; [|by apply Hl]. by etrans.
  - exists stop, cid, blocks, g', g2.
    assert (sim_machines s2 `prefix_of` sim_machines s') as Hpre by by apply extends_machines.
    pose proof (prefix_length _ _ Hpre) as Hlen.
    apply slice_done in H1 as [Hb1 H1]. apply slice_done in H2 as [Hb2 H2].
    split_and!; try done; [|lia..|].
    { trans (sim_machines s2); [|done]. apply extends_machines. by etrans. }
    intros i m Hi. split; intros Hr; [apply H3, (H1 i) | apply H4, (H2 i)]; try lia;
      rewrite <- Hi; apply prefix_lookup_lt; (lia || done).
Qed.

(** C35: what a successful run of [bitswap.rs] has checked.  All machines have printed an
    address to listen on that is not a loopback address; with the DAG that [build_tree]
    made, the first [n_providers] machines were given its name and every block of it,
    and each of the [n_consumers] next ones was told to sync the root, has printed that
    it is synced, and has for every block of the DAG been asked for it and printed a
    block equal to it. *)
Theorem bitswap_sound `{L : Libp2p, I : Ipld, M : !Netsim, HO : HashOrder, P : Profile, C : !Encoder}
    (block_eqb : Block → Block → bool) fuel render root opts (g : Rng) s s' :
  bitswap_sim block_eqb fuel render root opts g s = Done (Some (Ok ()), s') →
  (∀ m, m ∈ sim_machines s → printed (machine_id m) listening (λ _, True) s') ∧
  ∃ stop cid blocks g1 g2,
    add_u 64 (n_providers opts) (n_consumers opts) = Done stop ∧
    build_tree (tree_width opts) (tree_depth opts) g1 = (Ok (cid, blocks), g2) ∧
    sim_machines s `prefix_of` sim_machines s' ∧
    0 ≤ n_providers opts ≤ stop ∧ stop ≤ Z.of_nat (length (sim_machines s')) ∧
    ∀ i m, sim_machines s' !! i = Some m →
      (Z.of_nat i < n_providers opts → provided root cid blocks m s') ∧
      (n_providers opts ≤ Z.of_nat i < stop → consumed block_eqb cid blocks m s').
Proof. intros H. by apply bitswap_run in H as [_ H]. Qed.

(** *** A simulator

    Machines that answer at once: a block is looked up among those inserted into the
    first machine. *)
Record ToySim : Type := MkToySim {
  ts_machines : list Machine;
  ts_configs : list (CliConfig (L := toy));
  ts_sent : nat → list (Command (L := toy) (I := numbered));
  ts_printed : nat → list (CliEvent (L := toy) (I := numbered));
  ts_cursor : nat → nat;
}.

Definition toy_reply (s : ToySim) (c : Command (L := toy) (I := numbered))
    : list (CliEvent (L := toy) (I := numbered)) :=
  match c with
  | CmdFlush => [EvFlushed]
  | CmdSync _ => [EvSynced]
  | CmdGet c =>
      omap (λ c', match c' with
                  | CmdInsert b => if bool_decide (block_cid b = c) then Some (EvBlock b) else None
                  | _ => None
                  end) (ts_sent s 0%nat)
  | _ => []
  end.

Definition set_at {A} (m : nat) (x : A) (f : nat → A) : nat → A :=
  λ m', if decide (m' = m) then x else f m'.

Definition toy_send (m : nat) (c : Command (L := toy) (I := numbered)) (s : ToySim) : ToySim :=
  MkToySim (ts_machines s) (ts_configs s) (set_at m (ts_sent s m ++ [c]) (ts_sent s))
    (set_at m (ts_printed s m ++ toy_reply s c) (ts_printed s)) (ts_cursor s).

(** The first event [f] accepts, with its position. *)
Fixpoint first_event {V} (f : CliEvent (L := toy) (I := numbered) → option V) (n : nat)
    (l : list (CliEvent (L := toy) (I := numbered))) : option (V * nat) :=
  match l with
  | [] => None
  | e :: l => match f e with Some v => Some (v, S n) | None => first_event f (S n) l end
  end.

Lemma first_event_found {V} f n l (v : V) k :
  first_event f n l = Some (v, k) → ∃ e, e ∈ l ∧ f e = Some v.
Proof.
  revert n. induction l as [|e l IH]; intros n; cbn; [done|]. destruct (f e) eqn:E.
  - intros [= -> _]. exists e. split; [apply list_elem_of_here | done].
  - intros (e' & ? & ?)%IH. exists e'. split; [by apply list_elem_of_further | done].
Qed.

Definition toy_select {V} (m : nat) (f : CliEvent (L := toy) (I := numbered) → option V)
    (s : ToySim) : selected V * ToySim :=
  match first_event f (ts_cursor s m) (drop (ts_cursor s m) (ts_printed s m)) with
  | Some (v, n) =>
      (Found v, MkToySim (ts_machines s) (ts_configs s) (ts_sent s) (ts_printed s) (set_at m n (ts_cursor s)))
  | None => (TimedOut, s)
  end.

Definition toy_extends (s s' : ToySim) : Prop :=
  ts_machines s `prefix_of` ts_machines s' ∧
  (∀ m, ts_sent s m ⊆ ts_sent s' m) ∧ (∀ m, ts_printed s m ⊆ ts_printed s' m).

#[local] Instance toy_extends_preorder : PreOrder toy_extends.
Proof.
  split; [by intros s; split|]. intros s1 s2 s3 (H1 & H2 & H3) (H4 & H5 & H6).
  split_and!; [by etrans | intros m; etrans; eauto..].
Qed.

Lemma toy_send_extends m c s : toy_extends s (toy_send m c s).
Proof.
  split; [done|]. split; intros m'; cbn; unfold set_at; case_decide; subst; try done;
    intros x Hx; apply elem_of_app; by left.
Qed.

#[export] Program Instance toy_netsim : Netsim (L := toy) (I := numbered) := {|
  Sim := ToySim;
  sim_machines := ts_machines;
  sim_sent := ts_sent;
  sim_printed := ts_printed;
  sim_ended _ _ := false;
  sim_now _ := 0;
  sim_send := toy_send;
  sim_select V _ m f _ s := toy_select m f s;
  sim_drain m _ s :=
    MkToySim (ts_machines s) (ts_configs s) (ts_sent s) (ts_printed s)
      (set_at m (length (ts_printed s m)) (ts_cursor s));
  sim_down _ s := s;
  sim_configs := ts_configs;
  sim_new := MkToySim [] [] (λ _, []) (λ _, []) (λ _, 0%nat);
  sim_spawn c _ _ s :=
    MkToySim (ts_machines s ++ [MkMachine (length (ts_machines s)) 0]) (ts_configs s ++ [c])
      (ts_sent s) (ts_printed s) (ts_cursor s);
  sim_nat _ s := s;
  sim_extends := toy_extends;
  send_extends := toy_send_extends;
|}.
Next Obligation. by intros s s' (H & _). Qed.
Next Obligation. intros s s' m c (_ & H & _). apply H. Qed.
Next Obligation. intros s s' m e (_ & _ & H). apply H. Qed.
Next Obligation. done. Qed.
Next Obligation.
  intros m c s. cbn. unfold set_at. rewrite decide_True by done. apply elem_of_app. right.
  by apply list_elem_of_singleton.
Qed.
Next Obligation. intros V dr m f d s. unfold toy_select. by destruct (first_event _ _ _) as [[v n]|]. Qed.
Next Obligation.
  intros V dr m f d s v. unfold toy_select. destruct (first_event _ _ _) as [[v' n]|] eqn:E; [|done].
  intros [= ->]. apply first_event_found in E as (e & He & Hf). exists e. split; [|done].
  cbn. by eapply (subseteq_drop (ts_cursor s m)).
Qed.
Next Obligation.
  intros V dr m f d s. unfold toy_select. by destruct (first_event _ _ _) as [[v' n]|].
Qed.
Next Obligation. done. Qed.
Next Obligation. done. Qed.
Next Obligation. intros c d b s. split_and!; [by apply prefix_app_r | done..]. Qed.
Next Obligation. done. Qed.
Next Obligation. intros c d b s. by eexists. Qed.
Next Obligation. done. Qed.
Next Obligation. done. Qed.

(** Three machines that listen; the first provides, the second consumes. *)
Definition sim0 : ToySim :=
  MkToySim machines0 [] (λ _, []) (λ _, [EvNewListenAddr [Ip4 167772161; Tcp 30000]]) (λ _, 0%nat).
Definition sim_opts : HarnessOpts := MkHarnessOpts 3 1 1 1 0 false 2 1 false.
Definition toy_block_eqb (a b : Block (Ipld := numbered)) : bool := bool_decide (a = b).

Notation sim_run :=
  (bitswap_sim (L := toy) (I := numbered) (M := toy_netsim) (P := dev_profile) (C := toy_encoder)
     toy_block_eqb 2 (λ _, "0") "root" sim_opts rng0 sim0).
Definition sim_result (r : outcome (option (result () string) * ToySim)) : bool :=
  match r with Done (Some (Ok _), _) => true | _ => false end.

Lemma sim_result_ok r : sim_result r = true → ∃ s', r = Done (Some (Ok ()), s').
Proof. destruct r as [[[[[]|]|] s']|]; try done. by exists s'. Qed.

Lemma sim_run_ok : sim_result sim_run = true.
Proof. by vm_compute. Qed.

Lemma bitswap_sound_witness :
  ∃ s', sim_run = Done (Some (Ok ()), s') ∧
    ∃ cid blocks, length blocks = 3%nat ∧
      consumed (I := numbered) (M := toy_netsim) toy_block_eqb cid blocks (MkMachine 1 2) s'.
Proof.
  destruct (sim_result_ok sim_run) as [s' E]; [exact sim_run_ok|].
  exists s'. split; [exact E|].
  destruct (bitswap_sound (L := toy) (I := numbered) (M := toy_netsim) (P := dev_profile) toy_block_eqb 2
    (λ _, "0") "root" sim_opts rng0 sim0 s' E)
    as [_ (stop & cid & bs & g1 & g2 & Hs & Hb & [k Hp] & _ & _ & H)].
  injection Hs as <-. exists cid, bs. split.
  - unfold build_tree in Hb. destruct (build_tree_0 _ _ [] g1) as [[[c0|] bs0] g'] eqn:Et; [|done].
    injection Hb as -> -> ->. apply build_tree_0_tree in Et as (bs' & -> & Ht).
    apply (proj1 (tree_forest_facts _)) in Ht as [Hl _]. exact Hl.
  - destruct (H 1%nat (MkMachine 1 2)) as [_ Hc]; [rewrite Hp; exact eq_refl|].
    apply Hc. split; [discriminate | exact eq_refl].
Defined.
